(* ===== verification/_CoqProject ===== *)
-Q . S2P
Prelude.v
Memory.v
Strings.v
Hash.v
Dict.v
DoubleCell.v
Utf8.v
LineIO.v
Sizes.v
FloatText.v
Files.v
Relocate.v
Tpa.v
Labels.v
Automaton.v
Prims.v
Supers.v
PrimSearch.v
CheckPrims.v
CodeGen.v
Layout.v
BasicBlocks.v
DynInfo.v
Rewrite.v
Program.v
Stacks.v
Image.v
Signals.v
Startup.v
Division.v
StageDiv.v
IpRun.v
IpBlock.v
Profile.v
Peephole.v
Engine.v
StackMachine.v
Counted.v
Exceptions.v
Fallback.v
