(* ===== verification/Prelude.v ===== *)
(** * A verification library for the Gforth engine

    Gforth is a Forth system whose engine is written in C (src/engine/).  This
    library models the parts of the engine that carry its own logic as
    executable definitions, with the names of the source, and proves what makes
    them correct.

    ** The program

    At start-up [gforth_start] (main.c) reads the options, [gforth_loader]
    finds an image file, maps it, and hands its sections to [gforth_relocate],
    which turns tagged cells into addresses, primitives and threaded code.
    Every threaded-code cell goes through [compile_prim1], which collects basic
    blocks; [optimize_rewrite] covers a block with static superinstructions and
    stack-caching variants of least cost and appends their machine code to a
    code block.  Whether a primitive's code may be copied was determined by
    [check_prims]; which superinstructions exist, by [prepare_super_table].
    [gforth_stacks] maps the stacks with guard pages, [gforth_go] runs the
    interpreter, and a fault in a guard page (signals.c) comes back to it as a
    Forth exception.  The running Forth program calls the C functions of
    support.c, io.c and dblsub.c for strings, files, dictionary search, number
    conversion and arithmetic.

    ** The files

    Foundations: [Prelude] (64-bit wrap-around, outcomes with [throw],
    automation), [Memory] (byte-addressed memory, little-endian loads).

    Loading (main.c): [Image] (search for the image, preamble, checksum,
    mapping, the loader; it calls the relocator), [Relocate] (relocation and
    the order of the compile calls), [Files] (file names, over the class [OS]),
    [Sizes] (strtol.c, [convsize]), [Startup] (options, entry points, the loop
    of [gforth_go]).

    Code generation (main.c): [Prims] (cost table entries, [PrimInfo]),
    [PrimSearch] (label searches), [CheckPrims] ([check_prims]), [Supers] (the
    superinstruction table), [Tpa] (instruction selection: dynamic programming
    and the automaton that memoises it; [Labels] says what the labels of a block
    promise, [Automaton] that the automaton finds the same up to a constant),
    [CodeGen] (code blocks, ip updates, [compile_prim_dyn], forgetting; [Layout]
    says where the code lies), [DynInfo] (the records the decompiler reads),
    [Rewrite] (the whole of [optimize_rewrite], with a machine that runs the
    code), [IpRun] and [IpBlock] (the same with lazy instruction-pointer updates,
    the configuration of the engine that is built by default; [Layout],
    [Rewrite] and [Program] are about the engine for debugging, where every
    primitive updates the pointer), [BasicBlocks] ([compile_prim1]).  [Tpa] takes the superinstruction
    table as a function with laws; [Supers] proves that the table it builds
    obeys them; [BasicBlocks] composes both, and [Program] everything: tables,
    blocks, code, execution and decompilation.

    Memory and faults: [Stacks] (layout with guard pages), [Signals] (handlers
    and throw codes), composed with the trap loop in [Startup].

    Run-time support: [Strings] (block moves, comparison, parsing; support.c,
    memcmp.c, memmove.c), [Hash], [Dict] (dictionary search), [Utf8], [LineIO]
    ([read_line], the ungotten table of io.c, keys), [FloatText] ([to_float],
    [represent]), [DoubleCell] (dblsub.c), [Division] ([umdiv] in two
    implementations behind the class [UmDiv], [smdiv], [fmdiv]; longlong.h),
    [StageDiv] (staged division, with the Forth words of stagediv.fs).

    The interpreter (prim, prims2x.fs, engine.c, threaded.h): [Engine]
    (registers, the primitives with their stack effects, the code that the
    generator puts around each, dispatch), [StackMachine] (what Forth
    programmers see: stacks as lists; a specification that [Engine] refines),
    [Counted] (counted loops, on [StackMachine]), [Exceptions] ([(try)],
    [uncatch], [fast-throw], on [Engine] with its memory), [Fallback] (the
    Forth definitions that prim gives beside the C code).

    Support code of the generator Vmgen: [Profile] (block profiles; profile.c),
    [Peephole] (the static peephole optimizer; peephole.c).

    ** Representation

    Cells are [Z] with every wrap-around written out ([U64], [S64]; [S32], [U8]
    and so on where the C type is narrower).  Global variables of a component
    are the fields of a record that its operations pass along.  Memory that
    the code addresses with pointers is a function from addresses; arrays and
    files are lists, and an access outside an array is [None] unless the file's
    comment says otherwise.  A failed [assert] is [None] too, so that a theorem
    about a result shows that the assertions hold.  A throw is [Throw].
    Generated tables, system calls and C library functions without source here
    are arguments, with the documented behaviour that is needed as hypotheses;
    each property has an instance with concrete arguments.  The configuration
    is a 64-bit little-endian Unix with direct threading and dynamic code.

    ** The theorems

    - Loading: an image in the format of comp-image loads as it was written
      ([Image.image_loads]), references resolve to what they stand for and
      nothing else changes ([Relocate]), the search order of images, option
      values in range ([Startup.args_in_range]).
    - Code generation: in the engine for debugging, a compiled program executes,
      block by block, covers of its instructions, and decompiles to them
      ([Program.compiled_program_correct]); the hypothesis that the space
      reserved for a block suffices holds when code size is minimised and
      the block's last instruction has the longest ending
      ([Rewrite.code_size_block_compiled]), and examples show that both are
      needed.  Covers of blocks of relocatable code are optimal
      ([Tpa.selection_optimal]), the automaton does
      not change them or the code ([Automaton.automaton_transparent],
      [Rewrite.automaton_same_code]) and is on only where that holds ([Supers]),
      a program of ordinary instructions is selected without a failed assertion
      ([BasicBlocks.program_compiles]),
      compiled code stays intact ([CodeGen.compiled_code_intact]), with delayed
      and merged updates the instruction pointer has the right value wherever it
      is needed ([IpBlock.default_block_exact]), decompilation gives back the source
      ([DynInfo.decompile_roundtrip]), copied primitives are relocatable
      ([CheckPrims.check_prims_sound]).
    - The interpreter: it implements the stack machine
      ([StackMachine.interpreter_refines_stack_machine]); a counted loop runs
      its body for exactly the indices in its range and ends
      ([Counted.counted_loop_runs]), each loop primitive leaves at its boundary
      for all cells ([Counted.loop_leaves_at_boundary]); throwing restores the
      state of the handler ([Exceptions.throw_returns_to_try]), and handlers
      nest in whole runs of programs that do not overwrite them
      ([Exceptions.handlers_form_a_stack]); the Forth definitions of
      primitives do what the C code does
      ([Fallback.forth_definitions_agree]), with the exceptions shown there;
      division is exact or throws ([Engine.division_primitives_exact]).
    - Vmgen: combining instructions preserves the program
      ([Peephole.combined_code_equivalent]), profiles count every entry of a
      block, by jumps and by falling through ([Profile.profile_exact]).
    - Faults: stacks and guard pages do not overlap ([Stacks]), faults get the
      right code ([Signals]; for stack sizes that keep the cached elements off a
      page boundary, without which an example fails) and reach the Forth
      exception handler, and [gforth_go] ends if the program does when it is
      handed its traps as exceptions ([Startup]).
    - Support functions: exact results on every input, against reference
      definitions: first match in dictionary order, floored division, the
      grammar of floating-point text, the split of a stream into lines, the
      limits of [strtol], round trips of UTF-8.

    ** Fuel and bounds

    Loops that are not structural take fuel.  It is computed where the code's
    data gives a bound: the length of the array or text ([bsearch_next],
    [search_path], [skip_preamble], which consume it), the number of bytes
    ([hashkey2a]), 256 minus the section number ([load_sections], the bound of
    the C loop).  Where the number of steps depends on the run (linked lists of
    the dictionary, ip updates, engine restarts) the theorems state how much
    fuel is enough: the length of the list, the distance divided by the largest
    update, the number of traps.  [getc_retry] never repeats
    ([LineIO.getc_line_eq]).

    ** Not modelled

    Of the primitives: shifts and rotations by a variable count (their result
    for counts above the cell size is the processor's), floating point, and
    those that only call a C function or the operating system; the registers
    that cache stack items (the machine code of the cached variants appears in
    [Prims] and [Tpa] as costs and lengths).  [Startup] and the code generator
    take the interpreter and the machine code of primitives as parameters, so
    [Engine] is not composed with them.  Terminal
    modes (io.c), diagnostic and metrics output, [gforth_init]'s and [gforth_cleanup]'s library calls, the wrappers
    for system, sleep and dynamic libraries (support.c, libcc.h) are calls of
    the operating system without own logic.  getopt.c, fnmatch.c and wcwidth.c
    are copies of other projects' code; atanh.c, ecvt_r.c and the like compute
    with floats through libm.  The vmgen examples (src/vmgen-ex and its copies)
    contain generated lexers and parsers, and copies of the files modelled in
    [Peephole] and [Profile]; src/arch holds vendored drivers.  The Forth sources are modelled
    only where a C function inverts or completes them (utf-8.fs, stagediv.fs,
    the image format of comp-i.fs). *)

From Stdlib Require Export ZArith Lia.
From stdpp Require Export prelude list gmap numbers.

Open Scope Z_scope.

(** ** Machine integers

    A [Cell] is a signed and a [UCell] an unsigned 64-bit integer; both are
    modelled by [Z] and every C operation that can leave the range is wrapped
    explicitly by [U64] (unsigned result) or [S64] (signed result, two's
    complement conversion). *)

Definition CELL_BITS : Z := 64.

(** [B] is the number of values of a cell. *)
Definition B : Z := 18446744073709551616.
(** Half of that: cells range over [-BH .. BH-1]. *)
Definition BH : Z := 9223372036854775808.

Definition U64 (z : Z) : Z := z mod B.
Definition S64 (z : Z) : Z := (z + BH) mod B - BH.
Definition U32 (z : Z) : Z := z mod 4294967296.
Definition S32 (z : Z) : Z := (z + 2147483648) mod 4294967296 - 2147483648.
Definition U8 (z : Z) : Z := z mod 256.

#[global] Arguments Z.add : simpl never.
#[global] Arguments Z.sub : simpl never.
#[global] Arguments Z.mul : simpl never.
#[global] Arguments Z.opp : simpl never.
#[global] Arguments Z.div : simpl never.
#[global] Arguments Z.modulo : simpl never.
#[global] Arguments Z.pow : simpl never.
#[global] Arguments Z.shiftl : simpl never.
#[global] Arguments Z.shiftr : simpl never.
#[global] Arguments Z.land : simpl never.
#[global] Arguments Z.lor : simpl never.
#[global] Arguments U64 : simpl never.
#[global] Arguments S64 : simpl never.
#[global] Arguments U32 : simpl never.
#[global] Arguments S32 : simpl never.
#[global] Arguments U8 : simpl never.

Definition CELL_MIN : Z := - BH.

Definition is_ucell (z : Z) : Prop := 0 <= z < B.
Definition is_cell (z : Z) : Prop := - BH <= z < BH.
Definition is_char (z : Z) : Prop := 0 <= z < 256.

(** [FLAG(b)] of forth.h: a Forth flag is 0 or -1. *)
Definition FLAG (b : bool) : Z := if b then -1 else 0.

(** A C comparison used as an integer. *)
Definition c_bool (b : bool) : Z := if b then 1 else 0.

(** ** Outcomes: a value, or a [throw] (a longjmp to the Forth handler). *)

Inductive outcome (A : Type) : Type :=
| Ret (a : A)
| Throw (code : Z).
Arguments Ret {A} a.
Arguments Throw {A} code.

#[export] Instance outcome_ret : MRet outcome := fun A => @Ret A.
#[export] Instance outcome_bind : MBind outcome := fun A C k m =>
  match m with Ret a => k a | Throw c => Throw c end.

(** ** Automation *)

(** Case analysis on the boolean comparisons of a goal. *)
Ltac zcase_step :=
  match goal with
  | |- context [?a <? ?b] => destruct (Z.ltb_spec a b)
  | |- context [?a <=? ?b] => destruct (Z.leb_spec a b)
  | |- context [?a =? ?b] => destruct (Z.eqb_spec a b)
  end.
Ltac zcases := repeat (zcase_step; cbv beta iota).

(** Boolean comparisons in hypotheses to propositions. *)
Ltac zbool :=
  repeat match goal with
  | H : (_ && _)%bool = true |- _ => apply andb_true_iff in H as [? ?]
  | H : (_ || _)%bool = false |- _ => apply orb_false_iff in H as [? ?]
  | H : (_ && _)%bool = false |- _ => apply andb_false_iff in H
  | H : (_ || _)%bool = true |- _ => apply orb_true_iff in H
  | H : negb _ = true |- _ => apply negb_true_iff in H
  | H : negb _ = false |- _ => apply negb_false_iff in H
  | H : (_ <? _) = true |- _ => apply Z.ltb_lt in H
  | H : (_ <? _) = false |- _ => apply Z.ltb_ge in H
  | H : (_ <=? _) = true |- _ => apply Z.leb_le in H
  | H : (_ <=? _) = false |- _ => apply Z.leb_gt in H
  | H : (_ =? _) = true |- _ => apply Z.eqb_eq in H
  | H : (_ =? _) = false |- _ => apply Z.eqb_neq in H
  end.

(** Goals about wrap-around: unfold the wraps, turn [div] and [mod] into
    equations and call [lia]. *)
Ltac wrap_unfold := unfold is_ucell, is_cell, is_char, U64, S64, U32, S32, U8,
  CELL_MIN, BH, B in *.
Ltac wrap_lia := wrap_unfold; Z.div_mod_to_equations; lia.

Lemma B_pos : 0 < B.
Proof. reflexivity. Qed.

Lemma B_pow : B = 2 ^ 64.
Proof. reflexivity. Qed.

Lemma U64_range z : is_ucell (U64 z).
Proof. wrap_lia. Qed.

Lemma S64_range z : is_cell (S64 z).
Proof. wrap_lia. Qed.

Lemma U64_small z : is_ucell z -> U64 z = z.
Proof. intros. apply Z.mod_small. exact H. Qed.

Lemma S64_small z : is_cell z -> S64 z = z.
Proof. wrap_lia. Qed.

Lemma U64_S64 z : U64 (S64 z) = U64 z.
Proof. wrap_lia. Qed.

Lemma S64_U64 z : S64 (U64 z) = S64 z.
Proof. wrap_lia. Qed.

Lemma U64_add_l a b : U64 (U64 a + b) = U64 (a + b).
Proof. apply Zplus_mod_idemp_l. Qed.

Lemma U64_add_r a b : U64 (a + U64 b) = U64 (a + b).
Proof. apply Zplus_mod_idemp_r. Qed.

Lemma U64_mul_l a b : U64 (U64 a * b) = U64 (a * b).
Proof. apply Zmult_mod_idemp_l. Qed.

Lemma U64_mul_r a b : U64 (a * U64 b) = U64 (a * b).
Proof. apply Zmult_mod_idemp_r. Qed.

Lemma U64_opp a : U64 (- U64 a) = U64 (- a).
Proof. wrap_lia. Qed.

Lemma S64_sub_l a b : S64 (S64 a - b) = S64 (a - b).
Proof. wrap_lia. Qed.

Lemma S64_add_l a b : S64 (S64 a + b) = S64 (a + b).
Proof. wrap_lia. Qed.

Lemma S64_add_B a k : S64 (a + k * B) = S64 a.
Proof. wrap_lia. Qed.

Lemma U64_add_B a k : U64 (a + k * B) = U64 a.
Proof. wrap_lia. Qed.

Create HintDb cell.
Create Rewrite HintDb cell.
#[export] Hint Resolve B_pos U64_range S64_range : cell.
#[export] Hint Rewrite U64_S64 S64_U64 U64_add_l U64_add_r U64_mul_l U64_mul_r
  U64_opp : cell.

(** Quotient and remainder are determined by the division equation. *)
Lemma div_mod_unique_pos a b q r :
  0 <= r < b -> a = q * b + r -> q = a / b /\ r = a mod b.
Proof.
  intros Hr Ha. subst a.
  split; [apply Z.div_unique with r | apply Z.mod_unique with q]; lia.
Qed.

Lemma div_mod_eq a b : 0 < b -> a = a / b * b + a mod b.
Proof. intros. rewrite (Z.div_mod a b) at 1; lia. Qed.

(** A property of all numbers below [n], by evaluation. *)
Lemma forallb_range (f : Z -> bool) n :
  forallb f (map Z.of_nat (seq 0 n)) = true -> forall z, 0 <= z < Z.of_nat n -> f z = true.
Proof.
  intros H z Hz. rewrite List.forallb_forall in H. apply H.
  replace z with (Z.of_nat (Z.to_nat z)) by lia. apply in_map, in_seq. lia.
Qed.

(** Shifting right drops low bits from the logarithm. *)
Lemma log2_shiftr_pos x a : 0 <= a -> 0 < Z.shiftr x a -> Z.log2 x = Z.log2 (Z.shiftr x a) + a.
Proof.
  intros Ha Hy. rewrite Z.shiftr_div_pow2 in * by done.
  assert (Hp : 0 < 2 ^ a) by (apply Z.pow_pos_nonneg; lia).
  pose proof (div_mod_eq x (2 ^ a) Hp). pose proof (Z.mod_pos_bound x (2 ^ a) Hp).
  pose proof (Z.log2_spec _ Hy) as [L1 L2]. pose proof (Z.log2_nonneg (x / 2 ^ a)).
  apply Z.log2_unique; [lia|]. rewrite <- Z.add_succ_l, !Z.pow_add_r by lia. nia.
Qed.

(** Or-ing low bits into a shifted number is addition. *)
Lemma lor_low hi k lo : 0 <= k -> 0 <= lo < 2 ^ k -> Z.lor (hi * 2 ^ k) lo = hi * 2 ^ k + lo.
Proof.
  intros Hk Hlo. rewrite <- Z.shiftl_mul_pow2 by lia.
  rewrite Z.add_nocarry_lxor, Z.lxor_lor; try done;
    apply Z.bits_inj'; intros i Hi; rewrite Z.land_spec, Z.bits_0;
    destruct (Z.lt_ge_cases i k).
  1,3: by rewrite Z.shiftl_spec_low.
  1,2: rewrite (Z.testbit_eqb lo) by lia; rewrite Z.div_small; [apply andb_false_r|];
    split; [lia|]; apply Z.lt_le_trans with (2 ^ k); [lia|]; apply Z.pow_le_mono_r; lia.
Qed.

Lemma lookup_nth_lt {A} (l : list A) i d : (i < length l)%nat -> l !! i = Some (nth i l d).
Proof. intros H. apply nth_lookup_or_length || (rewrite nth_lookup; by destruct (lookup_lt_is_Some_2 l i H) as [x ->]). Qed.

Lemma List_last_lookup {A} (l : list A) d x : l !! pred (length l) = Some x -> List.last l d = x.
Proof.
  induction l as [|y [|z l] IH]; intros H; [done|by injection H|]. apply IH. exact H.
Qed.
