(* ===== verification/Memory.v ===== *)
(** * Byte-addressed memory

    The engine's C code works on raw addresses.  A [memory] gives the byte at
    every address; a C loop that writes is a function from memory to memory,
    so overlapping ranges are visible.  Whether an address is mapped is a
    separate predicate of the theorems that need it. *)
From S2P Require Import Prelude.

Definition memory := Z -> Z.

Definition store (m : memory) (a v : Z) : memory := fun x => if x =? a then v else m x.

(** The [n] bytes from [a] on. *)
Fixpoint bytes_at (m : memory) (a : Z) (n : nat) : list Z :=
  match n with
  | O => []
  | S n => m a :: bytes_at m (a + 1) n
  end.

(** Little-endian value of a byte list, and an 8-byte load
    ([memmove(&w, p, sizeof(w))] on a little-endian machine). *)
Fixpoint le_val (l : list Z) : Z :=
  match l with
  | [] => 0
  | b :: l => b + 256 * le_val l
  end.

Definition load_cell (m : memory) (a : Z) : Z := le_val (bytes_at m a 8).

Definition wf_mem (m : memory) : Prop := forall a, is_char (m a).

(** Pages that can be read: all or nothing per page of [ps] bytes. *)
Definition page_mapped (ps : Z) (mapped : Z -> bool) : Prop :=
  forall a b, a / ps = b / ps -> mapped a = mapped b.

(** ** Lemmas *)

Lemma store_eq m a v : store m a v a = v.
Proof. unfold store. by rewrite Z.eqb_refl. Qed.

Lemma store_ne m a v x : x <> a -> store m a v x = m x.
Proof. unfold store. intros. by destruct (Z.eqb_spec x a). Qed.

Lemma bytes_at_length m a n : length (bytes_at m a n) = n.
Proof. revert a. induction n; intros; cbn; auto. Qed.

Lemma bytes_at_lookup m a n i :
  (i < n)%nat -> bytes_at m a n !! i = Some (m (a + Z.of_nat i)).
Proof.
  revert a i. induction n as [|n IH]; intros a i Hi; [lia|]. destruct i as [|i].
  - cbn. do 2 f_equal. lia.
  - cbn [bytes_at]. change ((bytes_at m (a + 1) n) !! i = Some (m (a + Z.of_nat (S i)))). rewrite IH by lia. do 2 f_equal. lia.
Qed.

Lemma bytes_at_app m a n k :
  bytes_at m a (n + k) = bytes_at m a n ++ bytes_at m (a + Z.of_nat n) k.
Proof.
  revert a. induction n as [|n IH]; intros.
  - cbn. f_equal. lia.
  - cbn [bytes_at Nat.add app]. rewrite IH. do 3 f_equal. lia.
Qed.

Lemma bytes_at_snoc m a n : bytes_at m a (S n) = bytes_at m a n ++ [m (a + Z.of_nat n)].
Proof. replace (S n) with (n + 1)%nat by lia. by rewrite bytes_at_app. Qed.

Lemma bytes_at_ext m m' a a' n :
  (forall i, 0 <= i < Z.of_nat n -> m (a + i) = m' (a' + i)) ->
  bytes_at m a n = bytes_at m' a' n.
Proof.
  revert a a'. induction n as [|n IH]; intros a a' H; [done|]. cbn [bytes_at]. f_equal.
  - specialize (H 0). rewrite !Z.add_0_r in H. apply H. lia.
  - apply IH. intros i Hi. specialize (H (1 + i)). rewrite !Z.add_assoc in H. apply H. lia.
Qed.

Lemma bytes_at_Forall m a n : wf_mem m -> Forall is_char (bytes_at m a n).
Proof. intros H. revert a. induction n; constructor; auto. Qed.

Lemma le_val_range l : Forall is_char l -> 0 <= le_val l < 256 ^ Z.of_nat (length l).
Proof.
  induction 1 as [|b l Hb Hl IH]; [done|]. cbn [le_val length].
  rewrite Nat2Z.inj_succ, Z.pow_succ_r by lia. unfold is_char in Hb. lia.
Qed.

Lemma le_val_app l k : le_val (l ++ k) = le_val l + 256 ^ Z.of_nat (length l) * le_val k.
Proof.
  induction l as [|b l IH]; [cbn [le_val app length]; rewrite Z.mul_1_l; done|].
  cbn [le_val app length]. rewrite Nat2Z.inj_succ, Z.pow_succ_r, IH by lia. ring.
Qed.

Lemma load_cell_range m a : wf_mem m -> is_ucell (load_cell m a).
Proof.
  intros H. pose proof (le_val_range _ (bytes_at_Forall m a 8 H)) as R.
  rewrite bytes_at_length in R. exact R.
Qed.
