(* ===== verification/Strings.v ===== *)
(** * Memory and string primitives (engine/support.c, memcmp.c, memmove.c)

    Block moves on overlapping memory, three-way comparison with and without
    case, and the parser of words delimited by white space. *)
From S2P Require Import Prelude Memory.

(** ** Block moves *)

(** [while (u-- > 0) *c_to++ = *c_from++;] *)
Fixpoint cmove_loop (m : memory) (c_from c_to : Z) (u : nat) : memory :=
  match u with
  | O => m
  | S u => cmove_loop (store m c_to (m c_from)) (c_from + 1) (c_to + 1) u
  end.
Definition cmove (m : memory) (c_from c_to u : Z) : memory :=
  cmove_loop m c_from c_to (Z.to_nat u).

(** [while (u-- > 0) c_to[u] = c_from[u];] *)
Fixpoint cmove_up_loop (m : memory) (c_from c_to : Z) (u : nat) : memory :=
  match u with
  | O => m
  | S u => cmove_up_loop (store m (c_to + Z.of_nat u) (m (c_from + Z.of_nat u))) c_from c_to u
  end.
Definition cmove_up (m : memory) (c_from c_to u : Z) : memory :=
  cmove_up_loop m c_from c_to (Z.to_nat u).

(** memmove.c: [dest] below [src] copies upwards, otherwise downwards. *)
Definition memmove (m : memory) (dest src n : Z) : memory :=
  if dest <? src then cmove_loop m src dest (Z.to_nat n)
  else cmove_up_loop m src dest (Z.to_nat n).

(** [cstr]: the allocated buffer at [string] receives the bytes and a NUL. *)
Definition cstr (m : memory) (string from size : Z) : memory :=
  store (memmove m string from size) (string + size) 0.

(** ** Comparison *)

(** memcmp.c *)
Fixpoint memcmp_loop (m : memory) (s1 s2 : Z) (n : nat) : Z :=
  match n with
  | O => 0
  | S n => if negb (m s1 =? m s2) then m s1 - m s2 else memcmp_loop m (s1 + 1) (s2 + 1) n
  end.
Definition memcmp (m : memory) (s1 s2 n : Z) : Z := memcmp_loop m s1 s2 (Z.to_nat n).

Definition compare (m : memory) (c_addr1 u1 c_addr2 u2 : Z) : Z :=
  let umin := if u1 <? u2 then u1 else u2 in
  let n := if umin =? 0 then 0 else memcmp m c_addr1 c_addr2 umin in
  let n := if n =? 0 then S64 (u1 - u2) else n in
  if n <? 0 then -1 else if 0 <? n then 1 else n.

Definition ascii_toupper (c : Z) : Z :=
  if (97 <=? c) && (c <=? 122) then U8 (c + (65 - 97)) else c.

Fixpoint memcasecmp_loop (m : memory) (s1 s2 : Z) (n : nat) : Z :=
  match n with
  | O => 0
  | S n =>
      let c1 := ascii_toupper (m s1) in
      let c2 := ascii_toupper (m s2) in
      if negb (c1 =? c2) then (if c1 <? c2 then -1 else 1)
      else memcasecmp_loop m (s1 + 1) (s2 + 1) n
  end.
Definition memcasecmp (m : memory) (s1 s2 n : Z) : Z := memcasecmp_loop m s1 s2 (Z.to_nat n).

Definition capscompare (m : memory) (c_addr1 u1 c_addr2 u2 : Z) : Z :=
  let n := memcasecmp m c_addr1 c_addr2 (if u1 <? u2 then u1 else u2) in
  if n =? 0 then
    let n := S64 (u1 - u2) in
    if n <? 0 then -1 else if 0 <? n then 1 else n
  else n.

(** ** Parsing white-space delimited words *)

(** The C library's [isspace] in the C locale. *)
Definition isspace (c : Z) : bool := (c =? 32) || ((9 <=? c) && (c <=? 13)).

(** [while (c_addr1<endp && isspace( *c_addr1)) c_addr1++;], [n] bytes left *)
Fixpoint skip_white (m : memory) (a : Z) (n : nat) : Z :=
  match n with
  | O => a
  | S n => if isspace (m a) then skip_white m (a + 1) n else a
  end.
Fixpoint skip_word (m : memory) (a : Z) (n : nat) : Z :=
  match n with
  | O => a
  | S n => if negb (isspace (m a)) then skip_word m (a + 1) n else a
  end.

Definition parse_white (m : memory) (c_addr1 u1 : Z) : Z * Z :=
  let endp := c_addr1 + u1 in
  let c_addr2 := skip_white m c_addr1 (Z.to_nat u1) in
  if c_addr2 <? endp then
    (c_addr2, skip_word m c_addr2 (Z.to_nat (endp - c_addr2)) - c_addr2)
  else (c_addr2, 0).

(** ** Reference definitions *)

(** Lexicographic three-way comparison of byte strings. *)
Fixpoint lexcmp (l1 l2 : list Z) : Z :=
  match l1, l2 with
  | [], [] => 0
  | [], _ :: _ => -1
  | _ :: _, [] => 1
  | a :: l1, b :: l2 => if a <? b then -1 else if b <? a then 1 else lexcmp l1 l2
  end.

(** ** Lemmas: moves *)

Lemma cmove_loop_snoc m f t u :
  cmove_loop m f t (S u) =
  store (cmove_loop m f t u) (t + Z.of_nat u) (cmove_loop m f t u (f + Z.of_nat u)).
Proof.
  revert m f t. induction u as [|u IH]; intros m f t.
  - cbn. by rewrite !Z.add_0_r.
  - change (cmove_loop m f t (S (S u)))
      with (cmove_loop (store m t (m f)) (f + 1) (t + 1) (S u)).
    rewrite (IH (store m t (m f)) (f + 1) (t + 1)).
    replace (t + 1 + Z.of_nat u) with (t + Z.of_nat (S u)) by lia.
    replace (f + 1 + Z.of_nat u) with (f + Z.of_nat (S u)) by lia. reflexivity.
Qed.

(** The exact effect of an upward copy, overlap included: with the
    destination above the source the first [t-f] bytes are repeated. *)
Lemma cmove_loop_spec m f t u x :
  cmove_loop m f t u x =
  if (t <=? x) && (x <? t + Z.of_nat u)
  then m (f + (if f <? t then (x - t) mod (t - f) else x - t)) else m x.
Proof.
  revert x. induction u as [|u IH]; intros x.
  { cbn [cmove_loop]. destruct (_ && _) eqn:E; [|done]. zbool. lia. }
  rewrite cmove_loop_snoc. set (n := Z.of_nat u) in *. replace (Z.of_nat (S u)) with (n + 1) by lia.
  destruct (decide (x = t + n)) as [->|Hx].
  - rewrite store_eq, IH. replace ((t <=? t + n) && (t + n <? t + (n + 1))) with true by lia.
    destruct (Z.ltb_spec f t) as [Hft|Hft].
    + destruct (_ && _) eqn:E; f_equal.
      * f_equal. replace (t + n - t) with (f + n - t + 1 * (t - f)) by lia.
        by rewrite Z.mod_add by lia.
      * f_equal. apply andb_false_iff in E. symmetry.
        replace (t + n - t) with n by lia. apply Z.mod_small. lia.
    + destruct (_ && _) eqn:E; [|f_equal; lia].
      zbool. replace (f + (f + n - t)) with (f + (t + n - t)) by lia. done.
  - rewrite store_ne, IH by done.
    destruct (_ && _) eqn:E, ((t <=? x) && (x <? t + (n + 1))) eqn:E'; try done; lia.
Qed.

Lemma cmove_up_loop_spec m f t u x :
  cmove_up_loop m f t u x =
  if (t <=? x) && (x <? t + Z.of_nat u)
  then m (f + (if t <? f then Z.of_nat u - 1 - (Z.of_nat u - 1 - (x - t)) mod (f - t) else x - t))
  else m x.
Proof.
  revert m. induction u as [|u IH]; intros m; cbn [cmove_up_loop].
  { destruct (_ && _) eqn:E; [|done]. zbool. lia. }
  rewrite IH. set (n := Z.of_nat u) in *. replace (Z.of_nat (S u)) with (n + 1) by lia.
  destruct ((t <=? x) && (x <? t + n)) eqn:E.
  - replace ((t <=? x) && (x <? t + (n + 1))) with true by lia.
    destruct (Z.ltb_spec t f) as [Hft|Hft]; [|apply store_ne; lia].
    set (d := f - t) in *. set (k := n - 1 - (x - t)).
    replace (n + 1 - 1 - (x - t)) with (k + 1) by lia.
    pose proof (Z.mod_pos_bound k d ltac:(lia)).
    destruct (decide (k mod d = d - 1)) as [Hk|Hk].
    + replace (f + (n - 1 - k mod d)) with (t + n) by lia. rewrite store_eq. f_equal.
      replace ((k + 1) mod d) with 0; [lia|].
      pose proof (div_mod_eq k d ltac:(lia)).
      apply Z.mod_unique with (k / d + 1); [left; lia | lia].
    + rewrite store_ne by lia. f_equal. replace ((k + 1) mod d) with (k mod d + 1); [lia|].
      pose proof (div_mod_eq k d ltac:(lia)).
      apply Z.mod_unique with (k / d); [left; lia | lia].
  - destruct (decide (x = t + n)) as [->|Hx].
    + rewrite store_eq. replace ((t <=? t + n) && (t + n <? t + (n + 1))) with true by lia.
      f_equal. destruct (Z.ltb_spec t f); [|lia].
      replace (n + 1 - 1 - (t + n - t)) with 0 by lia. rewrite Z.mod_0_l by lia. lia.
    + rewrite store_ne by done. replace ((t <=? x) && (x <? t + (n + 1))) with false by lia. done.
Qed.

Lemma memmove_spec m dest src n x :
  memmove m dest src n x =
  if (dest <=? x) && (x <? dest + n) then m (src + (x - dest)) else m x.
Proof.
  unfold memmove. assert (E : (dest <=? x) && (x <? dest + Z.of_nat (Z.to_nat n))
                              = (dest <=? x) && (x <? dest + n)) by (zcases; cbn; lia || done).
  destruct (Z.ltb_spec dest src).
  - rewrite cmove_loop_spec, E. destruct (Z.ltb_spec src dest); [lia|done].
  - rewrite cmove_up_loop_spec, E. destruct (Z.ltb_spec dest src); [lia|done].
Qed.

(** ** Lemmas: comparison *)

(** Both comparison loops are instances of one fact: a loop that compares the
    images of the bytes under [f] and returns a value of the right sign at the
    first difference decides the lexicographic order of the images. *)
Section CompareLoop.
Context (f : Z -> Z) (m : memory) (loop : Z -> Z -> nat -> Z).
Context (loop_O : forall s1 s2, loop s1 s2 O = 0).
Context (loop_S : forall s1 s2 n, loop s1 s2 (S n) =
  if f (m s1) =? f (m s2) then loop (s1 + 1) (s2 + 1) n else loop s1 s2 (S n)).
Context (loop_sgn : forall s1 s2 n, f (m s1) <> f (m s2) ->
  Z.sgn (loop s1 s2 (S n)) = if f (m s1) <? f (m s2) then -1 else 1).

Lemma loop_lexcmp s1 s2 u1 u2 :
  let n := loop s1 s2 (Nat.min u1 u2) in
  lexcmp (map f (bytes_at m s1 u1)) (map f (bytes_at m s2 u2)) =
  if n =? 0 then Z.sgn (Z.of_nat u1 - Z.of_nat u2) else Z.sgn n.
Proof using loop_O loop_S loop_sgn.
  revert s1 s2 u2. induction u1 as [|u1 IH]; intros s1 s2 u2.
  { cbn [Nat.min]. rewrite loop_O. destruct u2; cbn [bytes_at map lexcmp]; [done|]. cbn. lia. }
  destruct u2 as [|u2].
  { cbn [Nat.min]. rewrite loop_O. cbn [bytes_at map lexcmp]. cbn. lia. }
  cbn [Nat.min bytes_at map lexcmp]. cbv zeta.
  destruct (Z.eqb_spec (f (m s1)) (f (m s2))) as [E|E].
  - rewrite loop_S, E, Z.eqb_refl, Z.ltb_irrefl, IH.
    replace (Z.of_nat (S u1) - Z.of_nat (S u2)) with (Z.of_nat u1 - Z.of_nat u2) by lia. done.
  - pose proof (loop_sgn s1 s2 (Nat.min u1 u2) E) as L.
    destruct (Z.eqb_spec (loop s1 s2 (S (Nat.min u1 u2))) 0) as [E0|E0].
    { rewrite E0 in L. destruct (_ <? _); done. }
    rewrite L. destruct (Z.ltb_spec (f (m s1)) (f (m s2))); [done|].
    destruct (Z.ltb_spec (f (m s2)) (f (m s1))); [done|lia].
Qed.
End CompareLoop.

Lemma sgn_cases n : (if n <? 0 then -1 else if 0 <? n then 1 else n) = Z.sgn n.
Proof. zcases; lia. Qed.

Lemma min_nat u1 u2 : 0 <= u1 -> 0 <= u2 ->
  Z.to_nat (if u1 <? u2 then u1 else u2) = Nat.min (Z.to_nat u1) (Z.to_nat u2).
Proof. intros. zcases; lia. Qed.

Definition bytes (m : memory) (a u : Z) : list Z := bytes_at m a (Z.to_nat u).

Lemma compare_lexcmp m a1 u1 a2 u2 :
  0 <= u1 < BH -> 0 <= u2 < BH ->
  compare m a1 u1 a2 u2 = lexcmp (bytes m a1 u1) (bytes m a2 u2).
Proof.
  intros H1 H2. unfold compare, memcmp, bytes. cbv zeta. rewrite min_nat, sgn_cases by lia.
  pose proof (loop_lexcmp (fun x => x) m (memcmp_loop m)) as L.
  rewrite <- (List.map_id (bytes_at m a1 _)), <- (List.map_id (bytes_at m a2 _)).
  rewrite L; [| done | |]; clear L.
  - destruct (Z.eqb_spec (if u1 <? u2 then u1 else u2) 0) as [E|E].
    + replace (Nat.min (Z.to_nat u1) (Z.to_nat u2)) with O by (revert E; zcases; lia).
      cbn [memcmp_loop]. cbn. rewrite S64_small, !Z2Nat.id by (unfold is_cell; lia). done.
    + destruct (_ =? 0); [|done]. rewrite S64_small, !Z2Nat.id by (unfold is_cell; lia). done.
  - intros s1 s2 n. cbn [memcmp_loop]. destruct (Z.eqb_spec (m s1) (m s2)); done.
  - intros s1 s2 n E. cbn [memcmp_loop]. destruct (Z.eqb_spec (m s1) (m s2)); [done|].
    cbn [negb]. zcases; lia.
Qed.

Lemma capscompare_lexcmp m a1 u1 a2 u2 :
  0 <= u1 < BH -> 0 <= u2 < BH ->
  capscompare m a1 u1 a2 u2 =
  lexcmp (map ascii_toupper (bytes m a1 u1)) (map ascii_toupper (bytes m a2 u2)).
Proof.
  intros H1 H2. unfold capscompare, memcasecmp, bytes. cbv zeta. rewrite min_nat, sgn_cases by lia.
  rewrite (loop_lexcmp ascii_toupper m (memcasecmp_loop m)).
  - rewrite S64_small, !Z2Nat.id by (unfold is_cell; lia). destruct (_ =? 0); [done|].
    assert (Hs : forall n s1 s2, Z.sgn (memcasecmp_loop m s1 s2 n) = memcasecmp_loop m s1 s2 n).
    { induction n as [|n IH]; intros s1 s2; [done|]. cbn [memcasecmp_loop].
      destruct (negb _); [|apply IH]. by destruct (_ <? _). }
    by rewrite Hs.
  - done.
  - intros s1 s2 n. cbn [memcasecmp_loop]. by destruct (_ =? _).
  - intros s1 s2 n E. cbn [memcasecmp_loop].
    destruct (Z.eqb_spec (ascii_toupper (m s1)) (ascii_toupper (m s2))); [done|]. cbn [negb].
    by destruct (_ <? _).
Qed.

(** [lexcmp] is a total order. *)
Lemma lexcmp_eq l1 l2 : lexcmp l1 l2 = 0 <-> l1 = l2.
Proof.
  revert l2. induction l1 as [|a l1 IH]; intros [|b l2]; cbn [lexcmp]; try done.
  zcases; split; intros E; try lia; try (injection E; lia).
  - f_equal; [lia | by apply IH].
  - injection E as _ E. by apply IH.
Qed.

Lemma lexcmp_opp l1 l2 : lexcmp l2 l1 = - lexcmp l1 l2.
Proof.
  revert l2. induction l1 as [|a l1 IH]; intros [|b l2]; cbn [lexcmp]; try done.
  zcases; try lia. apply IH.
Qed.

Lemma lexcmp_range l1 l2 : lexcmp l1 l2 = -1 \/ lexcmp l1 l2 = 0 \/ lexcmp l1 l2 = 1.
Proof. revert l2. induction l1 as [|a l1 IH]; intros [|b l2]; cbn [lexcmp]; auto. zcases; auto. Qed.

Lemma lexcmp_trans l1 l2 l3 : lexcmp l1 l2 <= 0 -> lexcmp l2 l3 <= 0 -> lexcmp l1 l3 <= 0.
Proof.
  revert l2 l3. induction l1 as [|a l1 IH]; intros [|b l2] [|c l3]; cbn [lexcmp]; try lia.
  zcases; try lia. apply IH.
Qed.

(** ** Lemmas: parsing *)

Lemma skip_white_spec m a n :
  let e := skip_white m a n in
  let k := Z.to_nat (e - a) in
  a <= e <= a + Z.of_nat n /\ Forall (fun c => isspace c = true) (bytes_at m a k) /\
  (e < a + Z.of_nat n -> isspace (m e) = false).
Proof.
  revert a. induction n as [|n IH]; intros a; cbn [skip_white].
  { rewrite Z.sub_diag. split; [lia|]. split; [constructor|]. lia. }
  destruct (isspace (m a)) eqn:E.
  - specialize (IH (a + 1)). destruct IH as (H1 & H2 & H3).
    split; [lia|]. split; [|intros; apply H3; lia].
    replace (Z.to_nat (skip_white m (a + 1) n - a))
      with (S (Z.to_nat (skip_white m (a + 1) n - (a + 1)))) by lia.
    by constructor.
  - rewrite Z.sub_diag. split; [lia|]. split; [constructor|]. done.
Qed.

Lemma skip_word_spec m a n :
  let e := skip_word m a n in
  let k := Z.to_nat (e - a) in
  a <= e <= a + Z.of_nat n /\ Forall (fun c => isspace c = false) (bytes_at m a k) /\
  (e < a + Z.of_nat n -> isspace (m e) = true).
Proof.
  revert a. induction n as [|n IH]; intros a; cbn [skip_word].
  { rewrite Z.sub_diag. split; [lia|]. split; [constructor|]. lia. }
  destruct (isspace (m a)) eqn:E; cbn [negb].
  - rewrite Z.sub_diag. split; [lia|]. split; [constructor|]. done.
  - specialize (IH (a + 1)). destruct IH as (H1 & H2 & H3).
    split; [lia|]. split; [|intros; apply H3; lia].
    replace (Z.to_nat (skip_word m (a + 1) n - a))
      with (S (Z.to_nat (skip_word m (a + 1) n - (a + 1)))) by lia.
    by constructor.
Qed.

Lemma skip_word_head m a n : isspace (m a) = false -> (0 < n)%nat -> a < skip_word m a n.
Proof.
  destruct n as [|n]; [lia|]. intros E _. cbn [skip_word]. rewrite E. cbn [negb].
  destruct (skip_word_spec m (a + 1) n) as [H _]. lia.
Qed.

(** ** Properties *)

(** C38: the block moves have their exact Forth meaning for every length and
    every overlap: [memmove] transfers the original bytes and nothing else;
    [cmove] into a range above its source repeats the first [dest-src] bytes
    (the documented propagation), and [cmove_up] is its mirror image. *)
Theorem block_moves_exact (m : memory) (src dest n x : Z) :
  let inside := (dest <=? x) && (x <? dest + n) in
  memmove m dest src n x = (if inside then m (src + (x - dest)) else m x) /\
  cmove m src dest n x =
    (if inside then m (src + (if src <? dest then (x - dest) mod (dest - src) else x - dest))
     else m x) /\
  cmove_up m src dest n x =
    (if inside then
       m (src + (if dest <? src then n - 1 - (n - 1 - (x - dest)) mod (src - dest) else x - dest))
     else m x).
Proof.
  cbv zeta. split; [apply memmove_spec|]. unfold cmove, cmove_up.
  rewrite cmove_loop_spec, cmove_up_loop_spec.
  destruct (Z.leb_spec 0 n); [by rewrite Z2Nat.id by done|].
  replace ((dest <=? x) && (x <? dest + Z.of_nat (Z.to_nat n))) with false by (zcases; cbn; lia || done).
  replace ((dest <=? x) && (x <? dest + n)) with false by (zcases; cbn; lia || done). done.
Qed.

(** [compare] and [capscompare] are the lexicographic three-way
    comparisons of the byte strings, resp. of their upper-case images; the
    result is -1, 0 or 1, is 0 exactly for equal strings, changes sign when
    the strings are swapped, and is transitive. *)
Theorem compare_total_order (m : memory) (a1 u1 a2 u2 a3 u3 : Z) :
  0 <= u1 < BH -> 0 <= u2 < BH -> 0 <= u3 < BH ->
  capscompare m a1 u1 a2 u2 =
    lexcmp (map ascii_toupper (bytes m a1 u1)) (map ascii_toupper (bytes m a2 u2)) /\
  compare m a1 u1 a2 u2 = lexcmp (bytes m a1 u1) (bytes m a2 u2) /\
  (compare m a1 u1 a2 u2 = 0 <-> bytes m a1 u1 = bytes m a2 u2) /\
  compare m a2 u2 a1 u1 = - compare m a1 u1 a2 u2 /\
  (compare m a1 u1 a2 u2 <= 0 -> compare m a2 u2 a3 u3 <= 0 -> compare m a1 u1 a3 u3 <= 0).
Proof.
  intros H1 H2 H3. split; [by apply capscompare_lexcmp|].
  rewrite !compare_lexcmp by done. split; [done|]. split; [apply lexcmp_eq|].
  split; [apply lexcmp_opp | apply lexcmp_trans].
Qed.

Lemma compare_total_order_witness :
  let m := fun a => if a =? 0 then 65 else if a =? 10 then 97 else 66 in
  compare m 0 2 10 2 = -1 /\ capscompare m 0 2 10 2 = 0.
Proof.
  intros m. destruct (compare_total_order m 0 2 10 2 20 2) as (H1 & H2 & _);
    [unfold BH; lia .. |]. rewrite H1, H2. by split.
Defined.

(** [parse_white] splits its input into white space, one maximal word and
    the rest: the skipped prefix is all white space, the returned range is
    free of white space, it is followed by white space or the end of the
    string, and it is empty only when the whole input is white. *)
Theorem parse_white_first_word (m : memory) (a u : Z) :
  0 <= u ->
  let '(w, n) := parse_white m a u in
  a <= w /\ 0 <= n /\ w + n <= a + u /\
  Forall (fun c => isspace c = true) (bytes m a (w - a)) /\
  Forall (fun c => isspace c = false) (bytes m w n) /\
  (w + n < a + u -> isspace (m (w + n)) = true) /\ (n = 0 -> w = a + u).
Proof.
  intros Hu. unfold parse_white. cbv zeta.
  destruct (skip_white_spec m a (Z.to_nat u)) as (W1 & W2 & W3).
  set (w := skip_white m a (Z.to_nat u)) in *. rewrite Z2Nat.id in * by done.
  destruct (Z.ltb_spec w (a + u)) as [Hw|Hw].
  - destruct (skip_word_spec m w (Z.to_nat (a + u - w))) as (S1 & S2 & S3).
    pose proof (skip_word_head m w (Z.to_nat (a + u - w)) (W3 Hw) ltac:(lia)) as S4.
    set (e := skip_word m w (Z.to_nat (a + u - w))) in *. rewrite Z2Nat.id in * by lia.
    repeat split; try lia; try done.
    intros. replace (w + (e - w)) with e in * by lia. apply S3. lia.
  - repeat split; try lia; try done.
Qed.

Lemma parse_white_first_word_witness :
  let m := fun a => nth (Z.to_nat a) [32; 9; 68; 85; 80; 32; 46] 0 in
  0 <= 7 /\ parse_white m 0 7 = (2, 3) /\ Forall (fun c => isspace c = false) (bytes m 2 3).
Proof.
  intros m. split; [lia|]. split; [reflexivity|].
  pose proof (parse_white_first_word m 0 7 ltac:(lia)) as P. cbn in P. apply P.
Defined.
