(* ===== verification/Hash.v ===== *)
(** * String hashing (engine/support.c)

    [hashkey1] reads bytes; [hashkey2] and [hashkey2a] read whole cells and
    may read beyond the string as long as they stay on its pages.  A cell read
    that touches an unmapped address is a fault, modelled by [None]. *)
From S2P Require Import Prelude Memory Strings.

(** [memmove(&h, p, sizeof(UCell))] with the pages that are mapped. *)
Definition load (mapped : Z -> bool) (m : memory) (a : Z) : option Z :=
  if forallb (fun i => mapped (a + Z.of_nat i)) (seq 0 8) then Some (load_cell m a) else None.

(** ** hashkey1 *)

Definition rot_values : list Z :=
  [5;0;1;2;3;4;5;5;5;5;3;5;5;5;5;7;5;5;5;5;7;5;5;5;5;6;5;5;5;5;7;5;5].

(** The C library's [toupper] in the C locale. *)
Definition toupper (c : Z) : Z := if (97 <=? c) && (c <=? 122) then c - 32 else c.

Definition hashkey1_step (rot ubits ukey c : Z) : Z :=
  Z.land (Z.lxor (Z.lor (U64 (Z.shiftl ukey rot)) (Z.shiftr ukey (ubits - rot))) (toupper c))
         (U64 (S32 (S32 (Z.shiftl 1 ubits) - 1))).

Fixpoint hashkey1_loop (m : memory) (cp : Z) (n : nat) (rot ubits ukey : Z) : Z :=
  match n with
  | O => ukey
  | S n => hashkey1_loop m (cp + 1) n rot ubits (hashkey1_step rot ubits ukey (m cp))
  end.

(** [ubits] beyond the table is an out-of-bounds read. *)
Definition hashkey1 (m : memory) (c_addr u ubits : Z) : option Z :=
  rot ← rot_values !! Z.to_nat ubits;
  Some (hashkey1_loop m c_addr (Z.to_nat u) rot ubits 0).

(** ** hashkey2 *)

Definition ROL (x n : Z) : Z := Z.lor (U64 (Z.shiftl x n)) (Z.shiftr x (64 - n)).

Definition hashx0 : Z := 0x87c37b91114253d5.
Definition hashx1 : Z := 0x4cf5ad432745937f.
Definition hashx2 : Z := 0x6c5f6f6cbe627173.
Definition hashx3 : Z := 0x7164c30603661c2f.
Definition hashx4 : Z := 0xce5009401b441347.
Definition hashx5 : Z := 0x454fa335a6e63ad3.

Record hash128 := mkHash { h_a : Z; h_b : Z }.

Definition MIXKEY2 (h : hash128) : hash128 :=
  let a := h_a h in
  let b := h_b h in
  let a1 := U64 (ROL (U64 (U64 (a + Z.lxor b hashx2) * hashx0)) 37 + hashx4) in
  let b1 := U64 (ROL (U64 (Z.lxor (U64 (b - ROL a 13)) hashx3 * hashx1)) 23 + hashx5) in
  mkHash (Z.lxor a a1) (Z.lxor b b1).

(** [mixin |= upmask & ~(mixin >> 2)] *)
Definition upcase_word (upmask w : Z) : Z :=
  Z.lor w (Z.land upmask (U64 (Z.lnot (Z.shiftr w 2)))).

Section HashKey2.
Context (mapped : Z -> bool) (m : memory) (upmask : Z).

Definition mix_word (w : Z) (h : hash128) : hash128 :=
  MIXKEY2 (mkHash (Z.lxor (h_a h) (upcase_word upmask w)) (h_b h)).

(** [n] full words from [c_addr] on. *)
Fixpoint hashkey2_words (n : nat) (c_addr : Z) (h : hash128) : option hash128 :=
  match n with
  | O => Some h
  | S n => w ← load mapped m c_addr; hashkey2_words n (c_addr + 8) (mix_word w h)
  end.

Definition hashkey2 (c_addr u : Z) (h : hash128) : option hash128 :=
  let pagesize := 4096 in
  let endp := c_addr + Z.land u (U64 (-8)) in
  let endp1 := c_addr + u - 8 in
  h ← hashkey2_words (Z.to_nat (Z.shiftr u 3)) c_addr h;
  let u := Z.land u 7 in
  h ← (if u =? 0 then Some h else
         let shift := (8 - u) * 8 in
         let cross := pagesize - 8 <=? Z.land (endp1 + 8 - 1) (pagesize - 1) in
         let endp := if cross then endp1 else endp in
         let lastshift := if cross then shift else 0 in
         mixin ← load mapped m endp;
         let mixin := Z.shiftr mixin lastshift in
         let mixin := U64 (Z.shiftl mixin shift) in
         Some (MIXKEY2 (mkHash (Z.lxor (h_a h) (upcase_word upmask mixin)) (Z.lxor (h_b h) u))));
  Some (MIXKEY2 h).
End HashKey2.

(** ** hashkey2a *)

Definition hk_k0 : Z := 0xb64d532aaaaaaad5.
Definition hk_upmask : Z := 0x2020202020202020.
Definition hk_rot1 : Z := 8 * 4 - 1.
Definition rotl (x r : Z) : Z := Z.lor (U64 (Z.shiftl x r)) (Z.shiftr x (8 * 8 - r)).

(** [h = (h^h1)*k0; h = rotl(h,rot1);] after the upcasing of [h1] *)
Definition hashkey2a_step (h h1 : Z) : Z :=
  rotl (U64 (Z.lxor h (upcase_word hk_upmask h1) * hk_k0)) hk_rot1.

Section HashKey2a.
Context (mapped : Z -> bool) (m : memory).

(** The do-while loop over the words before [lim = s+n-w]. *)
Fixpoint hashkey2a_words (fuel : nat) (lim p h : Z) : option Z :=
  match fuel with
  | O => None
  | S fuel =>
      h1 ← load mapped m p;
      let h := hashkey2a_step h h1 in
      let p := p + 8 in
      if p <? lim then hashkey2a_words fuel lim p h else Some h
  end.

Definition hashkey2a (s n : Z) : option Z :=
  let seed := n in
  let w := 8 in
  let pagesize := 4096 in
  if n <=? w then
    let erase := (w - n) * 8 in
    if n =? 0 then Some seed else
    h ← (if negb (Z.land (Z.lxor (s + n - 1) (s + w - 1)) (U64 (- pagesize)) =? 0)
         then h ← load mapped m (s + n - w); Some (Z.shiftr h erase)
         else h ← load mapped m s; Some (Z.land h (Z.shiftr (B - 1) erase)));
    Some (U64 (hashkey2a_step seed h * hk_k0))
  else
    h ← hashkey2a_words (Z.to_nat n) (s + n - w) s seed;
    h1 ← load mapped m (s + n - w);
    Some (U64 (hashkey2a_step h h1 * hk_k0)).
End HashKey2a.

(** ** Reference definitions: hashes of byte strings *)

(** The first [k] 8-byte words of [l]. *)
Fixpoint words (k : nat) (l : list Z) : list Z :=
  match k with
  | O => []
  | S k => le_val (take 8 l) :: words k (drop 8 l)
  end.

Definition hash2_spec (upmask : Z) (l : list Z) (h : hash128) : hash128 :=
  let k := (length l / 8)%nat in
  let tail := drop (8 * k) l in
  let h := foldl (fun h w => mix_word upmask w h) h (words k l) in
  MIXKEY2 (match tail with
           | [] => h
           | _ => MIXKEY2 (mkHash
                    (Z.lxor (h_a h)
                       (upcase_word upmask (le_val (replicate (8 - length tail) 0 ++ tail))))
                    (Z.lxor (h_b h) (Z.of_nat (length tail))))
           end).

Definition hash2a_spec (l : list Z) : Z :=
  let n := length l in
  if (n =? 0)%nat then 0
  else if (n <=? 8)%nat then U64 (hashkey2a_step (Z.of_nat n) (le_val l) * hk_k0)
  else U64 (hashkey2a_step
              (foldl hashkey2a_step (Z.of_nat n) (words ((n - 1) / 8) l))
              (le_val (drop (n - 8) l)) * hk_k0).

(** ** Lemmas: reading words *)

Definition range_mapped (mapped : Z -> bool) (a n : Z) : Prop :=
  forall x, a <= x < a + n -> mapped x = true.

Lemma load_ok mapped m a :
  range_mapped mapped a 8 -> load mapped m a = Some (le_val (bytes_at m a 8)).
Proof.
  intros H. unfold load.
  assert (E : forallb (fun i => mapped (a + Z.of_nat i)) (seq 0 8) = true).
  { apply List.forallb_forall. intros i Hi%in_seq. apply H. lia. }
  by rewrite E.
Qed.

(** A load whose bytes are in the range or on the page of a mapped byte. *)
Lemma load_page mapped m a x :
  page_mapped 4096 mapped -> mapped x = true ->
  (forall y, a <= y < a + 8 -> y / 4096 = x / 4096 \/ mapped y = true) ->
  load mapped m a = Some (le_val (bytes_at m a 8)).
Proof.
  intros P Hx Hy. apply load_ok. intros y Hya.
  destruct (Hy y Hya) as [E|E]; [|done]. by rewrite (P y x E).
Qed.

Lemma pow256 n : 256 ^ Z.of_nat n = 2 ^ (8 * Z.of_nat n).
Proof. change 256 with (2 ^ 8). rewrite <- Z.pow_mul_r by lia. done. Qed.

Lemma le_val_zeros k l : le_val (replicate k 0 ++ l) = 2 ^ (8 * Z.of_nat k) * le_val l.
Proof.
  rewrite le_val_app, length_replicate, pow256.
  assert (E : le_val (replicate k 0) = 0) by (induction k; cbn [replicate le_val]; lia).
  rewrite E. lia.
Qed.

Lemma le_val_shiftr l1 l2 :
  Forall is_char l1 -> Z.shiftr (le_val (l1 ++ l2)) (8 * Z.of_nat (length l1)) = le_val l2.
Proof.
  intros H. pose proof (le_val_range l1 H) as R. rewrite le_val_app, Z.shiftr_div_pow2 by lia.
  rewrite pow256 in *. rewrite (Z.mul_comm (2 ^ _)), Z.div_add by lia.
  rewrite Z.div_small by lia. lia.
Qed.

Lemma le_val_mod l1 l2 :
  Forall is_char l1 -> le_val (l1 ++ l2) mod 2 ^ (8 * Z.of_nat (length l1)) = le_val l1.
Proof.
  intros H. pose proof (le_val_range l1 H) as R. rewrite le_val_app. rewrite pow256 in *.
  rewrite (Z.mul_comm (2 ^ _)), Z.mod_add by lia. apply Z.mod_small. lia.
Qed.

Lemma take_bytes_at m a n k : (k <= n)%nat -> take k (bytes_at m a n) = bytes_at m a k.
Proof.
  intros H. replace n with (k + (n - k))%nat by lia. rewrite bytes_at_app.
  rewrite take_app_length' by (by rewrite bytes_at_length). done.
Qed.

Lemma drop_bytes_at m a n k :
  (k <= n)%nat -> drop k (bytes_at m a n) = bytes_at m (a + Z.of_nat k) (n - k).
Proof.
  intros H. replace n with (k + (n - k))%nat at 1 by lia. rewrite bytes_at_app.
  rewrite drop_app_length' by (by rewrite bytes_at_length). done.
Qed.

(** Keeping the low bytes of a word: [h & (~0 >> erase)]. *)
Lemma mask_low_bytes m a k :
  wf_mem m -> (k <= 8)%nat ->
  Z.land (le_val (bytes_at m a 8)) (Z.shiftr (B - 1) ((8 - Z.of_nat k) * 8)) =
  le_val (bytes_at m a k).
Proof.
  intros Hm Hk. replace 8%nat with (k + (8 - k))%nat by lia. rewrite bytes_at_app.
  replace (Z.shiftr (B - 1) ((8 - Z.of_nat k) * 8)) with (Z.ones (8 * Z.of_nat k)).
  - rewrite Z.land_ones by lia.
    pose proof (le_val_mod (bytes_at m a k) (bytes_at m (a + Z.of_nat k) (8 - k))
                  (bytes_at_Forall m a k Hm)) as E.
    by rewrite bytes_at_length in E.
  - change (B - 1) with (Z.ones 64). rewrite Z.ones_equiv, (Z.ones_equiv 64), !Z.shiftr_div_pow2 by lia.
    replace (8 * Z.of_nat k) with (64 - (8 - Z.of_nat k) * 8) by lia.
    assert (Hp : 0 < 2 ^ ((8 - Z.of_nat k) * 8)) by (apply Z.pow_pos_nonneg; lia).
    assert (E : 2 ^ 64 = 2 ^ (64 - (8 - Z.of_nat k) * 8) * 2 ^ ((8 - Z.of_nat k) * 8))
      by (rewrite <- Z.pow_add_r by lia; f_equal; lia).
    apply Z.div_unique with (2 ^ ((8 - Z.of_nat k) * 8) - 1); [left; lia|]. rewrite E. lia.
Qed.

(** Keeping the high bytes of a word that ends with the string. *)
Lemma shift_high_bytes m a k :
  wf_mem m -> (k <= 8)%nat ->
  Z.shiftr (le_val (bytes_at m (a + Z.of_nat k - 8) 8)) ((8 - Z.of_nat k) * 8) =
  le_val (bytes_at m a k).
Proof.
  intros Hm Hk. replace 8%nat with ((8 - k) + k)%nat by lia. rewrite bytes_at_app.
  replace ((8 - Z.of_nat k) * 8) with (8 * Z.of_nat (length (bytes_at m (a + Z.of_nat k - 8) (8 - k))))
    by (rewrite bytes_at_length; lia).
  rewrite le_val_shiftr by (by apply bytes_at_Forall). do 2 f_equal. lia.
Qed.

(** Moving the low [k] bytes of a word to its top. *)
Lemma shiftl_tail m a k x :
  wf_mem m -> (k <= 8)%nat ->
  x mod 2 ^ (8 * Z.of_nat k) = le_val (bytes_at m a k) ->
  U64 (Z.shiftl x ((8 - Z.of_nat k) * 8)) =
  le_val (replicate (8 - k) 0 ++ bytes_at m a k).
Proof.
  intros Hm Hk Hx. rewrite le_val_zeros, <- Hx, Z.shiftl_mul_pow2 by lia. unfold U64.
  replace (8 * Z.of_nat (8 - k)) with ((8 - Z.of_nat k) * 8) by lia.
  replace B with (2 ^ (8 * Z.of_nat k) * 2 ^ ((8 - Z.of_nat k) * 8))
    by (rewrite <- Z.pow_add_r by lia; replace (8 * Z.of_nat k + _) with 64 by lia; done).
  rewrite Z.mul_mod_distr_r by (apply Z.pow_nonzero; lia). ring.
Qed.

(** ** Lemmas: the page tests *)

Lemma land_page_mask x : is_ucell x -> (Z.land x (U64 (- 4096)) =? 0) = (x / 4096 =? 0).
Proof.
  intros Hx. unfold U64. rewrite B_pow. rewrite <- Z.land_ones, (Z.land_comm (-4096)), Z.land_assoc by lia.
  rewrite (Z.land_ones x) by lia. rewrite Z.mod_small by exact Hx.
  change (-4096) with (Z.lnot (Z.ones 12)). rewrite <- Z.ldiff_land, Z.ldiff_ones_r by lia.
  rewrite Z.shiftl_mul_pow2, Z.shiftr_div_pow2 by lia. change (2 ^ 12) with 4096.
  zcases; try done; lia.
Qed.

Lemma page_xor_test x y :
  is_ucell x -> is_ucell y ->
  negb (Z.land (Z.lxor x y) (U64 (- 4096)) =? 0) = negb (x / 4096 =? y / 4096).
Proof.
  intros Hx Hy. f_equal. rewrite land_page_mask.
  - replace (Z.lxor x y / 4096) with (Z.lxor (x / 4096) (y / 4096)).
    + destruct (Z.eqb_spec (x / 4096) (y / 4096)) as [->|E]; [by rewrite Z.lxor_nilpotent|].
      apply Z.eqb_neq. intros H%Z.lxor_eq. done.
    + change 4096 with (2 ^ 12). rewrite <- !Z.shiftr_div_pow2 by done. symmetry. apply Z.shiftr_lxor.
  - unfold is_ucell in *. split; [by apply Z.lxor_nonneg; lia|].
    destruct (Z.eq_dec (Z.lxor x y) 0) as [->|E]; [done|].
    apply (Z.log2_lt_pow2 _ 64); [pose proof (proj2 (Z.lxor_nonneg x y)); lia|].
    eapply Z.le_lt_trans; [apply Z.log2_lxor; lia|].
    assert (L : forall z, 0 <= z < B -> Z.log2 z < 64).
    { intros z Hz. destruct (Z.eq_dec z 0) as [->|]; [done|]. apply Z.log2_lt_pow2; [lia|apply Hz]. }
    apply Z.max_lub_lt; by apply L.
Qed.

(** ** Lemmas: refinement *)

Lemma words_S k m a n :
  (8 * S k <= n)%nat ->
  words (S k) (bytes_at m a n) = le_val (bytes_at m a 8) :: words k (bytes_at m (a + 8) (n - 8)).
Proof. intros H. cbn [words]. by rewrite take_bytes_at, drop_bytes_at by lia. Qed.

Lemma hashkey2a_words_ok mapped m lim k fuel p h n :
  range_mapped mapped p (8 * Z.of_nat k) -> (8 * k <= n)%nat -> (0 < k <= fuel)%nat ->
  8 * Z.of_nat k - 8 < lim - p <= 8 * Z.of_nat k ->
  hashkey2a_words mapped m fuel lim p h = Some (foldl hashkey2a_step h (words k (bytes_at m p n))).
Proof.
  revert fuel p h n. induction k as [|k IH]; intros fuel p h n Hm Hn Hk Hl; [lia|].
  destruct fuel as [|fuel]; [lia|]. rewrite words_S by done. cbn [hashkey2a_words foldl].
  rewrite load_ok by (intros x Hx; apply Hm; lia). cbn [mbind option_bind]. cbv zeta.
  destruct (Z.ltb_spec (p + 8) lim).
  - apply IH; try lia. intros x Hx. apply Hm. lia.
  - assert (k = O) as -> by lia. done.
Qed.

Lemma hashkey2a_ok mapped m s n :
  wf_mem m -> page_mapped 4096 mapped -> 0 <= n -> 0 <= s -> s + n + 8 <= B ->
  range_mapped mapped s n -> hashkey2a mapped m s n = Some (hash2a_spec (bytes m s n)).
Proof.
  intros Hm Hp Hn Hs Hb Hr. unfold hashkey2a, hash2a_spec, bytes. cbv zeta.
  rewrite bytes_at_length. destruct (Z.leb_spec n 8) as [H8|H8].
  - destruct (Z.eqb_spec n 0) as [->|H0]; [done|].
    destruct (Nat.eqb_spec (Z.to_nat n) 0); [lia|]. destruct (Nat.leb_spec (Z.to_nat n) 8); [|lia].
    rewrite Z2Nat.id by done.
    rewrite page_xor_test by (unfold is_ucell; lia).
    assert (Hlast : mapped (s + n - 1) = true) by (apply Hr; lia).
    destruct (Z.eqb_spec ((s + n - 1) / 4096) ((s + 8 - 1) / 4096)) as [E|E]; cbn [negb].
    + rewrite (load_page _ _ _ (s + n - 1)); [|done|done|].
      * cbn [mbind option_bind]. replace n with (Z.of_nat (Z.to_nat n)) at 2 by lia.
        by rewrite mask_low_bytes by (done || lia).
      * intros y Hy. destruct (Z.ltb_spec y (s + n)); [right; apply Hr; lia|left].
        Z.div_mod_to_equations. lia.
    + rewrite (load_page _ _ _ (s + n - 1)); [|done|done|].
      * cbn [mbind option_bind]. replace n with (Z.of_nat (Z.to_nat n)) at 2 3 by lia.
        by rewrite shift_high_bytes by (done || lia).
      * intros y Hy. left. Z.div_mod_to_equations. lia.
  - destruct (Nat.eqb_spec (Z.to_nat n) 0); [lia|]. destruct (Nat.leb_spec (Z.to_nat n) 8); [lia|].
    set (k := ((Z.to_nat n - 1) / 8)%nat).
    assert (Hk : (8 * k <= Z.to_nat n - 1 < 8 * k + 8)%nat).
    { subst k. pose proof (Nat.div_mod_eq (Z.to_nat n - 1) 8).
      pose proof (Nat.mod_upper_bound (Z.to_nat n - 1) 8). lia. }
    rewrite (hashkey2a_words_ok _ _ _ k _ _ _ (Z.to_nat n)); try lia;
      [|intros x Hx; apply Hr; lia].
    cbn [mbind option_bind]. rewrite load_ok by (intros x Hx; apply Hr; lia).
    cbn [mbind option_bind]. rewrite drop_bytes_at, Z2Nat.id by lia.
    replace (Z.to_nat n - (Z.to_nat n - 8))%nat with 8%nat by lia.
    replace (s + Z.of_nat (Z.to_nat n - 8)) with (s + n - 8) by lia. done.
Qed.

Lemma hashkey2_words_ok mapped m upmask k p h n :
  range_mapped mapped p (8 * Z.of_nat k) -> (8 * k <= n)%nat ->
  hashkey2_words mapped m upmask k p h =
  Some (foldl (fun h w => mix_word upmask w h) h (words k (bytes_at m p n))).
Proof.
  revert p h n. induction k as [|k IH]; intros p h n Hm Hn; [done|].
  rewrite words_S by done. cbn [hashkey2_words foldl].
  rewrite load_ok by (intros x Hx; apply Hm; lia). cbn [mbind option_bind].
  apply IH; [|lia]. intros x Hx. apply Hm. lia.
Qed.

(** The word of the last, partial block. *)
Lemma hashkey2_tail mapped m endp k :
  wf_mem m -> page_mapped 4096 mapped -> (0 < k < 8)%nat -> 0 <= endp ->
  range_mapped mapped endp (Z.of_nat k) ->
  let t := Z.of_nat k in
  let cross := 4096 - 8 <=? Z.land (endp + t - 8 + 8 - 1) (4096 - 1) in
  exists mixin,
    load mapped m (if cross then endp + t - 8 else endp) = Some mixin /\
    U64 (Z.shiftl (Z.shiftr mixin (if cross then (8 - t) * 8 else 0)) ((8 - t) * 8)) =
    le_val (replicate (8 - k) 0 ++ bytes_at m endp k).
Proof.
  intros Hm Hp Hk He Hr t cross.
  assert (Hlast : mapped (endp + t - 1) = true) by (apply Hr; lia).
  assert (Ec : cross = (4088 <=? (endp + t - 1) mod 4096)).
  { subst cross. change (4096 - 1) with (Z.ones 12). rewrite Z.land_ones by done.
    replace (endp + t - 8 + 8 - 1) with (endp + t - 1) by lia. done. }
  rewrite Ec. clearbody cross. clear Ec. subst t.
  destruct (Z.leb_spec 4088 ((endp + Z.of_nat k - 1) mod 4096)) as [H|H]; eexists;
    (rewrite (load_page _ _ _ (endp + Z.of_nat k - 1)); [split; [done|]|done|done|]).
  - rewrite (shift_high_bytes m endp) by (done || lia).
    apply shiftl_tail; [done|lia|]. apply Z.mod_small.
    pose proof (le_val_range _ (bytes_at_Forall m endp k Hm)) as R.
    rewrite bytes_at_length, pow256 in R. exact R.
  - intros y Hy. left. Z.div_mod_to_equations. lia.
  - rewrite Z.shiftr_0_r. apply shiftl_tail; [done|lia|].
    replace 8%nat with (k + (8 - k))%nat at 1 by lia. rewrite bytes_at_app.
    pose proof (le_val_mod (bytes_at m endp k) (bytes_at m (endp + Z.of_nat k) (8 - k))
                  (bytes_at_Forall m endp k Hm)) as E.
    by rewrite bytes_at_length in E.
  - intros y Hy. destruct (Z.ltb_spec y (endp + Z.of_nat k)); [right; apply Hr; lia|left].
    Z.div_mod_to_equations. lia.
Qed.

Lemma land_low3 u : Z.land u 7 = u mod 8.
Proof. change 7 with (Z.ones 3). by rewrite Z.land_ones. Qed.

Lemma land_align8 u : is_ucell u -> Z.land u (U64 (-8)) = 8 * (u / 8).
Proof.
  intros Hx. unfold U64. rewrite B_pow. rewrite <- Z.land_ones, (Z.land_comm (-8)), Z.land_assoc by lia.
  rewrite (Z.land_ones u) by lia. rewrite Z.mod_small by exact Hx.
  change (-8) with (Z.lnot (Z.ones 3)). rewrite <- Z.ldiff_land, Z.ldiff_ones_r by lia.
  rewrite Z.shiftl_mul_pow2, Z.shiftr_div_pow2 by lia. change (2 ^ 3) with 8. lia.
Qed.

Lemma hashkey2_ok mapped m upmask s u h :
  wf_mem m -> page_mapped 4096 mapped -> 0 <= u < B -> 0 <= s ->
  range_mapped mapped s u ->
  hashkey2 mapped m upmask s u h = Some (hash2_spec upmask (bytes m s u) h).
Proof.
  intros Hm Hp Hu Hs Hr. unfold hashkey2, hash2_spec, bytes. cbv zeta.
  rewrite bytes_at_length, land_low3, land_align8, Z.shiftr_div_pow2 by done.
  change (2 ^ 3) with 8.
  set (k := (Z.to_nat u / 8)%nat). set (t := (Z.to_nat u mod 8)%nat).
  assert (Hkt : (Z.to_nat u = 8 * k + t)%nat) by apply Nat.div_mod_eq.
  assert (Ht : (t < 8)%nat) by (apply Nat.mod_upper_bound; lia).
  assert (Ek : u / 8 = Z.of_nat k) by (Z.div_mod_to_equations; lia).
  assert (Et : u mod 8 = Z.of_nat t) by (Z.div_mod_to_equations; lia).
  rewrite Ek, Et, Nat2Z.id.
  rewrite (hashkey2_words_ok _ _ _ _ _ _ (Z.to_nat u)) by (try intros x Hx; try apply Hr; lia).
  cbn [mbind option_bind]. rewrite drop_bytes_at by lia.
  replace (Z.to_nat u - 8 * k)%nat with t by lia. clearbody t k.
  destruct (Z.eqb_spec (Z.of_nat t) 0) as [E|E].
  { assert (t = O) as -> by lia. done. }
  destruct t as [|t']; [lia|]. set (t := S t') in *.
  replace (s + Z.of_nat (8 * k)) with (s + 8 * Z.of_nat k) by lia.
  set (endp := s + 8 * Z.of_nat k) in *.
  destruct (hashkey2_tail mapped m endp t) as (mixin & L & V); try done; try lia.
  { intros x Hx. apply Hr. lia. }
  replace (s + u - 8) with (endp + Z.of_nat t - 8) by lia.
  cbv zeta in L, V. rewrite L. cbn [mbind option_bind]. rewrite V.
  rewrite bytes_at_length. subst t. reflexivity.
Qed.

(** ** Lemmas: the case-insensitivity trick *)

Lemma le_val_testbit l i :
  Forall is_char l -> 0 <= i ->
  Z.testbit (le_val l) i = Z.testbit (nth (Z.to_nat (i / 8)) l 0) (i mod 8).
Proof.
  intros H. revert i. induction H as [|b l Hb Hl IH]; intros i Hi.
  { cbn [le_val]. destruct (Z.to_nat _); cbn [nth]; by rewrite !Z.bits_0. }
  cbn [le_val]. destruct (Z.ltb_spec i 8) as [H8|H8].
  - rewrite (Z.div_small i 8), (Z.mod_small i 8) by lia. cbn [Z.to_nat nth].
    rewrite <- (Z.mod_pow2_bits_low (b + 256 * le_val l) 8 i) by done.
    f_equal. change (2 ^ 8) with 256. unfold is_char in Hb.
    rewrite (Z.mul_comm 256), Z.mod_add, Z.mod_small by lia. done.
  - replace (Z.to_nat (i / 8)) with (S (Z.to_nat ((i - 8) / 8))) by (Z.div_mod_to_equations; lia).
    cbn [nth]. replace (i mod 8) with ((i - 8) mod 8) by (Z.div_mod_to_equations; lia).
    rewrite <- IH by lia. replace i with (i - 8 + 8) at 1 by lia.
    rewrite <- Z.div_pow2_bits by lia. f_equal. change (2 ^ 8) with 256. unfold is_char in Hb.
    rewrite (Z.mul_comm 256), Z.div_add, Z.div_small by lia. lia.
Qed.

(** Bit [j] of a byte after the trick. *)
Definition caseless_bit (x j : Z) : bool :=
  Z.testbit x j || ((j =? 5) && negb (Z.testbit x 7)).

Lemma caseless_bit_toupper x j :
  is_char x -> 0 <= j < 8 -> caseless_bit x j = caseless_bit (toupper x) j.
Proof.
  intros Hx Hj.
  pose proof (forallb_range (fun x => forallb (fun j => eqb (caseless_bit x j)
    (caseless_bit (toupper x) j)) [0;1;2;3;4;5;6;7]) 256 ltac:(vm_compute; reflexivity) x Hx) as H.
  rewrite List.forallb_forall in H. apply eqb_prop, H.
  assert (j = 0 \/ j = 1 \/ j = 2 \/ j = 3 \/ j = 4 \/ j = 5 \/ j = 6 \/ j = 7) by lia.
  cbn. intuition.
Qed.

Lemma upmask_testbit i : 0 <= i < 64 -> Z.testbit hk_upmask i = (i mod 8 =? 5).
Proof.
  intros Hi. apply eqb_prop.
  exact (forallb_range (fun i => eqb (Z.testbit hk_upmask i) (i mod 8 =? 5)) 64
    ltac:(vm_compute; reflexivity) i Hi).
Qed.

Lemma nth_char l k : Forall is_char l -> is_char (nth k l 0).
Proof.
  intros H. destruct (Nat.lt_ge_cases k (length l)).
  - rewrite Forall_forall in H. apply H. by apply nth_In.
  - rewrite nth_overflow by done. unfold is_char. lia.
Qed.

Lemma upcase_word_testbit l i :
  Forall is_char l -> (length l <= 8)%nat -> 0 <= i < 64 ->
  Z.testbit (upcase_word hk_upmask (le_val l)) i =
  caseless_bit (nth (Z.to_nat (i / 8)) l 0) (i mod 8).
Proof.
  intros Hl Hlen Hi. unfold upcase_word, caseless_bit, U64. rewrite B_pow.
  rewrite Z.lor_spec, Z.land_spec, upmask_testbit, Z.mod_pow2_bits_low by lia.
  rewrite Z.lnot_spec, Z.shiftr_spec by lia. rewrite (le_val_testbit l i) by (done || lia).
  f_equal. destruct (Z.eqb_spec (i mod 8) 5) as [E|E]; [|done]. cbn [andb]. f_equal.
  rewrite le_val_testbit by (done || lia).
  replace ((i + 2) / 8) with (i / 8) by (Z.div_mod_to_equations; lia).
  replace ((i + 2) mod 8) with 7 by (Z.div_mod_to_equations; lia). done.
Qed.

Lemma upcase_word_high l i :
  Forall is_char l -> (length l <= 8)%nat -> 64 <= i ->
  Z.testbit (upcase_word hk_upmask (le_val l)) i = false.
Proof.
  intros Hl Hlen Hi. unfold upcase_word, U64. rewrite B_pow.
  rewrite Z.lor_spec, Z.land_spec, Z.mod_pow2_bits_high, andb_false_r, orb_false_r by lia.
  rewrite le_val_testbit, nth_overflow by (done || (Z.div_mod_to_equations; lia)).
  apply Z.bits_0.
Qed.

Lemma nth_toupper k l : toupper (nth k l 0) = nth k (map toupper l) 0.
Proof. exact (eq_sym (map_nth toupper l 0 k)). Qed.

Lemma upcase_word_caseless l1 l2 :
  Forall is_char l1 -> Forall is_char l2 -> (length l1 <= 8)%nat ->
  map toupper l1 = map toupper l2 ->
  upcase_word hk_upmask (le_val l1) = upcase_word hk_upmask (le_val l2).
Proof.
  intros H1 H2 Hlen E.
  assert (Hl : length l1 = length l2) by (apply (f_equal length) in E; by rewrite !length_map in E).
  apply Z.bits_inj'. intros i Hi. destruct (Z.ltb_spec i 64).
  - rewrite !upcase_word_testbit by (done || lia).
    rewrite (caseless_bit_toupper (nth _ l1 0)), (caseless_bit_toupper (nth _ l2 0))
      by (try apply nth_char; done || (Z.div_mod_to_equations; lia)).
    f_equal. by rewrite !nth_toupper, E.
  - rewrite !upcase_word_high by (done || lia). done.
Qed.

Lemma hashkey2a_step_caseless h l1 l2 :
  Forall is_char l1 -> Forall is_char l2 -> (length l1 <= 8)%nat ->
  map toupper l1 = map toupper l2 ->
  hashkey2a_step h (le_val l1) = hashkey2a_step h (le_val l2).
Proof. intros. unfold hashkey2a_step. by rewrite (upcase_word_caseless l1 l2). Qed.

(** A fold over the words of two caselessly equal strings. *)
Lemma words_caseless {A} (f : A -> Z -> A) k l1 l2 h :
  (forall h l1 l2, Forall is_char l1 -> Forall is_char l2 -> (length l1 <= 8)%nat ->
     map toupper l1 = map toupper l2 -> f h (le_val l1) = f h (le_val l2)) ->
  Forall is_char l1 -> Forall is_char l2 -> map toupper l1 = map toupper l2 ->
  foldl f h (words k l1) = foldl f h (words k l2).
Proof.
  intros Hf. revert l1 l2 h. induction k as [|k IH]; intros l1 l2 h H1 H2 E; [done|].
  cbn [words foldl].
  rewrite (Hf h (take 8 l1) (take 8 l2)); [apply IH| | | |];
    [by apply Forall_drop | by apply Forall_drop | | by apply Forall_take | by apply Forall_take | |].
  - rewrite <- !skipn_map. by rewrite E.
  - rewrite length_take. lia.
  - rewrite <- !firstn_map. by rewrite E.
Qed.

Lemma hash2a_spec_caseless l1 l2 :
  Forall is_char l1 -> Forall is_char l2 -> map toupper l1 = map toupper l2 ->
  hash2a_spec l1 = hash2a_spec l2.
Proof.
  intros H1 H2 E.
  assert (Hl : length l1 = length l2) by (apply (f_equal length) in E; by rewrite !length_map in E).
  unfold hash2a_spec. rewrite <- Hl. destruct (_ =? 0)%nat; [done|].
  destruct (Nat.leb_spec (length l1) 8).
  - by rewrite (hashkey2a_step_caseless _ l1 l2).
  - rewrite (words_caseless _ _ l1 l2) by (try done; apply hashkey2a_step_caseless).
    rewrite (hashkey2a_step_caseless _ (drop (length l1 - 8) l1) (drop (length l1 - 8) l2));
      [done | by apply Forall_drop | by apply Forall_drop | |].
    + rewrite length_drop. lia.
    + rewrite <- !skipn_map. by rewrite E.
Qed.

Lemma mix_word_caseless h l1 l2 :
  Forall is_char l1 -> Forall is_char l2 -> (length l1 <= 8)%nat ->
  map toupper l1 = map toupper l2 ->
  mix_word hk_upmask (le_val l1) h = mix_word hk_upmask (le_val l2) h.
Proof. intros. unfold mix_word. by rewrite (upcase_word_caseless l1 l2). Qed.

Lemma hash2_spec_caseless l1 l2 h :
  Forall is_char l1 -> Forall is_char l2 -> map toupper l1 = map toupper l2 ->
  hash2_spec hk_upmask l1 h = hash2_spec hk_upmask l2 h.
Proof.
  intros H1 H2 E.
  assert (Hl : length l1 = length l2) by (apply (f_equal length) in E; by rewrite !length_map in E).
  unfold hash2_spec. cbv zeta. rewrite <- Hl.
  rewrite (words_caseless (fun h w => mix_word hk_upmask w h) _ l1 l2)
    by (try done; apply mix_word_caseless).
  set (k := (length l1 / 8)%nat).
  assert (E' : map toupper (drop (8 * k) l1) = map toupper (drop (8 * k) l2))
    by (rewrite <- !skipn_map; by rewrite E).
  assert (Hd : (length (drop (8 * k) l1) < 8)%nat).
  { rewrite length_drop. subst k. pose proof (Nat.div_mod_eq (length l1) 8).
    pose proof (Nat.mod_upper_bound (length l1) 8). lia. }
  pose proof (Forall_drop _ (8 * k) _ H1) as D1. pose proof (Forall_drop _ (8 * k) _ H2) as D2.
  set (t1 := drop (8 * k) l1) in *. set (t2 := drop (8 * k) l2) in *. clearbody t1 t2.
  assert (Ht : length t1 = length t2) by (apply (f_equal length) in E'; by rewrite !length_map in E').
  destruct t1 as [|b1 t1], t2 as [|b2 t2]; try done. rewrite Ht.
  rewrite (upcase_word_caseless (replicate (8 - length (b2 :: t2)) 0 ++ b1 :: t1)
             (replicate (8 - length (b2 :: t2)) 0 ++ b2 :: t2)); [done| | | |].
  - apply Forall_app; split; [apply Forall_replicate; unfold is_char; lia | done].
  - apply Forall_app; split; [apply Forall_replicate; unfold is_char; lia | done].
  - rewrite length_app, length_replicate. lia.
  - by rewrite !map_app, E'.
Qed.

(** ** Lemmas: hashkey1 *)

Lemma hashkey1_mask ubits :
  1 <= ubits <= 31 -> U64 (S32 (S32 (Z.shiftl 1 ubits) - 1)) = Z.ones ubits.
Proof.
  intros H. apply Z.eqb_eq.
  pose proof (forallb_range (fun u => (u =? 0) || (U64 (S32 (S32 (Z.shiftl 1 u) - 1)) =? Z.ones u)) 32
    ltac:(vm_compute; reflexivity) ubits ltac:(lia)) as E.
  apply orb_true_iff in E as [E|E]; [zbool; lia | done].
Qed.

Lemma hashkey1_loop_spec m1 m2 a1 a2 n rot ubits k :
  1 <= ubits <= 31 -> 0 <= k < 2 ^ ubits ->
  map toupper (bytes_at m1 a1 n) = map toupper (bytes_at m2 a2 n) ->
  let r := hashkey1_loop m1 a1 n rot ubits k in
  0 <= r < 2 ^ ubits /\ hashkey1_loop m2 a2 n rot ubits k = r.
Proof.
  intros Hu. revert a1 a2 k. induction n as [|n IH]; intros a1 a2 k Hk E; [done|].
  cbn [bytes_at map] in E. injection E as E1 E2. cbn [hashkey1_loop].
  assert (Es : hashkey1_step rot ubits k (m2 a2) = hashkey1_step rot ubits k (m1 a1))
    by (unfold hashkey1_step; by rewrite E1).
  rewrite Es. apply IH; [|done]. unfold hashkey1_step.
  rewrite hashkey1_mask, Z.land_ones by lia. apply Z.mod_pos_bound, Z.pow_pos_nonneg; lia.
Qed.

(** ** Properties *)

(** C32: [hashkey2a] never faults and hashes by content only: for every string
    on mapped pages it reads nothing outside those pages (although it reads
    whole cells beyond or before the string), and two strings that are equal
    up to ASCII case get the same hash wherever they are stored. *)
Theorem hashkey2a_safe_caseless (mapped : Z -> bool) (m : memory) (s1 s2 n : Z) :
  wf_mem m -> page_mapped 4096 mapped ->
  0 <= n -> 0 <= s1 -> s1 + n + 8 <= B -> 0 <= s2 -> s2 + n + 8 <= B ->
  range_mapped mapped s1 n -> range_mapped mapped s2 n ->
  map toupper (bytes m s1 n) = map toupper (bytes m s2 n) ->
  exists h, hashkey2a mapped m s1 n = Some h /\ hashkey2a mapped m s2 n = Some h.
Proof.
  intros Hm Hp Hn H1 B1 H2 B2 R1 R2 E. rewrite !hashkey2a_ok by done.
  eexists; split; [done|]. f_equal. symmetry.
  apply hash2a_spec_caseless; by try apply bytes_at_Forall.
Qed.

(** A three-byte string in the last bytes of the only mapped page. *)
Lemma hashkey2a_safe_caseless_witness :
  let m := fun a => if a =? 8189 then 68 else if a =? 8190 then 117 else if a =? 8191 then 80
                    else if a =? 4096 then 100 else if a =? 4097 then 85 else if a =? 4098 then 112
                    else 0 in
  let mapped := fun a => a / 4096 =? 1 in
  mapped 8192 = false /\
  exists h, hashkey2a mapped m 8189 3 = Some h /\ hashkey2a mapped m 4096 3 = Some h.
Proof.
  intros m mapped. split; [reflexivity|].
  apply (hashkey2a_safe_caseless mapped m 8189 4096 3);
    [ intros a; unfold m, is_char; repeat destruct (_ =? _); lia
    | intros a b E; unfold mapped; by rewrite E
    | lia | lia | unfold B; lia | lia | unfold B; lia
    | intros x Hx; unfold mapped; apply Z.eqb_eq; Z.div_mod_to_equations; lia
    | intros x Hx; unfold mapped; apply Z.eqb_eq; Z.div_mod_to_equations; lia
    | reflexivity ].
Defined.

(** [hashkey2] never faults on a string on mapped pages and its result
    depends on the bytes alone; with the case mask it identifies strings that
    are equal up to ASCII case. *)
Theorem hashkey2_safe_caseless (mapped : Z -> bool) (m : memory) (s1 s2 u upmask : Z) (h : hash128) :
  wf_mem m -> page_mapped 4096 mapped ->
  0 <= u < B -> 0 <= s1 -> 0 <= s2 ->
  range_mapped mapped s1 u -> range_mapped mapped s2 u ->
  bytes m s1 u = bytes m s2 u \/
    upmask = hk_upmask /\ map toupper (bytes m s1 u) = map toupper (bytes m s2 u) ->
  exists r, hashkey2 mapped m upmask s1 u h = Some r /\ hashkey2 mapped m upmask s2 u h = Some r.
Proof.
  intros Hm Hp Hn H1 H2 R1 R2 E. rewrite !hashkey2_ok by done.
  assert (Es : hash2_spec upmask (bytes m s1 u) h = hash2_spec upmask (bytes m s2 u) h).
  { destruct E as [E|[-> E]]; [by rewrite E|].
    apply hash2_spec_caseless; [by apply bytes_at_Forall | by apply bytes_at_Forall | exact E]. }
  rewrite <- Es. eexists; split; reflexivity.
Qed.

Lemma hashkey2_safe_caseless_witness :
  let m := fun a => if a =? 0 then 97 else if a =? 16 then 65 else 0 in
  exists r, hashkey2 (fun _ => true) m hk_upmask 0 11 (mkHash 1 2) = Some r /\
            hashkey2 (fun _ => true) m hk_upmask 16 11 (mkHash 1 2) = Some r.
Proof.
  intros m. apply (hashkey2_safe_caseless (fun _ => true) m 0 16 11 hk_upmask (mkHash 1 2));
    [ intros a; unfold m, is_char; repeat destruct (_ =? _); lia
    | intros a b E; done | unfold B; lia | lia | lia | intros x Hx; done | intros x Hx; done
    | right; split; reflexivity ].
Defined.

(** [hashkey1] stays within [ubits] bits for every table size it supports
    without overflow, and ignores ASCII case. *)
Theorem hashkey1_bounded_caseless (m : memory) (s1 s2 u ubits : Z) :
  1 <= ubits <= 31 -> map toupper (bytes m s1 u) = map toupper (bytes m s2 u) ->
  exists k, hashkey1 m s1 u ubits = Some k /\ hashkey1 m s2 u ubits = Some k /\ 0 <= k < 2 ^ ubits.
Proof.
  intros Hu E. unfold hashkey1.
  assert (L : (Z.to_nat ubits < length rot_values)%nat) by (cbn; lia).
  apply lookup_lt_is_Some_2 in L as [rot ->]. cbn [mbind option_bind].
  destruct (hashkey1_loop_spec m m s1 s2 (Z.to_nat u) rot ubits 0 Hu) as [R ->]; [|done|].
  - split; [done|]. apply Z.pow_pos_nonneg; lia.
  - eauto.
Qed.

Lemma hashkey1_bounded_caseless_witness :
  let m := fun a => if a <? 10 then 72 else 104 in
  exists k, hashkey1 m 0 5 14 = Some k /\ hashkey1 m 20 5 14 = Some k /\ 0 <= k < 2 ^ 14.
Proof.
  intros m. apply (hashkey1_bounded_caseless m 0 20 5 14); [lia | reflexivity].
Defined.
