(* ===== verification/Dict.v ===== *)
(** * Dictionary search (engine/support.c, the [LONGNAME] macros of forth.h)

    Names live in memory: a header is addressed by its name token [np], with
    the count-and-flags cell, the link cell and the name bytes below it.
    [listlfind] follows the link cells of a word list; [hashlfind] and
    [tablelfind] follow a bucket of (next, name token) pairs. *)
From S2P Require Import Prelude Memory Strings Hash.

Definition LONGNAME_OFF : Z := 4.
Definition RESERVED_BITS : Z := 8.
Definition NULL : Z := 0.

(** The top [RESERVED_BITS] of the count cell are flags. *)
Definition LONGNAME_COUNT (m : memory) (np : Z) : Z :=
  Z.land (load_cell m (np - LONGNAME_OFF * 8)) (Z.shiftr (B - 1) RESERVED_BITS).
Definition LONGNAME_NAME (m : memory) (np : Z) : Z :=
  np - LONGNAME_OFF * 8 - LONGNAME_COUNT m np.
Definition LONGNAME_NEXT (m : memory) (np : Z) : Z :=
  load_cell m (np + (- LONGNAME_OFF + 1) * 8).

(** The loops are unbounded in C; [fuel] counts the links followed, and the
    result is [None] when it runs out. *)
Fixpoint listlfind (fuel : nat) (m : memory) (c_addr u longname1 : Z) : option Z :=
  if longname1 =? NULL then Some longname1
  else if (LONGNAME_COUNT m longname1 =? u)
          && (memcasecmp m c_addr (LONGNAME_NAME m longname1) u =? 0)
  then Some longname1
  else match fuel with
       | O => None
       | S fuel => listlfind fuel m c_addr u (LONGNAME_NEXT m longname1)
       end.

Fixpoint hashlfind (fuel : nat) (m : memory) (c_addr u a_addr : Z) : option Z :=
  if a_addr =? NULL then Some NULL
  else
    let longname1 := load_cell m (a_addr + 8) in
    let a_addr := load_cell m a_addr in
    if (LONGNAME_COUNT m longname1 =? u)
       && (memcasecmp m c_addr (LONGNAME_NAME m longname1) u =? 0)
    then Some longname1
    else match fuel with
         | O => None
         | S fuel => hashlfind fuel m c_addr u a_addr
         end.

Fixpoint tablelfind (fuel : nat) (m : memory) (c_addr u a_addr : Z) : option Z :=
  if a_addr =? NULL then Some NULL
  else
    let longname1 := load_cell m (a_addr + 8) in
    let a_addr := load_cell m a_addr in
    if (LONGNAME_COUNT m longname1 =? u)
       && (memcmp m c_addr (LONGNAME_NAME m longname1) u =? 0)
    then Some longname1
    else match fuel with
         | O => None
         | S fuel => tablelfind fuel m c_addr u a_addr
         end.

(** ** Abstract view *)

(** The name of a header, as a byte string. *)
Definition name_of (m : memory) (np : Z) : list Z :=
  bytes m (LONGNAME_NAME m np) (LONGNAME_COUNT m np).

(** [list_chain m np l]: [l] lists the headers of the word list from [np]. *)
Inductive list_chain (m : memory) : Z -> list Z -> Prop :=
| lc_nil : list_chain m NULL []
| lc_cons np l : np <> NULL -> list_chain m (LONGNAME_NEXT m np) l -> list_chain m np (np :: l).

(** [bucket m a l]: the bucket at [a] holds the name tokens [l]. *)
Inductive bucket (m : memory) : Z -> list Z -> Prop :=
| bk_nil : bucket m NULL []
| bk_cons a l : a <> NULL -> bucket m (load_cell m a) l ->
    bucket m a (load_cell m (a + 8) :: l).

(** First header whose name has the same key as [s]; [NULL] if there is none. *)
Definition find_name (key : list Z -> list Z) (m : memory) (s : list Z) (l : list Z) : Z :=
  default NULL (List.find (fun np => bool_decide (key (name_of m np) = key s)) l).

(** What the hashed dictionary needs from its hash function. *)
Class CaselessHash (hash : list Z -> Z) : Prop :=
  caseless_hash : forall l1 l2, Forall is_char l1 -> Forall is_char l2 ->
    map ascii_toupper l1 = map ascii_toupper l2 -> hash l1 = hash l2.

(** ** Lemmas *)

Lemma eq_loop_iff f m loop s1 s2 n :
  (forall s1 s2, loop s1 s2 O = 0) ->
  (forall s1 s2 n, loop s1 s2 (S n) =
     if f (m s1) =? f (m s2) then loop (s1 + 1) (s2 + 1) n else loop s1 s2 (S n)) ->
  (forall s1 s2 n, f (m s1) <> f (m s2) ->
     Z.sgn (loop s1 s2 (S n)) = if f (m s1) <? f (m s2) then -1 else 1) ->
  (loop s1 s2 n =? 0) = bool_decide (map f (bytes_at m s2 n) = map f (bytes_at m s1 n)).
Proof.
  intros H1 H2 H3. pose proof (loop_lexcmp f m loop H1 H2 H3 s1 s2 n n) as L.
  cbv zeta in L. rewrite Nat.min_id, Z.sub_diag in L.
  pose proof (lexcmp_eq (map f (bytes_at m s1 n)) (map f (bytes_at m s2 n))) as E.
  destruct (Z.eqb_spec (loop s1 s2 n) 0) as [E0|E0]; symmetry.
  - apply bool_decide_true. symmetry. by apply E.
  - apply bool_decide_false. intros X. symmetry in X. apply E in X. rewrite X in L. lia.
Qed.

Lemma memcmp_eq m s1 s2 u :
  (memcmp m s1 s2 u =? 0) = bool_decide (bytes m s2 u = bytes m s1 u).
Proof.
  unfold memcmp, bytes. rewrite (eq_loop_iff (fun x => x) m (memcmp_loop m)).
  - by rewrite !List.map_id.
  - done.
  - intros a b n. cbn [memcmp_loop]. by destruct (_ =? _).
  - intros a b n E. cbn [memcmp_loop]. destruct (Z.eqb_spec (m a) (m b)); [done|]. cbn [negb].
    zcases; lia.
Qed.

Lemma memcasecmp_eq m s1 s2 u :
  (memcasecmp m s1 s2 u =? 0) =
  bool_decide (map ascii_toupper (bytes m s2 u) = map ascii_toupper (bytes m s1 u)).
Proof.
  unfold memcasecmp, bytes. apply (eq_loop_iff ascii_toupper m (memcasecmp_loop m)).
  - done.
  - intros a b n. cbn [memcasecmp_loop]. by destruct (_ =? _).
  - intros a b n E. cbn [memcasecmp_loop].
    destruct (Z.eqb_spec (ascii_toupper (m a)) (ascii_toupper (m b))); [done|]. cbn [negb].
    by destruct (_ <? _).
Qed.

Lemma LONGNAME_COUNT_nonneg m np : wf_mem m -> 0 <= LONGNAME_COUNT m np.
Proof.
  intros H. unfold LONGNAME_COUNT. apply Z.land_nonneg. left.
  by destruct (load_cell_range m (np - LONGNAME_OFF * 8) H).
Qed.

(** The test of the search loops: equal count and equal bytes under [key],
    where [key] keeps the length. *)
Lemma name_test (key : list Z -> list Z) m c_addr u np (t : bool) :
  wf_mem m -> 0 <= u -> (forall l, length (key l) = length l) ->
  (LONGNAME_COUNT m np = u ->
   t = bool_decide (key (bytes m (LONGNAME_NAME m np) u) = key (bytes m c_addr u))) ->
  (LONGNAME_COUNT m np =? u) && t = bool_decide (key (name_of m np) = key (bytes m c_addr u)).
Proof.
  intros Hm Hu Hk Ht. unfold name_of. pose proof (LONGNAME_COUNT_nonneg m np Hm).
  destruct (Z.eqb_spec (LONGNAME_COUNT m np) u) as [E|E]; cbn [andb].
  - rewrite (Ht E). by rewrite E.
  - symmetry. apply bool_decide_false. intros X. apply (f_equal length) in X.
    unfold bytes in X. rewrite !Hk, !bytes_at_length in X. lia.
Qed.

Lemma caseless_test m c_addr u np :
  wf_mem m -> 0 <= u ->
  (LONGNAME_COUNT m np =? u) && (memcasecmp m c_addr (LONGNAME_NAME m np) u =? 0)
  = bool_decide (map ascii_toupper (name_of m np) = map ascii_toupper (bytes m c_addr u)).
Proof.
  intros. apply (name_test (map ascii_toupper)); [done|done|intros; apply length_map|].
  intros _. apply memcasecmp_eq.
Qed.

Lemma exact_test m c_addr u np :
  wf_mem m -> 0 <= u ->
  (LONGNAME_COUNT m np =? u) && (memcmp m c_addr (LONGNAME_NAME m np) u =? 0)
  = bool_decide (name_of m np = bytes m c_addr u).
Proof. intros. apply (name_test (fun l => l)); try done. intros _. apply memcmp_eq. Qed.

Lemma listlfind_spec m c_addr u np l fuel :
  wf_mem m -> 0 <= u -> list_chain m np l -> (length l <= fuel)%nat ->
  listlfind fuel m c_addr u np = Some (find_name (map ascii_toupper) m (bytes m c_addr u) l).
Proof.
  intros Hm Hu H. revert fuel. induction H as [|np l Hnp Hc IH]; intros fuel Hf.
  { by destruct fuel. }
  cbn [length] in Hf. destruct fuel as [|fuel]; [lia|]. cbn [listlfind].
  destruct (Z.eqb_spec np NULL); [done|]. rewrite caseless_test by done.
  unfold find_name. cbn [List.find]. destruct (bool_decide _); [done|]. apply IH. lia.
Qed.

Lemma hashlfind_spec m c_addr u a l fuel :
  wf_mem m -> 0 <= u -> bucket m a l -> (length l <= fuel)%nat ->
  hashlfind fuel m c_addr u a = Some (find_name (map ascii_toupper) m (bytes m c_addr u) l).
Proof.
  intros Hm Hu H. revert fuel. induction H as [|a l Ha Hc IH]; intros fuel Hf.
  { by destruct fuel. }
  cbn [length] in Hf. destruct fuel as [|fuel]; [lia|]. cbn [hashlfind].
  destruct (Z.eqb_spec a NULL); [done|]. cbv zeta. rewrite caseless_test by done.
  unfold find_name. cbn [List.find]. destruct (bool_decide _); [done|]. apply IH. lia.
Qed.

Lemma tablelfind_spec m c_addr u a l fuel :
  wf_mem m -> 0 <= u -> bucket m a l -> (length l <= fuel)%nat ->
  tablelfind fuel m c_addr u a = Some (find_name (fun s => s) m (bytes m c_addr u) l).
Proof.
  intros Hm Hu H. revert fuel. induction H as [|a l Ha Hc IH]; intros fuel Hf.
  { by destruct fuel. }
  cbn [length] in Hf. destruct fuel as [|fuel]; [lia|]. cbn [tablelfind].
  destruct (Z.eqb_spec a NULL); [done|]. cbv zeta. rewrite exact_test by done.
  unfold find_name. cbn [List.find]. destruct (bool_decide _); [done|]. apply IH. lia.
Qed.

(** Dropping headers that cannot match does not change the search. *)
Lemma find_filter {A} (p q : A -> bool) l :
  (forall x, p x = true -> q x = true) ->
  List.find p (List.filter q l) = List.find p l.
Proof.
  intros H. induction l as [|x l IH]; [done|]. cbn [List.filter List.find].
  destruct (q x) eqn:Q; cbn [List.find].
  - by rewrite IH.
  - destruct (p x) eqn:P; [apply H in P; congruence | done].
Qed.

Lemma name_of_Forall m np : wf_mem m -> Forall is_char (name_of m np).
Proof. intros. by apply bytes_at_Forall. Qed.

Lemma toupper_ascii c : is_char c -> ascii_toupper c = toupper c.
Proof. intros H. unfold ascii_toupper, toupper. destruct (_ && _) eqn:E; [|done]. zbool. wrap_lia. Qed.

Lemma map_toupper_ascii l : Forall is_char l -> map toupper l = map ascii_toupper l.
Proof. induction 1; cbn; [done|]. by rewrite toupper_ascii, IHForall. Qed.

(** The engine's own hash function satisfies the interface. *)
#[export] Instance hash2a_caseless : CaselessHash hash2a_spec.
Proof. intros l1 l2 H1 H2 E. apply hash2a_spec_caseless; try done. by rewrite !map_toupper_ascii. Qed.

(** ** Properties *)

(** C37: the searches terminate and return the first header whose name equals
    the string (ignoring ASCII case for word lists and hashed word lists,
    exactly for tables), and [NULL] when there is none; as many steps as there
    are headers are enough. *)
Theorem dictionary_search_first_match (m : memory) (c_addr u np a : Z) (l b : list Z) (fuel : nat) :
  wf_mem m -> 0 <= u -> list_chain m np l -> bucket m a b ->
  (length l <= fuel)%nat -> (length b <= fuel)%nat ->
  let s := bytes m c_addr u in
  listlfind fuel m c_addr u np = Some (find_name (map ascii_toupper) m s l) /\
  hashlfind fuel m c_addr u a = Some (find_name (map ascii_toupper) m s b) /\
  tablelfind fuel m c_addr u a = Some (find_name (fun s => s) m s b).
Proof.
  intros. split; [by apply listlfind_spec|]. split; [by apply hashlfind_spec | by apply tablelfind_spec].
Qed.

(** C33: the hashed search finds exactly what the linear search finds: for any
    hash function that respects case-insensitive equality and any bucket index
    computed from it, when the bucket of the searched string holds the headers
    of the word list with that index, in word-list order, [hashlfind] on the
    bucket and [listlfind] on the list return the same header. *)
Theorem hashed_search_refines_linear (hash : list Z -> Z) `{!CaselessHash hash} (index : Z -> Z)
    (m : memory) (c_addr u np a : Z) (l : list Z) (fuel : nat) :
  wf_mem m -> 0 <= u -> list_chain m np l ->
  bucket m a (List.filter (fun np => index (hash (name_of m np)) =?
                                     index (hash (bytes m c_addr u))) l) ->
  (length l <= fuel)%nat ->
  hashlfind fuel m c_addr u a = listlfind fuel m c_addr u np.
Proof.
  intros Hm Hu Hl Hb Hf. rewrite (listlfind_spec m c_addr u np l) by done.
  rewrite (hashlfind_spec _ _ _ _ _ _ Hm Hu Hb).
  2: { pose proof (List.filter_length_le (fun np => index (hash (name_of m np)) =?
         index (hash (bytes m c_addr u))) l). lia. }
  unfold find_name. rewrite find_filter; [done|].
  intros x Hx%bool_decide_eq_true. apply Z.eqb_eq. f_equal.
  apply caseless_hash; [by apply name_of_Forall | by apply bytes_at_Forall | done].
Qed.

(** A word list with the two headers [dup] (newest) and [Dup], stored at 1000
    and 2000, and a bucket for it at 3000. *)
Definition demo_cells : list (Z * list Z) :=
  [ (965, [100; 117; 112]); (968, [3]); (976, [208; 7]);
    (1965, [68; 117; 112]); (1968, [3]);
    (3000, [216; 11]); (3008, [232; 3]); (3032, []); (3040, [208; 7]);
    (4000, [68; 85; 80]) ].
Definition demo_mem : memory := fun a =>
  foldr (fun '(b, l) r => if (b <=? a) && (a <? b + Z.of_nat (length l))
                          then nth (Z.to_nat (a - b)) l 0 else r) 0 demo_cells.

Lemma demo_mem_wf : wf_mem demo_mem.
Proof.
  intros a. unfold demo_mem, demo_cells, is_char. cbn [foldr length].
  repeat match goal with |- context [if ?b then _ else _] => destruct b end; try lia;
    repeat match goal with |- context [nth (Z.to_nat ?z) _ _] => generalize (Z.to_nat z); intros n end;
    repeat (destruct n as [|n]; cbn [nth]; try lia).
Qed.

Lemma demo_list : list_chain demo_mem 1000 [1000; 2000].
Proof.
  apply lc_cons; [done|]. replace (LONGNAME_NEXT demo_mem 1000) with 2000 by (vm_compute; done).
  apply lc_cons; [done|]. replace (LONGNAME_NEXT demo_mem 2000) with 0 by (vm_compute; done).
  apply lc_nil.
Qed.

Lemma demo_bucket : bucket demo_mem 3000 [1000; 2000].
Proof.
  assert (E1 : load_cell demo_mem (3000 + 8) = 1000) by (vm_compute; done).
  assert (E2 : load_cell demo_mem (3032 + 8) = 2000) by (vm_compute; done).
  rewrite <- E1, <- E2. apply bk_cons; [done|].
  replace (load_cell demo_mem 3000) with 3032 by (vm_compute; done).
  apply bk_cons; [done|]. replace (load_cell demo_mem 3032) with 0 by (vm_compute; done).
  apply bk_nil.
Qed.

Lemma dictionary_search_first_match_witness :
  listlfind 2 demo_mem 4000 3 1000 = Some 1000 /\ tablelfind 2 demo_mem 1965 3 3000 = Some 2000.
Proof.
  destruct (dictionary_search_first_match demo_mem 4000 3 1000 3000 _ _ 2 demo_mem_wf
              ltac:(lia) demo_list demo_bucket ltac:(cbn; lia) ltac:(cbn; lia)) as (-> & _ & _).
  destruct (dictionary_search_first_match demo_mem 1965 3 1000 3000 _ _ 2 demo_mem_wf
              ltac:(lia) demo_list demo_bucket ltac:(cbn; lia) ltac:(cbn; lia)) as (_ & _ & ->).
  split; vm_compute; reflexivity.
Defined.

Lemma hashed_search_refines_linear_witness :
  hashlfind 2 demo_mem 4000 3 3000 = listlfind 2 demo_mem 4000 3 1000.
Proof.
  apply (hashed_search_refines_linear hash2a_spec (fun h => h mod 64) demo_mem 4000 3 1000 3000
           [1000; 2000] 2); [apply demo_mem_wf | lia | apply demo_list | | cbn; lia].
  match goal with |- bucket _ _ ?l => replace l with [1000; 2000] by (vm_compute; reflexivity) end.
  apply demo_bucket.
Defined.
