(* ===== verification/DoubleCell.v ===== *)
(** * Double-cell arithmetic (engine/dblsub.c, engine/forth.h)

    Double cells as the two-field structures of forth.h used when the C
    compiler has no 128-bit integers ([BUGGY_LONG_LONG]); the theorems show
    that they agree with 128-bit arithmetic, which is what the other
    configuration uses. *)
From S2P Require Import Prelude.

(** ** Half cells (forth.h) *)

Definition HALFCELL_BITS : Z := 32.
Definition HALF : Z := 4294967296.
Definition HALFCELL_MASK : Z := Z.shiftr (B - 1) HALFCELL_BITS.
Definition UH (x : Z) : Z := Z.shiftr (U64 x) HALFCELL_BITS.
Definition LH (x : Z) : Z := Z.land (U64 x) HALFCELL_MASK.
Definition L2U (x : Z) : Z := U64 (Z.shiftl (U64 x) HALFCELL_BITS).
Definition HIGHBIT (x : Z) : Z := Z.shiftr (U64 x) (CELL_BITS - 1).

(** ** Double cells *)

Record DCell := mkD { d_hi : Z; d_lo : Z }.
Record UDCell := mkUD { ud_hi : Z; ud_lo : Z }.

(** The number a double cell stands for. *)
Definition dval (d : DCell) : Z := d_hi d * B + d_lo d.
Definition udval (d : UDCell) : Z := ud_hi d * B + ud_lo d.

Definition wf_d (d : DCell) : Prop := is_cell (d_hi d) /\ is_ucell (d_lo d).
Definition wf_ud (d : UDCell) : Prop := is_ucell (ud_hi d) /\ is_ucell (ud_lo d).

(** A 128-bit value split into cells, as the [Double_Store] union does. *)
Definition D_of_Z (z : Z) : DCell := mkD (S64 (z / B)) (U64 z).
Definition UD_of_Z (z : Z) : UDCell := mkUD (U64 (z / B)) (U64 z).

Definition UD2D (ud : UDCell) : DCell := mkD (S64 (ud_hi ud)) (ud_lo ud).
Definition D2UD (d : DCell) : UDCell := mkUD (U64 (d_hi d)) (d_lo d).

(** [DLSHIFT]/[UDLSHIFT] for [BUGGY_LONG_LONG]: shifts by less than a cell. *)
Definition DLSHIFT (d : DCell) (u : Z) : DCell :=
  if u =? 0 then d
  else mkD (S64 (Z.lor (U64 (Z.shiftl (U64 (d_hi d)) u)) (Z.shiftr (d_lo d) (CELL_BITS - u))))
           (U64 (Z.shiftl (d_lo d) u)).
Definition UDLSHIFT (ud : UDCell) (u : Z) : UDCell := D2UD (DLSHIFT (UD2D ud) u).

(** ** dblsub.c *)

Definition dnegate (d1 : DCell) : DCell :=
  mkD (S64 (Z.lnot (d_hi d1) + c_bool (d_lo d1 =? 0))) (U64 (- d_lo d1)).

Definition ummul (a b : Z) : UDCell :=
  let lo := U64 (a * b) in
  let ul := U64 (UH a * LH b) in
  let lu := U64 (LH a * UH b) in
  let uu := U64 (UH a * UH b) in
  let m := U64 (ul + lu) in
  mkUD (U64 (uu + L2U (c_bool (m <? ul)) + UH m + c_bool (lo <? L2U m))) lo.

Definition mmul (a b : Z) : DCell :=
  let res := UD2D (ummul (U64 a) (U64 b)) in
  let res := if a <? 0 then mkD (S64 (d_hi res - b)) (d_lo res) else res in
  if b <? 0 then mkD (S64 (d_hi res - a)) (d_lo res) else res.

Definition dadd (d1 d2 : UDCell) : UDCell :=
  let lo := U64 (ud_lo d1 + ud_lo d2) in
  mkUD (U64 (ud_hi d1 + ud_hi d2 + c_bool (lo <? ud_lo d1))) lo.

(** [umadd] adds a single cell. *)
Definition umadd (ud : UDCell) (u : Z) : UDCell := dadd ud (mkUD 0 u).

(** ** Lemmas *)

Lemma B_HALF : B = HALF * HALF.
Proof. reflexivity. Qed.

Lemma UH_div x : is_ucell x -> UH x = x / HALF.
Proof. intros. unfold UH. rewrite U64_small by done. by rewrite Z.shiftr_div_pow2. Qed.

Lemma LH_mod x : is_ucell x -> LH x = x mod HALF.
Proof.
  intros. unfold LH. rewrite U64_small by done.
  change HALFCELL_MASK with (Z.ones 32). by rewrite Z.land_ones.
Qed.

Lemma L2U_mul x : is_ucell x -> L2U x = (x mod HALF) * HALF.
Proof.
  intros. unfold L2U. rewrite (U64_small x), Z.shiftl_mul_pow2 by done.
  unfold U64. rewrite B_HALF. change (2 ^ HALFCELL_BITS) with HALF.
  by rewrite Z.mul_mod_distr_r.
Qed.

Lemma UH_range x : is_ucell x -> 0 <= UH x < HALF.
Proof. intros. rewrite UH_div by done. unfold HALF. wrap_lia. Qed.

Lemma LH_range x : is_ucell x -> 0 <= LH x < HALF.
Proof. intros. rewrite LH_mod by done. unfold HALF. wrap_lia. Qed.

Lemma half_split x : is_ucell x -> x = UH x * HALF + LH x.
Proof. intros. rewrite UH_div, LH_mod by done. unfold HALF. wrap_lia. Qed.

#[export] Hint Resolve UH_range LH_range : cell.

Lemma half_mul_small a b : 0 <= a < HALF -> 0 <= b < HALF -> is_ucell (a * b).
Proof. unfold is_ucell. rewrite B_HALF. unfold HALF. nia. Qed.

Lemma udval_range d : wf_ud d -> 0 <= udval d < B * B.
Proof. destruct d; unfold wf_ud, udval, is_ucell, B; simpl. lia. Qed.

Lemma dval_range d : wf_d d -> - (B * BH) <= dval d < B * BH.
Proof. destruct d; unfold wf_d, dval; simpl. wrap_lia. Qed.

Lemma udval_inj d e : wf_ud d -> wf_ud e -> udval d = udval e -> d = e.
Proof.
  destruct d, e; unfold wf_ud, udval, is_ucell, B; simpl.
  intros. f_equal; lia.
Qed.

Lemma udval_of_Z z : 0 <= z < B * B -> udval (UD_of_Z z) = z.
Proof. unfold udval, UD_of_Z; simpl. wrap_lia. Qed.

Lemma dval_of_Z z : - (B * BH) <= z < B * BH -> dval (D_of_Z z) = z.
Proof. unfold dval, D_of_Z; simpl. wrap_lia. Qed.

Lemma wf_UD_of_Z z : wf_ud (UD_of_Z z).
Proof. split; apply U64_range. Qed.

Lemma wf_D_of_Z z : wf_d (D_of_Z z).
Proof. split; [apply S64_range | apply U64_range]. Qed.

Lemma UD_of_Z_udval d : wf_ud d -> UD_of_Z (udval d) = d.
Proof.
  intros. apply udval_inj; auto using wf_UD_of_Z.
  apply udval_of_Z. by apply udval_range.
Qed.

(** The carry out of the low product: the heart of the multiplication. *)
Lemma ummul_lo_carry ll m : 0 <= ll < B -> 0 <= m < B ->
  c_bool (U64 (ll + L2U m) <? L2U m) = (ll + L2U m) / B.
Proof.
  intros Hl Hm. rewrite L2U_mul by done.
  assert (0 <= m mod HALF * HALF < B) by (unfold HALF, B in *; wrap_lia).
  unfold c_bool. zcases; unfold U64 in *; revert H0;
    generalize dependent (m mod HALF * HALF); intros; wrap_lia.
Qed.

Lemma add_carry a b : is_ucell a -> is_ucell b ->
  c_bool (U64 (a + b) <? a) = (a + b) / B.
Proof. intros. unfold c_bool. zcases; wrap_lia. Qed.

Lemma L2U_carry c : L2U (c_bool c) = c_bool c * HALF.
Proof. destruct c; reflexivity. Qed.

Lemma U64_digit a x : is_ucell x -> U64 (a * B + x) = x.
Proof. unfold U64. intros. rewrite Z.add_comm, Z.mod_add by done. by apply Z.mod_small. Qed.

Lemma div_digit a x : is_ucell x -> (a * B + x) / B = a.
Proof. intros. rewrite Z.div_add_l by done. rewrite Z.div_small by done. lia. Qed.

(** The two cells of [ummul] from the four half-cell products. *)
Lemma ummul_digits uu ul lu ll :
  is_ucell uu -> is_ucell ul -> is_ucell lu -> is_ucell ll ->
  uu * B + (ul + lu) * HALF + ll < B * B ->
  let m := U64 (ul + lu) in
  let lo := U64 (ll + L2U m) in
  uu * B + (ul + lu) * HALF + ll
    = U64 (uu + L2U (c_bool (m <? ul)) + UH m + c_bool (lo <? L2U m)) * B + lo.
Proof.
  intros Huu Hul Hlu Hll Hmax m lo.
  assert (Hm : is_ucell m) by apply U64_range.
  assert (C1 : c_bool (m <? ul) = (ul + lu) / B) by by apply add_carry.
  assert (C2 : c_bool (lo <? L2U m) = (ll + L2U m) / B) by by apply ummul_lo_carry.
  rewrite L2U_carry, C1, C2, UH_div by done.
  assert (E1 : ul + lu = (ul + lu) / B * B + m) by by apply div_mod_eq.
  assert (E2 : m = m / HALF * HALF + m mod HALF) by by apply div_mod_eq.
  assert (E3 : ll + L2U m = (ll + L2U m) / B * B + lo) by by apply div_mod_eq.
  assert (E4 : L2U m = m mod HALF * HALF) by by apply L2U_mul.
  assert (Hlo : is_ucell lo) by apply U64_range.
  revert E1 E2 E3 E4.
  generalize ((ul + lu) / B) (m / HALF) (m mod HALF) ((ll + L2U m) / B).
  intros c1 mh ml c2 E1 E2 E3 E4.
  assert (Heq : uu * B + (ul + lu) * HALF + ll = (uu + c1 * HALF + mh + c2) * B + lo)
    by (rewrite E1; rewrite B_HALF in *; nia).
  rewrite Heq, U64_small; [done|].
  unfold is_ucell in *. pose proof B_pos.
  assert (0 <= uu * B + (ul + lu) * HALF + ll) by (unfold HALF in *; lia).
  nia.
Qed.

Lemma low_product uu x ll :
  U64 (uu * B + x * HALF + ll) = U64 (ll + L2U (U64 x)).
Proof.
  rewrite L2U_mul by apply U64_range.
  assert (E : U64 x mod HALF = x mod HALF)
    by (unfold U64, HALF, B; Z.div_mod_to_equations; lia).
  rewrite E. unfold U64.
  replace (uu * B + x * HALF + ll)
    with (ll + x mod HALF * HALF + (uu + x / HALF) * B); [by rewrite Z.mod_add|].
  rewrite (div_mod_eq x HALF) at 3 by done. rewrite B_HALF. ring.
Qed.

Lemma half_product h ha la hb lb :
  (ha * h + la) * (hb * h + lb)
  = ha * hb * (h * h) + (ha * lb + la * hb) * h + la * lb.
Proof. ring. Qed.

(** The product of two cells is computed exactly. *)
Lemma ummul_val a b : is_ucell a -> is_ucell b -> udval (ummul a b) = a * b.
Proof.
  intros Ha Hb. unfold ummul, udval; cbn [ud_hi ud_lo].
  assert (Hsplit : a * b = UH a * UH b * B + (UH a * LH b + LH a * UH b) * HALF
                   + LH a * LH b).
  { rewrite B_HALF, <- half_product, <- !half_split by done. done. }
  assert (is_ucell (UH a * LH b)) by (apply half_mul_small; auto with cell).
  assert (is_ucell (LH a * UH b)) by (apply half_mul_small; auto with cell).
  assert (is_ucell (UH a * UH b)) by (apply half_mul_small; auto with cell).
  assert (is_ucell (LH a * LH b)) by (apply half_mul_small; auto with cell).
  rewrite (U64_small (UH a * LH b)), (U64_small (LH a * UH b)),
    (U64_small (UH a * UH b)) by done.
  assert (Hlo : U64 (a * b) = U64 (LH a * LH b + L2U (U64 (UH a * LH b + LH a * UH b)))).
  { rewrite Hsplit. apply low_product. }
  rewrite Hlo, Hsplit. symmetry. apply ummul_digits; try done.
  rewrite <- Hsplit. unfold is_ucell in *. nia.
Qed.

Lemma ummul_wf a b : wf_ud (ummul a b).
Proof. split; apply U64_range. Qed.

Lemma U64_signed a : is_cell a -> U64 a = a + c_bool (a <? 0) * B.
Proof. unfold c_bool. intros. zcases; wrap_lia. Qed.

(** A double cell is determined by its value modulo the high cell's wrap. *)
Lemma dval_wrapped z h lo :
  - (B * BH) <= z < B * BH -> is_ucell lo -> z = h * B + lo ->
  dval (mkD (S64 h) lo) = z.
Proof. intros. unfold dval; simpl. subst z. rewrite S64_small; [done|]. wrap_lia. Qed.

Lemma cell_mul_bound a b : is_cell a -> is_cell b -> - (B * BH) <= a * b < B * BH.
Proof.
  unfold is_cell. change B with (2 * BH). pose proof (eq_refl : BH = 9223372036854775808).
  nia.
Qed.

(** Signed mixed-precision multiplication is exact. *)
Lemma mmul_val a b : is_cell a -> is_cell b -> dval (mmul a b) = a * b.
Proof.
  intros Ha Hb. pose proof (ummul_val (U64 a) (U64 b) (U64_range a) (U64_range b)) as P.
  destruct (ummul_wf (U64 a) (U64 b)) as [_ Wl]. unfold mmul.
  destruct (ummul (U64 a) (U64 b)) as [h lo]. unfold udval in P. simpl in *.
  assert (E : a * b = (h + - (c_bool (a <? 0) * b) + - (c_bool (b <? 0) * a)
                        + - (c_bool (a <? 0) * c_bool (b <? 0)) * B) * B + lo).
  { rewrite !U64_signed in P by done. apply (f_equal (fun z => z - h * B)) in P.
    replace (h * B + lo - h * B) with lo in P by ring. rewrite P. ring. }
  unfold UD2D. cbn [ud_hi ud_lo].
  rewrite <- (dval_wrapped _ _ lo (cell_mul_bound a b Ha Hb) Wl E).
  rewrite S64_add_B. unfold c_bool.
  destruct (Z.ltb_spec a 0), (Z.ltb_spec b 0); cbn [d_hi d_lo];
    unfold dval; cbn [d_hi d_lo]; f_equal; f_equal; wrap_lia.
Qed.

Lemma mmul_wf a b : wf_d (mmul a b).
Proof.
  unfold mmul. destruct (_ <? _), (_ <? _); split; cbn [d_hi d_lo UD2D];
    auto using S64_range; apply U64_range.
Qed.

Lemma D2UD_val d : wf_d d -> udval (D2UD d) = dval d mod (B * B).
Proof. destruct d; unfold wf_d, udval, dval, D2UD; simpl. wrap_lia. Qed.

Lemma UD2D_D2UD d : wf_d d -> UD2D (D2UD d) = d.
Proof.
  destruct d. unfold wf_d, UD2D, D2UD; simpl. intros [? ?].
  by rewrite S64_U64, S64_small.
Qed.

Lemma D2UD_UD2D d : wf_ud d -> D2UD (UD2D d) = d.
Proof.
  destruct d. unfold wf_ud, UD2D, D2UD; simpl. intros [? ?].
  by rewrite U64_S64, U64_small.
Qed.

Lemma D2UD_wf d : wf_d d -> wf_ud (D2UD d).
Proof. intros [? ?]. split; [apply U64_range | done]. Qed.

(** [dadd] and [dnegate] are addition and negation modulo 2^128. *)
Lemma dadd_val x y : wf_ud x -> wf_ud y -> udval (dadd x y) = (udval x + udval y) mod (B * B).
Proof.
  destruct x as [xh xl], y as [yh yl]. unfold wf_ud, udval, dadd. simpl. intros [? ?] [? ?].
  rewrite add_carry by done. wrap_lia.
Qed.

Lemma dadd_wf x y : wf_ud (dadd x y).
Proof. split; apply U64_range. Qed.

Lemma dnegate_val d : wf_d d -> dval d <> - (B * BH) -> dval (dnegate d) = - dval d.
Proof.
  destruct d as [h l]. unfold wf_d, dval, dnegate. cbn [d_hi d_lo]. intros [? ?] ?.
  unfold Z.lnot, c_bool. zcases; wrap_lia.
Qed.

Lemma dnegate_min d : wf_d d -> dval d = - (B * BH) -> dnegate d = d.
Proof.
  destruct d as [h l]. unfold wf_d, dval, dnegate. cbn [d_hi d_lo]. intros [? ?] ?.
  assert (h = CELL_MIN /\ l = 0) as [-> ->] by wrap_lia. reflexivity.
Qed.

Lemma dnegate_wf d : wf_d (dnegate d).
Proof. split; [apply S64_range | apply U64_range]. Qed.

Lemma umadd_val x u : wf_ud x -> is_ucell u -> udval (umadd x u) = (udval x + u) mod (B * B).
Proof.
  intros. unfold umadd. rewrite dadd_val; [|done|].
  - unfold udval at 2. simpl. f_equal; lia.
  - split; simpl; [split; [lia|reflexivity] | done].
Qed.

#[export] Hint Resolve ummul_wf mmul_wf dadd_wf dnegate_wf D2UD_wf wf_UD_of_Z wf_D_of_Z : cell.

(** ** Times as double cells (engine/support.c) *)

(** [struct timeval] and [struct timespec]: seconds and a fraction. *)
Record timeval := mkTimeval { tv_sec : Z; tv_usec : Z }.
Record timespec := mkTimespec { ts_sec : Z; ts_nsec : Z }.

Definition timeval2us (tvp : timeval) : DCell :=
  let d1 := mmul (tv_sec tvp) 1000000 in
  let lo := U64 (d_lo d1 + tv_usec tvp) in
  mkD (S64 (d_hi d1 + c_bool (lo <? d_lo d1))) lo.

Definition timespec2ns (tvp : timespec) : DCell :=
  let d1 := mmul (ts_sec tvp) 1000000000 in
  let lo := U64 (d_lo d1 + ts_nsec tvp) in
  mkD (S64 (d_hi d1 + c_bool (lo <? d_lo d1))) lo.

Lemma scaled_time s m f :
  is_cell s -> is_cell m -> is_ucell f -> - (B * BH) <= s * m + f < B * BH ->
  let d1 := mmul s m in
  let lo := U64 (d_lo d1 + f) in
  dval (mkD (S64 (d_hi d1 + c_bool (lo <? d_lo d1))) lo) = s * m + f.
Proof.
  intros Hs Hm Hf Hr d1 lo. pose proof (mmul_val s m Hs Hm) as E. fold d1 in E.
  destruct (mmul_wf s m) as [W1 W2]. fold d1 in W1, W2. subst lo.
  rewrite add_carry by done. apply dval_wrapped; [done | apply U64_range |].
  rewrite <- E. unfold dval, U64. pose proof (div_mod_eq (d_lo d1 + f) B B_pos). lia.
Qed.

(** The time conversions compute seconds times resolution plus fraction
    exactly, as double cells, for every cell-sized second count. *)
Theorem time_conversion_exact (s us ns : Z) :
  is_cell s -> 0 <= us < 1000000 -> 0 <= ns < 1000000000 ->
  dval (timeval2us (mkTimeval s us)) = s * 1000000 + us /\
  dval (timespec2ns (mkTimespec s ns)) = s * 1000000000 + ns.
Proof.
  intros Hs Hu Hn. unfold is_cell, BH in Hs.
  split; apply scaled_time; unfold is_cell, is_ucell, B, BH; lia.
Qed.

Lemma time_conversion_exact_witness :
  is_cell (-5) /\ dval (timeval2us (mkTimeval (-5) 999999)) = -4000001 /\
  dval (timespec2ns (mkTimespec (-5) 1)) = -4999999999.
Proof.
  split; [split; vm_compute; congruence|].
  apply (time_conversion_exact (-5) 999999 1); [split; vm_compute; congruence | lia | lia].
Defined.

(** [mmul] and [ummul] return the exact 128-bit product of two signed,
    resp. unsigned, cells: the half-cell partial products and the sign
    corrections lose nothing. *)
Theorem double_product_exact (a b c d : Z) :
  is_cell a -> is_cell b -> is_ucell c -> is_ucell d ->
  wf_d (mmul a b) /\ dval (mmul a b) = a * b /\
  wf_ud (ummul c d) /\ udval (ummul c d) = c * d.
Proof.
  intros Ha Hb Hc Hd. split; [apply mmul_wf|]. split; [by apply mmul_val|].
  split; [apply ummul_wf | by apply ummul_val].
Qed.

Lemma double_product_exact_witness :
  dval (mmul (- BH) (- BH)) = BH * BH /\ udval (ummul (B - 1) (B - 1)) = (B - 1) * (B - 1).
Proof.
  destruct (double_product_exact (- BH) (- BH) (B - 1) (B - 1)) as (_ & ? & _ & ?);
    [split; vm_compute; congruence .. | by split].
Defined.
