(* ===== verification/Utf8.v ===== *)
(** * UTF-8 decoding ([utf8_fetch_plus] of engine/support.c)

    The decoder looks at four bytes at once with per-length masks.  It is
    proved against the encoder of the same code base (the Forth word [u8!+] of
    utf-8.fs) and shown total on arbitrary bytes. *)
From S2P Require Import Prelude Memory DoubleCell.

(** ** The decoder *)

Definition lens : list Z := [1; 1; 1; 1; 1; 1; 1; 1; 1; 1; 1; 1; 2; 2; 3; 4].
Definition masks : list Z := [0; 0x7F000000; 0x1F3F0000; 0x0F3F3F00; 0x073F3F3F].
Definition vmasks : list Z := [0; 0x80000000; 0xE0C00000; 0xF0C0C000; 0xF8C0C0C0].
Definition valids : list Z := [0; 0x00000000; 0xC0800000; 0xE0808000; 0xF0808080].

(** [BSWAP32] of forth.h *)
Definition BSWAP32 (x : Z) : Z :=
  Z.lor (Z.lor (Z.lor (Z.land (U32 (Z.shiftl x 24)) 0xff000000)
                      (Z.land (U32 (Z.shiftl x 8)) 0x00ff0000))
               (Z.land (Z.shiftr x 8) 0x0000ff00))
        (Z.land (Z.shiftr x 24) 0x000000ff).

(** The 32 bits read: a zero-padded copy when fewer than four bytes are left. *)
Definition utf8_read (m : memory) (c_addr len : Z) : Z :=
  if len <? 4 then le_val (bytes_at m c_addr (Z.to_nat len))
  else le_val (bytes_at m c_addr 4).

(** Squeezing out the two marker bits of every byte. *)
Definition utf8_pack (codepoint : Z) : Z :=
  Z.lor (Z.lor (Z.lor (Z.shiftr (Z.land codepoint 0x000000FF) 0)
                      (Z.shiftr (Z.land codepoint 0x0000FF00) 2))
               (Z.shiftr (Z.land codepoint 0x00FF0000) 4))
        (Z.shiftr (Z.land codepoint 0xFF000000) 6).

(** The [switch] that shortens an invalid sequence, with its fall-through. *)
Definition utf8_resync (cplen codepoint : Z) : Z :=
  let case2 cp := if negb (Z.land codepoint 0xC00000 =? 0x800000) then 1 else cp in
  let case3 cp := case2 (if negb (Z.land codepoint 0xC000 =? 0x8000) then 2 else cp) in
  let case4 cp := case3 (if negb (Z.land codepoint 0xC0 =? 0x80) then 3 else cp) in
  if cplen =? 4 then case4 cplen
  else if cplen =? 3 then case3 cplen
  else if cplen =? 2 then case2 cplen
  else cplen.

(** The length in the low cell, the code point in the high cell. *)
Definition utf8_fetch_plus (m : memory) (c_addr len : Z) : DCell :=
  let codepoint := BSWAP32 (utf8_read m c_addr len) in
  let cplen := nth (Z.to_nat (Z.shiftr codepoint 28)) lens 0 in
  let mask := nth (Z.to_nat cplen) masks 0 in
  let vmask := nth (Z.to_nat cplen) vmasks 0 in
  let valid := nth (Z.to_nat cplen) valids 0 in
  if Z.land codepoint vmask =? valid then
    let codepoint := Z.shiftr (Z.land codepoint mask) (Z.shiftl (4 - cplen) 3) in
    let codepoint := utf8_pack codepoint in
    let codepoint := if 0x10FFFF <? codepoint then 0xFFFD else codepoint in
    mkD codepoint cplen
  else mkD 0xFFFD (utf8_resync cplen codepoint).

(** ** The encoder *)

(** The loop of [u8!+]: continuation bytes are pushed on [acc], the lead byte
    comes last. *)
Fixpoint u8_bytes (fuel : nat) (u mask : Z) (acc : list Z) : list Z :=
  match fuel with
  | O => acc
  | S fuel =>
      if mask <? u
      then u8_bytes fuel (Z.shiftr u 6) (Z.div mask 2) (Z.lor (Z.land u 63) 128 :: acc)
      else Z.lor u (2 * Z.lxor mask 127) :: acc
  end.

(** [BEGIN over $80 u>= WHILE tuck c! 1+ REPEAT] stops at the sentinel 0. *)
Fixpoint u8_stored (l : list Z) : list Z :=
  match l with
  | b :: l => if 128 <=? b then b :: u8_stored l else []
  | [] => []
  end.

Definition u8_store (u : Z) : list Z :=
  if u <? 128 then [u] else u8_stored (u8_bytes 6 u 63 [0]).

(** ** Lemmas *)

(** Four bytes, most significant first. *)
Definition word4 (a b c d : Z) : Z := a * 2 ^ 24 + b * 2 ^ 16 + c * 2 ^ 8 + d.

Lemma byte_split h l m n : is_char l -> is_char n ->
  Z.land (h * 256 + l) (m * 256 + n) = Z.land h m * 256 + Z.land l n.
Proof.
  unfold is_char. intros Hl Hn.
  assert (T : forall x i, 0 <= x < 2 ^ 8 -> 8 <= i -> Z.testbit x i = false).
  { intros x i Hx Hi. rewrite Z.testbit_eqb by lia. rewrite Z.div_small; [done|].
    split; [lia|]. apply Z.lt_le_trans with (2 ^ 8); [lia|]. apply Z.pow_le_mono_r; lia. }
  assert (Hland : 0 <= Z.land l n < 2 ^ 8).
  { rewrite <- (Z.mod_small l (2 ^ 8)) by exact Hl. rewrite <- Z.land_ones by done.
    rewrite <- Z.land_assoc, (Z.land_comm (Z.ones 8)), Z.land_assoc, Z.land_ones by done.
    by apply Z.mod_pos_bound. }
  change 256 with (2 ^ 8).
  rewrite <- !lor_low by done || exact Hl || exact Hn || exact Hland.
  rewrite <- !Z.shiftl_mul_pow2 by done. apply Z.bits_inj'. intros i Hi.
  rewrite Z.land_spec, !Z.lor_spec, Z.land_spec.
  destruct (Z.ltb_spec i 8).
  - rewrite !Z.shiftl_spec_low by done. done.
  - rewrite !Z.shiftl_spec, Z.land_spec by lia.
    rewrite (T l), (T n) by done. by rewrite !orb_false_r.
Qed.

Lemma land_word4 a b c d a' b' c' d' :
  is_char b -> is_char c -> is_char d -> is_char b' -> is_char c' -> is_char d' ->
  Z.land (word4 a b c d) (word4 a' b' c' d') =
  word4 (Z.land a a') (Z.land b b') (Z.land c c') (Z.land d d').
Proof.
  intros. unfold word4.
  assert (E : forall x y z w, x * 2 ^ 24 + y * 2 ^ 16 + z * 2 ^ 8 + w
                = ((x * 256 + y) * 256 + z) * 256 + w) by (intros; lia).
  rewrite !E, !byte_split by done. done.
Qed.

(** ** Reference decoder on bytes *)

Definition cont (b : Z) : bool := (128 <=? b) && (b <? 192).

(** Length of the longest prefix of lead byte and continuation bytes. *)
Definition cont_prefix (n : Z) (b1 b2 b3 : Z) : Z :=
  if negb (cont b1) then 1
  else if (n =? 2) || negb (cont b2) then 2
  else if (n =? 3) || negb (cont b3) then 3 else 4.

Definition utf8_ref (b0 b1 b2 b3 : Z) : DCell :=
  if b0 <? 128 then mkD b0 1
  else if b0 <? 192 then mkD 0xFFFD 1
  else if b0 <? 224 then
    if cont b1 then mkD (b0 mod 32 * 64 + b1 mod 64) 2 else mkD 0xFFFD 1
  else if b0 <? 240 then
    if cont b1 && cont b2
    then mkD (b0 mod 16 * 4096 + b1 mod 64 * 64 + b2 mod 64) 3
    else mkD 0xFFFD (cont_prefix 3 b1 b2 b3)
  else
    if (b0 <? 248) && cont b1 && cont b2 && cont b3
    then let c := b0 mod 8 * 262144 + b1 mod 64 * 4096 + b2 mod 64 * 64 + b3 mod 64 in
         mkD (if 0x10FFFF <? c then 0xFFFD else c) 4
    else mkD 0xFFFD (cont_prefix 4 b1 b2 b3).

(** Byte [i] of the bytes that may be looked at. *)
Definition ubyte (m : memory) (a len i : Z) : Z := if i <? len then m (a + i) else 0.

(** *** Byte facts, checked on all 256 values *)

Definition byte_facts (b : Z) : bool :=
  eqb (Z.land b 128 =? 0) (b <? 128)
  && eqb (Z.land b 0xE0 =? 0xC0) ((192 <=? b) && (b <? 224))
  && eqb (Z.land b 0xF0 =? 0xE0) ((224 <=? b) && (b <? 240))
  && eqb (Z.land b 0xF8 =? 0xF0) ((240 <=? b) && (b <? 248))
  && eqb (Z.land b 0xC0 =? 0x80) (cont b)
  && (Z.land b 0x7F =? b mod 128) && (Z.land b 0x3F =? b mod 64)
  && (Z.land b 0x1F =? b mod 32) && (Z.land b 0x0F =? b mod 16) && (Z.land b 0x07 =? b mod 8)
  && (Z.land b 255 =? b).

Lemma byte_facts_all b : is_char b -> byte_facts b = true.
Proof. exact (forallb_range byte_facts 256 ltac:(vm_compute; reflexivity) b). Qed.

Ltac byte_fact b :=
  let H := fresh in
  pose proof (byte_facts_all b ltac:(assumption)) as H; unfold byte_facts in H;
  repeat match type of H with
         | (_ && _)%bool = true => let H' := fresh in apply andb_true_iff in H as [H H']
         end;
  repeat match goal with
         | H : eqb _ _ = true |- _ => apply eqb_prop in H
         | H : (Z.land _ _ =? _) = true |- _ => apply Z.eqb_eq in H
         end.

Lemma word4_eqb a b c d a' b' c' d' :
  is_char b -> is_char c -> is_char d -> is_char b' -> is_char c' -> is_char d' ->
  (word4 a b c d =? word4 a' b' c' d') = (a =? a') && (b =? b') && (c =? c') && (d =? d').
Proof. unfold word4, is_char. intros. zcases; cbn; lia. Qed.

Lemma land_char a b : is_char a -> is_char b -> is_char (Z.land a b).
Proof.
  intros Ha Hb. unfold is_char in *.
  rewrite <- (Z.mod_small a (2 ^ 8)) by exact Ha. rewrite <- Z.land_ones by done.
  rewrite <- Z.land_assoc, (Z.land_comm (Z.ones 8)), Z.land_assoc, Z.land_ones by done.
  by apply Z.mod_pos_bound.
Qed.

Ltac chars := repeat first [ assumption | apply land_char | (unfold is_char; lia) ].

(** *** Reading *)

Lemma le_val4 a b c d : le_val [a; b; c; d] = word4 d c b a.
Proof. unfold word4. cbn [le_val]. lia. Qed.

Lemma utf8_read_bytes m a len :
  0 <= len ->
  utf8_read m a len =
  word4 (ubyte m a len 3) (ubyte m a len 2) (ubyte m a len 1) (ubyte m a len 0).
Proof.
  intros Hl. unfold utf8_read, ubyte, word4.
  replace (a + 3) with (a + 1 + 1 + 1) by lia. replace (a + 2) with (a + 1 + 1) by lia.
  rewrite (Z.add_0_r a).
  destruct (Z.ltb_spec len 4) as [H|H].
  - assert (len = 0 \/ len = 1 \/ len = 2 \/ len = 3) as [->|[->|[->| ->]]] by lia;
      match goal with |- context [Z.to_nat ?k] => let v := eval compute in (Z.to_nat k) in
        change (Z.to_nat k) with v end; cbn [bytes_at le_val Z.ltb Z.compare Pos.compare Pos.compare_cont];
      lia.
  - cbn [bytes_at le_val]. zcases; lia.
Qed.

Lemma land_255 b : is_char b -> Z.land b 255 = b.
Proof. intros. by byte_fact b. Qed.

Lemma BSWAP32_word4 a b c d :
  is_char a -> is_char b -> is_char c -> is_char d ->
  BSWAP32 (word4 d c b a) = word4 a b c d.
Proof.
  intros Ha Hb Hc Hd. unfold BSWAP32.
  assert (E1 : U32 (Z.shiftl (word4 d c b a) 24) = word4 a 0 0 0)
    by (unfold word4, U32, is_char in *; rewrite Z.shiftl_mul_pow2 by done; wrap_lia).
  assert (E2 : U32 (Z.shiftl (word4 d c b a) 8) = word4 c b a 0)
    by (unfold word4, U32, is_char in *; rewrite Z.shiftl_mul_pow2 by done; wrap_lia).
  assert (E3 : Z.shiftr (word4 d c b a) 8 = word4 0 d c b)
    by (unfold word4, is_char in *; rewrite Z.shiftr_div_pow2 by done; wrap_lia).
  assert (E4 : Z.shiftr (word4 d c b a) 24 = word4 0 0 0 d)
    by (unfold word4, is_char in *; rewrite Z.shiftr_div_pow2 by done; wrap_lia).
  rewrite E1, E2, E3, E4.
  change 0xff000000 with (word4 255 0 0 0). change 0x00ff0000 with (word4 0 255 0 0).
  change 0x0000ff00 with (word4 0 0 255 0).
  change (Z.land (word4 0 0 0 d) 0x000000ff) with (Z.land (word4 0 0 0 d) (word4 0 0 0 255)).
  rewrite !land_word4 by chars. rewrite !Z.land_0_r.
  rewrite !land_255 by done.
  replace (word4 a 0 0 0) with (a * 2 ^ 24) by (unfold word4; lia).
  rewrite (lor_low a 24) by (unfold word4, is_char in *; lia).
  replace (a * 2 ^ 24 + word4 0 b 0 0) with ((a * 256 + b) * 2 ^ 16) by (unfold word4; lia).
  rewrite lor_low by (unfold word4, is_char in *; lia).
  replace ((a * 256 + b) * 2 ^ 16 + word4 0 0 c 0) with ((a * 65536 + b * 256 + c) * 2 ^ 8)
    by (unfold word4; lia).
  rewrite lor_low by (unfold word4, is_char in *; lia). unfold word4; lia.
Qed.

(** *** Packing and testing *)

Lemma utf8_pack_word4 a b c d :
  0 <= a < 64 -> 0 <= b < 64 -> 0 <= c < 64 -> is_char d -> d < 64 \/ a = 0 /\ b = 0 /\ c = 0 ->
  utf8_pack (word4 a b c d) = a * 262144 + b * 4096 + c * 64 + d.
Proof.
  intros Ha Hb Hc Hd Hs. unfold utf8_pack. rewrite Z.shiftr_0_r.
  change (Z.land (word4 a b c d) 0x000000FF)
    with (Z.land (word4 a b c d) (word4 0 0 0 255)).
  change 0xff000000 with (word4 255 0 0 0). change 0x00ff0000 with (word4 0 255 0 0).
  change 0x0000ff00 with (word4 0 0 255 0).
  rewrite !land_word4 by chars. rewrite !Z.land_0_r, !land_255 by chars.
  assert (E1 : Z.shiftr (word4 0 0 c 0) 2 = c * 2 ^ 6)
    by (unfold word4; rewrite Z.shiftr_div_pow2 by done; wrap_lia).
  assert (E2 : Z.shiftr (word4 0 b 0 0) 4 = b * 2 ^ 12)
    by (unfold word4; rewrite Z.shiftr_div_pow2 by done; wrap_lia).
  assert (E3 : Z.shiftr (word4 a 0 0 0) 6 = a * 2 ^ 18)
    by (unfold word4; rewrite Z.shiftr_div_pow2 by done; wrap_lia).
  rewrite E1, E2, E3. replace (word4 0 0 0 d) with d by (unfold word4; lia).
  destruct Hs as [Hs|(-> & -> & ->)].
  - unfold is_char in Hd. rewrite (Z.lor_comm d), lor_low by lia.
    rewrite (Z.lor_comm _ (b * 2 ^ 12)), lor_low by lia.
    rewrite (Z.lor_comm _ (a * 2 ^ 18)), lor_low by lia. lia.
  - cbn. rewrite !Z.lor_0_r. done.
Qed.

(** The value part of a valid sequence of [n] bytes, aligned to the right. *)
Lemma shiftr_word4 a b c d n :
  is_char a -> is_char b -> is_char c -> is_char d -> 1 <= n <= 4 ->
  (n <= 3 -> d = 0) -> (n <= 2 -> c = 0) -> (n <= 1 -> b = 0) ->
  Z.shiftr (word4 a b c d) (Z.shiftl (4 - n) 3) =
  if n =? 1 then word4 0 0 0 a else if n =? 2 then word4 0 0 a b
  else if n =? 3 then word4 0 a b c else word4 a b c d.
Proof.
  intros Ha Hb Hc Hd Hn H3 H2 H1. unfold word4, is_char in *.
  assert (n = 1 \/ n = 2 \/ n = 3 \/ n = 4) as [->|[->|[->| ->]]] by lia;
    rewrite Z.shiftl_mul_pow2, Z.shiftr_div_pow2 by lia;
    [change (2 ^ ((4 - 1) * 2 ^ 3)) with 16777216 | change (2 ^ ((4 - 2) * 2 ^ 3)) with 65536
    | change (2 ^ ((4 - 3) * 2 ^ 3)) with 256 | change (2 ^ ((4 - 4) * 2 ^ 3)) with 1];
    cbn [Z.eqb Pos.eqb]; Z.div_mod_to_equations; lia.
Qed.

Lemma cont_land b : is_char b -> (Z.land b 0xC0 =? 0x80) = cont b.
Proof. intros. by byte_fact b. Qed.

Lemma resync_test2 a b c d : is_char b -> is_char c -> is_char d ->
  (Z.land (word4 a b c d) 0xC00000 =? 0x800000) = cont b.
Proof.
  intros. change 0xC00000 with (word4 0 0xC0 0 0). change 0x800000 with (word4 0 0x80 0 0).
  rewrite land_word4, word4_eqb by chars. rewrite !Z.land_0_r, cont_land by done.
  cbn [Z.eqb andb]. by rewrite !andb_true_r.
Qed.

Lemma resync_test3 a b c d : is_char b -> is_char c -> is_char d ->
  (Z.land (word4 a b c d) 0xC000 =? 0x8000) = cont c.
Proof.
  intros. change 0xC000 with (word4 0 0 0xC0 0). change 0x8000 with (word4 0 0 0x80 0).
  rewrite land_word4, word4_eqb by chars. rewrite !Z.land_0_r, cont_land by done.
  cbn [Z.eqb andb]. by rewrite !andb_true_r.
Qed.

Lemma resync_test4 a b c d : is_char b -> is_char c -> is_char d ->
  (Z.land (word4 a b c d) 0xC0 =? 0x80) = cont d.
Proof.
  intros. change 0x80 with (word4 0 0 0 0x80).
  change (Z.land (word4 a b c d) 0xC0) with (Z.land (word4 a b c d) (word4 0 0 0 0xC0)).
  rewrite land_word4, word4_eqb by chars. rewrite !Z.land_0_r, cont_land by done. done.
Qed.

Lemma utf8_resync_word4 n a b c d : is_char b -> is_char c -> is_char d -> 2 <= n <= 4 ->
  utf8_resync n (word4 a b c d) =
  if (n =? 2) && cont b then 2 else if (n =? 3) && cont b && cont c then 3
  else cont_prefix n b c d.
Proof.
  intros Hb Hc Hd Hn. unfold utf8_resync, cont_prefix.
  rewrite resync_test2, resync_test3, resync_test4 by done.
  assert (n = 2 \/ n = 3 \/ n = 4) as [->|[->| ->]] by lia; cbn [Z.eqb Pos.eqb andb orb];
    destruct (cont b), (cont c), (cont d); reflexivity.
Qed.

(** The mask test of a lead byte class. *)
Lemma valid_test a b c d va vb vc vd wa wb wc wd :
  is_char b -> is_char c -> is_char d -> is_char vb -> is_char vc -> is_char vd ->
  is_char wb -> is_char wc -> is_char wd ->
  (Z.land (word4 a b c d) (word4 va vb vc vd) =? word4 wa wb wc wd) =
  (Z.land a va =? wa) && (Z.land b vb =? wb) && (Z.land c vc =? wc) && (Z.land d vd =? wd).
Proof. intros. by rewrite land_word4, word4_eqb by chars. Qed.

Lemma lens_lead b :
  is_char b ->
  nth (Z.to_nat (b / 16)) lens 0 =
  if b <? 192 then 1 else if b <? 224 then 2 else if b <? 240 then 3 else 4.
Proof.
  intros H. apply Z.eqb_eq.
  exact (forallb_range (fun b => nth (Z.to_nat (b / 16)) lens 0 =?
    if b <? 192 then 1 else if b <? 224 then 2 else if b <? 240 then 3 else 4) 256
    ltac:(vm_compute; reflexivity) b H).
Qed.

Lemma ubyte_char m a len i : wf_mem m -> is_char (ubyte m a len i).
Proof. intros H. unfold ubyte. destruct (_ <? _); [apply H | unfold is_char; lia]. Qed.

(** The decoder on four bytes, one lead-byte class at a time. *)
Definition utf8_word (codepoint : Z) : DCell :=
  let cplen := nth (Z.to_nat (Z.shiftr codepoint 28)) lens 0 in
  let mask := nth (Z.to_nat cplen) masks 0 in
  let vmask := nth (Z.to_nat cplen) vmasks 0 in
  let valid := nth (Z.to_nat cplen) valids 0 in
  if Z.land codepoint vmask =? valid then
    let codepoint := Z.shiftr (Z.land codepoint mask) (Z.shiftl (4 - cplen) 3) in
    let codepoint := utf8_pack codepoint in
    let codepoint := if 0x10FFFF <? codepoint then 0xFFFD else codepoint in
    mkD codepoint cplen
  else mkD 0xFFFD (utf8_resync cplen codepoint).

Section Classes.
Context (a b c d : Z) (Ha : is_char a) (Hb : is_char b) (Hc : is_char c) (Hd : is_char d).

Lemma utf8_word_cplen :
  nth (Z.to_nat (Z.shiftr (word4 a b c d) 28)) lens 0 =
  if a <? 192 then 1 else if a <? 224 then 2 else if a <? 240 then 3 else 4.
Proof using Ha Hb Hc Hd.
  rewrite <- lens_lead by done. do 2 f_equal. unfold word4, is_char in *.
  rewrite Z.shiftr_div_pow2 by done. wrap_lia.
Qed.

Lemma utf8_word_1 : a < 192 -> utf8_word (word4 a b c d) = utf8_ref a b c d.
Proof using Ha Hb Hc Hd.
  intros Hlt. unfold utf8_word, utf8_ref. rewrite utf8_word_cplen.
  destruct (Z.ltb_spec a 192); [|lia].
  change (nth (Z.to_nat 1) vmasks 0) with (word4 128 0 0 0).
  change (nth (Z.to_nat 1) valids 0) with (word4 0 0 0 0).
  change (nth (Z.to_nat 1) masks 0) with (word4 127 0 0 0).
  rewrite valid_test by chars. rewrite !Z.land_0_r. cbn [Z.eqb andb]. rewrite !andb_true_r.
  assert (E : (Z.land a 128 =? 0) = (a <? 128)) by (by byte_fact a). rewrite E.
  assert (E7 : Z.land a 127 = a mod 128) by (by byte_fact a).
  unfold is_char in Ha. destruct (Z.ltb_spec a 128); [|done].
  rewrite land_word4 by chars. rewrite !Z.land_0_r, E7, Z.mod_small by lia.
  rewrite (shiftr_word4 a 0 0 0 1) by (chars || done). cbn [Z.eqb Pos.eqb].
  rewrite utf8_pack_word4 by (chars || auto || lia).
  rewrite !Z.mul_0_l, !Z.add_0_l. destruct (Z.ltb_spec 0x10FFFF a); [lia|done].
Qed.

Lemma utf8_word_2 : 192 <= a < 224 -> utf8_word (word4 a b c d) = utf8_ref a b c d.
Proof using Ha Hb Hc Hd.
  intros Hlt. unfold utf8_word, utf8_ref. rewrite utf8_word_cplen.
  destruct (Z.ltb_spec a 192); [lia|]. destruct (Z.ltb_spec a 224); [|lia].
  destruct (Z.ltb_spec a 128); [lia|].
  change (nth (Z.to_nat 2) vmasks 0) with (word4 0xE0 0xC0 0 0).
  change (nth (Z.to_nat 2) valids 0) with (word4 0xC0 0x80 0 0).
  change (nth (Z.to_nat 2) masks 0) with (word4 0x1F 0x3F 0 0).
  rewrite valid_test, cont_land by chars. rewrite !Z.land_0_r. cbn [Z.eqb andb]. rewrite !andb_true_r.
  assert (E : (Z.land a 0xE0 =? 0xC0) = ((192 <=? a) && (a <? 224))) by (by byte_fact a). rewrite E.
  replace ((192 <=? a) && (a <? 224)) with true by lia. cbn [andb].
  assert (E1 : Z.land a 0x1F = a mod 32) by (by byte_fact a).
  assert (E2 : Z.land b 0x3F = b mod 64) by (by byte_fact b).
  destruct (cont b) eqn:Cb.
  - rewrite land_word4 by chars. rewrite !Z.land_0_r, E1, E2.
    pose proof (Z.mod_pos_bound a 32). pose proof (Z.mod_pos_bound b 64).
    rewrite (shiftr_word4 _ _ 0 0 2) by (chars || done). cbn [Z.eqb Pos.eqb].
    rewrite utf8_pack_word4 by (chars || lia). rewrite !Z.mul_0_l, !Z.add_0_l.
    destruct (Z.ltb_spec 0x10FFFF (a mod 32 * 64 + b mod 64)); [lia|done].
  - rewrite utf8_resync_word4 by (chars || lia). unfold cont_prefix. rewrite Cb. done.
Qed.

Lemma utf8_word_3 : 224 <= a < 240 -> utf8_word (word4 a b c d) = utf8_ref a b c d.
Proof using Ha Hb Hc Hd.
  intros Hlt. unfold utf8_word, utf8_ref. rewrite utf8_word_cplen.
  destruct (Z.ltb_spec a 192); [lia|]. destruct (Z.ltb_spec a 224); [lia|].
  destruct (Z.ltb_spec a 128); [lia|]. destruct (Z.ltb_spec a 240); [|lia].
  change (nth (Z.to_nat 3) vmasks 0) with (word4 0xF0 0xC0 0xC0 0).
  change (nth (Z.to_nat 3) valids 0) with (word4 0xE0 0x80 0x80 0).
  change (nth (Z.to_nat 3) masks 0) with (word4 0x0F 0x3F 0x3F 0).
  rewrite valid_test, !cont_land by chars. rewrite !Z.land_0_r. cbn [Z.eqb]. rewrite !andb_true_r.
  assert (E : (Z.land a 0xF0 =? 0xE0) = ((224 <=? a) && (a <? 240))) by (by byte_fact a). rewrite E.
  replace ((224 <=? a) && (a <? 240)) with true by lia. cbn [andb].
  assert (E1 : Z.land a 0x0F = a mod 16) by (by byte_fact a).
  assert (E2 : Z.land b 0x3F = b mod 64) by (by byte_fact b).
  assert (E3 : Z.land c 0x3F = c mod 64) by (by byte_fact c).
  destruct (cont b && cont c) eqn:Cb.
  - rewrite land_word4 by chars. rewrite !Z.land_0_r, E1, E2, E3.
    pose proof (Z.mod_pos_bound a 16). pose proof (Z.mod_pos_bound b 64). pose proof (Z.mod_pos_bound c 64).
    rewrite (shiftr_word4 _ _ _ 0 3) by (chars || done). cbn [Z.eqb Pos.eqb].
    rewrite utf8_pack_word4 by (chars || lia). rewrite !Z.mul_0_l, !Z.add_0_l.
    match goal with |- context [0x10FFFF <? ?x] => destruct (Z.ltb_spec 0x10FFFF x) end; [lia|done].
  - rewrite utf8_resync_word4 by (chars || lia). by rewrite <- andb_assoc, Cb.
Qed.

Lemma utf8_word_4 : 240 <= a -> utf8_word (word4 a b c d) = utf8_ref a b c d.
Proof using Ha Hb Hc Hd.
  intros Hlt. unfold utf8_word, utf8_ref. rewrite utf8_word_cplen.
  destruct (Z.ltb_spec a 192); [lia|]. destruct (Z.ltb_spec a 224); [lia|].
  destruct (Z.ltb_spec a 128); [lia|]. destruct (Z.ltb_spec a 240); [lia|].
  change (nth (Z.to_nat 4) vmasks 0) with (word4 0xF8 0xC0 0xC0 0xC0).
  change (nth (Z.to_nat 4) valids 0) with (word4 0xF0 0x80 0x80 0x80).
  change (nth (Z.to_nat 4) masks 0) with (word4 0x07 0x3F 0x3F 0x3F).
  rewrite valid_test, !cont_land by chars.
  assert (E : (Z.land a 0xF8 =? 0xF0) = ((240 <=? a) && (a <? 248))) by (by byte_fact a). rewrite E.
  replace (240 <=? a) with true by lia. cbn [andb].
  assert (E1 : Z.land a 0x07 = a mod 8) by (by byte_fact a).
  assert (E2 : Z.land b 0x3F = b mod 64) by (by byte_fact b).
  assert (E3 : Z.land c 0x3F = c mod 64) by (by byte_fact c).
  assert (E4 : Z.land d 0x3F = d mod 64) by (by byte_fact d).
  destruct ((a <? 248) && cont b && cont c && cont d) eqn:Cb.
  - rewrite land_word4 by chars. rewrite E1, E2, E3, E4.
    pose proof (Z.mod_pos_bound a 8). pose proof (Z.mod_pos_bound b 64).
    pose proof (Z.mod_pos_bound c 64). pose proof (Z.mod_pos_bound d 64).
    rewrite (shiftr_word4 _ _ _ _ 4) by (chars || done). cbn [Z.eqb Pos.eqb].
    rewrite utf8_pack_word4 by (chars || lia). done.
  - rewrite utf8_resync_word4 by (chars || lia). done.
Qed.
End Classes.

Lemma utf8_fetch_ref m a len :
  wf_mem m -> 0 <= len ->
  utf8_fetch_plus m a len =
  utf8_ref (ubyte m a len 0) (ubyte m a len 1) (ubyte m a len 2) (ubyte m a len 3).
Proof.
  intros Hm Hl. unfold utf8_fetch_plus. rewrite utf8_read_bytes by done.
  rewrite BSWAP32_word4 by (by apply ubyte_char).
  pose proof (ubyte_char m a len 0 Hm). pose proof (ubyte_char m a len 1 Hm).
  pose proof (ubyte_char m a len 2 Hm). pose proof (ubyte_char m a len 3 Hm).
  change (utf8_word (word4 (ubyte m a len 0) (ubyte m a len 1) (ubyte m a len 2) (ubyte m a len 3)) =
    utf8_ref (ubyte m a len 0) (ubyte m a len 1) (ubyte m a len 2) (ubyte m a len 3)).
  destruct (Z.ltb_spec (ubyte m a len 0) 192); [by apply utf8_word_1|].
  destruct (Z.ltb_spec (ubyte m a len 0) 224); [by apply utf8_word_2|].
  destruct (Z.ltb_spec (ubyte m a len 0) 240); [by apply utf8_word_3 | by apply utf8_word_4].
Qed.

(** *** The encoder in closed form *)

Lemma cont_byte u : 0 <= u -> Z.lor (Z.land u 63) 128 = 128 + u mod 64.
Proof.
  intros. change 63 with (Z.ones 6). rewrite Z.land_ones, Z.lor_comm by done.
  pose proof (Z.mod_pos_bound u (2 ^ 6) ltac:(done)).
  apply (lor_low 1 7). lia. change (2 ^ 6) with 64 in *. lia.
Qed.

Lemma lead_byte u hi k : 0 <= k -> 0 <= u < 2 ^ k -> Z.lor u (hi * 2 ^ k) = hi * 2 ^ k + u.
Proof. intros. rewrite Z.lor_comm. by apply lor_low. Qed.

Lemma u8_bytes_stop fuel u mask acc :
  u <= mask -> u8_bytes (S fuel) u mask acc = Z.lor u (2 * Z.lxor mask 127) :: acc.
Proof. intros. cbn [u8_bytes]. destruct (Z.ltb_spec mask u); [lia|done]. Qed.

Lemma u8_bytes_step fuel u mask acc :
  0 <= u -> mask < u ->
  u8_bytes (S fuel) u mask acc = u8_bytes fuel (u / 64) (mask / 2) (128 + u mod 64 :: acc).
Proof.
  intros. cbn [u8_bytes]. destruct (Z.ltb_spec mask u); [|lia].
  by rewrite cont_byte, Z.shiftr_div_pow2 by done.
Qed.

Lemma u8_store_spec c :
  0 <= c <= 0x10FFFF ->
  u8_store c =
  if c <? 0x80 then [c]
  else if c <? 0x800 then [192 + c / 64; 128 + c mod 64]
  else if c <? 0x10000 then [224 + c / 4096; 128 + c / 64 mod 64; 128 + c mod 64]
  else [240 + c / 262144; 128 + c / 4096 mod 64; 128 + c / 64 mod 64; 128 + c mod 64].
Proof.
  intros Hc. unfold u8_store. destruct (Z.ltb_spec c 0x80); [done|].
  assert (D1 : c / 64 / 64 = c / 4096) by (rewrite Z.div_div by done; done).
  assert (D2 : c / 4096 / 64 = c / 262144) by (rewrite Z.div_div by done; done).
  pose proof (Z.mod_pos_bound c 64). pose proof (Z.mod_pos_bound (c / 64) 64).
  pose proof (Z.mod_pos_bound (c / 4096) 64).
  assert (H64 : 0 <= c / 64) by (apply Z.div_pos; lia).
  assert (H4096 : 0 <= c / 4096) by (apply Z.div_pos; lia).
  rewrite u8_bytes_step by lia. change (63 / 2) with 31.
  destruct (Z.ltb_spec c 0x800).
  { assert (c / 64 < 2 ^ 5) by (apply Z.div_lt_upper_bound; lia).
    rewrite u8_bytes_stop by lia. change (2 * Z.lxor 31 127) with (6 * 2 ^ 5).
    rewrite lead_byte by lia. cbn [u8_stored]. zcases; try lia. done. }
  assert (2 ^ 5 <= c / 64) by (apply Z.div_le_lower_bound; lia).
  rewrite u8_bytes_step, D1 by lia. change (31 / 2) with 15.
  destruct (Z.ltb_spec c 0x10000).
  { assert (c / 4096 < 2 ^ 4) by (apply Z.div_lt_upper_bound; lia).
    rewrite u8_bytes_stop by lia. change (2 * Z.lxor 15 127) with (14 * 2 ^ 4).
    rewrite lead_byte by lia. cbn [u8_stored]. zcases; try lia. done. }
  assert (2 ^ 4 <= c / 4096) by (apply Z.div_le_lower_bound; lia).
  assert (0 <= c / 262144 < 2 ^ 3)
    by (split; [apply Z.div_pos; lia | apply Z.div_lt_upper_bound; lia]).
  rewrite u8_bytes_step, D2 by lia. change (15 / 2) with 7.
  rewrite u8_bytes_stop by lia. change (2 * Z.lxor 7 127) with (30 * 2 ^ 3).
  rewrite lead_byte by lia. cbn [u8_stored]. zcases; try lia. done.
Qed.

(** The bytes of a stored sequence are the bytes the decoder sees. *)
Lemma ubyte_stored m a l len i :
  bytes_at m a (length l) = l -> Z.of_nat (length l) <= len -> (i < length l)%nat ->
  ubyte m a len (Z.of_nat i) = nth i l 0.
Proof.
  intros Hl Hlen Hi. unfold ubyte. destruct (Z.ltb_spec (Z.of_nat i) len); [|lia].
  symmetry. apply nth_lookup_Some. rewrite <- Hl at 1. by apply bytes_at_lookup.
Qed.

(** The reference decoder on well-formed sequences. *)
Lemma mod_lead k h p : 0 < p -> 0 <= h < p -> (k * p + h) mod p = h.
Proof. intros. rewrite Z.add_comm, Z.mod_add by lia. by apply Z.mod_small. Qed.

Lemma cont_ok l : 0 <= l < 64 -> cont (128 + l) = true /\ (128 + l) mod 64 = l.
Proof. intros. split; [unfold cont; lia | by apply (mod_lead 2 l 64)]. Qed.

Lemma utf8_ref_2 h l b2 b3 : 0 <= h < 32 -> 0 <= l < 64 ->
  utf8_ref (192 + h) (128 + l) b2 b3 = mkD (h * 64 + l) 2.
Proof.
  intros Hh Hl. unfold utf8_ref. destruct (cont_ok l Hl) as [-> ->].
  assert (E : (192 + h) mod 32 = h) by (apply (mod_lead 6 h 32); lia). rewrite E. zcases; try lia. done.
Qed.

Lemma utf8_ref_3 h k l b3 : 0 <= h < 16 -> 0 <= k < 64 -> 0 <= l < 64 ->
  utf8_ref (224 + h) (128 + k) (128 + l) b3 = mkD (h * 4096 + k * 64 + l) 3.
Proof.
  intros Hh Hk Hl. unfold utf8_ref. destruct (cont_ok l Hl) as [-> ->].
  destruct (cont_ok k Hk) as [-> ->].
  assert (E : (224 + h) mod 16 = h) by (apply (mod_lead 14 h 16); lia). rewrite E. zcases; try lia. done.
Qed.

Lemma utf8_ref_4 h j k l : 0 <= h < 8 -> 0 <= j < 64 -> 0 <= k < 64 -> 0 <= l < 64 ->
  h * 262144 + j * 4096 + k * 64 + l <= 0x10FFFF ->
  utf8_ref (240 + h) (128 + j) (128 + k) (128 + l) = mkD (h * 262144 + j * 4096 + k * 64 + l) 4.
Proof.
  intros Hh Hj Hk Hl Hc. unfold utf8_ref. destruct (cont_ok l Hl) as [-> ->].
  destruct (cont_ok k Hk) as [-> ->]. destruct (cont_ok j Hj) as [-> ->].
  assert (E : (240 + h) mod 8 = h) by (apply (mod_lead 30 h 8); lia). rewrite E. zcases; cbn [andb]; try lia. done.
Qed.

(** Every result of the reference decoder. *)
Lemma utf8_ref_bounds b0 b1 b2 b3 :
  is_char b0 ->
  let r := utf8_ref b0 b1 b2 b3 in
  1 <= d_lo r <= 4 /\ 0 <= d_hi r <= 0x10FFFF /\
  (1 < d_lo r -> cont b1 = true) /\ (2 < d_lo r -> cont b2 = true) /\
  (3 < d_lo r -> cont b3 = true).
Proof.
  intros H0. unfold is_char in H0. unfold utf8_ref, cont_prefix. cbv zeta.
  pose proof (Z.mod_pos_bound b0 32). pose proof (Z.mod_pos_bound b0 16).
  pose proof (Z.mod_pos_bound b0 8). pose proof (Z.mod_pos_bound b1 64).
  pose proof (Z.mod_pos_bound b2 64). pose proof (Z.mod_pos_bound b3 64).
  destruct (Z.ltb_spec b0 128); cbn [d_lo d_hi]; [repeat split; try lia|].
  destruct (Z.ltb_spec b0 192); cbn [d_lo d_hi]; [repeat split; try lia|].
  destruct (Z.ltb_spec b0 224), (Z.ltb_spec b0 240), (b0 <? 248), (cont b1), (cont b2), (cont b3);
    cbn [andb negb orb Z.eqb Pos.eqb d_lo d_hi];
    try (match goal with |- context [0x10FFFF <? ?x] => destruct (Z.ltb_spec 0x10FFFF x) end);
    repeat split; try lia; try done.
Qed.

(** ** Properties *)

(** C35: decoding inverts encoding: for every code point up to 10FFFF, when the
    bytes the encoder stores for it stand at [a] and are within the string,
    [utf8_fetch_plus] returns that code point and exactly their number,
    whatever follows them. *)
Theorem utf8_decode_encode (m : memory) (a len c : Z) :
  wf_mem m -> 0 <= c <= 0x10FFFF ->
  bytes_at m a (length (u8_store c)) = u8_store c -> Z.of_nat (length (u8_store c)) <= len ->
  utf8_fetch_plus m a len = mkD c (Z.of_nat (length (u8_store c))).
Proof.
  intros Hm Hc Hb Hlen. rewrite utf8_fetch_ref by (done || lia).
  pose proof (fun i H => ubyte_stored m a _ len i Hb Hlen H) as U. clear Hb.
  rewrite u8_store_spec in * by done.
  pose proof (div_mod_eq c 64 ltac:(done)) as E1. pose proof (Z.mod_pos_bound c 64 ltac:(done)).
  pose proof (div_mod_eq (c / 64) 64 ltac:(done)) as E2.
  pose proof (Z.mod_pos_bound (c / 64) 64 ltac:(done)).
  rewrite Z.div_div in E2 by done. change (64 * 64) with 4096 in E2.
  pose proof (div_mod_eq (c / 4096) 64 ltac:(done)) as E3.
  pose proof (Z.mod_pos_bound (c / 4096) 64 ltac:(done)).
  rewrite Z.div_div in E3 by done. change (4096 * 64) with 262144 in E3.
  set (c1 := c / 64) in *. set (c2 := c / 4096) in *. set (c3 := c / 262144) in *.
  destruct (Z.ltb_spec c 0x80); [|destruct (Z.ltb_spec c 0x800); [|destruct (Z.ltb_spec c 0x10000)]];
    cbn [length] in *;
    pose proof (U 0%nat ltac:(lia)) as U0; change (Z.of_nat 0) with 0 in U0;
    try (pose proof (U 1%nat ltac:(lia)) as U1; change (Z.of_nat 1) with 1 in U1);
    try (pose proof (U 2%nat ltac:(lia)) as U2; change (Z.of_nat 2) with 2 in U2);
    try (pose proof (U 3%nat ltac:(lia)) as U3; change (Z.of_nat 3) with 3 in U3);
    cbn [nth] in *; clear U.
  - rewrite U0. unfold utf8_ref. destruct (Z.ltb_spec c 128); [done|lia].
  - rewrite U0, U1, utf8_ref_2 by lia. f_equal. lia.
  - rewrite U0, U1, U2, utf8_ref_3 by lia. f_equal. lia.
  - rewrite U0, U1, U2, U3, utf8_ref_4 by lia. f_equal. lia.
Qed.

(** The euro sign, followed by garbage. *)
Lemma utf8_decode_encode_witness :
  u8_store 0x20AC = [226; 130; 172] /\
  utf8_fetch_plus (fun a => nth (Z.to_nat a) [226; 130; 172] 255) 0 7 = mkD 0x20AC 3.
Proof.
  split; [reflexivity|]. apply (utf8_decode_encode _ 0 7 0x20AC); [|lia|reflexivity|vm_compute; congruence].
  intros a. unfold is_char. generalize (Z.to_nat a). intros n.
  do 4 (destruct n as [|n]; [cbn; lia|]). cbn. lia.
Defined.

(** Decoding arbitrary bytes is total and stays inside the string: at
    least one byte and at most four are consumed, never more than the string
    has (an empty string counts as one NUL), the code point is in range, and
    every byte skipped after the first is a continuation byte, so that a lead
    byte or an ASCII character is never lost. *)
Theorem utf8_decode_total (m : memory) (a len : Z) :
  wf_mem m -> 0 <= len ->
  let r := utf8_fetch_plus m a len in
  1 <= d_lo r <= 4 /\ d_lo r <= Z.max 1 len /\ 0 <= d_hi r <= 0x10FFFF /\
  (forall i, 1 <= i < d_lo r -> 128 <= m (a + i) < 192).
Proof.
  intros Hm Hl. cbv zeta. rewrite utf8_fetch_ref by done.
  destruct (utf8_ref_bounds (ubyte m a len 0) (ubyte m a len 1) (ubyte m a len 2) (ubyte m a len 3)
              (ubyte_char m a len 0 Hm)) as (H1 & H2 & C1 & C2 & C3).
  set (r := utf8_ref _ _ _ _) in *. clearbody r.
  assert (C : forall i, 1 <= i < d_lo r -> cont (ubyte m a len i) = true).
  { intros i Hi. assert (i = 1 \/ i = 2 \/ i = 3) as [->|[->| ->]] by lia; auto with lia. }
  assert (In : forall i, 1 <= i < d_lo r -> i < len /\ 128 <= m (a + i) < 192).
  { intros i Hi. specialize (C i Hi). revert C. unfold ubyte, cont.
    destruct (Z.ltb_spec i len); [lia|done]. }
  split; [done|]. split; [|split; [done|intros i Hi; by apply In]].
  destruct (Z.leb_spec (d_lo r) 1); [lia|]. destruct (In (d_lo r - 1)); lia.
Qed.

(** A four-byte lead with one continuation byte before the end. *)
Lemma utf8_decode_total_witness :
  let m := fun a => if a =? 0 then 240 else 144 in
  utf8_fetch_plus m 0 2 = mkD 0xFFFD 2 /\ 2 <= Z.max 1 2.
Proof.
  intros m. assert (W : wf_mem m) by (intros a; unfold m, is_char; destruct (_ =? _); lia).
  destruct (utf8_decode_total m 0 2 W ltac:(lia)) as (_ & H & _).
  split; [reflexivity | exact H].
Defined.
