(* ===== verification/LineIO.v ===== *)
(** * Reading lines and keys ([read_line] of engine/support.c, the ungotten
    table, [getkey] and [key_avail] of engine/io.c)

    A C stream is the list of what its reads will deliver, bytes or errors,
    plus the characters pushed back with [ungetc].  [read_line] stores into
    memory; the table of streams with pushed-back characters is the growing
    array of io.c. *)
From S2P Require Import Prelude Memory.

(** ** Streams of the C library *)

(** What a read finds: a byte, or a failure with its [errno]. *)
Inductive event :=
| Byte (c : Z)
| IoError (e : Z).

Record FILE := mkFILE {
  f_pushed : list Z;       (** characters pushed back, the next one first *)
  f_input : list event;    (** what is left to read; end of file when empty *)
  f_error : bool;          (** the stream's error indicator *)
  f_errno : Z;             (** the last [errno] *)
}.

Definition EOF : Z := -1.
Definition EINTR : Z := 4.

Definition getc (f : FILE) : Z * FILE :=
  match f_pushed f with
  | c :: p => (c, mkFILE p (f_input f) (f_error f) (f_errno f))
  | [] =>
      match f_input f with
      | Byte c :: l => (c, mkFILE [] l (f_error f) (f_errno f))
      | IoError e :: l => (EOF, mkFILE [] l true e)
      | [] => (EOF, f)
      end
  end.

(** The C library's [ferror]: 1 when the indicator is set. *)
Definition ferror (f : FILE) : Z := c_bool (f_error f).
Definition clearerr (f : FILE) : FILE := mkFILE (f_pushed f) (f_input f) false (f_errno f).
Definition ungetc (c : Z) (f : FILE) : FILE :=
  mkFILE (c :: f_pushed f) (f_input f) (f_error f) (f_errno f).

Definition TOIOR (err : Z) : Z := -512 - err.
Definition FILEIO (f : FILE) (error : Z) : Z := if error =? 0 then 0 else TOIOR (f_errno f).

(** [do { c = getc(wfileid); } while (c == EOF && ferror(wfileid)==EINTR);]
    Every repetition consumes input or has the same outcome. *)
Fixpoint getc_retry (fuel : nat) (f : FILE) : Z * FILE :=
  let '(c, f) := getc f in
  match fuel with
  | O => (c, f)
  | S fuel => if (c =? EOF) && (ferror f =? EINTR) then getc_retry fuel f else (c, f)
  end.
Definition retry_fuel (f : FILE) : nat := S (length (f_pushed f) + length (f_input f)).

(** ** The table of streams with a pushed-back character *)

(** [ungotten_files] has [max_ungotten] entries, of which [n_ungotten] are in
    use; entries are stream addresses. *)
Record ungotten := mkUngotten {
  ungotten_files : list Z;
  n_ungotten : nat;
  max_ungotten : nat;
}.

Definition no_ungotten : ungotten := mkUngotten [] 0 0.

(** [realloc] keeps the entries; the new ones are indeterminate ([junk]). *)
Definition add_ungotten (junk : Z) (u : ungotten) (stream : Z) : ungotten :=
  let '(files, max) :=
    if (max_ungotten u <=? n_ungotten u)%nat then
      let max := (max_ungotten u * 2 + 1)%nat in
      (ungotten_files u ++ replicate (max - length (ungotten_files u)) junk, max)
    else (ungotten_files u, max_ungotten u) in
  mkUngotten (<[n_ungotten u := stream]> files) (S (n_ungotten u)) max.

Definition gf_ungetc (junk : Z) (c : Z) (stream : Z) (f : FILE) (u : ungotten)
    : FILE * ungotten :=
  (ungetc c f, add_ungotten junk u stream).

(** [for (i=0; i<n_ungotten; i++) if (ungotten_files[i] == stream) return i;] *)
Fixpoint search_loop (files : list Z) (stream : Z) (i n : nat) : option nat :=
  match n with
  | O => None
  | S n =>
      match files !! i with
      | Some f => if f =? stream then Some i else search_loop files stream (S i) n
      | None => None
      end
  end.
(** [-1] is [None]. *)
Definition search_ungotten (u : ungotten) (stream : Z) : option nat :=
  search_loop (ungotten_files u) stream 0 (n_ungotten u).

(** [ungotten_files[i] = ungotten_files[--n_ungotten];] *)
Definition gf_regetc (u : ungotten) (stream : Z) : ungotten :=
  match search_ungotten u stream with
  | Some i =>
      let n := (n_ungotten u - 1)%nat in
      match ungotten_files u !! n with
      | Some last => mkUngotten (<[i := last]> (ungotten_files u)) n (max_ungotten u)
      | None => u
      end
  | None => u
  end.

Definition gf_ungottenc (u : ungotten) (stream : Z) : bool :=
  match search_ungotten u stream with Some _ => true | None => false end.

(** ** Reading a line *)

Record Cellquad := mkQuad { q_n1 : Z; q_n2 : Z; q_n3 : Z; q_n4 : Z }.

Record io_state := mkIO {
  io_mem : memory;
  io_file : FILE;
  io_ungotten : ungotten;
}.

Section READING.
Context (junk : Z) (stream : Z).

Definition getc_line (f : FILE) : Z * FILE := getc_retry (retry_fuel f) f.

(** The [for] loop: [room] is [u1-u2]. *)
Fixpoint read_line_loop (room : nat) (c_addr u2 u3 : Z) (s : io_state) : Cellquad * io_state :=
  match room with
  | O => (mkQuad u2 (-1) u3 0, s)
  | S room =>
      let '(c, f) := getc_line (io_file s) in
      if c =? EOF then
        let err := ferror f in
        let f := clearerr f in
        (mkQuad u2 (FLAG (negb (u2 =? 0))) u3 (FILEIO f err), mkIO (io_mem s) f (io_ungotten s))
      else
        let u3 := U64 (u3 + 1) in
        if c =? 10 then (mkQuad u2 (-1) u3 0, mkIO (io_mem s) f (io_ungotten s))
        else if c =? 13 then
          let '(c, f) := getc_line f in
          if c =? EOF then
            let err := ferror f in
            let f := clearerr f in
            (mkQuad u2 (-1) u3 (FILEIO f err), mkIO (io_mem s) f (io_ungotten s))
          else if negb (c =? 10) then
            let '(f, u) := gf_ungetc junk c stream f (io_ungotten s) in
            (mkQuad u2 (-1) u3 0, mkIO (io_mem s) f u)
          else (mkQuad u2 (-1) (U64 (u3 + 1)) 0, mkIO (io_mem s) f (io_ungotten s))
        else
          read_line_loop room c_addr (u2 + 1) u3
            (mkIO (store (io_mem s) (c_addr + u2) c) f (io_ungotten s))
  end.

Definition read_line (c_addr u1 : Z) (s : io_state) : Cellquad * io_state :=
  let s := if 0 <? u1
           then mkIO (io_mem s) (io_file s) (gf_regetc (io_ungotten s) stream) else s in
  read_line_loop (Z.to_nat u1) c_addr 0 0 s.

(** [getkey]: [fread] of one byte; the terminal mode is not modelled. *)
Definition getkey (s : io_state) : Z * io_state :=
  let f := io_file s in
  let '(c, f) := getc (mkFILE (f_pushed f) (f_input f) (f_error f) 0) in
  if c =? EOF then (TOIOR (f_errno f), mkIO (io_mem s) f (io_ungotten s))
  else (c, mkIO (io_mem s) f (gf_regetc (io_ungotten s) stream)).

(** [key_avail]: [chars_avail] is what [ioctl] or [poll] answered. *)
Definition key_avail (chars_avail : Z) (s : io_state) : Z * io_state :=
  if gf_ungottenc (io_ungotten s) stream then (1, s)
  else
    let answer := if chars_avail =? -1 then 0 else chars_avail in
    if 0 <? chars_avail then
      let '(c, f) := getc (io_file s) in
      if c =? EOF then (1, mkIO (io_mem s) f (io_ungotten s))
      else
        let '(f, u) := gf_ungetc junk c stream f (io_ungotten s) in
        (answer, mkIO (io_mem s) f u)
    else (answer, s).
End READING.

(** ** The table as a bag of streams *)

(** The entries in use. *)
Definition listed (u : ungotten) : list Z := take (n_ungotten u) (ungotten_files u).

Definition wf_ungotten (u : ungotten) : Prop :=
  length (ungotten_files u) = max_ungotten u /\ (n_ungotten u <= max_ungotten u)%nat.

Definition count (x : Z) (l : list Z) : nat := length (filter (eq x) l).

Lemma add_ungotten_listed junk u stream :
  wf_ungotten u ->
  wf_ungotten (add_ungotten junk u stream) /\
  listed (add_ungotten junk u stream) = listed u ++ [stream].
Proof.
  intros [Hl Hn]. unfold add_ungotten, wf_ungotten, listed.
  destruct (Nat.leb_spec (max_ungotten u) (n_ungotten u)) as [Hf|Hf];
    cbn [ungotten_files n_ungotten max_ungotten].
  - rewrite length_insert, length_app, length_replicate. split; [lia|].
    rewrite (take_S_r _ _ stream)
      by (apply list_lookup_insert_eq; rewrite length_app, length_replicate; lia).
    rewrite take_insert_ge by lia. f_equal. rewrite take_app_le by lia. done.
  - rewrite length_insert. split; [lia|].
    rewrite (take_S_r _ _ stream) by (apply list_lookup_insert_eq; lia).
    by rewrite take_insert_ge by lia.
Qed.

Lemma search_loop_spec files stream n i :
  (i + n <= length files)%nat ->
  match search_loop files stream i n with
  | Some j => (i <= j < i + n)%nat /\ files !! j = Some stream
  | None => stream ∉ take n (drop i files)
  end.
Proof.
  revert i. induction n as [|n IH]; intros i Hi; cbn [search_loop].
  { rewrite take_0. apply not_elem_of_nil. }
  destruct (lookup_lt_is_Some_2 files i) as [f Hf]; [lia|]. rewrite Hf.
  rewrite (drop_S _ f i Hf), firstn_cons. destruct (Z.eqb_spec f stream) as [->|Hne].
  { split; [lia|done]. }
  specialize (IH (S i)). destruct (search_loop _ _ _ _) as [j|].
  - destruct IH as [? ?]; [lia|]. split; [lia|done].
  - rewrite not_elem_of_cons. split; [done|]. apply IH. lia.
Qed.

Lemma search_ungotten_spec u stream :
  wf_ungotten u ->
  match search_ungotten u stream with
  | Some i => (i < n_ungotten u)%nat /\ ungotten_files u !! i = Some stream
  | None => stream ∉ listed u
  end.
Proof.
  intros [Hl Hn]. pose proof (search_loop_spec (ungotten_files u) stream (n_ungotten u) 0) as H.
  unfold search_ungotten. destruct (search_loop _ _ _ _); [|apply H; lia].
  destruct H as [? ?]; [lia|]. split; [lia|done].
Qed.

Lemma gf_ungottenc_listed u stream :
  wf_ungotten u -> gf_ungottenc u stream = true <-> stream ∈ listed u.
Proof.
  intros Hw. pose proof (search_ungotten_spec u stream Hw) as H. unfold gf_ungottenc.
  destruct (search_ungotten u stream) as [i|]; split; intros; try done.
  destruct H as [Hi Hf]. apply list_elem_of_lookup_2 with i. unfold listed.
  by rewrite lookup_take_lt by lia.
Qed.

Lemma gf_regetc_listed u stream :
  wf_ungotten u ->
  wf_ungotten (gf_regetc u stream) /\
  (stream ∈ listed u -> listed u ≡ₚ stream :: listed (gf_regetc u stream)) /\
  (stream ∉ listed u -> gf_regetc u stream = u).
Proof.
  intros Hw. pose proof (search_ungotten_spec u stream Hw) as H.
  pose proof (proj1 (gf_ungottenc_listed u stream Hw)) as HI. unfold gf_ungottenc in HI.
  unfold gf_regetc. destruct (search_ungotten u stream) as [i|]; [|done].
  destruct H as [Hi Hf]. destruct Hw as [Hl Hn].
  destruct (lookup_lt_is_Some_2 (ungotten_files u) (n_ungotten u - 1)) as [x Hx]; [lia|].
  rewrite Hx. unfold wf_ungotten, listed. cbn [ungotten_files n_ungotten max_ungotten].
  rewrite length_insert. split; [lia|]. split; [intros _|intros Hni; by destruct Hni; apply HI].
  replace (n_ungotten u) with (S (n_ungotten u - 1)) at 1 by lia.
  set (k := (n_ungotten u - 1)%nat) in *. rewrite (take_S_r _ _ x Hx).
  destruct (decide (i = k)) as [->|Hik].
  - rewrite take_insert_ge by lia. simplify_eq. by rewrite <- Permutation_cons_append.
  - assert (Hit : take k (ungotten_files u) !! i = Some stream) by (rewrite lookup_take_lt; [done|lia]).
    rewrite take_insert_lt by lia.
    rewrite <- (take_drop_middle _ i _ Hit) at 1.
    rewrite (insert_take_drop (take k _) i x) by (apply lookup_lt_Some in Hit; done).
    solve_Permutation.
Qed.

Lemma count_permutation x l k : l ≡ₚ k -> count x l = count x k.
Proof. intros H. unfold count. by rewrite H. Qed.

Lemma count_zero x l : count x l = 0%nat <-> x ∉ l.
Proof.
  unfold count. rewrite length_zero_iff_nil. split.
  - intros H Hx. assert (Hf : x ∈ filter (eq x) l) by (by apply list_elem_of_filter).
    rewrite H in Hf. by apply not_elem_of_nil in Hf.
  - intros Hx. destruct (filter (eq x) l) as [|y k] eqn:E; [done|].
    assert (Hf : y ∈ filter (eq x) l) by (rewrite E; constructor).
    apply list_elem_of_filter in Hf as [-> ?]. done.
Qed.

Lemma count_snoc x l : count x (l ++ [x]) = S (count x l).
Proof.
  unfold count. rewrite list.filter_app, length_app, filter_cons_True by done.
  rewrite filter_nil. cbn. lia.
Qed.

Lemma count_cons_eq x l : count x (x :: l) = S (count x l).
Proof. unfold count. by rewrite filter_cons_True. Qed.

(** One entry less after [gf_regetc]. *)
Lemma gf_regetc_count u stream :
  wf_ungotten u ->
  count stream (listed (gf_regetc u stream)) = (count stream (listed u) - 1)%nat.
Proof.
  intros Hw. destruct (gf_regetc_listed u stream Hw) as (_ & Hin & Hout).
  destruct (decide (stream ∈ listed u)) as [H|H].
  - rewrite (count_permutation _ _ _ (Hin H)), count_cons_eq. lia.
  - rewrite (Hout H), (proj2 (count_zero _ _) H). done.
Qed.

(** ** Streams *)

Definition is_byte_event (e : event) : Prop := match e with Byte c => is_char c | IoError _ => True end.
Definition wf_file (f : FILE) : Prop :=
  Forall is_char (f_pushed f) /\ Forall is_byte_event (f_input f).

(** [f] delivers the bytes [bs], then [t]. *)
Definition delivers (f : FILE) (bs : list Z) (t : list event) : Prop :=
  exists l, f_input f = map Byte l ++ t /\ bs = f_pushed f ++ l.

(** The retry condition compares the indicator with an [errno]: it never holds. *)
Lemma getc_line_eq f : getc_line f = getc f.
Proof.
  unfold getc_line, retry_fuel. cbn [getc_retry]. destruct (getc f) as [c f'] eqn:E.
  replace (ferror f' =? EINTR) with false; [by rewrite andb_false_r|].
  unfold ferror. by destruct (f_error f').
Qed.

Lemma getc_wf f c f' :
  wf_file f -> getc f = (c, f') ->
  wf_file f' /\ f_pushed f' = tail (f_pushed f) /\
  (c = EOF \/ is_char c) /\ (f_pushed f <> [] -> is_char c).
Proof.
  intros [Hp Hi]. unfold getc. destruct f as [[|p ps] input err en]; cbn in *.
  - destruct input as [|[b|e] l]; intros [= <- <-]; inversion Hi; subst; cbn in *;
      (split; [by split|]); (split; [done|]); (split; [by auto|done]).
  - intros [= <- <-]. inversion Hp; subst. split; [by split|]. auto.
Qed.

Lemma getc_delivers f c bs t :
  delivers f (c :: bs) t ->
  exists f', getc f = (c, f') /\ delivers f' bs t /\ f_error f' = f_error f /\
             f_errno f' = f_errno f.
Proof.
  intros (l & Hl & Hb). unfold getc. destruct f as [[|p ps] input err en]; cbn in *.
  - subst l. cbn in Hl. subst input. eexists. split; [done|]. split; [by exists bs|done].
  - injection Hb as <- ->. eexists. split; [done|]. split; [by exists l|done].
Qed.

(** What is left when the bytes are used up: the end of file, or an error. *)
Definition after_error (t : list event) : list event :=
  match t with IoError _ :: t => t | _ => t end.
Definition error_of (t : list event) : Z :=
  match t with IoError e :: _ => TOIOR e | _ => 0 end.
Definition stops (t : list event) : Prop :=
  match t with Byte _ :: _ => False | _ => True end.

Lemma getc_end f t :
  stops t -> f_error f = false -> delivers f [] t ->
  exists f', getc f = (EOF, f') /\ delivers (clearerr f') [] (after_error t) /\
             FILEIO (clearerr f') (ferror f') = error_of t.
Proof.
  intros Ht He (l & Hl & Hb). destruct f as [p input err en]. cbn in *.
  destruct p; [|done]. cbn in Hb. subst l err. cbn in Hl. subst input.
  unfold getc. cbn [f_pushed f_input f_error f_errno].
  destruct t as [|[b|e] t]; [|done|]; eexists; (split; [done|]); (split; [by exists []|done]).
Qed.

Lemma delivers_ungetc f c bs t : delivers f bs t -> delivers (ungetc c f) (c :: bs) t.
Proof. intros (l & Hl & ->). exists l. done. Qed.

(** ** The result of [read_line] *)

Definition is_eol (c : Z) : bool := (c =? 10) || (c =? 13).

(** [line_end room line term rest t flag wior rest' t']: how a line stops
    with [room] bytes of buffer left, and what the stream delivers next. *)
Inductive line_end (empty : bool) :
  Z -> list Z -> list Z -> list event -> Z -> Z -> list event -> Prop :=
| ends_full rest t : line_end empty 0 [] rest t (-1) 0 t
| ends_lf room rest t : 0 < room -> line_end empty room [10] rest t (-1) 0 t
| ends_crlf room rest t : 0 < room -> line_end empty room [13; 10] rest t (-1) 0 t
| ends_cr room c rest t : 0 < room -> c <> 10 -> line_end empty room [13] (c :: rest) t (-1) 0 t
| ends_cr_eof room t : 0 < room ->
    line_end empty room [13] [] t (-1) (error_of t) (after_error t)
| ends_eof room t : 0 < room ->
    line_end empty room [] [] t (FLAG (negb empty)) (error_of t) (after_error t).

(** [line_read room a u2 u3 m bs t q s']: from a stream that delivers [bs] and
    then [t], a line without its terminator was stored at [a] of [m], after
    [u2] characters of it had been stored and [u3] consumed before. *)
Definition line_read (room a u2 u3 : Z) (m : memory) (bs : list Z) (t : list event)
    (q : Cellquad) (s' : io_state) : Prop :=
  exists line term rest t' flag wior,
    bs = line ++ term ++ rest /\
    Forall (fun c => is_eol c = false) line /\
    q = mkQuad (u2 + Z.of_nat (length line)) flag
               (u3 + Z.of_nat (length line) + Z.of_nat (length term)) wior /\
    line_end (u2 + Z.of_nat (length line) =? 0) (room - Z.of_nat (length line))
             term rest t flag wior t' /\
    delivers (io_file s') rest t' /\ f_error (io_file s') = false /\
    bytes_at (io_mem s') a (length line) = line /\
    (forall x, ~ (a <= x < a + Z.of_nat (length line)) -> io_mem s' x = m x).

Lemma line_read_stop room a u2 u3 bs t term rest t' flag wior u3' s' :
  bs = term ++ rest -> line_end (u2 =? 0) room term rest t flag wior t' ->
  u3' = u3 + Z.of_nat (length term) -> delivers (io_file s') rest t' ->
  f_error (io_file s') = false ->
  line_read room a u2 u3 (io_mem s') bs t (mkQuad u2 flag u3' wior) s'.
Proof.
  intros Hbs He -> Hd Hf. exists [], term, rest, t', flag, wior. cbn [length app].
  rewrite Z.sub_0_r, !Z.add_0_r. by split_and!.
Qed.

Lemma line_read_cons room a u2 u3 m c bs t q s' :
  is_eol c = false -> m a = c ->
  line_read (room - 1) (a + 1) (u2 + 1) (u3 + 1) m bs t q s' ->
  forall m0, (forall x, x <> a -> m x = m0 x) ->
  line_read room a u2 u3 m0 (c :: bs) t q s'.
Proof.
  intros Hc Hm (line & term & rest & t' & flag & wior & -> & Hl & -> & He & Hd & Hf & Hb & Ho) m0 Hm0.
  exists (c :: line), term, rest, t', flag, wior. cbn [length app bytes_at].
  rewrite Nat2Z.inj_succ. unfold Z.succ.
  replace (u2 + (Z.of_nat (length line) + 1)) with (u2 + 1 + Z.of_nat (length line)) by lia.
  replace (u3 + (Z.of_nat (length line) + 1)) with (u3 + 1 + Z.of_nat (length line)) by lia.
  replace (room - (Z.of_nat (length line) + 1)) with (room - 1 - Z.of_nat (length line)) by lia.
  split_and!; try done.
  - by constructor.
  - rewrite Hb, Ho, Hm by lia. done.
  - intros x Hx. rewrite Ho, Hm0 by lia. done.
Qed.

Lemma read_line_loop_spec junk stream room a u2 u3 s bs t :
  stops t -> f_error (io_file s) = false -> delivers (io_file s) bs t -> Forall is_char bs ->
  0 <= u2 -> 0 <= u3 -> u3 + Z.of_nat (length bs) < B ->
  exists q s', read_line_loop junk stream room a u2 u3 s = (q, s') /\
    line_read (Z.of_nat room) (a + u2) u2 u3 (io_mem s) bs t q s'.
Proof.
  intros Ht. revert u2 u3 s bs. induction room as [|room IH]; intros u2 u3 s bs He Hd Hc H2 H3 H4.
  { do 2 eexists. split; [done|]. apply (line_read_stop _ _ _ _ _ _ [] bs t); try done.
    - constructor.
    - cbn. lia. }
  assert (Hroom : 0 < Z.of_nat (S room)) by lia. cbn [read_line_loop].
  rewrite getc_line_eq. destruct bs as [|c bs].
  { destruct (getc_end _ _ Ht He Hd) as (f & -> & Hd' & Hw). do 2 eexists.
    split; [reflexivity|]. rewrite Hw.
    eapply (line_read_stop _ _ _ _ _ _ [] [] (after_error t)
      _ _ _ (mkIO (io_mem s) (clearerr f) (io_ungotten s))); try done; [by constructor|cbn; lia]. }
  inversion Hc as [|c' l' Hcc Hcs]; subst. cbn [length] in H4.
  destruct (getc_delivers _ _ _ _ Hd) as (f & -> & Hd' & He' & _). rewrite He in He'.
  replace (c =? EOF) with false by (unfold is_char, EOF in *; lia). cbv zeta.
  rewrite (U64_small (u3 + 1)) by (unfold is_ucell; lia).
  destruct (Z.eqb_spec c 10) as [->|H10].
  { do 2 eexists. split; [reflexivity|].
    eapply (line_read_stop _ _ _ _ _ _ [10] bs t _ _ _ (mkIO (io_mem s) f (io_ungotten s)));
      try done. by constructor. }
  destruct (Z.eqb_spec c 13) as [->|H13].
  - rewrite getc_line_eq. destruct bs as [|c bs].
    { destruct (getc_end _ _ Ht He' Hd') as (f' & -> & Hd'' & Hw). do 2 eexists.
      split; [reflexivity|]. rewrite Hw.
      eapply (line_read_stop _ _ _ _ _ _ [13] [] (after_error t)
        _ _ _ (mkIO (io_mem s) (clearerr f') (io_ungotten s))); try done. by constructor. }
    inversion Hcs as [|c' l' Hcc' Hcs']; subst. cbn [length] in H4.
    destruct (getc_delivers _ _ _ _ Hd') as (f' & -> & Hd'' & He'' & _). rewrite He' in He''.
    replace (c =? EOF) with false by (unfold is_char, EOF in *; lia).
    destruct (Z.eqb_spec c 10) as [->|Hc10]; cbn [negb]; do 2 eexists; (split; [reflexivity|]).
    + rewrite (U64_small (u3 + 1 + 1)) by (unfold is_ucell; lia).
      eapply (line_read_stop _ _ _ _ _ _ [13; 10] bs t _ _ _ (mkIO (io_mem s) f' (io_ungotten s)));
        try done; [by constructor|cbn [length]; lia].
    + eapply (line_read_stop _ _ _ _ _ _ [13] (c :: bs) t
        _ _ _ (mkIO (io_mem s) (ungetc c f') _)); try done; [by constructor|by apply delivers_ungetc].
  - destruct (IH (u2 + 1) (u3 + 1) (mkIO (store (io_mem s) (a + u2) c) f (io_ungotten s)) bs)
      as (q & s' & -> & Hr); try (cbn [io_file]; done); try lia.
    do 2 eexists. split; [reflexivity|]. cbn [io_mem] in Hr.
    apply (line_read_cons _ _ _ _ (store (io_mem s) (a + u2) c)).
    + unfold is_eol. lia.
    + by rewrite store_eq.
    + replace (Z.of_nat (S room) - 1) with (Z.of_nat room) by lia. by rewrite <- Z.add_assoc.
    + intros x Hx. by rewrite store_ne.
Qed.

(** ** The table and the pushed-back characters agree *)

Definition io_ok (stream : Z) (s : io_state) : Prop :=
  wf_ungotten (io_ungotten s) /\ wf_file (io_file s) /\
  count stream (listed (io_ungotten s)) = length (f_pushed (io_file s)) /\
  (length (f_pushed (io_file s)) <= 1)%nat.

(** Nothing is pushed back and the stream is not in the table. *)
Definition io_clear (stream : Z) (s : io_state) : Prop :=
  wf_ungotten (io_ungotten s) /\ wf_file (io_file s) /\
  count stream (listed (io_ungotten s)) = 0%nat /\ f_pushed (io_file s) = [].

Lemma io_clear_ok stream s : io_clear stream s -> io_ok stream s.
Proof. intros (? & ? & Hc & Hp). unfold io_ok. rewrite Hp, Hc. cbn. auto. Qed.

Lemma push_ok junk stream c m f u :
  io_clear stream (mkIO m f u) -> is_char c ->
  io_ok stream (mkIO m (ungetc c f) (add_ungotten junk u stream)).
Proof.
  intros (Hw & [Hp Hi] & Hc & Hn) Hcc. cbn in *.
  destruct (add_ungotten_listed junk u stream Hw) as [Hw' Hl]. unfold io_ok. cbn.
  rewrite Hl, count_snoc, Hc, Hn. split_and!; auto. split; cbn; [|done]. rewrite Hn. by constructor.
Qed.

(** A read takes the pushed-back character, if there is one. *)
Lemma getc_clears stream m m' f u c f' :
  wf_ungotten u -> wf_file f -> count stream (listed u) = 0%nat ->
  (length (f_pushed f) <= 1)%nat -> getc f = (c, f') ->
  io_clear stream (mkIO m f' u) /\ io_clear stream (mkIO m' (clearerr f') u) /\
  (c <> EOF -> is_char c).
Proof.
  intros Hw Hf Hc Hp Hg. destruct (getc_wf _ _ _ Hf Hg) as ([? ?] & Ht & Hch & _).
  assert (f_pushed f' = []) by (rewrite Ht; by destruct (f_pushed f) as [|? [|? ?]]; cbn in *; [| |lia]).
  split_and!; try done. by destruct Hch.
Qed.

Lemma read_line_loop_ok junk stream room a u2 u3 s :
  wf_ungotten (io_ungotten s) -> wf_file (io_file s) ->
  count stream (listed (io_ungotten s)) = 0%nat ->
  (length (f_pushed (io_file s)) <= 1)%nat -> (room = 0%nat -> f_pushed (io_file s) = []) ->
  io_ok stream (read_line_loop junk stream room a u2 u3 s).2.
Proof.
  revert u2 u3 s. induction room as [|room IH]; intros u2 u3 [m f u] Hw Hf Hc Hp H0;
    cbn [io_file io_ungotten] in *; cbn [read_line_loop io_file io_ungotten io_mem].
  { apply io_clear_ok. by specialize (H0 eq_refl). }
  rewrite getc_line_eq. destruct (getc f) as [c f'] eqn:E.
  destruct (getc_clears stream m m _ _ _ _ Hw Hf Hc Hp E) as (K & K' & Hch).
  destruct (Z.eqb_spec c EOF); [by apply io_clear_ok|].
  destruct (Z.eqb_spec c 10); [by apply io_clear_ok|].
  destruct (Z.eqb_spec c 13).
  - rewrite getc_line_eq. destruct (getc f') as [c2 f2] eqn:E2.
    destruct K as (_ & Kf & _ & Kp). cbn in Kf, Kp.
    assert (Kl : (length (f_pushed f') <= 1)%nat) by (rewrite Kp; cbn; lia).
    destruct (getc_clears stream m m _ _ _ _ Hw Kf Hc Kl E2) as (K2 & K2' & Hch2).
    destruct (Z.eqb_spec c2 EOF); [by apply io_clear_ok|].
    destruct (Z.eqb_spec c2 10); cbn; [by apply io_clear_ok|]. apply push_ok; auto.
  - destruct K as (_ & Kf & _ & Kp). cbn in *. apply IH; cbn; try done. rewrite Kp. cbn. lia.
Qed.

Lemma read_line_ok junk stream a u1 s :
  io_ok stream s -> io_ok stream (read_line junk stream a u1 s).2.
Proof.
  intros (Hw & Hf & Hc & Hp). unfold read_line. destruct (Z.ltb_spec 0 u1) as [H|H].
  - destruct (gf_regetc_listed (io_ungotten s) stream Hw) as (Hw' & _ & _).
    apply read_line_loop_ok; cbn; try done; [|lia]. rewrite gf_regetc_count by done. lia.
  - replace (Z.to_nat u1) with O by lia. done.
Qed.

Lemma getkey_ok stream s : io_ok stream s -> io_ok stream (getkey stream s).2.
Proof.
  intros (Hw & [Hfp Hfi] & Hc & Hp). unfold getkey. destruct (getc _) as [c f'] eqn:E.
  destruct (gf_regetc_listed (io_ungotten s) stream Hw) as (Hw' & _ & _).
  pose proof (gf_regetc_count (io_ungotten s) stream Hw) as Hk.
  destruct (getc_wf (mkFILE (f_pushed (io_file s)) (f_input (io_file s)) (f_error (io_file s)) 0)
    c f' (conj Hfp Hfi) E) as (Hf' & Ht & Hch & Hne). cbn in Ht, Hne.
  assert (Hl : length (f_pushed f') = (length (f_pushed (io_file s)) - 1)%nat)
    by (rewrite Ht; by destruct (f_pushed (io_file s)) as [|? [|? ?]]; cbn in *; [| |lia]).
  destruct (Z.eqb_spec c EOF) as [->|Hce]; unfold io_ok; cbn [snd io_ungotten io_file].
  - assert (f_pushed (io_file s) = []) as Hz.
    { destruct (f_pushed (io_file s)); [done|]. by destruct Hne. }
    rewrite Hl, Hc, Hz. cbn. auto.
  - rewrite Hl, Hk, Hc. split_and!; try done. lia.
Qed.

Lemma key_avail_ok junk stream n s :
  io_ok stream s -> io_ok stream (key_avail junk stream n s).2.
Proof.
  intros K. pose proof K as (Hw & Hf & Hc & Hp). unfold key_avail.
  destruct (gf_ungottenc _ _) eqn:G; [done|]. destruct (0 <? n); [|done].
  assert (H0 : count stream (listed (io_ungotten s)) = 0%nat).
  { apply count_zero. intros Hin. by rewrite (proj2 (gf_ungottenc_listed _ _ Hw) Hin) in G. }
  destruct (getc _) as [c f'] eqn:E.
  destruct (getc_clears stream (io_mem s) (io_mem s) _ _ _ _ Hw Hf H0 Hp E) as (Kc & _ & Hch).
  destruct (Z.eqb_spec c EOF); cbn; [by apply io_clear_ok|]. by apply push_ok; auto.
Qed.

(** The operations on one stream. *)
Inductive io_step (junk stream : Z) : io_state -> io_state -> Prop :=
| step_read_line c_addr u1 s : io_step junk stream s (read_line junk stream c_addr u1 s).2
| step_getkey s : io_step junk stream s (getkey stream s).2
| step_key_avail n s : io_step junk stream s (key_avail junk stream n s).2.

Lemma io_step_ok junk stream s s' : io_step junk stream s s' -> io_ok stream s -> io_ok stream s'.
Proof. intros [] ?; auto using read_line_ok, getkey_ok, key_avail_ok. Qed.

Lemma io_steps_ok junk stream s s' : rtc (io_step junk stream) s s' -> io_ok stream s -> io_ok stream s'.
Proof. induction 1; eauto using io_step_ok. Qed.

(** ** Properties *)

(** C39: on a stream whose error indicator is clear, [read_line] stores, into at most [u1] bytes of the buffer and nowhere
    else, the characters of the stream up to a line terminator (LF, CR or
    CR LF, the longest that fits), the end of the buffer, the end of the file
    or an error; the results count the characters stored and consumed; the
    flag is false exactly if the end of the file or an error comes before any
    character was stored or terminator read, with room in the buffer; an error
    that ends the line is reported with its ior and cleared, and the stream
    continues after the terminator. *)
Theorem read_line_splits junk stream c_addr u1 s bs t :
  0 <= u1 -> stops t -> f_error (io_file s) = false -> delivers (io_file s) bs t ->
  Forall is_char bs -> Z.of_nat (length bs) < B ->
  line_read u1 c_addr 0 0 (io_mem s) bs t
    (read_line junk stream c_addr u1 s).1 (read_line junk stream c_addr u1 s).2.
Proof.
  intros Hu Ht He Hd Hc Hl. unfold read_line.
  set (s0 := if 0 <? u1 then _ else s).
  assert (H0 : io_file s0 = io_file s /\ io_mem s0 = io_mem s) by (unfold s0; by destruct (0 <? u1)).
  destruct H0 as [Hf Hm]. rewrite <- Hf in He, Hd.
  destruct (read_line_loop_spec junk stream (Z.to_nat u1) c_addr 0 0 s0 bs t Ht He Hd Hc)
    as (q & s' & -> & Hr); [lia..|].
  rewrite Z2Nat.id, Z.add_0_r, Hm in Hr by done. exact Hr.
Qed.

(** "a" pushed back, "b", CR, "c" and then a failing read. *)
Definition demo_file : FILE := mkFILE [97] [Byte 98; Byte 13; Byte 99; IoError 5] false 0.
Definition demo_io : io_state := mkIO (fun _ => 0) demo_file (add_ungotten 0 no_ungotten 7).

Lemma read_line_splits_witness :
  line_read 80 1000 0 0 (io_mem demo_io) [97; 98; 13; 99] [IoError 5]
    (read_line 0 7 1000 80 demo_io).1 (read_line 0 7 1000 80 demo_io).2 /\
  (read_line 0 7 1000 80 demo_io).1 = mkQuad 2 (-1) 3 0 /\
  (read_line 0 7 1000 80 (read_line 0 7 1000 80 demo_io).2).1 = mkQuad 1 (-1) 1 (-517).
Proof.
  split; [|by vm_compute].
  apply (read_line_splits 0 7 1000 80 demo_io); try done.
  - by exists [98; 13; 99].
  - repeat (apply Forall_cons_2; [unfold is_char; lia|]). constructor.
Defined.

(** However lines are read, keys are read and keys are polled, the table of
    io.c stays well formed and a stream is in it exactly when the C library
    holds a pushed-back character of it, of which there is at most one, so
    [gf_ungottenc] tells whether a read returns at once. *)
Theorem ungotten_tracks_pushback junk stream s s' :
  io_ok stream s -> rtc (io_step junk stream) s s' ->
  io_ok stream s' /\
  (gf_ungottenc (io_ungotten s') stream = true <-> f_pushed (io_file s') <> []).
Proof.
  intros H0 Hs. pose proof (io_steps_ok _ _ _ _ Hs H0) as H. split; [done|].
  destruct H as (Hw & _ & Hc & _). rewrite (gf_ungottenc_listed _ _ Hw).
  pose proof (count_zero stream (listed (io_ungotten s'))) as Hz. rewrite Hc in Hz.
  rewrite length_zero_iff_nil in Hz. destruct (decide (stream ∈ listed (io_ungotten s'))); tauto.
Qed.

Definition demo_fresh : io_state :=
  mkIO (fun _ => 0) (mkFILE [] [Byte 97; Byte 98] false 0) no_ungotten.

Lemma ungotten_tracks_pushback_witness :
  io_ok 7 (getkey 7 (key_avail 0 7 1 demo_fresh).2).2 /\
  (gf_ungottenc (io_ungotten (getkey 7 (key_avail 0 7 1 demo_fresh).2).2) 7 = true <->
   f_pushed (io_file (getkey 7 (key_avail 0 7 1 demo_fresh).2).2) <> []).
Proof.
  apply (ungotten_tracks_pushback 0 7 demo_fresh).
  - split; [by split; cbn; lia|]. split; [|by split; cbn; lia]. split; [constructor|].
    repeat (apply Forall_cons_2; [cbn; unfold is_char; lia|]). constructor.
  - eapply rtc_l; [apply (step_key_avail 0 7 1)|]. eapply rtc_l; [apply step_getkey|]. apply rtc_refl.
Defined.
