(* ===== verification/Sizes.v ===== *)
(** * Number parsing: strtol.c / strtoul.c and the size options ([convsize])

    A C string is the list of its bytes before the terminating NUL; reading at
    the end gives the NUL.  A pointer into it is the rest of the list. *)
From S2P Require Import Prelude Memory Strings Hash.

(** ** Character classes of the C locale *)

Definition isdigit (c : Z) : bool := (48 <=? c) && (c <=? 57).
Definition isalpha (c : Z) : bool := ((65 <=? c) && (c <=? 90)) || ((97 <=? c) && (c <=? 122)).

(** [*s] and [s[1]] *)
Definition char_at (s : list Z) (i : nat) : Z := nth i s 0.

Definition ULONG_MAX : Z := B - 1.
Definition LONG_MAX : Z := BH - 1.
Definition LONG_MIN : Z := - BH.

(** ** strtol.c *)

(** [while (isspace( *s)) ++s;] *)
Fixpoint strtol_space (s : list Z) : list Z :=
  match s with
  | c :: s' => if isspace c then strtol_space s' else s
  | [] => []
  end.

(** A digit: [c - '0'] or [toupper(c) - 'A' + 10]. *)
Definition digit_value (c : Z) : option Z :=
  if isdigit c then Some (c - 48)
  else if isalpha c then Some (toupper c - 65 + 10)
  else None.

(** [for (c = *s; c != '\0'; c = *++s)] *)
Fixpoint strtol_loop (base cutoff cutlim : Z) (s : list Z) (i : Z) (overflow : bool)
    : list Z * Z * bool :=
  match s with
  | [] => (s, i, overflow)
  | ch :: s' =>
      if ch =? 0 then (s, i, overflow)
      else
        match digit_value ch with
        | None => (s, i, overflow)
        | Some c =>
            if base <=? c then (s, i, overflow)
            else if (cutoff <? i) || ((i =? cutoff) && (cutlim <? c)) then
              strtol_loop base cutoff cutlim s' i true
            else strtol_loop base cutoff cutlim s' (U64 (U64 (i * base) + c)) overflow
        end
  end.

(** The prefix [0x] and the base that a leading zero selects. *)
Definition strtol_base (s : list Z) (base : Z) : list Z * Z :=
  let is_0x := (char_at s 0 =? 48) && (toupper (char_at s 1) =? 88) in
  let s := if (base =? 16) && is_0x then drop 2 s else s in
  if base =? 0 then
    if char_at s 0 =? 48 then
      if toupper (char_at s 1) =? 88 then (drop 2 s, 16) else (s, 8)
    else (s, 10)
  else (s, base).

(** The value, [*endptr] and whether [errno] becomes [ERANGE]; [unsigned] is
    the macro that makes [strtoul] of the same text. *)
Definition strtol (unsigned : bool) (nptr : list Z) (base : Z) : Z * list Z * bool :=
  let base := if (base <? 0) || (base =? 1) || (36 <? base) then 10 else base in
  let s := strtol_space nptr in
  if char_at s 0 =? 0 then (0, nptr, false)
  else
    let '(negative, s) :=
      if char_at s 0 =? 45 then (true, drop 1 s)
      else if char_at s 0 =? 43 then (false, drop 1 s)
      else (false, s) in
    let '(s, base) := strtol_base s base in
    let save := s in
    let cutoff := ULONG_MAX / base in
    let cutlim := ULONG_MAX mod base in
    let '(s, i, overflow) := strtol_loop base cutoff cutlim s 0 false in
    if (length s =? length save)%nat then (0, nptr, false)
    else
      let overflow :=
        if unsigned then overflow
        else if (if negative then U64 (- U64 LONG_MIN) else LONG_MAX) <? i then true
        else overflow in
      if overflow then
        ((if unsigned then ULONG_MAX else if negative then LONG_MIN else LONG_MAX), s, true)
      else
        let v := if negative then U64 (- i) else i in
        ((if unsigned then v else S64 v), s, false).

(** ** [convsize] of main.c *)

(** [strcmp(endp, ...) == 0] *)
Definition streq (s t : list Z) : bool := bool_decide (s = t).

(** On a 64-bit machine, where [T] is allowed. *)
Definition convsize (s : list Z) (elemsize : Z) : Z :=
  let '(n, endp, _) := strtol true s 0 in
  let unit :=
    if streq endp [98] then Some 1
    else if streq endp [107] then Some 1024
    else if streq endp [77] then Some (1024 * 1024)
    else if streq endp [71] then Some (1024 * 1024 * 1024)
    else if streq endp [84] then Some (1024 * 1024 * 1024 * 1024)
    else if negb (streq endp [101]) && negb (streq endp []) then None
    else Some elemsize in
  match unit with
  | Some m => U64 (n * m)
  | None => U64 (-1)
  end.

(** ** The number a digit string denotes *)

Definition is_digit_of (base ch : Z) : Prop :=
  exists v, digit_value ch = Some v /\ v < base.

Definition num (base : Z) (i : Z) (ds : list Z) : Z :=
  fold_left (fun i ch => i * base + default 0 (digit_value ch)) ds i.

(** [rest] does not go on with a digit of this base. *)
Definition digits_end (base : Z) (rest : list Z) : Prop :=
  match rest with [] => True | ch :: _ => ch = 0 \/ ~ is_digit_of base ch end.

(** [radix base s digits b]: how the text [s] after the sign selects the
    base [b] of its digits. *)
Definition has_0x (s : list Z) : bool := (char_at s 0 =? 48) && (toupper (char_at s 1) =? 88).
Inductive radix (base : Z) : list Z -> list Z -> Z -> Prop :=
| radix_given s : 2 <= base <= 36 -> (base = 16 -> has_0x s = false) -> radix base s s base
| radix_hex s x : base = 0 \/ base = 16 -> x = 120 \/ x = 88 -> radix base (48 :: x :: s) s 16
| radix_octal s : base = 0 -> has_0x (48 :: s) = false -> radix base (48 :: s) (48 :: s) 8
| radix_decimal c s : base = 0 -> c <> 48 -> radix base (c :: s) (c :: s) 10.

Definition sign_text (negative : bool) (sg : list Z) : Prop :=
  if negative then sg = [45] else sg = [] \/ sg = [43].

(** What the functions return for the number [n] with a sign. *)
Definition clamp (unsigned negative : bool) (n : Z) : Z * bool :=
  let v := if negative then - n else n in
  if unsigned then (if n <=? ULONG_MAX then (U64 v, false) else (ULONG_MAX, true))
  else if (LONG_MIN <=? v) && (v <=? LONG_MAX) then (v, false)
  else ((if negative then LONG_MIN else LONG_MAX), true).

(** ** Lemmas *)

Lemma digit_value_bounds ch v : digit_value ch = Some v -> 0 <= v < 36 /\ ch <> 0.
Proof.
  unfold digit_value, isdigit, isalpha, toupper.
  destruct ((48 <=? ch) && (ch <=? 57)) eqn:E1; [intros [= <-]; zbool; lia|].
  destruct (_ || _) eqn:E2; [|done]. intros [= <-]. destruct ((97 <=? ch) && (ch <=? 122)) eqn:E3; zbool; lia.
Qed.

Lemma num_mono base i ds :
  1 <= base -> 0 <= i -> Forall (is_digit_of base) ds -> i <= num base i ds.
Proof.
  intros Hb Hi Hd. revert i Hi. induction Hd as [|ch ds (v & Hv & Hvb) Hd IH]; intros i Hi; [cbn; lia|].
  cbn [num fold_left]. rewrite Hv. cbn [from_option]. unfold id.
  pose proof (digit_value_bounds _ _ Hv).
  unfold num in IH. etransitivity; [|apply IH]; nia.
Qed.

(** The overflow test is exact. *)
Lemma cutoff_exact base i v :
  1 <= base -> 0 <= v < base -> 0 <= i ->
  (ULONG_MAX / base <? i) || ((i =? ULONG_MAX / base) && (ULONG_MAX mod base <? v)) =
  (ULONG_MAX <? i * base + v).
Proof.
  intros Hb Hv Hi. pose proof (div_mod_eq ULONG_MAX base ltac:(lia)) as E.
  pose proof (Z.mod_pos_bound ULONG_MAX base ltac:(lia)).
  set (q := ULONG_MAX / base) in *. set (r := ULONG_MAX mod base) in *.
  destruct (Z.ltb_spec ULONG_MAX (i * base + v)) as [H1|H1].
  - apply orb_true_iff. destruct (Z.ltb_spec q i); [by left|]. right.
    assert (i = q) as -> by nia. lia.
  - apply orb_false_iff. split; [apply Z.ltb_ge; nia|].
    destruct (Z.eqb_spec i q) as [->|]; [|done]. cbn. lia.
Qed.

Lemma strtol_loop_true base ds rest i :
  Forall (is_digit_of base) ds -> digits_end base rest ->
  exists i', strtol_loop base (ULONG_MAX / base) (ULONG_MAX mod base) (ds ++ rest) i true = (rest, i', true).
Proof.
  intros Hd Hr. revert i. induction Hd as [|ch ds (v & Hv & Hvb) Hd IH]; intros i.
  - exists i. destruct rest as [|ch rest]; [done|]. cbn in *.
    destruct (Z.eqb_spec ch 0); [done|]. destruct Hr as [?|Hr]; [done|].
    destruct (digit_value ch) as [v|] eqn:E; [|done].
    destruct (Z.leb_spec base v); [done|]. destruct Hr. by exists v.
  - cbn [app strtol_loop]. pose proof (digit_value_bounds _ _ Hv).
    destruct (Z.eqb_spec ch 0); [lia|]. rewrite Hv. destruct (Z.leb_spec base v); [lia|].
    destruct (_ || _); apply IH.
Qed.

Lemma strtol_loop_spec base ds rest i :
  1 <= base -> 0 <= i <= ULONG_MAX -> Forall (is_digit_of base) ds -> digits_end base rest ->
  exists i', strtol_loop base (ULONG_MAX / base) (ULONG_MAX mod base) (ds ++ rest) i false =
    (rest, i', ULONG_MAX <? num base i ds) /\ (num base i ds <= ULONG_MAX -> i' = num base i ds).
Proof.
  intros Hb Hi Hd Hr. revert i Hi. induction Hd as [|ch ds (v & Hv & Hvb) Hd IH]; intros i Hi.
  - exists i. cbn [app num fold_left]. rewrite (proj2 (Z.ltb_ge ULONG_MAX i)) by lia. split; [|done].
    destruct rest as [|ch rest]; [done|]. cbn in *.
    destruct (Z.eqb_spec ch 0); [done|]. destruct Hr as [?|Hr]; [done|].
    destruct (digit_value ch) as [v|] eqn:E; [|done].
    destruct (Z.leb_spec base v); [done|]. destruct Hr. by exists v.
  - cbn [app strtol_loop]. pose proof (digit_value_bounds _ _ Hv) as [Hv0 Hc].
    destruct (Z.eqb_spec ch 0); [lia|]. rewrite Hv. destruct (Z.leb_spec base v); [lia|].
    rewrite cutoff_exact by lia.
    assert (En : num base i (ch :: ds) = num base (i * base + v) ds) by (cbn; by rewrite Hv).
    rewrite En. pose proof (num_mono base (i * base + v) ds Hb ltac:(nia) Hd) as Hm.
    destruct (Z.ltb_spec ULONG_MAX (i * base + v)) as [Ho|Ho].
    + destruct (strtol_loop_true base ds rest i Hd Hr) as [i' ->]. exists i'.
      rewrite (proj2 (Z.ltb_lt ULONG_MAX (num base (i * base + v) ds))) by lia. split; [done|lia].
    + unfold ULONG_MAX in Ho. rewrite (U64_small (i * base)), U64_small by (unfold is_ucell; nia).
      apply IH. unfold ULONG_MAX. nia.
Qed.

Lemma strtol_space_app ws s :
  Forall (fun c => isspace c = true) ws -> isspace (char_at s 0) = false ->
  strtol_space (ws ++ s) = s.
Proof.
  induction 1 as [|c ws Hc Hws IH]; intros Hs; cbn [app strtol_space].
  - destruct s as [|c s]; [done|]. cbn in *. by rewrite Hs.
  - rewrite Hc. auto.
Qed.

Lemma is_digit_head base c : is_digit_of base c -> 48 <= c <= 57 \/ 65 <= c <= 90 \/ 97 <= c <= 122.
Proof.
  intros (v & Hv & _). unfold digit_value, isdigit, isalpha in Hv.
  destruct ((48 <=? c) && (c <=? 57)) eqn:E1; [zbool; lia|].
  destruct (_ || _) eqn:E2; [|done]. zbool. destruct E2; zbool; lia.
Qed.

Lemma strtol_base_radix base s digits b : radix base s digits b -> strtol_base s base = (digits, b).
Proof.
  unfold strtol_base. fold (has_0x s). intros [s' Hb Hx|s' x Hb Hx|s' -> Hx|c s' -> Hc].
  - destruct (Z.eqb_spec base 16) as [E|E]; [rewrite (Hx E)|]; cbn [andb];
      destruct (Z.eqb_spec base 0); try lia; done.
  - assert (has_0x (48 :: x :: s') = true) as H0 by (by destruct Hx as [-> | ->]).
    rewrite H0. assert (toupper x = 88) as Hux by (by destruct Hx as [-> | ->]).
    destruct Hb as [-> | ->]; [|done]. cbn. by rewrite Hux.
  - unfold has_0x in *. cbn in *. by rewrite Hx.
  - cbn. destruct (Z.eqb_spec c 48); [lia|]. done.
Qed.

Lemma radix_base base s digits b : radix base s digits b -> (base = 0 \/ 2 <= base <= 36) /\ 2 <= b <= 36.
Proof. intros []; lia. Qed.

(** Text that selects a base begins with a digit or letter. *)
Lemma radix_head base s b ds rest :
  radix base s (ds ++ rest) b -> ds <> [] -> Forall (is_digit_of b) ds ->
  isspace (char_at s 0) = false /\ 48 <= char_at s 0.
Proof.
  intros Hr Hne Hd. assert (Hh : 48 <= char_at s 0).
  { destruct ds as [|c ds]; [done|]. apply Forall_cons_1 in Hd as [Hc _].
    apply is_digit_head in Hc. inversion Hr; subst; cbn; lia. }
  split; [|done]. unfold isspace. lia.
Qed.

Lemma clamp_true unsigned negative n :
  ULONG_MAX < n -> clamp unsigned negative n =
  ((if unsigned then ULONG_MAX else if negative then LONG_MIN else LONG_MAX), true).
Proof.
  intros H. unfold clamp, ULONG_MAX, LONG_MIN, LONG_MAX in *.
  destruct unsigned; [rewrite (proj2 (Z.leb_gt n (B - 1))) by lia; done|].
  destruct (_ && _) eqn:E; [|done]. zbool. destruct negative; unfold B, BH in *; lia.
Qed.

Lemma signed_return (negative : bool) n :
  0 <= n < B ->
  (if (if negative then BH else LONG_MAX) <? n
   then ((if negative then LONG_MIN else LONG_MAX), true)
   else (S64 (if negative then U64 (- n) else n), false)) = clamp false negative n.
Proof.
  intros Hn. unfold clamp, LONG_MIN, LONG_MAX.
  destruct negative.
  - rewrite S64_U64. destruct (Z.ltb_spec BH n).
    + rewrite (proj2 (Z.leb_gt (- BH) (- n))) by lia. done.
    + rewrite (proj2 (Z.leb_le (- BH) (- n))), (proj2 (Z.leb_le (- n) (BH - 1))) by (unfold BH in *; lia).
      rewrite S64_small by (unfold is_cell, BH in *; lia). done.
  - rewrite (proj2 (Z.leb_le (- BH) n)) by (unfold BH; lia). cbn [andb].
    destruct (Z.ltb_spec (BH - 1) n).
    + rewrite (proj2 (Z.leb_gt n (BH - 1))) by lia. done.
    + rewrite (proj2 (Z.leb_le n (BH - 1))) by lia.
      rewrite S64_small by (unfold is_cell, BH in *; lia). done.
Qed.

Lemma strtol_spec unsigned negative base ws sg s b ds rest :
  Forall (fun c => isspace c = true) ws -> sign_text negative sg ->
  radix base s (ds ++ rest) b -> ds <> [] -> Forall (is_digit_of b) ds -> digits_end b rest ->
  strtol unsigned (ws ++ sg ++ s) base =
  ((clamp unsigned negative (num b 0 ds)).1, rest, (clamp unsigned negative (num b 0 ds)).2).
Proof.
  intros Hws Hsg Hr Hne Hd He. destruct (radix_base _ _ _ _ Hr) as [Hbase Hb].
  destruct (radix_head _ _ _ _ _ Hr Hne Hd) as [Hsp H48].
  unfold strtol. replace ((base <? 0) || (base =? 1) || (36 <? base)) with false by lia.
  rewrite strtol_space_app;
    [|done|destruct negative; cbn in Hsg; [by subst sg|by destruct Hsg as [-> | ->]]].
  assert (Hsign : (char_at (sg ++ s) 0 =? 0) = false /\
    (if char_at (sg ++ s) 0 =? 45 then (true, drop 1 (sg ++ s))
     else if char_at (sg ++ s) 0 =? 43 then (false, drop 1 (sg ++ s))
     else (false, sg ++ s)) = (negative, s)).
  { destruct negative; cbn in Hsg; [subst sg; by split|]. destruct Hsg as [-> | ->]; [|by split]. cbn [app].
    rewrite !(proj2 (Z.eqb_neq (char_at s 0) _)) by lia. done. }
  destruct Hsign as [-> ->]. rewrite (strtol_base_radix _ _ _ _ Hr). cbv zeta.
  destruct (strtol_loop_spec b ds rest 0) as (i & -> & Hi); [lia|unfold ULONG_MAX; wrap_lia|done|done|].
  rewrite (proj2 (Nat.eqb_neq _ _)) by (rewrite length_app; destruct ds; [done|cbn; lia]).
  pose proof (num_mono b 0 ds ltac:(lia) ltac:(lia) Hd) as Hn.
  destruct (Z.ltb_spec ULONG_MAX (num b 0 ds)) as [Ho|Ho].
  - rewrite clamp_true by done. destruct unsigned; [done|]. by destruct (_ <? i).
  - rewrite Hi by done. set (n := num b 0 ds) in *.
    change (U64 (- U64 LONG_MIN)) with BH. unfold clamp, ULONG_MAX, LONG_MAX, LONG_MIN in *.
    destruct unsigned; [rewrite (proj2 (Z.leb_le n (B - 1))) by lia|];
      [destruct negative; [done|by rewrite U64_small by (unfold is_ucell; lia)]|].
    pose proof (signed_return negative n ltac:(lia)) as K. unfold clamp, LONG_MIN, LONG_MAX in K.
    rewrite <- K. by destruct (_ <? n).
Qed.

(** The units of the comment in [convsize]. *)
Definition size_units (elemsize : Z) : list (list Z * Z) :=
  [([98], 1); ([107], 2 ^ 10); ([77], 2 ^ 20); ([71], 2 ^ 30); ([84], 2 ^ 40);
   ([101], elemsize); ([], elemsize)].

Lemma streq_spec s t : streq s t = true <-> s = t.
Proof. unfold streq. by rewrite bool_decide_eq_true. Qed.

Lemma convsize_decimal ds suffix elemsize :
  ds <> [] -> Forall (is_digit_of 10) ds -> char_at ds 0 <> 48 -> digits_end 10 suffix ->
  num 10 0 ds < B ->
  (forall unit, In (suffix, unit) (size_units elemsize) ->
     convsize (ds ++ suffix) elemsize = U64 (num 10 0 ds * unit)) /\
  ((forall unit, ~ In (suffix, unit) (size_units elemsize)) -> convsize (ds ++ suffix) elemsize = B - 1).
Proof.
  intros Hne Hd H0 He Hn. unfold convsize.
  assert (Hr : radix 0 (ds ++ suffix) (ds ++ suffix) 10).
  { destruct ds as [|c ds]; [done|]. by apply radix_decimal. }
  pose proof (strtol_spec true false 0 [] [] _ 10 ds suffix ltac:(constructor) ltac:(by left) Hr Hne Hd He) as E.
  cbn [app] in E. rewrite E. unfold clamp, ULONG_MAX.
  pose proof (num_mono 10 0 ds ltac:(lia) ltac:(lia) Hd).
  rewrite (proj2 (Z.leb_le (num 10 0 ds) (B - 1))), U64_small by (unfold is_ucell; lia).
  cbn [fst snd].
  split.
  - intros unit Hu. unfold size_units in Hu.
    repeat (destruct Hu as [[= <- <-]|Hu]; [reflexivity|]). destruct Hu.
  - intros Hu. repeat match goal with
    | |- context [streq suffix ?t] =>
        let K := fresh in destruct (streq suffix t) eqn:K;
        [apply streq_spec in K; subst suffix; exfalso; eapply Hu; unfold size_units; cbn; tauto|]
    end. reflexivity.
Qed.

(** ** Properties *)

(** C30: [strtol] and [strtoul] convert the longest digit string after white
    space, sign and base prefix exactly, stop at the first other character,
    and on overflow return the bound of their type and report [ERANGE]. *)
Theorem strtol_exact unsigned negative base ws sg s b ds rest :
  Forall (fun c => isspace c = true) ws -> sign_text negative sg ->
  radix base s (ds ++ rest) b -> ds <> [] -> Forall (is_digit_of b) ds -> digits_end b rest ->
  strtol unsigned (ws ++ sg ++ s) base =
  ((clamp unsigned negative (num b 0 ds)).1, rest, (clamp unsigned negative (num b 0 ds)).2).
Proof. intros. by apply strtol_spec. Qed.

(** " -0x8000000000000000z" is the least long; one more is out of range. *)
Lemma strtol_exact_witness :
  strtol false (([32] ++ [45]) ++ [48; 120; 70; 122]) 0 = (-15, [122], false) /\
  strtol false ([45; 57] ++ replicate 18 57 ++ [32]) 10 = (- BH, [32], true).
Proof.
  split; [|by vm_compute].
  apply (strtol_exact false true 0 [32] [45] [48; 120; 70; 122] 16 [70] [122]); try done.
  - by constructor.
  - apply radix_hex; auto.
  - apply Forall_cons_2; [by exists 15|constructor].
  - right. intros (v & Hv & Hl). vm_compute in Hv. injection Hv as <-. lia.
Defined.

(** A size option in decimal means its number times its unit when the
    product fits a cell, wraps modulo 2^64 otherwise, and is refused with the
    all-ones value when the unit is unknown. *)
Theorem convsize_units ds suffix elemsize :
  ds <> [] -> Forall (is_digit_of 10) ds -> char_at ds 0 <> 48 -> digits_end 10 suffix ->
  num 10 0 ds < B ->
  (forall unit, In (suffix, unit) (size_units elemsize) ->
     convsize (ds ++ suffix) elemsize = U64 (num 10 0 ds * unit)) /\
  ((forall unit, ~ In (suffix, unit) (size_units elemsize)) -> convsize (ds ++ suffix) elemsize = B - 1).
Proof. intros. by apply convsize_decimal. Qed.

Lemma convsize_units_witness :
  ((forall unit, In ([107], unit) (size_units 8) -> convsize ([50; 53] ++ [107]) 8 = U64 (25 * unit)) /\
   ((forall unit, ~ In ([107], unit) (size_units 8)) -> convsize ([50; 53] ++ [107]) 8 = B - 1)) /\
  convsize [50; 53; 107] 8 = 25600 /\ convsize [50; 53; 120] 8 = B - 1.
Proof.
  split; [|by vm_compute].
  apply (convsize_units [50; 53] [107] 8); try done.
  - apply Forall_cons_2; [by exists 2|]. apply Forall_cons_2; [by exists 5|constructor].
  - right. intros (v & Hv & Hl). vm_compute in Hv. injection Hv as <-. lia.
Defined.

(** A leading zero makes the number octal. *)
Example convsize_octal : convsize [48; 49; 48; 107] 8 = 8 * 1024.
Proof. reflexivity. Qed.
