(* ===== verification/FloatText.v ===== *)
(** * Floating-point text: [to_float], [represent] and [repstr] of
    engine/support.c

    Floats are an abstract type; the C library's [strtod], [snprintf] and
    classification functions are parameters.  Buffers and strings are lists of
    bytes.  A failed [assert] is [None]. *)
From S2P Require Import Prelude Strings Sizes.

(** ** Text to float *)

(** The scanner's variables: the position [s] (as the text that is left) and
    the buffer [cnum] up to [t]. *)
Record scan := mkScan { sc_s : list Z; sc_t : list Z }.

(** Blanks after the first one: [while s<send, if ( *s++ != ' ') goto error]. *)
Fixpoint only_blanks (s : list Z) : bool :=
  match s with
  | [] => true
  | c :: s => if negb (c =? 32) then false else only_blanks s
  end.

(** [aftersign:]; the counters count at most [u] characters each. *)
Fixpoint to_float_aftersign (dot : Z) (s t : list Z) (ndigits ndots : Z) : scan * Z * Z :=
  match s with
  | [] => (mkScan s t, ndigits, ndots)
  | c :: s' =>
      if c =? dot then to_float_aftersign dot s' (t ++ [46]) ndigits (ndots + 1)
      else if isdigit c then to_float_aftersign dot s' (t ++ [c]) (ndigits + 1) ndots
      else (mkScan s t, ndigits, ndots)
  end.

(** [edigits0:]; [None] is [goto error]. *)
Fixpoint to_float_edigits0 (s t : list Z) (edigits : Z) : option (list Z * Z) :=
  match s with
  | [] => Some (t, edigits)
  | c :: s' => if isdigit c then to_float_edigits0 s' (t ++ [c]) (edigits + 1) else None
  end.

(** The optional [e-char] and the optional sign of the exponent. *)
Definition skip_echar (s : list Z) : list Z :=
  match s with
  | c :: s' => if (c =? 68) || (c =? 100) || (c =? 69) || (c =? 101) then s' else s
  | [] => s
  end.
Definition exponent_sign (s t : list Z) : scan :=
  match s with
  | c :: s' => if (c =? 43) || (c =? 45) then mkScan s' (t ++ [c]) else mkScan s t
  | [] => mkScan s t
  end.

(** [exponent:] *)
Definition to_float_exponent (s t : list Z) (ndigits ndots : Z) : option (list Z * Z) :=
  if (ndigits <? 1) || (1 <? ndots) then None
  else
    let t := t ++ [69] in
    let s := skip_echar s in
    let sc := exponent_sign s t in
    to_float_edigits0 (sc_s sc) (sc_t sc) 0.

Inductive conversion :=
| Return0             (** [goto return0] *)
| ConvError           (** [goto error] *)
| Done (cnum : list Z) (** [goto done]; the buffer without its NUL *).

Definition to_float_scan (c_addr : list Z) (dot : Z) : conversion :=
  match c_addr with
  | [] => Return0
  | c :: s =>
      if c =? 32 then (if only_blanks s then Return0 else ConvError)
      else
        let '(s, t) := if (c =? 45) || (c =? 43) then (s, [c]) else (c_addr, []) in
        let '(sc, ndigits, ndots) := to_float_aftersign dot s t 0 0 in
        match to_float_exponent (sc_s sc) (sc_t sc) ndigits ndots with
        | None => ConvError
        | Some (t, edigits) => Done (if edigits =? 0 then t ++ [48] else t)
        end
  end.

Section FLOAT.
Context {Float : Type} (zero : Float).
(** [strtod(cnum, &endconv)]: the value and the text at [endconv]. *)
Context (strtod : list Z -> Float * list Z).

(** The flag and [*rp]. *)
Definition to_float (c_addr : list Z) (dot : Z) : option (Z * Float) :=
  match to_float_scan c_addr dot with
  | Return0 => Some (-1, zero)
  | ConvError => Some (0, zero)
  | Done cnum =>
      (* assert(t-cnum <= u+3), the NUL included *)
      if (length cnum + 1 <=? length c_addr + 3)%nat then
        let '(r, endconv) := strtod cnum in
        match endconv with [] => Some (-1, r) | _ => None end
      else None
  end.

(** ** Float to text *)

(** [t] receives [s], cut or padded with blanks to [u] characters. *)
Definition repstr (s : list Z) (u : nat) : list Z :=
  let slen := if (u <? length s)%nat then u else length s in
  take slen s ++ replicate (u - slen) 32.

(** What the C library says about a float: [isnan], [signbit], [isinf], and
    the text [snprintf] makes of "%.*e" for a precision and [fabs(r)]. *)
Context (isnan : Float -> bool) (signbit : Float -> bool) (isinf : Float -> bool).
Context (format_e : Z -> Float -> list Z).

(** The loop that copies the digits and stops at the first other character
    but the decimal point; the text ends with a NUL. *)
Fixpoint copy_digits (s t : list Z) : list Z * list Z :=
  match s with
  | [] => (t, s)
  | c :: s' =>
      if isdigit c then copy_digits s' (t ++ [c])
      else if negb (c =? 46) then (t, s)
      else copy_digits s' t
  end.

(** C's [(int)u]; [atoi] is [strtol] cut to an [int]. *)
Definition atoi (s : list Z) : Z := S32 (strtol false s 10).1.1.

Record represented := mkRep {
  rep_text : list Z;   (** the [u] bytes at [c_addr] *)
  rep_decpt : Z;       (** [*np] *)
  rep_sign : Z;
  rep_ok : Z;
}.

(** [None]: an assertion fails, which happens after the digits were stored. *)
Definition represent (r : Float) (u : nat) : option represented :=
  if isnan r then Some (mkRep (repstr [78; 97; 78] u) 0 0 0)
  else
    let sign := FLAG (signbit r) in
    if isinf r then
      let infinity := [105; 110; 102; 105; 110; 105; 116; 121] in
      if negb (sign =? 0) && (0 <? u)%nat
      then Some (mkRep (45 :: repstr infinity (u - 1)) 0 sign 0)
      else Some (mkRep (repstr infinity u) 0 sign 0)
    else
      let buf := take (u + 7) (format_e (S32 (Z.of_nat u) - 1) r) ++ [0] in
      let '(t, s) := copy_digits buf [] in
      if (length t =? u)%nat then
        match s with
        | 101 :: s =>
            let s := match s with 43 :: s' => s' | _ => s end in
            let s := take (length s - 1) s in
            Some (mkRep t (atoi s + 1) sign (-1))
        | _ => None
        end
      else None.
End FLOAT.

(** ** The grammar of the comment in [to_float]

    Each text form comes with the form handed to [strtod]: the point written
    as a period, the exponent always present, with an [E] and a digit. *)

Definition digits (l : list Z) : Prop := Forall (fun c => isdigit c = true) l.
Definition sign_opt (l : list Z) : Prop := l = [] \/ l = [43] \/ l = [45].
Definition is_echar (c : Z) : bool := (c =? 68) || (c =? 100) || (c =? 69) || (c =? 101).

Inductive significand (dot : Z) : list Z -> Prop :=
| sig_int d : d <> [] -> digits d -> significand dot d
| sig_point d d0 : d <> [] -> digits d -> digits d0 -> significand dot (d ++ dot :: d0)
| sig_frac d : d <> [] -> digits d -> significand dot (dot :: d).

Inductive marker : list Z -> list Z -> Prop :=
| marker_e c sg : is_echar c = true -> sign_opt sg -> marker (c :: sg) sg
| marker_sign c : c = 43 \/ c = 45 -> marker [c] [c].

Definition or_zero (d : list Z) : list Z := match d with [] => [48] | _ => d end.

Inductive exponent : list Z -> list Z -> Prop :=
| exp_none : exponent [] [48]
| exp_some m sg d0 : marker m sg -> digits d0 -> exponent (m ++ d0) (sg ++ or_zero d0).

Definition point (dot c : Z) : Z := if c =? dot then 46 else c.

Inductive float_text (dot : Z) : list Z -> list Z -> Prop :=
| float_parts sg sig ex exl :
    sign_opt sg -> significand dot sig -> exponent ex exl ->
    float_text dot (sg ++ sig ++ ex) (sg ++ map (point dot) sig ++ 69 :: exl).

(** The decimal literals of C with an exponent. *)
Inductive c_literal : list Z -> Prop :=
| c_literal_parts sg sig sge d :
    sign_opt sg -> significand 46 sig -> sign_opt sge -> digits d -> d <> [] ->
    c_literal (sg ++ sig ++ 69 :: sge ++ d).

(** A decimal point that cannot be read as another part. *)
Definition good_dot (dot : Z) : Prop :=
  isdigit dot = false /\ is_echar dot = false /\ dot <> 32 /\ dot <> 43 /\ dot <> 45.

Definition blank (l : list Z) : Prop := Forall (fun c => c = 32) l.

(** ** Lemmas *)

Lemma isdigit_range c : isdigit c = true <-> 48 <= c <= 57.
Proof. unfold isdigit. lia. Qed.

Lemma is_echar_cases c : is_echar c = true <-> c = 68 \/ c = 100 \/ c = 69 \/ c = 101.
Proof. unfold is_echar. lia. Qed.

Lemma only_blanks_spec l : only_blanks l = true <-> blank l.
Proof.
  induction l as [|c l IH]; cbn; [split; [constructor|done]|]. unfold blank in *.
  rewrite Forall_cons_iff. destruct (Z.eqb_spec c 32); cbn [negb]; [rewrite IH; tauto|].
  split; [done|tauto].
Qed.

(** *** The significand *)

Definition ndigits (l : list Z) : Z := Z.of_nat (length (filter (fun c => isdigit c = true) l)).
Definition ndots (dot : Z) (l : list Z) : Z := Z.of_nat (length (filter (fun c => c = dot) l)).
Definition dotdig (dot c : Z) : Prop := c = dot \/ isdigit c = true.

Lemma counts_app dot l k :
  ndigits (l ++ k) = ndigits l + ndigits k /\ ndots dot (l ++ k) = ndots dot l + ndots dot k.
Proof. unfold ndigits, ndots. rewrite !list.filter_app, !length_app. lia. Qed.

Lemma counts_cons_dot dot l :
  isdigit dot = false -> ndigits (dot :: l) = ndigits l /\ ndots dot (dot :: l) = 1 + ndots dot l.
Proof.
  intros H. unfold ndigits, ndots. rewrite filter_cons_False, filter_cons_True by (rewrite ?H; done).
  cbn [length]. lia.
Qed.

Lemma counts_cons_digit dot c l :
  isdigit dot = false -> isdigit c = true ->
  ndigits (c :: l) = 1 + ndigits l /\ ndots dot (c :: l) = ndots dot l.
Proof.
  intros H Hc. assert (c <> dot) by (intros ->; congruence).
  unfold ndigits, ndots. rewrite filter_cons_True, filter_cons_False by done. cbn [length]. lia.
Qed.

Lemma counts_digits dot d :
  isdigit dot = false -> digits d -> ndigits d = Z.of_nat (length d) /\ ndots dot d = 0.
Proof.
  intros H. induction 1 as [|c d Hc Hd IH]; [done|].
  destruct (counts_cons_digit dot c d H Hc) as [-> ->]. cbn [length]. lia.
Qed.

Lemma dotdig_split dot p :
  isdigit dot = false -> Forall (dotdig dot) p ->
  digits p \/ exists d p', p = d ++ dot :: p' /\ digits d /\ Forall (dotdig dot) p'.
Proof.
  intros H. induction 1 as [|c p [-> |Hc] Hp IH]; [left; constructor| |].
  - right. exists [], p. split; [done|]. split; [constructor|done].
  - destruct IH as [IH|(d & p' & -> & Hd & Hp')]; [left; by constructor|].
    right. exists (c :: d), p'. split; [done|]. split; [by constructor|done].
Qed.

Lemma significand_iff dot p :
  isdigit dot = false ->
  significand dot p <-> Forall (dotdig dot) p /\ 1 <= ndigits p /\ ndots dot p <= 1.
Proof.
  intros H. assert (Hdd : forall d, digits d -> Forall (dotdig dot) d).
  { intros d. apply Forall_impl. by right. }
  assert (Hlen : forall d : list Z, d <> [] -> 1 <= Z.of_nat (length d)).
  { intros [|? ?] ?; [done|]. cbn. lia. }
  split.
  - intros [d Hne Hd|d d0 Hne Hd Hd0|d Hne Hd].
    + destruct (counts_digits dot d H Hd) as [-> ->]. split; [auto|]. split; [auto|lia].
    + destruct (counts_app dot d (dot :: d0)) as [-> ->].
      destruct (counts_cons_dot dot d0 H) as [-> ->].
      destruct (counts_digits dot d H Hd) as [-> ->], (counts_digits dot d0 H Hd0) as [-> ->].
      split; [|specialize (Hlen d Hne); lia]. apply Forall_app. split; [auto|].
      constructor; [by left|auto].
    + destruct (counts_cons_dot dot d H) as [-> ->], (counts_digits dot d H Hd) as [-> ->].
      split; [constructor; [by left|auto]|]. specialize (Hlen d Hne). lia.
  - intros (Hp & Hn & Ht). destruct (dotdig_split dot p H Hp) as [Hd|(d & p' & -> & Hd & Hp')].
    + apply sig_int; [|done]. intros ->. unfold ndigits in Hn. cbn in Hn. lia.
    + destruct (counts_app dot d (dot :: p')) as [E1 E2].
      destruct (counts_cons_dot dot p' H) as [E3 E4], (counts_digits dot d H Hd) as [E5 E6].
      destruct (dotdig_split dot p' H Hp') as [Hd'|(d2 & p2 & -> & _)].
      * destruct d as [|c d]; [|by apply sig_point]. apply sig_frac; [|done].
        intros ->. change (ndigits []) with 0 in *. lia.
      * destruct (counts_app dot d2 (dot :: p2)) as [_ E7], (counts_cons_dot dot p2 H) as [_ E8].
        unfold ndots in *. lia.
Qed.

Lemma aftersign_spec dot p rest t n k :
  isdigit dot = false -> Forall (dotdig dot) p ->
  (match rest with [] => True | c :: _ => ~ dotdig dot c end) ->
  to_float_aftersign dot (p ++ rest) t n k =
  (mkScan rest (t ++ map (point dot) p), n + ndigits p, k + ndots dot p).
Proof.
  intros H Hp Hr. revert t n k. induction Hp as [|c p Hc Hp IH]; intros t n k.
  - cbn [app map]. rewrite app_nil_r, !Z.add_0_r. destruct rest as [|c rest]; [done|].
    cbn [to_float_aftersign]. destruct (Z.eqb_spec c dot); [destruct Hr; by left|].
    destruct (isdigit c) eqn:E; [destruct Hr; by right|done].
  - cbn [app to_float_aftersign map]. unfold point at 1. destruct (Z.eqb_spec c dot) as [->|Hne].
    + rewrite IH, <- app_assoc. destruct (counts_cons_dot dot p H) as [-> ->].
      f_equal. lia.
    + destruct Hc as [?|Hc]; [done|]. rewrite Hc, IH, <- app_assoc.
      destruct (counts_cons_digit dot c p H Hc) as [-> ->]. f_equal. f_equal. lia.
Qed.

(** Every text is a maximal run of digits and points and a rest. *)
Lemma dotdig_span dot s :
  exists p rest, s = p ++ rest /\ Forall (dotdig dot) p /\
    match rest with [] => True | c :: _ => ~ dotdig dot c end.
Proof.
  induction s as [|c s (p & rest & -> & Hp & Hr)]; [by exists [], []|].
  destruct (decide (c = dot)) as [->|Hn].
  { exists (dot :: p), rest. split; [done|]. split; [by constructor; [left|]|done]. }
  destruct (isdigit c) eqn:E.
  - exists (c :: p), rest. split; [done|]. split; [by constructor; [right|]|done].
  - exists [], (c :: p ++ rest). split; [done|]. split; [done|]. intros [?|?]; [done|congruence].
Qed.

(** *** The exponent *)

Lemma edigits0_spec s t e :
  (digits s -> to_float_edigits0 s t e = Some (t ++ s, e + Z.of_nat (length s))) /\
  (~ digits s -> to_float_edigits0 s t e = None).
Proof.
  revert t e. induction s as [|c s IH]; intros t e.
  - split; [|intros []; constructor]. intros _. cbn. by rewrite app_nil_r, Z.add_0_r.
  - cbn [to_float_edigits0 length]. destruct (isdigit c) eqn:E.
    + destruct (IH (t ++ [c]) (e + 1)) as [I1 I2]. split; intros H.
      * apply Forall_cons_1 in H as [_ H]. rewrite (I1 H), <- app_assoc. f_equal. f_equal. lia.
      * apply I2. intros H'. apply H. by constructor.
    + split; [|done]. intros H. apply Forall_cons_1 in H as [H _]. congruence.
Qed.

Lemma skip_echar_hit c s : is_echar c = true -> skip_echar (c :: s) = s.
Proof. intros H. cbn. fold (is_echar c). by rewrite H. Qed.
Lemma skip_echar_miss s :
  match s with [] => True | c :: _ => is_echar c = false end -> skip_echar s = s.
Proof. destruct s as [|c s]; [done|]. intros H. cbn. fold (is_echar c). by rewrite H. Qed.
Lemma exponent_sign_hit c s t :
  c = 43 \/ c = 45 -> exponent_sign (c :: s) t = mkScan s (t ++ [c]).
Proof. by intros [-> | ->]. Qed.
Lemma exponent_sign_miss s t :
  match s with [] => True | c :: _ => c <> 43 /\ c <> 45 end -> exponent_sign s t = mkScan s t.
Proof.
  destruct s as [|c s]; [done|]. intros [H1 H2]. cbn.
  by rewrite (proj2 (Z.eqb_neq c 43)), (proj2 (Z.eqb_neq c 45)) by done.
Qed.

Lemma digits_head d : digits d -> match d with [] => True | c :: _ => 48 <= c <= 57 end.
Proof. intros H. destruct d as [|c d]; [done|]. apply Forall_cons_1 in H as [H _]. by apply isdigit_range. Qed.

Lemma exponent_sign_opt sg d t :
  sign_opt sg -> digits d -> exponent_sign (sg ++ d) t = mkScan d (t ++ sg).
Proof.
  intros [-> | [-> | ->]] Hd; [|by apply exponent_sign_hit; auto..].
  rewrite app_nil_r. apply exponent_sign_miss. apply digits_head in Hd.
  cbn. destruct d; [done|]. lia.
Qed.

(** The text of an exponent is scanned into the form for [strtod]. *)
Definition finish (r : list Z * Z) : list Z := if r.2 =? 0 then r.1 ++ [48] else r.1.

Lemma finish_spec t d : finish (t ++ d, 0 + Z.of_nat (length d)) = t ++ or_zero d.
Proof.
  unfold finish. cbn [fst snd]. destruct d as [|c d]; cbn [or_zero length].
  - by rewrite app_nil_r.
  - by rewrite (proj2 (Z.eqb_neq _ 0)) by lia.
Qed.

Lemma exponent_run ex exl t n k :
  exponent ex exl -> 1 <= n -> k <= 1 ->
  exists r, to_float_exponent ex t n k = Some r /\ finish r = t ++ 69 :: exl.
Proof.
  intros He Hn Hk. unfold to_float_exponent.
  rewrite (proj2 (Z.ltb_ge n 1)), (proj2 (Z.ltb_ge 1 k)) by lia. cbn [orb].
  destruct He as [|m sg d0 Hm Hd].
  { eexists. split; [reflexivity|]. cbn. by rewrite <- app_assoc. }
  assert (E : exponent_sign (skip_echar (m ++ d0)) (t ++ [69]) = mkScan d0 ((t ++ [69]) ++ sg)).
  { destruct Hm as [c sg Hc Hs|c Hc].
    - cbn [app]. rewrite skip_echar_hit by done. by apply exponent_sign_opt.
    - cbn [app]. rewrite skip_echar_miss; [by apply exponent_sign_hit|].
      unfold is_echar. destruct Hc as [-> | ->]; done. }
  rewrite E. cbn [sc_s sc_t]. eexists.
  split; [by apply (edigits0_spec d0 ((t ++ [69]) ++ sg) 0)|].
  rewrite finish_spec, <- !app_assoc. done.
Qed.

Lemma exponent_accepts ex t n k r :
  match ex with [] => True | c :: _ => isdigit c = false end ->
  to_float_exponent ex t n k = Some r -> 1 <= n /\ k <= 1 /\ exists exl, exponent ex exl.
Proof.
  intros Hh. unfold to_float_exponent. destruct (_ || _) eqn:E; [done|]. zbool.
  intros Hr. split; [done|]. split; [done|].
  assert (Hd : digits (sc_s (exponent_sign (skip_echar ex) (t ++ [69])))).
  { destruct (decide (Forall (fun c => isdigit c = true) (sc_s (exponent_sign (skip_echar ex) (t ++ [69]))))) as [D|D];
      [done|]. rewrite (proj2 (edigits0_spec _ _ _) D) in Hr. done. }
  clear Hr. destruct ex as [|c ex]; [exists [48]; constructor|].
  assert (Hsg : forall s, digits (sc_s (exponent_sign s (t ++ [69]))) ->
    exists sg d, s = sg ++ d /\ sign_opt sg /\ digits d).
  { intros [|c' s] Hs; [exists [], []; repeat split; [by left|constructor]|].
    destruct (decide (c' = 43 \/ c' = 45)) as [Hc|Hc].
    - rewrite exponent_sign_hit in Hs by done. exists [c'], s.
      repeat split; [|done]. destruct Hc as [-> | ->]; unfold sign_opt; auto.
    - rewrite exponent_sign_miss in Hs by (split; intros ->; tauto).
      exists [], (c' :: s). repeat split; [by left|done]. }
  destruct (is_echar c) eqn:Ec.
  - rewrite skip_echar_hit in Hd by done. destruct (Hsg _ Hd) as (sg & d & -> & Hs & Hd').
    exists (sg ++ or_zero d). apply (exp_some (c :: sg)); [by constructor|done].
  - rewrite skip_echar_miss in Hd by done. destruct (decide (c = 43 \/ c = 45)) as [Hc|Hc].
    + rewrite exponent_sign_hit in Hd by done. exists ([c] ++ or_zero ex).
      apply (exp_some [c]); [by constructor|done].
    + rewrite exponent_sign_miss in Hd by (split; intros ->; tauto).
      apply Forall_cons_1 in Hd as [Hd _]. congruence.
Qed.

(** *** The scanner *)

Lemma exponent_head dot ex exl :
  good_dot dot -> exponent ex exl -> match ex with [] => True | c :: _ => ~ dotdig dot c end.
Proof.
  intros (_ & He & _ & Hp & Hm). intros [|m sg d0 [c sg' Hc _|c Hc] _]; [done| |]; cbn; unfold dotdig.
  - apply is_echar_cases in Hc as Hc'. rewrite isdigit_range. intros [-> |?]; [congruence|lia].
  - rewrite isdigit_range. lia.
Qed.

Lemma significand_head dot sig :
  good_dot dot -> significand dot sig ->
  match sig with [] => False | c :: _ => c <> 32 /\ c <> 43 /\ c <> 45 end.
Proof.
  intros (_ & _ & H1 & H2 & H3) Hs.
  assert (Hd : forall d k, d <> [] -> digits d ->
    match d ++ k with [] => False | c :: _ => c <> 32 /\ c <> 43 /\ c <> 45 end).
  { intros [|c d] k ? Hd; [done|]. apply digits_head in Hd. cbn. lia. }
  destruct Hs as [d ? ?|d d0 ? ? _|d ? ?]; [|by apply Hd|done].
  rewrite <- (app_nil_r d). by apply Hd.
Qed.

Lemma scan_after_sign dot sig ex exl t :
  good_dot dot -> significand dot sig -> exponent ex exl ->
  exists r, (let '(sc, nd, nt) := to_float_aftersign dot (sig ++ ex) t 0 0 in
             to_float_exponent (sc_s sc) (sc_t sc) nd nt) = Some r /\
    finish r = t ++ map (point dot) sig ++ 69 :: exl.
Proof.
  intros Hg Hs He. pose proof Hg as (Hd & _). destruct (proj1 (significand_iff dot sig Hd) Hs) as (Hp & Hn & Hk).
  rewrite aftersign_spec by (try done; by eapply exponent_head). cbn [sc_s sc_t].
  destruct (exponent_run ex exl (t ++ map (point dot) sig) (0 + ndigits sig) (0 + ndots dot sig) He)
    as (r & Hr & Hf); [lia|lia|]. exists r. split; [done|]. by rewrite Hf, <- app_assoc.
Qed.

Lemma scan_float_text dot l lit :
  good_dot dot -> float_text dot l lit -> to_float_scan l dot = Done lit.
Proof.
  intros Hg [sg sig ex exl Hsg Hs He].
  pose proof (significand_head dot sig Hg Hs) as Hh.
  destruct (scan_after_sign dot sig ex exl sg Hg Hs He) as (r & Hr & Hf). rewrite <- Hf.
  unfold to_float_scan, finish.
  destruct Hsg as [-> | [-> | ->]].
  - cbn [app] in *. destruct sig as [|c sig]; [done|]. cbn [app] in *.
    rewrite !(proj2 (Z.eqb_neq c _)) by tauto. cbn [orb].
    destruct (to_float_aftersign _ _ _ _ _) as [[sc nd] nt]. by rewrite Hr; destruct r.
  - cbn [app]. change (43 =? 32) with false. change ((43 =? 45) || (43 =? 43)) with true. cbv beta iota.
    destruct (to_float_aftersign _ _ _ _ _) as [[sc nd] nt]. by rewrite Hr; destruct r.
  - cbn [app]. change (45 =? 32) with false. change ((45 =? 45) || (45 =? 43)) with true. cbv beta iota.
    destruct (to_float_aftersign _ _ _ _ _) as [[sc nd] nt]. by rewrite Hr; destruct r.
Qed.

Lemma scan_blank dot l : to_float_scan l dot = Return0 <-> blank l.
Proof.
  destruct l as [|c l]; [split; [constructor|done]|]. cbn [to_float_scan].
  unfold blank. rewrite Forall_cons_iff. pose proof (only_blanks_spec l) as Hb. unfold blank in Hb.
  destruct (Z.eqb_spec c 32) as [->|Hc].
  - destruct (only_blanks l); split; try done.
    + intros _. split; [done|]. by apply Hb.
    + intros [_ H]. by apply Hb in H.
  - split; [|tauto]. destruct ((c =? 45) || (c =? 43));
      destruct (to_float_aftersign _ _ _ _ _) as [[sc nd] nt];
      by destruct (to_float_exponent _ _ _ _) as [[? ?]|].
Qed.

Lemma scan_done dot l cnum :
  good_dot dot -> to_float_scan l dot = Done cnum -> exists lit, float_text dot l lit.
Proof.
  intros Hg. pose proof Hg as (Hd & _).
  assert (Hgo : forall sg s, sign_opt sg ->
    (exists r, (let '(sc, nd, nt) := to_float_aftersign dot s sg 0 0 in
       to_float_exponent (sc_s sc) (sc_t sc) nd nt) = Some r) ->
    exists lit, float_text dot (sg ++ s) lit).
  { intros sg s Hsg [r Hr]. destruct (dotdig_span dot s) as (p & rest & -> & Hp & Hrest).
    rewrite aftersign_spec in Hr by done. cbn [sc_s sc_t] in Hr.
    apply exponent_accepts in Hr as (Hn & Hk & exl & He).
    - eexists. apply float_parts; [done| |exact He]. apply significand_iff; [done|]. split; [done|lia].
    - destruct rest as [|c rest]; [done|]. destruct (isdigit c) eqn:E; [|done]. destruct Hrest. by right. }
  destruct l as [|c l]; [done|]. cbn [to_float_scan].
  destruct (Z.eqb_spec c 32); [by destruct (only_blanks l)|].
  destruct ((c =? 45) || (c =? 43)) eqn:E; intros Hs.
  - apply (Hgo [c] l).
    + unfold sign_opt. zbool. destruct E; zbool; subst; auto.
    + destruct (to_float_aftersign _ _ _ _ _) as [[sc nd] nt].
      destruct (to_float_exponent _ _ _ _); [by eexists|done].
  - apply (Hgo [] (c :: l)); [by left|].
    destruct (to_float_aftersign _ _ _ _ _) as [[sc nd] nt].
    destruct (to_float_exponent _ _ _ _); [by eexists|done].
Qed.

(** What reaches [strtod] is a literal, and it fits the buffer. *)
Lemma float_text_literal dot l lit :
  good_dot dot -> float_text dot l lit -> c_literal lit /\ (length lit + 1 <= length l + 3)%nat.
Proof.
  intros (Hd & _) [sg sig ex exl Hsg Hs He].
  assert (Hmd : forall d, digits d -> map (point dot) d = d).
  { intros d. induction 1 as [|c d Hc _ IH]; [done|]. cbn. rewrite IH. unfold point.
    destruct (Z.eqb_spec c dot); [congruence|done]. }
  assert (Hm : significand 46 (map (point dot) sig)).
  { destruct Hs as [d Hne Hdd|d d0 Hne Hdd Hd0|d Hne Hdd]; rewrite ?map_app; cbn [map];
      rewrite ?Hmd by done; unfold point; rewrite ?Z.eqb_refl; by constructor. }
  destruct He as [|m sge d0 Hmk Hd0].
  - split; [apply (c_literal_parts sg _ [] [48]); try done; [by left|by constructor]|].
    rewrite !length_app, length_map. cbn. lia.
  - split.
    + apply (c_literal_parts sg _ sge (or_zero d0)); try done.
      * destruct Hmk as [c sg' _ ?|c [-> | ->]]; unfold sign_opt; auto.
      * destruct d0; [by constructor|done].
      * by destruct d0.
    + rewrite !length_app, length_map. cbn [length]. rewrite !length_app.
      assert (length sge <= length m /\ (d0 = [] -> 1 <= length m))%nat.
      { destruct Hmk; cbn; lia. }
      destruct d0; cbn in *; lia.
Qed.

(** *** [represent] *)

(** [e_format p s ds e]: "%.pe" in C: [p+1] digits [ds] with a point after the
    first, and the exponent [e], which has at most four digits. *)
Inductive e_format (p : Z) : list Z -> list Z -> Z -> Prop :=
| e_format_parts d ds (neg : bool) exps :
    isdigit d = true -> digits ds -> Z.of_nat (length ds) = p ->
    digits exps -> (1 <= length exps <= 4)%nat ->
    e_format p
      (d :: (match ds with [] => [] | _ => 46 :: ds end) ++ 101 :: (if neg then 45 else 43) :: exps)
      (d :: ds) (if neg then - num 10 0 exps else num 10 0 exps).

Lemma copy_digits_run ds rest t :
  digits ds -> copy_digits (ds ++ rest) t = copy_digits rest (t ++ ds).
Proof.
  intros H. revert t. induction H as [|c ds Hc _ IH]; intros t; [by rewrite app_nil_r|].
  cbn [app copy_digits]. by rewrite Hc, IH, <- app_assoc.
Qed.

Lemma digits_of ds : digits ds -> Forall (is_digit_of 10) ds.
Proof.
  apply Forall_impl. intros c Hc. exists (c - 48). unfold digit_value. rewrite Hc.
  apply isdigit_range in Hc. split; [done|lia].
Qed.

Lemma num_bound i ds :
  0 <= i -> Forall (is_digit_of 10) ds -> num 10 i ds < (i + 1) * 10 ^ Z.of_nat (length ds).
Proof.
  intros Hi Hd. revert i Hi. induction Hd as [|c ds (v & Hv & Hv10) Hd IH]; intros i Hi; [cbn; lia|].
  pose proof (digit_value_bounds _ _ Hv). cbn [num fold_left length]. rewrite Hv. cbn [from_option].
  unfold id. specialize (IH (i * 10 + v) ltac:(lia)). unfold num in IH.
  rewrite Nat2Z.inj_succ, Z.pow_succ_r by lia.
  assert (0 < 10 ^ Z.of_nat (length ds)) by (apply Z.pow_pos_nonneg; lia).
  set (P := 10 ^ Z.of_nat (length ds)) in *. eapply Z.lt_le_trans; [exact IH|].
  transitivity ((i * 10 + 10) * P); [apply Z.mul_le_mono_nonneg_r; lia|lia].
Qed.

Lemma atoi_exponent (neg : bool) exps :
  digits exps -> (1 <= length exps <= 4)%nat ->
  atoi ((if neg then [45] else []) ++ exps) = (if neg then - num 10 0 exps else num 10 0 exps).
Proof.
  intros Hd Hl. unfold atoi. apply digits_of in Hd.
  assert (Hb : 0 <= num 10 0 exps < 10000).
  { split; [by apply num_mono|]. pose proof (num_bound 0 exps ltac:(lia) Hd) as Hn.
    assert (10 ^ Z.of_nat (length exps) <= 10 ^ 4) by (apply Z.pow_le_mono_r; lia). lia. }
  pose proof (strtol_spec false neg 10 [] (if neg then [45] else []) exps 10 exps []) as E.
  rewrite app_nil_r in E. change ([] ++ (if neg then [45] else []) ++ exps)
    with ((if neg then [45] else []) ++ exps) in E. rewrite E.
  - cbn [fst]. unfold clamp, LONG_MIN, LONG_MAX.
    set (v := if neg then - num 10 0 exps else num 10 0 exps).
    assert (Hv : -10000 < v < 10000) by (unfold v; destruct neg; lia).
    replace ((- BH <=? v) && (v <=? BH - 1)) with true by (unfold BH; lia).
    cbn [fst]. wrap_lia.
  - constructor.
  - by destruct neg; [|left].
  - apply radix_given; lia.
  - intros ->. cbn in Hl. lia.
  - done.
  - done.
Qed.

Lemma repstr_length s u : length (repstr s u) = u.
Proof.
  unfold repstr. rewrite length_app, length_take, length_replicate.
  destruct (Nat.ltb_spec u (length s)); lia.
Qed.

(** A field of [u] characters that starts with [s], cut or filled with blanks. *)
Definition field (s : list Z) (u : nat) (t : list Z) : Prop :=
  length t = u /\ forall i, (i < u)%nat -> t !! i = Some (nth i s 32).

Definition NaN_text : list Z := [78; 97; 78].
Definition infinity_text (negative : bool) : list Z :=
  (if negative then [45] else []) ++ [105; 110; 102; 105; 110; 105; 116; 121].

Lemma repstr_field s u : field s u (repstr s u).
Proof.
  split; [apply repstr_length|]. intros i Hi. unfold repstr.
  set (slen := if (u <? length s)%nat then u else length s).
  assert (Hl : (slen <= length s)%nat /\ (slen <= u)%nat /\ (slen = u \/ slen = length s)).
  { unfold slen. destruct (Nat.ltb_spec u (length s)); lia. }
  destruct (decide (i < slen)%nat) as [H|H].
  - rewrite lookup_app_l by (rewrite length_take; lia). rewrite lookup_take_lt by done.
    destruct (lookup_lt_is_Some_2 s i) as [x Hx]; [lia|]. by rewrite Hx, (nth_lookup_Some _ _ _ _ Hx).
  - rewrite lookup_app_r by (rewrite length_take; lia). rewrite length_take, Nat.min_l by lia.
    rewrite lookup_replicate_2 by lia. rewrite nth_overflow by lia. done.
Qed.

Lemma field_cons c s u t : field s u t -> field (c :: s) (S u) (c :: t).
Proof. intros [Hl H]. split; [cbn; lia|]. intros [|i] Hi; [done|]. apply (H i). lia. Qed.

Lemma represent_finite {Float} isnan signbit isinf format_e (r : Float) u ds e :
  isnan r = false -> isinf r = false -> (1 <= u)%nat -> Z.of_nat u < 2147483648 ->
  e_format (Z.of_nat u - 1) (format_e (Z.of_nat u - 1) r) ds e ->
  represent isnan signbit isinf format_e r u = Some (mkRep ds (e + 1) (FLAG (signbit r)) (-1)) /\
  length ds = u.
Proof.
  intros Hn Hi Hu H31 He. unfold represent. rewrite Hn, Hi.
  replace (S32 (Z.of_nat u) - 1) with (Z.of_nat u - 1) by wrap_lia.
  destruct He as [d ds neg exps Hd Hds Hl Hex Hexl].
  assert (Hlen : length (d :: ds) = u) by (cbn [length]; lia). split; [|done].
  set (fmt := d :: _). assert (Hfl : (length fmt <= u + 7)%nat).
  { unfold fmt. cbn [length]. rewrite length_app. destruct ds; cbn in *; lia. }
  rewrite take_ge by done. cbv zeta.
  assert (E : copy_digits (fmt ++ [0]) [] = (d :: ds, 101 :: (if neg then 45 else 43) :: exps ++ [0])).
  { unfold fmt. cbn [app copy_digits]. rewrite Hd. destruct ds as [|d1 ds].
    - done.
    - change ((46 :: d1 :: ds) ++ 101 :: (if neg then 45 else 43) :: exps)
        with (46 :: (d1 :: ds) ++ 101 :: (if neg then 45 else 43) :: exps).
      rewrite <- app_comm_cons. cbn [copy_digits]. change (isdigit 46) with false.
      change (negb (46 =? 46)) with false. cbv beta iota.
      rewrite <- app_assoc, copy_digits_run by done. done. }
  rewrite E, Hlen, Nat.eqb_refl.
  assert (Hexp : forall l, take (length (l ++ [0]) - 1) (l ++ [0]) = l).
  { intros l. rewrite length_app. cbn [length]. by rewrite Nat.add_sub, take_app_length. }
  destruct neg.
  - change (45 :: exps ++ [0]) with ((45 :: exps) ++ [0]). cbv iota beta. rewrite Hexp.
    pose proof (atoi_exponent true exps Hex Hexl) as Ea. cbn [app] in Ea. by rewrite Ea.
  - cbv iota beta. rewrite Hexp. pose proof (atoi_exponent false exps Hex Hexl) as Ea.
    cbn [app] in Ea. by rewrite Ea.
Qed.

(** ** Properties *)

(** C28: [to_float] accepts exactly blank text, which is zero, and the
    convertible strings of its grammar, which have the value of the C literal
    they stand for; everything else gives a false flag.  What it passes to
    [strtod] always is a literal of C and fits the buffer, so neither
    assertion fails. *)
Theorem to_float_grammar {Float : Type} (zero : Float) strtod dot l :
  good_dot dot -> (forall s, c_literal s -> (strtod s).2 = []) ->
  (blank l -> to_float zero strtod l dot = Some (-1, zero)) /\
  (forall lit, float_text dot l lit ->
     c_literal lit /\ to_float zero strtod l dot = Some (-1, (strtod lit).1)) /\
  (~ blank l -> (forall lit, ~ float_text dot l lit) ->
     to_float zero strtod l dot = Some (0, zero)).
Proof.
  intros Hg Hst. unfold to_float. pose proof (scan_blank dot l) as Hb. split; [|split].
  - intros H. by rewrite (proj2 Hb H).
  - intros lit H. destruct (float_text_literal dot l lit Hg H) as [Hl Hlen]. split; [done|].
    rewrite (scan_float_text dot l lit Hg H), (proj2 (Nat.leb_le _ _) Hlen).
    specialize (Hst lit Hl). destruct (strtod lit) as [r e]. cbn in *. by subst e.
  - intros Hnb Hnt. destruct (to_float_scan l dot) as [| |cnum] eqn:E; [by destruct Hnb; apply Hb|done|].
    destruct (scan_done dot l cnum Hg E) as [lit H]. by destruct (Hnt lit).
Qed.

(** "-.5e" is read as "-.5E0", here with text as the float type. *)
Lemma to_float_grammar_witness :
  to_float [] (fun s => (s, [])) [45; 46; 53; 101] 46 = Some (-1, [45; 46; 53; 69; 48]) /\
  to_float [] (fun s => (s, [])) [49; 46; 46] 46 = Some (0, []).
Proof.
  split; [|reflexivity].
  apply (to_float_grammar (@nil Z) (fun s => (s, [])) 46 [45; 46; 53; 101]); [by split_and!|done|].
  apply (float_parts 46 [45] [46; 53] [101] [48]).
  - by right; right.
  - apply (sig_frac 46 [53]); [done|by constructor].
  - apply (exp_some [101] [] []); [by constructor; [|left]|constructor].
Defined.

(** C29: for a buffer of 1 to 2^31-1 characters [represent] fills exactly the
    buffer.  For a finite number that is with the digits of the C library's
    "%e" text of that many digits (which [e_format] says it produces), [*np]
    being its exponent plus one, and the sign and a true flag are returned; for
    a NaN, with "NaN" and no sign; for an infinity, with "infinity" or
    "-infinity" by its sign, which is returned.  The names are cut at the end of
    the buffer or followed by blanks, [*np] is 0 and the flag false.  The
    scratch buffer is large enough and no assertion fails. *)
Theorem represent_fills_buffer {Float : Type} isnan signbit isinf format_e (r : Float) u :
  (forall p x, 0 <= p -> isnan x = false -> isinf x = false ->
     exists ds e, e_format p (format_e p x) ds e) ->
  (1 <= u)%nat -> Z.of_nat u < 2147483648 ->
  exists rep, represent isnan signbit isinf format_e r u = Some rep /\
    length (rep_text rep) = u /\
    (rep_ok rep = 0 <-> isnan r = true \/ isinf r = true) /\
    (isnan r = true ->
       rep_sign rep = 0 /\ rep_decpt rep = 0 /\ field NaN_text u (rep_text rep)) /\
    (isnan r = false -> isinf r = true ->
       rep_sign rep = FLAG (signbit r) /\ rep_decpt rep = 0 /\
       field (infinity_text (signbit r)) u (rep_text rep)) /\
    (isnan r = false -> isinf r = false ->
       rep_ok rep = -1 /\ rep_sign rep = FLAG (signbit r) /\
       e_format (Z.of_nat u - 1) (format_e (Z.of_nat u - 1) r) (rep_text rep) (rep_decpt rep - 1)).
Proof.
  intros Hf Hu H31. destruct (isnan r) eqn:En; [|destruct (isinf r) eqn:Ei].
  - eexists. unfold represent. rewrite En. split; [reflexivity|]. cbn [rep_text rep_ok rep_sign rep_decpt].
    rewrite repstr_length. split_and!; try done; [tauto|]. intros _. split_and!; [done..|apply repstr_field].
  - unfold represent. rewrite En, Ei. destruct (signbit r) eqn:Es; cbv zeta; cbn [FLAG negb Z.eqb andb].
    + rewrite (proj2 (Nat.ltb_lt 0 u)) by lia. eexists. split; [reflexivity|].
      cbn [rep_text rep_ok rep_sign rep_decpt length]. rewrite repstr_length. split_and!; try done; [lia|tauto|].
      intros _ _. split_and!; [done..|]. destruct u as [|u]; [lia|]. cbn [infinity_text app].
      rewrite Nat.sub_succ, Nat.sub_0_r. apply field_cons, repstr_field.
    + eexists. split; [reflexivity|]. cbn [rep_text rep_ok rep_sign rep_decpt]. rewrite repstr_length.
      split_and!; try done; [tauto|]. intros _ _. split_and!; [done..|apply repstr_field].
  - destruct (Hf (Z.of_nat u - 1) r ltac:(lia) En Ei) as (ds & e & He).
    destruct (represent_finite isnan signbit isinf format_e r u ds e En Ei Hu H31 He) as [-> Hl].
    eexists. split; [reflexivity|]. cbn [rep_text rep_ok rep_sign rep_decpt].
    split_and!; try done; [split; [done|by intros []]|]. intros _ _. split_and!; [done..|].
    by replace (e + 1 - 1) with e by lia.
Qed.

(** A format function for zero: "0.000e+00". *)
Definition zero_format (p : Z) (_ : unit) : list Z :=
  48 :: (if p =? 0 then [] else 46 :: replicate (Z.to_nat p) 48) ++ [101; 43; 48; 48].

Lemma zero_format_ok p : 0 <= p -> e_format p (zero_format p tt) (48 :: replicate (Z.to_nat p) 48) 0.
Proof.
  intros Hp. assert (E : zero_format p tt = 48 ::
    (match replicate (Z.to_nat p) 48 with [] => [] | _ => 46 :: replicate (Z.to_nat p) 48 end) ++
    101 :: 43 :: [48; 48]).
  { unfold zero_format. destruct (Z.eqb_spec p 0) as [->|]; [done|].
    destruct (Z.to_nat p) eqn:E; [lia|done]. }
  rewrite E. apply (e_format_parts p 48 (replicate (Z.to_nat p) 48) false [48; 48]); try done.
  - by apply Forall_replicate.
  - rewrite length_replicate. lia.
  - by repeat constructor.
  - cbn. lia.
Qed.

(** A zero, and the negative infinity in a buffer of four characters: "-inf". *)
Lemma represent_fills_buffer_witness :
  (exists rep, represent (fun _ => false) (fun _ => false) (fun _ => false) zero_format tt 3 = Some rep /\
     rep_sign rep = 0 /\ e_format 2 (zero_format 2 tt) (rep_text rep) (rep_decpt rep - 1)) /\
  exists rep, represent (fun _ => false) (fun _ => true) (fun _ => true) zero_format tt 4 = Some rep /\
    rep_text rep = [45; 105; 110; 102] /\ field (infinity_text true) 4 (rep_text rep).
Proof.
  split.
  - destruct (represent_fills_buffer (fun _ => false) (fun _ => false) (fun _ => false) zero_format tt 3)
      as (rep & E & _ & _ & _ & _ & H); try lia.
    + intros p [] Hp _ _. do 2 eexists. by apply zero_format_ok.
    + exists rep. destruct (H eq_refl eq_refl) as (_ & Hs & He). by split_and!.
  - destruct (represent_fills_buffer (fun _ => false) (fun _ => true) (fun _ => true) zero_format tt 4)
      as (rep & E & _ & _ & _ & H & _); try lia.
    exists rep. destruct (H eq_refl eq_refl) as (_ & _ & F). split_and!; [done| |done].
    injection E as <-. reflexivity.
Defined.

(** With an empty buffer the precision is negative, the C library falls back
    to six digits, and [represent] stores past the buffer and fails. *)
Example represent_empty :
  represent (fun _ => false) (fun _ => false) (fun _ => false)
    (fun p _ => zero_format (if p <? 0 then 6 else p) tt) tt 0 = None.
Proof. reflexivity. Qed.
