(* ===== verification/Files.v ===== *)
(** * File names and file access ([tilde_cstr], [opencreate_file],
    [rename_file] and [file_status] of engine/support.c)

    The operating system is an interface: a state with the calls that the
    engine makes.  Strings are lists of bytes, C strings end at the first NUL. *)
From S2P Require Import Prelude LineIO.

(** ** The operating system *)

Class OS (W : Type) := {
  getenv : W -> list Z -> option (list Z);
  getpwnam : W -> list Z -> option (list Z);        (** the [pw_dir] *)
  access : W -> list Z -> Z -> bool;                (** the call returns 0 *)
  open : W -> list Z -> Z -> Z -> Z * W;            (** -1 on failure *)
  fdopen : W -> Z -> list Z -> Z * W;               (** NULL on failure *)
  rename : W -> list Z -> list Z -> Z * W;
  errno : W -> Z;
  fopen : W -> list Z -> option (list Z)            (** contents of a readable file *)
}.

Definition F_OK : Z := 0.
Definition W_OK : Z := 2.
Definition R_OK : Z := 4.

Definition DIRSEP : Z := 47.

(** What C sees of a buffer: the bytes before the first NUL. *)
Fixpoint c_string (l : list Z) : list Z :=
  match l with
  | [] => []
  | c :: l => if c =? 0 then [] else c :: c_string l
  end.

Section Files.
Context {W : Type} `{OS W}.

Definition HOME : list Z := [72; 79; 77; 69].

(** [for (i=1; i<size && from[i]!='/'; i++)]: the text from [i] on *)
Fixpoint to_slash (l : list Z) : nat :=
  match l with
  | [] => 0
  | c :: l => if c =? DIRSEP then 0 else S (to_slash l)
  end.

(** The directory without a trailing slash, followed by the rest. *)
Definition join_dir (s1 s2 : list Z) : list Z :=
  let s1_len := length s1 in
  let s1_len := if ((1 <? s1_len)%nat && (nth (s1_len - 1) s1 0 =? DIRSEP))%bool
                then (s1_len - 1)%nat else s1_len in
  take s1_len s1 ++ s2.

(** The result is the contents of the buffer before its NUL. *)
Definition tilde_cstr (w : W) (from : list Z) : list Z :=
  match from with
  | 126 :: rest =>
      if (length from <? 2)%nat || (nth 1 from 0 =? DIRSEP) then
        let s1 := match getenv w HOME with
                  | Some h => if access w h W_OK then h else []
                  | None => []
                  end in
        join_dir s1 rest
      else
        let i := S (to_slash rest) in
        if (i =? 2)%nat && (nth 1 from 0 =? 43) then drop 3 from
        else
          match getpwnam w (c_string (take (i - 1) rest)) with
          | None => from
          | Some dir => join_dir dir (drop i from)
          end
  | _ => from
  end.

(** [IOR(flag)] *)
Definition IOR (w : W) (flag : bool) : Z := if flag then TOIOR (errno w) else 0.

Definition rename_file (w : W) (name1 name2 : list Z) : Z * W :=
  let s1 := tilde_cstr w name2 in
  let s2 := tilde_cstr w name1 in
  let '(r, w) := rename w (c_string s2) (c_string s1) in
  (IOR w (r =? -1), w).

(** [ufileattr] and [fileattr], indexed by the low bits of [wfam]. *)
Definition O_RDONLY : Z := 0.
Definition O_WRONLY : Z := 1.
Definition O_RDWR : Z := 2.
Definition ufileattr : list Z := [O_RDONLY; O_RDONLY; O_RDWR; O_RDWR; O_WRONLY; O_WRONLY].
Definition fileattr : list (list Z) :=
  [[114; 98]; [114; 98]; [114; 43; 98]; [114; 43; 98]; [119; 98]; [119; 98]].

(** The file id and the ior; [None] when [wfam] leads outside the tables. *)
Definition opencreate_file (w : W) (s : list Z) (wfam flags : Z) : option (Z * Z * W) :=
  let i := Z.to_nat (Z.land wfam 0x0F) in
  attr ← ufileattr !! i;
  mode ← fileattr !! i;
  let '(fd, w) := open w (c_string s) (Z.lor flags attr) (Z.lxor (Z.shiftr wfam 4) 438) in
  if negb (fd =? -1) then
    let '(wfileid, w) := fdopen w fd mode in
    Some (wfileid, IOR w (wfileid =? 0), w)
  else Some (0, IOR w true, w).

(** The mode and the ior. *)
Definition file_status (w : W) (name : list Z) : Z * Z :=
  let filename := c_string (tilde_cstr w name) in
  if negb (access w filename F_OK) then (0, IOR w true)
  else if access w filename (Z.lor R_OK W_OK) then (2, 0)
  else if access w filename R_OK then (0, 0)
  else if access w filename W_OK then (4, 0)
  else (1, 0).

(** ** Lemmas *)

Lemma to_slash_app u rest :
  ~ In DIRSEP u -> to_slash (u ++ DIRSEP :: rest) = length u.
Proof.
  induction u as [|c u IH]; intros Hu; cbn [app to_slash length]; [done|].
  destruct (Z.eqb_spec c DIRSEP) as [->|]; [destruct Hu; by left|].
  rewrite IH; [done|]. intros Hi. apply Hu. by right.
Qed.

Lemma to_slash_all u : ~ In DIRSEP u -> to_slash u = length u.
Proof.
  induction u as [|c u IH]; intros Hu; cbn [to_slash length]; [done|].
  destruct (Z.eqb_spec c DIRSEP) as [->|]; [destruct Hu; by left|].
  rewrite IH; [done|]. intros Hi. apply Hu. by right.
Qed.

(** A directory name that [join_dir] leaves alone. *)
Definition no_trailing_slash (d : list Z) : Prop := forall d', d = d' ++ [DIRSEP] -> d' = [].

Lemma join_dir_plain d s : no_trailing_slash d -> join_dir d s = d ++ s.
Proof.
  intros Hd. unfold join_dir. destruct (_ && _) eqn:E; [|by rewrite take_ge by lia].
  zbool. exfalso. destruct (List.exists_last (l := d)) as (d' & x & ->); [by intros ->|].
  rewrite length_app in *. cbn [length] in *. apply Nat.ltb_lt in H0.
  rewrite app_nth2 in H1 by lia. replace (length d' + 1 - 1 - length d')%nat with 0%nat in H1 by lia.
  cbn in H1. subst x. rewrite (Hd d') in H0 by done. cbn in H0. lia.
Qed.

Lemma join_dir_slash d s : d <> [] -> join_dir (d ++ [DIRSEP]) s = d ++ s.
Proof.
  intros Hd. unfold join_dir. rewrite length_app. cbn [length].
  assert (0 < length d)%nat by (destruct d; [done|cbn; lia]).
  rewrite (proj2 (Nat.ltb_lt 1 (length d + 1))) by lia.
  rewrite app_nth2 by lia. replace (length d + 1 - 1 - length d)%nat with 0%nat by lia.
  cbn [nth andb]. rewrite Z.eqb_refl, Nat.add_sub. by rewrite take_app_length.
Qed.

(** [~], [~/...] *)
Lemma tilde_home w h rest :
  getenv w HOME = Some h -> access w h W_OK = true -> no_trailing_slash h ->
  rest = [] \/ (exists r, rest = DIRSEP :: r) -> tilde_cstr w (126 :: rest) = h ++ rest.
Proof.
  intros Hh Ha Hs Hr. cbn [tilde_cstr]. rewrite Hh, Ha.
  destruct Hr as [-> |[r ->]]; cbn [length nth]; rewrite ?Z.eqb_refl, ?orb_true_r;
    by apply join_dir_plain.
Qed.

(** [~user/...] *)
Lemma tilde_user w user dir rest :
  user <> [] -> user <> [43] -> ~ In DIRSEP user -> ~ In 0 user ->
  getpwnam w user = Some dir -> no_trailing_slash dir ->
  tilde_cstr w (126 :: user ++ DIRSEP :: rest) = dir ++ DIRSEP :: rest.
Proof.
  intros Hne Hplus Hs H0 Hp Hd. cbn [tilde_cstr].
  destruct user as [|c user]; [done|]. rewrite (proj2 (Nat.ltb_ge _ 2)) by (cbn; lia).
  cbn [nth app]. destruct (Z.eqb_spec c DIRSEP) as [->|]; [destruct Hs; by left|]. cbn [orb].
  change (c :: user ++ DIRSEP :: rest) with ((c :: user) ++ DIRSEP :: rest).
  rewrite to_slash_app by done.
  replace ((S (length (c :: user)) =? 2)%nat && (c =? 43)) with false.
  2: { symmetry. apply andb_false_iff. destruct user; [|by left]. right.
       apply Z.eqb_neq. by intros ->. }
  replace (S (length (c :: user)) - 1)%nat with (length (c :: user)) by lia.
  rewrite take_app_length. cbn [drop]. rewrite drop_app_length.
  assert (Hc : forall u, ~ In 0 u -> c_string u = u).
  { induction u as [|x u IH]; intros Hu; [done|]. cbn. destruct (Z.eqb_spec x 0) as [->|];
      [destruct Hu; by left|]. rewrite IH; [done|]. intros ?. apply Hu. by right. }
  rewrite Hc, Hp by done. by apply join_dir_plain.
Qed.
End Files.
