(* ===== verification/Relocate.v ===== *)
(** * Image relocation ([gforth_relocate] and its loops, engine/main.c)

    An image section is an array of cells with one tag bit per cell.  Loading
    replaces every tagged cell by the address or code it stands for, marks
    branch targets, and leaves the tags of threaded-code cells set for the
    compile pass.  The 64-bit, direct-threaded configuration is modelled; the
    primitive table and the group sizes (generated files) are parameters. *)
From S2P Require Import Prelude.

(** ** Bit strings: most significant bit first, as [1U<<(RELINFOBITS-1)] does *)

Definition RELINFOBITS : nat := 8.

(** The bit mask of cell [i] within its byte: [bitmask>>=1] once per cell. *)
Definition bitmask (i : nat) : Z := Z.shiftr 128 (Z.of_nat (i mod RELINFOBITS)).

Definition bit_get (bits : list Z) (i : nat) : bool :=
  match bits !! (i / RELINFOBITS)%nat with
  | Some b => negb (Z.land b (bitmask i) =? 0)
  | None => false
  end.
(** [bits[k] &= ~bitmask] and [bits[k] |= bitmask] *)
Definition bit_clear (bits : list Z) (i : nat) : list Z :=
  alter (fun b => Z.land b (U8 (Z.lnot (bitmask i)))) (i / RELINFOBITS)%nat bits.
Definition bit_set (bits : list Z) (i : nat) : list Z :=
  alter (fun b => Z.lor b (bitmask i)) (i / RELINFOBITS)%nat bits.

(** ** Tokens (forth.h) *)

Definition SECTION_BITS : Z := 8.
Definition SECTION (x : Z) : Z := Z.shiftr (U64 x) (CELL_BITS - SECTION_BITS).
Definition INSECTION (x : Z) : Z := Z.land (U64 x) (Z.shiftr (B - 1) SECTION_BITS).
Definition PRIMSECTION : Z := Z.shiftl 1 SECTION_BITS - 1.
Definition CF (const : Z) : Z := - const - 2.
Definition CF_NIL : Z := -1.
Definition DOCOL : Z := 0.
Definition DOER_MAX : Z := 9.

Section Relocate.
(** Address and contents of the primitive table, the number of primitives, and
    the group table (prefix sums, 32 entries). *)
Context (vm_prims npriminfos : Z) (prim_label : Z -> Z) (groups : list Z).

Definition CFA_BYTE_OFFSET : Z := 2 * 8.
Definition CFA (n : Z) : Z := S64 (vm_prims + 8 * Z.land n (Z.lnot 0x4000) + CFA_BYTE_OFFSET).

(** What becomes of one tagged cell. *)
Record cell_action := mkAction {
  ca_value : Z;            (** the new cell *)
  ca_keep : bool;          (** tag bit set again: threaded code *)
  ca_flush : bool;         (** [compile_prim1(0)] was called *)
  ca_target : option Z     (** cell number to mark as branch target *)
}.

(** The branch for tokens of the primitive section; [None] is a read outside
    the group table. *)
Definition prim_token (token : Z) : option cell_action :=
  let group := Z.shiftr (Z.land (- token) 0x3E00) 9 in
  if group =? 0 then
    let t := Z.lor token 0x4000 in
    if t =? CF_NIL then Some (mkAction 0 false false None)
    else if (CF DOER_MAX <=? t) && (t <=? CF DOCOL)
    then Some (mkAction (prim_label (CF token)) false true None)
    else if CF t <? npriminfos
    then Some (mkAction (CFA (CF token)) (Z.land token 0x4000 =? 0) false None)
    else Some (mkAction token false false None)
  else
    let tok := Z.land (- token) 0x1FF in
    g ← groups !! Z.to_nat group;
    g1 ← groups !! Z.to_nat (group + 1);
    if tok <? g1 - g then
      if Z.land token 0x4000 =? 0 then Some (mkAction (CFA (g + tok)) true false None)
      else if Z.land token 0x8000 =? 0
      then Some (mkAction (prim_label (g + tok)) false false None)
      else Some (mkAction (CFA (g + tok)) false false None)
    else Some (mkAction token false false None).

(** Start addresses and image bases of the sections. *)
Context (sections bases : list Z).

(** The branch for addresses; [None] is a read outside the section tables. *)
Definition address_token (base sect steps token : Z) : option cell_action :=
  if base <=? token then
    let sec := SECTION token in
    s ← sections !! Z.to_nat sec;
    b ← bases !! Z.to_nat sec;
    let start := U64 (s - b) in
    let bitnum := U64 (INSECTION token - INSECTION base) / 8 in
    Some (mkAction (S64 (start + INSECTION token)) false false
            (if (sec =? sect) && (bitnum / 8 <? steps) then Some bitnum else None))
  else Some (mkAction token false false None).

Definition relocate_token (base sect steps token : Z) : option cell_action :=
  if SECTION token =? PRIMSECTION then prim_token token
  else address_token base sect steps token.

(** State of the loop over the cells of a section. *)
Record reloc_state := mkReloc {
  rs_image : list Z;
  rs_bits : list Z;
  rs_targets : list Z;
  rs_flushes : nat
}.

Definition relocate_cell (base sect steps : Z) (st : reloc_state) (i : nat) : option reloc_state :=
  if bit_get (rs_bits st) i then
    token ← rs_image st !! i;
    let bits := bit_clear (rs_bits st) i in
    a ← relocate_token base sect steps token;
    Some (mkReloc (<[i := ca_value a]> (rs_image st))
            (if ca_keep a then bit_set bits i else bits)
            (match ca_target a with
             | Some n => bit_set (rs_targets st) (Z.to_nat n)
             | None => rs_targets st
             end)
            (rs_flushes st + if ca_flush a then 1 else 0))
  else Some st.

Fixpoint relocate_cells (base sect steps : Z) (cells : list nat) (st : reloc_state) : option reloc_state :=
  match cells with
  | [] => Some st
  | i :: cells => st ← relocate_cell base sect steps st i; relocate_cells base sect steps cells st
  end.

(** [int steps=(((size-1)/sizeof(Cell))/RELINFOBITS)+1] *)
Definition reloc_steps (size : Z) : Z := S32 (U64 (U64 (size - 1) / 8 / 8 + 1)).

Definition gforth_relocate_range (image : list Z) (size base : Z) (bitstring : list Z) (sect : Z)
  : option reloc_state :=
  let steps := reloc_steps size in
  relocate_cells base sect steps (seq 0 (Z.to_nat steps * RELINFOBITS))
    (mkReloc image bitstring (replicate (Z.to_nat steps) 0) 0).
End Relocate.

(** ** The compile pass *)

(** Calls of [compile_prim1]: with 0 (flush), with the address of a cell, and
    [finish_code]. *)
Inductive compile_event : Type := Flush | CompileCell (i : nat) | FinishCode.

Definition compile_cell (bitstring targets : list Z) (i : nat) : list compile_event :=
  (if bit_get targets i then [Flush] else []) ++
  (if bit_get bitstring i then [CompileCell i] else []).

Definition gforth_compile_range (size : Z) (bitstring targets : list Z) : list compile_event :=
  let steps := reloc_steps size in
  if size <=? 0 then []
  else flat_map (compile_cell bitstring targets) (seq 0 (Z.to_nat steps * RELINFOBITS))
       ++ [FinishCode].

(** ** The driver *)

(** The prefix sums of the group table, computed on the first call only. *)
Fixpoint prefix_sums (groupsum : Z) (groups : list Z) : list Z :=
  match groups with
  | [] => []
  | g :: groups => let groupsum := groupsum + g in groupsum :: prefix_sums groupsum groups
  end.
Definition sum_groups (groups : list Z) : list Z :=
  if nth 31 groups 0 =? 0 then prefix_sums 0 groups else groups.

(** A section as the loader hands it over; no bit string: end of the list. *)
Record section_in := mkSection {
  si_image : list Z; si_bits : option (list Z); si_size : Z; si_base : Z
}.

Section Driver.
Context (vm_prims npriminfos : Z) (prim_label : Z -> Z) (sections bases : list Z).

(** [i<=PRIMSECTION] bounds the loop; section 0 gets its own address in its
    first cell. *)
Fixpoint relocate_sections (groups : list Z) (i : nat) (l : list section_in)
  : option (list (reloc_state * list compile_event)) :=
  match l with
  | [] => Some []
  | s :: l =>
      if (PRIMSECTION <? Z.of_nat i) then Some [] else
      match si_bits s with
      | None => Some []
      | Some bits =>
          r ← gforth_relocate_range vm_prims npriminfos prim_label groups sections bases
                (si_image s) (si_size s) (si_base s) bits (Z.of_nat i);
          let ev := gforth_compile_range (si_size s) (rs_bits r) (rs_targets r) in
          let img := if (i =? 0)%nat then <[0%nat := nth 0 sections 0]> (rs_image r) else rs_image r in
          rest ← relocate_sections groups (S i) l;
          Some ((mkReloc img (rs_bits r) (rs_targets r) (rs_flushes r), ev) :: rest)
      end
  end.

Definition gforth_relocate (groups : list Z) (l : list section_in)
  : option (list (reloc_state * list compile_event)) :=
  relocate_sections (sum_groups groups) 0 l.
End Driver.

(** ** Lemmas: bits *)

Lemma land_pow2 a k : 0 <= k -> Z.land a (2 ^ k) = if Z.testbit a k then 2 ^ k else 0.
Proof.
  intros Hk. apply Z.bits_inj'. intros i Hi. rewrite Z.land_spec, Z.pow2_bits_eqb by done.
  destruct (Z.eqb_spec k i) as [->|E].
  - destruct (Z.testbit a i); [by rewrite Z.pow2_bits_true | by rewrite Z.bits_0].
  - rewrite andb_false_r. destruct (Z.testbit a k); [|by rewrite Z.bits_0].
    by rewrite Z.pow2_bits_false by lia.
Qed.

Lemma bitmask_pow i : bitmask i = 2 ^ (7 - Z.of_nat (i mod 8)).
Proof.
  unfold bitmask, RELINFOBITS. pose proof (Nat.mod_upper_bound i 8 ltac:(lia)).
  generalize dependent (i mod 8)%nat. intros n Hn.
  do 8 (destruct n as [|n]; [done|]). lia.
Qed.

Lemma bit_get_testbit bits i :
  bit_get bits i =
  match bits !! (i / 8)%nat with Some b => Z.testbit b (7 - Z.of_nat (i mod 8)) | None => false end.
Proof.
  unfold bit_get. change RELINFOBITS with 8%nat. destruct (bits !! _) as [b|]; [|done].
  pose proof (Nat.mod_upper_bound i 8 ltac:(lia)).
  rewrite bitmask_pow, land_pow2 by lia. destruct (Z.testbit _ _) eqn:E; [|done].
  apply negb_true_iff, Z.eqb_neq, Z.pow_nonzero; lia.
Qed.

Lemma bit_index_inj i j : (i / 8 = j / 8)%nat -> (i mod 8 = j mod 8)%nat -> i = j.
Proof. intros H1 H2. rewrite (Nat.div_mod_eq i 8), (Nat.div_mod_eq j 8). lia. Qed.

Lemma bit_get_clear bits i j :
  bit_get (bit_clear bits i) j = if decide (i = j) then false else bit_get bits j.
Proof.
  rewrite !bit_get_testbit. unfold bit_clear. change RELINFOBITS with 8%nat.
  pose proof (Nat.mod_upper_bound i 8 ltac:(lia)). pose proof (Nat.mod_upper_bound j 8 ltac:(lia)).
  destruct (decide (i / 8 = j / 8)%nat) as [E|E].
  - rewrite E, list_lookup_alter_eq. destruct (bits !! _) as [b|]; cbn [fmap option_fmap option_map];
      [|by destruct (decide _)].
    rewrite Z.land_spec. unfold U8. change 256 with (2 ^ 8).
    rewrite Z.mod_pow2_bits_low, Z.lnot_spec, bitmask_pow, Z.pow2_bits_eqb by lia.
    destruct (decide (i = j)) as [->|Hn]; [by rewrite Z.eqb_refl, andb_false_r|].
    destruct (Z.eqb_spec (7 - Z.of_nat (i mod 8)) (7 - Z.of_nat (j mod 8))) as [X|X].
    + destruct Hn. apply bit_index_inj; lia.
    + by rewrite andb_true_r.
  - rewrite list_lookup_alter_ne by done. destruct (decide (i = j)); [congruence|done].
Qed.

Lemma bit_get_set bits i j :
  bit_get (bit_set bits i) j =
  if decide (i = j /\ (i / 8 < length bits)%nat) then true else bit_get bits j.
Proof.
  rewrite !bit_get_testbit. unfold bit_set. change RELINFOBITS with 8%nat.
  pose proof (Nat.mod_upper_bound i 8 ltac:(lia)). pose proof (Nat.mod_upper_bound j 8 ltac:(lia)).
  destruct (decide (i / 8 = j / 8)%nat) as [E|E].
  - rewrite E, list_lookup_alter_eq. destruct (bits !! _) as [b|] eqn:L; cbn [fmap option_fmap option_map].
    + rewrite Z.lor_spec, bitmask_pow, Z.pow2_bits_eqb by lia.
      apply lookup_lt_Some in L.
      destruct (decide _) as [[-> _]|Hn]; [by rewrite Z.eqb_refl, orb_true_r|].
      destruct (Z.eqb_spec (7 - Z.of_nat (i mod 8)) (7 - Z.of_nat (j mod 8))) as [X|X].
      * destruct Hn. split; [apply bit_index_inj; lia | done].
      * by rewrite orb_false_r.
    + apply lookup_ge_None in L. destruct (decide _); [lia|done].
  - rewrite list_lookup_alter_ne by done. destruct (decide _) as [[-> _]|]; [congruence|done].
Qed.

Lemma bit_clear_length bits i : length (bit_clear bits i) = length bits.
Proof. apply length_alter. Qed.
Lemma bit_set_length bits i : length (bit_set bits i) = length bits.
Proof. apply length_alter. Qed.

Lemma bit_get_zeros n j : bit_get (replicate n 0) j = false.
Proof.
  rewrite bit_get_testbit. destruct (replicate n 0 !! (j / 8)%nat) as [b|] eqn:E; [|done].
  apply lookup_replicate in E as [-> _]. apply Z.bits_0.
Qed.

Lemma bit_get_range bits i : bit_get bits i = true -> (i < length bits * 8)%nat.
Proof.
  rewrite bit_get_testbit. destruct (bits !! _) as [b|] eqn:E; [|done]. intros _.
  apply lookup_lt_Some in E. pose proof (Nat.div_mod_eq i 8).
  pose proof (Nat.mod_upper_bound i 8 ltac:(lia)). lia.
Qed.

(** ** Lemmas: the relocation loop *)

Section Loop.
Context (vm_prims npriminfos : Z) (prim_label : Z -> Z) (groups sections bases : list Z).
Context (base sect steps : Z).

Abbreviation rtoken := (relocate_token vm_prims npriminfos prim_label groups sections bases base sect steps).
Abbreviation rcells := (relocate_cells vm_prims npriminfos prim_label groups sections bases base sect steps).

(** Whether some cell in the list has cell [j] as its marked target. *)
Definition marked (act : nat -> cell_action) (bits : list Z) (cells : list nat) (j : nat) : bool :=
  existsb (fun i => bit_get bits i &&
             bool_decide (option_map Z.to_nat (ca_target (act i)) = Some j)) cells.

Definition flush_count (act : nat -> cell_action) (bits : list Z) (cells : list nat) : nat :=
  list_sum (map (fun i => if bit_get bits i && ca_flush (act i) then 1%nat else 0%nat) cells).

Lemma mem_cons_ne (i j : nat) (l : list nat) :
  i <> j -> bool_decide (j ∈ i :: l) = bool_decide (j ∈ l).
Proof. intros. apply bool_decide_ext. rewrite elem_of_cons. intuition congruence. Qed.

Lemma existsb_agree (b1 b2 : list Z) (p : nat -> bool) cells :
  (forall k, k ∈ cells -> bit_get b1 k = bit_get b2 k) ->
  existsb (fun i => bit_get b1 i && p i) cells = existsb (fun i => bit_get b2 i && p i) cells.
Proof.
  induction cells as [|i cells IH]; intros H; [done|]. cbn [existsb].
  rewrite (H i) by left. f_equal. apply IH. intros k Hk. apply H. by right.
Qed.

Lemma flush_count_cons act bits i cells :
  flush_count act bits (i :: cells) =
  ((if bit_get bits i && ca_flush (act i) then 1 else 0) + flush_count act bits cells)%nat.
Proof. reflexivity. Qed.

Lemma flush_count_agree act b1 b2 cells :
  (forall k, k ∈ cells -> bit_get b1 k = bit_get b2 k) ->
  flush_count act b1 cells = flush_count act b2 cells.
Proof.
  induction cells as [|i cells IH]; intros H; [done|]. unfold flush_count in *. cbn.
  rewrite (H i) by left. f_equal. apply IH. intros k Hk. apply H. by right.
Qed.

Lemma relocate_cells_spec act (cells : list nat) st :
  NoDup cells ->
  (forall i, i ∈ cells -> bit_get (rs_bits st) i = true ->
     exists token, rs_image st !! i = Some token /\ rtoken token = Some (act i)) ->
  exists st', rcells cells st = Some st' /\
    (forall j, rs_image st' !! j =
       if bool_decide (j ∈ cells) && bit_get (rs_bits st) j then Some (ca_value (act j))
       else rs_image st !! j) /\
    (forall j, bit_get (rs_bits st') j =
       if bool_decide (j ∈ cells) then bit_get (rs_bits st) j && ca_keep (act j)
       else bit_get (rs_bits st) j) /\
    (forall j, (j < length (rs_targets st) * 8)%nat -> bit_get (rs_targets st') j =
       bit_get (rs_targets st) j || marked act (rs_bits st) cells j) /\
    length (rs_bits st') = length (rs_bits st) /\
    rs_flushes st' = (rs_flushes st + flush_count act (rs_bits st) cells)%nat.
Proof.
  intros ND. revert st. induction ND as [|i cells Hi ND IH]; intros st H.
  { exists st. cbn [relocate_cells]. split; [done|].
    repeat split; intros; rewrite ?bool_decide_false by (apply not_elem_of_nil); cbn; try done.
    all: rewrite ?orb_false_r; unfold flush_count; cbn; try done; lia. }
  cbn [relocate_cells]. unfold relocate_cell.
  destruct (bit_get (rs_bits st) i) eqn:Ei.
  - destruct (H i ltac:(left) Ei) as (token & Et & Ea). rewrite Et. cbn [mbind option_bind].
    rewrite Ea. cbn [mbind option_bind].
    set (bits1 := if ca_keep (act i) then _ else _).
    assert (Hlt : (i / 8 < length (rs_bits st))%nat).
    { pose proof (bit_get_range _ _ Ei). apply Nat.Div0.div_lt_upper_bound. lia. }
    assert (Hb : forall j, bit_get bits1 j =
                   if decide (i = j) then ca_keep (act i) else bit_get (rs_bits st) j).
    { intros j. subst bits1. destruct (ca_keep (act i)).
      - rewrite bit_get_set, bit_get_clear, bit_clear_length.
        destruct (decide (i = j)), (decide (i = j /\ _)); try done; tauto.
      - rewrite bit_get_clear. by destruct (decide (i = j)). }
    destruct (IH (mkReloc (<[i:=ca_value (act i)]> (rs_image st)) bits1
                   (match ca_target (act i) with Some n => bit_set (rs_targets st) (Z.to_nat n)
                    | None => rs_targets st end)
                   (rs_flushes st + if ca_flush (act i) then 1 else 0)))
      as (st' & E1 & E2 & E3 & E4 & E5 & E6).
    { cbn [rs_image rs_bits]. intros k Hk. rewrite Hb. destruct (decide (i = k)) as [->|Hne]; [done|].
      intros Hbk. rewrite list_lookup_insert_ne by done. apply H; [by right | done]. }
    cbn [rs_image rs_bits rs_targets rs_flushes] in *.
    assert (Hag : forall k, k ∈ cells -> bit_get bits1 k = bit_get (rs_bits st) k).
    { intros k Hk. rewrite Hb. destruct (decide (i = k)) as [->|]; [done|done]. }
    exists st'. split; [exact E1|]. split; [|split; [|split; [|split]]].
    + intros j. rewrite E2, Hb. destruct (decide (i = j)) as [<-|Hne].
      * rewrite bool_decide_false, bool_decide_true, Ei by (done || by left). cbn [andb].
        apply list_lookup_insert_eq. by apply lookup_lt_Some in Et.
      * rewrite mem_cons_ne, list_lookup_insert_ne by done. done.
    + intros j. rewrite E3, Hb. destruct (decide (i = j)) as [<-|Hne].
      * rewrite bool_decide_false, bool_decide_true, Ei by (done || by left). done.
      * by rewrite mem_cons_ne by done.
    + intros j Hj. rewrite E4 by (destruct (ca_target _); rewrite ?bit_set_length; done).
      unfold marked. cbn [existsb]. rewrite Ei. cbn [andb].
      rewrite (existsb_agree _ _ _ _ Hag), orb_assoc. f_equal.
      destruct (ca_target (act i)) as [n|]; cbn [option_map]; [|by rewrite orb_false_r].
      rewrite bit_get_set. destruct (decide (Z.to_nat n = j)) as [->|Hne].
      * rewrite bool_decide_true, orb_true_r by done. destruct (decide _) as [|X]; [done|].
        destruct X. split; [done|]. apply Nat.Div0.div_lt_upper_bound. lia.
      * rewrite bool_decide_false, orb_false_r by congruence.
        destruct (decide _) as [[? _]|]; [congruence|done].
    + rewrite E5. subst bits1. destruct (ca_keep _); by rewrite ?bit_set_length, bit_clear_length.
    + rewrite E6, (flush_count_agree _ _ _ _ Hag), flush_count_cons, Ei.
      cbn [andb]. lia.
  - destruct (IH st) as (st' & E1 & E2 & E3 & E4 & E5 & E6).
    { intros k Hk. apply H. by right. }
    exists st'. split; [exact E1|]. split; [|split; [|split; [|split]]].
    + intros j. rewrite E2. destruct (decide (i = j)) as [<-|Hne].
      * by rewrite Ei, !andb_false_r.
      * by rewrite mem_cons_ne by done.
    + intros j. rewrite E3. destruct (decide (i = j)) as [<-|Hne].
      * rewrite Ei. by destruct (bool_decide _), (bool_decide _).
      * by rewrite mem_cons_ne by done.
    + intros j Hj. rewrite E4 by done. unfold marked. cbn [existsb]. by rewrite Ei.
    + done.
    + by rewrite E6, flush_count_cons, Ei.
Qed.
End Loop.

(** ** Reference: what a tagged cell refers to *)

Inductive image_ref : Type :=
| RNil                       (** the null reference *)
| RDoer (d : Z)              (** code field of [DOCOL] .. [DOER_MAX] *)
| RPrim (n : Z)              (** xt of primitive [n], old style *)
| RPrimCode (n : Z)          (** threaded code of primitive [n], old style *)
| RXt (g t : Z)              (** xt of primitive [t] of group [g] *)
| RCode (g t : Z)            (** its threaded code *)
| RSpecial (g t : Z)         (** its code address, for a code field *)
| RAddr (s o : Z).           (** offset [o] in section [s] *)

(** The token of a reference, as the comment on the image format defines it. *)
Definition encode_ref (r : image_ref) : Z :=
  match r with
  | RNil => CF_NIL
  | RDoer d => CF d
  | RPrim n => CF n
  | RPrimCode n => CF n - 0x4000
  | RXt g t => - (g * 512 + t)
  | RCode g t => - (g * 512 + t) - 0x4000
  | RSpecial g t => - (g * 512 + t) - 0x8000
  | RAddr s o => s * 2 ^ 56 + o
  end.

Section Reference.
Context (vm_prims npriminfos : Z) (prim_label : Z -> Z) (groups sections bases : list Z).
Context (base sect steps : Z).

Definition resolve_ref (r : image_ref) : cell_action :=
  match r with
  | RNil => mkAction 0 false false None
  | RDoer d => mkAction (prim_label d) false true None
  | RPrim n => mkAction (CFA vm_prims n) false false None
  | RPrimCode n => mkAction (CFA vm_prims n) true false None
  | RXt g t => mkAction (CFA vm_prims (nth (Z.to_nat g) groups 0 + t)) false false None
  | RCode g t => mkAction (CFA vm_prims (nth (Z.to_nat g) groups 0 + t)) true false None
  | RSpecial g t => mkAction (prim_label (nth (Z.to_nat g) groups 0 + t)) false false None
  | RAddr s o =>
      let n := U64 (o - INSECTION base) / 8 in
      mkAction (S64 (nth (Z.to_nat s) sections 0 - nth (Z.to_nat s) bases 0 + o)) false false
        (if (s =? sect) && (n / 8 <? steps) then Some n else None)
  end.

Definition group_has (g t : Z) : Prop :=
  1 <= g <= 30 /\ 0 <= t < 512 /\ (Z.to_nat (g + 1) < length groups)%nat /\
  t < nth (Z.to_nat (g + 1)) groups 0 - nth (Z.to_nat g) groups 0.

Definition wf_ref (r : image_ref) : Prop :=
  match r with
  | RNil => True
  | RDoer d => DOCOL <= d <= DOER_MAX
  | RPrim n | RPrimCode n => DOER_MAX < n < npriminfos /\ n < 510
  | RXt g t | RCode g t | RSpecial g t => group_has g t
  | RAddr s o => 0 <= s < 128 /\ 0 <= o < 2 ^ 56 /\ base <= s * 2 ^ 56 + o /\
      (Z.to_nat s < length sections)%nat /\ (Z.to_nat s < length bases)%nat
  end.

(** *** Bit fields of a token *)

Lemma token_group x : Z.shiftr (Z.land x 0x3E00) 9 = x / 512 mod 32.
Proof.
  rewrite Z.shiftr_land. change (Z.shiftr 0x3E00 9) with (Z.ones 5).
  by rewrite Z.land_ones, Z.shiftr_div_pow2 by done.
Qed.

Lemma token_index x : Z.land x 0x1FF = x mod 512.
Proof. change 0x1FF with (Z.ones 9). by rewrite Z.land_ones. Qed.

Lemma land_bit x k : 0 <= k -> (Z.land x (2 ^ k) =? 0) = (x / 2 ^ k mod 2 =? 0).
Proof.
  intros Hk. rewrite land_pow2, <- Z.testbit_spec' by done.
  assert (0 < 2 ^ k) by (apply Z.pow_pos_nonneg; lia).
  destruct (Z.testbit x k); cbn [Z.b2z]; [|done]. apply Z.eqb_neq. lia.
Qed.

Lemma bit14 x : (Z.land x 0x4000 =? 0) = (x / 16384 mod 2 =? 0).
Proof. apply (land_bit x 14). done. Qed.
Lemma bit15 x : (Z.land x 0x8000 =? 0) = (x / 32768 mod 2 =? 0).
Proof. apply (land_bit x 15). done. Qed.

Lemma lor_bit14 x : Z.lor x 0x4000 = if x / 16384 mod 2 =? 0 then x + 16384 else x.
Proof.
  rewrite <- bit14. change 0x4000 with (2 ^ 14). rewrite land_pow2 by done.
  destruct (Z.testbit x 14) eqn:E.
  - cbn. apply Z.bits_inj'. intros i Hi. rewrite Z.lor_spec, Z.pow2_bits_eqb by done.
    destruct (Z.eqb_spec 14 i) as [<-|]; [by rewrite E | by rewrite orb_false_r].
  - rewrite Z.eqb_refl. rewrite Z.add_nocarry_lxor, Z.lxor_lor; [done| |];
      rewrite land_pow2, E; done.
Qed.

Lemma SECTION_small s o : 0 <= s < 128 -> 0 <= o < 2 ^ 56 -> SECTION (s * 2 ^ 56 + o) = s.
Proof.
  intros. unfold SECTION, CELL_BITS, SECTION_BITS. rewrite Z.shiftr_div_pow2 by done.
  change (2 ^ (64 - 8)) with (2 ^ 56). rewrite U64_small by (unfold is_ucell, B; lia).
  rewrite Z.div_add_l, (Z.div_small o) by lia. lia.
Qed.

Lemma INSECTION_small s o : 0 <= s < 128 -> 0 <= o < 2 ^ 56 -> INSECTION (s * 2 ^ 56 + o) = o.
Proof.
  intros. unfold INSECTION. rewrite U64_small by (unfold is_ucell, B; lia).
  change (Z.shiftr (B - 1) SECTION_BITS) with (Z.ones 56). rewrite Z.land_ones by done.
  rewrite Z.add_comm, Z.mod_add by done. by apply Z.mod_small.
Qed.

Lemma SECTION_prim x : 0 < x < 0x10000 -> SECTION (- x) = PRIMSECTION.
Proof.
  intros. unfold SECTION, CELL_BITS, SECTION_BITS. rewrite Z.shiftr_div_pow2 by done.
  change PRIMSECTION with 255. change (2 ^ (64 - 8)) with 72057594037927936. wrap_lia.
Qed.

Abbreviation prim_tok := (prim_token vm_prims npriminfos prim_label groups).

(** A token of a group other than 0, with [f] the flag bits taken away. *)
Lemma prim_token_group g t f :
  group_has g t -> f = 0 \/ f = 0x4000 \/ f = 0x8000 ->
  prim_tok (- (g * 512 + t) - f) =
  Some (if f =? 0x4000 then mkAction (CFA vm_prims (nth (Z.to_nat g) groups 0 + t)) true false None
        else if f =? 0x8000 then mkAction (prim_label (nth (Z.to_nat g) groups 0 + t)) false false None
        else mkAction (CFA vm_prims (nth (Z.to_nat g) groups 0 + t)) false false None).
Proof using.
  intros (Hg & Ht & Hlen & Hsz) Hf. unfold prim_token.
  rewrite token_group, token_index, bit14, bit15.
  assert (Eg : - (- (g * 512 + t) - f) / 512 mod 32 = g)
    by (destruct Hf as [->|[->| ->]]; Z.div_mod_to_equations; lia).
  assert (Et : - (- (g * 512 + t) - f) mod 512 = t)
    by (destruct Hf as [->|[->| ->]]; Z.div_mod_to_equations; lia).
  rewrite Eg, Et. destruct (Z.eqb_spec g 0); [lia|].
  rewrite (lookup_nth_lt _ _ 0) by lia. cbn [mbind option_bind].
  rewrite (lookup_nth_lt _ _ 0) by lia. cbn [mbind option_bind].
  match goal with |- context [t <? ?x] => destruct (Z.ltb_spec t x) end; [|lia].
  destruct Hf as [->|[->| ->]]; cbn [Z.eqb Pos.eqb].
  - replace ((- (g * 512 + t) - 0) / 16384 mod 2) with 1 by (Z.div_mod_to_equations; lia).
    replace ((- (g * 512 + t) - 0) / 32768 mod 2) with 1 by (Z.div_mod_to_equations; lia). done.
  - replace ((- (g * 512 + t) - 16384) / 16384 mod 2) with 0 by (Z.div_mod_to_equations; lia). done.
  - replace ((- (g * 512 + t) - 32768) / 16384 mod 2) with 1 by (Z.div_mod_to_equations; lia).
    replace ((- (g * 512 + t) - 32768) / 32768 mod 2) with 0 by (Z.div_mod_to_equations; lia). done.
Qed.

(** A token of group 0. *)
Lemma prim_token_old n f :
  0 <= n < 510 -> f = 0 \/ f = 0x4000 ->
  prim_tok (CF n - f) =
  Some (if n <=? DOER_MAX then mkAction (prim_label (n + f)) false true None
        else if n <? npriminfos then mkAction (CFA vm_prims (n + f)) (f =? 0x4000) false None
        else mkAction (CF n - f) false false None).
Proof using.
  intros Hn Hf. unfold prim_token. rewrite token_group, bit14, lor_bit14. unfold CF_NIL, CF.
  assert (Eg : - (- n - 2 - f) / 512 mod 32 = 0)
    by (destruct Hf as [->| ->]; Z.div_mod_to_equations; lia).
  rewrite Eg. cbn [Z.eqb].
  assert (Eb : (- n - 2 - f) / 16384 mod 2 = if f =? 0x4000 then 0 else 1)
    by (destruct Hf as [->| ->]; cbn [Z.eqb Pos.eqb]; Z.div_mod_to_equations; lia).
  rewrite Eb. unfold DOER_MAX, DOCOL.
  replace (if (if f =? 0x4000 then 0 else 1) =? 0 then - n - 2 - f + 16384 else - n - 2 - f)
    with (- n - 2) by (destruct Hf as [->| ->]; cbn [Z.eqb Pos.eqb]; lia).
  destruct (Z.eqb_spec (- n - 2) (-1)); [lia|].
  replace (- (- n - 2) - 2) with n by lia. replace (- (- n - 2 - f) - 2) with (n + f) by lia.
  replace ((- (9) - 2 <=? - n - 2) && (- n - 2 <=? - 0 - 2)) with (n <=? 9) by (zcases; cbn; lia || done).
  destruct (n <=? 9); [done|]. destruct (n <? npriminfos); [|done].
  do 2 f_equal. by destruct Hf as [->| ->].
Qed.

Lemma CFA_flag n : 0 <= n < 0x4000 -> CFA vm_prims (n + 0x4000) = CFA vm_prims n.
Proof using.
  intros Hn. unfold CFA. do 4 f_equal. rewrite Z.add_comm.
  replace (0x4000 + n) with (Z.lor 0x4000 n) by (apply (lor_low 1 14); lia).
  rewrite Z.land_lor_distr_l. by rewrite (Z.land_lnot_diag 0x4000), Z.lor_0_l.
Qed.

(** Every well-formed reference is resolved. *)
Lemma relocate_token_encode r :
  wf_ref r ->
  relocate_token vm_prims npriminfos prim_label groups sections bases base sect steps (encode_ref r)
  = Some (resolve_ref r).
Proof using.
  intros W. unfold relocate_token. destruct r; cbn [encode_ref resolve_ref wf_ref] in *.
  - reflexivity.
  - unfold DOCOL, DOER_MAX in W. replace (CF d) with (- (d + 2)) by (unfold CF; lia).
    rewrite SECTION_prim by lia. replace (- (d + 2)) with (CF d - 0) by (unfold CF; lia).
    cbn [Z.eqb Pos.eqb PRIMSECTION]. rewrite prim_token_old by lia.
    destruct (Z.leb_spec d DOER_MAX); [|unfold DOER_MAX in *; lia]. by rewrite Z.add_0_r.
  - destruct W as [W1 W2]. unfold DOER_MAX in W1. replace (CF n) with (- (n + 2)) by (unfold CF; lia).
    rewrite SECTION_prim by lia. replace (- (n + 2)) with (CF n - 0) by (unfold CF; lia).
    rewrite Z.eqb_refl, prim_token_old by lia.
    destruct (Z.leb_spec n DOER_MAX); [unfold DOER_MAX in *; lia|].
    destruct (Z.ltb_spec n npriminfos); [|lia]. by rewrite Z.add_0_r.
  - destruct W as [W1 W2]. unfold DOER_MAX in W1.
    replace (SECTION (CF n - 0x4000)) with PRIMSECTION
      by (rewrite <- (SECTION_prim (n + 2 + 0x4000)) by lia; f_equal; unfold CF; lia).
    rewrite Z.eqb_refl, prim_token_old by lia.
    destruct (Z.leb_spec n DOER_MAX); [unfold DOER_MAX in *; lia|].
    destruct (Z.ltb_spec n npriminfos); [|lia]. by rewrite CFA_flag by lia.
  - pose proof W as (? & ? & _).
    rewrite SECTION_prim, Z.eqb_refl by lia. rewrite <- (Z.sub_0_r (- _)).
    by rewrite prim_token_group by (done || auto).
  - pose proof W as (? & ? & _).
    replace (SECTION (- (g * 512 + t) - 0x4000)) with PRIMSECTION
      by (rewrite <- (SECTION_prim (g * 512 + t + 0x4000)) by lia; f_equal; lia).
    rewrite Z.eqb_refl. by rewrite prim_token_group by (done || auto).
  - pose proof W as (? & ? & _).
    replace (SECTION (- (g * 512 + t) - 0x8000)) with PRIMSECTION
      by (rewrite <- (SECTION_prim (g * 512 + t + 0x8000)) by lia; f_equal; lia).
    rewrite Z.eqb_refl. by rewrite prim_token_group by (done || auto).
  - destruct W as (W1 & W2 & W3 & W4 & W5).
    rewrite SECTION_small by done. change PRIMSECTION with 255. destruct (Z.eqb_spec s 255); [lia|].
    unfold address_token. destruct (Z.leb_spec base (s * 2 ^ 56 + o)); [|lia].
    rewrite SECTION_small, INSECTION_small by done.
    rewrite (lookup_nth_lt sections _ 0) by done. cbn [mbind option_bind].
    rewrite (lookup_nth_lt bases _ 0) by done. cbn [mbind option_bind]. cbv zeta.
    do 2 f_equal. wrap_lia.
Qed.
End Reference.

(** ** Properties *)

(** A cell of an image before saving: data, or a reference. *)
Inductive cell_src : Type := Plain (z : Z) | Ref (r : image_ref).

Definition encode_cell (c : cell_src) : Z :=
  match c with Plain z => z | Ref r => encode_ref r end.
Definition is_ref (c : option cell_src) : bool :=
  match c with Some (Ref _) => true | _ => false end.
(** Threaded-code cells are left to the compile pass. *)
Definition is_code (c : option cell_src) : bool :=
  match c with Some (Ref (RCode _ _)) | Some (Ref (RPrimCode _)) => true | _ => false end.

Lemma reloc_steps_small n : 0 < n < 2 ^ 30 -> reloc_steps (8 * n) = (8 * n - 1) / 64 + 1.
Proof.
  intros H. unfold reloc_steps. rewrite (U64_small (8 * n - 1)) by (unfold is_ucell, B; lia).
  rewrite Z.div_div by done. change (8 * 8) with 64.
  assert (0 <= (8 * n - 1) / 64 < 2 ^ 28) by (split; [apply Z.div_pos; lia | apply Z.div_lt_upper_bound; lia]).
  rewrite U64_small by (unfold is_ucell, B; lia). unfold S32. rewrite Z.mod_small by lia. lia.
Qed.

Section ImageTheorems.
Context (vm_prims npriminfos : Z) (prim_label : Z -> Z) (groups sections bases : list Z).

Definition resolve_cell (base sect steps : Z) (c : cell_src) : Z :=
  match c with
  | Plain z => z
  | Ref r => ca_value (resolve_ref vm_prims prim_label groups sections bases base sect steps r)
  end.

(** Cell [i] is an address in section [sect] of cell number [j]. *)
Definition refers_to (base sect : Z) (c : option cell_src) (j : nat) : Prop :=
  match c with
  | Some (Ref (RAddr s o)) => s = sect /\ U64 (o - INSECTION base) / 8 = Z.of_nat j
  | _ => False
  end.

Lemma is_code_keep base sect steps r :
  ca_keep (resolve_ref vm_prims prim_label groups sections bases base sect steps r)
  = is_code (Some (Ref r)).
Proof using. by destruct r. Qed.

Lemma target_refers base sect steps r j :
  0 <= steps -> (j < Z.to_nat steps * 8)%nat ->
  option_map Z.to_nat
    (ca_target (resolve_ref vm_prims prim_label groups sections bases base sect steps r)) = Some j <->
  refers_to base sect (Some (Ref r)) j.
Proof using.
  intros Hs Hj. destruct r; cbn [resolve_ref ca_target option_map refers_to]; try (split; done).
  pose proof (U64_range (o - INSECTION base)) as R.
  assert (Hn : 0 <= U64 (o - INSECTION base) / 8) by (apply Z.div_pos; unfold is_ucell in R; lia).
  set (n := U64 (o - INSECTION base) / 8) in *. clearbody n.
  destruct (Z.eqb_spec s sect) as [->|E]; cbn [andb].
  - destruct (Z.ltb_spec (n / 8) steps) as [H|H]; cbn [option_map].
    + split; [intros [= <-]; split; [done|lia] | intros [_ ->]; f_equal; lia].
    + split; [done|]. intros [_ ->]. exfalso. revert H. apply Z.lt_nge.
      apply Z.div_lt_upper_bound; lia.
  - split; [done|]. intros [? _]. congruence.
Qed.

(** C2: loading inverts saving: relocating an image whose tagged cells are the
    tokens of references gives every reference its run-time value and leaves
    all other cells alone; afterwards exactly the threaded-code cells are still
    tagged, and exactly the cells that some address of the same section refers
    to are marked as branch targets. *)
Theorem relocation_resolves_references (cells : list cell_src) (bits : list Z) (base sect : Z) :
  0 < Z.of_nat (length cells) < 2 ^ 30 ->
  let size := 8 * Z.of_nat (length cells) in
  let steps := reloc_steps size in
  length bits = Z.to_nat steps ->
  (forall i, bit_get bits i = is_ref (cells !! i)) ->
  (forall i r, cells !! i = Some (Ref r) -> wf_ref npriminfos groups sections bases base r) ->
  exists st,
    gforth_relocate_range vm_prims npriminfos prim_label groups sections bases
      (map encode_cell cells) size base bits sect = Some st /\
    rs_image st = map (resolve_cell base sect steps) cells /\
    (forall i, bit_get (rs_bits st) i = is_code (cells !! i)) /\
    (forall j, (j < Z.to_nat steps * 8)%nat ->
       bit_get (rs_targets st) j = true <-> exists i, refers_to base sect (cells !! i) j).
Proof using.
  intros Hlen size steps Hbl Hbits Hwf. unfold gforth_relocate_range. fold steps.
  assert (Est : steps = (size - 1) / 64 + 1) by (apply reloc_steps_small; lia).
  assert (Hst : 0 <= steps) by (rewrite Est; pose proof (Z.div_pos (size - 1) 64); lia).
  assert (Hcov : (length cells <= Z.to_nat steps * 8)%nat)
    by (rewrite Est; subst size; Z.div_mod_to_equations; lia).
  set (act := fun i => match cells !! i with
    | Some (Ref r) => resolve_ref vm_prims prim_label groups sections bases base sect steps r
    | _ => mkAction 0 false false None end).
  assert (Hin : forall i, is_ref (cells !! i) = true -> i ∈ seq 0 (Z.to_nat steps * 8)).
  { intros i Hi. destruct (cells !! i) eqn:E; [|done]. apply lookup_lt_Some in E.
    apply elem_of_seq. lia. }
  destruct (relocate_cells_spec vm_prims npriminfos prim_label groups sections bases base sect steps
    act (seq 0 (Z.to_nat steps * 8))
    (mkReloc (map encode_cell cells) bits (replicate (Z.to_nat steps) 0) 0))
    as (st & E1 & E2 & E3 & E4 & _); [apply NoDup_seq | |].
  { cbn [rs_bits rs_image]. intros i _ Hi. rewrite Hbits in Hi.
    destruct (cells !! i) as [[z|r]|] eqn:E; try done.
    exists (encode_ref r). rewrite list_lookup_fmap, E. split; [done|].
    unfold act. rewrite E. apply relocate_token_encode. eauto. }
  cbn [rs_bits rs_image rs_targets] in *. exists st. split; [exact E1|]. split; [|split].
  - apply list_eq. intros j. rewrite E2, Hbits, !list_lookup_fmap.
    destruct (is_ref (cells !! j)) eqn:R.
    + rewrite bool_decide_true by auto. cbn [andb]. unfold act.
      by destruct (cells !! j) as [[z|r]|].
    + rewrite andb_false_r. by destruct (cells !! j) as [[z|r]|].
  - intros j. rewrite E3, Hbits. destruct (is_ref (cells !! j)) eqn:R.
    + rewrite bool_decide_true by auto. cbn [andb]. unfold act.
      destruct (cells !! j) as [[z|r]|]; try done. apply is_code_keep.
    + destruct (bool_decide _); by destruct (cells !! j) as [[z|r]|].
  - intros j Hj. rewrite E4, bit_get_zeros by (by rewrite length_replicate). cbn [orb].
    unfold marked. rewrite existsb_exists. split.
    + intros (i & Hi & [Hb Ht]%andb_true_iff). exists i. rewrite Hbits in Hb.
      apply bool_decide_eq_true in Ht. unfold act in Ht.
      destruct (cells !! i) as [[z|r]|]; try done. by apply target_refers in Ht.
    + intros (i & Hi). exists i. rewrite Hbits. unfold act.
      destruct (cells !! i) as [[z|r]|] eqn:E; try done. split.
      * apply list_elem_of_In. apply Hin. by rewrite E.
      * apply andb_true_iff. split; [done|]. apply bool_decide_eq_true. by apply target_refers.
Qed.
End ImageTheorems.

(** Three cells: data, the xt of primitive 3 of group 1, a branch to cell 0. *)
Lemma relocation_resolves_references_witness :
  let cells := [Plain 42; Ref (RCode 1 3); Ref (RAddr 0 0x100)] in
  exists st,
    gforth_relocate_range 0x1000 100 (fun n => n) [0; 10; 20] [0x7000] [0x100]
      (map encode_cell cells) 24 0x100 [96] 0 = Some st /\
    rs_image st = [42; 0x1078; 0x7000].
Proof.
  intros cells.
  destruct (relocation_resolves_references 0x1000 100 (fun n => n) [0; 10; 20] [0x7000] [0x100]
              cells [96] 0x100 0) as (st & E & Im & _).
  - cbn; lia.
  - reflexivity.
  - intros i. do 3 (destruct i as [|i]; [reflexivity|]). cbn [lookup list_lookup is_ref cells].
    destruct (Nat.lt_ge_cases i 5) as [Hi|Hi].
    + do 5 (destruct i as [|i]; [reflexivity|]). lia.
    + destruct (bit_get [96] (S (S (S i)))) eqn:X; [|done].
      apply bit_get_range in X. cbn [length] in X. lia.
  - intros i r. do 3 (destruct i as [|i]; [cbn; try congruence; intros [= <-]; vm_compute; intuition congruence || lia|]).
    done.
  - exists st. split; [exact E|]. rewrite Im. reflexivity.
Defined.

(** The cells compiled by a list of events, in order. *)
Definition compiled (evs : list compile_event) : list nat :=
  flat_map (fun e => match e with CompileCell i => [i] | _ => [] end) evs.

Lemma compiled_app l1 l2 : compiled (l1 ++ l2) = compiled l1 ++ compiled l2.
Proof. apply flat_map_app. Qed.

Lemma compiled_cells bits targets cells :
  compiled (flat_map (compile_cell bits targets) cells) = List.filter (bit_get bits) cells.
Proof.
  induction cells as [|i cells IH]; [done|]. cbn [flat_map List.filter].
  rewrite compiled_app, IH. unfold compile_cell. by destruct (bit_get targets i), (bit_get bits i).
Qed.

(** The compile pass compiles exactly the cells whose tag is left set, in
    ascending order, and no superinstruction can span a branch target: at every
    target the code sequence is flushed between the cells before it and the
    cells from it on. *)
Theorem compile_pass_respects_targets (size : Z) (bits targets : list Z) :
  0 < size ->
  let n := (Z.to_nat (reloc_steps size) * RELINFOBITS)%nat in
  let evs := gforth_compile_range size bits targets in
  compiled evs = List.filter (bit_get bits) (seq 0 n) /\
  (forall k, (k < n)%nat -> bit_get targets k = true ->
     exists l1 l2, evs = l1 ++ Flush :: l2 /\
       Forall (fun i => (i < k)%nat) (compiled l1) /\ Forall (fun i => (k <= i)%nat) (compiled l2)).
Proof.
  intros Hs n evs. subst evs. unfold gforth_compile_range.
  destruct (Z.leb_spec size 0); [lia|]. fold n. split.
  { rewrite compiled_app, compiled_cells. cbn. by rewrite app_nil_r. }
  intros k Hk Ht.
  replace n with (k + S (n - k - 1))%nat by lia. rewrite seq_app, flat_map_app. cbn [seq flat_map Nat.add].
  unfold compile_cell at 2. rewrite Ht. rewrite <- !app_assoc. cbn [app].
  eexists _, _. split; [reflexivity|]. split.
  - rewrite compiled_cells. apply List.Forall_forall. intros i [Hi _]%List.filter_In.
    apply in_seq in Hi. lia.
  - rewrite !compiled_app, compiled_cells. apply Forall_app. split.
    + destruct (bit_get bits k); cbn; repeat constructor.
    + apply Forall_app. split; [|constructor]. apply List.Forall_forall. intros i [Hi _]%List.filter_In.
      apply in_seq in Hi. lia.
Qed.

Lemma compile_pass_respects_targets_witness :
  compiled (gforth_compile_range 24 [224] [64]) = [0; 1; 2]%nat /\
  gforth_compile_range 24 [224] [64] =
    [CompileCell 0; Flush; CompileCell 1; CompileCell 2; FinishCode].
Proof.
  destruct (compile_pass_respects_targets 24 [224] [64] ltac:(lia)) as [-> _].
  split; reflexivity.
Defined.

(** The group table: prefix sums, computed once. *)
Lemma prefix_sums_nth g s i :
  (i < length g)%nat -> nth i (prefix_sums s g) 0 = s + foldr Z.add 0 (take (S i) g).
Proof.
  revert s i. induction g as [|x g IH]; intros s i Hi; [cbn in Hi; lia|].
  cbn [prefix_sums]. destruct i as [|i]; cbn [nth firstn foldr]; [change (take 0 g) with (@nil Z); cbn [foldr]; lia|].
  cbn [length] in Hi. rewrite IH by lia. cbn [firstn foldr]. lia.
Qed.

Lemma prefix_sums_length g s : length (prefix_sums s g) = length g.
Proof. revert s. induction g; intros; cbn [prefix_sums length]; auto. Qed.

(** The group table holds the prefix sums of the generated group sizes
    after the first [gforth_relocate], and later calls do not sum it again. *)
Theorem groups_summed_once (groups : list Z) :
  length groups = 32%nat -> nth 31 groups 0 = 0 -> foldr Z.add 0 groups <> 0 ->
  (forall i, (i < 32)%nat -> nth i (sum_groups groups) 0 = foldr Z.add 0 (take (S i) groups)) /\
  sum_groups (sum_groups groups) = sum_groups groups.
Proof.
  intros Hl H31 Ht. unfold sum_groups at 1 3 4. rewrite H31. cbn [Z.eqb].
  assert (N : forall i, (i < 32)%nat -> nth i (prefix_sums 0 groups) 0 = foldr Z.add 0 (take (S i) groups)).
  { intros i Hi. rewrite prefix_sums_nth by lia. lia. }
  split; [exact N|]. unfold sum_groups. rewrite N, take_ge by lia.
  by destruct (Z.eqb_spec (foldr Z.add 0 groups) 0).
Qed.

Lemma groups_summed_once_witness :
  let g := 0 :: 0 :: 12 :: 7 :: replicate 28 0 in
  nth 3 (sum_groups g) 0 = 19 /\ sum_groups (sum_groups g) = sum_groups g.
Proof.
  intros g. destruct (groups_summed_once g) as [H1 H2];
    [reflexivity | reflexivity | vm_compute; congruence |].
  split; [rewrite H1 by lia; reflexivity | exact H2].
Defined.
