(* ===== verification/Tpa.v ===== *)
(** * Optimal instruction selection (the tree-parsing code of engine/main.c)

    A basic block of primitives is covered by static superinstructions and
    stack-caching variants.  Labels are computed back to front by dynamic
    programming ([transitions], [make_termstate], the labeller of
    [optimize_rewrite]), optionally memoised in an automaton ([lookup_tpa],
    [lookup_tpa_state], [tpa_state_normalize]); the cover is then read off
    front to back.  The cost table (a generated file), the cost function and
    the superinstruction table are parameters. *)
From S2P Require Import Prelude.

Definition CANONICAL_STATE : nat := 0.
Definition INF_COST : Z := 1000000.
Definition MAX_BB : nat := 128.

(** [struct cost], the fields the labeller uses. *)
Record cost_info := mkCost { state_in : nat; state_out : nat; c_length : nat }.

Record waypoint := mkWay {
  w_cost : Z;           (** the cost from here to the end *)
  w_inst : Z;           (** the inst used from here to the next waypoint *)
  w_relocatable : bool; (** the last non-transition was relocatable *)
  w_no_transition : bool
}.

(** Two arrays of [maxstates] waypoints. *)
Record tpa_state := mkState { t_inst : list waypoint; t_trans : list waypoint }.

#[export] Instance waypoint_eq_dec : EqDecision waypoint.
Proof. solve_decision. Defined.
#[export] Instance tpa_state_eq_dec : EqDecision tpa_state.
Proof. solve_decision. Defined.

(** [calloc]ed waypoint. *)
Definition zero_way : waypoint := mkWay 0 0 false false.
(** Array access; the C arrays have [maxstates] elements. *)
Definition way (ws : list waypoint) (k : nat) : waypoint := nth k ws zero_way.

Section Labeller.
Context (maxstates max_super : nat).
Context (super_costs : Z -> cost_info) (ss_cost : Z -> Z) (is_relocatable : Z -> bool).
(** The list of stack-caching transitions, and [lookup_super]. *)
Context (state_transitions : list Z) (lookup_super : list Z -> option (list Z)).

Definition init_waypoints : list waypoint := replicate maxstates (mkWay INF_COST 0 false false).

Definition empty_tpa_state : tpa_state := mkState init_waypoints (replicate maxstates zero_way).

(** The body shared by the two relaxation loops: [wo] is the waypoint behind
    rule [s], [reloc] and [notrans] what is recorded when [s] is better. *)
Definition relax (s : Z) (wo : waypoint) (reloc notrans : bool) (ws : list waypoint) : list waypoint :=
  let wi := way ws (state_in (super_costs s)) in
  if w_cost wo =? INF_COST then ws
  else
    let jcost := w_cost wo + ss_cost s in
    if jcost <=? w_cost wi
    then <[state_in (super_costs s) := mkWay jcost s reloc notrans]> ws
    else ws.

Definition transitions (t : tpa_state) : tpa_state :=
  let trans := map (fun w => mkWay (w_cost w) (w_inst w) (w_relocatable w) true) (t_inst t) in
  mkState (t_inst t)
    (foldl (fun trans s =>
              let wo := way (t_inst t) (state_out (super_costs s)) in
              relax s wo (w_relocatable wo) false trans) trans state_transitions).

Definition make_termstate : tpa_state :=
  let s := empty_tpa_state in
  let w := way (t_inst s) CANONICAL_STATE in
  transitions (mkState (<[CANONICAL_STATE := mkWay 0 (w_inst w) (w_relocatable w) (w_no_transition w)]>
                          (t_inst s)) (t_trans s)).

(** One base rule: superinstruction [s] of [j] components in front of [behind]. *)
Definition base_rule (behind : tpa_state) (inst : list waypoint) (s : Z) : list waypoint :=
  let c := super_costs s in
  let wo := way (t_trans behind) (state_out c) in
  if negb (is_relocatable s) && negb (w_relocatable wo) then
    relax s (way (t_inst behind) (state_out c)) (is_relocatable s) true inst
  else relax s wo (is_relocatable s) (w_no_transition wo) inst.

(** Dynamic programming for the block suffix [origs]; [ts] are the labels
    behind its first, second, ... instruction. *)
Definition dynprog (origs : list Z) (ts : list tpa_state) : tpa_state :=
  let inst :=
    foldl (fun inst j =>
      match lookup_super (take j origs), ts !! (j - 1)%nat with
      | Some supers, Some behind => foldl (base_rule behind) inst supers
      | _, _ => inst
      end) init_waypoints (seq 1 (Nat.min max_super (length origs))) in
  transitions (mkState inst (replicate maxstates zero_way)).

(** The labels of a block without automaton, [ts[0] .. ts[ninsts]]. *)
Fixpoint label (termstate : tpa_state) (origs : list Z) : list tpa_state :=
  match origs with
  | [] => [termstate]
  | p :: rest => let ts := label termstate rest in dynprog origs ts :: ts
  end.

(** ** Reading off the cover *)

(** What is put into the threaded code: dynamically compiled primitives, and
    the static address of (the first component of) a primitive for the
    components a superinstruction skips. *)
Inductive rw_event : Type :=
| Compile (p : Z)
| Static (p : Z).

(** A state transition, with the code's assertions. *)
Definition do_transition (t : tpa_state) (nextstate : nat) : option (Z * nat) :=
  let w := way (t_trans t) nextstate in
  let c := super_costs (w_inst w) in
  if (w_cost w =? INF_COST) || negb (state_in c =? nextstate)%nat then None
  else Some (w_inst w, state_out c).

(** The rewriting loop: [skip] is [nextdyn - i]. *)
Fixpoint rewrite_loop (ts : list tpa_state) (skip nextstate : nat) (no_transition : bool)
  : option (list rw_event) :=
  match ts with
  | [] => None
  | [t] =>
      if negb no_transition then
        r ← do_transition t nextstate;
        if (skip =? 0)%nat && (snd r =? CANONICAL_STATE)%nat then Some [Compile (fst r)] else None
      else if (nextstate =? CANONICAL_STATE)%nat then Some [] else None
  | t :: ts =>
      if (skip =? 0)%nat then
        r ← (if negb no_transition then
               r ← do_transition t nextstate; Some ([Compile (fst r)], snd r)
             else Some ([], nextstate));
        let nextstate := snd r in
        let w := way (t_inst t) nextstate in
        let c := super_costs (w_inst w) in
        if (w_cost w =? INF_COST) || negb (state_in c =? nextstate)%nat then None
        else
          evs ← rewrite_loop ts (c_length c - 1) (state_out c) (w_no_transition w);
          Some (fst r ++ Compile (w_inst w) :: evs)
      else
        evs ← rewrite_loop ts (skip - 1) nextstate no_transition;
        Some (Static (w_inst (way (t_inst t) CANONICAL_STATE)) :: evs)
  end.

Definition rewrite (ts : list tpa_state) : option (list rw_event) :=
  t0 ← head ts;
  let w := way (t_trans t0) CANONICAL_STATE in
  rewrite_loop ts 0 CANONICAL_STATE (negb (w_relocatable w) || w_no_transition w).

Definition optimize_rewrite (termstate : tpa_state) (origs : list Z) : option (list rw_event) :=
  match origs with
  | [] => Some []
  | _ => rewrite (label termstate origs)
  end.

(** ** The automaton: states and transitions in an arena, by index *)

Record tpa_store := mkStore {
  st_states : list tpa_state;           (** allocated states *)
  st_table : list (Z * nat * nat);      (** inst, state behind, state in front *)
  st_unique : gmap Z nat                (** [tpa_state_table]: per bucket, its one entry *)
}.

Definition tpa_state_normalize (t : tpa_state) : tpa_state :=
  let d := w_cost (way (t_inst t) CANONICAL_STATE) in
  let f w := if w_cost w =? INF_COST then w
             else mkWay (w_cost w - d) (w_inst w) (w_relocatable w) (w_no_transition w) in
  mkState (map f (t_inst t)) (map f (t_trans t)).

Definition lookup_tpa (st : tpa_store) (p : Z) (t2 : nat) : option nat :=
  snd <$> List.find (fun '(q, b, _) => (p =? q) && (t2 =? b)%nat) (st_table st).

Definition TPA_SIZE : Z := 16384.

(** The three [int]s of a [struct waypoint], the two [char]s with the
    (zeroed) padding behind them being the third. *)
Definition waypoint_ints (w : waypoint) : list Z :=
  [w_cost w; w_inst w; Z.b2z (w_relocatable w) + 256 * Z.b2z (w_no_transition w)].

(** The sum [r] is an [int]. *)
Definition hash_tpa_state (t : tpa_state) : Z :=
  let r := foldl (fun r '(i, t) => S32 (r + i + t)) 0
             (zip (concat (map waypoint_ints (t_inst t))) (concat (map waypoint_ints (t_trans t)))) in
  Z.land (r + Z.shiftr r 14 + Z.shiftr r 22) (TPA_SIZE - 1).

(** An equivalent registered state if there is one, else a new one.  The new
    bucket entry gets the loop's [te], which is then NULL, as its [next]: it
    replaces the bucket's contents, so every bucket has at most one entry. *)
Definition lookup_tpa_state (noequiv : bool) (st : tpa_store) (t : tpa_state) : tpa_store * nat :=
  let hash := hash_tpa_state t in
  let i := length (st_states st) in
  let new := mkStore (st_states st ++ [t]) (st_table st)
               (if noequiv then st_unique st else <[hash := i]> (st_unique st)) in
  match st_unique st !! hash with
  | Some e => if negb noequiv && bool_decide (st_states st !! e = Some t) then (st, e) else (new, i)
  | None => (new, i)
  end.

Definition states_of (st : tpa_store) (ids : list nat) : list tpa_state :=
  omap (fun i => st_states st !! i) ids.

(** The labeller with the automaton; the result is the list of state indices,
    [ts[0]] first. *)
Fixpoint label_auto (noequiv : bool) (term : nat) (origs : list Z) (st : tpa_store)
  : tpa_store * list nat :=
  match origs with
  | [] => (st, [term])
  | p :: rest =>
      let '(st, ids) := label_auto noequiv term rest st in
      let behind := hd term ids in
      match lookup_tpa st p behind with
      | Some i => (st, i :: ids)
      | None =>
          let t := tpa_state_normalize (dynprog origs (states_of st ids)) in
          let '(st, i) := lookup_tpa_state noequiv st t in
          (mkStore (st_states st) ((p, behind, i) :: st_table st) (st_unique st), i :: ids)
      end
  end.

Definition optimize_rewrite_auto (noequiv : bool) (term : nat) (origs : list Z) (st : tpa_store)
  : tpa_store * option (list rw_event) :=
  match origs with
  | [] => (st, Some [])
  | _ => let '(st, ids) := label_auto noequiv term origs st in (st, rewrite (states_of st ids))
  end.
End Labeller.

(** ** Reference: covers of a block *)

Section Correctness.
Context (maxstates max_super : nat).
Context (super_costs : Z -> cost_info) (ss_cost : Z -> Z) (is_relocatable : Z -> bool).
Context (state_transitions : list Z) (lookup_super : list Z -> option (list Z)).

(** [cover tr origs k out]: starting in state [k], compiling the primitives
    [out] covers the block [origs] and ends in the canonical state; a state
    transition may come first iff [tr]. *)
Inductive cover : bool -> list Z -> nat -> list Z -> Prop :=
| cv_end : cover false [] CANONICAL_STATE []
| cv_inst origs j ss s out :
    (1 <= j <= Nat.min max_super (length origs))%nat ->
    lookup_super (take j origs) = Some ss -> s ∈ ss ->
    cover true (drop j origs) (state_out (super_costs s)) out ->
    cover false origs (state_in (super_costs s)) (s :: out)
| cv_notrans origs k out : cover false origs k out -> cover true origs k out
| cv_trans origs s out :
    s ∈ state_transitions -> cover false origs (state_out (super_costs s)) out ->
    cover true origs (state_in (super_costs s)) (s :: out).

Definition total_cost (out : list Z) : Z := foldr (fun p c => ss_cost p + c) 0 out.

(** Bound on the cost of one primitive, small enough that no cover of a block
    of at most [MAX_BB] instructions reaches [INF_COST]. *)
Definition COST_BOUND : Z := 3000.

Record tables_ok : Prop := {
  ok_canonical : (CANONICAL_STATE < maxstates)%nat;
  ok_transitions : forall s, s ∈ state_transitions ->
    (state_in (super_costs s) < maxstates)%nat /\ (state_out (super_costs s) < maxstates)%nat;
  ok_supers : forall key ss s, lookup_super key = Some ss -> s ∈ ss ->
    (state_in (super_costs s) < maxstates)%nat /\ (state_out (super_costs s) < maxstates)%nat /\
    c_length (super_costs s) = length key;
  ok_costs : forall p, 0 <= ss_cost p <= COST_BOUND
}.

Abbreviation rlx := (relax super_costs ss_cost).
Abbreviation trns := (transitions super_costs ss_cost state_transitions).
Abbreviation term := (make_termstate maxstates super_costs ss_cost state_transitions).
Abbreviation dyn := (dynprog maxstates max_super super_costs ss_cost is_relocatable
                       state_transitions lookup_super).
Abbreviation lbl := (label maxstates max_super super_costs ss_cost is_relocatable
                       state_transitions lookup_super term).

(** ** Lemmas: relaxation *)

Lemma way_insert ws k w i : (k < length ws)%nat -> way (<[k := w]> ws) i = if decide (i = k) then w else way ws i.
Proof using.
  intros Hk. unfold way. rewrite !nth_lookup. destruct (decide (i = k)) as [->|H].
  - by rewrite list_lookup_insert_eq.
  - by rewrite list_lookup_insert_ne.
Qed.

(** A candidate rule of a relaxation loop. *)
Record cand := mkCand { cd_rule : Z; cd_behind : waypoint; cd_reloc : bool; cd_notrans : bool }.
Definition relax_cand (ws : list waypoint) (c : cand) : list waypoint :=
  rlx (cd_rule c) (cd_behind c) (cd_reloc c) (cd_notrans c) ws.
Definition cand_way (c : cand) : waypoint :=
  mkWay (w_cost (cd_behind c) + ss_cost (cd_rule c)) (cd_rule c) (cd_reloc c) (cd_notrans c).
Definition cand_for (c : cand) (k : nat) : Prop :=
  state_in (super_costs (cd_rule c)) = k /\ w_cost (cd_behind c) <> INF_COST.

(** Every slot ends up with its initial value or with a candidate, and is not
    worse than either. *)
Lemma relax_fold cs ws0 :
  (forall c, c ∈ cs -> (state_in (super_costs (cd_rule c)) < length ws0)%nat) ->
  let ws := foldl relax_cand ws0 cs in
  length ws = length ws0 /\
  forall k, (way ws k = way ws0 k \/ exists c, c ∈ cs /\ cand_for c k /\ way ws k = cand_way c) /\
    w_cost (way ws k) <= w_cost (way ws0 k) /\
    (forall c, c ∈ cs -> cand_for c k -> w_cost (way ws k) <= w_cost (cand_way c)).
Proof using.
  revert ws0. induction cs as [|c cs IH]; intros ws0 H.
  { cbn [foldl]. split; [done|]. intros k. split; [by left|]. split; [lia|].
    intros c Hc. by apply not_elem_of_nil in Hc. }
  cbn [foldl].
  assert (Hl : length (relax_cand ws0 c) = length ws0).
  { unfold relax_cand, relax. destruct (_ =? _); [done|]. destruct (_ <=? _); [|done].
    apply length_insert. }
  destruct (IH (relax_cand ws0 c)) as [L IHk].
  { intros c' Hc'. rewrite Hl. apply H. by right. }
  split; [congruence|]. intros k. destruct (IHk k) as (IH1 & IH2 & IH3).
  assert (S1 : way (relax_cand ws0 c) k = way ws0 k \/
               cand_for c k /\ way (relax_cand ws0 c) k = cand_way c).
  { unfold relax_cand, relax. destruct (Z.eqb_spec (w_cost (cd_behind c)) INF_COST); [by left|].
    destruct (_ <=? _); [|by left]. rewrite way_insert by (apply H; left).
    destruct (decide (k = state_in (super_costs (cd_rule c)))) as [->|]; [right | by left].
    split; [by split|]. done. }
  assert (S2 : w_cost (way (relax_cand ws0 c) k) <= w_cost (way ws0 k)).
  { unfold relax_cand, relax. destruct (_ =? _); [lia|].
    destruct (Z.leb_spec (w_cost (cd_behind c) + ss_cost (cd_rule c))
                (w_cost (way ws0 (state_in (super_costs (cd_rule c)))))); [|lia].
    rewrite way_insert by (apply H; left). destruct (decide _) as [->|]; cbn [w_cost]; lia. }
  assert (S3 : cand_for c k -> w_cost (way (relax_cand ws0 c) k) <= w_cost (cand_way c)).
  { intros [E Hn]. unfold relax_cand, relax, cand_way. cbn [w_cost]. destruct (Z.eqb_spec (w_cost (cd_behind c)) INF_COST); [done|].
    destruct (Z.leb_spec (w_cost (cd_behind c) + ss_cost (cd_rule c))
                (w_cost (way ws0 (state_in (super_costs (cd_rule c)))))); [|rewrite E in *; lia].
    rewrite way_insert by (apply H; left). rewrite decide_True by done. cbn [w_cost]. lia. }
  split; [|split; [lia|]].
  - destruct IH1 as [E|(c' & Hc' & Hf & E)].
    + rewrite E. destruct S1 as [->|[Hf ->]]; [by left|]. right. exists c. split; [left|done].
    + right. exists c'. split; [by right|done].
  - intros c' [->|Hc']%elem_of_cons Hf; [|by apply IH3]. specialize (S3 Hf). lia.
Qed.

(** ** Lemmas: state transitions *)

Lemma transitions_inst t : t_inst (trns t) = t_inst t.
Proof using. done. Qed.

Lemma transitions_spec t :
  (forall s, s ∈ state_transitions -> (state_in (super_costs s) < length (t_inst t))%nat) ->
  length (t_trans (trns t)) = length (t_inst t) /\
  forall k, (k < length (t_inst t))%nat ->
    let I := way (t_inst t) in
    let T := way (t_trans (trns t)) k in
    (T = mkWay (w_cost (I k)) (w_inst (I k)) (w_relocatable (I k)) true \/
     exists s, s ∈ state_transitions /\ state_in (super_costs s) = k /\
       w_cost (I (state_out (super_costs s))) <> INF_COST /\
       T = mkWay (w_cost (I (state_out (super_costs s))) + ss_cost s) s
             (w_relocatable (I (state_out (super_costs s)))) false) /\
    w_cost T <= w_cost (I k) /\
    (forall s, s ∈ state_transitions -> state_in (super_costs s) = k ->
       w_cost (I (state_out (super_costs s))) <> INF_COST ->
       w_cost T <= w_cost (I (state_out (super_costs s))) + ss_cost s).
Proof using.
  intros H.
  set (f := fun w => mkWay (w_cost w) (w_inst w) (w_relocatable w) true).
  set (g := fun s => let wo := way (t_inst t) (state_out (super_costs s)) in
                     mkCand s wo (w_relocatable wo) false).
  assert (E : t_trans (trns t) = foldl relax_cand (map f (t_inst t)) (map g state_transitions)).
  { unfold transitions. cbn [t_trans]. fold f. generalize (map f (t_inst t)).
    clear H. induction state_transitions as [|s l IH]; intros ws; [done|]. cbn [foldl map]. apply IH. }
  destruct (relax_fold (map g state_transitions) (map f (t_inst t))) as [L R].
  { intros c (s & -> & Hs)%list_elem_of_fmap. rewrite length_map. by apply H. }
  rewrite <- E in L, R. rewrite length_map in L. split; [done|]. intros k Hk.
  destruct (R k) as (R1 & R2 & R3).
  assert (F : way (map f (t_inst t)) k = f (way (t_inst t) k)).
  { unfold way. rewrite !nth_lookup, list_lookup_fmap.
    destruct (lookup_lt_is_Some_2 _ _ Hk) as [w ->]. done. }
  rewrite F in *. cbv zeta. split; [|split; [exact R2|]].
  - destruct R1 as [->|(c & (s & -> & Hs)%list_elem_of_fmap & [Hf1 Hf2] & ->)]; [by left|].
    right. exists s. done.
  - intros s Hs Hin Hn. apply (R3 (g s)); [|done]. by apply list_elem_of_fmap_2.
Qed.

(** ** Lemmas: one step of dynamic programming *)

Definition base_cand (behind : tpa_state) (s : Z) : cand :=
  let wo := way (t_trans behind) (state_out (super_costs s)) in
  if negb (is_relocatable s) && negb (w_relocatable wo)
  then mkCand s (way (t_inst behind) (state_out (super_costs s))) (is_relocatable s) true
  else mkCand s wo (is_relocatable s) (w_no_transition wo).

Lemma base_cand_rule behind s : cd_rule (base_cand behind s) = s.
Proof using. unfold base_cand. by destruct (_ && _). Qed.

Definition base_cands (origs : list Z) (ts : list tpa_state) : list cand :=
  flat_map (fun j =>
    match lookup_super (take j origs), ts !! (j - 1)%nat with
    | Some supers, Some behind => map (base_cand behind) supers
    | _, _ => []
    end) (seq 1 (Nat.min max_super (length origs))).

Lemma elem_of_base_cands origs ts c :
  c ∈ base_cands origs ts <->
  exists j supers behind s, (1 <= j <= Nat.min max_super (length origs))%nat /\
    lookup_super (take j origs) = Some supers /\ ts !! (j - 1)%nat = Some behind /\
    s ∈ supers /\ c = base_cand behind s.
Proof using.
  unfold base_cands. rewrite list_elem_of_In, in_flat_map. split.
  - intros (j & Hj%in_seq & Hc). destruct (lookup_super (take j origs)) as [ss|] eqn:E1; [|done].
    destruct (ts !! (j - 1)%nat) as [b|] eqn:E2; [|done].
    apply in_map_iff in Hc as (s & <- & Hs). exists j, ss, b, s.
    rewrite list_elem_of_In. split; [lia|done].
  - intros (j & ss & b & s & Hj & E1 & E2 & Hs & ->). exists j. split; [apply in_seq; lia|].
    rewrite E1, E2. apply in_map. by apply list_elem_of_In.
Qed.

Lemma dynprog_inst origs ts :
  t_inst (dyn origs ts) =
  foldl relax_cand (init_waypoints maxstates) (base_cands origs ts).
Proof using.
  unfold dynprog. rewrite transitions_inst. cbn [t_inst]. unfold base_cands.
  generalize (init_waypoints maxstates). generalize (seq 1 (Nat.min max_super (length origs))).
  induction l as [|j l IH]; intros ws; [done|]. cbn [foldl flat_map]. rewrite foldl_app, IH. f_equal.
  destruct (lookup_super (take j origs)) as [ss|]; [|done]. destruct (ts !! (j - 1)%nat) as [b|]; [|done].
  clear IH. revert ws. induction ss as [|s ss IH]; intros ws; [done|]. cbn [foldl map]. rewrite IH.
  f_equal. unfold base_rule, relax_cand, base_cand. by destruct (_ && _).
Qed.

Lemma init_way k : (k < maxstates)%nat -> way (init_waypoints maxstates) k = mkWay INF_COST 0 false false.
Proof using.
  intros H. unfold way, init_waypoints. rewrite nth_lookup.
  by rewrite lookup_replicate_2 by done.
Qed.

Context (OK : tables_ok).

Lemma dynprog_spec origs ts :
  length (t_inst (dyn origs ts)) = maxstates /\
  forall k, (k < maxstates)%nat ->
    let w := way (t_inst (dyn origs ts)) k in
    (w_cost w = INF_COST \/ exists c, c ∈ base_cands origs ts /\ cand_for c k /\ w = cand_way c) /\
    w_cost w <= INF_COST /\
    (forall c, c ∈ base_cands origs ts -> cand_for c k -> w_cost w <= w_cost (cand_way c)).
Proof using OK.
  rewrite dynprog_inst.
  destruct (relax_fold (base_cands origs ts) (init_waypoints maxstates)) as [L R].
  { intros c (j & ss & b & s & Hj & E1 & E2 & Hs & ->)%elem_of_base_cands.
    unfold init_waypoints. rewrite length_replicate, base_cand_rule.
    by eapply ok_supers. }
  unfold init_waypoints in L at 2. rewrite length_replicate in L. split; [exact L|].
  intros k Hk. destruct (R k) as (R1 & R2 & R3). rewrite init_way in R1, R2 by done.
  cbv zeta. split; [|split; [exact R2 | exact R3]].
  destruct R1 as [->|R1]; [by left | by right].
Qed.

Lemma dynprog_trans_inst origs ts k :
  (k < maxstates)%nat ->
  let I := way (t_inst (dyn origs ts)) in
  let T := way (t_trans (dyn origs ts)) k in
  (T = mkWay (w_cost (I k)) (w_inst (I k)) (w_relocatable (I k)) true \/
   exists s, s ∈ state_transitions /\ state_in (super_costs s) = k /\
     w_cost (I (state_out (super_costs s))) <> INF_COST /\
     T = mkWay (w_cost (I (state_out (super_costs s))) + ss_cost s) s
           (w_relocatable (I (state_out (super_costs s)))) false) /\
  w_cost T <= w_cost (I k) /\
  (forall s, s ∈ state_transitions -> state_in (super_costs s) = k ->
     w_cost (I (state_out (super_costs s))) <> INF_COST ->
     w_cost T <= w_cost (I (state_out (super_costs s))) + ss_cost s).
Proof using OK.
  intros Hk. destruct (dynprog_spec origs ts) as [L _].
  set (t := dyn origs ts) in *. pose proof (eq_refl t) as Et. unfold t at 2, dynprog in Et.
  match type of Et with _ = trns ?t0 => set (u := t0) in Et end.
  assert (Lu : length (t_inst u) = maxstates) by (rewrite <- L, Et; done).
  destruct (transitions_spec u) as [_ T].
  { rewrite Lu. intros s Hs. by apply ok_transitions. }
  rewrite Lu in T. specialize (T k Hk). rewrite <- (transitions_inst u), <- Et in T. exact T.
Qed.

(** ** The labels are optimal *)

(** The label of a suffix. *)
Definition lab (origs : list Z) : tpa_state := hd term (lbl origs).

Lemma label_lookup origs j :
  (j <= length origs)%nat -> lbl origs !! j = Some (lab (drop j origs)).
Proof using.
  revert j. induction origs as [|p origs IH]; intros j Hj.
  - cbn in Hj. assert (j = O) as -> by lia. done.
  - destruct j as [|j]; [done|]. cbn [label lookup list_lookup drop]. apply IH. cbn in Hj. lia.
Qed.

Lemma label_length origs : length (lbl origs) = S (length origs).
Proof using. induction origs; [done|]. cbn [label length]. by rewrite IHorigs. Qed.

Lemma label_head origs : head (lbl origs) = Some (lab origs).
Proof using. by destruct origs. Qed.

Lemma lab_cons p rest : lab (p :: rest) = dyn (p :: rest) (lbl rest).
Proof using. done. Qed.

Lemma cover_length tr origs k out :
  cover tr origs k out ->
  (length out <= 2 * length origs + if tr then 1 else 0)%nat /\ (k < maxstates)%nat.
Proof using OK.
  induction 1 as [|origs j ss s out Hj Hl Hs Hc [IH _]|origs k out Hc [IH1 IH2]|origs s out Hs Hc [IH _]].
  - split; [cbn; lia|]. apply OK.
  - rewrite length_drop in IH. cbn [length]. split; [lia|]. by eapply ok_supers.
  - split; [lia|done].
  - cbn [length]. split; [lia|]. by apply ok_transitions.
Qed.

Lemma total_cost_bound out : 0 <= total_cost out <= COST_BOUND * Z.of_nat (length out).
Proof using OK.
  induction out as [|p out IH]; [cbn; lia|]. cbn [total_cost foldr length].
  pose proof (ok_costs OK p). unfold total_cost in IH. lia.
Qed.

Lemma cover_cost tr origs k out :
  cover tr origs k out -> (length origs <= MAX_BB)%nat -> 0 <= total_cost out < INF_COST.
Proof using OK.
  intros H Hl. apply cover_length in H as [H _]. pose proof (total_cost_bound out).
  unfold COST_BOUND, INF_COST, MAX_BB in *. destruct tr; lia.
Qed.

(** [best tr origs k c]: [c] is the least cost of a cover, [INF_COST] if there
    is none. *)
Definition best (tr : bool) (origs : list Z) (k : nat) (c : Z) : Prop :=
  (c = INF_COST /\ forall out, ~ cover tr origs k out) \/
  (c < INF_COST /\ (exists out, cover tr origs k out /\ total_cost out = c) /\
   forall out, cover tr origs k out -> c <= total_cost out).

Lemma best_le tr origs k c out : best tr origs k c -> cover tr origs k out -> c <= total_cost out.
Proof using. intros [[_ H]|(_ & _ & H)] Hc; [by apply H in Hc | by apply H]. Qed.

Lemma best_finite tr origs k c : best tr origs k c -> c <> INF_COST ->
  exists out, cover tr origs k out /\ total_cost out = c.
Proof using. intros [[-> _]|(_ & H & _)] Hc; done. Qed.

Lemma best_some tr origs k c out : best tr origs k c -> cover tr origs k out -> c <> INF_COST.
Proof using. intros [[_ H]|(H & _)] Hc; [by apply H in Hc | lia]. Qed.

(** From the instruction labels to the transition labels. *)
Lemma best_trans origs t :
  (length origs <= MAX_BB)%nat -> length (t_inst t) = maxstates ->
  (forall k, (k < maxstates)%nat -> best false origs k (w_cost (way (t_inst t) k))) ->
  forall k, (k < maxstates)%nat -> best true origs k (w_cost (way (t_trans (trns t)) k)).
Proof using OK.
  intros Hn L HI k Hk. destruct (transitions_spec t) as [_ T].
  { rewrite L. intros s Hs. by apply ok_transitions. }
  rewrite L in T. destruct (T k Hk) as (T1 & T2 & T3). cbv zeta in *.
  set (c := w_cost (way (t_trans (trns t)) k)) in *.
  assert (Hsnd : c <> INF_COST -> exists out, cover true origs k out /\ total_cost out = c).
  { intros Hc. unfold c in *. destruct T1 as [E|(s & Hs & Hin & Hf & E)]; rewrite E in *; cbn [w_cost] in *.
    - destruct (best_finite _ _ _ _ (HI k Hk) Hc) as (out & Ho & Et). exists out. split; [by constructor|done].
    - destruct (best_finite _ _ _ _ (HI _ (proj2 (ok_transitions OK s Hs))) Hf) as (out & Ho & Et).
      exists (s :: out). split; [rewrite <- Hin; by constructor|]. cbn [total_cost foldr].
      unfold total_cost in Et. lia. }
  assert (Hmin : forall out, cover true origs k out -> c <= total_cost out).
  { intros out Ho. inversion Ho as [| |? ? ? Hc|? s ? Hs Hc]; subst.
    - pose proof (best_le _ _ _ _ _ (HI k Hk) Hc). lia.
    - pose proof (HI _ (proj2 (ok_transitions OK s Hs))) as HB.
      pose proof (best_le _ _ _ _ _ HB Hc). pose proof (best_some _ _ _ _ _ HB Hc) as Hf.
      pose proof (T3 s Hs eq_refl Hf). cbn [total_cost foldr]. unfold total_cost in *. lia. }
  destruct (Z.eq_dec c INF_COST) as [Hc|Hc].
  - left. split; [done|]. intros out Ho. pose proof (Hmin out Ho).
    pose proof (cover_cost _ _ _ _ Ho Hn). lia.
  - right. destruct (Hsnd Hc) as (out & Ho & Et). pose proof (cover_cost _ _ _ _ Ho Hn).
    split; [lia|]. split; [by exists out | done].
Qed.

Lemma cover_nil k out : cover false [] k out -> k = CANONICAL_STATE /\ out = [].
Proof using. inversion 1 as [|? j ? ? ? Hj| |]; subst; [done|]. cbn in Hj. lia. Qed.

Lemma term_inst :
  t_inst term = <[CANONICAL_STATE := mkWay 0 0 false false]> (init_waypoints maxstates) /\
  length (t_inst term) = maxstates.
Proof using OK.
  unfold make_termstate. rewrite transitions_inst. cbn [t_inst empty_tpa_state].
  rewrite init_way by apply OK. cbn [w_inst w_relocatable w_no_transition].
  split; [done|]. rewrite length_insert. apply length_replicate.
Qed.

Lemma term_best k : (k < maxstates)%nat ->
  best false [] k (w_cost (way (t_inst term) k)).
Proof using OK.
  intros Hk. destruct term_inst as [-> _].
  rewrite way_insert by (unfold init_waypoints; rewrite length_replicate; apply OK).
  destruct (decide (k = CANONICAL_STATE)) as [->|Hne].
  - right. cbn [w_cost]. split; [done|]. split; [exists []; split; [constructor|done]|].
    intros out [_ ->]%cover_nil. done.
  - left. rewrite init_way by done. split; [done|]. intros out [? _]%cover_nil. done.
Qed.

(** With relocatable primitives only, every rule is tried in front of the
    transition labels. *)
Context (all_relocatable : forall p, is_relocatable p = true).

Lemma base_cand_reloc behind s :
  let wo := way (t_trans behind) (state_out (super_costs s)) in
  base_cand behind s = mkCand s wo true (w_no_transition wo).
Proof using all_relocatable. unfold base_cand. by rewrite all_relocatable. Qed.

Lemma inst_best p rest k :
  (length (p :: rest) <= MAX_BB)%nat -> (k < maxstates)%nat ->
  (forall j k, (1 <= j <= length (p :: rest))%nat -> (k < maxstates)%nat ->
     best true (drop j (p :: rest)) k (w_cost (way (t_trans (lab (drop j (p :: rest)))) k))) ->
  best false (p :: rest) k (w_cost (way (t_inst (lab (p :: rest))) k)).
Proof using all_relocatable OK.
  intros Hn Hk IH. rewrite lab_cons. set (origs := p :: rest) in *.
  destruct (dynprog_spec origs (lbl rest)) as [_ D]. destruct (D k Hk) as (D1 & D2 & D3).
  cbv zeta in *. set (c := w_cost (way (t_inst (dyn origs (lbl rest))) k)) in *.
  assert (Beh : forall j, (1 <= j <= length origs)%nat -> lbl rest !! (j - 1)%nat = Some (lab (drop j origs))).
  { intros j Hj. rewrite label_lookup by (cbn in Hj; lia). destruct j as [|j]; [lia|].
    cbn [drop origs]. by rewrite Nat.sub_succ, Nat.sub_0_r. }
  assert (Hsnd : c <> INF_COST -> exists out, cover false origs k out /\ total_cost out = c).
  { intros Hc. destruct D1 as [?|(cd & Hin & [Hs Hf] & E)]; [done|].
    apply elem_of_base_cands in Hin as (j & ss & b & s & Hj & E1 & E2 & Hss & ->).
    rewrite Beh in E2 by lia. injection E2 as <-. rewrite base_cand_reloc in Hs, Hf, E.
    cbn [cd_rule cd_behind] in Hs, Hf.
    destruct (best_finite _ _ _ _ (IH j (state_out (super_costs s)) ltac:(lia)
      (proj1 (proj2 (ok_supers OK _ _ _ E1 Hss)))) Hf) as (out & Ho & Et).
    exists (s :: out). split; [rewrite <- Hs; by eapply cv_inst|].
    unfold c. rewrite E. cbn [total_cost foldr cand_way w_cost cd_behind cd_rule].
    unfold total_cost in Et. lia. }
  assert (Hmin : forall out, cover false origs k out -> c <= total_cost out).
  { intros out Ho. inversion Ho as [|? j ss s out' Hj E1 Hss Hc| |]; subst.
    pose proof (IH j (state_out (super_costs s)) ltac:(lia)
      (proj1 (proj2 (ok_supers OK _ _ _ E1 Hss)))) as HB.
    pose proof (best_le _ _ _ _ _ HB Hc). pose proof (best_some _ _ _ _ _ HB Hc) as Hf.
    pose proof (D3 (base_cand (lab (drop j origs)) s)) as D4. clear D3. rename D4 into D3.
    cbn [total_cost foldr]. unfold total_cost in *. rewrite base_cand_reloc in D3.
    cbn [cand_way w_cost cd_behind cd_rule] in D3.
    assert (c <= w_cost (way (t_trans (lab (drop j origs))) (state_out (super_costs s))) + ss_cost s); [|lia].
    apply D3; [|done]. rewrite <- base_cand_reloc. apply elem_of_base_cands. exists j, ss, (lab (drop j origs)), s.
    split; [done|]. split; [done|]. split; [apply Beh; lia|done]. }
  destruct (Z.eq_dec c INF_COST) as [Hc|Hc].
  - left. split; [done|]. intros out Ho. pose proof (Hmin out Ho).
    pose proof (cover_cost _ _ _ _ Ho Hn). lia.
  - right. destruct (Hsnd Hc) as (out & Ho & Et). pose proof (cover_cost _ _ _ _ Ho Hn).
    split; [lia|]. split; [by exists out | done].
Qed.

Lemma lab_inst_length origs : length (t_inst (lab origs)) = maxstates.
Proof using OK.
  destruct origs as [|p rest]; [apply term_inst|]. rewrite lab_cons. apply dynprog_spec.
Qed.

Lemma lab_trans_of origs : exists t, lab origs = trns t /\ t_inst t = t_inst (lab origs).
Proof using.
  destruct origs as [|p rest].
  - eexists. split; [reflexivity|]. done.
  - rewrite lab_cons. eexists. split; [reflexivity|]. done.
Qed.

Lemma lab_best origs :
  (length origs <= MAX_BB)%nat ->
  forall k, (k < maxstates)%nat ->
    best false origs k (w_cost (way (t_inst (lab origs)) k)) /\
    best true origs k (w_cost (way (t_trans (lab origs)) k)).
Proof using all_relocatable OK.
  remember (length origs) as n eqn:En. revert origs En.
  induction n as [n IH] using lt_wf_ind. intros origs -> Hn.
  assert (HI : forall k, (k < maxstates)%nat -> best false origs k (w_cost (way (t_inst (lab origs)) k))).
  { intros k Hk. destruct origs as [|p rest]; [by apply term_best|].
    apply inst_best; [done|done|]. intros j k' Hj Hk'.
    eapply (IH (length (drop j (p :: rest)))); [|done| |done]; rewrite length_drop; lia. }
  intros k Hk. split; [by apply HI|].
  destruct (lab_trans_of origs) as (t & E1 & E2). rewrite E1. apply best_trans; [done| | |done].
  - rewrite E2. apply lab_inst_length.
  - intros k' Hk'. rewrite E2. by apply HI.
Qed.

(** ** The cover that is read off *)

Definition compiled_prims (evs : list rw_event) : list Z :=
  flat_map (fun e => match e with Compile p => [p] | Static _ => [] end) evs.

Lemma compiled_prims_app l1 l2 : compiled_prims (l1 ++ l2) = compiled_prims l1 ++ compiled_prims l2.
Proof using. apply flat_map_app. Qed.

(** [k] skipped components of a superinstruction. *)
Lemma rewrite_loop_skip ts k st nt :
  (k < length ts)%nat ->
  exists pre, compiled_prims pre = [] /\
    rewrite_loop super_costs ts k st nt =
    (evs ← rewrite_loop super_costs (drop k ts) 0 st nt; Some (pre ++ evs)).
Proof using.
  revert ts. induction k as [|k IH]; intros ts Hk.
  - exists []. split; [done|]. rewrite drop_0. by destruct (rewrite_loop super_costs ts 0 st nt).
  - destruct ts as [|t [|t' ts]]; [cbn in Hk; lia | cbn in Hk; lia |].
    destruct (IH (t' :: ts)) as (pre & Hp & E); [cbn in *; lia|].
    exists (Static (w_inst (way (t_inst t) CANONICAL_STATE)) :: pre). split; [done|].
    change (drop (S k) (t :: t' :: ts)) with (drop k (t' :: ts)).
    change (rewrite_loop super_costs (t :: t' :: ts) (S k) st nt)
      with (evs ← rewrite_loop super_costs (t' :: ts) (S k - 1) st nt;
            Some (Static (w_inst (way (t_inst t) CANONICAL_STATE)) :: evs)).
    replace (S k - 1)%nat with k by lia. rewrite E.
    by destruct (rewrite_loop super_costs (drop k (t' :: ts)) 0 st nt).
Qed.

(** The waypoint in front of an instruction points to the next one. *)
Lemma inst_way origs k :
  (length origs <= MAX_BB)%nat -> (k < maxstates)%nat ->
  let w := way (t_inst (lab origs)) k in
  w_cost w <> INF_COST ->
  origs = [] /\ k = CANONICAL_STATE /\ w_cost w = 0 \/
  exists j ss, (1 <= j <= Nat.min max_super (length origs))%nat /\
    lookup_super (take j origs) = Some ss /\ w_inst w ∈ ss /\
    state_in (super_costs (w_inst w)) = k /\
    let v := way (t_trans (lab (drop j origs))) (state_out (super_costs (w_inst w))) in
    w_cost v <> INF_COST /\ w_cost w = w_cost v + ss_cost (w_inst w) /\
    w_no_transition w = w_no_transition v /\ w_relocatable w = true.
Proof using all_relocatable OK.
  intros Hn Hk w Hw. destruct origs as [|p rest].
  - left. destruct (term_best k Hk) as [[Hc _]|(_ & (out & Ho & Ec) & _)]; [done|].
    apply cover_nil in Ho as [-> ->]. split; [done|]. split; [done|]. exact (eq_sym Ec).
  - right. subst w. rewrite lab_cons in *. set (origs := p :: rest) in *.
    destruct (dynprog_spec origs (lbl rest)) as [_ D]. destruct (D k Hk) as (D1 & _ & _). cbv zeta in *.
    destruct D1 as [?|(cd & Hin & [Hs Hf] & E)]; [done|].
    apply elem_of_base_cands in Hin as (j & ss & b & s & Hj & E1 & E2 & Hss & ->).
    assert (Hb : b = lab (drop j origs)).
    { rewrite label_lookup in E2 by (cbn in Hj; lia). injection E2 as <-. destruct j as [|j]; [lia|].
      cbn [drop origs]. by rewrite Nat.sub_succ, Nat.sub_0_r. }
    subst b. rewrite E. rewrite base_cand_reloc in *. cbn [cand_way w_inst w_cost w_no_transition w_relocatable cd_rule
      cd_behind cd_notrans cd_reloc] in *.
    exists j, ss. done.
Qed.

Lemma trans_way origs k :
  (k < maxstates)%nat ->
  let v := way (t_trans (lab origs)) k in
  let I := way (t_inst (lab origs)) in
  w_cost v <> INF_COST ->
  w_no_transition v = true /\ w_cost v = w_cost (I k) /\ w_relocatable v = w_relocatable (I k) \/
  w_no_transition v = false /\ w_inst v ∈ state_transitions /\
    state_in (super_costs (w_inst v)) = k /\
    w_cost (I (state_out (super_costs (w_inst v)))) <> INF_COST /\
    w_cost v = w_cost (I (state_out (super_costs (w_inst v)))) + ss_cost (w_inst v) /\
    w_relocatable v = w_relocatable (I (state_out (super_costs (w_inst v)))).
Proof using OK.
  intros Hk v I Hv. subst v I. destruct (lab_trans_of origs) as (t & E1 & E2).
  pose proof (lab_inst_length origs) as L. rewrite <- E2 in L |- *. rewrite E1 in *.
  destruct (transitions_spec t) as [_ T].
  { rewrite L. intros s Hs. by apply ok_transitions. }
  rewrite L in T. destruct (T k Hk) as ([E|(s & Hs & Hin & Hf & E)] & _); cbv zeta in *;
    rewrite E; cbn [w_inst w_cost w_no_transition w_relocatable]; [left; done|right].
  done.
Qed.

Lemma label_drop origs j : (j <= length origs)%nat -> drop j (lbl origs) = lbl (drop j origs).
Proof using.
  revert j. induction origs as [|p origs IH]; intros j Hj.
  - cbn in Hj. by assert (j = O) as -> by lia.
  - destruct j as [|j]; [done|]. cbn [label]. change (drop j (lbl origs) = lbl (drop j origs)).
    apply IH. cbn in Hj. lia.
Qed.

Lemma state_bounds_inst origs ss s : lookup_super origs = Some ss -> s ∈ ss ->
  (state_out (super_costs s) < maxstates)%nat.
Proof using OK. intros H1 H2. by eapply ok_supers. Qed.

(** The instruction part of one iteration, given the rest. *)
Lemma rewrite_inst p rest k :
  let origs := p :: rest in
  (length origs <= MAX_BB)%nat -> (k < maxstates)%nat ->
  w_cost (way (t_inst (lab origs)) k) <> INF_COST ->
  (forall j k', (1 <= j <= length origs)%nat -> (k' < maxstates)%nat ->
     let v := way (t_trans (lab (drop j origs))) k' in
     w_cost v <> INF_COST ->
     exists evs, rewrite_loop super_costs (lbl (drop j origs)) 0 k' (w_no_transition v) = Some evs /\
       cover true (drop j origs) k' (compiled_prims evs) /\
       total_cost (compiled_prims evs) = w_cost v) ->
  let w := way (t_inst (lab origs)) k in
  exists evs,
    rewrite_loop super_costs (lbl rest) (c_length (super_costs (w_inst w)) - 1)
      (state_out (super_costs (w_inst w))) (w_no_transition w) = Some evs /\
    state_in (super_costs (w_inst w)) = k /\
    cover false origs k (w_inst w :: compiled_prims evs) /\
    total_cost (w_inst w :: compiled_prims evs) = w_cost w.
Proof using all_relocatable OK.
  intros origs Hn Hk Hw IH w.
  destruct (inst_way origs k Hn Hk Hw) as [(? & _)|(j & ss & Hj & E1 & Hss & Hin & Hv & Ec & Ent & _)];
    [done|]. fold w in Hss, Hin, Hv, Ec, Ent |- *.
  destruct (ok_supers OK _ _ _ E1 Hss) as (_ & Hout & Hlen). rewrite length_take in Hlen.
  destruct (IH j (state_out (super_costs (w_inst w))) ltac:(lia) Hout Hv) as (evs & R & Hc & Ht).
  rewrite <- Ent in R.
  destruct (rewrite_loop_skip (lbl rest) (c_length (super_costs (w_inst w)) - 1)
    (state_out (super_costs (w_inst w))) (w_no_transition w)) as (pre & Hp & Es).
  { rewrite label_length, Hlen. cbn in Hj |- *. lia. }
  assert (Ed : drop (c_length (super_costs (w_inst w)) - 1) (lbl rest) = lbl (drop j origs)).
  { rewrite label_drop by (rewrite Hlen; cbn in Hj |- *; lia). f_equal. rewrite Hlen.
    destruct j as [|j]; [lia|]. cbn [drop origs]. f_equal. cbn in Hj |- *. lia. }
  rewrite Ed, R in Es. cbn [mbind option_bind] in Es. exists (pre ++ evs).
  split; [exact Es|]. split; [done|]. rewrite compiled_prims_app, Hp. cbn [app]. split.
  - rewrite <- Hin. by eapply cv_inst.
  - cbn [total_cost foldr]. unfold total_cost in Ht. lia.
Qed.

Lemma rewrite_loop_correct origs k :
  (length origs <= MAX_BB)%nat -> (k < maxstates)%nat ->
  let v := way (t_trans (lab origs)) k in
  w_cost v <> INF_COST ->
  exists evs, rewrite_loop super_costs (lbl origs) 0 k (w_no_transition v) = Some evs /\
    cover true origs k (compiled_prims evs) /\ total_cost (compiled_prims evs) = w_cost v.
Proof using all_relocatable OK.
  remember (length origs) as n eqn:En. revert origs k En.
  induction n as [n IH] using lt_wf_ind. intros origs k -> Hn Hk v Hv.
  destruct (trans_way origs k Hk Hv) as [(Ent & Ec & _)|(Ent & Hin & Hst & Hf & Ec & _)];
    fold v in Ent, Ec |- *; rewrite Ent.
  - (* no transition *)
    rewrite Ec in Hv. destruct origs as [|p rest].
    + destruct (inst_way [] k Hn Hk Hv) as [(_ & -> & E0)|(j & ss & Hj & _)]; [|cbn in Hj; lia].
      exists []. split; [done|]. split; [do 2 constructor|]. exact (eq_sym (eq_trans Ec E0)).
    + destruct (rewrite_inst p rest k Hn Hk Hv) as (evs & R & Hs & Hc & Ht).
      { intros j k' Hj Hk' v' Hv'. apply (IH (length (drop j (p :: rest)))); try done;
          rewrite length_drop; lia. }
      set (w := way (t_inst (lab (p :: rest))) k) in *.
      exists (Compile (w_inst w) :: evs). split; [|split; [by constructor | by rewrite Ec]].
      cbn [label]. change (dyn (p :: rest) (lbl rest)) with (lab (p :: rest)).
      destruct (lbl rest) as [|t ts] eqn:El; [by pose proof (label_length rest); rewrite El in *|].
      cbn [rewrite_loop negb Nat.eqb]. cbn [mbind option_bind fst snd]. fold w.
      destruct (Z.eqb_spec (w_cost w) INF_COST); [done|].
      rewrite Hs, Nat.eqb_refl. cbn [orb negb]. fold (rewrite_loop super_costs) in *.
      change ((evs ← rewrite_loop super_costs (t :: ts) (c_length (super_costs (w_inst w)) - 1)
        (state_out (super_costs (w_inst w))) (w_no_transition w);
        Some ([] ++ Compile (w_inst w) :: evs)) = Some (Compile (w_inst w) :: evs)).
      rewrite R. done.
  - (* transition first *)
    fold v in Hin, Hst, Hf.
    set (k' := state_out (super_costs (w_inst v))) in *.
    assert (Hk' : (k' < maxstates)%nat) by (by apply ok_transitions).
    assert (Hdt : do_transition super_costs (lab origs) k = Some (w_inst v, k')).
    { unfold do_transition. fold v. destruct (Z.eqb_spec (w_cost v) INF_COST); [done|].
      by rewrite Hst, Nat.eqb_refl. }
    destruct origs as [|p rest].
    + destruct (inst_way [] k' Hn Hk' Hf) as [(_ & E & E0)|(j & ss & Hj & _)]; [|cbn in Hj; lia].
      exists [Compile (w_inst v)]. split; [|split].
      * change (lbl []) with [lab []]. cbn [rewrite_loop negb]. rewrite Hdt. cbn [mbind option_bind fst snd].
        by rewrite E.
      * pose proof (cv_trans [] (w_inst v) [] Hin) as X. rewrite Hst in X. apply X.
        fold k'. rewrite E. constructor.
      * change (ss_cost (w_inst v) + 0 = w_cost v). rewrite Ec, E0. lia.
    + destruct (rewrite_inst p rest k' Hn Hk' Hf) as (evs & R & Hs & Hc & Ht).
      { intros j k2 Hj Hk2 v' Hv'. apply (IH (length (drop j (p :: rest)))); try done;
          rewrite length_drop; lia. }
      set (w := way (t_inst (lab (p :: rest))) k') in *.
      exists (Compile (w_inst v) :: Compile (w_inst w) :: evs). split; [|split].
      * cbn [label]. change (dyn (p :: rest) (lbl rest)) with (lab (p :: rest)).
        destruct (lbl rest) as [|t ts] eqn:El; [by pose proof (label_length rest); rewrite El in *|].
        cbn [rewrite_loop negb Nat.eqb]. rewrite Hdt. cbn [mbind option_bind fst snd]. fold w.
        destruct (Z.eqb_spec (w_cost w) INF_COST); [done|].
        rewrite Hs, Nat.eqb_refl. cbn [orb negb].
        change ((evs ← rewrite_loop super_costs (t :: ts) (c_length (super_costs (w_inst w)) - 1)
          (state_out (super_costs (w_inst w))) (w_no_transition w);
          Some ([Compile (w_inst v)] ++ Compile (w_inst w) :: evs)) =
          Some (Compile (w_inst v) :: Compile (w_inst w) :: evs)).
        rewrite R. done.
      * change (cover true (p :: rest) k (w_inst v :: w_inst w :: compiled_prims evs)).
        pose proof (cv_trans (p :: rest) (w_inst v) _ Hin Hc) as X. by rewrite Hst in X.
      * change (total_cost (w_inst v :: w_inst w :: compiled_prims evs) = w_cost v).
        unfold total_cost in *. cbn [foldr] in *. lia.
Qed.

Lemma first_relocatable p rest :
  (length (p :: rest) <= MAX_BB)%nat ->
  let v := way (t_trans (lab (p :: rest))) CANONICAL_STATE in
  w_cost v <> INF_COST -> w_relocatable v = true.
Proof using all_relocatable OK.
  intros Hn v Hv.
  assert (HI : forall k, (k < maxstates)%nat -> w_cost (way (t_inst (lab (p :: rest))) k) <> INF_COST ->
                 w_relocatable (way (t_inst (lab (p :: rest))) k) = true).
  { intros k Hk Hf. destruct (inst_way (p :: rest) k ltac:(lia) Hk Hf)
      as [(? & _)|(j & ss & _ & _ & _ & _ & _ & _ & _ & E)]; [done | exact E]. }
  destruct (trans_way (p :: rest) CANONICAL_STATE (ok_canonical OK) Hv)
    as [(_ & Ec & Er)|(_ & Hin & _ & Hf & _ & Er)]; unfold v; rewrite Er.
  - apply HI; [apply OK | by rewrite <- Ec].
  - apply HI; [|done]. by apply (ok_transitions OK).
Qed.

(** Labelling and rewriting a coverable block gives a cover whose cost is the
    label's. *)
Lemma optimize_rewrite_best origs out :
  (0 < length origs <= MAX_BB)%nat -> cover true origs CANONICAL_STATE out ->
  exists evs c, optimize_rewrite maxstates max_super super_costs ss_cost is_relocatable
      state_transitions lookup_super term origs = Some evs /\
    cover true origs CANONICAL_STATE (compiled_prims evs) /\
    total_cost (compiled_prims evs) = c /\ best true origs CANONICAL_STATE c.
Proof using all_relocatable OK.
  intros Hn Ho. destruct (lab_best origs ltac:(lia) CANONICAL_STATE (ok_canonical OK)) as [_ HB].
  pose proof (best_some _ _ _ _ _ HB Ho) as Hv.
  destruct (rewrite_loop_correct origs CANONICAL_STATE ltac:(lia) (ok_canonical OK) Hv) as (evs & R & Hc & Et).
  exists evs. eexists. split; [|split; [exact Hc|split; [exact Et|exact HB]]].
  unfold optimize_rewrite. destruct origs as [|p rest]; [cbn in Hn; lia|]. unfold rewrite.
  rewrite label_head. cbn [mbind option_bind].
  rewrite (first_relocatable p rest ltac:(lia) Hv). exact R.
Qed.

(** Every instruction can be compiled from and to the canonical state. *)
Definition feasible (origs : list Z) : Prop :=
  (1 <= max_super)%nat /\
  forall p, p ∈ origs -> exists ss s, lookup_super [p] = Some ss /\ s ∈ ss /\
    state_in (super_costs s) = CANONICAL_STATE /\ state_out (super_costs s) = CANONICAL_STATE.

Lemma feasible_cover origs : feasible origs -> exists out, cover false origs CANONICAL_STATE out.
Proof using.
  intros [Hm H]. induction origs as [|p rest IH]; [exists []; constructor|].
  destruct IH as (out & Ho); [intros q Hq; apply H; by right|].
  destruct (H p ltac:(left)) as (ss & s & E & Hs & Hi & Hout). exists (s :: out).
  rewrite <- Hi. apply (cv_inst (p :: rest) 1 ss s); [cbn [length]; lia|done|done|].
  rewrite Hout. by constructor.
Qed.

Lemma feasible_tail p rest : feasible (p :: rest) -> feasible rest.
Proof using. intros [Hm H]. split; [done|]. intros q Hq. apply H. by right. Qed.

End Correctness.

(** ** Properties *)

(** What the block's labels depend on: [is_relocatable] of the primitives that
    implement a sequence of its instructions. *)
Definition block_primitive (lookup_super : list Z -> option (list Z)) (origs : list Z) (s : Z) : Prop :=
  exists i j ss, lookup_super (take j (drop i origs)) = Some ss /\ s ∈ ss.

Lemma base_rule_ext super_costs ss_cost reloc reloc' behind inst s :
  reloc s = reloc' s ->
  base_rule super_costs ss_cost reloc behind inst s = base_rule super_costs ss_cost reloc' behind inst s.
Proof. intros E. unfold base_rule. by rewrite E. Qed.

Lemma foldl_ext_in {A B} (f g : A -> B -> A) (l : list B) (a : A) :
  (forall x b, b ∈ l -> f x b = g x b) -> foldl f a l = foldl g a l.
Proof.
  revert a. induction l as [|b l IH]; intros a H; [done|]. cbn [foldl].
  rewrite (H a b) by left. apply IH. intros x b' Hb. apply H. by right.
Qed.

Lemma dynprog_ext maxstates max_super super_costs ss_cost reloc reloc' state_transitions lookup_super origs ts :
  (forall j ss s, lookup_super (take j origs) = Some ss -> s ∈ ss -> reloc s = reloc' s) ->
  dynprog maxstates max_super super_costs ss_cost reloc state_transitions lookup_super origs ts =
  dynprog maxstates max_super super_costs ss_cost reloc' state_transitions lookup_super origs ts.
Proof.
  intros H. unfold dynprog. do 2 f_equal. apply foldl_ext_in. intros inst j _.
  destruct (lookup_super (take j origs)) as [ss|] eqn:E; [|done]. destruct (ts !! _); [|done].
  apply foldl_ext_in. intros x s Hs. apply base_rule_ext. by apply (H j ss).
Qed.

Lemma label_ext maxstates max_super super_costs ss_cost reloc reloc' state_transitions lookup_super t origs :
  (forall s, block_primitive lookup_super origs s -> reloc s = reloc' s) ->
  label maxstates max_super super_costs ss_cost reloc state_transitions lookup_super t origs =
  label maxstates max_super super_costs ss_cost reloc' state_transitions lookup_super t origs.
Proof.
  induction origs as [|p rest IH]; intros H; [done|]. cbn [label]. cbv zeta. rewrite IH.
  - f_equal. apply dynprog_ext. intros j ss s E Hs. apply H. by exists 0%nat, j, ss.
  - intros s (i & j & ss & E & Hs). apply H. by exists (S i), j, ss.
Qed.

Lemma block_primitive_drop lookup_super origs j s :
  block_primitive lookup_super (drop j origs) s -> block_primitive lookup_super origs s.
Proof. intros (i & k & ss & E & Hs). exists (j + i)%nat, k, ss. by rewrite <- drop_drop. Qed.

(** A cover consists of primitives of the block and state transitions. *)
Lemma cover_primitives max_super super_costs state_transitions lookup_super tr origs k out :
  cover max_super super_costs state_transitions lookup_super tr origs k out ->
  forall p, p ∈ out -> block_primitive lookup_super origs p \/ p ∈ state_transitions.
Proof.
  induction 1 as [|origs j ss s out Hj E Hss _ IH|origs k out _ IH|origs s out Hin _ IH]; intros p Hp.
  - by apply not_elem_of_nil in Hp.
  - apply elem_of_cons in Hp as [->|Hp]; [left; by exists 0%nat, j, ss|].
    destruct (IH p Hp) as [H|H]; [left; by eapply block_primitive_drop|by right].
  - by apply IH.
  - apply elem_of_cons in Hp as [->|Hp]; [by right|by apply IH].
Qed.

(** Optimality as in [optimize_rewrite_best], where only the block's own
    primitives have to be relocatable. *)
Lemma optimize_rewrite_block maxstates max_super super_costs ss_cost is_relocatable state_transitions lookup_super origs out :
  tables_ok maxstates super_costs ss_cost state_transitions lookup_super ->
  (forall s, block_primitive lookup_super origs s -> is_relocatable s = true) ->
  (0 < length origs <= MAX_BB)%nat ->
  let cov := cover max_super super_costs state_transitions lookup_super true origs CANONICAL_STATE in
  cov out ->
  exists evs,
    optimize_rewrite maxstates max_super super_costs ss_cost is_relocatable state_transitions
      lookup_super (make_termstate maxstates super_costs ss_cost state_transitions) origs = Some evs /\
    cov (compiled_prims evs) /\
    (forall out, cov out -> total_cost ss_cost (compiled_prims evs) <= total_cost ss_cost out).
Proof.
  intros OK AR Hn cov Ho.
  destruct (optimize_rewrite_best _ _ _ _ (fun _ => true) _ _ OK (fun _ => eq_refl) origs out Hn Ho)
    as (evs & c & E & Hc & Et & HB).
  exists evs. split; [|split; [exact Hc|]].
  - rewrite <- E. unfold optimize_rewrite. by rewrite (label_ext _ _ _ _ is_relocatable (fun _ => true)).
  - intros out' Ho'. rewrite Et. by apply (best_le _ _ _ _ _ _ _ _ _ _ HB).
Qed.

(** C3: instruction selection is optimal and never trips an assertion, for a
    block whose code can all be copied: take a block of 1 to [MAX_BB]
    instructions that can be covered at all, with primitives that start and end
    in states below [maxstates], whose recorded length is that of their
    sequence and whose costs are from 0 to [COST_BOUND], and where every
    primitive that implements a sequence of the block's instructions is
    relocatable (other primitives need not be).  Then the dynamic-programming
    labeller and the rewriting loop produce a cover that starts and ends in the
    canonical stack state and whose total cost is minimal among all covers by
    superinstructions, stack-caching variants and state transitions.  For
    blocks with a non-relocatable primitive, where the labeller restricts the
    transitions behind it, optimality is not claimed. *)
Theorem selection_optimal (maxstates max_super : nat) (super_costs : Z -> cost_info)
    (ss_cost : Z -> Z) (is_relocatable : Z -> bool) (state_transitions : list Z)
    (lookup_super : list Z -> option (list Z)) (origs : list Z) :
  tables_ok maxstates super_costs ss_cost state_transitions lookup_super ->
  (forall s, block_primitive lookup_super origs s -> is_relocatable s = true) ->
  (0 < length origs <= MAX_BB)%nat ->
  let cov := cover max_super super_costs state_transitions lookup_super true origs CANONICAL_STATE in
  (exists out, cov out) ->
  exists evs,
    optimize_rewrite maxstates max_super super_costs ss_cost is_relocatable state_transitions
      lookup_super (make_termstate maxstates super_costs ss_cost state_transitions) origs = Some evs /\
    cov (compiled_prims evs) /\
    (forall out, cov out -> total_cost ss_cost (compiled_prims evs) <= total_cost ss_cost out).
Proof.
  intros OK AR Hn cov [out Ho]. by apply (optimize_rewrite_block _ _ _ _ _ _ _ _ out).
Qed.

(** *** A small instruction set: two instructions (1, 2), their canonical
    versions (1, 2), register-state versions (3: 1 from state 0 to 1; 4: 2 from
    state 1 to 0), a transition each way (5, 6) and the superinstruction 7. *)
Definition demo_cost_info (p : Z) : cost_info :=
  if p =? 3 then mkCost 0 1 1 else if p =? 4 then mkCost 1 0 1
  else if p =? 5 then mkCost 0 1 1 else if p =? 6 then mkCost 1 0 1
  else if p =? 7 then mkCost 0 0 2 else mkCost 0 0 1.
Definition demo_ss_cost (p : Z) : Z :=
  if (p =? 3) || (p =? 4) then 6 else if (p =? 5) || (p =? 6) then 3
  else if p =? 7 then 12 else 10.
Definition demo_lookup (key : list Z) : option (list Z) :=
  if decide (key = [1]) then Some [1; 3] else if decide (key = [2]) then Some [2; 4] else None.
Definition demo_lookup2 (key : list Z) : option (list Z) :=
  if decide (key = [1]) then Some [1] else if decide (key = [2]) then Some [2]
  else if decide (key = [1; 2]) then Some [7] else None.

Lemma demo_costs_ok p : 0 <= demo_ss_cost p <= COST_BOUND.
Proof.
  unfold demo_ss_cost, COST_BOUND. destruct (_ || _); [lia|]. destruct (_ || _); [lia|].
  destruct (_ =? _); lia.
Qed.

Lemma demo_tables_ok : tables_ok 2 demo_cost_info demo_ss_cost [5; 6] demo_lookup.
Proof.
  constructor; [unfold CANONICAL_STATE; lia | | | apply demo_costs_ok].
  - intros s Hs. repeat (apply elem_of_cons in Hs as [->|Hs]; [cbn; lia|]). by apply not_elem_of_nil in Hs.
  - intros key ss s E Hs. unfold demo_lookup in E. repeat (destruct (decide _); subst); try done;
      injection E as <-;
      repeat (apply elem_of_cons in Hs as [->|Hs]; [cbn; lia|]); by apply not_elem_of_nil in Hs.
Qed.

Lemma demo_cover_end :
  cover 2 demo_cost_info [5; 6] demo_lookup true [2] CANONICAL_STATE [2].
Proof.
  apply cv_notrans. change CANONICAL_STATE with (state_in (demo_cost_info 2)).
  apply (cv_inst 2 demo_cost_info [5; 6] demo_lookup [2] 1 [2; 4] 2); [cbn; lia | done | by left |].
  apply cv_notrans. apply cv_end.
Qed.

Lemma demo_cover :
  cover 2 demo_cost_info [5; 6] demo_lookup true [1; 2] CANONICAL_STATE [1; 2].
Proof.
  apply cv_notrans. change CANONICAL_STATE with (state_in (demo_cost_info 1)).
  apply (cv_inst 2 demo_cost_info [5; 6] demo_lookup [1; 2] 1 [1; 3] 1); [cbn; lia | done | by left |].
  apply demo_cover_end.
Qed.

(** Primitive 7 is not relocatable, but not in the way of this block. *)
Lemma demo_block_relocatable s : block_primitive demo_lookup [1; 2] s -> negb (s =? 7) = true.
Proof.
  intros (i & j & ss & E & Hs). unfold demo_lookup in E.
  repeat case_decide; simplify_eq; rewrite !elem_of_cons, elem_of_nil in Hs; by destruct Hs as [->|[->|[]]].
Qed.

Lemma selection_optimal_witness :
  exists evs,
    optimize_rewrite 2 2 demo_cost_info demo_ss_cost (fun s => negb (s =? 7)) [5; 6] demo_lookup
      (make_termstate 2 demo_cost_info demo_ss_cost [5; 6]) [1; 2] = Some evs /\
    compiled_prims evs = [3; 4] /\ total_cost demo_ss_cost (compiled_prims evs) <= 20.
Proof.
  destruct (selection_optimal 2 2 demo_cost_info demo_ss_cost (fun s => negb (s =? 7)) [5; 6] demo_lookup [1; 2]
    demo_tables_ok demo_block_relocatable ltac:(cbn; unfold MAX_BB; lia) (ex_intro _ _ demo_cover))
    as (evs & E & _ & M).
  exists evs. split; [exact E|]. split; [|exact (M _ demo_cover)].
  revert E. vm_compute. intros [= <-]. reflexivity.
Defined.
