(* ===== verification/Labels.v ===== *)
(** * Labels with any mix of primitives

    [Tpa] proves the cover optimal when all primitives are relocatable.  This
    file describes the labels that dynamic programming computes when some are
    not: code that follows a non-relocatable primitive is entered through the
    threaded code, so a state transition in front of another non-relocatable
    primitive would never be executed, and the labeller avoids it.  The
    description ([labelled]) is what code generation relies on; rewriting a
    labelled block never fails an assertion. *)
From S2P Require Import Prelude Tpa.

Section Labels.
Context (maxstates max_super : nat).
Context (super_costs : Z -> cost_info) (ss_cost : Z -> Z) (is_relocatable : Z -> bool).
Context (state_transitions : list Z) (lookup_super : list Z -> option (list Z)).

Abbreviation term := (make_termstate maxstates super_costs ss_cost state_transitions).
Abbreviation lbl := (label maxstates max_super super_costs ss_cost is_relocatable
                       state_transitions lookup_super term).
Abbreviation lab := (Tpa.lab maxstates max_super super_costs ss_cost is_relocatable
                       state_transitions lookup_super).
Abbreviation dyn := (dynprog maxstates max_super super_costs ss_cost is_relocatable
                       state_transitions lookup_super).
Abbreviation cover := (Tpa.cover max_super super_costs state_transitions lookup_super).
Abbreviation ok_supers := (Tpa.ok_supers _ _ _ _ _).
Abbreviation ok_transitions := (Tpa.ok_transitions _ _ _ _ _).
Abbreviation base_cand := (Tpa.base_cand super_costs is_relocatable).

(** ** What a label promises *)

(** Continuing at label [t] in state [k], with a state transition unless [nt],
    leads to the end of the block. *)
Definition ready (t : tpa_state) (k : nat) (nt : bool) : Prop :=
  if nt then w_cost (way (t_inst t) k) <> INF_COST
  else w_cost (way (t_trans t) k) <> INF_COST /\ w_no_transition (way (t_trans t) k) = false.

(** The waypoint [w] for state [k] in front of the block [origs] with labels
    [ts]: a variant of the first instructions, behind which the block can be
    continued as the waypoint says; behind a non-relocatable primitive a state
    transition is planned only in front of a relocatable one. *)
Definition inst_ok (origs : list Z) (ts : list tpa_state) (w : waypoint) (k : nat) : Prop :=
  exists j ss b, (1 <= j <= Nat.min max_super (length origs))%nat /\
    lookup_super (take j origs) = Some ss /\ w_inst w ∈ ss /\
    state_in (super_costs (w_inst w)) = k /\ w_relocatable w = is_relocatable (w_inst w) /\
    ts !! j = Some b /\ ready b (state_out (super_costs (w_inst w))) (w_no_transition w) /\
    (is_relocatable (w_inst w) = false -> w_no_transition w = false ->
     w_relocatable (way (t_trans b) (state_out (super_costs (w_inst w)))) = true).

(** A state transition leads to an instruction, and is relocatable iff that is. *)
Definition trans_ok (t : tpa_state) : Prop :=
  forall k, (k < maxstates)%nat -> ready t k false ->
    let v := way (t_trans t) k in
    w_inst v ∈ state_transitions /\ state_in (super_costs (w_inst v)) = k /\
    ready t (state_out (super_costs (w_inst v))) true /\
    w_relocatable v = w_relocatable (way (t_inst t) (state_out (super_costs (w_inst v)))).

Inductive labelled : list Z -> list tpa_state -> Prop :=
| lb_end t :
    (forall k, (k < maxstates)%nat -> ready t k true -> k = CANONICAL_STATE) ->
    (forall k, (k < maxstates)%nat -> ready t k false -> w_relocatable (way (t_trans t) k) = false) ->
    trans_ok t -> labelled [] [t]
| lb_cons p rest t ts :
    labelled rest ts ->
    (forall k, (k < maxstates)%nat -> ready t k true -> inst_ok (p :: rest) (t :: ts) (way (t_inst t) k) k) ->
    trans_ok t -> labelled (p :: rest) (t :: ts).

Lemma labelled_length origs ts : labelled origs ts -> length ts = S (length origs).
Proof using. induction 1; cbn [length]; congruence. Qed.

Context (OK : tables_ok maxstates super_costs ss_cost state_transitions lookup_super).

(** ** The labeller's labels *)

Lemma lab_trans_ok origs : trans_ok (lab origs).
Proof using OK.
  intros k Hk [Hf Hn]. destruct (trans_way _ _ _ _ _ _ _ OK origs k Hk Hf)
    as [(En & _)|(_ & Hin & Hs & Hf' & _ & Er)]; [congruence|done].
Qed.

(** A finite transition label can be used. *)
Lemma lab_trans_ready origs k :
  (k < maxstates)%nat -> w_cost (way (t_trans (lab origs)) k) <> INF_COST ->
  ready (lab origs) k (w_no_transition (way (t_trans (lab origs)) k)).
Proof using OK.
  intros Hk Hf. destruct (trans_way _ _ _ _ _ _ _ OK origs k Hk Hf) as [(En & Ec & _)|(En & _)];
    rewrite En; cbn [ready]; [by rewrite <- Ec|done].
Qed.

Lemma lab_behind p rest j :
  (1 <= j <= length (p :: rest))%nat -> lbl rest !! (j - 1)%nat = Some (lab (drop j (p :: rest))).
Proof using.
  intros Hj. cbn [length] in Hj. rewrite label_lookup by lia. destruct j as [|j]; [lia|].
  cbn [drop]. by rewrite Nat.sub_succ, Nat.sub_0_r.
Qed.

Lemma lab_inst_ok p rest k :
  (k < maxstates)%nat -> ready (lab (p :: rest)) k true ->
  inst_ok (p :: rest) (lbl (p :: rest)) (way (t_inst (lab (p :: rest))) k) k.
Proof using OK.
  intros Hk Hf. cbn [ready] in Hf. change (lab (p :: rest)) with (dyn (p :: rest) (lbl rest)) in *.
  destruct (dynprog_spec _ max_super _ _ is_relocatable _ _ OK (p :: rest) (lbl rest)) as [_ D].
  destruct (D k Hk) as ([?|(cd & Hin & [Hs Hb] & E)] & _); [done|]. cbv zeta in E. rewrite E.
  apply elem_of_base_cands in Hin as (j & ss & b & s & Hj & E1 & E2 & Hss & ->).
  rewrite (lab_behind p) in E2 by lia. injection E2 as <-.
  rewrite base_cand_rule in Hs. subst k.
  destruct (ok_supers OK _ _ _ E1 Hss) as (_ & Ho & _).
  exists j, ss, (lab (drop j (p :: rest))). unfold cand_way. cbn [w_inst w_relocatable w_no_transition].
  rewrite base_cand_rule. split; [done|]. split; [done|]. split; [done|]. split; [done|].
  unfold Tpa.base_cand in *.
  destruct (negb (is_relocatable s) && negb (w_relocatable (way (t_trans (lab (drop j (p :: rest))))
    (state_out (super_costs s))))) eqn:C; cbn [cd_reloc cd_notrans cd_behind] in *;
    (split; [done|]); (split; [by rewrite label_lookup by lia|]); split.
  - exact Hb.
  - done.
  - by apply lab_trans_ready.
  - intros R _. rewrite R in C. by apply negb_false_iff in C.
Qed.

Lemma lab_nil_ready k nt : (k < maxstates)%nat -> ready (lab []) k nt ->
  (nt = true -> k = CANONICAL_STATE) /\ (nt = false -> w_relocatable (way (t_trans (lab [])) k) = false).
Proof using OK.
  intros Hk HR. change (lab []) with term in *.
  destruct (term_inst maxstates super_costs ss_cost state_transitions lookup_super OK) as [Ei Li].
  assert (HI : forall k, (k < maxstates)%nat -> way (t_inst term) k =
    if decide (k = CANONICAL_STATE) then mkWay 0 0 false false else mkWay INF_COST 0 false false).
  { intros i Hi. rewrite Ei, way_insert by (unfold init_waypoints; rewrite length_replicate; apply OK).
    destruct (decide _); [done|by apply init_way]. }
  split; intros ->.
  - cbn [ready] in HR. rewrite HI in HR by done. by destruct (decide (k = CANONICAL_STATE)).
  - destruct (lab_trans_ok [] k Hk HR) as (Hin & _ & _ & Er). change (lab []) with term in Er.
    rewrite Er, HI by (by apply (ok_transitions OK)). by destruct (decide _).
Qed.

Lemma label_labelled origs : labelled origs (lbl origs).
Proof using OK.
  induction origs as [|p rest IH].
  - apply lb_end; [| |apply (lab_trans_ok [])]; intros k Hk HR;
      destruct (lab_nil_ready k _ Hk HR) as [H1 H2]; auto.
  - apply lb_cons; [exact IH|exact (lab_inst_ok p rest)|exact (lab_trans_ok (p :: rest))].
Qed.

(** At the end of the block no transition starts in the canonical state. *)
Lemma labelled_end origs ts b nt :
  (forall s, s ∈ state_transitions ->
     state_in (super_costs s) <> CANONICAL_STATE \/ state_out (super_costs s) <> CANONICAL_STATE) ->
  labelled origs ts -> ts !! length origs = Some b -> ready b CANONICAL_STATE nt -> nt = true.
Proof using OK.
  intros HS. induction 1 as [t Hend _ HT|p rest t ts _ IH _ _]; [|exact IH].
  intros [= <-] HR. destruct nt; [done|]. pose proof (Tpa.ok_canonical _ _ _ _ _ OK) as Hc.
  destruct (HT _ Hc HR) as (Hin & Hs & HO & _). destruct (HS _ Hin) as [H|H]; [done|].
  destruct H. apply Hend; [|done]. apply (Tpa.ok_transitions _ _ _ _ _ OK), Hin.
Qed.

(** ** Rewriting a labelled block *)

Lemma do_transition_ready t k :
  (k < maxstates)%nat -> trans_ok t -> ready t k false ->
  exists s, do_transition super_costs t k = Some (s, state_out (super_costs s)) /\
    s = w_inst (way (t_trans t) k) /\ s ∈ state_transitions /\ state_in (super_costs s) = k /\
    ready t (state_out (super_costs s)) true /\
    w_relocatable (way (t_trans t) k) = w_relocatable (way (t_inst t) (state_out (super_costs s))).
Proof using.
  intros Hk HT HR. destruct (HT k Hk HR) as (Hin & Hs & HI & Hr). eexists. split; [|done].
  unfold do_transition. destruct HR as [Hf _]. rewrite (proj2 (Z.eqb_neq _ _) Hf), Hs, Nat.eqb_refl. done.
Qed.

(** The selection of one instruction succeeds. *)
Lemma inst_ok_selected origs t ts k :
  inst_ok origs (t :: ts) (way (t_inst t) k) k -> ready t k true ->
  let p := w_inst (way (t_inst t) k) in
  exists j b, (1 <= j <= length origs)%nat /\ c_length (super_costs p) = j /\
    (w_cost (way (t_inst t) k) =? INF_COST) || negb (state_in (super_costs p) =? k)%nat = false /\
    ts !! (j - 1)%nat = Some b /\ (state_out (super_costs p) < maxstates)%nat /\
    ready b (state_out (super_costs p)) (w_no_transition (way (t_inst t) k)) /\
    forall out, cover true (drop j origs) (state_out (super_costs p)) out -> cover false origs k (p :: out).
Proof using OK.
  intros (j & ss & b & Hj & E1 & Hss & Hs & _ & Eb & HR & _) Hf p.
  destruct (ok_supers OK _ _ _ E1 Hss) as (_ & Ho & Hl). rewrite length_take in Hl. fold p in Hl.
  exists j, b. split; [lia|]. split; [rewrite Hl; lia|]. split.
  { cbn [ready] in Hf. rewrite (proj2 (Z.eqb_neq _ _) Hf). unfold p. by rewrite Hs, Nat.eqb_refl. }
  split. { destruct j as [|j]; [lia|]. by rewrite Nat.sub_succ, Nat.sub_0_r. }
  split; [done|]. split; [done|]. intros out Hc. rewrite <- Hs. by apply (cv_inst _ _ _ _ _ j ss).
Qed.

Lemma rewrite_loop_cons t t' ts skip st nt :
  rewrite_loop super_costs (t :: t' :: ts) skip st nt =
  if (skip =? 0)%nat then
    r ← (if negb nt then
           r ← do_transition super_costs t st; Some ([Compile (fst r)], snd r)
         else Some ([], st));
    let nextstate := snd r in
    let w := way (t_inst t) nextstate in
    let c := super_costs (w_inst w) in
    if (w_cost w =? INF_COST) || negb (state_in c =? nextstate)%nat then None
    else
      evs ← rewrite_loop super_costs (t' :: ts) (c_length c - 1) (state_out c) (w_no_transition w);
      Some (fst r ++ Compile (w_inst w) :: evs)
  else
    evs ← rewrite_loop super_costs (t' :: ts) (skip - 1) st nt;
    Some (Static (w_inst (way (t_inst t) CANONICAL_STATE)) :: evs).
Proof using. done. Qed.

Lemma rewrite_loop_total origs ts :
  labelled origs ts -> forall skip k nt b,
  ts !! skip = Some b -> (k < maxstates)%nat -> ready b k nt ->
  exists evs, rewrite_loop super_costs ts skip k nt = Some evs /\
    cover true (drop skip origs) k (compiled_prims evs).
Proof using OK.
  induction 1 as [t Hend _ HT|p rest t ts Hl IH HI HT]; intros skip k nt b Eb Hk HR.
  - destruct skip as [|skip]; [|done]. injection Eb as <-. cbn [rewrite_loop drop].
    destruct nt; cbn [negb].
    + rewrite (Hend k Hk HR). exists []. split; [done|]. repeat constructor.
    + destruct (do_transition_ready t k Hk HT HR) as (s & -> & _ & Hin & Hs & HR' & _).
      assert (Hz : state_out (super_costs s) = CANONICAL_STATE).
      { apply Hend; [by apply (ok_transitions OK)|done]. }
      exists [Compile s]. cbn [mbind option_bind fst snd]. split; [by rewrite Hz|].
      rewrite <- Hs. apply cv_trans; [done|]. rewrite Hz. constructor.
  - pose proof (labelled_length _ _ Hl) as L. destruct ts as [|t' ts]; [done|]. rewrite rewrite_loop_cons.
    destruct skip as [|skip]; cbn [Nat.eqb].
    2: { rewrite Nat.sub_succ, Nat.sub_0_r. destruct (IH skip k nt b Eb Hk HR) as (evs & -> & Hc).
         cbn [mbind option_bind]. eexists. split; [done|]. exact Hc. }
    injection Eb as <-. cbn [drop].
    assert (HS : forall k', (k' < maxstates)%nat -> ready t k' true ->
      exists evs, (let w := way (t_inst t) k' in let c := super_costs (w_inst w) in
        if (w_cost w =? INF_COST) || negb (state_in c =? k')%nat then None
        else rewrite_loop super_costs (t' :: ts) (c_length c - 1) (state_out c) (w_no_transition w)) = Some evs /\
        cover false (p :: rest) k' (w_inst (way (t_inst t) k') :: compiled_prims evs)).
    { intros k' Hk' HR'. destruct (inst_ok_selected _ _ _ _ (HI k' Hk' HR') HR')
        as (j & b & Hj & El & Ea & Eb & Ho & HR2 & Hc). cbv zeta. rewrite Ea, El.
      destruct (IH (j - 1)%nat _ _ b Eb Ho HR2) as (evs & -> & Hc2). exists evs. split; [done|].
      apply Hc. destruct j as [|j]; [lia|]. rewrite Nat.sub_succ, Nat.sub_0_r in Hc2. exact Hc2. }
    destruct nt; cbn [negb].
    + cbn [mbind option_bind fst snd]. cbv zeta. destruct (HS k Hk HR) as (evs & E & Hc). cbv zeta in E.
      destruct (_ || _); [done|]. rewrite E. cbn [mbind option_bind]. eexists. split; [done|]. by apply cv_notrans.
    + destruct (do_transition_ready t k Hk HT HR) as (s & -> & _ & Hin & Hs & HR' & _).
      cbn [mbind option_bind fst snd]. cbv zeta.
      destruct (HS _ (proj2 (ok_transitions OK s Hin)) HR') as (evs & E & Hc). cbv zeta in E.
      destruct (_ || _); [done|]. rewrite E. cbn [mbind option_bind]. eexists. split; [done|].
      change (cover true (p :: rest) k (s :: w_inst (way (t_inst t) (state_out (super_costs s))) :: compiled_prims evs)).
      rewrite <- Hs. by apply cv_trans.
Qed.
(** ** Costs *)

Lemma lab_trans_length origs : length (t_trans (lab origs)) = maxstates.
Proof using OK.
  destruct (lab_trans_of maxstates max_super super_costs ss_cost is_relocatable state_transitions lookup_super origs)
    as (t & E1 & E2). rewrite E1. destruct (transitions_spec super_costs ss_cost state_transitions t) as [L _].
  - rewrite E2, (lab_inst_length _ _ _ _ _ _ _ OK). intros s Hs. by apply (ok_transitions OK).
  - rewrite L, E2. apply (lab_inst_length _ _ _ _ _ _ _ OK).
Qed.

Lemma lab_trans_le origs k :
  (k < maxstates)%nat -> w_cost (way (t_trans (lab origs)) k) <= w_cost (way (t_inst (lab origs)) k).
Proof using OK.
  intros Hk. destruct (lab_trans_of maxstates max_super super_costs ss_cost is_relocatable state_transitions lookup_super origs)
    as (t & E1 & E2). destruct (transitions_spec super_costs ss_cost state_transitions t) as [_ T].
  { rewrite E2, (lab_inst_length _ _ _ _ _ _ _ OK). intros s Hs. by apply (ok_transitions OK). }
  rewrite E2, (lab_inst_length _ _ _ _ _ _ _ OK), <- E1 in T. by destruct (T k Hk) as (_ & H & _).
Qed.

(** Finite costs grow at most linearly with the block. *)
Definition cost_ok (n : nat) (c : Z) : Prop :=
  c <= INF_COST /\ (c <> INF_COST -> 0 <= c <= COST_BOUND * Z.of_nat n).

Lemma lab_cost_ok origs k :
  (k < maxstates)%nat ->
  cost_ok (2 * length origs) (w_cost (way (t_inst (lab origs)) k)) /\
  cost_ok (2 * length origs + 1) (w_cost (way (t_trans (lab origs)) k)).
Proof using OK.
  remember (length origs) as n eqn:En. revert origs k En.
  induction n as [n IH] using lt_wf_ind. intros origs k -> Hk.
  assert (HI : forall k, (k < maxstates)%nat -> cost_ok (2 * length origs) (w_cost (way (t_inst (lab origs)) k))).
  { clear k Hk. intros k Hk. destruct origs as [|p rest].
    - change (lab []) with term. destruct (term_inst maxstates super_costs ss_cost state_transitions lookup_super OK) as [-> _].
      rewrite way_insert by (unfold init_waypoints; rewrite length_replicate; apply OK).
      destruct (decide _); [cbn [w_cost]|rewrite init_way by done; cbn [w_cost]]; unfold cost_ok, INF_COST; cbn; lia.
    - destruct (dynprog_spec _ max_super _ _ is_relocatable _ _ OK (p :: rest) (lbl rest)) as [_ D].
      destruct (D k Hk) as (D1 & D2 & _). change (lab (p :: rest)) with (dyn (p :: rest) (lbl rest)).
      cbv zeta in *. split; [done|]. intros Hf. destruct D1 as [?|(cd & Hin & [Hs Hb] & E)]; [done|]. rewrite E.
      apply elem_of_base_cands in Hin as (j & ss & b & s & Hj & E1 & E2 & Hss & ->).
      rewrite (lab_behind p) in E2 by lia. injection E2 as <-.
      destruct (ok_supers OK _ _ _ E1 Hss) as (_ & Ho & _).
      destruct (IH (length (drop j (p :: rest))) ltac:(rewrite length_drop; lia) _ _ eq_refl Ho) as [[_ C1] [_ C2]].
      pose proof (ok_costs _ _ _ _ _ OK s). unfold cand_way. cbn [w_cost]. rewrite base_cand_rule.
      rewrite length_drop in C1, C2. unfold Tpa.base_cand in *. destruct (_ && _); cbn [cd_behind] in *.
      + specialize (C1 Hb). unfold COST_BOUND in *. lia.
      + specialize (C2 Hb). unfold COST_BOUND in *. lia. }
  split; [by apply HI|]. split.
  - pose proof (lab_trans_le origs k Hk). destruct (HI k Hk). lia.
  - intros Hf. destruct (trans_way _ _ _ _ _ _ _ OK origs k Hk Hf) as [(_ & Ec & _)|(_ & Hin & _ & Hf' & Ec & _)].
    + rewrite Ec in *. destruct (HI k Hk) as [_ C]. specialize (C Hf). unfold COST_BOUND in *. lia.
    + pose proof (proj2 (ok_transitions OK _ Hin)) as Ho. destruct (HI _ Ho) as [_ C]. specialize (C Hf').
      pose proof (ok_costs _ _ _ _ _ OK (w_inst (way (t_trans (lab origs)) k))). rewrite Ec.
      unfold COST_BOUND in *. lia.
Qed.

(** In a block of instructions with canonical variants the canonical state has
    finite cost everywhere. *)
Lemma lab_canonical_ready origs :
  (length origs <= MAX_BB)%nat -> feasible max_super super_costs lookup_super origs ->
  ready (lab origs) CANONICAL_STATE true.
Proof using OK.
  induction origs as [|p rest IH]; intros Hn HF; cbn [ready].
  - change (lab []) with term. destruct (term_inst maxstates super_costs ss_cost state_transitions lookup_super OK) as [-> _].
    rewrite way_insert by (unfold init_waypoints; rewrite length_replicate; apply OK). by rewrite decide_True.
  - cbn [length] in Hn. specialize (IH ltac:(lia) (feasible_tail _ _ _ _ _ HF)). cbn [ready] in IH.
    destruct HF as [Hm H]. destruct (H p ltac:(left)) as (ss & s & E & Hs & Hi & Ho).
    destruct (dynprog_spec _ max_super _ _ is_relocatable _ _ OK (p :: rest) (lbl rest)) as [_ D].
    destruct (D CANONICAL_STATE (ok_canonical _ _ _ _ _ OK)) as (_ & _ & D3). cbv zeta in D3.
    change (lab (p :: rest)) with (dyn (p :: rest) (lbl rest)).
    pose proof (lab_cost_ok rest _ (ok_canonical _ _ _ _ _ OK)) as [[I1 I2] [T1 T2]].
    pose proof (lab_trans_le rest _ (ok_canonical _ _ _ _ _ OK)) as HT.
    pose proof (ok_costs _ _ _ _ _ OK s) as Hc.
    assert (Hb : w_cost (cd_behind (base_cand (lab rest) s)) <> INF_COST /\
                 w_cost (cd_behind (base_cand (lab rest) s)) <= COST_BOUND * (2 * Z.of_nat (length rest) + 1)).
    { unfold Tpa.base_cand. rewrite Ho. destruct (_ && _); cbn [cd_behind]; unfold COST_BOUND in *; lia. }
    destruct Hb as [Hb1 Hb2].
    assert (Hin : base_cand (lab rest) s ∈ base_cands max_super super_costs is_relocatable lookup_super (p :: rest) (lbl rest)).
    { apply elem_of_base_cands. exists 1%nat, ss, (lab rest), s. cbn [length]. split; [lia|].
      split; [by rewrite take_0 || done|]. split; [by apply (lab_behind p rest 1); cbn [length]; lia|done]. }
    assert (Hle := D3 _ Hin ltac:(split; [by rewrite base_cand_rule|exact Hb1])).
    unfold cand_way in Hle. cbn [w_cost] in Hle. rewrite base_cand_rule in Hle.
    unfold COST_BOUND, INF_COST, MAX_BB in *. lia.
Qed.

(** Every label of such a block can be used in the canonical state. *)
Lemma label_canonical_ready origs :
  (length origs <= MAX_BB)%nat -> feasible max_super super_costs lookup_super origs ->
  Forall (fun t => ready t CANONICAL_STATE true) (lbl origs).
Proof using OK.
  induction origs as [|p rest IH]; intros Hn HF; constructor; try exact (lab_canonical_ready _ Hn HF); [constructor|].
  apply IH; [cbn [length] in Hn; lia|by eapply feasible_tail].
Qed.

Lemma lab_canonical_trans origs :
  (length origs <= MAX_BB)%nat -> feasible max_super super_costs lookup_super origs ->
  w_cost (way (t_trans (lab origs)) CANONICAL_STATE) <> INF_COST.
Proof using OK.
  intros Hn HF. pose proof (lab_canonical_ready _ Hn HF) as HI.
  pose proof (lab_cost_ok origs _ (ok_canonical _ _ _ _ _ OK)) as [[I1 I2] _].
  pose proof (lab_trans_le origs _ (ok_canonical _ _ _ _ _ OK)) as HT.
  cbn [ready] in HI. unfold COST_BOUND, INF_COST, MAX_BB in *. lia.
Qed.

(** The labeller and the rewriting loop succeed on every such block. *)
Lemma optimize_rewrite_total origs :
  (length origs <= MAX_BB)%nat -> feasible max_super super_costs lookup_super origs ->
  exists evs, optimize_rewrite maxstates max_super super_costs ss_cost is_relocatable
      state_transitions lookup_super term origs = Some evs /\
    cover true origs CANONICAL_STATE (compiled_prims evs).
Proof using OK.
  intros Hn HF. destruct origs as [|p rest]; [exists []; split; [done|repeat constructor]|].
  pose proof (lab_canonical_ready _ Hn HF) as HI. unfold optimize_rewrite, rewrite.
  rewrite label_head. cbn [mbind option_bind]. set (v := way (t_trans (lab (p :: rest))) CANONICAL_STATE).
  apply (rewrite_loop_total (p :: rest) _ (label_labelled (p :: rest)) 0 CANONICAL_STATE _ (lab (p :: rest)));
    [done|apply OK|].
  destruct (negb (w_relocatable v) || w_no_transition v) eqn:C; [exact HI|].
  apply orb_false_iff in C as [_ C]. split; [by apply lab_canonical_trans|exact C].
Qed.
End Labels.
