(* ===== verification/Automaton.v ===== *)
(** * The tree-parsing automaton (engine/main.c)

    The labels depend only on the next instruction and the label behind it as
    long as there are no superinstructions, so the engine memoises them: labels
    are normalised by the cost of the canonical state, equal ones are shared
    ([lookup_tpa_state]), and [lookup_tpa] maps an instruction and a label to
    the label in front.  This file shows that the memoisation does not change
    the code, whatever mix of primitives is relocatable.  The definitions are in
    [Tpa]. *)
From S2P Require Import Prelude Tpa Labels.

Section Automaton.
Context (maxstates max_super : nat).
Context (super_costs : Z -> cost_info) (ss_cost : Z -> Z) (is_relocatable : Z -> bool).
Context (state_transitions : list Z) (lookup_super : list Z -> option (list Z)).

Abbreviation rlx := (relax super_costs ss_cost).
Abbreviation relax_cand := (Tpa.relax_cand super_costs ss_cost).
Abbreviation trns := (transitions super_costs ss_cost state_transitions).
Abbreviation term := (make_termstate maxstates super_costs ss_cost state_transitions).
Abbreviation lbl := (label maxstates max_super super_costs ss_cost is_relocatable
                       state_transitions lookup_super term).
Abbreviation lab := (Tpa.lab maxstates max_super super_costs ss_cost is_relocatable
                       state_transitions lookup_super).
Abbreviation dyn := (dynprog maxstates max_super super_costs ss_cost is_relocatable
                       state_transitions lookup_super).
Abbreviation base_cand := (Tpa.base_cand super_costs is_relocatable).
Abbreviation base_cands := (Tpa.base_cands max_super super_costs is_relocatable lookup_super).
Abbreviation feasible := (Tpa.feasible max_super super_costs lookup_super).

Context (OK : tables_ok maxstates super_costs ss_cost state_transitions lookup_super).

Abbreviation ok_transitions := (Tpa.ok_transitions _ _ _ _ _ OK).
Abbreviation ok_costs := (Tpa.ok_costs _ _ _ _ _ OK).
Abbreviation ok_supers := (Tpa.ok_supers _ _ _ _ _ OK).
Abbreviation ok_canonical := (Tpa.ok_canonical _ _ _ _ _ OK).
Abbreviation lab_cost_ok := (Labels.lab_cost_ok maxstates max_super super_costs ss_cost is_relocatable
                               state_transitions lookup_super OK).
Abbreviation lab_inst_length := (Tpa.lab_inst_length maxstates max_super super_costs ss_cost is_relocatable
                               state_transitions lookup_super OK).
Abbreviation lab_trans_length := (Labels.lab_trans_length maxstates max_super super_costs ss_cost is_relocatable
                               state_transitions lookup_super OK).
Abbreviation dynprog_spec := (Tpa.dynprog_spec maxstates max_super super_costs ss_cost is_relocatable
                               state_transitions lookup_super OK).

Abbreviation dynprog_inst := (Tpa.dynprog_inst maxstates max_super super_costs ss_cost is_relocatable
                               state_transitions lookup_super).
Abbreviation label_length := (Tpa.label_length maxstates max_super super_costs ss_cost is_relocatable
                               state_transitions lookup_super).
Abbreviation term_inst := (Tpa.term_inst maxstates super_costs ss_cost state_transitions lookup_super OK).

(** ** Shifting costs *)

Definition shift_way (d : Z) (w : waypoint) : waypoint :=
  if w_cost w =? INF_COST then w
  else mkWay (w_cost w - d) (w_inst w) (w_relocatable w) (w_no_transition w).
Definition shift_state (d : Z) (t : tpa_state) : tpa_state :=
  mkState (map (shift_way d) (t_inst t)) (map (shift_way d) (t_trans t)).

Lemma normalize_shift t :
  tpa_state_normalize t = shift_state (w_cost (way (t_inst t) CANONICAL_STATE)) t.
Proof using. done. Qed.

Lemma way_map f ws k : (k < length ws)%nat -> way (map f ws) k = f (way ws k).
Proof using.
  intros H. unfold way. rewrite !nth_lookup, list_lookup_fmap.
  by destruct (lookup_lt_is_Some_2 _ _ H) as [w ->].
Qed.

Lemma relax_shift d s wo r n ws :
  0 <= d -> (state_in (super_costs s) < length ws)%nat ->
  (w_cost wo <> INF_COST -> w_cost wo + ss_cost s < INF_COST) ->
  rlx s (shift_way d wo) r n (map (shift_way d) ws) = map (shift_way d) (rlx s wo r n ws).
Proof using OK.
  intros Hd Hl Hj. unfold relax. rewrite way_map by done. pose proof (ok_costs s).
  destruct (Z.eqb_spec (w_cost wo) INF_COST) as [E|E].
  { assert (shift_way d wo = wo) as -> by (unfold shift_way; by rewrite E, Z.eqb_refl).
    by rewrite E, Z.eqb_refl. }
  specialize (Hj E).
  assert (shift_way d wo = mkWay (w_cost wo - d) (w_inst wo) (w_relocatable wo) (w_no_transition wo)) as ->
    by (unfold shift_way; by destruct (Z.eqb_spec (w_cost wo) INF_COST)).
  cbn [w_cost]. destruct (Z.eqb_spec (w_cost wo - d) INF_COST); [lia|].
  set (wi := way ws (state_in (super_costs s))).
  assert (C : (w_cost wo - d + ss_cost s <=? w_cost (shift_way d wi)) = (w_cost wo + ss_cost s <=? w_cost wi)).
  { unfold shift_way. destruct (Z.eqb_spec (w_cost wi) INF_COST) as [->|]; cbn [w_cost]; zcases; lia. }
  rewrite C. destruct (w_cost wo + ss_cost s <=? w_cost wi); [|done].
  rewrite list_fmap_insert. f_equal. unfold shift_way. cbn [w_cost w_inst w_relocatable w_no_transition].
  destruct (Z.eqb_spec (w_cost wo + ss_cost s) INF_COST); [lia|]. f_equal. lia.
Qed.

Lemma relax_cand_length ws c : length (relax_cand ws c) = length ws.
Proof using.
  unfold relax_cand, relax. destruct (_ =? _); [done|]. destruct (_ <=? _); [|done]. apply length_insert.
Qed.

Definition shift_cand (d : Z) (c : cand) : cand :=
  mkCand (cd_rule c) (shift_way d (cd_behind c)) (cd_reloc c) (cd_notrans c).

Lemma relax_fold_shift d cs ws :
  0 <= d ->
  (forall c, c ∈ cs -> (state_in (super_costs (cd_rule c)) < length ws)%nat /\
     (w_cost (cd_behind c) <> INF_COST -> w_cost (cd_behind c) + ss_cost (cd_rule c) < INF_COST)) ->
  foldl relax_cand (map (shift_way d) ws) (map (shift_cand d) cs) =
  map (shift_way d) (foldl relax_cand ws cs).
Proof using OK.
  intros Hd. revert ws. induction cs as [|c cs IH]; intros ws H; [done|]. cbn [foldl map].
  rewrite <- IH.
  - f_equal. destruct (H c ltac:(left)) as [H1 H2]. by apply relax_shift.
  - intros c' Hc'. rewrite relax_cand_length. apply H. by right.
Qed.

(** Costs of finite labels are far below [INF_COST]. *)
Lemma lab_finite_bound origs k s :
  (length origs < MAX_BB)%nat -> (k < maxstates)%nat ->
  (w_cost (way (t_trans (lab origs)) k) <> INF_COST ->
     w_cost (way (t_trans (lab origs)) k) + ss_cost s < INF_COST) /\
  (w_cost (way (t_inst (lab origs)) k) <> INF_COST ->
     0 <= w_cost (way (t_inst (lab origs)) k) /\ w_cost (way (t_inst (lab origs)) k) + ss_cost s < INF_COST).
Proof using OK.
  intros Hn Hk. destruct (lab_cost_ok origs k Hk) as [[_ H1] [_ H2]]. pose proof (ok_costs s).
  unfold COST_BOUND, INF_COST, MAX_BB in *. lia.
Qed.

Lemma transitions_shift d t :
  0 <= d -> length (t_inst t) = maxstates ->
  (forall k s, (k < maxstates)%nat -> w_cost (way (t_inst t) k) <> INF_COST ->
     w_cost (way (t_inst t) k) + ss_cost s < INF_COST) ->
  forall tr, trns (mkState (map (shift_way d) (t_inst t)) tr) = shift_state d (trns t).
Proof using OK.
  intros Hd Hl Hb tr. unfold transitions, shift_state. cbn [t_inst t_trans]. f_equal.
  set (f := fun w => mkWay (w_cost w) (w_inst w) (w_relocatable w) true).
  assert (Ef : map f (map (shift_way d) (t_inst t)) = map (shift_way d) (map f (t_inst t))).
  { rewrite !List.map_map. apply List.map_ext. intros w. unfold shift_way, f. cbn [w_cost].
    by destruct (_ =? _). }
  rewrite Ef.
  assert (Hlen : length (map f (t_inst t)) = maxstates) by (by rewrite length_map).
  revert Hlen. generalize (map f (t_inst t)). clear Ef.
  pose proof ok_transitions as HT. revert HT.
  generalize state_transitions at 1 2 3 as l.
  induction l as [|s l IH]; intros HT ws Hlen; [done|]. cbn [foldl].
  destruct (HT s ltac:(left)) as [Hi Ho].
  rewrite way_map by (by rewrite Hl).
  assert (Er : w_relocatable (shift_way d (way (t_inst t) (state_out (super_costs s)))) =
               w_relocatable (way (t_inst t) (state_out (super_costs s))))
    by (unfold shift_way; by destruct (_ =? _)).
  rewrite Er, relax_shift by (done || (by rewrite Hlen) || auto). apply IH.
  - intros s' Hs'. apply HT. by right.
  - unfold relax. destruct (_ =? _); [done|]. destruct (_ <=? _); [|done]. by rewrite length_insert.
Qed.

(** With single-component rules only, a label depends on the first instruction
    and the label behind it. *)
Context (single : forall key ss, lookup_super key = Some ss -> length key = 1%nat).

Lemma base_cands_single p rest ts t :
  head ts = Some t ->
  base_cands (p :: rest) ts =
  match lookup_super [p] with
  | Some ss => if (max_super =? 0)%nat then [] else map (base_cand t) ss
  | None => []
  end.
Proof using single.
  intros Ht. destruct ts as [|t' ts]; [done|]. injection Ht as ->.
  unfold Tpa.base_cands. destruct max_super as [|m]; [by destruct (lookup_super [p])|].
  cbn [length Nat.min seq flat_map]. change (take 1 (p :: rest)) with [p].
  assert (E : forall l, (forall j, j ∈ l -> (2 <= j <= length (p :: rest))%nat) ->
    flat_map (fun j => match lookup_super (take j (p :: rest)), (t :: ts) !! (j - 1)%nat with
                       | Some supers, Some behind => map (base_cand behind) supers
                       | _, _ => [] end) l = []).
  { induction l as [|j l IH]; intros Hl; [done|]. cbn [flat_map]. rewrite IH by (intros; apply Hl; by right).
    destruct (lookup_super (take j (p :: rest))) as [ss|] eqn:E; [|done].
    apply single in E. rewrite length_take in E. specialize (Hl j ltac:(left)). lia. }
  rewrite E.
  - rewrite app_nil_r. cbn [Nat.sub lookup list_lookup]. done.
  - intros j Hj. apply elem_of_seq in Hj. cbn [length]. lia.
Qed.

Definition step (p : Z) (t : tpa_state) : tpa_state := tpa_state_normalize (dyn [p] [t]).

Lemma dynprog_single p rest ts t : head ts = Some t -> dyn (p :: rest) ts = dyn [p] [t].
Proof using single.
  intros Ht. pose proof (dynprog_inst (p :: rest) ts) as E1. pose proof (dynprog_inst [p] [t]) as E2.
  rewrite (base_cands_single p rest ts t Ht) in E1. rewrite (base_cands_single p [] [t] t eq_refl) in E2.
  rewrite <- E2 in E1. unfold dynprog in E1 |- *. rewrite !transitions_inst in E1.
  cbn [t_inst] in E1. by rewrite E1.
Qed.

Lemma base_cand_shift d t s :
  (state_out (super_costs s) < length (t_trans t))%nat -> (state_out (super_costs s) < length (t_inst t))%nat ->
  base_cand (shift_state d t) s = shift_cand d (base_cand t s).
Proof using.
  intros H1 H2. unfold Tpa.base_cand. cbn [shift_state t_trans t_inst]. rewrite !way_map by done.
  assert (E : forall w, w_relocatable (shift_way d w) = w_relocatable w /\ w_no_transition (shift_way d w) = w_no_transition w).
  { intros w. unfold shift_way. by destruct (_ =? _). }
  destruct (E (way (t_trans t) (state_out (super_costs s)))) as [-> ->]. by destruct (_ && _).
Qed.

Lemma dynprog_shift p rest d :
  (length (p :: rest) <= MAX_BB)%nat -> 0 <= d ->
  dyn [p] [shift_state d (lab rest)] = shift_state d (lab (p :: rest)).
Proof using OK single.
  intros Hn Hd. rewrite lab_cons, (dynprog_single p rest _ (lab rest)).
  2: { unfold lab. destruct (lbl rest) eqn:E; [|done]. pose proof (label_length rest). by rewrite E in *. }
  assert (Ei : t_inst (dyn [p] [shift_state d (lab rest)]) = map (shift_way d) (t_inst (dyn [p] [lab rest]))).
  { rewrite !dynprog_inst. rewrite (base_cands_single p [] [_] _ eq_refl),
      (base_cands_single p [] [lab rest] _ eq_refl).
    destruct (lookup_super [p]) as [ss|] eqn:Es, (max_super =? 0)%nat; cbn [foldl];
      try (unfold init_waypoints; rewrite fmap_replicate; done).
    assert (Ew : init_waypoints maxstates = map (shift_way d) (init_waypoints maxstates))
      by (unfold init_waypoints; rewrite fmap_replicate; done).
    rewrite Ew at 1. rewrite <- relax_fold_shift; [|done|].
    - f_equal. rewrite List.map_map. apply map_ext_in. intros s Hs%list_elem_of_In.
      destruct (ok_supers _ _ _ Es Hs) as (_ & Ho & _).
      apply base_cand_shift; [by rewrite lab_trans_length|by rewrite lab_inst_length].
    - intros c (s & -> & Hs)%list_elem_of_fmap. destruct (ok_supers _ _ _ Es Hs) as (Hi & Ho & _).
      rewrite base_cand_rule. unfold init_waypoints. rewrite length_replicate. split; [done|].
      destruct (lab_finite_bound rest _ s ltac:(cbn in Hn; lia) Ho) as [H1 H2].
      unfold Tpa.base_cand. destruct (_ && _); cbn [cd_behind]; [apply H2|exact H1]. }
  unfold dynprog in Ei |- *. rewrite !transitions_inst in Ei. cbn [t_inst] in Ei.
  cbn [length Nat.min] in *. rewrite Ei.
  match goal with |- trns (mkState (map _ ?i) ?tr) = shift_state d (trns (mkState ?i ?tr)) =>
    change i with (t_inst (mkState i tr)) at 1 end.
  apply transitions_shift; [done| |].
  - destruct (dynprog_spec [p] [lab rest]) as [L _]. exact L.
  - intros k s Hk Hf. pose proof (dynprog_spec [p] [lab rest]) as [_ D].
    destruct (lab_cost_ok (p :: rest) k Hk) as [[_ HB] _].
    change (lab (p :: rest)) with (dyn (p :: rest) (lbl rest)) in HB.
    rewrite (dynprog_single p rest _ (lab rest)) in HB by apply label_head. specialize (HB Hf). pose proof (ok_costs s).
    change (w_cost (way (t_inst (dyn [p] [lab rest])) k) + ss_cost s < INF_COST).
    unfold COST_BOUND, INF_COST, MAX_BB in *. cbn [length] in *. lia.
Qed.

Definition canonical_cost (origs : list Z) : Z := w_cost (way (t_inst (lab origs)) CANONICAL_STATE).

Lemma canonical_finite origs :
  (length origs <= MAX_BB)%nat -> feasible origs -> 0 <= canonical_cost origs < INF_COST.
Proof using OK.
  intros Hn Hf. pose proof (lab_canonical_ready _ _ _ _ is_relocatable _ _ OK origs Hn Hf) as H. cbn [ready] in H.
  destruct (lab_cost_ok origs _ ok_canonical) as [[H1 H2] _]. unfold canonical_cost.
  unfold COST_BOUND, INF_COST, MAX_BB in *. lia.
Qed.

Lemma lab_cost_le origs :
  Forall (fun w => w_cost w <= INF_COST) (t_inst (lab origs)) /\
  Forall (fun w => w_cost w <= INF_COST) (t_trans (lab origs)).
Proof using OK.
  split; apply Forall_lookup; intros k w Hw; pose proof (lookup_lt_Some _ _ _ Hw) as Hk.
  - rewrite lab_inst_length in Hk. destruct (lab_cost_ok origs k Hk) as [[H _] _].
    unfold way in H. by rewrite nth_lookup, Hw in H.
  - rewrite lab_trans_length in Hk. destruct (lab_cost_ok origs k Hk) as [_ [H _]].
    unfold way in H. by rewrite nth_lookup, Hw in H.
Qed.

Lemma shift_way_compose a b w : 0 <= b -> w_cost w <= INF_COST ->
  shift_way a (shift_way b w) = shift_way (a + b) w.
Proof using.
  intros Hb Hw. unfold shift_way. destruct (Z.eqb_spec (w_cost w) INF_COST) as [E|E].
  - by rewrite E, Z.eqb_refl.
  - cbn [w_cost w_inst w_relocatable w_no_transition].
    destruct (Z.eqb_spec (w_cost w - b) INF_COST); [lia|]. f_equal. lia.
Qed.

Lemma shift_state_compose a b t :
  0 <= b -> Forall (fun w => w_cost w <= INF_COST) (t_inst t) ->
  Forall (fun w => w_cost w <= INF_COST) (t_trans t) ->
  shift_state a (shift_state b t) = shift_state (a + b) t.
Proof using.
  intros Hb H1 H2. unfold shift_state. cbn [t_inst t_trans]. rewrite !List.map_map.
  rewrite Forall_forall in H1, H2.
  f_equal; apply map_ext_in; intros w Hw; apply shift_way_compose; auto.
Qed.

Lemma shift_state_0 t : shift_state 0 t = t.
Proof using.
  destruct t as [i tr]. unfold shift_state. cbn [t_inst t_trans].
  assert (E : forall ws, map (shift_way 0) ws = ws).
  { induction ws as [|[c s r n] ws IH]; [done|]. cbn [map]. rewrite IH. f_equal. unfold shift_way.
    cbn [w_cost w_inst w_relocatable w_no_transition]. destruct (_ =? _); [done|]. f_equal. lia. }
  by rewrite !E.
Qed.

(** The states the automaton computes, without the tables. *)
Fixpoint auto_list (origs : list Z) : list tpa_state :=
  match origs with
  | [] => [term]
  | p :: rest => step p (hd term (auto_list rest)) :: auto_list rest
  end.

Lemma auto_shift origs :
  (length origs <= MAX_BB)%nat -> feasible origs ->
  hd term (auto_list origs) = shift_state (canonical_cost origs) (lab origs).
Proof using OK single.
  induction origs as [|p rest IH]; intros Hn Hf.
  - cbn [auto_list hd]. unfold canonical_cost. change (lab []) with term.
    destruct term_inst as [-> _]. rewrite way_insert.
    + rewrite decide_True by done. cbn [w_cost]. by rewrite shift_state_0.
    + unfold init_waypoints. rewrite length_replicate. apply OK.
  - cbn [auto_list hd]. pose proof (feasible_tail _ _ _ _ _ Hf) as Hf'.
    rewrite IH by (done || (cbn in Hn; lia)). unfold step.
    pose proof (canonical_finite rest ltac:(cbn in Hn; lia) Hf').
    rewrite dynprog_shift by (done || lia). rewrite normalize_shift.
    destruct (lab_cost_le (p :: rest)) as [C1 C2].
    rewrite shift_state_compose by (done || lia). f_equal.
    unfold shift_state at 1. cbn [t_inst]. rewrite way_map by (rewrite lab_inst_length; apply OK).
    pose proof (canonical_finite (p :: rest) Hn Hf) as Hc. unfold canonical_cost in *.
    unfold shift_way. destruct (Z.eqb_spec (w_cost (way (t_inst (lab (p :: rest))) CANONICAL_STATE)) INF_COST);
      [lia|]. cbn [w_cost]. lia.
Qed.

(** Shifting changes costs only, and no cost to or from [INF_COST]. *)
Definition bounded (ws : list waypoint) : Prop := Forall (fun w => w_cost w <= INF_COST) ws.

Lemma shift_way_spec d ws k :
  0 <= d -> bounded ws ->
  let w := way ws k in let w' := way (map (shift_way d) ws) k in
  w_inst w' = w_inst w /\ w_no_transition w' = w_no_transition w /\ w_relocatable w' = w_relocatable w /\
  ((w_cost w' =? INF_COST) = (w_cost w =? INF_COST)).
Proof using.
  intros Hd Hws. destruct (Nat.lt_ge_cases k (length ws)) as [Hk|Hk].
  - cbv zeta. rewrite way_map by done. unfold shift_way.
    assert (w_cost (way ws k) <= INF_COST).
    { unfold bounded in Hws. rewrite Forall_lookup in Hws. unfold way. rewrite nth_lookup.
      destruct (lookup_lt_is_Some_2 _ _ Hk) as [w Ew]. rewrite Ew. cbn. eauto. }
    destruct (Z.eqb_spec (w_cost (way ws k)) INF_COST) as [E|E]; cbn [w_inst w_no_transition w_cost w_relocatable].
    + by rewrite E.
    + do 3 (split; [done|]). apply Z.eqb_neq. lia.
  - unfold way. by rewrite !nth_overflow by (rewrite ?length_map; done).
Qed.

Definition shiftable (r : Z * tpa_state) : Prop :=
  0 <= fst r /\ bounded (t_inst (snd r)) /\ bounded (t_trans (snd r)).
Definition shift (r : Z * tpa_state) : tpa_state := shift_state (fst r) (snd r).

(** Rewriting looks at costs only through [INF_COST]. *)
Lemma rewrite_loop_shift rs skip st nt :
  Forall shiftable rs ->
  rewrite_loop super_costs (map shift rs) skip st nt = rewrite_loop super_costs (map snd rs) skip st nt.
Proof using.
  assert (DT : forall r k, shiftable r -> do_transition super_costs (shift r) k = do_transition super_costs (snd r) k).
  { intros r k (Hd & _ & Ht). unfold do_transition, shift, shift_state. cbn [t_trans].
    by destruct (shift_way_spec (fst r) _ k Hd Ht) as (-> & _ & _ & ->). }
  revert skip st nt. induction rs as [|r rs IH]; intros skip st nt H; [done|].
  apply Forall_cons_1 in H as [SH H]. pose proof SH as (Hd & Hi & _). cbn [map].
  destruct rs as [|r' rs].
  - cbn [map rewrite_loop]. by rewrite DT.
  - cbn [map] in *. rewrite !rewrite_loop_cons.
    assert (W : forall k, let w := way (t_inst (snd r)) k in let w' := way (t_inst (shift r)) k in
      w_inst w' = w_inst w /\ w_no_transition w' = w_no_transition w /\ (w_cost w' =? INF_COST) = (w_cost w =? INF_COST)).
    { intros k. destruct (shift_way_spec (fst r) _ k Hd Hi) as (? & ? & _ & ?). done. }
    destruct (skip =? 0)%nat.
    + rewrite DT by done. destruct (if negb nt then _ else _) as [x|]; [|done]. cbn [mbind option_bind]. cbv zeta.
      destruct (W (snd x)) as (-> & -> & ->). destruct (_ || _); [done|]. by rewrite IH.
    + destruct (W CANONICAL_STATE) as (-> & _). by rewrite IH.
Qed.

Lemma auto_list_shift origs :
  (length origs <= MAX_BB)%nat -> feasible origs ->
  exists rs, auto_list origs = map shift rs /\ map snd rs = lbl origs /\ Forall shiftable rs.
Proof using OK single.
  induction origs as [|p rest IH]; intros Hn Hf.
  - exists [(0, term)]. split; [unfold shift; cbn [auto_list map fst snd]; by rewrite shift_state_0|]. split; [done|].
    constructor; [|constructor]. destruct (lab_cost_le []) as [H1 H2]. split; [cbn; lia|]. done.
  - destruct IH as (rs & E1 & E2 & E3); [cbn in Hn; lia | by eapply feasible_tail|].
    exists ((canonical_cost (p :: rest), lab (p :: rest)) :: rs).
    pose proof (auto_shift (p :: rest) Hn Hf) as Ea. cbn [auto_list hd] in Ea.
    cbn [auto_list map snd]. rewrite Ea, <- E1, E2. split; [done|]. split; [done|].
    constructor; [|done]. destruct (lab_cost_le (p :: rest)) as [H1 H2].
    destruct (canonical_finite (p :: rest) Hn Hf). done.
Qed.

Lemma rewrite_auto_list origs :
  (length origs <= MAX_BB)%nat -> feasible origs ->
  rewrite super_costs (auto_list origs) = rewrite super_costs (lbl origs).
Proof using OK single.
  intros Hn Hf. destruct (auto_list_shift origs Hn Hf) as (rs & -> & E2 & E3). rewrite <- E2.
  destruct rs as [|r rs]; [done|]. unfold rewrite. cbn [map head]. cbn [mbind option_bind].
  pose proof E3 as [(Hd & _ & Ht) _]%Forall_cons_1.
  destruct (shift_way_spec (fst r) _ CANONICAL_STATE Hd Ht) as (_ & W2 & W3 & _).
  change (map (shift_way (fst r)) (t_trans (snd r))) with (t_trans (shift r)) in W2, W3. rewrite W2, W3.
  exact (rewrite_loop_shift (r :: rs) 0 CANONICAL_STATE _ E3).
Qed.

(** What the tables of the automaton promise: [term_ix] is the terminal state,
    and every table entry is what dynamic programming would compute. *)
Record store_ok (term_ix : nat) (st : tpa_store) : Prop := {
  so_term : st_states st !! term_ix = Some term;
  so_table : forall p b i, (p, b, i) ∈ st_table st ->
    exists tb, st_states st !! b = Some tb /\ st_states st !! i = Some (step p tb)
}.

Abbreviation lbl_auto := (label_auto maxstates max_super super_costs ss_cost is_relocatable
                            state_transitions lookup_super).

Lemma lookup_tpa_state_ok noequiv st t :
  let '(st', i) := lookup_tpa_state noequiv st t in
  st_states st `prefix_of` st_states st' /\ st_states st' !! i = Some t /\ st_table st' = st_table st.
Proof using.
  unfold lookup_tpa_state. cbv zeta.
  assert (N : forall u, let st' := mkStore (st_states st ++ [t]) (st_table st) u in
    st_states st `prefix_of` st_states st' /\ st_states st' !! length (st_states st) = Some t /\
    st_table st' = st_table st).
  { intros u. cbn [st_states st_table]. split; [by apply prefix_app_r|]. split; [|done].
    by rewrite list_lookup_middle. }
  destruct (st_unique st !! _) as [e|]; [|apply N].
  destruct (negb noequiv && _) eqn:E; [|apply N].
  apply andb_true_iff in E as [_ E]. apply bool_decide_eq_true in E. done.
Qed.

Lemma states_of_Forall2 st ids ts :
  Forall2 (fun i t => st_states st !! i = Some t) ids ts -> states_of st ids = ts.
Proof using. unfold states_of. induction 1 as [|i t ids ts H _ IH]; [done|]. cbn. by rewrite H, IH. Qed.

Lemma Forall2_prefix (st st' : tpa_store) ids ts :
  st_states st `prefix_of` st_states st' ->
  Forall2 (fun i t => st_states st !! i = Some t) ids ts ->
  Forall2 (fun i t => st_states st' !! i = Some t) ids ts.
Proof using. intros P H. eapply Forall2_impl; [|exact H]. intros i t E. cbv beta in E. eapply prefix_lookup_Some; eassumption. Qed.

Lemma label_auto_ok noequiv term_ix origs st :
  store_ok term_ix st ->
  let '(st', ids) := lbl_auto noequiv term_ix origs st in
  store_ok term_ix st' /\ st_states st `prefix_of` st_states st' /\
  Forall2 (fun i t => st_states st' !! i = Some t) ids (auto_list origs).
Proof using single.
  intros H. induction origs as [|p rest IH]; cbn [label_auto auto_list].
  { split; [done|]. split; [done|]. constructor; [apply H|constructor]. }
  destruct (lbl_auto noequiv term_ix rest st) as [st1 ids]. destruct IH as (H1 & P1 & F1).
  set (tb := hd term (auto_list rest)).
  assert (Hb : st_states st1 !! hd term_ix ids = Some tb).
  { subst tb. destruct F1; [apply H1|done]. }
  assert (Hd : head (auto_list rest) = Some tb) by (by destruct rest).
  destruct (lookup_tpa st1 p (hd term_ix ids)) as [i|] eqn:L.
  - split; [done|]. split; [done|]. constructor; [|done].
    unfold lookup_tpa in L. apply fmap_Some in L as ([[q b] i'] & E & ->).
    apply find_some in E as [Hin [Ep Eb]%andb_true_iff]. apply Z.eqb_eq in Ep as <-. apply Nat.eqb_eq in Eb as <-.
    apply list_elem_of_In in Hin. destruct (so_table _ _ H1 _ _ _ Hin) as (tb' & E1 & E2).
    rewrite Hb in E1. injection E1 as <-. done.
  - rewrite (states_of_Forall2 _ _ _ F1), (dynprog_single p rest _ tb Hd).
    pose proof (lookup_tpa_state_ok noequiv st1 (tpa_state_normalize (dyn [p] [tb]))) as S.
    destruct (lookup_tpa_state noequiv st1 _) as [st2 i]. destruct S as (P2 & E2 & T2).
    cbn [st_states]. split; [|split].
    + constructor; cbn [st_states st_table].
      * eapply prefix_lookup_Some; [apply (so_term _ _ H1) | eassumption].
      * intros q b k [E|Hin]%elem_of_cons.
        -- injection E as -> -> ->. exists tb. split; [eapply prefix_lookup_Some; eassumption | exact E2].
        -- destruct (so_table _ _ H1 q b k) as (tb' & B1 & B2).
           { first [exact Hin | by rewrite <- T2]. }
           exists tb'. split; (eapply prefix_lookup_Some; eassumption).
    + by etrans.
    + constructor; [exact E2|]. eapply Forall2_impl; [|exact F1]. intros j t Ej. cbv beta in Ej. eapply prefix_lookup_Some; eassumption.
Qed.
End Automaton.

(** ** Properties *)

(** C12: the tree-parsing automaton is transparent: with single-component rules
    (the only case in which it is used together with state equivalence) its
    memoised, normalised states lead to exactly the code that dynamic
    programming alone produces, whatever blocks have filled its tables before,
    and the tables stay consistent.
    (For blocks of at most [MAX_BB] instructions, each of which can be
    compiled by itself, and bounded costs.) *)
Theorem automaton_transparent (maxstates max_super : nat) (super_costs : Z -> cost_info)
    (ss_cost : Z -> Z) (is_relocatable : Z -> bool) (state_transitions : list Z)
    (lookup_super : list Z -> option (list Z)) (noequiv : bool) (term_ix : nat)
    (origs : list Z) (st : tpa_store) :
  let termstate := make_termstate maxstates super_costs ss_cost state_transitions in
  let ok := store_ok maxstates max_super super_costs ss_cost is_relocatable state_transitions
              lookup_super term_ix in
  tables_ok maxstates super_costs ss_cost state_transitions lookup_super ->
  (forall key ss, lookup_super key = Some ss -> length key = 1%nat) ->
  (length origs <= MAX_BB)%nat -> feasible max_super super_costs lookup_super origs ->
  ok st ->
  let '(st', r) := optimize_rewrite_auto maxstates max_super super_costs ss_cost is_relocatable
                     state_transitions lookup_super noequiv term_ix origs st in
  ok st' /\
  r = optimize_rewrite maxstates max_super super_costs ss_cost is_relocatable state_transitions
        lookup_super termstate origs.
Proof.
  intros termstate ok OK S1 Hn Hf Hst. unfold optimize_rewrite_auto, optimize_rewrite.
  destruct origs as [|p rest]; [done|].
  pose proof (label_auto_ok maxstates max_super super_costs ss_cost is_relocatable
    state_transitions lookup_super S1 noequiv term_ix (p :: rest) st Hst) as H.
  destruct (label_auto _ _ _ _ _ _ _ _ _ (p :: rest) st) as [st' ids].
  destruct H as (H1 & _ & F). split; [exact H1|].
  rewrite (states_of_Forall2 _ _ _ F). by apply rewrite_auto_list.
Qed.


(** The register-state version 4 of the second instruction is not relocatable. *)
Definition demo_mixed (p : Z) : bool := negb (p =? 4).

Lemma demo_store_ok noeq :
  store_ok 2 2 demo_cost_info demo_ss_cost noeq [5; 6] demo_lookup 0
    (mkStore [make_termstate 2 demo_cost_info demo_ss_cost [5; 6]] [] ∅).
Proof. constructor; [done|]. intros p b i H. by apply not_elem_of_nil in H. Qed.

Lemma automaton_transparent_witness :
  let '(st', r) := optimize_rewrite_auto 2 2 demo_cost_info demo_ss_cost demo_mixed [5; 6]
     demo_lookup false 0 [1; 2; 1] (mkStore [make_termstate 2 demo_cost_info demo_ss_cost [5; 6]] [] ∅) in
  store_ok 2 2 demo_cost_info demo_ss_cost demo_mixed [5; 6] demo_lookup 0 st' /\
  r = optimize_rewrite 2 2 demo_cost_info demo_ss_cost demo_mixed [5; 6] demo_lookup
        (make_termstate 2 demo_cost_info demo_ss_cost [5; 6]) [1; 2; 1].
Proof.
  apply (automaton_transparent 2 2 demo_cost_info demo_ss_cost demo_mixed [5; 6] demo_lookup
    false 0 [1; 2; 1]).
  - apply demo_tables_ok.
  - intros key ss E. unfold demo_lookup in E. repeat (destruct (decide _); subst); done.
  - cbn. unfold MAX_BB. lia.
  - split; [lia|]. intros p Hp.
    assert (p = 1 \/ p = 2) as [->| ->].
    { repeat (apply elem_of_cons in Hp as [->|Hp]; [auto|]). by apply not_elem_of_nil in Hp. }
    + exists [1; 3], 1. split; [done|]. split; [by left|done].
    + exists [2; 4], 2. split; [done|]. split; [by left|done].
  - apply demo_store_ok.
Defined.

(** With a two-component superinstruction the automaton is not transparent:
    normalising every label separately makes costs at different positions
    incomparable, so the cheaper superinstruction 7 (cost 12) is not chosen
    over 1 2 (cost 20).  The engine turns the automaton off in this case unless
    [--tpa-noequiv] is given. *)
Lemma automaton_with_superinstructions_suboptimal :
  let term := make_termstate 1 demo_cost_info demo_ss_cost [] in
  let st := mkStore [term] [] ∅ in
  snd (optimize_rewrite_auto 1 2 demo_cost_info demo_ss_cost (fun _ => true) [] demo_lookup2 true 0 [1; 2] st)
    = Some [Compile 1; Compile 2] /\
  optimize_rewrite 1 2 demo_cost_info demo_ss_cost (fun _ => true) [] demo_lookup2 term [1; 2]
    = Some [Compile 7; Static 2].
Proof. split; vm_compute; reflexivity. Qed.
