(* ===== verification/Prims.v ===== *)
(** * Primitive descriptions (engine/main.c)

    What the engine knows about its primitives: the cost table (the generated
    [super_costs]), the [PrimInfo]s that [check_prims] fills in, and the cost
    functions of instruction selection.  Both tables are parameters of the
    components that use them. *)
From S2P Require Import Prelude Tpa.

(** [struct cost]; [c_info] holds [state_in], [state_out] and [length]. *)
Record cost := mkSuperCost {
  loads : Z;
  stores : Z;
  updates : Z;
  c_info : cost_info;
  imm_ops : Z;
  ip_offset : Z;
  offset : nat;         (** index into [super2] *)
  branch_to_ip : bool
}.

Record immarg := mkImmarg { ia_offset : Z; ia_rel : bool }.

Record PrimInfo := mkPrimInfo {
  pi_start : Z;         (** 0 if not relocatable *)
  pi_len1 : Z;
  pi_length : Z;
  pi_restlength : Z;
  pi_superend : bool;
  pi_max_ip_offset : Z;
  pi_min_ip_offset : Z;
  pi_immargs : list immarg
}.

Section Prims.
Context (super_costs : Z -> cost) (priminfos : Z -> PrimInfo) (no_dynamic : bool).

Definition is_relocatable (p : Z) : bool := negb no_dynamic && negb (pi_start (priminfos p) =? 0).

(** ** The cost functions *)
Definition cost_codesize (opt_ip_updates : Z) (prim : Z) : Z :=
  let pi := priminfos prim in
  if opt_ip_updates >? 0 then pi_length pi - pi_len1 pi else pi_length pi.

Definition cost_ls (prim : Z) : Z := let c := super_costs prim in loads c + stores c.

Definition cost_lsu (prim : Z) : Z := let c := super_costs prim in loads c + stores c + updates c.

Definition cost_nexts (prim : Z) : Z := 1.
End Prims.
