(* ===== verification/Supers.v ===== *)
(** * The superinstruction table (engine/main.c)

    [prepare_super_table] registers every admissible primitive of the cost
    table in a hash table keyed by its component sequence; [lookup_super] and
    [lookup_ss] search it.  The file ends with the composition of this table
    with the instruction selector of [Tpa]. *)
From S2P Require Import Prelude Tpa Labels Automaton Prims.

Definition HASH_SIZE : Z := 256.

(** [e_start] is an index into [super2]. *)
Record super_table_entry := mkEntry { e_start : nat; e_length : nat; e_ss_list : list Z }.

Record sstate := mkSS {
  super_table : gmap Z (list super_table_entry);
  max_super : nat;
  state_transitions : list Z;
  branches_to_ip : gmap Z Z;
  ip_update0 : Z;
  min_ip_update : Z;
  max_ip_update : Z;
  nsupers : Z
}.

(** The sum [r] is an [int]. *)
Definition hash_super (start : list Z) : Z :=
  Z.land (foldl (fun r p => S32 (S32 (Z.shiftl r 1) + p)) 0 start) (HASH_SIZE - 1).

Section Supers.
Context (super_costs : list cost) (super2 : list Z) (N_noop : nat).
Context (maxstates : nat) (static_super_number : Z).
(** [priminfos] is NULL without dynamic code. *)
Context (is_relocatable : Z -> bool) (priminfos : option (Z -> PrimInfo)).

(** The [length] primitive numbers at [super2+offset]. *)
Definition comps (off len : nat) : list Z := take len (drop off super2).
Definition key_of (c : cost) : list Z := comps (offset c) (c_length (c_info c)).

Definition bucket (st : sstate) (h : Z) : list super_table_entry := default [] (super_table st !! h).

Definition entry_matches (start : list Z) (e : super_table_entry) : bool :=
  (length start =? e_length e)%nat && bool_decide (comps (e_start e) (e_length e) = start).

Definition lookup_super (st : sstate) (start : list Z) : option (list Z) :=
  e_ss_list <$> List.find (entry_matches start) (bucket st (hash_super start)).

(** -1: no such superinstruction. *)
Definition lookup_ss (costs : Z -> cost) (st : sstate) (start : list Z) (sin sout : nat) : Z :=
  match lookup_super st start with
  | None => -1
  | Some ss =>
      match List.find (fun s => (state_in (c_info (costs s)) =? sin)%nat &&
                                (state_out (c_info (costs s)) =? sout)%nat) ss with
      | Some s => s
      | None => -1
      end
  end.

(** [*superp = ss] for the [superp] that [lookup_super] returned. *)
Fixpoint update_first (start : list Z) (ss : list Z) (es : list super_table_entry)
  : list super_table_entry :=
  match es with
  | [] => []
  | e :: es =>
      if entry_matches start e then mkEntry (e_start e) (e_length e) ss :: es
      else e :: update_first start ss es
  end.

Definition set_table (st : sstate) (t : gmap Z (list super_table_entry)) : sstate :=
  mkSS t (max_super st) (state_transitions st) (branches_to_ip st) (ip_update0 st)
    (min_ip_update st) (max_ip_update st) (nsupers st).

Definition set_ss_list (st : sstate) (start : list Z) (ss : list Z) : sstate :=
  let h := hash_super start in
  set_table st (<[h := update_first start ss (bucket st h)]> (super_table st)).

(** The first list element with [ss->super == b] becomes [i]. *)
Fixpoint replace_super (b i : Z) (ss : list Z) : option (list Z) :=
  match ss with
  | [] => None
  | s :: ss => if s =? b then Some (i :: ss) else cons s <$> replace_super b i ss
  end.

Definition canonical (c : cost) : bool :=
  (state_in (c_info c) =? CANONICAL_STATE)%nat && (state_out (c_info c) =? CANONICAL_STATE)%nat.

Definition max_ip_offset_of (i : Z) : Z :=
  match priminfos with Some pi => pi_max_ip_offset (pi i) | None => 0 end.
Definition min_ip_offset_of (i : Z) : Z :=
  match priminfos with Some pi => pi_min_ip_offset (pi i) | None => 0 end.

(** Entering primitive [i] (with ip offset 0) into the tables. *)
Definition enter (st : sstate) (i : nat) (c : cost) : option sstate :=
  let p := Z.of_nat i in
  let key := key_of c in
  if (offset c =? N_noop)%nat && negb (i =? N_noop)%nat then
    if is_relocatable p then
      if canonical c then
        if ip_update0 st =? 0 then
          Some (mkSS (super_table st) (max_super st) (state_transitions st) (branches_to_ip st)
                  p (min_ip_offset_of p) (max_ip_offset_of p) (nsupers st))
        else None
      else Some (mkSS (super_table st) (max_super st) (p :: state_transitions st) (branches_to_ip st)
                   (ip_update0 st) (min_ip_update st) (max_ip_update st) (nsupers st))
    else Some st
  else
    match lookup_super st key with
    | Some ss =>
        if canonical c && (max_ip_offset_of p >? 0) then
          if (c_length (c_info c) =? 1)%nat then
            ss' ← replace_super (Z.of_nat (offset c)) p ss; Some (set_ss_list st key ss')
          else None
        else Some (set_ss_list st key (p :: ss))
    | None =>
        let h := hash_super key in
        Some (set_table st (<[h := mkEntry (offset c) (c_length (c_info c)) [p] :: bucket st h]>
                              (super_table st)))
    end.

(** The updates of [max_super] and [nsupers] after entering a primitive. *)
Definition count_super (len : nat) (st : sstate) : sstate :=
  mkSS (super_table st) (Nat.max (max_super st) len) (state_transitions st) (branches_to_ip st)
    (ip_update0 st) (min_ip_update st) (max_ip_update st)
    (if (2 <=? len)%nat then nsupers st + 1 else nsupers st).

Definition no_cost : cost := mkSuperCost 0 0 0 (mkCost 0 0 0) 0 0 0 false.
Definition cost_at (p : Z) : cost := nth (Z.to_nat p) super_costs no_cost.

Definition admissible (st : sstate) (c : cost) : bool :=
  ((c_length (c_info c) <? 2)%nat || (nsupers st <? static_super_number)) &&
  (state_in (c_info c) <? maxstates)%nat && (state_out (c_info c) <? maxstates)%nat.

(** One iteration of the loop over the cost table. *)
Definition prepare_one (st : sstate) (i : nat) : option sstate :=
  let c := cost_at (Z.of_nat i) in
  if branch_to_ip c then
    let ss := lookup_ss cost_at st (key_of c) (state_in (c_info c)) (state_out (c_info c)) in
    Some (if ss =? -1 then st
          else mkSS (super_table st) (max_super st) (state_transitions st)
                 (<[ss := Z.of_nat i]> (branches_to_ip st))
                 (ip_update0 st) (min_ip_update st) (max_ip_update st) (nsupers st))
  else if admissible st c && (ip_offset c =? 0) then
    st' ← enter st i c; Some (count_super (c_length (c_info c)) st')
  else Some st.

Definition init_sstate : sstate := mkSS ∅ 2 [] ∅ 0 0 0 0.

Fixpoint prepare_upto (n : nat) : option sstate :=
  match n with
  | O => Some init_sstate
  | S n => st ← prepare_upto n; prepare_one st n
  end.

Definition prepare_super_table : option sstate := prepare_upto (length super_costs).

(** The engine turns the automaton off when superinstructions are in use. *)
Definition noautomaton_after (st : sstate) (tpa_noautomaton tpa_noequiv : bool) : bool :=
  tpa_noautomaton || ((0 <? nsupers st) && negb tpa_noequiv).

(** ** Lemmas: the hash table is a finite map from component sequences *)

Lemma entry_matches_true start e :
  entry_matches start e = true <-> length start = e_length e /\ comps (e_start e) (e_length e) = start.
Proof using.
  unfold entry_matches. rewrite andb_true_iff, Nat.eqb_eq. by rewrite bool_decide_eq_true.
Qed.

Lemma entry_matches_other start key e :
  entry_matches start e = true -> key <> start -> entry_matches key e = false.
Proof using.
  rewrite entry_matches_true. intros [_ M] N. apply not_true_is_false.
  rewrite entry_matches_true. intros [_ ?]. congruence.
Qed.

Lemma find_update_first start ss key es :
  (exists e, List.find (entry_matches start) es = Some e) ->
  e_ss_list <$> List.find (entry_matches key) (update_first start ss es) =
  if decide (key = start) then Some ss else e_ss_list <$> List.find (entry_matches key) es.
Proof using.
  induction es as [|e es IH]; intros [e0 E]; [done|]. cbn [update_first List.find] in E |- *.
  destruct (entry_matches start e) eqn:M; cbn [List.find].
  - set (e' := mkEntry _ _ _).
    assert (M' : entry_matches start e' = true) by (by apply entry_matches_true in M; apply entry_matches_true).
    destruct (decide (key = start)) as [->|N]; [by rewrite M'|].
    by rewrite (entry_matches_other start key e' M' N), (entry_matches_other start key e M N).
  - specialize (IH (ex_intro _ _ E)). destruct (decide (key = start)) as [->|N]; [by rewrite M|].
    by destruct (entry_matches key e).
Qed.

Lemma lookup_super_update st start ss ss0 key :
  lookup_super st start = Some ss0 ->
  lookup_super (set_ss_list st start ss) key = if decide (key = start) then Some ss else lookup_super st key.
Proof using.
  unfold lookup_super, set_ss_list, bucket. cbn [set_table super_table]. intros E.
  destruct (decide (hash_super key = hash_super start)) as [Eh|Nh].
  2: { rewrite lookup_insert_ne by done. rewrite decide_False by congruence. done. }
  rewrite Eh, lookup_insert_eq. cbn [from_option]. unfold id. apply find_update_first.
  apply fmap_Some in E as (e & E & _). by exists e.
Qed.

Lemma lookup_super_new st off len ss key :
  lookup_super st (comps off len) = None -> length (comps off len) = len ->
  lookup_super (set_table st (<[hash_super (comps off len) :=
      mkEntry off len ss :: bucket st (hash_super (comps off len))]> (super_table st))) key =
  if decide (key = comps off len) then Some ss else lookup_super st key.
Proof using.
  intros E L. unfold lookup_super, bucket in *. cbn [set_table super_table].
  destruct (decide (hash_super key = hash_super (comps off len))) as [Eh|Nh].
  2: { rewrite lookup_insert_ne by done. rewrite decide_False by congruence. done. }
  rewrite Eh, lookup_insert_eq. cbn [from_option]. unfold id. cbn [List.find].
  assert (M : entry_matches (comps off len) (mkEntry off len ss) = true) by (by apply entry_matches_true).
  destruct (decide (key = comps off len)) as [->|N]; [by rewrite M|].
  by rewrite (entry_matches_other _ _ _ M N).
Qed.

Lemma lookup_super_table st st' key :
  super_table st = super_table st' -> lookup_super st key = lookup_super st' key.
Proof using. unfold lookup_super, bucket. by intros ->. Qed.

(** ** The contents of the prepared table *)

Definition at_ (i : nat) : cost := cost_at (Z.of_nat i).

(** Primitive [i] is an instruction that [prepare_super_table] enters: neither
    a stack-caching transition, an ip-offset variant nor a branch-to-ip
    variant, and its states exist. *)
Record enterable (i : nat) : Prop := {
  en_branch : branch_to_ip (at_ i) = false;
  en_ip : ip_offset (at_ i) = 0;
  en_in : (state_in (c_info (at_ i)) < maxstates)%nat;
  en_out : (state_out (c_info (at_ i)) < maxstates)%nat;
  en_inst : offset (at_ i) <> N_noop \/ i = N_noop
}.

(** The header of the ip-update variants of a primitive. *)
Definition header (p : Z) : Prop := canonical (cost_at p) = true /\ 0 < max_ip_offset_of p.

Record noop_variant (i : nat) : Prop := {
  nv_branch : branch_to_ip (at_ i) = false;
  nv_ip : ip_offset (at_ i) = 0;
  nv_in : (state_in (c_info (at_ i)) < maxstates)%nat;
  nv_out : (state_out (c_info (at_ i)) < maxstates)%nat;
  nv_noop : offset (at_ i) = N_noop /\ i <> N_noop;
  nv_reloc : is_relocatable (Z.of_nat i) = true
}.

(** What the generated tables promise. *)
Record tables_wf : Prop := {
  wf_bounds : forall i, (i < length super_costs)%nat ->
    (1 <= c_length (c_info (at_ i)))%nat /\
    (offset (at_ i) + c_length (c_info (at_ i)) <= length super2)%nat;
  wf_header : forall i, (i < length super_costs)%nat -> enterable i -> header (Z.of_nat i) ->
    let b := offset (at_ i) in
    c_length (c_info (at_ i)) = 1%nat /\ (b < i)%nat /\ enterable b /\ key_of (at_ b) = key_of (at_ i) /\
    forall j, (j < i)%nat -> enterable j -> header (Z.of_nat j) -> offset (at_ j) <> b;
  wf_ip_update0 : forall i j, (i < length super_costs)%nat -> (j < i)%nat ->
    noop_variant i -> noop_variant j -> canonical (at_ i) = true -> canonical (at_ j) = true -> False
}.

Record prepared (n : nat) (st : sstate) : Prop := {
  pr_max : (2 <= max_super st)%nat;
  pr_limit : 0 <= nsupers st <= Z.max 0 static_super_number;
  pr_sound : forall key ss, lookup_super st key = Some ss ->
    (1 <= length key <= max_super st)%nat /\ ((2 <= length key)%nat -> 0 < nsupers st) /\
    forall s, s ∈ ss -> exists i, (i < n)%nat /\ s = Z.of_nat i /\ enterable i /\ key_of (at_ i) = key;
  pr_complete : forall i, (i < n)%nat -> enterable i -> (c_length (c_info (at_ i)) < 2)%nat ->
    exists ss, lookup_super st (key_of (at_ i)) = Some ss /\
      (Z.of_nat i ∈ ss \/
       (exists j, (j < n)%nat /\ enterable j /\ header (Z.of_nat j) /\ offset (at_ j) = i) /\
       exists s, s ∈ ss /\ header s);
  pr_transitions : forall s, s ∈ state_transitions st ->
    exists i, (i < n)%nat /\ s = Z.of_nat i /\ noop_variant i /\ canonical (at_ i) = false;
  pr_ip_update0 : ip_update0 st <> 0 ->
    exists i, (i < n)%nat /\ ip_update0 st = Z.of_nat i /\ noop_variant i /\ canonical (at_ i) = true
}.

Lemma replace_super_in b i ss :
  b ∈ ss -> exists ss', replace_super b i ss = Some ss' /\ i ∈ ss' /\
    (forall x, x ∈ ss -> x <> b -> x ∈ ss') /\ (forall x, x ∈ ss' -> x = i \/ x ∈ ss).
Proof using.
  induction ss as [|s ss IH]; [by intros ?%not_elem_of_nil|]. intros Hb. cbn [replace_super].
  destruct (Z.eqb_spec s b) as [->|N].
  - eexists. split; [done|]. split; [left|]. split; intros x Hx.
    + intros Hn. apply elem_of_cons in Hx as [->|Hx]; [done|by right].
    + apply elem_of_cons in Hx as [->|Hx]; [by left|]. right. by right.
  - destruct IH as (ss' & -> & H1 & H2 & H3); [by apply elem_of_cons in Hb as [->|]|].
    eexists. split; [done|]. split; [by right|]. split.
    + intros x [->|Hx]%elem_of_cons Hn; [left|right; by apply H2].
    + intros x [->|Hx]%elem_of_cons; [right; left|]. destruct (H3 x Hx); [by left|right; by right].
Qed.

Lemma key_length i :
  tables_wf -> (i < length super_costs)%nat -> length (key_of (at_ i)) = c_length (c_info (at_ i)).
Proof using.
  intros WF Hi. destruct (wf_bounds WF i Hi). unfold key_of, comps. rewrite length_take, length_drop. lia.
Qed.

(** Entering an instruction changes the variants of its key only, by adding it
    or by replacing another one. *)
Lemma enter_inst st i :
  tables_wf -> (i < length super_costs)%nat -> enterable i -> prepared i st ->
  let key := key_of (at_ i) in
  exists ss', enter st i (at_ i) = Some (mkSS (super_table (default st (enter st i (at_ i)))) (max_super st)
     (state_transitions st) (branches_to_ip st) (ip_update0 st) (min_ip_update st) (max_ip_update st) (nsupers st)) /\
   (forall k, lookup_super (default st (enter st i (at_ i))) k =
              if decide (k = key) then Some ss' else lookup_super st k) /\
   Z.of_nat i ∈ ss' /\
   (forall s, s ∈ ss' -> s = Z.of_nat i \/ exists ss, lookup_super st key = Some ss /\ s ∈ ss) /\
   (forall ss s, lookup_super st key = Some ss -> s ∈ ss ->
     s ∈ ss' \/ (header (Z.of_nat i) /\ s = Z.of_nat (offset (at_ i)))).
Proof using.
  intros WF Hi En P key. unfold enter.
  replace ((offset (at_ i) =? N_noop)%nat && negb (i =? N_noop)%nat) with false.
  2: { symmetry. apply not_true_is_false. rewrite andb_true_iff, negb_true_iff, Nat.eqb_eq, Nat.eqb_neq.
       intros [? ?]. by destruct (en_inst i En). }
  fold key. destruct (lookup_super st key) as [ss|] eqn:E.
  - destruct (canonical (at_ i) && (max_ip_offset_of (Z.of_nat i) >? 0)) eqn:H.
    + apply andb_true_iff in H as [Hc Hm]. rewrite Z.gtb_lt in Hm.
      assert (Hh : header (Z.of_nat i)) by (by split).
      destruct (wf_header WF i Hi En Hh) as (L1 & Hb & Eb & Kb & U). rewrite L1, Nat.eqb_refl.
      set (b := offset (at_ i)) in *.
      assert (Hin : Z.of_nat b ∈ ss).
      { destruct (pr_complete _ _ P b Hb Eb) as (ss0 & E0 & [Hin|[(j & Hj & Ej & Hhj & Oj) _]]).
        - rewrite <- (key_length b WF) by lia. rewrite Kb, (key_length i WF Hi). lia.
        - rewrite Kb in E0. unfold key in E. congruence.
        - by destruct (U j Hj Ej Hhj). }
      destruct (replace_super_in (Z.of_nat b) (Z.of_nat i) ss Hin) as (ss' & Er & R1 & R2 & R3).
      exists ss'. rewrite Er. cbn [mbind option_bind from_option]. unfold id. split; [done|]. split.
      { intros k. by apply lookup_super_update with ss. }
      split; [done|]. split.
      { intros s Hs. destruct (R3 s Hs); [by left|right; eauto]. }
      intros ss0 s [= <-] Hs. destruct (decide (s = Z.of_nat b)); [by right|left; auto].
    + exists (Z.of_nat i :: ss). cbn [from_option]. unfold id. split; [done|]. split.
      { intros k. by apply lookup_super_update with ss. }
      split; [left|]. split.
      { intros s [->|Hs]%elem_of_cons; [by left|right; eauto]. }
      intros ss0 s [= <-] Hs. left. by right.
  - exists [Z.of_nat i]. cbn [from_option]. unfold id. split; [done|]. split.
    { intros k. unfold key, key_of. apply lookup_super_new; [exact E|apply (key_length i WF Hi)]. }
    split; [left|]. split; [|done]. intros s Hs. left. by apply list_elem_of_singleton in Hs.
Qed.

(** A state with the same tables satisfies the same description. *)
Lemma prepared_same n st st' :
  super_table st' = super_table st -> max_super st' = max_super st -> nsupers st' = nsupers st ->
  (forall s, s ∈ state_transitions st' -> s ∈ state_transitions st \/
     exists i, (i < n)%nat /\ s = Z.of_nat i /\ noop_variant i /\ canonical (at_ i) = false) ->
  (ip_update0 st' = ip_update0 st \/
     exists i, (i < n)%nat /\ ip_update0 st' = Z.of_nat i /\ noop_variant i /\ canonical (at_ i) = true) ->
  prepared n st -> prepared n st'.
Proof using.
  intros Et Em En Htr Hip P. constructor; rewrite ?Em, ?En; try apply P.
  - intros key ss. rewrite (lookup_super_table st' st) by done. apply P.
  - intros i Hi He Hl. destruct (pr_complete _ _ P i Hi He Hl) as (ss & E & Hs). exists ss.
    by rewrite (lookup_super_table st' st).
  - intros s Hs. destruct (Htr s Hs) as [?|?]; [by apply P|done].
  - intros H. destruct Hip as [E|?]; [|done]. rewrite E in H |- *. by apply P.
Qed.

Lemma prepared_mono i st :
  prepared i st -> (enterable i -> (2 <= c_length (c_info (at_ i)))%nat) -> prepared (S i) st.
Proof using.
  intros P Hn. constructor; try apply P.
  - intros key ss E. destruct (pr_sound _ _ P key ss E) as (H1 & H2 & H3).
    split; [done|]. split; [done|]. intros s Hs. destruct (H3 s Hs) as (j & ? & ?). exists j. split; [lia|done].
  - intros j Hj He Hl. assert (Hne : j <> i) by (intros ->; specialize (Hn He); lia).
    destruct (pr_complete _ _ P j ltac:(lia) He Hl) as (ss & E & H). exists ss. split; [done|].
    destruct H as [?|[(k & ? & ?) ?]]; [by left|right]. split; [|done]. exists k. split; [lia|done].
  - intros s Hs. destruct (pr_transitions _ _ P s Hs) as (j & ? & ?). exists j. split; [lia|done].
  - intros H. destruct (pr_ip_update0 _ _ P H) as (j & ? & ?). exists j. split; [lia|done].
Qed.

Lemma prepared_count n st c :
  prepared n st -> admissible st c = true -> prepared n (count_super (c_length (c_info c)) st).
Proof using.
  intros P A. destruct (pr_limit _ _ P).
  assert (Hns : (2 <= c_length (c_info c))%nat -> nsupers st < static_super_number).
  { intros ?. unfold admissible in A. apply andb_true_iff in A as [A _]. apply andb_true_iff in A as [A _].
    apply orb_true_iff in A as [A|A]; [apply Nat.ltb_lt in A; lia | by apply Z.ltb_lt in A]. }
  constructor; cbn [count_super max_super nsupers state_transitions ip_update0]; try apply P.
  - pose proof (pr_max _ _ P). lia.
  - destruct (Nat.leb_spec 2 (c_length (c_info c))); lia.
  - intros key ss. rewrite (lookup_super_table _ st) by done. intros E.
    destruct (pr_sound _ _ P key ss E) as (H1 & H2 & H3). split; [lia|]. split; [|done].
    intros Hk. specialize (H2 Hk). destruct (2 <=? _)%nat; lia.
Qed.

Lemma admissible_spec st i :
  admissible st (at_ i) = true ->
  (state_in (c_info (at_ i)) < maxstates)%nat /\ (state_out (c_info (at_ i)) < maxstates)%nat.
Proof using.
  unfold admissible. intros [[_ A]%andb_true_iff C]%andb_true_iff.
  split; by apply Nat.ltb_lt.
Qed.

Lemma enterable_admissible st i :
  enterable i -> (c_length (c_info (at_ i)) < 2)%nat -> admissible st (at_ i) = true.
Proof using.
  intros He Hl. unfold admissible. rewrite (proj2 (Nat.ltb_lt _ _) Hl).
  by rewrite (proj2 (Nat.ltb_lt _ _) (en_in i He)), (proj2 (Nat.ltb_lt _ _) (en_out i He)).
Qed.

(** A stack-caching transition or the start of the ip-update series. *)
Lemma prepare_noop st i :
  tables_wf -> (i < length super_costs)%nat -> prepared i st ->
  branch_to_ip (at_ i) = false -> ip_offset (at_ i) = 0 -> admissible st (at_ i) = true ->
  offset (at_ i) = N_noop -> i <> N_noop ->
  exists st', enter st i (at_ i) = Some st' /\ prepared (S i) st' /\ nsupers st' = nsupers st.
Proof using.
  intros WF Hi P Hb Ho Ha Hoff Hne. destruct (admissible_spec st i Ha) as [Hin Hout].
  assert (P1 : prepared (S i) st).
  { apply prepared_mono; [done|]. intros [_ _ _ _ [?|?]]; done. }
  unfold enter. rewrite (proj2 (Nat.eqb_eq _ _) Hoff), (proj2 (Nat.eqb_neq _ _) Hne). cbn [negb andb].
  destruct (is_relocatable (Z.of_nat i)) eqn:R; [|eauto].
  assert (NV : noop_variant i) by done.
  destruct (canonical (at_ i)) eqn:C.
  - destruct (Z.eqb_spec (ip_update0 st) 0) as [E|E].
    + eexists. split; [done|]. split; [|done]. eapply prepared_same; [..|exact P1]; try done.
      * intros s Hs. by left.
      * right. exists i. split; [lia|done].
    + destruct (pr_ip_update0 _ _ P E) as (j & Hj & _ & NVj & Cj).
      by destruct (wf_ip_update0 WF i j Hi Hj NV NVj C Cj).
  - eexists. split; [done|]. split; [|done]. eapply prepared_same; [..|exact P1]; try done.
    + intros s [->|Hs]%elem_of_cons; [right|by left]. exists i. split; [lia|done].
    + by left.
Qed.

Lemma prepare_inst st i :
  tables_wf -> (i < length super_costs)%nat -> prepared i st -> enterable i ->
  admissible st (at_ i) = true ->
  exists st', enter st i (at_ i) = Some st' /\
    prepared (S i) (count_super (c_length (c_info (at_ i))) st').
Proof using.
  intros WF Hi P En A. destruct (enter_inst st i WF Hi En P) as (ss' & E & L & Hin & Hold & Hnew).
  eexists. split; [exact E|]. revert E L. generalize (default st (enter st i (at_ i))). intros st1 _ L.
  set (st2 := count_super _ _).
  assert (L2 : forall k, lookup_super st2 k = if decide (k = key_of (at_ i)) then Some ss' else lookup_super st k)
    by exact L. clear L.
  pose proof (prepared_count i st (at_ i) P A) as PC. destruct PC as [C1 C2 C3 _ _ _].
  constructor; [exact C1|exact C2| | | |].
  - intros key ss. rewrite L2. destruct (decide (key = key_of (at_ i))) as [->|N].
    + intros [= <-]. destruct (wf_bounds WF i Hi). rewrite (key_length i WF Hi). split; [cbn; lia|]. split.
      { intros Hl. cbn [st2 count_super nsupers]. rewrite (proj2 (Nat.leb_le _ _) Hl).
        pose proof (pr_limit _ _ P). lia. }
      intros s Hs. destruct (Hold s Hs) as [->|(ss0 & E0 & Hs0)]; [exists i; split; [lia|done]|].
      destruct (pr_sound _ _ P _ _ E0) as (_ & _ & Hsd). destruct (Hsd s Hs0) as (j & ? & ?). exists j. split; [lia|done].
    + intros E. destruct (C3 key ss E) as (H1 & H2 & H3). split; [exact H1|]. split; [exact H2|].
      intros s Hs. destruct (H3 s Hs) as (j & ? & ?). exists j. split; [lia|done].
  - intros j Hj He Hl. rewrite L2. destruct (decide (j = i)) as [->|Hne].
    { rewrite decide_True by done. exists ss'. split; [done|by left]. }
    destruct (pr_complete _ _ P j ltac:(lia) He Hl) as (ss & E & H).
    assert (Hw : forall k, (exists j0, (j0 < i)%nat /\ enterable j0 /\ header (Z.of_nat j0) /\ offset (at_ j0) = k) ->
      exists j0, (j0 < S i)%nat /\ enterable j0 /\ header (Z.of_nat j0) /\ offset (at_ j0) = k).
    { intros k (j0 & ? & ?). exists j0. split; [lia|done]. }
    destruct (decide (key_of (at_ j) = key_of (at_ i))) as [Ek|Nk].
    + exists ss'. split; [done|]. rewrite Ek in E. destruct H as [Hj1|[Hh (s & Hs & Hhs)]].
      * destruct (Hnew _ _ E Hj1) as [?|[Hhi Eb]]; [by left|right]. split; [|by exists (Z.of_nat i)].
        exists i. split; [lia|]. split; [done|]. split; [done|lia].
      * right. split; [by apply Hw|]. destruct (Hnew _ _ E Hs) as [?|[Hhi _]]; [by exists s|by exists (Z.of_nat i)].
    + exists ss. split; [done|]. destruct H as [?|[? ?]]; [by left|right]. split; [by apply Hw|done].
  - intros s Hs. destruct (pr_transitions _ _ P s Hs) as (j & ? & ?). exists j. split; [lia|done].
  - intros H. destruct (pr_ip_update0 _ _ P H) as (j & ? & ?). exists j. split; [lia|done].
Qed.

Lemma prepare_one_ok st i :
  tables_wf -> (i < length super_costs)%nat -> prepared i st ->
  exists st', prepare_one st i = Some st' /\ prepared (S i) st'.
Proof using.
  intros WF Hi P. unfold prepare_one. fold (at_ i).
  destruct (branch_to_ip (at_ i)) eqn:Hb.
  { eexists. split; [done|]. apply (prepared_same _ st); [by destruct (_ =? _)..| | |].
    - intros s Hs. left. by destruct (_ =? _).
    - left. by destruct (_ =? _).
    - apply prepared_mono; [done|]. intros [? _ _ _ _]. congruence. }
  destruct (admissible st (at_ i)) eqn:A; cbn [andb].
  2: { eexists. split; [done|]. apply prepared_mono; [done|]. intros En.
       destruct (Nat.lt_ge_cases (c_length (c_info (at_ i))) 2) as [Hl|]; [|done].
       rewrite (enterable_admissible st i En Hl) in A. done. }
  destruct (Z.eqb_spec (ip_offset (at_ i)) 0) as [Ho|Ho].
  2: { eexists. split; [done|]. apply prepared_mono; [done|]. intros [_ ? _ _ _]. done. }
  destruct (admissible_spec st i A) as [Hin Hout].
  destruct (decide (offset (at_ i) = N_noop /\ i <> N_noop)) as [[Hn Hne]|Hn].
  - destruct (prepare_noop st i WF Hi P Hb Ho A Hn Hne) as (st' & -> & P' & Ens). cbn [mbind option_bind].
    eexists. split; [done|]. apply prepared_count; [done|]. unfold admissible in *. by rewrite Ens.
  - destruct (prepare_inst st i WF Hi P) as (st' & -> & P'); [|done|cbn [mbind option_bind]; eauto].
    constructor; try done. destruct (decide (i = N_noop)); [by right|left]. intros ?. by apply Hn.
Qed.

Lemma prepare_upto_ok n :
  tables_wf -> (n <= length super_costs)%nat -> exists st, prepare_upto n = Some st /\ prepared n st.
Proof using.
  intros WF. induction n as [|n IH]; intros Hn; cbn [prepare_upto].
  - exists init_sstate. split; [done|]. constructor; cbn; try lia; try done.
    intros s Hs. by apply not_elem_of_nil in Hs.
  - destruct IH as (st & -> & P); [lia|]. cbn [mbind option_bind]. apply prepare_one_ok; [done|lia|done].
Qed.

(** ** Selection with the prepared table *)

(** What [Tpa] uses of the cost table. *)
Definition info_at (p : Z) : cost_info := c_info (cost_at p).

(** Primitive [i] is an ordinary instruction: one component, itself, from and
    to the canonical state. *)
Record instruction (i : nat) : Prop := {
  is_bound : (i < length super_costs)%nat;
  is_enterable : enterable i;
  is_canonical : canonical (at_ i) = true;
  is_length : c_length (c_info (at_ i)) = 1%nat;
  is_key : key_of (at_ i) = [Z.of_nat i]
}.

Lemma prepared_tables_ok st ss_cost :
  tables_wf -> prepared (length super_costs) st -> (CANONICAL_STATE < maxstates)%nat ->
  (forall p, 0 <= ss_cost p <= COST_BOUND) ->
  tables_ok maxstates info_at ss_cost (state_transitions st) (lookup_super st).
Proof using.
  intros WF P Hc Hcost. constructor; [done| | |done].
  - intros s Hs. destruct (pr_transitions _ _ P s Hs) as (i & _ & -> & NV & _).
    split; apply NV.
  - intros key ss s E Hs. destruct (pr_sound _ _ P key ss E) as (_ & _ & H).
    destruct (H s Hs) as (i & Hi & -> & En & <-). rewrite (key_length i WF Hi).
    split; [apply En|]. split; [apply En|done].
Qed.

Lemma canonical_states p :
  canonical (cost_at p) = true ->
  state_in (info_at p) = CANONICAL_STATE /\ state_out (info_at p) = CANONICAL_STATE.
Proof using.
  unfold canonical. intros [H1 H2]%andb_true_iff. split; by apply Nat.eqb_eq.
Qed.

Lemma prepared_feasible st origs :
  prepared (length super_costs) st -> Forall instruction origs ->
  feasible (max_super st) info_at (lookup_super st) (map Z.of_nat origs).
Proof using.
  intros P H. split; [pose proof (pr_max _ _ P); lia|]. intros p (i & -> & Hi)%list_elem_of_fmap.
  rewrite Forall_forall in H. apply list_elem_of_In, H in Hi.
  destruct (pr_complete _ _ P i (is_bound i Hi) (is_enterable i Hi)) as (ss & E & Hs).
  { rewrite (is_length i Hi). lia. }
  rewrite (is_key i Hi) in E. exists ss. destruct Hs as [Hs|[_ (s & Hs & Hc & _)]].
  - exists (Z.of_nat i). split; [done|]. split; [done|]. apply canonical_states, (is_canonical i Hi).
  - exists s. split; [done|]. split; [done|]. by apply canonical_states.
Qed.

Lemma prepared_single st key ss :
  prepared (length super_costs) st -> nsupers st = 0 ->
  lookup_super st key = Some ss -> length key = 1%nat.
Proof using.
  intros P H0 E. destruct (pr_sound _ _ P key ss E) as (H1 & H2 & _). lia.
Qed.
End Supers.

(** ** Properties *)

(** C24: preparing the superinstruction table never trips an assertion on
    well-formed generated tables, and the result holds what it should: every
    variant listed for a component sequence really has those components and
    existing states, every enterable single-component primitive is found under
    its components (or the header of its ip-update variants in its place), the
    list of state transitions holds relocatable, non-canonical variants of noop
    only, and the superinstruction limit is respected. *)
Theorem prepare_super_table_correct (super_costs : list cost) (super2 : list Z) (N_noop maxstates : nat)
    (static_super_number : Z) (is_relocatable : Z -> bool) (priminfos : option (Z -> PrimInfo)) :
  tables_wf super_costs super2 N_noop maxstates is_relocatable priminfos ->
  exists st,
    prepare_super_table super_costs super2 N_noop maxstates static_super_number is_relocatable priminfos = Some st /\
    prepared super_costs super2 N_noop maxstates static_super_number is_relocatable priminfos
      (length super_costs) st.
Proof. intros WF. unfold prepare_super_table. by apply prepare_upto_ok. Qed.

(** The engine can always compile: with the table that
    [prepare_super_table] builds, every basic block of ordinary instructions is
    rewritten without failing an assertion, into a cover that is at least as
    cheap as any other cover from the same table. *)
Theorem prepared_blocks_selected (super_costs : list cost) (super2 : list Z) (N_noop maxstates : nat)
    (static_super_number : Z) (is_relocatable : Z -> bool) (priminfos : option (Z -> PrimInfo))
    (ss_cost : Z -> Z) (origs : list nat) :
  tables_wf super_costs super2 N_noop maxstates is_relocatable priminfos ->
  (CANONICAL_STATE < maxstates)%nat -> (forall p, is_relocatable p = true) ->
  (forall p, 0 <= ss_cost p <= COST_BOUND) ->
  (0 < length origs <= MAX_BB)%nat ->
  Forall (instruction super_costs super2 N_noop maxstates) origs ->
  exists st evs,
    prepare_super_table super_costs super2 N_noop maxstates static_super_number is_relocatable priminfos = Some st /\
    let info := info_at super_costs in
    let find := lookup_super super2 st in
    let block := map Z.of_nat origs in
    let cov := cover (max_super st) info (state_transitions st) find true block CANONICAL_STATE in
    optimize_rewrite maxstates (max_super st) info ss_cost is_relocatable (state_transitions st) find
      (make_termstate maxstates info ss_cost (state_transitions st)) block = Some evs /\
    cov (compiled_prims evs) /\
    forall out, cov out -> total_cost ss_cost (compiled_prims evs) <= total_cost ss_cost out.
Proof.
  intros WF Hc AR Hcost Hn Ho.
  destruct (prepare_upto_ok _ _ _ _ static_super_number _ _ (length super_costs) WF ltac:(lia)) as (st & E & P).
  pose proof (prepared_tables_ok _ _ _ _ _ _ _ st ss_cost WF P Hc Hcost) as OK.
  destruct (feasible_cover _ _ (state_transitions st) _ _ (prepared_feasible _ _ _ _ _ _ _ st origs P Ho)) as [out Hcov].
  destruct (optimize_rewrite_best _ (max_super st) _ _ _ _ _ OK AR (map Z.of_nat origs) out) as (evs & c & R & Hevs & Et & HB).
  { by rewrite length_map. }
  { by constructor. }
  exists st, evs. split; [exact E|]. split; [exact R|]. split; [exact Hevs|].
  intros out' Ho'. rewrite Et. by apply (best_le _ _ _ _ _ _ _ _ _ _ HB).
Qed.

(** The tree-parsing automaton is used only where it is right: if it is
    still enabled after [prepare_super_table] with state equivalence on, it
    compiles every block of ordinary instructions to the same code as dynamic
    programming. *)
Theorem automaton_enabled_transparent (super_costs : list cost) (super2 : list Z) (N_noop maxstates : nat)
    (static_super_number : Z) (is_relocatable : Z -> bool) (priminfos : option (Z -> PrimInfo))
    (ss_cost : Z -> Z) (origs : list nat) (st : sstate) (ts : tpa_store) (term_ix : nat) :
  tables_wf super_costs super2 N_noop maxstates is_relocatable priminfos ->
  (CANONICAL_STATE < maxstates)%nat ->
  (forall p, 0 <= ss_cost p <= COST_BOUND) ->
  (length origs <= MAX_BB)%nat -> Forall (instruction super_costs super2 N_noop maxstates) origs ->
  prepare_super_table super_costs super2 N_noop maxstates static_super_number is_relocatable priminfos = Some st ->
  noautomaton_after st false false = false ->
  let info := info_at super_costs in
  let find := lookup_super super2 st in
  let trans := state_transitions st in
  store_ok maxstates (max_super st) info ss_cost is_relocatable trans find term_ix ts ->
  snd (optimize_rewrite_auto maxstates (max_super st) info ss_cost is_relocatable trans find false
         term_ix (map Z.of_nat origs) ts) =
  optimize_rewrite maxstates (max_super st) info ss_cost is_relocatable trans find
    (make_termstate maxstates info ss_cost trans) (map Z.of_nat origs).
Proof.
  intros WF Hc Hcost Hn Ho E Hauto info find trans Hst.
  destruct (prepare_upto_ok _ _ _ _ static_super_number _ _ (length super_costs) WF ltac:(lia)) as (st' & E' & P).
  unfold prepare_super_table in E. rewrite E in E'. injection E' as <-.
  pose proof (prepared_tables_ok _ _ _ _ _ _ _ st ss_cost WF P Hc Hcost) as OK.
  assert (H0 : nsupers st = 0).
  { unfold noautomaton_after in Hauto. rewrite andb_true_r in Hauto. cbn [orb] in Hauto.
    apply Z.ltb_ge in Hauto. pose proof (pr_limit _ _ _ _ _ _ _ _ _ P). lia. }
  assert (S1 : forall key ss, find key = Some ss -> length key = 1%nat).
  { intros key ss. by apply (prepared_single _ _ _ _ _ _ _ _ _ _ P H0). }
  pose proof (prepared_feasible _ _ _ _ _ _ _ st origs P Ho) as F.
  unfold optimize_rewrite_auto, optimize_rewrite. destruct origs as [|p rest]; [done|]. cbn [map] in *.
  pose proof (label_auto_ok maxstates (max_super st) info ss_cost is_relocatable trans find S1 false
    term_ix (Z.of_nat p :: map Z.of_nat rest) ts Hst) as H.
  destruct (label_auto _ _ _ _ _ _ _ _ _ (_ :: _) ts) as [ts' ids].
  destruct H as (H1 & _ & FF). cbn [snd]. rewrite (states_of_Forall2 _ _ _ FF).
  apply rewrite_auto_list; try done. cbn [length] in *. by rewrite length_map.
Qed.

(** *** A small primitive table: noop (0), two instructions (1, 2) with
    register-state versions (3, 4), transitions (5, 6), the superinstruction 7
    of 1 and 2, the ip update (8), a header of ip-update variants of 1 (9) and
    a branch variant of 1 (10). *)
Definition demo_cost (sin sout off len : nat) : cost :=
  mkSuperCost 0 0 0 (mkCost sin sout len) 0 0 off false.
Definition demo_costs : list cost :=
  [demo_cost 0 0 0 1; demo_cost 0 0 1 1; demo_cost 0 0 2 1; demo_cost 0 1 1 1; demo_cost 1 0 2 1;
   demo_cost 0 1 0 1; demo_cost 1 0 0 1; demo_cost 0 0 3 2; demo_cost 0 0 0 1; demo_cost 0 0 1 1;
   mkSuperCost 0 0 0 (mkCost 0 0 1) 0 0 1 true].
Definition demo_super2 : list Z := [0; 1; 2; 1; 2].
Definition demo_info (p : Z) : PrimInfo :=
  mkPrimInfo 4096 0 (if p =? 7 then 12 else 10) 0 false (if p =? 9 then 3 else 0) 0 [].
Definition demo_relocatable : Z -> bool := is_relocatable demo_info false.

Lemma demo_tables_wf : tables_wf demo_costs demo_super2 0 2 demo_relocatable (Some demo_info).
Proof.
  constructor.
  - intros i Hi. do 11 (destruct i as [|i]; [vm_compute; lia|]). cbn in Hi. lia.
  - intros i Hi En [Hc Hm]. assert (i = 9%nat) as ->.
    { destruct (decide (i = 9%nat)) as [|N]; [done|]. unfold max_ip_offset_of, demo_info in Hm. cbn in Hm.
      destruct (Z.eqb_spec (Z.of_nat i) 9); cbn in Hm; lia. }
    split; [done|]. split; [vm_compute; lia|]. split; [|split; [done|]].
    + constructor; vm_compute; lia.
    + intros j Hj _ [_ Hm2]. unfold max_ip_offset_of, demo_info in Hm2. cbn in Hm2.
      destruct (Z.eqb_spec (Z.of_nat j) 9); cbn in Hm2; lia.
  - assert (H : forall i, (i < length demo_costs)%nat ->
      noop_variant demo_costs 0 2 demo_relocatable i -> canonical (at_ demo_costs i) = true -> i = 8%nat).
    { intros i Hi NV C. destruct (nv_noop _ _ _ _ _ NV) as [Hn Hz].
      do 11 (destruct i as [|i]; [vm_compute in Hn, C; try discriminate; lia|]). cbn in Hi. lia. }
    intros i j Hi Hj NVi NVj Ci Cj. pose proof (H i Hi NVi Ci). pose proof (H j ltac:(lia) NVj Cj). lia.
Qed.

Lemma demo_instructions :
  Forall (instruction demo_costs demo_super2 0 2) [1; 2]%nat.
Proof.
  repeat constructor; vm_compute; lia.
Qed.

Lemma demo_costs_bounded p : 0 <= cost_codesize demo_info 1 p <= COST_BOUND.
Proof.
  unfold cost_codesize, demo_info, COST_BOUND. cbn [pi_length pi_len1].
  destruct (p =? 7); cbn; lia.
Qed.

Lemma prepare_super_table_correct_witness :
  exists st,
    prepare_super_table demo_costs demo_super2 0 2 10000 demo_relocatable (Some demo_info) = Some st /\
    lookup_super demo_super2 st [1] = Some [3; 9] /\ lookup_super demo_super2 st [1; 2] = Some [7] /\
    state_transitions st = [6; 5] /\ ip_update0 st = 8 /\ branches_to_ip st !! 9 = Some 10 /\
    nsupers st <= 10000.
Proof.
  destruct (prepare_super_table_correct demo_costs demo_super2 0 2 10000 demo_relocatable (Some demo_info)
    demo_tables_wf) as (st & E & P).
  exists st. split; [exact E|]. pose proof (pr_limit _ _ _ _ _ _ _ _ _ P) as [_ L].
  assert (E' := E). vm_compute in E'. injection E' as <-. repeat (split; [reflexivity|]). lia.
Defined.

Lemma prepared_blocks_selected_witness :
  exists st evs,
    prepare_super_table demo_costs demo_super2 0 2 10000 demo_relocatable (Some demo_info) = Some st /\
    optimize_rewrite 2 (max_super st) (info_at demo_costs) (cost_codesize demo_info 1) demo_relocatable
      (state_transitions st) (lookup_super demo_super2 st)
      (make_termstate 2 (info_at demo_costs) (cost_codesize demo_info 1) (state_transitions st)) [1; 2] = Some evs /\
    compiled_prims evs = [7].
Proof.
  destruct (prepared_blocks_selected demo_costs demo_super2 0 2 10000 demo_relocatable (Some demo_info)
    (cost_codesize demo_info 1) [1; 2]%nat demo_tables_wf ltac:(unfold CANONICAL_STATE; lia)
    (fun _ => eq_refl) demo_costs_bounded ltac:(cbn; unfold MAX_BB; lia) demo_instructions)
    as (st & evs & E & R & _).
  exists st, evs. split; [exact E|]. split; [exact R|].
  vm_compute in E. injection E as <-. vm_compute in R. injection R as <-. reflexivity.
Defined.

(** The table with superinstructions turned off. *)
Definition demo_prepared : option sstate :=
  prepare_super_table demo_costs demo_super2 0 2 0 demo_relocatable (Some demo_info).
Definition demo_state : sstate := default init_sstate demo_prepared.
Definition demo_term : tpa_state :=
  make_termstate 2 (info_at demo_costs) (cost_codesize demo_info 1) (state_transitions demo_state).

Lemma automaton_enabled_transparent_witness :
  snd (optimize_rewrite_auto 2 (max_super demo_state) (info_at demo_costs) (cost_codesize demo_info 1)
         demo_relocatable (state_transitions demo_state) (lookup_super demo_super2 demo_state) false 0
         [1; 2] (mkStore [demo_term] [] ∅)) =
  optimize_rewrite 2 (max_super demo_state) (info_at demo_costs) (cost_codesize demo_info 1)
    demo_relocatable (state_transitions demo_state) (lookup_super demo_super2 demo_state) demo_term [1; 2].
Proof.
  apply (automaton_enabled_transparent demo_costs demo_super2 0 2 0 demo_relocatable (Some demo_info)
    (cost_codesize demo_info 1) [1; 2]%nat demo_state (mkStore [demo_term] [] ∅) 0).
  - apply demo_tables_wf.
  - unfold CANONICAL_STATE. lia.
  - apply demo_costs_bounded.
  - cbn. unfold MAX_BB. lia.
  - apply demo_instructions.
  - vm_compute. reflexivity.
  - vm_compute. reflexivity.
  - constructor; [reflexivity|]. intros p b i H. by apply not_elem_of_nil in H.
Defined.
