(* ===== verification/PrimSearch.v ===== *)
(** * Searches in label tables (engine/main.c)

    [bsearch_next] (the next label at or behind an address), the binary search
    for a primitive number in [compile_prim1] and the linear search
    [prim_index].  Arrays are lists; the array accesses of the binary search
    are partial, so a result shows that no access was out of bounds. *)
From S2P Require Import Prelude.

(** ** bsearch_next

    The array is the sorted list [a] of length [n]; 0 is NULL.  The fuel is the
    length. *)
Fixpoint bsearch_next_fuel (fuel : nat) (key : Z) (a : list Z) : Z :=
  match fuel with
  | O => 0
  | S fuel =>
      let n := length a in
      let mid := ((n - 1) / 2)%nat in
      if (n <? 1)%nat then 0
      else if (n =? 1)%nat then (if nth 0 a 0 <? key then 0 else nth 0 a 0)
      else if nth mid a 0 <? key then bsearch_next_fuel fuel key (drop (mid + 1) a)
      else bsearch_next_fuel fuel key (take (mid + 1) a)
  end.

Definition bsearch_next (key : Z) (a : list Z) : Z := bsearch_next_fuel (length a) key a.

Definition ascending (a : list Z) : Prop :=
  forall i j x y, (i < j)%nat -> a !! i = Some x -> a !! j = Some y -> x <= y.

(** The least element of [a] at or behind [key]; 0 if there is none. *)
Definition next_label (key : Z) (a : list Z) (r : Z) : Prop :=
  (r = 0 /\ forall x, x ∈ a -> x < key) \/
  (r ∈ a /\ key <= r /\ forall x, x ∈ a -> key <= x -> r <= x).

Lemma ascending_take k a : ascending a -> ascending (take k a).
Proof.
  intros H i j x y Hij [Hx _]%lookup_take_Some [Hy _]%lookup_take_Some. by apply (H i j).
Qed.

Lemma ascending_drop k a : ascending a -> ascending (drop k a).
Proof. intros H i j x y Hij. rewrite !lookup_drop. apply H. lia. Qed.

(** Dropping a prefix below [key] and a suffix behind an element not below it. *)
Lemma next_label_drop key k a r :
  (forall x, x ∈ take k a -> x < key) -> next_label key (drop k a) r -> next_label key a r.
Proof.
  intros H N. rewrite <- (take_drop k a). destruct N as [[-> N]|(Hin & Hle & N)].
  - left. split; [done|]. intros x [Hx|Hx]%elem_of_app; auto.
  - right. split; [apply elem_of_app; by right|]. split; [done|].
    intros x [Hx|Hx]%elem_of_app Hk; [specialize (H x Hx); lia | auto].
Qed.

Lemma elem_of_take_in k (a : list Z) x : x ∈ take k a -> x ∈ a.
Proof. intros (i & [Ei _]%lookup_take_Some)%list_elem_of_lookup. apply list_elem_of_lookup. by exists i. Qed.

Lemma next_label_take key k a r m :
  ascending a -> (m < k)%nat -> (exists x, a !! m = Some x /\ key <= x) ->
  next_label key (take k a) r -> next_label key a r.
Proof.
  intros A Hm (y & Ey & Hy) N. pose proof (lookup_take_lt a k m Hm) as Et.
  assert (Yin : y ∈ take k a) by (apply list_elem_of_lookup; exists m; congruence).
  destruct N as [[-> N]|(Hin & Hle & N)]; [specialize (N y Yin); lia|].
  right. split; [by apply (elem_of_take_in k)|].
  split; [done|]. intros x (i & Ei)%list_elem_of_lookup Hk. destruct (Nat.lt_ge_cases i k) as [Hi|Hi].
  - apply N; [|done]. apply list_elem_of_lookup. exists i. by rewrite lookup_take_lt.
  - specialize (N y Yin Hy). pose proof (A m i y x ltac:(lia) Ey Ei). lia.
Qed.

Lemma bsearch_next_fuel_ok fuel key a :
  ascending a -> (length a <= fuel)%nat -> next_label key a (bsearch_next_fuel fuel key a).
Proof.
  revert a. induction fuel as [|fuel IH]; intros a A Hf.
  { destruct a; [|cbn in Hf; lia]. left. split; [done|]. intros x Hx. by apply not_elem_of_nil in Hx. }
  cbn [bsearch_next_fuel]. set (n := length a) in *. set (mid := ((n - 1) / 2)%nat).
  destruct (Nat.ltb_spec n 1) as [H0|H0].
  { left. split; [done|]. destruct a; [|cbn in *; lia]. intros x Hx. by apply not_elem_of_nil in Hx. }
  destruct (Nat.eqb_spec n 1) as [H1|H1].
  { destruct a as [|x [|? ?]]; try (cbn in *; lia). cbn [nth].
    destruct (Z.ltb_spec x key); [left|right].
    - split; [done|]. intros y ->%list_elem_of_singleton. done.
    - split; [by apply list_elem_of_singleton|]. split; [done|]. intros y ->%list_elem_of_singleton. lia. }
  assert (Hm : (2 * mid <= n - 1 < 2 * mid + 2)%nat).
  { pose proof (Nat.div_mod (n - 1) 2). pose proof (Nat.mod_upper_bound (n - 1) 2). unfold mid. lia. }
  assert (Em : a !! mid = Some (nth mid a 0)) by (apply lookup_nth_lt; fold n; lia).
  destruct (Z.ltb_spec (nth mid a 0) key) as [Hk|Hk].
  - apply next_label_drop with (mid + 1)%nat.
    + intros x (i & [Ei Hi]%lookup_take_Some)%list_elem_of_lookup.
      destruct (decide (i = mid)) as [->|]; [congruence|]. pose proof (A i mid x _ ltac:(lia) Ei Em). lia.
    + apply IH; [by apply ascending_drop|]. rewrite length_drop. fold n. lia.
  - apply next_label_take with (mid + 1)%nat mid; [done|lia|by eauto|].
    apply IH; [by apply ascending_take|]. rewrite length_take. fold n. lia.
Qed.

(** ** The binary search for a primitive number in [compile_prim1] *)

(** [for(i=1; i<n; i*=2);] *)
Fixpoint double_up (fuel : nat) (i n : nat) : nat :=
  match fuel with
  | O => i
  | S fuel => if (i <? n)%nat then double_up fuel (2 * i) n else i
  end.

(** The loop over the steps; the result is the final [i]. *)
Fixpoint search_steps (fuel : nat) (vm_prims : list Z) (n : nat) (inst : Z) (i step : nat) : option nat :=
  match fuel with
  | O => None
  | S fuel =>
      if (step =? 0)%nat then Some i
      else if (i <? n)%nat then
        v ← vm_prims !! i;
        if inst =? v then Some i
        else search_steps fuel vm_prims n inst (if inst >? v then i + step else i - step)%nat (step / 2)
      else search_steps fuel vm_prims n inst (i - step)%nat (step / 2)
  end.

(** The search as a whole: [prim_num] stays as it is if [inst] is not found. *)
Definition find_prim_num (vm_prims : list Z) (n : nat) (inst prim_num : Z) : option Z :=
  let i := (double_up n 1 n / 2)%nat in
  i ← search_steps (S n) vm_prims n inst i (i / 2);
  v ← vm_prims !! i;
  Some (if inst =? v then Z.of_nat i else prim_num).

Lemma double_up_ok fuel j n :
  (n <= 2 ^ (j + fuel))%nat -> (j = 0 \/ 2 ^ (j - 1) < n)%nat ->
  exists m, double_up fuel (2 ^ j) n = (2 ^ m)%nat /\ (n <= 2 ^ m)%nat /\ (m = 0 \/ 2 ^ (m - 1) < n)%nat.
Proof.
  revert j. induction fuel as [|fuel IH]; intros j Hn Hj; cbn [double_up].
  { exists j. split; [done|]. rewrite Nat.add_0_r in Hn. done. }
  destruct (Nat.ltb_spec (2 ^ j) n) as [H|H]; [|by exists j].
  destruct (IH (S j)) as (m & E & Hm); [by rewrite Nat.add_succ_comm|right; replace (S j - 1)%nat with j by lia; done|].
  exists m. by rewrite Nat.pow_succ_r' in E.
Qed.

(** The first [n] primitives have ascending addresses. *)
Definition strictly_ascending (v : list Z) (n : nat) : Prop :=
  forall i j x y, (i < j < n)%nat -> v !! i = Some x -> v !! j = Some y -> x < y.

(** While stepping by [2^s / 2], [i] is within [2^s] of the index sought, and
    [i - 2^s] is below [n]. *)
Definition search_result (vm_prims : list Z) (n : nat) (inst : Z) (i d : nat) (r : option nat) : Prop :=
  exists j, r = Some j /\ (j <= n)%nat /\
    (strictly_ascending vm_prims n -> forall k, (k < n)%nat -> vm_prims !! k = Some inst ->
     (i < k + d)%nat -> (k < i + d)%nat -> j = k).

Lemma search_steps_ok s fuel vm_prims n inst i :
  (s < fuel)%nat -> (length vm_prims = n + 1)%nat -> (2 ^ s <= i)%nat -> (i < n + 2 ^ s)%nat ->
  search_result vm_prims n inst i (2 ^ s) (search_steps fuel vm_prims n inst i (2 ^ s / 2)).
Proof.
  revert fuel i. induction s as [|s IH]; intros fuel i Hf Hl Hi Hn;
    (destruct fuel as [|fuel]; [lia|]); cbn [search_steps].
  { change (2 ^ 0 / 2)%nat with 0%nat. rewrite Nat.eqb_refl. cbn in Hn, Hi.
    exists i. split; [done|]. split; [lia|]. intros _ k _ _ H1 H2. cbn in H1, H2. lia. }
  rewrite Nat.pow_succ_r', Nat.mul_comm, Nat.div_mul in * by lia.
  pose proof (Nat.pow_nonzero 2 s ltac:(lia)) as Hp. rewrite (proj2 (Nat.eqb_neq _ _) Hp).
  assert (Go : forall i', (2 ^ s <= i' < n + 2 ^ s)%nat ->
    (strictly_ascending vm_prims n -> forall k, (k < n)%nat -> vm_prims !! k = Some inst ->
     (i < k + 2 ^ s * 2)%nat -> (k < i + 2 ^ s * 2)%nat -> (i' < k + 2 ^ s)%nat /\ (k < i' + 2 ^ s)%nat) ->
    search_result vm_prims n inst i (2 ^ s * 2) (search_steps fuel vm_prims n inst i' (2 ^ s / 2))).
  { intros i' Hi' Hk. destruct (IH fuel i') as (r & E & Hr & H); [lia|done|lia|lia|].
    exists r. split; [done|]. split; [done|]. intros A k Kn Ek K1 K2.
    destruct (Hk A k Kn Ek K1 K2). by apply H. }
  destruct (Nat.ltb_spec i n) as [Hin|Hin]; [|apply Go; [lia|]; intros _ k Kn _ K1 K2; lia].
  destruct (lookup_lt_is_Some_2 vm_prims i ltac:(lia)) as [v Ev]. rewrite Ev. cbn [mbind option_bind].
  assert (Cmp : strictly_ascending vm_prims n -> forall k, (k < n)%nat -> vm_prims !! k = Some inst ->
    ((i < k)%nat -> v < inst) /\ ((k < i)%nat -> inst < v)).
  { intros A k Kn Ek. split; intros ?; eapply A; try eassumption; lia. }
  destruct (Z.eqb_spec inst v) as [<-|Hv].
  - exists i. split; [done|]. split; [lia|]. intros A k Kn Ek _ _. destruct (Cmp A k Kn Ek).
    destruct (Nat.lt_trichotomy i k) as [?|[?|?]]; lia.
  - destruct (Z.gtb_spec inst v); apply Go; try lia; intros A k Kn Ek K1 K2;
      destruct (Cmp A k Kn Ek); assert (k <> i) by congruence; lia.
Qed.

Lemma find_prim_num_ok (vm_prims : list Z) (n : nat) (inst prim_num : Z) :
  (2 <= n)%nat -> length vm_prims = (n + 1)%nat ->
  exists p, find_prim_num vm_prims n inst prim_num = Some p /\
    (p = prim_num \/ exists k, p = Z.of_nat k /\ vm_prims !! k = Some inst) /\
    (strictly_ascending vm_prims n -> forall k, (1 <= k < n)%nat -> vm_prims !! k = Some inst ->
     p = Z.of_nat k).
Proof.
  intros Hn Hl. unfold find_prim_num.
  destruct (double_up_ok n 0 n) as (m & E & Hm & Hm'); [pose proof (Nat.pow_gt_lin_r 2 n); cbn; lia|by left|].
  rewrite Nat.pow_0_r in E. rewrite E. destruct m as [|m]; [cbn in Hm; lia|].
  destruct Hm' as [?|Hm']; [done|]. replace (S m - 1)%nat with m in Hm' by lia.
  rewrite Nat.pow_succ_r', Nat.mul_comm, Nat.div_mul in * by lia.
  destruct (search_steps_ok m (S n) vm_prims n inst (2 ^ m)) as (r & Es & Hr & Hs);
    [pose proof (Nat.pow_gt_lin_r 2 m); lia|done|lia|lia|].
  rewrite Es. cbn [mbind option_bind].
  destruct (lookup_lt_is_Some_2 vm_prims r ltac:(lia)) as [v Ev]. rewrite Ev. cbn [mbind option_bind].
  eexists. split; [done|]. split.
  - destruct (Z.eqb_spec inst v) as [<-|]; [right; eauto|by left].
  - intros A k Hk Ek. pose proof (Hs A k ltac:(lia) Ek ltac:(lia) ltac:(lia)) as ->.
    rewrite Ev in Ek. injection Ek as ->. by rewrite Z.eqb_refl.
Qed.

Lemma find_prim_num_total vm_prims n inst prim_num :
  (2 <= n)%nat -> length vm_prims = (n + 1)%nat ->
  exists p, find_prim_num vm_prims n inst prim_num = Some p /\
    (p = prim_num \/ exists k, p = Z.of_nat k /\ vm_prims !! k = Some inst).
Proof.
  intros Hn Hl. destruct (find_prim_num_ok vm_prims n inst prim_num Hn Hl) as (p & E & H & _).
  by exists p.
Qed.

(** ** prim_index

    [vm_prims] is terminated by NULL; without terminator the C loop would run
    out of the array. *)
Fixpoint prim_index_from (i : Z) (vm_prims : list Z) (code : Z) : option Z :=
  match vm_prims with
  | [] => None
  | v :: vm_prims =>
      if v =? 0 then Some (-1) else if v =? code then Some i else prim_index_from (i + 1) vm_prims code
  end.
Definition prim_index (vm_prims : list Z) (code : Z) : option Z := prim_index_from 0 vm_prims code.

Lemma prim_index_from_ok i (prims : list Z) code :
  (forall x, x ∈ prims -> x <> 0) ->
  exists p, prim_index_from i (prims ++ [0]) code = Some p /\
    ((p = -1 /\ (code ∉ prims)) \/ (exists k, p = i + Z.of_nat k /\ prims !! k = Some code /\ code ∉ take k prims)).
Proof.
  revert i. induction prims as [|v prims IH]; intros i Hz; cbn [app prim_index_from].
  { exists (-1). split; [done|]. left. split; [done|]. apply not_elem_of_nil. }
  destruct (Z.eqb_spec v 0) as [->|Hv]; [by destruct (Hz 0 ltac:(left))|].
  destruct (Z.eqb_spec v code) as [->|Hc].
  { exists i. split; [done|]. right. exists 0%nat. split; [lia|]. split; [done|]. apply not_elem_of_nil. }
  destruct (IH (i + 1)) as (p & E & H); [intros x Hx; apply Hz; by right|].
  exists p. split; [done|]. destruct H as [[? H]|(k & -> & Ek & H)]; [left|right].
  - split; [done|]. by apply not_elem_of_cons.
  - exists (S k). split; [lia|]. split; [done|]. cbn [take]. by apply not_elem_of_cons.
Qed.

(** ** Properties *)

(** [bsearch_next] terminates with the least label at or behind [key], and
    with NULL exactly if every label lies before [key]. *)
Theorem bsearch_next_least (key : Z) (a : list Z) :
  ascending a -> next_label key a (bsearch_next key a).
Proof. intros A. unfold bsearch_next. by apply bsearch_next_fuel_ok. Qed.

(** The binary search of [compile_prim1] always ends without reading behind
    the terminator of the primitive table, whatever the table holds, changes
    the primitive number only to that of a primitive with the given code, and
    on a table in ascending order finds every primitive but the first. *)
Theorem prim_search_exact (vm_prims : list Z) (n : nat) (inst prim_num : Z) :
  (2 <= n)%nat -> length vm_prims = (n + 1)%nat ->
  exists p, find_prim_num vm_prims n inst prim_num = Some p /\
    (p = prim_num \/ exists k, p = Z.of_nat k /\ vm_prims !! k = Some inst) /\
    (strictly_ascending vm_prims n -> forall k, (1 <= k < n)%nat -> vm_prims !! k = Some inst ->
     p = Z.of_nat k).
Proof.
  intros Hn Hl. destruct (find_prim_num_ok vm_prims n inst prim_num Hn Hl) as (p & E & H1 & H2).
  by exists p.
Qed.

Lemma bsearch_next_least_witness :
  ascending [10; 20; 20; 40; 55] /\ next_label 21 [10; 20; 20; 40; 55] 40.
Proof.
  assert (A : ascending [10; 20; 20; 40; 55]).
  { intros i j x y Hij Hx Hy. pose proof (lookup_lt_Some _ _ _ Hy) as Hj. cbn in Hj.
    do 5 (destruct j as [|j]; [do 5 (destruct i as [|i]; [cbn in Hx, Hy; injection Hx as <-; injection Hy as <-; lia|]); lia|]). lia. }
  split; [exact A|]. exact (bsearch_next_least 21 _ A).
Defined.

Lemma prim_search_exact_witness :
  find_prim_num [100; 104; 110; 120; 121; 0] 5 120 77 = Some 3.
Proof.
  destruct (prim_search_exact [100; 104; 110; 120; 121; 0] 5 120 77 ltac:(lia) eq_refl) as (p & E & _ & H).
  rewrite E. f_equal. apply (H ltac:(
    intros i j x y Hij Hx Hy; do 5 (destruct j as [|j]; [do 5 (destruct i as [|i];
      [cbn in Hx, Hy; injection Hx as <-; injection Hy as <-; lia|]); lia|]); lia) 3%nat); [lia|done].
Defined.
