(* ===== verification/CheckPrims.v ===== *)
(** * Relocatability of primitives (check_prims in engine/main.c)

    The engine is compiled twice; a primitive can be copied into dynamically
    generated code if its machine code is the same in both copies.
    [check_prims] derives every primitive's [PrimInfo] from the label tables
    of the two copies and their code bytes.  The compiler-made tables, the code
    and the architecture's extra check are parameters. *)
From Stdlib Require Import Sorted.
From S2P Require Import Prelude Memory Tpa Prims PrimSearch.

(** The comparison function is an [int]: the difference is truncated. *)
Definition compare_labels (a b : Z) : Z := S32 (a - b).

(** [qsort] with [compare_labels]. *)
Fixpoint insert_label (x : Z) (l : list Z) : list Z :=
  match l with
  | [] => [x]
  | y :: l => if compare_labels x y <=? 0 then x :: y :: l else y :: insert_label x l
  end.
Definition qsort (l : list Z) : list Z := foldr insert_label [] l.
(** ** Lemmas: sorting *)

Lemma compare_labels_exact x y :
  - 2147483648 <= x - y < 2147483648 -> compare_labels x y = x - y.
Proof. intros H. unfold compare_labels, S32. rewrite Z.mod_small; lia. Qed.

Lemma elem_of_insert_label x l y : y ∈ insert_label x l <-> y = x \/ y ∈ l.
Proof.
  induction l as [|z l IH]; cbn [insert_label].
  - rewrite list_elem_of_singleton, elem_of_nil. tauto.
  - destruct (_ <=? _); rewrite !elem_of_cons, ?IH; tauto.
Qed.

Lemma elem_of_qsort l y : y ∈ qsort l <-> y ∈ l.
Proof.
  unfold qsort. induction l as [|x l IH]; cbn [foldr]; [done|].
  rewrite elem_of_insert_label, IH, elem_of_cons. tauto.
Qed.

Lemma insert_label_sorted x l :
  (forall y, y ∈ l -> - 2147483648 <= x - y < 2147483648) ->
  StronglySorted Z.le l -> StronglySorted Z.le (insert_label x l).
Proof.
  intros Hc Hs. induction Hs as [|y l Hs IH Hy]; cbn [insert_label]; [repeat constructor|].
  rewrite compare_labels_exact by (apply Hc; left). rewrite List.Forall_forall in Hy.
  destruct (Z.leb_spec (x - y) 0).
  - constructor; [constructor; [done|by apply List.Forall_forall]|].
    apply List.Forall_forall. intros z [<-|Hz]; [lia|]. specialize (Hy z Hz). lia.
  - constructor; [apply IH; intros z Hz; apply Hc; by right|].
    apply List.Forall_forall. intros z Hz%list_elem_of_In%elem_of_insert_label.
    destruct Hz as [->|Hz]; [lia|]. by apply Hy, list_elem_of_In.
Qed.

Lemma qsort_sorted l :
  (forall x y, x ∈ l -> y ∈ l -> - 2147483648 <= x - y < 2147483648) -> StronglySorted Z.le (qsort l).
Proof.
  unfold qsort. induction l as [|x l IH]; intros Hc; cbn [foldr]; [constructor|].
  apply insert_label_sorted.
  - intros y Hy. apply (elem_of_qsort l) in Hy. apply Hc; [left|by right].
  - apply IH. intros ? ? ? ?. apply Hc; by right.
Qed.

Lemma sorted_ascending l : StronglySorted Z.le l -> ascending l.
Proof.
  intros Hs. induction Hs as [|z l Hs IH Hz]; intros i j x y Hij Hx Hy; [done|].
  destruct j as [|j]; [lia|]. destruct i as [|i]; [|by apply (IH i j x y); [lia|..]].
  cbn in Hx, Hy. injection Hx as <-. rewrite List.Forall_forall in Hz.
  apply Hz, list_elem_of_In, list_elem_of_lookup. by exists j.
Qed.

Section CheckPrims.
(** The label arrays of the two engines: [n] primitive labels, 0, then [n] L,
    [n] K, [n]+1 J labels and the two labels around the goto. *)
Context (symbols1 symbols2 : list Z) (code : memory).
Context (super_costs : Z -> cost) (prim_names : nat -> list Z).
Context (superend : nat -> bool) (no_super : bool) (opt_ip_updates : Z).
Context (CHECK_PRIM : Z -> Z -> bool).

Definition sym1 (i : nat) : Z := nth i symbols1 0.
Definition sym2 (i : nat) : Z := nth i symbols2 0.

(** [for (i=0; symbols1[i]!=0; i++) ;] *)
Fixpoint count_symbols (l : list Z) : nat :=
  match l with
  | [] => 0
  | s :: l => if s =? 0 then 0%nat else S (count_symbols l)
  end.
Definition npriminfos : nat := count_symbols symbols1.

Definition startb (i : nat) : Z := sym1 (npriminfos + 1 + i).
Definition ends1 (i : nat) : Z := sym1 (2 * npriminfos + 1 + i).
Definition ends1j : list Z := take (npriminfos + 1) (drop (3 * npriminfos + 1) symbols1).
Definition goto_p : nat := 4 * npriminfos + 2.

Definition ends1jsorted : list Z := qsort ends1j.

(** [memcmp] of two code ranges. *)
Definition same_code (a b len : Z) : bool :=
  forallb (fun j => code (a + Z.of_nat j) =? code (b + Z.of_nat j)) (seq 0 (Z.to_nat len)).

Definition goto_len : Z := sym1 (goto_p + 1) - sym1 goto_p.
(** Dynamic code generation is disabled if the goto is not relocatable. *)
Definition goto_relocatable : bool :=
  negb ((goto_len <? 0) || negb (same_code (sym1 goto_p) (sym2 goto_p) goto_len)).

Definition ip_offset_of (i : nat) : Z := ip_offset (super_costs (Z.of_nat i)).

Definition set_layout (start length rest : Z) (pi : PrimInfo) : PrimInfo :=
  mkPrimInfo start (pi_len1 pi) length rest (pi_superend pi) (pi_max_ip_offset pi)
    (pi_min_ip_offset pi) (pi_immargs pi).

(** [pi] as initialised at the start of an iteration. *)
Definition initial_info (i : nat) (endlabel : Z) : PrimInfo :=
  let prim_len := S32 (ends1 i - sym1 i) in
  mkPrimInfo (sym1 i) (startb i - sym1 i) prim_len (endlabel - sym1 i - prim_len)
    (superend i || no_super) 0 0 [].

(** The checks of one primitive; [true] if the iteration goes on to the ip
    updates, [false] if a [continue] was taken. *)
Definition check_prim (i : nat) : PrimInfo * bool :=
  let endlabel := bsearch_next (sym1 i + 1) ends1jsorted in
  let pi := initial_info i endlabel in
  let prim_len := pi_length pi in
  if endlabel =? 0 then
    (set_layout 0 (if pi_length pi <? 0 then 100 else pi_length pi) (pi_restlength pi) pi, false)
  else if (ends1 i >? endlabel) && negb (pi_superend pi) then
    (set_layout 0 (endlabel - sym1 i) (pi_restlength pi) pi, false)
  else if (ends1 i <? pi_start pi) && negb (pi_superend pi) then
    (set_layout 0 (endlabel - sym1 i) (pi_restlength pi) pi, false)
  else if CHECK_PRIM (sym1 i) prim_len then
    (set_layout 0 (pi_length pi) (pi_restlength pi) pi, false)
  else
    let pi := if (pi_length pi <? 0) || (pi_restlength pi <? 0)
              then set_layout (pi_start pi) (endlabel - sym1 i) 0 pi else pi in
    let same := same_code (sym1 i) (sym2 i) (pi_length pi + pi_restlength pi) in
    (if same then pi else set_layout 0 (pi_length pi) (pi_restlength pi) pi, true).

Definition no_info : PrimInfo := mkPrimInfo 0 0 0 0 false 0 0 [].
Definition info (infos : list PrimInfo) (i : nat) : PrimInfo := nth i infos no_info.

Definition set_max_ip (o : Z) (pi : PrimInfo) : PrimInfo :=
  mkPrimInfo (pi_start pi) (pi_len1 pi) (pi_length pi) (pi_restlength pi) (pi_superend pi) o
    (pi_min_ip_offset pi) (pi_immargs pi).
Definition set_min_ip (o : Z) (pi : PrimInfo) : PrimInfo :=
  mkPrimInfo (pi_start pi) (pi_len1 pi) (pi_length pi) (pi_restlength pi) (pi_superend pi)
    (pi_max_ip_offset pi) o (pi_immargs pi).

(** [strcmp(prim_names[i],prim_names[j])==0] *)
Definition same_name (i j : nat) : bool := bool_decide (prim_names i = prim_names j).

(** The search for ip-update variants with negative ip offset: [d] is [-k];
    the result is the last [k] that holds, or an assertion failure. *)
Fixpoint negative_variants (fuel : nat) (infos : list PrimInfo) (i d : nat) (min : Z) : option Z :=
  match fuel with
  | O => Some min
  | S fuel =>
      if (i <? d)%nat then Some min
      else if (pi_start (info infos (i - d)) =? 0) || negb (ip_offset_of (i - d) =? - Z.of_nat d)
      then Some min
      else if negb (same_name i (i - d)) then None
      else negative_variants fuel infos i (S d) (- Z.of_nat d)
  end.

(** The ip-update part of an iteration: [infos] holds all primitives so far,
    [i] included.  An access before the table fails. *)
Definition ip_variants (infos : list PrimInfo) (i : nat) : option (list PrimInfo) :=
  let o := ip_offset_of i in
  if (opt_ip_updates >? 2) && (o >? 0) then
    if Z.of_nat i <? o then None
    else
      let h := (i - Z.to_nat o)%nat in
      if negb (same_name i h) then None
      else if negb (pi_start (info infos i) =? 0) && (pi_max_ip_offset (info infos h) =? o - 1)
      then Some (<[h := set_max_ip o (info infos h)]> infos)
      else Some infos
  else if o =? 0 then
    min ← negative_variants (S i) infos i 1 0;
    Some (<[i := set_min_ip min (info infos i)]> infos)
  else Some infos.

(** One iteration of the loop over the primitives. *)
Definition check_step (infos : list PrimInfo) (i : nat) : option (list PrimInfo) :=
  let '(pi, go_on) := check_prim i in
  let infos := infos ++ [pi] in
  if go_on then ip_variants infos i else Some infos.

Fixpoint check_upto (n : nat) : option (list PrimInfo) :=
  match n with
  | O => Some []
  | S n => infos ← check_upto n; check_step infos n
  end.

(** [None]: an assertion fails; [Some None]: dynamic code is disabled. *)
Definition check_prims (no_dynamic : bool) : option (option (list PrimInfo)) :=
  if no_dynamic || negb goto_relocatable then Some None
  else Some <$> check_upto npriminfos.

(** ** Lemmas: comparing *)

(** All J labels lie within 2 GB, where [compare_labels] is exact. *)
Definition labels_close : Prop :=
  forall x y, x ∈ ends1j -> y ∈ ends1j -> - 2147483648 <= x - y < 2147483648.

Lemma same_code_spec a b len :
  same_code a b len = true <-> forall j, 0 <= j < len -> code (a + j) = code (b + j).
Proof using.
  unfold same_code. rewrite List.forallb_forall. split.
  - intros H j Hj. specialize (H (Z.to_nat j)). rewrite Z2Nat.id in H by lia.
    apply Z.eqb_eq, H, in_seq. lia.
  - intros H j Hj%in_seq. apply Z.eqb_eq, H. lia.
Qed.

(** ** What check_prims establishes *)

(** A primitive that is marked relocatable: the bytes up to the next J label are
    the same in both engines. *)
Record relocatable_ok (i : nat) (pi : PrimInfo) : Prop := {
  ro_start : pi_start pi = sym1 i;
  ro_len : 0 <= pi_length pi /\ 0 <= pi_restlength pi;
  ro_end : let e := sym1 i + pi_length pi + pi_restlength pi in
    e ∈ ends1j /\ sym1 i < e /\ forall x, x ∈ ends1j -> sym1 i < x -> e <= x;
  ro_same : forall j, 0 <= j < pi_length pi + pi_restlength pi -> code (sym1 i + j) = code (sym2 i + j);
  ro_superend : pi_superend pi = superend i || no_super;
  ro_checked : CHECK_PRIM (sym1 i) (S32 (ends1 i - sym1 i)) = false
}.

Record infos_ok (n : nat) (infos : list PrimInfo) : Prop := {
  io_length : length infos = n;
  io_reloc : forall i, (i < n)%nat -> pi_start (info infos i) <> 0 -> relocatable_ok i (info infos i);
  io_nonneg : forall h, (h < n)%nat -> 0 <= pi_max_ip_offset (info infos h);
  io_max : forall h o, (h < n)%nat -> 1 <= o <= pi_max_ip_offset (info infos h) ->
    let v := (h + Z.to_nat o)%nat in
    (v < n)%nat /\ pi_start (info infos v) <> 0 /\ ip_offset_of v = o /\ prim_names v = prim_names h;
  io_min : forall h d, (h < n)%nat -> (1 <= d)%nat -> pi_min_ip_offset (info infos h) <= - Z.of_nat d ->
    let v := (h - d)%nat in
    (d <= h)%nat /\ pi_start (info infos v) <> 0 /\ ip_offset_of v = - Z.of_nat d /\ prim_names v = prim_names h
}.

Lemma check_prim_ok i :
  labels_close ->
  let pi := fst (check_prim i) in
  (pi_start pi <> 0 -> relocatable_ok i pi) /\ pi_max_ip_offset pi = 0 /\ pi_min_ip_offset pi = 0.
Proof using.
  intros Hc.
  assert (N : next_label (sym1 i + 1) ends1jsorted (bsearch_next (sym1 i + 1) ends1jsorted)).
  { unfold bsearch_next. apply bsearch_next_fuel_ok; [|done]. by apply sorted_ascending, qsort_sorted. }
  unfold check_prim. set (e := bsearch_next _ _) in *. set (pi := initial_info i e).
  destruct (Z.eqb_spec e 0) as [|He]; [done|].
  destruct N as [[? _]|(Hin & Hle & Hmin)]; [done|].
  destruct ((ends1 i >? e) && _); [done|]. destruct ((ends1 i <? _) && _); [done|].
  destruct (CHECK_PRIM _ _) eqn:C; [done|].
  assert (Hin' : e ∈ ends1j) by (by apply elem_of_qsort). assert (Hmin' : forall x, x ∈ ends1j -> sym1 i < x -> e <= x).
  { intros x Hx Hl. apply Hmin; [by apply elem_of_qsort|lia]. }
  set (pi1 := if _ || _ then _ else pi). cbn [fst].
  assert (H1 : pi_start pi1 = sym1 i /\ 0 <= pi_length pi1 /\ 0 <= pi_restlength pi1 /\
               sym1 i + pi_length pi1 + pi_restlength pi1 = e /\
               pi_superend pi1 = superend i || no_super /\ pi_max_ip_offset pi1 = 0 /\ pi_min_ip_offset pi1 = 0).
  { unfold pi1. destruct (_ || _) eqn:E.
    - unfold pi. cbn. repeat split; try done; lia.
    - apply orb_false_iff in E as [E1 E2]. apply Z.ltb_ge in E1, E2.
      unfold pi in *. cbn [initial_info pi_start pi_length pi_restlength pi_superend
        pi_max_ip_offset pi_min_ip_offset] in *. repeat split; try done; lia. }
  destruct H1 as (S1 & L1 & R1 & E1 & Su1 & M1 & M2).
  destruct (same_code _ _ _) eqn:Sm; [|done]. split; [|done]. intros _.
  constructor; try done.
  - cbv zeta. rewrite E1. split; [done|]. split; [lia|done].
  - by apply same_code_spec.
Qed.

(** The generated tables name the ip-offset variants consistently. *)
Record names_ok : Prop := {
  no_positive : forall i, (i < npriminfos)%nat -> 0 < ip_offset_of i ->
    ip_offset_of i <= Z.of_nat i /\ prim_names i = prim_names (i - Z.to_nat (ip_offset_of i))%nat;
  no_negative : forall i d, (i < npriminfos)%nat -> (1 <= d <= i)%nat -> ip_offset_of i = 0 ->
    ip_offset_of (i - d) = - Z.of_nat d -> prim_names i = prim_names (i - d)%nat
}.

Lemma same_name_true i j : prim_names i = prim_names j -> same_name i j = true.
Proof using. intros ?. unfold same_name. by rewrite bool_decide_true. Qed.

Lemma info_insert infos i pi j :
  (i < length infos)%nat -> info (<[i := pi]> infos) j = if decide (j = i) then pi else info infos j.
Proof using.
  intros Hi. unfold info. rewrite !nth_lookup. destruct (decide (j = i)) as [->|N].
  - by rewrite list_lookup_insert_eq.
  - by rewrite list_lookup_insert_ne.
Qed.

Lemma info_app infos pi j :
  info (infos ++ [pi]) j = if decide (j = length infos) then pi else info infos j.
Proof using.
  unfold info. rewrite !nth_lookup. destruct (decide (j = length infos)) as [->|N].
  - by rewrite list_lookup_middle.
  - destruct (Nat.lt_ge_cases j (length infos)).
    + by rewrite lookup_app_l.
    + rewrite !lookup_ge_None_2; [done|lia|]. rewrite length_app. cbn. lia.
Qed.

(** Adding a primitive whose variant ranges are still empty. *)
Lemma infos_ok_snoc n infos pi :
  infos_ok n infos -> (pi_start pi <> 0 -> relocatable_ok n pi) ->
  pi_max_ip_offset pi = 0 -> pi_min_ip_offset pi = 0 -> infos_ok (S n) (infos ++ [pi]).
Proof using.
  intros [L R N X M] Hr Hx Hm. constructor.
  - rewrite length_app, L. cbn. lia.
  - intros i Hi. rewrite info_app, L. destruct (decide (i = n)) as [->|]; [done|]. apply R. lia.
  - intros h Hh. rewrite info_app, L. destruct (decide (h = n)) as [->|]; [lia|]. apply N. lia.
  - intros h o Hh. rewrite info_app, L. destruct (decide (h = n)) as [->|]; [rewrite Hx; lia|].
    intros Ho. destruct (X h o ltac:(lia) Ho) as (H1 & H2 & H3). cbv zeta. rewrite info_app, L.
    rewrite decide_False by lia. split; [lia|done].
  - intros h d Hh Hd. rewrite info_app, L. destruct (decide (h = n)) as [->|]; [rewrite Hm; lia|].
    intros Ho. destruct (M h d ltac:(lia) Hd Ho) as (H1 & H2 & H3). cbv zeta. rewrite info_app, L.
    rewrite decide_False by lia. done.
Qed.

(** Changing only a variant range of [h], to one that holds. *)
Lemma infos_ok_insert n infos h pi :
  infos_ok n infos -> (h < n)%nat ->
  pi_start pi = pi_start (info infos h) -> (relocatable_ok h (info infos h) -> relocatable_ok h pi) ->
  0 <= pi_max_ip_offset pi ->
  (forall o, 1 <= o <= pi_max_ip_offset pi -> let v := (h + Z.to_nat o)%nat in
     (v < n)%nat /\ pi_start (info infos v) <> 0 /\ ip_offset_of v = o /\ prim_names v = prim_names h) ->
  (forall d, (1 <= d)%nat -> pi_min_ip_offset pi <= - Z.of_nat d -> let v := (h - d)%nat in
     (d <= h)%nat /\ pi_start (info infos v) <> 0 /\ ip_offset_of v = - Z.of_nat d /\ prim_names v = prim_names h) ->
  infos_ok n (<[h := pi]> infos).
Proof using.
  intros [L R N X M] Hh Hs Hr H0 Hx Hm. rewrite <- L in Hh.
  assert (St : forall j, pi_start (info (<[h := pi]> infos) j) = pi_start (info infos j)).
  { intros j. rewrite info_insert by done. destruct (decide (j = h)) as [->|]; done. }
  constructor.
  - by rewrite length_insert.
  - intros i Hi. rewrite St, info_insert by done. destruct (decide (i = h)) as [->|]; [|by apply R].
    intros H. apply Hr, R; done.
  - intros h' Hh'. rewrite info_insert by done. destruct (decide (h' = h)); [done|by apply N].
  - intros h' o Hh'. rewrite info_insert by done.
    destruct (decide (h' = h)) as [->|]; intros Ho; cbv zeta; rewrite St; [by apply Hx|by apply X].
  - intros h' d Hh' Hd. rewrite info_insert by done.
    destruct (decide (h' = h)) as [->|]; intros Ho; cbv zeta; rewrite St; [by apply Hm|by apply M].
Qed.

(** The negative variants found form a contiguous run. *)
Definition negative_run (infos : list PrimInfo) (i d : nat) : Prop :=
  forall d', (1 <= d' < d)%nat -> (d' <= i)%nat /\ pi_start (info infos (i - d')) <> 0 /\
    ip_offset_of (i - d') = - Z.of_nat d' /\ prim_names (i - d')%nat = prim_names i.

Lemma negative_variants_ok fuel infos i d :
  names_ok -> (i < npriminfos)%nat -> ip_offset_of i = 0 -> (1 <= d)%nat -> negative_run infos i d ->
  exists d', negative_variants fuel infos i d (1 - Z.of_nat d) = Some (1 - Z.of_nat d') /\
    (1 <= d')%nat /\ negative_run infos i d'.
Proof using.
  intros NM Hi H0. revert d. induction fuel as [|fuel IH]; intros d Hd Hr; cbn [negative_variants]; [by exists d|].
  destruct (Nat.ltb_spec i d); [by exists d|].
  destruct (Z.eqb_spec (pi_start (info infos (i - d))) 0); [by exists d|].
  destruct (Z.eqb_spec (ip_offset_of (i - d)) (- Z.of_nat d)) as [Eo|]; [|by exists d]. cbn [orb negb].
  pose proof (no_negative NM i d Hi ltac:(lia) H0 Eo) as En. rewrite (same_name_true _ _ En). cbn [negb].
  replace (- Z.of_nat d) with (1 - Z.of_nat (S d)) by lia. apply IH; [lia|].
  intros d' Hd'. destruct (decide (d' = d)) as [->|]; [|apply Hr; lia]. done.
Qed.

Lemma ip_variants_ok infos i :
  names_ok -> (i < npriminfos)%nat -> infos_ok (S i) infos ->
  pi_max_ip_offset (info infos i) = 0 -> pi_min_ip_offset (info infos i) = 0 ->
  exists infos', ip_variants infos i = Some infos' /\ infos_ok (S i) infos'.
Proof using.
  intros NM Hi IO Hx Hm. unfold ip_variants. set (o := ip_offset_of i) in *.
  destruct ((opt_ip_updates >? 2) && (o >? 0)) eqn:C.
  - apply andb_true_iff in C as [_ C]. rewrite Z.gtb_lt in C. destruct (no_positive NM i Hi C) as [Ho Hn].
    fold o in Ho, Hn. destruct (Z.ltb_spec (Z.of_nat i) o); [lia|]. rewrite (same_name_true _ _ Hn). cbn [negb].
    set (h := (i - Z.to_nat o)%nat) in *.
    destruct (_ && _) eqn:D; [|by exists infos]. eexists. split; [done|].
    apply andb_true_iff in D as [D1 D2]. apply negb_true_iff, Z.eqb_neq in D1. apply Z.eqb_eq in D2.
    apply infos_ok_insert; [done|unfold h; lia|done| |cbn [set_max_ip pi_max_ip_offset]; lia| |].
    + intros [? ? ? ? ? ?]. by constructor.
    + cbn [set_max_ip pi_max_ip_offset]. intros o' Ho'. destruct (Z.eq_dec o' o) as [->|].
      * replace (h + Z.to_nat o)%nat with i by (unfold h; lia). split; [lia|]. split; [done|]. split; done.
      * apply (io_max _ _ IO h o'); [unfold h; lia|lia].
    + cbn [set_max_ip pi_min_ip_offset]. intros d Hd Hd'. apply (io_min _ _ IO h d); [unfold h; lia|done|done].
  - destruct (Z.eqb_spec o 0) as [E|E]; [|by exists infos].
    destruct (negative_variants_ok (S i) infos i 1 NM Hi E ltac:(lia)) as (d' & En & Hd' & Hr).
    { intros d ?. lia. }
    change (1 - Z.of_nat 1) with 0 in En. rewrite En. cbn [mbind option_bind]. eexists. split; [done|].
    apply infos_ok_insert; [done|lia|done| |cbn [set_min_ip pi_max_ip_offset]; lia| |].
    + intros [? ? ? ? ? ?]. by constructor.
    + cbn [set_min_ip pi_max_ip_offset]. rewrite Hx. lia.
    + cbn [set_min_ip pi_min_ip_offset]. intros d Hd Hle. apply Hr. lia.
Qed.

Lemma check_upto_ok n :
  names_ok -> labels_close -> (n <= npriminfos)%nat ->
  exists infos, check_upto n = Some infos /\ infos_ok n infos.
Proof using.
  intros NM LC. induction n as [|n IH]; intros Hn; cbn [check_upto].
  { exists []. split; [done|]. constructor; [done|..]; intros; lia. }
  destruct IH as (infos & -> & IO); [lia|]. cbn [mbind option_bind]. unfold check_step.
  destruct (check_prim_ok n LC) as (Hr & Hx & Hm). destruct (check_prim n) as [pi go_on]. cbn [fst] in *.
  pose proof (infos_ok_snoc n infos pi IO Hr Hx Hm) as IO'. destruct go_on; [|eauto].
  assert (E : info (infos ++ [pi]) n = pi).
  { rewrite info_app, decide_True; [done|]. by rewrite (io_length _ _ IO). }
  apply ip_variants_ok; [done|lia|done|by rewrite E|by rewrite E].
Qed.
End CheckPrims.

(** ** Properties *)

(** C26: [check_prims] marks only relocatable code and never fails an assertion
    (given consistently named variants and engine code within 2 GB): for every
    primitive marked relocatable, the code that will be copied, up to the
    nearest J label behind its start, is byte for byte the same in both
    engines; and the ip-update variants a header announces are all present,
    relocatable, consecutive and variants of the same primitive. *)
Theorem check_prims_sound (symbols1 symbols2 : list Z) (code : memory) (super_costs : Z -> cost)
    (prim_names : nat -> list Z) (superend : nat -> bool) (no_super : bool) (opt_ip_updates : Z)
    (CHECK_PRIM : Z -> Z -> bool) (no_dynamic : bool) :
  names_ok symbols1 super_costs prim_names -> labels_close symbols1 ->
  exists r, check_prims symbols1 symbols2 code super_costs prim_names superend no_super opt_ip_updates
              CHECK_PRIM no_dynamic = Some r /\
  match r with
  | None => no_dynamic = true \/ goto_relocatable symbols1 symbols2 code = false
  | Some infos =>
      no_dynamic = false /\ goto_relocatable symbols1 symbols2 code = true /\
      infos_ok symbols1 symbols2 code super_costs prim_names superend no_super CHECK_PRIM
        (npriminfos symbols1) infos
  end.
Proof.
  intros NM LC. unfold check_prims.
  destruct no_dynamic; [eexists; split; [done|by left]|]. cbn [orb].
  destruct (goto_relocatable _ _ _) eqn:G; [|eexists; split; [done|by right]].
  destruct (check_upto_ok symbols1 symbols2 code super_costs prim_names superend no_super opt_ip_updates
    CHECK_PRIM (npriminfos symbols1) NM LC ltac:(lia)) as (infos & E & IO).
  exists (Some infos). split; [|done]. cbn [negb]. by rewrite E.
Qed.

(** *** Two engines with three primitives: 0 with its ip-update variant 1, and
    2, whose code differs between the engines. *)
Definition demo_symbols (base : Z) : list Z :=
  map (Z.add base) [0; 10; 20] ++ [0] ++ map (Z.add base) [3; 13; 20] ++ map (Z.add base) [8; 18; 30] ++
  map (Z.add base) [9; 19; 31; 40] ++ map (Z.add base) [50; 52].
Definition demo_code : memory := fun a => if a =? 2025 then 0 else (a mod 1000) mod 256.
Definition demo_variants (p : Z) : cost :=
  mkSuperCost 0 0 0 (mkCost 0 0 1) 0 (if p =? 1 then 1 else 0) 0 false.
Definition demo_names (i : nat) : list Z := if (i <? 2)%nat then [100] else [200].

Lemma demo_names_ok : names_ok (demo_symbols 1000) demo_variants demo_names.
Proof.
  constructor.
  - intros i Hi. change (i < 3)%nat in Hi. do 3 (destruct i as [|i]; [vm_compute; try discriminate; done|]). lia.
  - intros i d Hi Hd H0 H. change (i < 3)%nat in Hi. exfalso. unfold ip_offset_of, demo_variants in H. cbn in H.
    destruct (Z.of_nat (i - d) =? 1); lia.
Qed.

Lemma demo_labels_close : labels_close (demo_symbols 1000).
Proof.
  assert (H : forall x, x ∈ ends1j (demo_symbols 1000) -> 1000 <= x <= 1040).
  { intros x Hx. change (ends1j (demo_symbols 1000)) with [1009; 1019; 1031; 1040] in Hx.
    repeat (apply elem_of_cons in Hx as [->|Hx]; [lia|]). by apply not_elem_of_nil in Hx. }
  intros x y Hx%H Hy%H. lia.
Qed.

Lemma check_prims_sound_witness :
  exists infos,
    check_prims (demo_symbols 1000) (demo_symbols 2000) demo_code demo_variants demo_names (fun _ => false)
      false 7 (fun _ _ => false) false = Some (Some infos) /\
    map pi_start infos = [1000; 1010; 0] /\ map pi_max_ip_offset infos = [1; 0; 0] /\
    demo_code 1012 = demo_code 2012.
Proof.
  destruct (check_prims_sound (demo_symbols 1000) (demo_symbols 2000) demo_code demo_variants demo_names
    (fun _ => false) false 7 (fun _ _ => false) false demo_names_ok demo_labels_close) as (r & E & H).
  assert (E' := E). vm_compute in E'. injection E' as <-. destruct H as (_ & _ & IO).
  eexists. split; [exact E|]. split; [reflexivity|]. split; [reflexivity|].
  refine (ro_same _ _ _ _ _ _ _ _ (io_reloc _ _ _ _ _ _ _ _ _ _ IO 1%nat _ _) 2 _);
    [vm_compute; lia | vm_compute; discriminate | vm_compute; split; [discriminate|reflexivity]].
Defined.
