(* ===== verification/CodeGen.v ===== *)
(** * Dynamic code generation (engine/main.c)

    Machine code of primitives is copied into code blocks; instruction-pointer
    updates are compiled separately from the primitives and only when needed;
    dispatch code is appended only where straight-line code ends.  The code
    memory is modelled byte by byte, threaded-code addresses in cells.  The
    configuration is amd64 (16-byte alignment, at most 4 padding bytes) without
    the metrics of [--print-metrics].  [None] is a failed assertion. *)
From S2P Require Import Prelude Memory Tpa Prims CheckPrims.

Definition CODE_ALIGNMENT : Z := 16.
Definition MAX_PADDING : Z := 4.

Record gstate := mkG {
  code_area : Z;
  code_here : Z;
  start_flush : Z;              (** 0: nothing to flush yet *)
  last_jump : Z;
  ip_at : Z;
  inst_index : Z;
  code_block_list : list (Z * Z);  (** address and size *)
  next_code_block : nat;        (** position of [*next_code_blockp] in the list *)
  allocated : nat;              (** number of [gforth_alloc] calls so far *)
  uses : Z -> Z;
  flushed : list (Z * Z);       (** address and length of the cache flushes, latest first *)
  code_memory : memory
}.

Definition set_here (a : Z) (m : memory) (st : gstate) : gstate :=
  mkG (code_area st) a (start_flush st) (last_jump st) (ip_at st) (inst_index st)
    (code_block_list st) (next_code_block st) (allocated st) (uses st) (flushed st) m.
Definition set_ip_at (a : Z) (st : gstate) : gstate :=
  mkG (code_area st) (code_here st) (start_flush st) (last_jump st) a (inst_index st)
    (code_block_list st) (next_code_block st) (allocated st) (uses st) (flushed st) (code_memory st).
Definition set_last_jump (p : Z) (st : gstate) : gstate :=
  mkG (code_area st) (code_here st) (start_flush st) p (ip_at st) (inst_index st)
    (code_block_list st) (next_code_block st) (allocated st) (uses st) (flushed st) (code_memory st).
Definition set_inst_index (i : Z) (st : gstate) : gstate :=
  mkG (code_area st) (code_here st) (start_flush st) (last_jump st) (ip_at st) i
    (code_block_list st) (next_code_block st) (allocated st) (uses st) (flushed st) (code_memory st).
Definition count_use (p : Z) (st : gstate) : gstate :=
  mkG (code_area st) (code_here st) (start_flush st) (last_jump st) (ip_at st) (inst_index st)
    (code_block_list st) (next_code_block st) (allocated st)
    (fun q => if q =? p then uses st q + 1 else uses st q) (flushed st) (code_memory st).

(** [memmove]: the source is read before the destination is written. *)
Definition memmove_to (m : memory) (dst src len : Z) : memory :=
  fun x => if (dst <=? x) && (x <? dst + len) then m (src + (x - dst)) else m x.

Definition append_code (code length : Z) (st : gstate) : gstate :=
  set_here (code_here st + length) (memmove_to (code_memory st) (code_here st) code length) st.

Definition flush_to_here (st : gstate) : gstate :=
  mkG (code_area st) (code_here st) (code_here st) (last_jump st) (ip_at st) (inst_index st)
    (code_block_list st) (next_code_block st) (allocated st) (uses st)
    (if start_flush st =? 0 then flushed st
     else (start_flush st, code_here st - start_flush st) :: flushed st) (code_memory st).

(** Padding to the next aligned address stays below an aligned end. *)
Lemma pad_aligned h : (h + (CODE_ALIGNMENT - h mod CODE_ALIGNMENT)) mod CODE_ALIGNMENT = 0.
Proof. unfold CODE_ALIGNMENT. Z.div_mod_to_equations. lia. Qed.

Lemma pad_in_block base size h :
  base mod CODE_ALIGNMENT = 0 -> size mod CODE_ALIGNMENT = 0 -> base <= h <= base + size ->
  CODE_ALIGNMENT - h mod CODE_ALIGNMENT <= MAX_PADDING ->
  h + (CODE_ALIGNMENT - h mod CODE_ALIGNMENT) <= base + size.
Proof. unfold CODE_ALIGNMENT, MAX_PADDING. intros. Z.div_mod_to_equations. lia. Qed.

(** The state that [gforth_init] leaves behind: no block, and [code_here]
    behind the end of a block at address 0. *)
Definition init_gstate (code_area_size : Z) (m : memory) : gstate :=
  mkG 0 code_area_size 0 0 0 0 [] 0 0 (fun _ => 0) [] m.

Section CodeGen.
Context (priminfos : Z -> PrimInfo) (super_costs : Z -> cost) (super2 : list Z).
Context (branches_to_ip : Z -> Z) (ip_update0 min_ip_update max_ip_update : Z).
Context (opt_ip_updates opt_ip_updates_branch : Z) (no_dynamic : bool) (npriminfos : Z).
Context (goto_start goto_len nops : Z) (N_branch : Z) (ip_dead : list Z).
Context (code_area_size : Z).
(** The [k]-th [gforth_alloc] of a code block; 0 if it fails. *)
Context (gforth_alloc : nat -> Z).
(** [ginstps], the cells of the instructions of the basic block (numbered
    in cells), and the contents of threaded-code cells that hold a branch
    target. *)
Context (ginstps : Z -> Z) (target_at : Z -> Z) (vm_prims : Z -> Z).

Definition align_code (st : gstate) : gstate :=
  let offset := Z.land (code_here st) (CODE_ALIGNMENT - 1) in
  let length := CODE_ALIGNMENT - offset in
  if length <=? MAX_PADDING then append_code (nops + offset) length st else st.

(** The do-while loop of [append_ip_update1]. *)
Fixpoint ip_update_loop (fuel : nat) (cellsdiff l u : Z) (st : gstate) : option (gstate * Z) :=
  match fuel with
  | O => None
  | S fuel =>
      let cellsdiff1 := if cellsdiff >? max_ip_update then max_ip_update
                        else if cellsdiff <? min_ip_update then min_ip_update else cellsdiff in
      let pi := priminfos (ip_update0 + cellsdiff1) in
      let st := append_code (pi_start pi) (pi_len1 pi) st in
      let st := set_ip_at (ip_at st + cellsdiff1) st in
      let cellsdiff := cellsdiff - cellsdiff1 in
      if (cellsdiff <? l) || (cellsdiff >? u) then ip_update_loop fuel cellsdiff l u st
      else Some (st, cellsdiff)
  end.

Definition append_ip_update1 (target l u : Z) (st : gstate) : option (gstate * Z) :=
  let cellsdiff := target - ip_at st in
  if negb ((opt_ip_updates >? 0) || (cellsdiff =? 0)) then None
  else if (cellsdiff <? l) || (cellsdiff >? u) then
    ip_update_loop (Z.to_nat (Z.abs cellsdiff) + 1) cellsdiff l u st
  else Some (st, cellsdiff).

Definition append_ip_update (n : Z) (st : gstate) : option (gstate * Z) :=
  if opt_ip_updates =? 0 then Some (st, 0)
  else append_ip_update1 (ginstps (inst_index st + 1)) 0 n st.

Definition append_jump (st : gstate) : option gstate :=
  if last_jump st =? 0 then Some st
  else
    let pi := priminfos (last_jump st) in
    if negb ((ip_at st >? ginstps (inst_index st)) || negb (pi_superend pi)) then None
    else
      r ← append_ip_update 0 st;
      let st := append_code (pi_start pi + pi_length pi) (pi_restlength pi) (fst r) in
      let st := align_code (append_code goto_start goto_len st) in
      Some (set_last_jump 0 st).

Definition append_jump_previous (st : gstate) : option gstate :=
  st ← append_jump (set_inst_index (inst_index st - 1) st);
  Some (set_inst_index (inst_index st + 1) st).

(** The switch to the next code block, from the list or newly allocated;
    [true]: the allocation failed. *)
Definition next_block (st : gstate) : gstate * bool :=
  match code_block_list st !! next_code_block st with
  | Some (block, _) =>
      (mkG block block block (last_jump st) (ip_at st) (inst_index st) (code_block_list st)
         (S (next_code_block st)) (allocated st) (uses st) (flushed st) (code_memory st), false)
  | None =>
      let block := gforth_alloc (allocated st) in
      let ok := negb (block =? 0) in
      (mkG block block block (last_jump st) (ip_at st) (inst_index st)
         (if ok then code_block_list st ++ [(block, code_area_size)] else code_block_list st)
         (if ok then S (next_code_block st) else next_code_block st)
         (S (allocated st)) (uses st) (flushed st) (code_memory st), negb ok)
  end.

Definition reserve_code_space (size : Z) (st : gstate) : option (gstate * bool) :=
  let size := if S64 size <? 0 then 100 else size in
  if code_area st + code_area_size <? code_here st + size then
    st ← append_jump_previous st; Some (next_block (flush_to_here st))
  else Some (st, false).

(** A branch target that ip updates can reach. *)
Definition reachable_target (st : gstate) (target k : Z) : bool :=
  (ip_at st + opt_ip_updates_branch * min_ip_update <=? target) &&
  (target <=? ip_at st + k * max_ip_update).

(** The part of [append_prim] behind the handling of branches: [p] is compiled,
    perhaps as a variant that tolerates an ip that lags behind. *)
Definition append_with_ip (p : Z) (has_imm superend : bool) (st : gstate) : option (gstate * Z) :=
  let pi := priminfos p in
  let ci := super_costs p in
  let dead := (opt_ip_updates >? 1) && superend && negb has_imm && bool_decide (p ∈ ip_dead) in
  r ← (if has_imm || (superend && negb dead) then
         let st := set_inst_index (inst_index st + (Z.of_nat (c_length (c_info ci)) - 1)) st in
         r ← append_ip_update (pi_max_ip_offset pi) st;
         Some (fst r, p + snd r, superend)
       else Some (st, p, dead));
  let '(st, p, dead) := r in
  let pi := priminfos p in
  let st := if (dead : bool) then set_ip_at (ginstps (inst_index st + 1)) st else st in
  let st := count_use p (append_code (pi_start pi + pi_len1 pi) (pi_length pi - pi_len1 pi) st) in
  if negb (negb superend || (ip_at st =? ginstps (inst_index st + 1))) then None else Some (st, p).

(** [append_prim] with ip-update optimisation, behind the reservation; the
    result names the primitive variant compiled. *)
Definition append_optimized (p : Z) (st : gstate) : option (gstate * Z) :=
  let pi := priminfos p in
  let ci := super_costs p in
  let len := Z.of_nat (c_length (c_info ci)) in
  let has_imm := imm_ops ci + 1 >? len in
  let superend := pi_superend pi in
  let target := target_at (ginstps (inst_index st) + 1) in
  if (opt_ip_updates_branch >? 0) && (len =? 1) && (nth (offset ci) super2 0 =? N_branch) &&
     reachable_target st target opt_ip_updates_branch
  then
    r ← append_ip_update1 target 0 0 st;
    let st := fst r in
    Some (set_ip_at (ginstps (inst_index st + 1)) st, p)
  else
    let target := target_at (ginstps (inst_index st + len - 1) + 1) in
    if (opt_ip_updates_branch >? 0) && negb (branches_to_ip p =? 0) &&
       reachable_target st target (Z.quot opt_ip_updates_branch 2)
    then
      r ← append_ip_update1 target 0 0 st;
      let p := branches_to_ip p in
      if negb (Bool.eqb superend (pi_superend (priminfos p))) then None
      else append_with_ip p false superend (fst r)
    else append_with_ip p has_imm superend st.

Definition append_prim (p : Z) (st : gstate) : option (gstate * Z) :=
  let pi := priminfos p in
  r ← reserve_code_space (pi_length pi + pi_restlength pi + goto_len + CODE_ALIGNMENT - 1) st;
  let '(st, failed) := r in
  if (failed : bool) then Some (st, 0)
  else
    let old_code_here := code_here st in
    r ← (if opt_ip_updates >? 0 then append_optimized p st
         else
           let st := append_code (pi_start pi) (pi_length pi) st in
           Some (set_ip_at (ginstps (inst_index st + Z.of_nat (c_length (c_info (super_costs p))))) st, p));
    let '(st, p) := r in
    Some (set_last_jump (if pi_restlength (priminfos p) =? 0 then 0 else p) st, old_code_here).

(** The loop of [reserve_code_super] over the basic block; [prev] is
    [origs[i-1]]. *)
Fixpoint super_size (prev : option Z) (origs : list Z) : Z :=
  match origs with
  | [] => match prev with Some q => pi_restlength (priminfos q) + goto_len | None => 0 end
  | p :: origs =>
      (if is_relocatable priminfos no_dynamic p then pi_length (priminfos p)
       else match prev with
            | Some q => pi_restlength (priminfos q) + goto_len + CODE_ALIGNMENT - 1
            | None => 0
            end) + super_size (Some p) origs
  end.

Definition reserve_code_super (origs : list Z) (st : gstate) : option gstate :=
  if no_dynamic then Some st
  else fst <$> reserve_code_space (CODE_ALIGNMENT - 1 + super_size None origs) st.

(** Compiling one primitive; the result goes into the threaded code. *)
Definition compile_prim_dyn (p : Z) (st : gstate) : option (gstate * Z) :=
  let static_prim := vm_prims p in
  if no_dynamic then Some (st, static_prim)
  else if (p >=? npriminfos) || negb (is_relocatable priminfos no_dynamic p) then
    st ← append_jump_previous st;
    let st := set_ip_at (ginstps (inst_index st + 1)) st in
    Some ((if is_relocatable priminfos no_dynamic p then st else count_use p st), static_prim)
  else
    r ← append_prim p st;
    let st := set_last_jump p (fst r) in
    st ← (if pi_superend (priminfos p) then append_jump st else Some st);
    Some (st, snd r).

(** [forget_dyncode3] for the code at [code]; the flag it returns. *)
Fixpoint find_block (code : Z) (i : nat) (blocks : list (Z * Z)) : option (nat * Z) :=
  match blocks with
  | [] => None
  | (block, size) :: blocks =>
      if (block <=? code) && (code <? block + size) then Some (i, block) else find_block code (S i) blocks
  end.

Definition forget_code (code : Z) (st : gstate) : gstate * Z :=
  match find_block code 0 (code_block_list st) with
  | Some (i, block) =>
      (mkG block code code 0 (ip_at st) (inst_index st) (code_block_list st) (S i) (allocated st)
         (uses st) (flushed st) (code_memory st), -1)
  | None => (st, FLAG no_dynamic)
  end.

(** [dyncodesize]: the loop over the blocks. *)
Fixpoint dyncodesize_from (here size : Z) (blocks : list (Z * Z)) : Z :=
  match blocks with
  | [] => 0
  | (block, bsize) :: blocks =>
      if (block <=? here) && (here <? block + bsize) then size + (here - block)
      else dyncodesize_from here (size + bsize) blocks
  end.
Definition dyncodesize (st : gstate) : Z := dyncodesize_from (code_here st) 0 (code_block_list st).

(** [finish_code_barrier], behind the compilation of the pending block. *)
Definition code_barrier (st : gstate) : option gstate :=
  st ← append_jump st; Some (flush_to_here st).

(** ** Lemmas: instruction-pointer updates *)

(** The loop reaches the range: it moves [ip_at] to within [l,u] cells before
    the target and reports the rest. *)
Lemma ip_update_loop_ok fuel diff l u st :
  0 < max_ip_update -> min_ip_update < 0 -> l <= 0 <= u -> diff <> 0 ->
  (Z.to_nat (Z.abs diff) < fuel)%nat ->
  exists st' d, ip_update_loop fuel diff l u st = Some (st', d) /\ l <= d <= u /\
    ip_at st' = ip_at st + (diff - d) /\ inst_index st' = inst_index st /\
    Z.abs d <= Z.abs diff /\ 0 <= d * diff.
Proof using.
  intros Hmax Hmin Hlu. revert diff st. induction fuel as [|fuel IH]; intros diff st Hd Hf; [lia|].
  cbn [ip_update_loop].
  set (d1 := if diff >? max_ip_update then max_ip_update
             else if diff <? min_ip_update then min_ip_update else diff).
  assert (D : (d1 = diff \/ (0 < d1 < diff \/ diff < d1 < 0))).
  { unfold d1. destruct (Z.gtb_spec diff max_ip_update); [lia|]. destruct (Z.ltb_spec diff min_ip_update); lia. }
  set (st1 := set_ip_at _ _).
  assert (I1 : ip_at st1 = ip_at st + d1 /\ inst_index st1 = inst_index st) by done.
  destruct ((diff - d1 <? l) || (diff - d1 >? u)) eqn:C.
  - assert (Hne : diff - d1 <> 0) by (intros E; rewrite E in C; zbool; destruct C as [C|C]; zbool;
      rewrite ?Z.gtb_lt in C; lia).
    destruct (IH (diff - d1) st1 Hne ltac:(lia)) as (st' & d & E & Hr & Hi & Hx & Ha & Hs).
    exists st', d. split; [done|]. split; [done|]. destruct I1 as [I1 I2]. split; [lia|]. split; [by rewrite Hx|]. split; [lia|]. nia.
  - apply orb_false_iff in C as [C1 C2]. apply Z.ltb_ge in C1. rewrite Z.gtb_ltb in C2. apply Z.ltb_ge in C2.
    exists st1, (diff - d1). split; [done|]. split; [lia|]. split; [lia|]. split; [done|]. split; [lia|]. nia.
Qed.

Lemma append_ip_update1_ok target l u st :
  0 < opt_ip_updates -> 0 < max_ip_update -> min_ip_update < 0 -> l <= 0 <= u ->
  exists st' d, append_ip_update1 target l u st = Some (st', d) /\ l <= d <= u /\
    ip_at st' + d = target /\ inst_index st' = inst_index st.
Proof using.
  intros Ho Hmax Hmin Hlu. unfold append_ip_update1. rewrite (proj2 (Z.gtb_lt _ _) Ho). cbn [orb negb].
  destruct ((target - ip_at st <? l) || (target - ip_at st >? u)) eqn:C.
  - assert (Hne : target - ip_at st <> 0).
    { intros E. rewrite E in C. apply orb_true_iff in C as [C|C]; [apply Z.ltb_lt in C|apply Z.gtb_lt in C]; lia. }
    destruct (ip_update_loop_ok (Z.to_nat (Z.abs (target - ip_at st)) + 1) _ l u st Hmax Hmin Hlu Hne ltac:(lia))
      as (st' & d & E & Hr & Hi & Hx & _). exists st', d. split; [done|]. split; [done|]. split; [lia|done].
  - apply orb_false_iff in C as [C1 C2]. apply Z.ltb_ge in C1. rewrite Z.gtb_ltb in C2. apply Z.ltb_ge in C2.
    exists st, (target - ip_at st). split; [done|]. split; [lia|]. split; [lia|done].
Qed.

(** ** Code blocks *)

(** What the environment guarantees without ip-update optimisation: allocation
    gives fresh aligned blocks, and no primitive needs more than a block. *)
Record gen_env : Prop := {
  ge_opt : opt_ip_updates = 0;
  ge_size : 0 < code_area_size < BH /\ code_area_size mod CODE_ALIGNMENT = 0;
  ge_alloc : forall k, 0 < gforth_alloc k /\ gforth_alloc k mod CODE_ALIGNMENT = 0;
  ge_disjoint : forall j k, j <> k ->
    gforth_alloc j + code_area_size <= gforth_alloc k \/ gforth_alloc k + code_area_size <= gforth_alloc j;
  ge_goto : 0 <= goto_len;
  ge_len : forall p, 0 <= pi_length (priminfos p) /\ 0 <= pi_restlength (priminfos p);
  ge_fit : forall p, pi_length (priminfos p) + pi_restlength (priminfos p) + goto_len + CODE_ALIGNMENT - 1
             <= code_area_size;
  ge_cells : forall i j, 0 <= i -> i < j -> ginstps i < ginstps j;
  ge_components : forall p, pi_superend (priminfos p) = true -> (1 <= c_length (c_info (super_costs p)))%nat
}.

Definition in_block (k : nat) (x : Z) : Prop := gforth_alloc k <= x < gforth_alloc k + code_area_size.

(** Code that is in use: the blocks before the current one, and the current one
    up to [code_here]. *)
Definition live (st : gstate) (x : Z) : Prop :=
  (exists k, (S k < next_code_block st)%nat /\ in_block k x) \/
  ((0 < next_code_block st)%nat /\ code_area st <= x < code_here st).

(** The code blocks of a state; initially there is none, and [code_here] is
    behind a block that does not exist. *)
Record blocks_ok (st : gstate) : Prop := {
  bo_list : code_block_list st = map (fun k => (gforth_alloc k, code_area_size)) (seq 0 (allocated st));
  bo_next : (next_code_block st <= allocated st)%nat;
  bo_current : match next_code_block st with
               | O => code_area st = 0 /\ code_here st = code_area_size /\ last_jump st = 0
               | S k => code_area st = gforth_alloc k /\
                        code_area st <= code_here st <= code_area st + code_area_size
               end
}.

(** Space for the dispatch code that is still to be appended. *)
Definition room (st : gstate) (p : Z) : Prop :=
  let e := code_area st + code_area_size in
  let need := pi_restlength (priminfos p) + goto_len in
  code_here st + need + CODE_ALIGNMENT - 1 <= e \/
  (code_here st mod CODE_ALIGNMENT = 0 /\ code_here st + need <= e).

Record gen_ok (st : gstate) : Prop := {
  go_blocks : blocks_ok st;
  go_jump : last_jump st <> 0 -> pi_superend (priminfos (last_jump st)) = false /\ room st (last_jump st)
}.

(** What a step that does not forget code preserves. *)
Definition frame (st st' : gstate) : Prop :=
  (forall x, live st x -> live st' x /\ code_memory st' x = code_memory st x) /\
  (forall x, (forall k, ~ in_block k x) -> code_memory st' x = code_memory st x).

Lemma frame_refl st : frame st st.
Proof using. by split. Qed.

Lemma frame_trans st1 st2 st3 : frame st1 st2 -> frame st2 st3 -> frame st1 st3.
Proof using.
  intros [L1 O1] [L2 O2]. split.
  - intros x H. destruct (L1 x H) as [H2 E2]. destruct (L2 x H2) as [H3 E3]. split; [done|congruence].
  - intros x H. rewrite O2, O1; done.
Qed.

(** Appending code within the current block. *)
Lemma append_code_ok code len st :
  gen_env -> blocks_ok st -> (0 < next_code_block st)%nat -> 0 <= len ->
  code_here st + len <= code_area st + code_area_size ->
  let st' := append_code code len st in
  blocks_ok st' /\ frame st st' /\
  forall j, 0 <= j < len -> code_memory st' (code_here st + j) = code_memory st (code + j).
Proof using.
  intros EN [BL BN BC] Hn Hl He st'. subst st'. unfold append_code, set_here.
  destruct (next_code_block st) as [|k] eqn:En; [lia|]. destruct BC as [Ea Eh].
  split; [|split; [split|]].
  - constructor; cbn [code_block_list allocated next_code_block code_area code_here];
      [exact BL|exact BN|]. split; [done|lia].
  - intros x Hx. unfold live in Hx. rewrite En in Hx. split.
    + destruct Hx as [?|[? ?]]; [by left|right]. cbn [next_code_block code_area code_here]. split; [done|lia].
    + cbn [code_memory]. unfold memmove_to.
      destruct (Z.leb_spec (code_here st) x); [|done]. destruct (Z.ltb_spec x (code_here st + len)); [|done].
      cbn [andb]. exfalso. destruct Hx as [(j & Hj & Hx)|[_ Hx]]; [|lia]. unfold in_block in Hx.
      destruct (ge_disjoint EN j k ltac:(lia)); lia.
  - intros x Hx. cbn [code_memory]. unfold memmove_to. specialize (Hx k). unfold in_block in Hx.
    destruct (Z.leb_spec (code_here st) x); [|done]. destruct (Z.ltb_spec x (code_here st + len)); [|done].
    exfalso. apply Hx. lia.
  - intros j Hj. cbn [code_memory]. unfold memmove_to.
    rewrite (proj2 (Z.leb_le _ _)), (proj2 (Z.ltb_lt _ _)) by lia. cbn [andb]. f_equal. lia.
Qed.

Lemma land_align x : Z.land x (CODE_ALIGNMENT - 1) = x mod CODE_ALIGNMENT.
Proof using. change (CODE_ALIGNMENT - 1) with (Z.ones 4). by rewrite Z.land_ones. Qed.

(** Padding stays within the block, because blocks end at an aligned address. *)
Lemma align_code_ok st :
  gen_env -> blocks_ok st -> (0 < next_code_block st)%nat ->
  let st' := align_code st in
  blocks_ok st' /\ frame st st' /\
  (st' = st \/ (code_here st' mod CODE_ALIGNMENT = 0 /\ code_here st <= code_here st' <= code_here st + MAX_PADDING /\
    code_area st' = code_area st /\ next_code_block st' = next_code_block st /\ last_jump st' = last_jump st)).
Proof using.
  intros EN BO Hn st'. unfold st', align_code. rewrite land_align.
  pose proof (Z.mod_pos_bound (code_here st) CODE_ALIGNMENT ltac:(done)) as Hm.
  destruct (Z.leb_spec (CODE_ALIGNMENT - code_here st mod CODE_ALIGNMENT) MAX_PADDING) as [Hp|Hp].
  2: { split; [done|]. split; [apply frame_refl|by left]. }
  set (pad := CODE_ALIGNMENT - code_here st mod CODE_ALIGNMENT) in *.
  assert (Ha : (code_here st + pad) mod CODE_ALIGNMENT = 0) by apply pad_aligned.
  destruct (append_code_ok (nops + code_here st mod CODE_ALIGNMENT) pad st EN BO Hn) as (B1 & F1 & _).
  - unfold pad. lia.
  - pose proof (bo_current _ BO) as BC. destruct (next_code_block st) as [|k]; [lia|]. destruct BC as [Ea Eh].
    pose proof (ge_alloc EN k) as [_ Ak]. pose proof (ge_size EN) as [_ As]. apply pad_in_block; try done.
    by rewrite Ea.
  - split; [exact B1|]. split; [exact F1|]. right. cbn [append_code set_here code_here code_area next_code_block last_jump].
    split; [exact Ha|]. split; [unfold pad in *; lia|done].
Qed.

(** States with the same code, blocks and position. *)
Lemma blocks_ok_same st st' :
  code_block_list st' = code_block_list st -> next_code_block st' = next_code_block st ->
  allocated st' = allocated st -> code_area st' = code_area st -> code_here st' = code_here st ->
  (next_code_block st = 0%nat -> last_jump st' = last_jump st) -> blocks_ok st -> blocks_ok st'.
Proof using.
  intros El En Eal Ea Eh Ej [BL BN BC]. constructor; [congruence|congruence|].
  rewrite En, Ea, Eh. destruct (next_code_block st); [|done]. by rewrite Ej.
Qed.

Lemma frame_same st st' :
  next_code_block st' = next_code_block st -> code_area st' = code_area st ->
  code_here st' = code_here st -> code_memory st' = code_memory st -> frame st st'.
Proof using.
  intros En Ea Eh Em. split; intros x Hx; rewrite Em; [|done]. split; [|done].
  unfold live in *. by rewrite En, Ea, Eh.
Qed.

Lemma current_block st :
  blocks_ok st -> (0 < next_code_block st)%nat ->
  exists k, next_code_block st = S k /\ code_area st = gforth_alloc k /\
    code_area st <= code_here st <= code_area st + code_area_size.
Proof using.
  intros [_ _ BC] Hn. destruct (next_code_block st) as [|k]; [lia|]. by exists k.
Qed.

Lemma append_jump_ok st :
  gen_env -> blocks_ok st ->
  (last_jump st <> 0 -> room st (last_jump st) /\
     (ip_at st > ginstps (inst_index st) \/ pi_superend (priminfos (last_jump st)) = false)) ->
  exists st', append_jump st = Some st' /\ blocks_ok st' /\ frame st st' /\ last_jump st' = 0 /\
    inst_index st' = inst_index st /\ ip_at st' = ip_at st.
Proof using.
  intros EN BO Hj. unfold append_jump. destruct (Z.eqb_spec (last_jump st) 0) as [E|Hne].
  { exists st. split; [done|]. split; [done|]. split; [apply frame_refl|done]. }
  destruct (Hj Hne) as [R A]. clear Hj. set (p := last_jump st) in *.
  assert (Hn : (0 < next_code_block st)%nat).
  { pose proof (bo_current _ BO) as BC. destruct (next_code_block st); [|lia]. destruct BC as (_ & _ & ?). done. }
  replace (negb ((ip_at st >? ginstps (inst_index st)) || negb (pi_superend (priminfos p)))) with false.
  2: { symmetry. apply negb_false_iff, orb_true_iff. destruct A as [A| ->]; [left|by right]. apply Z.gtb_lt. lia. }
  unfold append_ip_update. rewrite (ge_opt EN), Z.eqb_refl. cbn [mbind option_bind fst].
  destruct (ge_len EN p) as [Hl Hr]. pose proof (ge_goto EN) as Hg.
  assert (Hfit : code_here st + pi_restlength (priminfos p) + goto_len <= code_area st + code_area_size).
  { unfold room, CODE_ALIGNMENT in R. lia. }
  destruct (append_code_ok (pi_start (priminfos p) + pi_length (priminfos p)) _ st EN BO Hn Hr) as (B1 & F1 & _); [lia|].
  set (st1 := append_code _ _ st) in *.
  destruct (append_code_ok goto_start goto_len st1 EN B1 Hn Hg) as (B2 & F2 & _).
  { change (code_here st1) with (code_here st + pi_restlength (priminfos p)). change (code_area st1) with (code_area st). lia. }
  set (st2 := append_code _ _ st1) in *. destruct (align_code_ok st2 EN B2 Hn) as (B3 & F3 & P3).
  set (st3 := align_code st2) in *. eexists. split; [done|].
  assert (S3 : inst_index st3 = inst_index st /\ ip_at st3 = ip_at st /\ next_code_block st3 = next_code_block st).
  { unfold st3, align_code. by destruct (_ <=? _). }
  destruct S3 as (I3 & A3 & N3). split; [|split; [|done]].
  - apply (blocks_ok_same st3); try done. rewrite N3. lia.
  - eapply frame_trans; [exact F1|]. eapply frame_trans; [exact F2|]. eapply frame_trans; [exact F3|].
    by apply frame_same.
Qed.

Lemma next_block_ok st :
  gen_env -> blocks_ok st ->
  let '(st', failed) := next_block st in
  failed = false /\ blocks_ok st' /\ frame st st' /\ (0 < next_code_block st')%nat /\
  code_here st' = code_area st' /\ last_jump st' = last_jump st /\ inst_index st' = inst_index st /\
  ip_at st' = ip_at st.
Proof using.
  intros EN BO. pose proof (bo_list _ BO) as BL. pose proof (bo_next _ BO) as BN. unfold next_block.
  assert (Fr : forall st', next_code_block st' = S (next_code_block st) -> code_memory st' = code_memory st -> frame st st').
  { intros st' En Em. split; intros x Hx; rewrite Em; [|done]. split; [|done]. left. rewrite En.
    destruct Hx as [(k & Hk & Hx)|[Hn Hx]]; [exists k; split; [lia|done]|].
    destruct (current_block st BO Hn) as (k & Ek & Ea & Eh). exists k. rewrite Ek. split; [lia|].
    unfold in_block. lia. }
  rewrite BL, list_lookup_fmap. pose proof (ge_size EN) as [Hs _].
  destruct (Nat.lt_ge_cases (next_code_block st) (allocated st)) as [Hlt|Hge].
  - rewrite lookup_seq_lt by done. cbn [fmap option_fmap option_map]. rewrite Nat.add_0_l.
    split; [done|]. split; [|split; [by apply Fr|cbn [next_code_block]; split; [lia|done]]].
    constructor; cbn [code_block_list allocated next_code_block code_area code_here last_jump]; [done|lia|].
    split; [done|]. lia.
  - rewrite lookup_seq_ge by done. cbn [fmap option_fmap option_map].
    assert (En : next_code_block st = allocated st) by lia.
    destruct (ge_alloc EN (allocated st)) as [Ha _].
    rewrite (proj2 (Z.eqb_neq _ 0)) by lia. cbn [negb].
    split; [done|]. split; [|split; [by apply Fr|cbn [next_code_block]; split; [lia|done]]].
    constructor; cbn [code_block_list allocated next_code_block code_area code_here last_jump].
    + by rewrite seq_S, fmap_app.
    + lia.
    + rewrite En. split; [done|]. lia.
Qed.

Lemma append_jump_previous_ok st :
  gen_env -> gen_ok st ->
  exists st', append_jump_previous st = Some st' /\ gen_ok st' /\ frame st st'.
Proof using.
  intros EN [BO GJ]. unfold append_jump_previous. set (st0 := set_inst_index _ st).
  assert (B0 : blocks_ok st0) by (by apply (blocks_ok_same st)).
  destruct (append_jump_ok st0 EN B0) as (st1 & E1 & B1 & F1 & J1 & _).
  { intros Hne. destruct (GJ Hne) as [G1 G2]. split; [exact G2|by right]. }
  rewrite E1. cbn [mbind option_bind]. eexists. split; [done|]. split.
  - constructor; [by apply (blocks_ok_same st1)|]. cbn [set_inst_index last_jump]. by rewrite J1.
  - apply (frame_trans _ st0); [by apply frame_same|]. eapply frame_trans; [exact F1|by apply frame_same].
Qed.

Lemma reserve_ok size st :
  gen_env -> gen_ok st -> 0 < size <= code_area_size ->
  exists st', reserve_code_space size st = Some (st', false) /\ blocks_ok st' /\ frame st st' /\
    (0 < next_code_block st')%nat /\ code_here st' + size <= code_area st' + code_area_size /\
    inst_index st' = inst_index st /\ ip_at st' = ip_at st.
Proof using.
  intros EN [BO GJ] Hs. unfold reserve_code_space. pose proof (ge_size EN) as [Hb _].
  assert (E64 : S64 size = size) by (unfold S64; rewrite Z.mod_small; unfold BH, B in *; lia).
  rewrite E64, (proj2 (Z.ltb_ge size 0)) by lia.
  destruct (Z.ltb_spec (code_area st + code_area_size) (code_here st + size)) as [Hlt|Hge].
  - set (st0 := set_inst_index (inst_index st - 1) st).
    assert (B0 : blocks_ok st0) by (by apply (blocks_ok_same st)).
    destruct (append_jump_ok st0 EN B0) as (st1 & E1 & B1 & F1 & J1 & I1 & A1).
    { intros Hne. destruct (GJ Hne) as [G1 G2]. split; [exact G2|by right]. }
    unfold append_jump_previous. fold st0. rewrite E1. cbn [mbind option_bind].
    set (st2 := set_inst_index (inst_index st1 + 1) st1).
    assert (B2 : blocks_ok (flush_to_here st2)) by (by apply (blocks_ok_same st1)).
    pose proof (next_block_ok (flush_to_here st2) EN B2) as NB.
    destruct (next_block (flush_to_here st2)) as [st3 failed].
    destruct NB as (-> & B3 & F3 & N3 & H3 & J3 & I3 & A3). exists st3. split; [done|]. split; [done|].
    split; [|split; [done|split; [lia|split]]].
    + eapply frame_trans; [|exact F3]. apply (frame_trans _ st0); [by apply frame_same|].
      apply (frame_trans _ st1); [exact F1|by apply frame_same].
    + rewrite I3. cbn [flush_to_here inst_index st2 set_inst_index]. rewrite I1. cbn [st0 set_inst_index inst_index]. lia.
    + rewrite A3. exact A1.
  - exists st. split; [done|]. split; [done|]. split; [apply frame_refl|]. split; [|done].
    pose proof (bo_current _ BO) as BC. destruct (next_code_block st); [lia|]. lia.
Qed.

(** The code of a primitive lies outside the code blocks. *)
Definition text_outside (p : Z) : Prop :=
  forall j, 0 <= j < pi_length (priminfos p) -> forall k, ~ in_block k (pi_start (priminfos p) + j).

(** The address [a] holds the code of [p]. *)
Definition holds_code (st : gstate) (a p : Z) : Prop :=
  (forall j, 0 <= j < pi_length (priminfos p) -> live st (a + j)) /\
  forall j, 0 <= j < pi_length (priminfos p) ->
    code_memory st (a + j) = code_memory st (pi_start (priminfos p) + j).

Lemma holds_code_frame st st' a p :
  text_outside p -> frame st st' -> holds_code st a p -> holds_code st' a p.
Proof using.
  intros T [FL FO] [HL HC]. split; intros j Hj.
  - by apply FL, HL.
  - destruct (FL _ (HL j Hj)) as [_ ->]. rewrite FO by (by apply T). by apply HC.
Qed.

Lemma append_prim_ok p st :
  gen_env -> gen_ok st -> text_outside p ->
  exists st' a, append_prim p st = Some (st', a) /\ blocks_ok st' /\ frame st st' /\
    (0 < next_code_block st')%nat /\ room st' p /\ inst_index st' = inst_index st /\
    ip_at st' = ginstps (inst_index st + Z.of_nat (c_length (c_info (super_costs p)))) /\
    holds_code st' a p.
Proof using.
  intros EN GO T. unfold append_prim. destruct (ge_len EN p) as [Hl Hr].
  pose proof (ge_goto EN) as Hg. pose proof (ge_fit EN p) as Hf.
  destruct (reserve_ok (pi_length (priminfos p) + pi_restlength (priminfos p) + goto_len + CODE_ALIGNMENT - 1) st EN GO)
    as (st1 & -> & B1 & F1 & N1 & H1 & I1 & A1).
  { unfold CODE_ALIGNMENT in *. lia. }
  cbn [mbind option_bind]. rewrite (ge_opt EN). change (0 >? 0) with false. cbv iota.
  destruct (append_code_ok (pi_start (priminfos p)) _ st1 EN B1 N1 Hl) as (B2 & F2 & C2).
  { unfold CODE_ALIGNMENT in *. lia. }
  set (st2 := append_code _ _ st1) in *. set (st3 := set_ip_at _ st2).
  cbn [mbind option_bind]. set (st4 := set_last_jump _ st3). exists st4, (code_here st1). split; [done|].
  assert (F24 : frame st2 st4) by (by apply frame_same).
  split; [|split; [|split; [exact N1|split; [|split; [exact I1|split]]]]].
  - apply (blocks_ok_same st2); try done. intros H. change (next_code_block st2) with (next_code_block st1) in H. lia.
  - eapply frame_trans; [exact F1|]. eapply frame_trans; [exact F2|exact F24].
  - left. change (code_here st4) with (code_here st1 + pi_length (priminfos p)).
    change (code_area st4) with (code_area st1). lia.
  - cbn [st4 st3 set_last_jump set_ip_at ip_at]. change (inst_index st2) with (inst_index st1). by rewrite I1.
  - destruct (current_block st1 B1 N1) as (k & Ek & Ea & Eh). split; intros j Hj.
    + right. split; [exact N1|]. change (code_here st4) with (code_here st1 + pi_length (priminfos p)).
      change (code_area st4) with (code_area st1). lia.
    + change (code_memory st4) with (code_memory st2). rewrite C2 by lia.
      destruct F2 as [_ F2]. by rewrite F2 by (by apply T).
Qed.

(** The outcome of compiling one primitive: for a relocatable one, the address of
    its code; otherwise the address of the static code. *)
Definition compiled (p : Z) (st' : gstate) (a : Z) : Prop :=
  if negb no_dynamic && (p <? npriminfos) && is_relocatable priminfos no_dynamic p
  then holds_code st' a p else a = vm_prims p.

Lemma compile_prim_dyn_ok p st :
  gen_env -> gen_ok st -> text_outside p -> 0 <= inst_index st ->
  exists st' a, compile_prim_dyn p st = Some (st', a) /\ gen_ok st' /\ frame st st' /\ compiled p st' a.
Proof using.
  intros EN GO T Hx. unfold compile_prim_dyn, compiled.
  destruct no_dynamic; [exists st, (vm_prims p); split; [done|split; [done|split; [apply frame_refl|done]]]|].
  cbn [negb andb]. rewrite Z.geb_leb, (Z.leb_antisym p npriminfos).
  destruct (p <? npriminfos) eqn:Hp; cbn [negb orb andb].
  1: destruct (is_relocatable priminfos false p) eqn:Hr; cbn [negb].
  - destruct (append_prim_ok p st EN GO T) as (st1 & a & E & B1 & F1 & N1 & R1 & I1 & A1 & C1).
    rewrite E. cbn [mbind option_bind fst snd]. set (st2 := set_last_jump p st1).
    assert (B2 : blocks_ok st2) by (apply (blocks_ok_same st1); try done; lia).
    assert (F2 : frame st1 st2) by (by apply frame_same).
    destruct (pi_superend (priminfos p)) eqn:Hs.
    + destruct (append_jump_ok st2 EN B2) as (st3 & E3 & B3 & F3 & J3 & I3 & A3).
      { intros _. split; [exact R1|left]. cbn [st2 set_last_jump ip_at inst_index]. rewrite A1, I1.
        pose proof (ge_components EN p Hs). pose proof (ge_cells EN (inst_index st)
          (inst_index st + Z.of_nat (c_length (c_info (super_costs p)))) Hx ltac:(lia)). lia. }
      rewrite E3. cbn [mbind option_bind]. exists st3, a. split; [done|].
      split; [constructor; [done|by rewrite J3]|].
      assert (F13 : frame st1 st3) by (by eapply frame_trans).
      split; [by eapply frame_trans|]. by apply (holds_code_frame st1).
    + cbn [mbind option_bind]. exists st2, a. split; [done|].
      split; [by constructor|]. split; [by eapply frame_trans|]. by apply (holds_code_frame st1).
  - destruct (append_jump_previous_ok st EN GO) as (st1 & E1 & G1 & F1). rewrite E1. cbn [mbind option_bind].
    eexists _, _. split; [done|]. split; [|split; [|done]].
    + destruct G1 as [B1 J1]. constructor; [by apply (blocks_ok_same st1)|exact J1].
    + eapply frame_trans; [exact F1|by apply frame_same].
  - destruct (append_jump_previous_ok st EN GO) as (st1 & E1 & G1 & F1). rewrite E1. cbn [mbind option_bind].
    eexists _, _. split; [done|]. split; [|split; [|done]].
    + destruct G1 as [B1 J1]. constructor; [|by destruct (is_relocatable _ _ _)].
      by destruct (is_relocatable _ _ _); apply (blocks_ok_same st1).
    + eapply frame_trans; [exact F1|]. by destruct (is_relocatable _ _ _); apply frame_same.
Qed.

(** Compiling a sequence of primitives, as the rewriting loop does; [inst_index]
    is set before each. *)
Fixpoint compile_prims (ps : list (Z * Z)) (st : gstate) : option (gstate * list Z) :=
  match ps with
  | [] => Some (st, [])
  | (i, p) :: ps =>
      r ← compile_prim_dyn p (set_inst_index i st);
      r' ← compile_prims ps (fst r);
      Some (fst r', snd r :: snd r')
  end.

Lemma compile_prims_ok ps st :
  gen_env -> gen_ok st -> (forall i p, (i, p) ∈ ps -> 0 <= i /\ text_outside p) ->
  exists st' tcs, compile_prims ps st = Some (st', tcs) /\ gen_ok st' /\ frame st st' /\
    Forall2 (fun '(_, p) a => compiled p st' a) ps tcs.
Proof using.
  intros EN. revert st. induction ps as [|[i p] ps IH]; intros st GO T; cbn [compile_prims].
  { exists st, []. split; [done|]. split; [done|]. split; [apply frame_refl|constructor]. }
  assert (G0 : gen_ok (set_inst_index i st)).
  { destruct GO as [B0 J0]. constructor; [by apply (blocks_ok_same st)|exact J0]. }
  destruct (T i p ltac:(left)) as [Hi Tp].
  destruct (compile_prim_dyn_ok p _ EN G0 Tp Hi) as (st1 & a & -> & G1 & F1 & C1).
  cbn [mbind option_bind fst snd].
  destruct (IH st1 G1) as (st2 & tcs & -> & G2 & F2 & C2); [intros j q Hq; apply (T j); by right|].
  cbn [mbind option_bind fst snd]. exists st2, (a :: tcs). split; [done|]. split; [done|].
  split; [eapply frame_trans; [|exact F2]; eapply frame_trans; [by apply frame_same|exact F1]|].
  constructor; [|done]. unfold compiled in *. destruct (_ && _); [|done]. by apply (holds_code_frame st1).
Qed.

Lemma init_gen_ok m : gen_ok (init_gstate code_area_size m).
Proof using. constructor; [constructor; [done|done|done]|done]. Qed.

(** ** Forgetting code *)

Abbreviation blocks_from a n := (map (fun k => (gforth_alloc k, code_area_size)) (seq a n)).

Lemma find_block_ok code k a n :
  gen_env -> in_block k code -> (a <= k < a + n)%nat ->
  find_block code a (blocks_from a n) = Some (k, gforth_alloc k).
Proof using.
  intros EN Hk. unfold in_block in Hk. revert a. induction n as [|n IH]; intros a Ha; [lia|].
  cbn [seq map find_block]. destruct (decide (a = k)) as [->|Hne].
  - rewrite (proj2 (Z.leb_le _ _)), (proj2 (Z.ltb_lt _ _)) by lia. done.
  - replace (_ && _) with false; [apply IH; lia|]. symmetry. apply not_true_is_false.
    rewrite andb_true_iff, Z.leb_le, Z.ltb_lt. intros H. pose proof (ge_disjoint EN a k Hne). lia.
Qed.

Lemma dyncodesize_ok here size k a n :
  gen_env -> in_block k here -> (a <= k < a + n)%nat ->
  dyncodesize_from here size (blocks_from a n) =
  size + Z.of_nat (k - a) * code_area_size + (here - gforth_alloc k).
Proof using.
  intros EN Hk. unfold in_block in Hk. revert a size. induction n as [|n IH]; intros a size Ha; [lia|].
  cbn [seq map dyncodesize_from]. destruct (decide (a = k)) as [->|Hne].
  - rewrite (proj2 (Z.leb_le _ _)), (proj2 (Z.ltb_lt _ _)) by lia. cbn [andb]. rewrite Nat.sub_diag. lia.
  - replace (_ && _) with false.
    { rewrite IH by lia. replace (k - a)%nat with (S (k - S a)) by lia. rewrite Nat2Z.inj_succ, Z.mul_succ_l. lia. }
    symmetry. apply not_true_is_false.
    rewrite andb_true_iff, Z.leb_le, Z.ltb_lt. intros H. pose proof (ge_disjoint EN a k Hne). lia.
Qed.

Lemma live_block st code :
  gen_ok st -> live st code -> exists k, in_block k code /\ (k < next_code_block st)%nat.
Proof using.
  intros [BO _] [(k & Hk & Hc)|[Hn Hc]]; [exists k; split; [done|lia]|].
  destruct (current_block st BO Hn) as (k & Ek & Ea & Eh). exists k. unfold in_block. split; lia.
Qed.
End CodeGen.

(** ** Properties *)

(** C5: dynamic code generation is memory safe and never disturbs compiled code
    (without ip-update optimisation): whatever sequences of primitives are
    compiled, no assertion fails, every write lands in a code block, every
    relocatable primitive's threaded code gets the address of an exact copy of
    its code, every other one its static code address, and the copies made
    first are still intact after later compilation, however often new blocks
    are started.
    Assumed ([gen_env], [text_outside]): [opt_ip_updates] is 0, the allocator
    succeeds with aligned and disjoint blocks, each primitive with its ending
    fits into one, the cells have increasing addresses, and the primitives'
    own code lies outside the blocks. *)
Theorem compiled_code_intact (priminfos : Z -> PrimInfo) (super_costs : Z -> cost) (super2 : list Z)
    (branches_to_ip : Z -> Z) (ip_update0 min_ip_update max_ip_update opt_ip_updates opt_ip_updates_branch : Z)
    (no_dynamic : bool) (npriminfos goto_start goto_len nops N_branch : Z) (ip_dead : list Z)
    (code_area_size : Z) (gforth_alloc : nat -> Z) (ginstps target_at vm_prims : Z -> Z) (m : memory)
    (ps1 ps2 : list (Z * Z)) :
  let compile := compile_prims priminfos super_costs super2 branches_to_ip ip_update0 min_ip_update
    max_ip_update opt_ip_updates opt_ip_updates_branch no_dynamic npriminfos goto_start goto_len nops
    N_branch ip_dead code_area_size gforth_alloc ginstps target_at vm_prims in
  let good := compiled priminfos no_dynamic npriminfos code_area_size gforth_alloc vm_prims in
  gen_env priminfos super_costs opt_ip_updates goto_len code_area_size gforth_alloc ginstps ->
  (forall i p, (i, p) ∈ ps1 ++ ps2 -> 0 <= i /\ text_outside priminfos code_area_size gforth_alloc p) ->
  exists st1 tcs1 st2 tcs2,
    compile ps1 (init_gstate code_area_size m) = Some (st1, tcs1) /\
    compile ps2 st1 = Some (st2, tcs2) /\
    Forall2 (fun '(_, p) a => good p st2 a) (ps1 ++ ps2) (tcs1 ++ tcs2) /\
    (forall x, (forall k, ~ in_block code_area_size gforth_alloc k x) -> code_memory st2 x = m x).
Proof.
  intros compile good EN T.
  destruct (compile_prims_ok priminfos super_costs super2 branches_to_ip ip_update0 min_ip_update
    max_ip_update opt_ip_updates opt_ip_updates_branch no_dynamic npriminfos goto_start goto_len nops
    N_branch ip_dead code_area_size gforth_alloc ginstps target_at vm_prims ps1 (init_gstate code_area_size m) EN
    (init_gen_ok _ _ _ _ _)) as (st1 & tcs1 & E1 & G1 & F1 & C1).
  { intros i p H. apply (T i). apply elem_of_app. by left. }
  destruct (compile_prims_ok priminfos super_costs super2 branches_to_ip ip_update0 min_ip_update
    max_ip_update opt_ip_updates opt_ip_updates_branch no_dynamic npriminfos goto_start goto_len nops
    N_branch ip_dead code_area_size gforth_alloc ginstps target_at vm_prims ps2 st1 EN G1)
    as (st2 & tcs2 & E2 & G2 & F2 & C2).
  { intros i p H. apply (T i). apply elem_of_app. by right. }
  exists st1, tcs1, st2, tcs2. split; [exact E1|]. split; [exact E2|]. split.
  - apply Forall2_app; [|exact C2]. apply Forall2_same_length_lookup_2; [by eapply Forall2_length|].
    intros j [i p] a Hp Ha. pose proof (Forall2_lookup_lr _ _ _ _ _ _ C1 Hp Ha) as H. cbv beta iota in H.
    unfold good, compiled in *. destruct (_ && _); [|done]. apply (holds_code_frame _ _ _ st1); [|done..].
    apply (T i), elem_of_app. left. by eapply list_elem_of_lookup_2.
  - intros x Hx. destruct F1 as [_ O1], F2 as [_ O2]. by rewrite O2, O1.
Qed.

(** [forget_dyncode3] frees exactly the code from the given address on: the
    code compiled before it stays in use and unchanged, code generation can go
    on there, and [dyncodesize] then counts the code that is left. *)
Theorem forget_code_exact (priminfos : Z -> PrimInfo) (super_costs : Z -> cost) (opt_ip_updates goto_len : Z)
    (code_area_size : Z) (gforth_alloc : nat -> Z) (ginstps : Z -> Z) (no_dynamic : bool)
    (st : gstate) (code : Z) :
  let ok := gen_ok priminfos goto_len code_area_size gforth_alloc in
  let alive := live code_area_size gforth_alloc in
  gen_env priminfos super_costs opt_ip_updates goto_len code_area_size gforth_alloc ginstps ->
  ok st -> alive st code ->
  exists k, in_block code_area_size gforth_alloc k code /\
    let '(st', flag) := forget_code no_dynamic code st in
    flag = -1 /\ ok st' /\ code_here st' = code /\ code_memory st' = code_memory st /\
    (forall x, alive st' x <->
       (exists j, (j < k)%nat /\ in_block code_area_size gforth_alloc j x) \/ gforth_alloc k <= x < code) /\
    (forall x, alive st' x -> alive st x) /\
    dyncodesize st' = Z.of_nat k * code_area_size + (code - gforth_alloc k).
Proof.
  intros ok alive EN GO HL. destruct (live_block _ _ _ _ _ _ GO HL) as (k & Hk & Hn).
  exists k. split; [done|]. unfold forget_code. pose proof (go_blocks _ _ _ _ _ GO) as [BL BN _].
  rewrite BL, (find_block_ok _ _ _ _ _ _ _ code k 0 (allocated st) EN Hk) by lia.
  assert (Lv : forall st', next_code_block st' = S k -> code_area st' = gforth_alloc k -> code_here st' = code ->
    forall x, alive st' x <->
       (exists j, (j < k)%nat /\ in_block code_area_size gforth_alloc j x) \/ gforth_alloc k <= x < code).
  { intros st' En Ea Eh x. unfold alive, live. rewrite En, Ea, Eh. split.
    - intros [(j & Hj & Hx)|[_ Hx]]; [left; exists j; split; [lia|done]|by right].
    - intros [(j & Hj & Hx)|Hx]; [left; exists j; split; [lia|done]|right; split; [lia|done]]. }
  set (st' := mkG _ _ _ _ _ _ _ _ _ _ _ _). specialize (Lv st' eq_refl eq_refl eq_refl).
  split; [done|]. split; [|split; [done|split; [done|split; [exact Lv|split]]]].
  - constructor; [|done]. constructor; [done|cbn [st' next_code_block allocated]; lia|].
    cbn [st' next_code_block code_area code_here]. split; [done|]. unfold in_block in Hk. lia.
  - intros x [(j & Hj & Hx)|Hx]%Lv; [left; exists j; split; [lia|done]|].
    destruct HL as [(k' & Hk' & Hc)|[Hp Hc]].
    + left. assert (k' = k) as ->; [|exists k; split; [done|]; unfold in_block in *; lia].
      destruct (decide (k' = k)) as [|Hne]; [done|]. unfold in_block in *.
      pose proof (ge_disjoint _ _ _ _ _ _ _ EN k' k Hne). lia.
    + destruct (current_block _ _ st (go_blocks _ _ _ _ _ GO) Hp) as (c & Ec & Ea & Eh). right.
      split; [done|]. destruct (decide (c = k)) as [->|Hne]; [lia|].
      unfold in_block in *. pose proof (ge_disjoint _ _ _ _ _ _ _ EN c k Hne). lia.
  - unfold dyncodesize. cbn [st' code_block_list code_here].
    rewrite (dyncodesize_ok _ _ _ _ _ _ _ code 0 k 0 (allocated st) EN Hk) by lia. rewrite Nat.sub_0_r. lia.
Qed.

(** Ip updates are exact.  Compiling a primitive that needs the ip (it has
    immediate arguments, or ends the straight-line code and does not ignore the
    ip) always succeeds; when the code of the chosen variant is appended, the ip
    lags behind the end of the instruction by exactly the number of cells that
    variant allows for, and the variant is a relocatable version of the same
    primitive.  The [PrimInfo]s are those that [check_prims] establishes. *)
Theorem ip_updates_exact (symbols1 symbols2 : list Z) (code : memory) (super_costs : Z -> cost)
    (prim_names : nat -> list Z) (superend_table : nat -> bool) (no_super : bool) (CHECK_PRIM : Z -> Z -> bool)
    (n : nat) (infos : list PrimInfo)
    (ip_update0 min_ip_update max_ip_update opt_ip_updates : Z) (ip_dead : list Z) (ginstps : Z -> Z)
    (h : nat) (has_imm superend : bool) (st : gstate) :
  let priminfos p := info infos (Z.to_nat p) in
  let p := Z.of_nat h in
  let last := inst_index st + (Z.of_nat (c_length (c_info (super_costs p))) - 1) in
  let dead := (opt_ip_updates >? 1) && superend && negb has_imm && bool_decide (p ∈ ip_dead) in
  infos_ok symbols1 symbols2 code super_costs prim_names superend_table no_super CHECK_PRIM n infos ->
  (h < n)%nat -> pi_start (priminfos p) <> 0 -> ip_offset_of super_costs h = 0 ->
  0 < opt_ip_updates -> 0 < max_ip_update -> min_ip_update < 0 ->
  has_imm || (superend && negb dead) = true ->
  exists st1 d st',
    append_with_ip priminfos super_costs ip_update0 min_ip_update max_ip_update opt_ip_updates ip_dead
      ginstps p has_imm superend st = Some (st', p + d) /\
    ip_at st1 + d = ginstps (last + 1) /\ inst_index st1 = last /\
    let q := (h + Z.to_nat d)%nat in
    let pi := priminfos (p + d) in
    st' = count_use (p + d) (append_code (pi_start pi + pi_len1 pi) (pi_length pi - pi_len1 pi)
            (if superend then set_ip_at (ginstps (last + 1)) st1 else st1)) /\
    p + d = Z.of_nat q /\ pi_start pi <> 0 /\ ip_offset_of super_costs q = d /\ prim_names q = prim_names h.
Proof.
  intros priminfos p last dead IO Hh Hs H0 Ho Hmax Hmin Hc. unfold append_with_ip.
  fold dead. rewrite Hc. fold last.
  unfold append_ip_update. rewrite (proj2 (Z.eqb_neq _ 0)) by lia.
  assert (Hm : 0 <= pi_max_ip_offset (priminfos p)).
  { unfold priminfos, p. rewrite Nat2Z.id. by apply (io_nonneg _ _ _ _ _ _ _ _ _ _ IO). }
  destruct (append_ip_update1_ok priminfos ip_update0 min_ip_update max_ip_update opt_ip_updates
    (ginstps (inst_index (set_inst_index last st) + 1)) 0 (pi_max_ip_offset (priminfos p))
    (set_inst_index last st) Ho Hmax Hmin ltac:(lia)) as (st1 & d & E & Hd & Hi & Hx).
  rewrite E. cbn [mbind option_bind fst snd]. cbn [set_inst_index inst_index] in Hi, Hx.
  exists st1, d. set (st2 := if superend then set_ip_at (ginstps (inst_index st1 + 1)) st1 else st1).
  assert (E2 : negb (negb superend || (ip_at (count_use (p + d) (append_code
      (pi_start (priminfos (p + d)) + pi_len1 (priminfos (p + d)))
      (pi_length (priminfos (p + d)) - pi_len1 (priminfos (p + d))) st2)) =?
      ginstps (inst_index (count_use (p + d) (append_code
      (pi_start (priminfos (p + d)) + pi_len1 (priminfos (p + d)))
      (pi_length (priminfos (p + d)) - pi_len1 (priminfos (p + d))) st2)) + 1))) = false).
  { unfold st2. destruct superend; [|done]. cbn [negb orb]. apply negb_false_iff, Z.eqb_eq. done. }
  rewrite E2. eexists. split; [done|]. split; [done|]. split; [done|].
  cbv zeta. split; [unfold st2; by rewrite Hx|]. split; [unfold p; lia|].
  unfold priminfos, p in *. rewrite Z2Nat.inj_add, Nat2Z.id in * by lia.
  destruct (Z.eq_dec d 0) as [->|Hne].
  - change (Z.to_nat 0) with 0%nat. by rewrite Nat.add_0_r.
  - by destruct (io_max _ _ _ _ _ _ _ _ _ _ IO h d Hh ltac:(lia)) as (_ & H1 & H2 & H3).
Qed.

(** *** A configuration with 64-byte blocks and primitives of 10+4 bytes at
    address 1000; primitive 2 ends straight-line code, 3 is not relocatable. *)
Definition demo_prim (p : Z) : PrimInfo :=
  mkPrimInfo (if p =? 3 then 0 else 1000) 2 10 4 (p =? 2) 0 0 [].
Definition demo_super (p : Z) : cost := mkSuperCost 0 0 0 (mkCost 0 0 1) 0 0 0 false.
Definition demo_alloc (k : nat) : Z := 4096 + 64 * Z.of_nat k.
Abbreviation demo_compile := (compile_prims demo_prim demo_super [] (fun _ => 0) 0 0 0 0 0 false 10
  2000 3 3000 0 [] 64 demo_alloc (fun i => i) (fun _ => 0) (fun p => 500 + p)).

Lemma demo_gen_env : gen_env demo_prim demo_super 0 3 64 demo_alloc (fun i => i).
Proof.
  constructor; try (intros; unfold CODE_ALIGNMENT; cbn; lia).
  - split; [unfold BH; lia|reflexivity].
  - intros k. unfold demo_alloc, CODE_ALIGNMENT. split; [lia|]. Z.div_mod_to_equations. lia.
  - intros j k H. unfold demo_alloc. lia.
Qed.

Lemma demo_text_outside p : text_outside demo_prim 64 demo_alloc p.
Proof.
  intros j Hj k. unfold in_block, demo_alloc, demo_prim in *. cbn [pi_length pi_start] in *.
  destruct (p =? 3); lia.
Qed.

Definition demo_ps1 : list (Z * Z) := [(0, 1); (1, 1); (2, 3)].
Definition demo_ps2 : list (Z * Z) := [(0, 1); (1, 2); (2, 1); (3, 2)].

Lemma demo_threaded1 :
  snd <$> demo_compile demo_ps1 (init_gstate 64 (fun x => x)) = Some [4096; 4106; 503].
Proof. vm_compute. reflexivity. Qed.

Lemma demo_threaded2 :
  (r ← demo_compile demo_ps1 (init_gstate 64 (fun x => x)); snd <$> demo_compile demo_ps2 (fst r)) =
  Some [4123; 4160; 4177; 4187].
Proof. vm_compute. reflexivity. Qed.

Lemma compiled_code_intact_witness :
  exists st1 tcs1 st2 tcs2,
    demo_compile demo_ps1 (init_gstate 64 (fun x => x)) = Some (st1, tcs1) /\
    demo_compile demo_ps2 st1 = Some (st2, tcs2) /\
    tcs1 = [4096; 4106; 503] /\ tcs2 = [4123; 4160; 4177; 4187] /\
    code_memory st2 2500 = 2500.
Proof.
  destruct (compiled_code_intact demo_prim demo_super [] (fun _ => 0) 0 0 0 0 0 false 10 2000 3 3000 0 [] 64
    demo_alloc (fun i => i) (fun _ => 0) (fun p => 500 + p) (fun x => x)
    demo_ps1 demo_ps2 demo_gen_env)
    as (st1 & tcs1 & st2 & tcs2 & E1 & E2 & _ & M).
  { intros i p H. split; [|apply demo_text_outside].
    repeat (apply elem_of_cons in H as [[= -> ->]|H]; [lia|]). by apply not_elem_of_nil in H. }
  exists st1, tcs1, st2, tcs2. split; [exact E1|]. split; [exact E2|].
  pose proof demo_threaded1 as R1. pose proof demo_threaded2 as R2.
  rewrite E1 in R1, R2. cbn [mbind option_bind fst] in R2. rewrite E2 in R2.
  injection R1 as ->. injection R2 as ->. split; [reflexivity|]. split; [reflexivity|].
  apply M. intros k. unfold in_block, demo_alloc. lia.
Defined.

(** Two blocks in use, the second up to address 4170. *)
Definition demo_gstate : gstate :=
  mkG 4160 4170 0 0 0 0 [(4096, 64); (4160, 64)] 2 2 (fun _ => 0) [] (fun _ => 0).

Lemma forget_code_exact_witness :
  exists k, in_block 64 demo_alloc k 4100 /\ k = 0%nat /\
    dyncodesize (fst (forget_code false 4100 demo_gstate)) = 4.
Proof.
  destruct (forget_code_exact demo_prim demo_super 0 3 64 demo_alloc (fun i => i) false demo_gstate 4100
    demo_gen_env) as (k & Hk & H).
  - constructor; [constructor; [done|cbn; lia|cbn; split; [done|lia]]|done].
  - left. exists 0%nat. unfold in_block, demo_alloc. cbn. lia.
  - exists k. split; [exact Hk|]. assert (k = 0%nat) as -> by (unfold in_block, demo_alloc in Hk; lia).
    split; [reflexivity|]. destruct (forget_code false 4100 demo_gstate) as [st' f].
    destruct H as (_ & _ & _ & _ & _ & _ & H). cbn [fst]. rewrite H. reflexivity.
Defined.

Definition demo_infos : list PrimInfo :=
  [mkPrimInfo 1000 3 8 1 false 1 0 []; mkPrimInfo 1010 3 8 1 false 0 0 []; mkPrimInfo 0 0 10 1 false 0 0 []].

Lemma demo_infos_ok :
  infos_ok (demo_symbols 1000) (demo_symbols 2000) demo_code demo_variants demo_names (fun _ => false)
    false (fun _ _ => false) 3 demo_infos.
Proof.
  destruct (check_upto_ok (demo_symbols 1000) (demo_symbols 2000) demo_code demo_variants demo_names
    (fun _ => false) false 7 (fun _ _ => false) 3 demo_names_ok demo_labels_close ltac:(vm_compute; lia))
    as (infos & E & IO).
  vm_compute in E. injection E as <-. exact IO.
Qed.

Lemma ip_updates_exact_witness :
  exists st1 d st',
    append_with_ip (fun p => info demo_infos (Z.to_nat p)) demo_variants 50 (-2) 20 7 [] (fun i => 2 * i) 0 true false
      (mkG 0 0 0 0 1 0 [] 0 0 (fun _ => 0) [] (fun _ => 0)) = Some (st', 0 + d) /\
    ip_at st1 + d = 2 /\ d = 1 /\ ip_at st' = 1.
Proof.
  destruct (ip_updates_exact (demo_symbols 1000) (demo_symbols 2000) demo_code demo_variants demo_names
    (fun _ => false) false (fun _ _ => false) 3 demo_infos 50 (-2) 20 7 [] (fun i => 2 * i) 0 true false
    (mkG 0 0 0 0 1 0 [] 0 0 (fun _ => 0) [] (fun _ => 0)) demo_infos_ok ltac:(lia)
    ltac:(vm_compute; discriminate) eq_refl ltac:(lia) ltac:(lia) ltac:(lia) eq_refl)
    as (st1 & d & st' & E & Hi & _).
  exists st1, d, st'. split; [exact E|]. split; [exact Hi|].
  cbn in E. injection E as <- Hd. split; [lia|reflexivity].
Defined.
