(* ===== verification/Layout.v ===== *)
(** * Where compiled code lies

    Refines [CodeGen]: when the current code block has enough room, primitives
    are placed one behind the other, and dispatch code ([append_jump]) follows a
    primitive exactly where straight-line execution leaves the dynamic code.
    The configuration is that of [gen_env] (no ip-update optimisation), with
    dynamic code. *)
From S2P Require Import Prelude Memory Tpa Prims CheckPrims CodeGen.

Section Layout.
Context (priminfos : Z -> PrimInfo) (super_costs : Z -> cost) (super2 : list Z).
Context (branches_to_ip : Z -> Z) (ip_update0 min_ip_update max_ip_update : Z).
Context (opt_ip_updates opt_ip_updates_branch : Z) (npriminfos : Z).
Context (goto_start goto_len nops : Z) (N_branch : Z) (ip_dead : list Z).
Context (code_area_size : Z) (gforth_alloc : nat -> Z).
Context (ginstps : Z -> Z) (target_at : Z -> Z) (vm_prims : Z -> Z).

Abbreviation env := (gen_env priminfos super_costs opt_ip_updates goto_len code_area_size gforth_alloc ginstps).
Abbreviation ok := (gen_ok priminfos goto_len code_area_size gforth_alloc).
Abbreviation blocks := (blocks_ok code_area_size gforth_alloc).
Abbreviation live := (CodeGen.live code_area_size gforth_alloc).
Abbreviation frame := (CodeGen.frame code_area_size gforth_alloc).
Abbreviation room := (CodeGen.room priminfos goto_len code_area_size).
Abbreviation in_block := (CodeGen.in_block code_area_size gforth_alloc).
Abbreviation holds_code := (CodeGen.holds_code priminfos code_area_size gforth_alloc).
Abbreviation text_outside := (CodeGen.text_outside priminfos code_area_size gforth_alloc).
Abbreviation reloc := (is_relocatable priminfos false).
Abbreviation append_jump := (CodeGen.append_jump priminfos ip_update0 min_ip_update max_ip_update
  opt_ip_updates goto_start goto_len nops ginstps).
Abbreviation append_prim := (CodeGen.append_prim priminfos super_costs super2 branches_to_ip ip_update0
  min_ip_update max_ip_update opt_ip_updates opt_ip_updates_branch goto_start goto_len nops N_branch ip_dead
  code_area_size gforth_alloc ginstps target_at).
Abbreviation compile_prim_dyn := (CodeGen.compile_prim_dyn priminfos super_costs super2 branches_to_ip
  ip_update0 min_ip_update max_ip_update opt_ip_updates opt_ip_updates_branch false npriminfos goto_start
  goto_len nops N_branch ip_dead code_area_size gforth_alloc ginstps target_at vm_prims).

(** The dispatch code of [q] lies at [a]. *)
Definition jump_at (st : gstate) (a q : Z) : Prop :=
  (forall j, 0 <= j < pi_restlength (priminfos q) + goto_len -> live st (a + j)) /\
  (forall j, 0 <= j < pi_restlength (priminfos q) ->
     code_memory st (a + j) = code_memory st (pi_start (priminfos q) + pi_length (priminfos q) + j)) /\
  (forall j, 0 <= j < goto_len ->
     code_memory st (a + pi_restlength (priminfos q) + j) = code_memory st (goto_start + j)).

(** All of a primitive's code, and the shared [goto *], lie outside the code
    blocks. *)
Record outside (p : Z) : Prop := {
  os_text : text_outside p;
  os_rest : forall j, 0 <= j < pi_restlength (priminfos p) -> forall k,
    ~ in_block k (pi_start (priminfos p) + pi_length (priminfos p) + j)
}.
Definition goto_outside : Prop := forall j, 0 <= j < goto_len -> forall k, ~ in_block k (goto_start + j).

Lemma jump_at_frame st st' a q :
  env -> outside q -> goto_outside -> frame st st' -> jump_at st a q -> jump_at st' a q.
Proof using.
  intros EN OQ OG [FL FO] (HL & H1 & H2). destruct (ge_len _ _ _ _ _ _ _ EN q) as [_ Hr].
  pose proof (ge_goto _ _ _ _ _ _ _ EN) as Hg. split; [|split]; intros j Hj.
  - by apply FL, HL.
  - destruct (FL _ (HL j ltac:(lia))) as [_ ->]. rewrite FO by (by apply (os_rest q OQ)). by apply H1.
  - destruct (FL (a + (pi_restlength (priminfos q) + j)) (HL (pi_restlength (priminfos q) + j) ltac:(lia))) as [_ E].
    rewrite Z.add_assoc in E. rewrite E, FO by (by apply OG). by apply H2.
Qed.

(** Appending within the current block leaves the code live. *)
Lemma append_live code len st j :
  (0 < next_code_block st)%nat -> code_area st <= code_here st -> 0 <= j < len ->
  live (append_code code len st) (code_here st + j).
Proof using.
  intros Hn Ha Hj. right. unfold append_code, set_here. cbn [next_code_block code_area code_here]. split; [done|lia].
Qed.

(** ** Dispatch code *)

Lemma append_jump_layout st :
  env -> blocks st -> (0 < next_code_block st)%nat -> last_jump st <> 0 ->
  outside (last_jump st) -> goto_outside -> room st (last_jump st) ->
  ip_at st > ginstps (inst_index st) \/ pi_superend (priminfos (last_jump st)) = false ->
  exists st', append_jump st = Some st' /\ ok st' /\ frame st st' /\ last_jump st' = 0 /\
    jump_at st' (code_here st) (last_jump st) /\
    inst_index st' = inst_index st /\ code_area st' = code_area st /\ next_code_block st' = next_code_block st /\
    code_here st' <= code_here st + pi_restlength (priminfos (last_jump st)) + goto_len + MAX_PADDING.
Proof using.
  intros EN BO Hn Hne OQ OG R A. set (q := last_jump st) in *.
  destruct (ge_len _ _ _ _ _ _ _ EN q) as [Hl Hr]. pose proof (ge_goto _ _ _ _ _ _ _ EN) as Hg.
  destruct (append_jump_ok priminfos super_costs ip_update0 min_ip_update max_ip_update opt_ip_updates
    goto_start goto_len nops code_area_size gforth_alloc ginstps st EN BO (fun _ => conj R A))
    as (st' & E & B' & F' & J' & X' & _).
  exists st'. split; [exact E|]. split; [by constructor|]. split; [exact F'|]. split; [exact J'|].
  unfold CodeGen.append_jump in E. fold q in E. rewrite (proj2 (Z.eqb_neq _ _) Hne) in E.
  destruct (negb _); [done|]. unfold append_ip_update in E. rewrite (ge_opt _ _ _ _ _ _ _ EN) in E.
  rewrite Z.eqb_refl in E. cbn [mbind option_bind fst] in E. injection E as E.
  assert (Hfit : code_here st + pi_restlength (priminfos q) + goto_len <= code_area st + code_area_size).
  { unfold CodeGen.room, CODE_ALIGNMENT in R. lia. }
  destruct (current_block _ _ st BO Hn) as (k & _ & _ & Hh).
  destruct (append_code_ok priminfos super_costs opt_ip_updates goto_len code_area_size gforth_alloc ginstps
    (pi_start (priminfos q) + pi_length (priminfos q)) _ st EN BO Hn Hr) as (B1 & F1 & C1); [lia|].
  set (st1 := append_code _ _ st) in *.
  destruct (append_code_ok priminfos super_costs opt_ip_updates goto_len code_area_size gforth_alloc ginstps
    goto_start goto_len st1 EN B1 Hn Hg) as (B2 & F2 & C2).
  { change (code_here st1) with (code_here st + pi_restlength (priminfos q)). change (code_area st1) with (code_area st). lia. }
  set (st2 := append_code _ _ st1) in *.
  destruct (align_code_ok priminfos super_costs opt_ip_updates goto_len nops code_area_size gforth_alloc ginstps
    st2 EN B2 Hn) as (B3 & F3 & P3).
  assert (J2 : jump_at st2 (code_here st) q).
  { split; [|split]; intros j Hj.
    - right. split; [exact Hn|]. change (code_here st2) with (code_here st + pi_restlength (priminfos q) + goto_len).
      change (code_area st2) with (code_area st). lia.
    - destruct F2 as [FL FO].
      destruct (FL (code_here st + j)) as [_ ->]; [by apply append_live; [|lia|]|].
      rewrite FO by (by apply (os_rest q OQ)). rewrite C1 by done. unfold st1.
      destruct F1 as [_ FO1]. symmetry. apply FO1. by apply (os_rest q OQ).
    - change (code_here st1) with (code_here st + pi_restlength (priminfos q)) in C2. rewrite C2 by done.
      destruct F2 as [_ FO2]. symmetry. apply FO2. by apply OG. }
  set (st3 := align_code nops st2) in *.
  assert (J3 : jump_at st3 (code_here st) q) by (by apply (jump_at_frame st2)).
  rewrite <- E. split; [exact J3|].
  assert (S3 : inst_index st3 = inst_index st /\ code_area st3 = code_area st /\ next_code_block st3 = next_code_block st).
  { unfold st3, align_code. by destruct (_ <=? _). }
  split; [apply S3|]. split; [apply S3|]. split; [apply S3|].
  change (code_here (set_last_jump 0 st3)) with (code_here st3).
  destruct P3 as [->|(_ & P3 & _)]; change (code_here st2) with (code_here st + pi_restlength (priminfos q) + goto_len) in *;
    unfold MAX_PADDING in *; lia.
Qed.
(** ** One primitive *)

(** The outcome of compiling [p] at [st]: a relocatable primitive is copied to
    [code_here], followed by its dispatch code if it ends straight-line code; for
    another one the dispatch code of the primitive before is appended, and the
    threaded code gets its static address. *)
Record lands (st : gstate) (p : Z) (st' : gstate) (a : Z) : Prop := {
  ln_reloc : reloc p = true ->
    a = code_here st /\ holds_code st' a p /\
    if pi_superend (priminfos p) then last_jump st' = 0 /\ jump_at st' (a + pi_length (priminfos p)) p
    else last_jump st' = p /\ code_here st' = a + pi_length (priminfos p);
  ln_static : reloc p = false ->
    a = vm_prims p /\ last_jump st' = 0 /\
    (last_jump st <> 0 -> jump_at st' (code_here st) (last_jump st))
}.

(** The space needed for the dispatch code behind [q]; 0: none is pending. *)
Definition jump_size (q : Z) : Z :=
  if q =? 0 then 0 else pi_restlength (priminfos q) + goto_len + MAX_PADDING.

Lemma append_prim_layout p st :
  env -> blocks st -> (0 < next_code_block st)%nat -> text_outside p ->
  code_here st + (pi_length (priminfos p) + pi_restlength (priminfos p) + goto_len + CODE_ALIGNMENT - 1) <=
    code_area st + code_area_size ->
  exists st', append_prim p st = Some (st', code_here st) /\ blocks st' /\ frame st st' /\
    next_code_block st' = next_code_block st /\ code_area st' = code_area st /\ inst_index st' = inst_index st /\
    code_here st' = code_here st + pi_length (priminfos p) /\ room st' p /\ holds_code st' (code_here st) p /\
    ip_at st' = ginstps (inst_index st + Z.of_nat (c_length (c_info (super_costs p)))).
Proof using.
  intros EN BO Hn T Hfit. unfold CodeGen.append_prim. destruct (ge_len _ _ _ _ _ _ _ EN p) as [Hl Hr].
  pose proof (ge_goto _ _ _ _ _ _ _ EN) as Hg. pose proof (ge_size _ _ _ _ _ _ _ EN) as [Hb _].
  pose proof (ge_fit _ _ _ _ _ _ _ EN p) as Hs.
  set (size := _ + _ - 1) in Hfit |- *.
  assert (Hsize : 0 < size <= code_area_size) by (unfold size, CODE_ALIGNMENT in *; lia).
  assert (E1 : reserve_code_space priminfos ip_update0 min_ip_update max_ip_update opt_ip_updates goto_start
    goto_len nops code_area_size gforth_alloc ginstps size st = Some (st, false)).
  { unfold reserve_code_space. replace (S64 size) with size by (unfold S64; rewrite Z.mod_small; unfold BH, B in *; lia).
    rewrite (proj2 (Z.ltb_ge size 0)) by lia. by rewrite (proj2 (Z.ltb_ge _ _)) by lia. }
  rewrite E1. cbn [mbind option_bind]. rewrite (ge_opt _ _ _ _ _ _ _ EN). change (0 >? 0) with false. cbv iota.
  destruct (current_block _ _ st BO Hn) as (k & _ & _ & Hh).
  destruct (append_code_ok priminfos super_costs opt_ip_updates goto_len code_area_size gforth_alloc ginstps
    (pi_start (priminfos p)) _ st EN BO Hn Hl) as (B2 & F2 & C2); [unfold size, CODE_ALIGNMENT in *; lia|].
  set (st2 := append_code _ _ st) in *. cbn [mbind option_bind]. eexists. split; [done|]. set (st4 := set_last_jump _ _).
  assert (F24 : frame st2 st4) by (by apply frame_same).
  split; [apply (blocks_ok_same _ _ st2); try done; intros H; change (next_code_block st2) with (next_code_block st) in H; lia|].
  split; [by eapply frame_trans|]. do 4 (split; [done|]).
  split; [left; change (code_here st4) with (code_here st + pi_length (priminfos p)); change (code_area st4) with (code_area st);
    unfold size, CODE_ALIGNMENT in *; lia|].
  split; [|done]. split; intros j Hj.
  - by apply append_live; [|lia|].
  - change (code_memory st4) with (code_memory st2). rewrite C2 by done. destruct F2 as [_ FO]. symmetry. apply FO. by apply T.
Qed.

Lemma compile_reloc p st :
  env -> ok st -> (0 < next_code_block st)%nat -> outside p -> goto_outside ->
  p < npriminfos -> reloc p = true -> p <> 0 -> 0 <= inst_index st ->
  code_here st + (pi_length (priminfos p) + pi_restlength (priminfos p) + goto_len + CODE_ALIGNMENT - 1) <=
    code_area st + code_area_size ->
  exists st', compile_prim_dyn p st = Some (st', code_here st) /\ ok st' /\ frame st st' /\
    next_code_block st' = next_code_block st /\ code_area st' = code_area st /\ inst_index st' = inst_index st /\
    lands st p st' (code_here st) /\
    code_here st' <= code_here st + pi_length (priminfos p) + (if pi_superend (priminfos p) then jump_size p else 0).
Proof using.
  intros EN [BO _] Hn OP OG Hp Hr Hz Hi Hfit. unfold CodeGen.compile_prim_dyn.
  rewrite Hr, Z.geb_leb, (proj2 (Z.leb_gt _ _) Hp). cbn [negb orb].
  destruct (append_prim_layout p st EN BO Hn (os_text p OP) Hfit) as (st1 & E & B1 & F1 & N1 & A1 & I1 & H1 & R1 & C1 & P1).
  rewrite E. cbn [mbind option_bind fst snd]. set (st2 := set_last_jump p st1).
  assert (B2 : blocks st2) by (apply (blocks_ok_same _ _ st1); try done; lia).
  assert (F2 : frame st st2) by (eapply frame_trans; [exact F1|by apply frame_same]).
  destruct (pi_superend (priminfos p)) eqn:Hs.
  - destruct (append_jump_layout st2) as (st3 & E3 & O3 & F3 & J3 & L3 & I3 & A3 & N3 & H3); try done.
    { change (next_code_block st2) with (next_code_block st1). lia. }
    { left. change (ip_at st2) with (ip_at st1). rewrite P1. change (inst_index st2) with (inst_index st1). rewrite I1.
      pose proof (ge_components _ _ _ _ _ _ _ EN p Hs). pose proof (ge_cells _ _ _ _ _ _ _ EN (inst_index st)
        (inst_index st + Z.of_nat (c_length (c_info (super_costs p)))) Hi ltac:(lia)). lia. }
    rewrite E3. cbn [mbind option_bind]. exists st3. split; [done|]. split; [exact O3|].
    change (code_here st2) with (code_here st1) in *. change (last_jump st2) with p in *.
    split; [by eapply frame_trans|]. split; [by rewrite N3|]. split; [by rewrite A3|]. split; [by rewrite I3|].
    rewrite H1 in *. split.
    + constructor; [|congruence]. intros _. split; [done|]. rewrite Hs. split; [|done].
      by apply (holds_code_frame _ _ _ st1); [apply OP|..].
    + unfold jump_size. rewrite (proj2 (Z.eqb_neq _ _) Hz). lia.
  - cbn [mbind option_bind]. exists st2. split; [done|]. split; [by constructor|]. split; [exact F2|].
    split; [exact N1|]. split; [exact A1|]. split; [exact I1|]. split.
    + constructor; [|congruence]. intros _. split; [done|]. rewrite Hs. split; [|done].
      by apply (holds_code_frame _ _ _ st1); [apply OP|apply frame_same|].
    + change (code_here st2) with (code_here st1). lia.
Qed.

Lemma compile_static p st :
  env -> ok st -> (0 < next_code_block st)%nat -> (last_jump st <> 0 -> outside (last_jump st)) -> goto_outside ->
  reloc p = false ->
  exists st', compile_prim_dyn p st = Some (st', vm_prims p) /\ ok st' /\ frame st st' /\
    next_code_block st' = next_code_block st /\ code_area st' = code_area st /\ inst_index st' = inst_index st /\
    lands st p st' (vm_prims p) /\ code_here st' <= code_here st + jump_size (last_jump st).
Proof using.
  intros EN [BO GJ] Hn OJ OG Hr. unfold CodeGen.compile_prim_dyn. rewrite Hr. cbn [negb]. rewrite orb_true_r.
  unfold append_jump_previous. set (st0 := set_inst_index (inst_index st - 1) st).
  assert (H : exists st1, append_jump st0 = Some st1 /\ ok st1 /\ frame st0 st1 /\ last_jump st1 = 0 /\
    (last_jump st <> 0 -> jump_at st1 (code_here st) (last_jump st)) /\
    inst_index st1 = inst_index st0 /\ code_area st1 = code_area st /\ next_code_block st1 = next_code_block st /\
    code_here st1 <= code_here st + jump_size (last_jump st)).
  { unfold jump_size. destruct (Z.eqb_spec (last_jump st) 0) as [Ez|Ez].
    - exists st0. unfold CodeGen.append_jump. change (last_jump st0) with (last_jump st). rewrite Ez.
      split; [done|]. split; [constructor; [by apply (blocks_ok_same _ _ st)|done]|]. split; [apply frame_refl|].
      do 5 (split; [done|]). change (code_here st0) with (code_here st). lia.
    - destruct (GJ Ez) as [G1 G2].
      destruct (append_jump_layout st0) as (st1 & E1 & O1 & F1 & J1 & L1 & I1 & A1 & N1 & H1); try done.
      { by apply (blocks_ok_same _ _ st). }
      { by apply OJ. }
      { by right. }
      exists st1. do 5 (split; [done|]). split; [done|]. split; [done|]. split; [done|].
      change (code_here st0) with (code_here st) in H1. change (last_jump st0) with (last_jump st) in H1. lia. }
  destruct H as (st1 & -> & O1 & F1 & J1 & L1 & I1 & A1 & N1 & H1). cbn [mbind option_bind].
  eexists. split; [done|]. set (st2 := count_use p _).
  assert (F12 : frame st1 st2) by (by apply frame_same).
  split; [destruct O1 as [B1 G1]; constructor; [by apply (blocks_ok_same _ _ st1)|exact G1]|].
  split; [eapply frame_trans; [|exact F12]; apply (frame_trans _ _ _ st0); [by apply frame_same|exact F1]|].
  split; [exact N1|]. split; [exact A1|]. split; [cbn [st2 count_use inst_index set_ip_at set_inst_index]; rewrite I1; cbn; lia|].
  split; [|exact H1]. constructor; [congruence|]. intros _. split; [done|]. split; [exact J1|].
  intros Hne. exact (L1 Hne).
Qed.
(** ** A sequence of primitives in one code block *)

Definition space (st : gstate) : Z := code_area st + code_area_size - code_here st.

(** Compiling [ps] with [space] bytes left in the block, dispatch code for [lj]
    pending, never starts another block. *)
Fixpoint fits (space lj : Z) (ps : list Z) : bool :=
  match ps with
  | [] => true
  | p :: ps =>
      if reloc p then
        let pi := priminfos p in
        (pi_length pi + pi_restlength pi + goto_len + CODE_ALIGNMENT - 1 <=? space) &&
        fits (space - pi_length pi - (if pi_superend pi then jump_size p else 0)) (if pi_superend pi then 0 else p) ps
      else fits (space - jump_size lj) 0 ps
  end.

Lemma fits_mono s1 s2 lj ps : s1 <= s2 -> fits s1 lj ps = true -> fits s2 lj ps = true.
Proof using.
  revert s1 s2 lj. induction ps as [|p ps IH]; intros s1 s2 lj Hs; [done|]. cbn [fits]. destruct (reloc p).
  - intros [H1 H2]%andb_true_iff. apply Z.leb_le in H1. rewrite (proj2 (Z.leb_le _ s2)) by lia. cbn [andb].
    eapply IH; [|exact H2]. lia.
  - apply IH. lia.
Qed.

(** A primitive the block can contain. *)
Record usable (p : Z) : Prop := {
  us_outside : reloc p = true -> outside p;
  us_number : reloc p = true -> p < npriminfos /\ p <> 0
}.

Lemma compile_step p ps st :
  env -> goto_outside -> ok st -> (0 < next_code_block st)%nat -> 0 <= inst_index st -> usable p ->
  (last_jump st <> 0 -> outside (last_jump st)) -> fits (space st) (last_jump st) (p :: ps) = true ->
  exists st' a, compile_prim_dyn p st = Some (st', a) /\ ok st' /\ frame st st' /\
    next_code_block st' = next_code_block st /\ code_area st' = code_area st /\ inst_index st' = inst_index st /\
    lands st p st' a /\ (last_jump st' <> 0 -> outside (last_jump st')) /\
    fits (space st') (last_jump st') ps = true.
Proof using.
  intros EN OG GO Hn Hi US OJ HF. cbn [fits] in HF. destruct (reloc p) eqn:Hr.
  - apply andb_true_iff in HF as [H1 H2]. apply Z.leb_le in H1. destruct (us_number p US Hr) as [Hp Hz].
    destruct (compile_reloc p st EN GO Hn (us_outside p US Hr) OG Hp Hr Hz Hi) as
      (st' & E & O' & F' & N' & A' & I' & L' & B'); [unfold space in H1; lia|].
    exists st', (code_here st). do 7 (split; [done|]).
    destruct (ln_reloc _ _ _ _ L' Hr) as (_ & _ & LJ). unfold space in *. rewrite A'.
    destruct (pi_superend (priminfos p)); destruct LJ as [-> LJ].
    + split; [done|]. eapply fits_mono; [|exact H2]. lia.
    + split; [intros _; by apply us_outside|]. eapply fits_mono; [|exact H2]. lia.
  - destruct (compile_static p st EN GO Hn OJ OG Hr) as (st' & E & O' & F' & N' & A' & I' & L' & B').
    exists st', (vm_prims p). do 7 (split; [done|]). destruct (ln_static _ _ _ _ L' Hr) as (_ & -> & _).
    split; [done|]. unfold space in *. rewrite A'. eapply fits_mono; [|exact HF]. lia.
Qed.
(** ** Reserving space *)

Abbreviation reserve_code_space := (CodeGen.reserve_code_space priminfos ip_update0 min_ip_update max_ip_update
  opt_ip_updates goto_start goto_len nops code_area_size gforth_alloc ginstps).

(** A pending jump implies a code block. *)
Lemma jump_block st : blocks st -> last_jump st <> 0 -> (0 < next_code_block st)%nat.
Proof using. intros BO Hj. pose proof (bo_current _ _ _ BO) as BC. destruct (next_code_block st); [|lia]. by destruct BC as (_ & _ & ?). Qed.

(** Either there is room, or a new block is begun; then the dispatch code of the
    previous primitive has been appended. *)
Lemma reserve_layout size st :
  env -> ok st -> (last_jump st <> 0 -> outside (last_jump st)) -> goto_outside -> 0 < size <= code_area_size ->
  exists st', reserve_code_space size st = Some (st', false) /\ ok st' /\ frame st st' /\
    (0 < next_code_block st')%nat /\ size <= space st' /\ inst_index st' = inst_index st /\
    (st' = st \/ last_jump st' = 0 /\ (last_jump st <> 0 -> jump_at st' (code_here st) (last_jump st))).
Proof using.
  intros EN GO OJ OG Hs. pose proof GO as [BO GJ].
  destruct (reserve_ok priminfos super_costs ip_update0 min_ip_update max_ip_update opt_ip_updates goto_start
    goto_len nops code_area_size gforth_alloc ginstps size st EN GO Hs) as (st' & E & B' & F' & N' & H' & I' & _).
  exists st'. split; [exact E|].
  assert (HJ : st' = st \/ last_jump st' = 0 /\ (last_jump st <> 0 -> jump_at st' (code_here st) (last_jump st))).
  { unfold CodeGen.reserve_code_space in E. destruct (_ <? _) eqn:C in E; [|left; by injection E]. right.
    unfold append_jump_previous in E. set (st0 := set_inst_index (inst_index st - 1) st) in *.
    assert (B0 : blocks st0) by (by apply (blocks_ok_same _ _ st)).
    assert (H : exists st1, append_jump st0 = Some st1 /\ blocks st1 /\ last_jump st1 = 0 /\
      (last_jump st <> 0 -> jump_at st1 (code_here st) (last_jump st))).
    { destruct (Z.eq_dec (last_jump st) 0) as [Ez|Ez].
      - exists st0. split; [|done]. unfold CodeGen.append_jump. change (last_jump st0) with (last_jump st). by rewrite Ez.
      - destruct (GJ Ez) as [G1 G2].
        destruct (append_jump_layout st0) as (st1 & E1 & [B1 _] & _ & J1 & L1 & _); try done;
          [by apply jump_block|by apply OJ|by right|]. by exists st1. }
    destruct H as (st1 & E1 & B1 & J1 & L1). rewrite E1 in E. cbn [mbind option_bind] in E. injection E as E.
    assert (B2 : blocks (flush_to_here (set_inst_index (inst_index st1 + 1) st1))) by (by apply (blocks_ok_same _ _ st1)).
    pose proof (next_block_ok priminfos super_costs opt_ip_updates goto_len code_area_size gforth_alloc ginstps _ EN B2) as NB.
    rewrite E in NB. destruct NB as (_ & _ & F3 & _ & _ & J3 & _). split; [by rewrite J3|]. intros Hne.
    apply (jump_at_frame st1); [done|by apply OJ|done| |by apply L1].
    eapply frame_trans; [|exact F3]. by apply frame_same. }
  split; [|split; [done|split; [done|split; [unfold space; lia|split; [done|exact HJ]]]]].
  destruct HJ as [->|[Hz _]]; [exact GO|]. by constructor.
Qed.
End Layout.
