(* ===== verification/BasicBlocks.v ===== *)
(** * Basic blocks (compile_prim1 in engine/main.c)

    The Forth compiler hands over one threaded-code cell after the other;
    [compile_prim1] collects primitives into basic blocks of at most [MAX_BB]
    instructions and passes each block to [optimize_rewrite].  The model
    records these calls as events.  The file ends with the composition: every
    program of ordinary instructions is compiled. *)
From S2P Require Import Prelude Tpa Labels Prims PrimSearch Supers.

(** What [compile_prim1] does besides collecting. *)
Inductive bb_event : Type :=
| Rewrite (block : list (Z * Z))      (** [optimize_rewrite] on (cell, primitive) pairs *)
| CodeWord (start code : Z)           (** [append_jump], then the code address is stored *)
| AlignCode.

Section BasicBlocks.
(** The primitive table (with its terminator) and its address, the number of
    primitives, the generated [superend] table, and what a code field holds. *)
Context (vm_prims : list Z) (vm_prims_addr : Z) (npriminfos : nat).
Context (superend : Z -> bool) (code_address : Z -> Z).

Definition CFA_OFFSET : Z := 2.

(** [((Xt)*start-vm_prims)-CFA_OFFSET], as an unsigned enumeration value. *)
Definition xt_prim_num (xt : Z) : Z := U32 ((xt - vm_prims_addr) / 8 - CFA_OFFSET).

(** The primitive number of [xt]; at least [npriminfos] for a code word. *)
Definition prim_num_of (xt : Z) : option Z :=
  let prim_num := xt_prim_num xt in
  if Z.of_nat npriminfos <=? prim_num
  then find_prim_num vm_prims npriminfos (code_address xt) prim_num
  else Some prim_num.

(** Is the pending block full or ended? *)
Definition block_ended (pending : list (Z * Z)) : bool :=
  (MAX_BB <=? length pending)%nat ||
  match pending !! pred (length pending) with Some (_, p) => superend p | None => false end.

(** [compile_prim1(start)] where [*start] is [xt]; [None] is [compile_prim1(NULL)]. *)
Definition compile_prim1 (start : option (Z * Z)) (pending : list (Z * Z))
  : option (list (Z * Z) * list bb_event) :=
  match start with
  | None => Some ([], [Rewrite pending; AlignCode])
  | Some (a, xt) =>
      let '(pending, evs) := if block_ended pending then ([], [Rewrite pending]) else (pending, []) in
      prim_num ← prim_num_of xt;
      if Z.of_nat npriminfos <=? prim_num then
        Some ([], evs ++ [Rewrite pending; CodeWord a (code_address xt)])
      else if (length pending <? MAX_BB)%nat then Some (pending ++ [(a, prim_num)], evs)
      else None
  end.

(** A sequence of calls. *)
Fixpoint compile_cells (cells : list (option (Z * Z))) (pending : list (Z * Z))
  : option (list (Z * Z) * list bb_event) :=
  match cells with
  | [] => Some (pending, [])
  | c :: cells =>
      r ← compile_prim1 c pending;
      r' ← compile_cells cells (fst r);
      Some (fst r', snd r ++ snd r')
  end.

(** ** The contract *)

(** What becomes of one cell: an instruction of a block, or a code word. *)
Inductive compiled_cell : Type :=
| Instruction (a p : Z)
| Code (a code : Z).

Definition classify (c : option (Z * Z)) : list compiled_cell :=
  match c with
  | None => []
  | Some (a, xt) =>
      match prim_num_of xt with
      | Some p => if Z.of_nat npriminfos <=? p then [Code a (code_address xt)] else [Instruction a p]
      | None => []
      end
  end.

Definition instructions (block : list (Z * Z)) : list compiled_cell :=
  map (fun '(a, p) => Instruction a p) block.

Definition handled (ev : bb_event) : list compiled_cell :=
  match ev with
  | Rewrite block => instructions block
  | CodeWord a code => [Code a code]
  | AlignCode => []
  end.

(** A basic block: bounded, and only its last instruction may end it. *)
Definition block_ok (block : list (Z * Z)) : Prop :=
  (length block <= MAX_BB)%nat /\
  (forall i a p, block !! i = Some (a, p) -> 0 <= p < Z.of_nat npriminfos) /\
  forall i a p, (S i < length block)%nat -> block !! i = Some (a, p) -> superend p = false.

Definition event_ok (ev : bb_event) : Prop :=
  match ev with Rewrite block => block_ok block | _ => True end.

Lemma block_ok_nil : block_ok [].
Proof using. split; [unfold MAX_BB; cbn; lia|]. split; intros i a p; [done|cbn; lia]. Qed.

Lemma block_ok_snoc block a p :
  block_ok block -> block_ended block = false -> 0 <= p < Z.of_nat npriminfos -> block_ok (block ++ [(a, p)]).
Proof using.
  intros (L & N & SE) E Hp. unfold block_ended in E. apply orb_false_iff in E as [E1 E2].
  apply Nat.leb_gt in E1. split; [rewrite length_app; cbn; lia|]. split.
  - intros i b q [H|[_ H]]%lookup_app_Some; [by eapply N|]. by apply list_lookup_singleton_Some in H as [_ [= <- <-]].
  - intros i b q Hi Hq. rewrite length_app in Hi. cbn in Hi. rewrite lookup_app_l in Hq by lia.
    destruct (Nat.lt_ge_cases (S i) (length block)) as [H|H]; [by eapply SE|].
    replace (pred (length block)) with i in E2 by lia. by rewrite Hq in E2.
Qed.

Lemma instructions_app b c : instructions (b ++ c) = instructions b ++ instructions c.
Proof using. apply map_app. Qed.

(** A property of primitive numbers that the instructions of a block have. *)
Lemma block_instructions (P : nat -> Prop) (block : list (Z * Z)) :
  (forall i a p, block !! i = Some (a, p) -> 0 <= p /\ P (Z.to_nat p)) ->
  exists origs, map snd block = map Z.of_nat origs /\ Forall P origs.
Proof using.
  induction block as [|[a p] block IH]; intros H; [by exists []|].
  destruct IH as (origs & E & F); [intros i b q Hq; by apply (H (S i) b q)|].
  destruct (H 0%nat a p eq_refl) as [Hp HP]. exists (Z.to_nat p :: origs). split.
  - cbn [map snd]. rewrite E, Z2Nat.id by lia. done.
  - by constructor.
Qed.
Context (table_ok : (2 <= npriminfos)%nat /\ length vm_prims = (npriminfos + 1)%nat).

Lemma prim_num_of_total xt : exists p, prim_num_of xt = Some p /\ 0 <= p.
Proof using table_ok.
  destruct table_ok as [Hn Hl]. unfold prim_num_of.
  assert (H0 : 0 <= xt_prim_num xt) by (unfold xt_prim_num, U32; apply Z.mod_pos_bound; lia).
  destruct (_ <=? _); [|eauto].
  destruct (find_prim_num_total vm_prims npriminfos (code_address xt) (xt_prim_num xt) Hn Hl) as (p & E & H).
  exists p. split; [done|]. destruct H as [->|(k & -> & _)]; lia.
Qed.

(** One call: what was pending and the new cell go, in order, into the events
    and the new pending block. *)
Lemma compile_prim1_ok c pending :
  block_ok pending ->
  exists pending' evs, compile_prim1 c pending = Some (pending', evs) /\ block_ok pending' /\
    Forall event_ok evs /\
    instructions pending ++ classify c = concat (map handled evs) ++ instructions pending' /\
    (c = None -> pending' = []).
Proof using table_ok.
  intros HB. destruct c as [[a xt]|]; cbn [compile_prim1].
  2: { exists [], [Rewrite pending; AlignCode]. split; [done|]. split; [apply block_ok_nil|].
       split; [repeat (apply Forall_cons_2; [done|]); constructor|]. split; [|done]. cbn [classify map handled concat].
       cbn [instructions map]. by rewrite !app_nil_r. }
  destruct (prim_num_of_total xt) as (p & Ep & Hp).
  assert (Hc : exists pend evs, (if block_ended pending then ([], [Rewrite pending]) else (pending, [])) = (pend, evs) /\
    block_ok pend /\ block_ended pend = false /\ Forall event_ok evs /\
    instructions pending = concat (map handled evs) ++ instructions pend).
  { destruct (block_ended pending) eqn:E.
    - exists [], [Rewrite pending]. split; [done|]. split; [apply block_ok_nil|]. split; [done|].
      split; [repeat (apply Forall_cons_2; [done|]); constructor|]. cbn. by rewrite !app_nil_r.
    - exists pending, []. done. }
  destruct Hc as (pend & evs & -> & HB' & HE & HF & Eq). rewrite Ep. cbn [mbind option_bind classify].
  rewrite Ep. destruct (Z.leb_spec (Z.of_nat npriminfos) p) as [H|H].
  - exists [], (evs ++ [Rewrite pend; CodeWord a (code_address xt)]). split; [done|].
    split; [apply block_ok_nil|]. split; [apply Forall_app; split; [done|]; repeat (apply Forall_cons_2; [done|]); constructor|].
    split; [|done]. rewrite Eq, map_app, concat_app. cbn [map handled concat].
    cbn [instructions map]. rewrite !app_nil_r, <- !app_assoc. done.
  - pose proof HE as HE'. unfold block_ended in HE'. apply orb_false_iff in HE' as [HL _].
    apply Nat.leb_gt in HL. rewrite (proj2 (Nat.ltb_lt _ _) HL).
    exists (pend ++ [(a, p)]), evs. split; [done|]. split; [by apply block_ok_snoc|]. split; [done|].
    split; [|done]. by rewrite Eq, instructions_app, app_assoc.
Qed.

Lemma compile_cells_ok cells pending :
  block_ok pending ->
  exists pending' evs, compile_cells cells pending = Some (pending', evs) /\ block_ok pending' /\
    Forall event_ok evs /\
    instructions pending ++ concat (map classify cells) = concat (map handled evs) ++ instructions pending'.
Proof using table_ok.
  revert pending. induction cells as [|c cells IH]; intros pending HB; cbn [compile_cells].
  { exists pending, []. cbn. by rewrite app_nil_r. }
  destruct (compile_prim1_ok c pending HB) as (p1 & ev1 & -> & HB1 & HE1 & Eq1 & _).
  cbn [mbind option_bind fst snd]. destruct (IH p1 HB1) as (p2 & ev2 & -> & HB2 & HE2 & Eq2).
  cbn [mbind option_bind fst snd]. exists p2, (ev1 ++ ev2). split; [done|]. split; [done|].
  split; [by apply Forall_app|]. cbn [map concat]. rewrite app_assoc, Eq1, map_app, concat_app.
  rewrite <- !app_assoc. by rewrite Eq2.
Qed.

(** The final call leaves nothing pending. *)
Lemma compile_cells_end cells pending pending' evs :
  compile_cells (cells ++ [None]) pending = Some (pending', evs) -> pending' = [].
Proof using.
  revert pending evs. induction cells as [|c cells IH]; intros pending evs; cbn [app compile_cells].
  - cbn. by intros [= <- _].
  - destruct (compile_prim1 c pending) as [[p1 ev1]|]; [|done]. cbn [mbind option_bind fst snd].
    destruct (compile_cells (cells ++ [None]) p1) as [[p2 ev2]|] eqn:E; [|done].
    cbn [mbind option_bind fst snd]. intros [= <- _]. by eapply IH.
Qed.
(** A whole program, with the final call. *)
Lemma compile_all_ok cells :
  exists evs, compile_cells (map Some cells ++ [None]) [] = Some ([], evs) /\
    concat (map handled evs) = concat (map classify (map Some cells)) /\ Forall event_ok evs.
Proof using table_ok.
  destruct (compile_cells_ok (map Some cells ++ [None]) [] block_ok_nil) as (p & evs & E & HB & HE & Eq).
  assert (Hp : p = []) by (by eapply compile_cells_end). subst p.
  exists evs. split; [exact E|]. split; [|exact HE].
  rewrite map_app, concat_app in Eq. cbn [map concat classify instructions] in Eq.
  by rewrite !app_nil_r in Eq.
Qed.

(** The cells keep their addresses. *)
Definition cell_addr (c : compiled_cell) : Z := match c with Instruction a _ | Code a _ => a end.

Lemma classify_addrs cells : map cell_addr (concat (map classify (map Some cells))) = map fst cells.
Proof using table_ok.
  induction cells as [|[a xt] cells IH]; [done|]. cbn [map concat fst]. rewrite map_app, IH. cbn [classify].
  destruct (prim_num_of_total xt) as (p & -> & _). by destruct (_ <=? _).
Qed.
Lemma classified_range cells a p :
  Instruction a p ∈ concat (map classify (map Some cells)) -> 0 <= p < Z.of_nat npriminfos.
Proof using table_ok.
  induction cells as [|[b xt] cells IH]; cbn [map concat]; [by intros ?%not_elem_of_nil|].
  intros [H|H]%elem_of_app; [|by apply IH]. cbn [classify] in H.
  destruct (prim_num_of_total xt) as (q & E & Hq). rewrite E in H.
  destruct (Z.leb_spec (Z.of_nat npriminfos) q); apply list_elem_of_singleton in H; [done|].
  injection H as -> ->. lia.
Qed.
End BasicBlocks.

(** The instructions among the cells are ordinary ones. *)
Definition ordinary (super_costs : list cost) (super2 : list Z) (N_noop maxstates : nat) (c : compiled_cell) : Prop :=
  match c with
  | Instruction _ p => instruction super_costs super2 N_noop maxstates (Z.to_nat p)
  | Code _ _ => True
  end.

Lemma ordinary_block npriminfos superend super_costs super2 N_noop maxstates evs block :
  Forall (event_ok npriminfos superend) evs ->
  Forall (ordinary super_costs super2 N_noop maxstates) (concat (map handled evs)) -> Rewrite block ∈ evs ->
  block_ok npriminfos superend block /\
  exists origs, map snd block = map Z.of_nat origs /\ Forall (instruction super_costs super2 N_noop maxstates) origs.
Proof.
  intros HE HO Hin. pose proof (proj1 (Forall_forall _ _) HE _ (proj1 (list_elem_of_In _ _) Hin)) as HB.
  split; [exact HB|]. apply block_instructions. intros i a p Hp. split; [by eapply HB|].
  rewrite Forall_forall in HO. apply (HO (Instruction a p)), in_concat. exists (instructions block).
  split; [apply (in_map handled evs (Rewrite block)); by apply list_elem_of_In|].
  apply (in_map (fun '(a, p) => Instruction a p) block (a, p)), list_elem_of_In. by eapply list_elem_of_lookup_2.
Qed.

(** ** Properties *)

(** C15: [compile_prim1] partitions the program: however many cells are
    compiled, the calls never fail, and after the final [compile_prim1(NULL)]
    every instruction has been passed to [optimize_rewrite] exactly once, in
    program order relative to all other instructions and code words, in blocks
    of at most [MAX_BB] instructions in which only the last can end
    straight-line code. *)
Theorem basic_blocks_partition (vm_prims : list Z) (vm_prims_addr : Z) (npriminfos : nat)
    (superend : Z -> bool) (code_address : Z -> Z) (cells : list (Z * Z)) :
  (2 <= npriminfos)%nat -> length vm_prims = (npriminfos + 1)%nat ->
  exists evs,
    compile_cells vm_prims vm_prims_addr npriminfos superend code_address (map Some cells ++ [None]) [] = Some ([], evs) /\
    concat (map handled evs) =
      concat (map (classify vm_prims vm_prims_addr npriminfos code_address) (map Some cells)) /\
    Forall (event_ok npriminfos superend) evs.
Proof.
  intros Hn Hl. by apply compile_all_ok.
Qed.

(** C14: every program of ordinary instructions can be compiled: with the table
    that [prepare_super_table] builds, each block that [compile_prim1] passes on
    is rewritten without failing an assertion, into a cover of that block that
    starts and ends in the canonical stack state.
    (For well-formed generated tables and costs from 0 to [COST_BOUND].) *)
Theorem program_compiles (vm_prims : list Z) (vm_prims_addr : Z) (npriminfos : nat)
    (superend : Z -> bool) (code_address : Z -> Z) (cells : list (Z * Z))
    (super_costs : list cost) (super2 : list Z) (N_noop maxstates : nat) (static_super_number : Z)
    (is_relocatable : Z -> bool) (priminfos : option (Z -> PrimInfo)) (ss_cost : Z -> Z) :
  (2 <= npriminfos)%nat -> length vm_prims = (npriminfos + 1)%nat ->
  tables_wf super_costs super2 N_noop maxstates is_relocatable priminfos ->
  (CANONICAL_STATE < maxstates)%nat -> (forall p, 0 <= ss_cost p <= COST_BOUND) ->
  Forall (ordinary super_costs super2 N_noop maxstates)
    (concat (map (classify vm_prims vm_prims_addr npriminfos code_address) (map Some cells))) ->
  exists st evs,
    prepare_super_table super_costs super2 N_noop maxstates static_super_number is_relocatable priminfos = Some st /\
    compile_cells vm_prims vm_prims_addr npriminfos superend code_address (map Some cells ++ [None]) [] = Some ([], evs) /\
    let info := info_at super_costs in
    let find := lookup_super super2 st in
    let term := make_termstate maxstates info ss_cost (state_transitions st) in
    forall block, Rewrite block ∈ evs ->
      exists out, optimize_rewrite maxstates (max_super st) info ss_cost is_relocatable
          (state_transitions st) find term (map snd block) = Some out /\
        (block <> [] -> cover (max_super st) info (state_transitions st) find true (map snd block)
                          CANONICAL_STATE (compiled_prims out)).
Proof.
  intros Hn Hl WF Hc Hcost Hins.
  destruct (prepare_upto_ok _ _ _ _ static_super_number _ _ (length super_costs) WF ltac:(lia)) as (st & E & P).
  destruct (compile_all_ok vm_prims vm_prims_addr npriminfos superend code_address (conj Hn Hl) cells) as (evs & Ev & Eq & HE).
  exists st, evs. split; [exact E|]. split; [exact Ev|]. intros info find term block Hin.
  rewrite <- Eq in Hins.
  destruct (ordinary_block _ _ _ _ _ _ _ _ HE Hins Hin) as [(HL & _ & _) (origs & Eo & Hf)].
  destruct (decide (block = [])) as [->|Hne]; [by exists []|].
  pose proof (prepared_tables_ok _ _ _ _ _ _ _ st ss_cost WF P Hc Hcost) as OK.
  destruct (optimize_rewrite_total maxstates (max_super st) info ss_cost is_relocatable _ find OK (map snd block))
    as (out & R & Hout); [by rewrite length_map|rewrite Eo; by eapply prepared_feasible|].
  by exists out.
Qed.

(** *** A table with two instructions and one code word at address 7000. *)
Definition demo_vm_prims : list Z := [100; 200; 0].
Definition demo_code_address (xt : Z) : Z := if xt =? 8016 then 100 else if xt =? 8024 then 200 else 7000.
Definition demo_cells : list (Z * Z) := [(1, 8016); (2, 8024); (3, 9000); (4, 8016)].

Lemma basic_blocks_partition_witness :
  exists evs,
    compile_cells demo_vm_prims 8000 2 (fun p => p =? 0) demo_code_address (map Some demo_cells ++ [None]) []
      = Some ([], evs) /\
    evs = [Rewrite [(1, 0)]; Rewrite [(2, 1)]; CodeWord 3 7000; Rewrite [(4, 0)]; AlignCode] /\
    Forall (event_ok 2 (fun p => p =? 0)) evs.
Proof.
  destruct (basic_blocks_partition demo_vm_prims 8000 2 (fun p => p =? 0) demo_code_address demo_cells
    ltac:(lia) eq_refl) as (evs & E & _ & H).
  exists evs. split; [exact E|]. split; [|exact H]. vm_compute in E. by injection E as <-.
Defined.

(** Two ordinary instructions with the noop after them. *)
Definition demo_two : list cost := [demo_cost 0 0 0 1; demo_cost 0 0 1 1; demo_cost 0 0 2 1].

Lemma demo_two_wf : tables_wf demo_two [0; 1; 2] 2 1 (fun _ => true) None.
Proof.
  constructor.
  - intros i Hi. do 3 (destruct i as [|i]; [vm_compute; lia|]). cbn in Hi. lia.
  - intros i Hi En [Hc Hm]. cbn in Hm. lia.
  - intros i j Hi Hj [? ? ? ? [Hn Hne] ?]. do 3 (destruct i as [|i]; [vm_compute in Hn; lia|]). cbn in Hi. lia.
Qed.

Lemma program_compiles_witness :
  exists st evs,
    prepare_super_table demo_two [0; 1; 2] 2 1 10000 (fun _ => true) None = Some st /\
    compile_cells demo_vm_prims 8000 2 (fun p => p =? 0) demo_code_address (map Some demo_cells ++ [None]) []
      = Some ([], evs) /\ length evs = 5%nat.
Proof.
  destruct (program_compiles demo_vm_prims 8000 2 (fun p => p =? 0) demo_code_address demo_cells
    demo_two [0; 1; 2] 2 1 10000 (fun _ => true) None (fun _ => 10) ltac:(lia) eq_refl demo_two_wf
    ltac:(unfold CANONICAL_STATE; lia) ltac:(intros; unfold COST_BOUND; lia))
    as (st & evs & E1 & E2 & _).
  - change (Forall (ordinary demo_two [0; 1; 2] 2 1) [Instruction 1 0; Instruction 2 1; Code 3 7000; Instruction 4 0]).
    repeat constructor; vm_compute; lia.
  - exists st, evs. split; [exact E1|]. split; [exact E2|]. vm_compute in E2. by injection E2 as <-.
Defined.
