(* ===== verification/DynInfo.v ===== *)
(** * Decompilation information (engine/main.c)

    For every dynamically compiled primitive the engine records which threaded
    code cell it belongs to and which primitive (perhaps a superinstruction or
    a stack-caching variant) its native code implements; the Forth decompiler
    reads this back.  The records live in an array that grows by [realloc];
    writes behind its end are failures of the model. *)
From S2P Require Import Prelude Tpa Prims PrimSearch Supers.

Definition U16 (z : Z) : Z := z mod 65536.
Definition S16 (z : Z) : Z := (z + 32768) mod 65536 - 32768.
Definition S8 (z : Z) : Z := (z + 128) mod 256 - 128.

Record DynamicInfo := mkDI {
  tcp : Z;          (** the threaded-code cell *)
  di_length : Z;    (** int16_t *)
  di_prim : Z;      (** uint16_t *)
  seqlen : Z;       (** int8_t, like the states *)
  start_state : Z;
  end_state : Z
}.

(** The entries in use ([ndynamicinfos] of them), and the allocated size; the
    array is NULL while its size is 0. *)
Record dynstate := mkDyn { dynamicinfos : list DynamicInfo; capacity : Z }.

Definition ndynamicinfos (st : dynstate) : Z := Z.of_nat (length (dynamicinfos st)).

Definition init_dynstate : dynstate := mkDyn [] 0.

(** [dynamic_info3]: the first entry for the cell, with its index. *)
Definition dynamic_info3 (st : dynstate) (a : Z) : option (nat * DynamicInfo) :=
  list_find (fun di => tcp di = a) (dynamicinfos st).

(** [add_dynamic_info], and the assignment of the new entry by its caller. *)
Definition add_dynamic_info (di : DynamicInfo) (st : dynstate) : option dynstate :=
  let old := ndynamicinfos st in
  let new := old + 1 in
  let capacity := if Z.land old new =? 0 then 2 * new else capacity st in
  if old <? capacity then Some (mkDyn (dynamicinfos st ++ [di]) capacity) else None.

(** The entry that [optimize_rewrite] makes for the primitive [p] with native
    code at [tc], first correcting the end of the previous entry if the new code
    is in the current code block. *)
Definition set_end (length state : Z) (di : DynamicInfo) : DynamicInfo :=
  mkDI (tcp di) (S16 length) (di_prim di) (seqlen di) (start_state di) (S8 state).

Definition record_prim (cells : Z -> Z) (code_area code_area_size code_here : Z)
    (a tc p len startstate nextstate : Z) (st : dynstate) : option dynstate :=
  st ← add_dynamic_info (mkDI a (S16 (code_here - tc)) (U16 p) (S8 len) (S8 startstate) (S8 nextstate)) st;
  let n := length (dynamicinfos st) in
  if (1 <? n)%nat && (U64 (tc - code_area) <? U64 code_area_size) then
    Some (mkDyn (alter (fun di => set_end (tc - cells (tcp di)) startstate di) (n - 2)%nat (dynamicinfos st))
            (capacity st))
  else Some st.

(** The entries that [forget_dyncode3] drops. *)
Definition forget_infos (a : Z) (st : dynstate) : dynstate :=
  match dynamic_info3 st a with
  | Some (i, _) => mkDyn (take i (dynamicinfos st)) (capacity st)
  | None => st
  end.

Section Decompile.
Context (cells : Z -> Z) (vm_prims : list Z) (super_costs : list cost) (super2 : list Z).

(** The braces of [decompile_prim3] initialise the fields in order: the two
    states of the primitive end up in [seqlen] and [start_state]. *)
Definition decompile_prim3 (st : dynstate) (a : Z) : option DynamicInfo :=
  match dynamic_info3 st a with
  | Some (_, di) => Some di
  | None =>
      p ← prim_index vm_prims (cells a);
      if p <? 0 then Some (mkDI a (-1) 0 0 0 0)
      else
        let c := c_info (cost_at super_costs p) in
        if (state_in c =? CANONICAL_STATE)%nat && (state_out c =? CANONICAL_STATE)%nat then
          Some (mkDI a 0 (U16 p) (Z.of_nat (state_in c)) (Z.of_nat (state_out c)) 0)
        else None
  end.

(** The base primitive of [p]: the first component of a superinstruction. *)
Definition base_prim (p : Z) : Z :=
  let c := cost_at super_costs p in
  if (1 <? c_length (c_info c))%nat then nth (offset c) super2 0 else Z.of_nat (offset c).

(** [vm_prims[p]]; an access outside the table fails. *)
Definition prim_label (p : Z) : option Z := if p <? 0 then None else vm_prims !! Z.to_nat p.

Definition fetch_decompile_prim (st : dynstate) (a_addr : Z) : option Z :=
  match dynamic_info3 st a_addr with
  | Some (_, di) => prim_label (base_prim (di_prim di))
  | None =>
      let x := cells a_addr in
      p ← prim_index vm_prims x;
      if p <? 0 then Some x else prim_label (base_prim p)
  end.
End Decompile.

(** ** Lemmas: the array *)

(** Between powers of two the array has room up to the next one. *)
Definition capacity_ok (st : dynstate) : Prop :=
  0 < ndynamicinfos st -> 2 ^ (Z.log2 (ndynamicinfos st) + 1) <= capacity st.

(** [n] and [n+1] share a bit unless [n+1] is a power of two. *)
Lemma land_succ_log2 n : 0 < n -> Z.land n (n + 1) <> 0 -> Z.log2 (n + 1) = Z.log2 n.
Proof.
  intros Hn Hl. destruct (Z.log2_succ_or n) as [E|E]; unfold Z.succ in E; [|done].
  destruct Hl. set (k := Z.log2 n) in *. pose proof (Z.log2_spec n Hn) as [L1 L2].
  pose proof (Z.log2_spec (n + 1) ltac:(lia)) as [L3 L4]. pose proof (Z.log2_nonneg n). fold k in L1, L2, H.
  rewrite E in L3. unfold Z.succ in L2.
  assert (En : n = Z.ones (k + 1)) by (rewrite Z.ones_equiv; lia).
  replace (n + 1) with (2 ^ (k + 1)) by lia. rewrite En, Z.land_comm, Z.land_ones by lia.
  apply Z_mod_same_full.
Qed.

Lemma add_dynamic_info_ok di st :
  capacity_ok st ->
  exists c, add_dynamic_info di st = Some (mkDyn (dynamicinfos st ++ [di]) c) /\
    capacity_ok (mkDyn (dynamicinfos st ++ [di]) c).
Proof.
  intros HC. unfold add_dynamic_info. set (n := ndynamicinfos st).
  assert (Hn : 0 <= n) by (unfold n, ndynamicinfos; lia).
  assert (En : forall c, ndynamicinfos (mkDyn (dynamicinfos st ++ [di]) c) = n + 1).
  { intros c. unfold n, ndynamicinfos. cbn [dynamicinfos]. rewrite length_app. cbn [length]. lia. }
  destruct (Z.eqb_spec (Z.land n (n + 1)) 0) as [E|E].
  - rewrite (proj2 (Z.ltb_lt _ _)) by lia. eexists. split; [done|]. unfold capacity_ok. rewrite En.
    cbn [capacity]. intros _. pose proof (Z.log2_spec (n + 1) ltac:(lia)) as [L _].
    rewrite Z.pow_add_r by (pose proof (Z.log2_nonneg (n + 1)); lia). lia.
  - assert (Hp : 0 < n) by (destruct (Z.eq_dec n 0) as [Ez|]; [rewrite Ez in E; done|lia]).
    specialize (HC Hp). fold n in HC. pose proof (Z.log2_spec n Hp) as [_ L]. unfold Z.succ in L.
    rewrite (proj2 (Z.ltb_lt _ _)) by lia. eexists. split; [done|]. unfold capacity_ok. rewrite En.
    cbn [capacity]. intros _. by rewrite land_succ_log2.
Qed.

Lemma capacity_ok_shrink st l :
  (length l <= length (dynamicinfos st))%nat -> capacity_ok st -> capacity_ok (mkDyn l (capacity st)).
Proof.
  intros Hl HC Hp. unfold capacity_ok, ndynamicinfos in *. cbn [dynamicinfos capacity] in *.
  etrans; [|apply HC; lia]. apply Z.pow_le_mono_r; [lia|]. apply Z.add_le_mono_r, Z.log2_le_mono. lia.
Qed.

(** ** Sequences of operations *)

Inductive dyn_op : Type :=
| Record_prim (a tc p len startstate nextstate : Z)
| Forget (a : Z).

Section Run.
Context (cells : Z -> Z) (code_area code_area_size code_here : Z).

Definition dyn_step (op : dyn_op) (st : dynstate) : option dynstate :=
  match op with
  | Record_prim a tc p len ss ns => record_prim cells code_area code_area_size code_here a tc p len ss ns st
  | Forget a => Some (forget_infos a st)
  end.

Fixpoint dyn_run (ops : list dyn_op) (st : dynstate) : option dynstate :=
  match ops with
  | [] => Some st
  | op :: ops => st ← dyn_step op st; dyn_run ops st
  end.

Lemma dyn_step_ok op st :
  capacity_ok st -> exists st', dyn_step op st = Some st' /\ capacity_ok st'.
Proof using.
  intros HC. destruct op as [a tc p len ss ns|a]; cbn [dyn_step].
  - unfold record_prim. destruct (add_dynamic_info_ok (mkDI a (S16 (code_here - tc)) (U16 p) (S8 len) (S8 ss) (S8 ns)) st HC)
      as (c & -> & HC'). cbn [mbind option_bind].
    destruct (_ && _); [|by eexists]. eexists. split; [done|].
    apply (capacity_ok_shrink (mkDyn _ c)); [by rewrite length_alter|done].
  - exists (forget_infos a st). split; [done|]. unfold forget_infos.
    destruct (dynamic_info3 st a) as [[i di]|]; [|done]. apply capacity_ok_shrink; [|done].
    rewrite length_take. lia.
Qed.

Lemma dyn_run_ok ops st :
  capacity_ok st -> exists st', dyn_run ops st = Some st' /\ capacity_ok st'.
Proof using.
  revert st. induction ops as [|op ops IH]; intros st HC; cbn [dyn_run]; [by exists st|].
  destruct (dyn_step_ok op st HC) as (st1 & -> & HC1). cbn [mbind option_bind]. by apply IH.
Qed.

(** What the decompiler finds for a cell, up to the lengths that later records
    correct. *)
Definition recorded (st : dynstate) (a : Z) : option Z := (fun r => di_prim (snd r)) <$> dynamic_info3 st a.

Lemma list_find_tcp l a :
  (fun r => di_prim (snd r)) <$> list_find (fun di => tcp di = a) l =
  head (omap (fun di => if decide (tcp di = a) then Some (di_prim di) else None) l).
Proof using.
  induction l as [|di l IH]; [done|]. cbn [list_find omap list_omap]. destruct (decide (tcp di = a)); [done|].
  rewrite <- IH. by destruct (list_find _ l) as [[? ?]|].
Qed.

Lemma record_prim_recorded a tc p len ss ns st st' b :
  record_prim cells code_area code_area_size code_here a tc p len ss ns st = Some st' ->
  recorded st' b = match recorded st b with
                   | Some q => Some q
                   | None => if decide (a = b) then Some (U16 p) else None
                   end.
Proof using.
  unfold record_prim, add_dynamic_info. destruct (ndynamicinfos st <? _); [|done]. cbn [mbind option_bind].
  set (l := dynamicinfos st ++ _). cbn [dynamicinfos]. intros E.
  assert (El : omap (fun di => if decide (tcp di = b) then Some (di_prim di) else None) (dynamicinfos st') =
               omap (fun di => if decide (tcp di = b) then Some (di_prim di) else None) l).
  { revert E. destruct (_ && _); intros [= <-]; [|done]. cbn [dynamicinfos].
    generalize (length l - 2)%nat. generalize l. induction l0 as [|di l0 IH]; intros [|n]; try done.
    cbn [alter list_alter omap list_omap]. destruct (decide (tcp di = b)); [f_equal|]; apply IH. }
  unfold recorded, dynamic_info3. rewrite !list_find_tcp, El. unfold l. rewrite omap_app.
  cbn [omap list_omap tcp]. destruct (omap _ (dynamicinfos st)) as [|q qs]; [|done].
  cbn [app head]. by destruct (decide (a = b)).
Qed.

Lemma dyn_run_recorded ops st st' a q :
  Forall (fun op => match op with Record_prim _ _ _ _ _ _ => True | Forget _ => False end) ops ->
  dyn_run ops st = Some st' -> recorded st a = Some q -> recorded st' a = Some q.
Proof using.
  intros F. revert st. induction F as [|op ops H F IH]; intros st; cbn [dyn_run]; [by intros [= <-]|].
  destruct op as [b tc p len ss ns|]; [|done]. cbn [dyn_step].
  destruct (record_prim _ _ _ _ _ _ _ _ _ _ st) as [st1|] eqn:E; [|done]. cbn [mbind option_bind].
  intros E' Hr. apply (IH st1); [done|]. rewrite (record_prim_recorded _ _ _ _ _ _ _ _ a E). by rewrite Hr.
Qed.
End Run.

(** ** Properties *)

(** The dynamic-info array never overflows: however primitives are recorded
    and code is forgotten, every new entry is written within the allocated
    array, although it is reallocated only when the number of entries passes a
    power of two. *)
Theorem dynamic_infos_in_bounds (cells : Z -> Z) (code_area code_area_size code_here : Z) (ops : list dyn_op) :
  exists st, dyn_run cells code_area code_area_size code_here ops init_dynstate = Some st /\
    (0 < ndynamicinfos st -> ndynamicinfos st < capacity st).
Proof.
  destruct (dyn_run_ok cells code_area code_area_size code_here ops init_dynstate) as (st & E & HC); [done|].
  exists st. split; [exact E|]. intros Hn. pose proof (Z.log2_spec _ Hn) as [_ L]. specialize (HC Hn).
  unfold Z.succ in L. lia.
Qed.

(** C16: decompilation inverts compilation: after a primitive, superinstruction
    or stack-caching variant has been recorded for a threaded-code cell, and
    whatever is recorded later without forgetting, the decompiler gets for that
    cell the label of the first of the basic primitives it was compiled from.
    (The cell had no record, the primitive's number is below 65536, and its
    components are in the tables.) *)
Theorem decompile_roundtrip (cells : Z -> Z) (code_area code_area_size code_here : Z) (vm_prims : list Z)
    (super_costs : list cost) (super2 : list Z) (st : dynstate) (ops : list dyn_op)
    (a tc p len startstate nextstate b : Z) (key : list Z) :
  let c := cost_at super_costs p in
  capacity_ok st -> dynamic_info3 st a = None -> 0 <= p < 65536 ->
  key_of super2 c = b :: key -> length (b :: key) = c_length (c_info c) ->
  (c_length (c_info c) = 1%nat -> b = Z.of_nat (offset c)) -> 0 <= b < Z.of_nat (length vm_prims) ->
  Forall (fun op => match op with Record_prim _ _ _ _ _ _ => True | Forget _ => False end) ops ->
  exists st' label,
    dyn_run cells code_area code_area_size code_here
      (Record_prim a tc p len startstate nextstate :: ops) st = Some st' /\
    vm_prims !! Z.to_nat b = Some label /\
    fetch_decompile_prim cells vm_prims super_costs super2 st' a = Some label.
Proof.
  intros c HC Hnone Hp Hkey Hlen Hone Hb Hops.
  destruct (dyn_run_ok cells code_area code_area_size code_here
    (Record_prim a tc p len startstate nextstate :: ops) st HC) as (st' & E & _).
  destruct (lookup_lt_is_Some_2 vm_prims (Z.to_nat b)) as [label El]; [lia|].
  exists st', label. split; [exact E|]. split; [exact El|].
  assert (R : recorded st' a = Some p).
  { cbn [dyn_run dyn_step] in E. destruct (record_prim _ _ _ _ _ _ _ _ _ _ st) as [st1|] eqn:E1; [|done].
    apply (dyn_run_recorded _ _ _ _ ops st1 st' a p Hops E).
    rewrite (record_prim_recorded _ _ _ _ _ _ _ _ _ _ _ _ a E1). unfold recorded. rewrite Hnone.
    cbn [fmap option_fmap option_map]. rewrite decide_True by done. unfold U16. by rewrite Z.mod_small. }
  unfold fetch_decompile_prim, recorded in *. destruct (dynamic_info3 st' a) as [[i di]|]; [|done].
  cbn in R. injection R as ->.
  assert (Eb : base_prim super_costs super2 p = b).
  { unfold base_prim. fold c. unfold key_of, comps in Hkey.
    destruct (Nat.ltb_spec 1 (c_length (c_info c))) as [H|H].
    - rewrite nth_lookup. rewrite <- (Nat.add_0_r (offset c)), <- lookup_drop.
      rewrite <- (lookup_take_lt _ (c_length (c_info c)) 0) by lia. by rewrite Hkey.
    - symmetry. apply Hone. cbn [length] in Hlen. lia. }
  rewrite Eb. unfold prim_label. rewrite (proj2 (Z.ltb_ge _ _)) by lia. exact El.
Qed.

Lemma decompile_roundtrip_witness :
  exists st' label,
    dyn_run (fun _ => 0) 0 1000 0 [Record_prim 50 10 7 2 0 0; Record_prim 58 20 1 1 0 0] init_dynstate = Some st' /\
    [100; 101; 102; 103] !! 1%nat = Some label /\
    fetch_decompile_prim (fun _ => 0) [100; 101; 102; 103] demo_costs demo_super2 st' 50 = Some label.
Proof.
  apply (decompile_roundtrip (fun _ => 0) 0 1000 0 [100; 101; 102; 103] demo_costs demo_super2 init_dynstate
    [Record_prim 58 20 1 1 0 0] 50 10 7 2 0 0 1 [2]); try done; try lia.
  - repeat constructor.
Defined.
