(* ===== verification/Rewrite.v ===== *)
(** * Compiling a basic block (optimize_rewrite in engine/main.c)

    The whole of [optimize_rewrite] behind the labeller: the cover is read off
    the labels while its primitives are compiled, the threaded-code cells get
    the addresses of the code, and every dynamically compiled primitive is
    recorded for the decompiler.  The theorems compose [Labels] (what the labels
    promise), [Layout] (where code is placed) and [DynInfo] (what is recorded)
    into an execution of the compiled block.  [None] is a failed assertion, or
    an access through the [di] that is still NULL.  The counters of
    [--print-metrics] are left out. *)
From S2P Require Import Prelude Memory Tpa Labels Automaton Prims Supers PrimSearch CheckPrims CodeGen Layout DynInfo.

(** The dynamic code, the decompilation information, and the threaded-code
    cells (numbered in cells). *)
Record cstate := mkC { c_gen : gstate; c_dyn : dynstate; c_cells : Z -> Z }.

(** The loop's variables; [r_di] is the entry [di] points to. *)
Record regs := mkRegs { nextdyn : nat; nextstate : nat; no_transition : bool; r_di : option nat }.

Section Rewrite.
Context (priminfos : Z -> PrimInfo) (super_costs : Z -> cost) (super2 : list Z).
Context (branches_to_ip : Z -> Z) (ip_update0 min_ip_update max_ip_update : Z).
Context (opt_ip_updates opt_ip_updates_branch : Z) (no_dynamic : bool) (npriminfos : Z).
Context (goto_start goto_len nops : Z) (N_branch : Z) (ip_dead : list Z).
Context (code_area_size : Z) (gforth_alloc : nat -> Z).
Context (ginstps : Z -> Z) (target_at : Z -> Z) (vm_prims : Z -> Z).

Abbreviation compile_prim_dyn := (CodeGen.compile_prim_dyn priminfos super_costs super2 branches_to_ip
  ip_update0 min_ip_update max_ip_update opt_ip_updates opt_ip_updates_branch no_dynamic npriminfos goto_start
  goto_len nops N_branch ip_dead code_area_size gforth_alloc ginstps target_at vm_prims).
Abbreviation append_ip_update := (CodeGen.append_ip_update priminfos ip_update0 min_ip_update max_ip_update
  opt_ip_updates ginstps).
Abbreviation reserve_code_super := (CodeGen.reserve_code_super priminfos ip_update0 min_ip_update max_ip_update
  opt_ip_updates no_dynamic goto_start goto_len nops code_area_size gforth_alloc ginstps).
Abbreviation reloc := (is_relocatable priminfos no_dynamic).

Definition info (p : Z) : cost_info := c_info (super_costs p).

(** The address of the [i]-th instruction's cell. *)
Definition cell (i : nat) : Z := ginstps (Z.of_nat i).

(** Processing the transition in front of the instruction: the new code state,
    the address of the transition's code, and the next stack state. *)
Definition step_transition (t : tpa_state) (r : regs) (gen : gstate) : option (gstate * Z * nat) :=
  if negb (no_transition r) then
    s ← do_transition info t (nextstate r);
    g ← compile_prim_dyn (fst s) gen;
    Some (fst g, snd g, snd s)
  else Some (gen, 0, nextstate r).

(** Recording a dynamically compiled primitive; [di] points to the new entry. *)
Definition step_record (cells : Z -> Z) (gen : gstate) (a tc p : Z) (startstate : nat) (r : regs) (dyn : dynstate)
  : option (dynstate * option nat) :=
  if reloc p then
    d ← record_prim cells (code_area gen) code_area_size (code_here gen) a tc p (Z.of_nat (c_length (info p)))
          (Z.of_nat startstate) (Z.of_nat (state_out (info p))) dyn;
    Some (d, Some (length (dynamicinfos d) - 1)%nat)
  else Some (dyn, r_di r).

(** One iteration of the loop, for instruction [i]. *)
Definition rewrite_step (i : nat) (t : tpa_state) (r : regs) (st : cstate) : option (regs * cstate) :=
  let gen := set_inst_index (Z.of_nat i) (c_gen st) in
  if (i =? nextdyn r)%nat then
    x ← step_transition t r gen;
    let '(gen, tc, ns) := x in
    let w := way (t_inst t) ns in
    let p := w_inst w in
    let c := info p in
    if (w_cost w =? INF_COST) || negb (state_in c =? ns)%nat then None
    else
      g ← compile_prim_dyn p gen;
      let '(gen, tc2) := g in
      let no_relocatable := negb (reloc p) in
      let '(tc, startstate) := if no_transition r || no_relocatable then (tc2, ns) else (tc, nextstate r) in
      let nd := (nextdyn r + c_length c)%nat in
      let gen := if no_relocatable then set_ip_at (cell nd) gen else gen in
      d ← step_record (c_cells st) gen (cell i) tc p startstate r (c_dyn st);
      Some (mkRegs nd (state_out c) (w_no_transition w) (snd d), mkC gen (fst d) (store (c_cells st) (cell i) tc))
  else
    let tc := vm_prims (nth (offset (super_costs (w_inst (way (t_inst t) CANONICAL_STATE)))) super2 0) in
    Some (r, mkC gen (c_dyn st) (store (c_cells st) (cell i) tc)).

(** Behind the loop, with [i] = [ninsts]. *)
Definition rewrite_end (i : nat) (t : tpa_state) (r : regs) (st : cstate) : option cstate :=
  if negb (inst_index (c_gen st) =? Z.of_nat i - 1) then None
  else
    gen ← (if no_dynamic then Some (c_gen st) else fst <$> append_ip_update 0 (c_gen st));
    if negb (no_transition r) then
      s ← do_transition info t (nextstate r);
      if negb (i =? nextdyn r)%nat then None
      else
        g ← compile_prim_dyn (fst s) gen;
        di ← r_di r;
        let dyn := mkDyn (alter (fun d => set_end (code_here (fst g) - c_cells st (tcp d)) (Z.of_nat (snd s)) d)
                            di (dynamicinfos (c_dyn st))) (capacity (c_dyn st)) in
        if (snd s =? CANONICAL_STATE)%nat then Some (mkC (fst g) dyn (c_cells st)) else None
    else if (nextstate r =? CANONICAL_STATE)%nat then Some (mkC gen (c_dyn st) (c_cells st)) else None.

Fixpoint rewrite_code (i : nat) (ts : list tpa_state) (r : regs) (st : cstate) : option cstate :=
  match ts with
  | [] => None
  | [t] => rewrite_end i t r st
  | t :: ts => x ← rewrite_step i t r st; rewrite_code (S i) ts (fst x) (snd x)
  end.

(** [optimize_rewrite] for the block [origs] with labels [ts]. *)
Definition emit_block (origs : list Z) (ts : list tpa_state) (st : cstate) : option cstate :=
  t0 ← head ts;
  gen ← reserve_code_super origs (set_inst_index 0 (c_gen st));
  let v := way (t_trans t0) CANONICAL_STATE in
  st' ← rewrite_code 0 ts (mkRegs 0 CANONICAL_STATE (negb (w_relocatable v) || w_no_transition v) None)
          (mkC (set_ip_at (cell 0) gen) (c_dyn st) (c_cells st));
  if code_area (c_gen st') =? code_area gen then Some st' else None.

Section Labeller.
Context (maxstates max_super : nat) (ss_cost : Z -> Z).
Context (state_transitions : list Z) (lookup_super : list Z -> option (list Z)).

Definition compile_block (origs : list Z) (st : cstate) : option cstate :=
  match origs with
  | [] => Some st
  | _ => emit_block origs (label maxstates max_super info ss_cost reloc state_transitions lookup_super
           (make_termstate maxstates info ss_cost state_transitions) origs) st
  end.

(** With the automaton. *)
Definition compile_block_auto (noequiv : bool) (term : nat) (origs : list Z) (ts : tpa_store) (st : cstate)
  : tpa_store * option cstate :=
  match origs with
  | [] => (ts, Some st)
  | _ => let '(ts, ids) := label_auto maxstates max_super info ss_cost reloc state_transitions lookup_super
           noequiv term origs ts in (ts, emit_block origs (states_of ts ids) st)
  end.
End Labeller.
End Rewrite.

(** ** Running compiled code *)

Section Run.
Context (priminfos : Z -> PrimInfo) (super_costs : Z -> cost).
Context (goto_start goto_len code_area_size : Z) (gforth_alloc : nat -> Z).
Context (ginstps : Z -> Z) (vm_prims : Z -> Z) (state_transitions : list Z).

Abbreviation holds := (holds_code priminfos code_area_size gforth_alloc).
Abbreviation jump := (jump_at priminfos goto_start goto_len code_area_size gforth_alloc).
Abbreviation frame := (CodeGen.frame code_area_size gforth_alloc).
Abbreviation info := (Rewrite.info super_costs).
Abbreviation cell := (Rewrite.cell ginstps).
Abbreviation reloc := (is_relocatable priminfos false).

(** Where execution is: about to dispatch through the cell of instruction [i],
    or in dynamic code at [a], behind the code of [q]; the stack cache is in
    state [k]. *)
Inductive mstate : Type :=
| At_cell (i k : nat)
| At_code (a q : Z) (i k : nat).

(** State transitions do not advance the instruction pointer. *)
Definition advance (p : Z) : nat :=
  if bool_decide (p ∈ state_transitions) then 0 else c_length (info p).

(** One step executes the code of at most one primitive, which must find the
    stack cache in the state it is compiled for. *)
Inductive mstep (st : cstate) : mstate -> list Z -> mstate -> Prop :=
| ms_static i p :
    c_cells st (cell i) = vm_prims p -> reloc p = false ->
    mstep st (At_cell i (state_in (info p))) [p] (At_cell (i + advance p) (state_out (info p)))
| ms_enter i p a :
    c_cells st (cell i) = a -> reloc p = true -> holds (c_gen st) a p ->
    mstep st (At_cell i (state_in (info p))) [p]
      (At_code (a + pi_length (priminfos p)) p (i + advance p) (state_out (info p)))
| ms_fall a q i p :
    reloc p = true -> holds (c_gen st) a p ->
    mstep st (At_code a q i (state_in (info p))) [p]
      (At_code (a + pi_length (priminfos p)) p (i + advance p) (state_out (info p)))
| ms_dispatch a q i k :
    jump (c_gen st) a q -> mstep st (At_code a q i k) [] (At_cell i k).

Inductive mrun (st : cstate) : mstate -> list Z -> mstate -> Prop :=
| mr_refl m : mrun st m [] m
| mr_step m1 l1 m2 l2 m3 : mstep st m1 l1 m2 -> mrun st m2 l2 m3 -> mrun st m1 (l1 ++ l2) m3.

Lemma mrun_one st m1 l m2 : mstep st m1 l m2 -> mrun st m1 l m2.
Proof using. intros H. rewrite <- (app_nil_r l). eapply mr_step; [exact H|constructor]. Qed.

Lemma mrun_app st m1 l1 m2 l2 m3 : mrun st m1 l1 m2 -> mrun st m2 l2 m3 -> mrun st m1 (l1 ++ l2) m3.
Proof using. induction 1 as [|? ? ? ? ? H _ IH]; intros R; [done|]. rewrite <- app_assoc. eapply mr_step; eauto. Qed.

(** Where execution continues behind the code generated so far: in the code if
    dispatch code is pending, else through the next cell. *)
Definition cur (gen : gstate) (i k : nat) : mstate :=
  if last_jump gen =? 0 then At_cell i k else At_code (code_here gen) (last_jump gen) i k.

Context (npriminfos : Z).
Context (EN : exists opt_ip_updates,
  gen_env priminfos super_costs opt_ip_updates goto_len code_area_size gforth_alloc ginstps).
Context (OG : goto_outside goto_start goto_len code_area_size gforth_alloc).

Abbreviation lands := (Layout.lands priminfos goto_start goto_len code_area_size gforth_alloc vm_prims).
Abbreviation outside := (Layout.outside priminfos code_area_size gforth_alloc).
Abbreviation usable := (Layout.usable priminfos npriminfos code_area_size gforth_alloc).

Lemma jump_frame st st' a q : outside q -> frame st st' -> jump st a q -> jump st' a q.
Proof using EN OG. destruct EN as [o E]. intros OQ F. by apply (jump_at_frame _ _ _ _ _ _ _ _ _ _ _ _ E OQ OG F). Qed.

(** Behind a relocatable primitive. *)
Lemma run_behind g p g' a fin i k :
  lands g p g' a -> usable p -> reloc p = true -> p <> 0 -> frame g' (c_gen fin) ->
  mrun fin (At_code (a + pi_length (priminfos p)) p i k) [] (cur g' i k).
Proof using EN OG.
  intros L US Hr Hz F. destruct (ln_reloc _ _ _ _ _ _ _ _ _ _ L Hr) as (_ & _ & LJ). unfold cur.
  destruct (pi_superend (priminfos p)); destruct LJ as [-> LJ].
  - apply mrun_one. apply ms_dispatch. apply (jump_frame g'); [by apply (us_outside _ _ _ _ _ US)|done|done].
  - rewrite (proj2 (Z.eqb_neq p 0) Hz), LJ. constructor.
Qed.

(** A relocatable primitive is reached by falling through, and through its cell. *)
Lemma run_reloc g p g' a fin i :
  lands g p g' a -> usable p -> reloc p = true -> frame g' (c_gen fin) ->
  (forall q, mrun fin (At_code (code_here g) q i (state_in (info p))) [p] (cur g' (i + advance p) (state_out (info p)))) /\
  (c_cells fin (cell i) = a ->
   mrun fin (At_cell i (state_in (info p))) [p] (cur g' (i + advance p) (state_out (info p)))).
Proof using EN OG.
  intros L US Hr F. destruct (us_number _ _ _ _ _ US Hr) as [_ Hz].
  destruct (ln_reloc _ _ _ _ _ _ _ _ _ _ L Hr) as (Ea & LC & _).
  pose proof (run_behind g p g' a fin (i + advance p) (state_out (info p)) L US Hr Hz F) as RB.
  assert (HC : holds (c_gen fin) a p).
  { apply (holds_code_frame _ _ _ g'); [by apply os_text, (us_outside _ _ _ _ _ US)|done|done]. }
  split.
  - intros q. change [p] with ([p] ++ []). eapply mr_step; [|exact RB]. rewrite Ea in *. by apply ms_fall.
  - intros Hc. change [p] with ([p] ++ []). eapply mr_step; [|exact RB]. by apply ms_enter.
Qed.

(** A non-relocatable one is always reached through its cell; code in front of
    it is left with dispatch code. *)
Lemma run_static g p g' a fin i :
  lands g p g' a -> reloc p = false -> (last_jump g <> 0 -> outside (last_jump g)) -> frame g' (c_gen fin) ->
  c_cells fin (cell i) = vm_prims p ->
  mrun fin (At_cell i (state_in (info p))) [p] (cur g' (i + advance p) (state_out (info p))) /\
  mrun fin (cur g i (state_in (info p))) [p] (cur g' (i + advance p) (state_out (info p))).
Proof using EN OG.
  intros L Hr OJ F Hc. destruct (ln_static _ _ _ _ _ _ _ _ _ _ L Hr) as (_ & LJ & LD).
  assert (R : mrun fin (At_cell i (state_in (info p))) [p] (cur g' (i + advance p) (state_out (info p)))).
  { unfold cur. rewrite LJ. apply mrun_one. by apply ms_static. }
  split; [exact R|]. unfold cur at 1. destruct (Z.eqb_spec (last_jump g) 0) as [_|Hne]; [exact R|].
  change [p] with ([] ++ [p]). eapply mr_step; [|exact R]. apply ms_dispatch.
  apply (jump_frame g'); [by apply OJ|done|by apply LD].
Qed.
End Run.

(** ** One iteration *)

Section Emit.
Context (priminfos : Z -> PrimInfo) (super_costs : Z -> cost) (super2 : list Z).
Context (branches_to_ip : Z -> Z) (ip_update0 min_ip_update max_ip_update : Z).
Context (opt_ip_updates opt_ip_updates_branch : Z) (npriminfos : Z).
Context (goto_start goto_len nops : Z) (N_branch : Z) (ip_dead : list Z).
Context (code_area_size : Z) (gforth_alloc : nat -> Z).
Context (ginstps : Z -> Z) (target_at : Z -> Z) (vm_prims : Z -> Z).
Context (maxstates max_super : nat) (ss_cost : Z -> Z).
Context (state_transitions : list Z) (lookup_super : list Z -> option (list Z)).

Abbreviation info := (Rewrite.info super_costs).
Abbreviation cell := (Rewrite.cell ginstps).
Abbreviation reloc := (is_relocatable priminfos false).
Abbreviation frame := (CodeGen.frame code_area_size gforth_alloc).
Abbreviation outside := (Layout.outside priminfos code_area_size gforth_alloc).
Abbreviation usable := (Layout.usable priminfos npriminfos code_area_size gforth_alloc).
Abbreviation lands := (Layout.lands priminfos goto_start goto_len code_area_size gforth_alloc vm_prims).
Abbreviation fits := (Layout.fits priminfos goto_len).
Abbreviation space := (Layout.space code_area_size).
Abbreviation compile_prim_dyn := (CodeGen.compile_prim_dyn priminfos super_costs super2 branches_to_ip
  ip_update0 min_ip_update max_ip_update opt_ip_updates opt_ip_updates_branch false npriminfos goto_start
  goto_len nops N_branch ip_dead code_area_size gforth_alloc ginstps target_at vm_prims).
Abbreviation step_transition := (Rewrite.step_transition priminfos super_costs super2 branches_to_ip
  ip_update0 min_ip_update max_ip_update opt_ip_updates opt_ip_updates_branch false npriminfos goto_start
  goto_len nops N_branch ip_dead code_area_size gforth_alloc ginstps target_at vm_prims).
Abbreviation step_record := (Rewrite.step_record priminfos super_costs false code_area_size).
Abbreviation rewrite_step := (Rewrite.rewrite_step priminfos super_costs super2 branches_to_ip
  ip_update0 min_ip_update max_ip_update opt_ip_updates opt_ip_updates_branch false npriminfos goto_start
  goto_len nops N_branch ip_dead code_area_size gforth_alloc ginstps target_at vm_prims).
Abbreviation rewrite_code := (Rewrite.rewrite_code priminfos super_costs super2 branches_to_ip
  ip_update0 min_ip_update max_ip_update opt_ip_updates opt_ip_updates_branch false npriminfos goto_start
  goto_len nops N_branch ip_dead code_area_size gforth_alloc ginstps target_at vm_prims).
Abbreviation mrun := (Rewrite.mrun priminfos super_costs goto_start goto_len code_area_size gforth_alloc
  ginstps vm_prims state_transitions).
Abbreviation advance := (Rewrite.advance super_costs state_transitions).
Abbreviation inst_ok := (Labels.inst_ok max_super info reloc lookup_super).
Abbreviation trans_ok := (Labels.trans_ok maxstates info state_transitions).

(** What the environment promises of the primitives the tables offer. *)
Record code_env : Prop := {
  ce_gen : gen_env priminfos super_costs opt_ip_updates goto_len code_area_size gforth_alloc ginstps;
  ce_goto : goto_outside goto_start goto_len code_area_size gforth_alloc;
  ce_tables : tables_ok maxstates info ss_cost state_transitions lookup_super;
  ce_transitions : forall s, s ∈ state_transitions ->
    usable s /\ reloc s = true /\ pi_superend (priminfos s) = false /\
    (state_in (info s) <> CANONICAL_STATE \/ state_out (info s) <> CANONICAL_STATE);
  ce_supers : forall key ss s, lookup_super key = Some ss -> s ∈ ss ->
    usable s /\ (s ∉ state_transitions) /\
    (pi_superend (priminfos s) = true -> state_out (info s) = CANONICAL_STATE)
}.
Context (CE : code_env).

Lemma ce_env : exists o, gen_env priminfos super_costs o goto_len code_area_size gforth_alloc ginstps.
Proof using CE. eexists. apply (ce_gen CE). Qed.

(** The invariant of the code generator, and what a compilation step keeps. *)
Record gen_inv (g : gstate) : Prop := {
  gi_ok : gen_ok priminfos goto_len code_area_size gforth_alloc g;
  gi_block : (0 < next_code_block g)%nat;
  gi_jump : last_jump g <> 0 -> outside (last_jump g)
}.

Record gstep (g g' : gstate) : Prop := {
  gs_frame : frame g g';
  gs_area : code_area g' = code_area g;
  gs_block : next_code_block g' = next_code_block g;
  gs_index : inst_index g' = inst_index g
}.

Lemma gstep_refl g : gstep g g.
Proof using. constructor; [apply frame_refl|done..]. Qed.
Lemma gstep_trans g1 g2 g3 : gstep g1 g2 -> gstep g2 g3 -> gstep g1 g3.
Proof using. intros [F1 A1 B1 I1] [F2 A2 B2 I2]. constructor; [by eapply frame_trans|congruence..]. Qed.

(** States that differ in the instruction pointer or index only. *)
Definition same_code (g g' : gstate) : Prop :=
  code_block_list g' = code_block_list g /\ next_code_block g' = next_code_block g /\
  allocated g' = allocated g /\ code_area g' = code_area g /\ code_here g' = code_here g /\
  last_jump g' = last_jump g /\ code_memory g' = code_memory g.

Lemma gen_inv_same g g' : same_code g g' -> gen_inv g -> gen_inv g'.
Proof using.
  intros (E1 & E2 & E3 & E4 & E5 & E6 & E7) [[GB GJ] G2 G3]. constructor; [constructor| |]; rewrite ?E2, ?E6; try done.
  - by apply (blocks_ok_same _ _ g).
  - intros H. destruct (GJ H) as [J1 J2]. split; [done|]. unfold room in *. by rewrite E4, E5.
Qed.

Lemma frame_same_code g g' : same_code g g' -> frame g g'.
Proof using. intros (_ & E2 & _ & E4 & E5 & _ & E7). by apply frame_same. Qed.

Lemma compile_one p ps g :
  gen_inv g -> 0 <= inst_index g -> usable p -> fits (space g) (last_jump g) (p :: ps) = true ->
  exists g' a, compile_prim_dyn p g = Some (g', a) /\ gen_inv g' /\ gstep g g' /\ lands g p g' a /\
    fits (space g') (last_jump g') ps = true.
Proof using CE.
  intros [G1 G2 G3] Hi US HF.
  destruct (compile_step priminfos super_costs super2 branches_to_ip ip_update0 min_ip_update max_ip_update
    opt_ip_updates opt_ip_updates_branch npriminfos goto_start goto_len nops N_branch ip_dead code_area_size
    gforth_alloc ginstps target_at vm_prims p ps g (ce_gen CE) (ce_goto CE) G1 G2 Hi US G3 HF)
    as (g' & a & E & O' & F' & N' & A' & I' & L' & J' & H').
  exists g', a. split; [exact E|]. split; [constructor; [done|by rewrite N'|done]|]. split; [by constructor|]. done.
Qed.

(** *** The transition *)

(** The state in which the instruction is compiled, and the transition. *)
Definition inst_state (t : tpa_state) (k : nat) (nt : bool) : nat :=
  if nt then k else state_out (info (w_inst (way (t_trans t) k))).
Definition trans_prims (t : tpa_state) (k : nat) (nt : bool) : list Z :=
  if nt then [] else [w_inst (way (t_trans t) k)].

Lemma inst_state_ready t k nt :
  (k < maxstates)%nat -> trans_ok t -> ready t k nt ->
  (inst_state t k nt < maxstates)%nat /\ ready t (inst_state t k nt) true.
Proof using CE.
  intros Hk HT HR. destruct nt; [done|]. destruct (HT k Hk HR) as (Hin & _ & H & _). split; [|exact H].
  apply (Tpa.ok_transitions _ _ _ _ _ (ce_tables CE)), Hin.
Qed.

Lemma step_transition_ok t i k nt di g ps :
  (k < maxstates)%nat -> trans_ok t -> ready t k nt ->
  gen_inv g -> 0 <= inst_index g -> fits (space g) (last_jump g) (trans_prims t k nt ++ ps) = true ->
  exists g' tc, step_transition t (mkRegs i k nt di) g = Some (g', tc, inst_state t k nt) /\
    gen_inv g' /\ gstep g g' /\ fits (space g') (last_jump g') ps = true /\
    if nt then g' = g else
      let s := w_inst (way (t_trans t) k) in
      lands g s g' tc /\ s ∈ state_transitions /\ state_in (info s) = k.
Proof using CE.
  intros Hk HT HR GI Hi HF. unfold Rewrite.step_transition, inst_state, trans_prims in *.
  cbn [no_transition nextstate]. destruct nt; cbn [negb].
  - exists g, 0. split; [done|]. split; [done|]. split; [apply gstep_refl|done].
  - destruct (do_transition_ready _ _ _ t k Hk HT HR) as (s & Ed & Es & Hin & Hs & _). rewrite Ed, Es in *.
    cbn [mbind option_bind fst snd app] in *.
    destruct (ce_transitions CE _ Hin) as (US & _).
    destruct (compile_one _ _ g GI Hi US HF) as (g' & a & -> & G' & S' & L' & F'). cbn [mbind option_bind fst snd].
    exists g', a. done.
Qed.
(** *** Recording *)

Lemma record_prim_ok cells area here a tc p len ss ns dyn :
  capacity_ok dyn ->
  exists dyn', record_prim cells area code_area_size here a tc p len ss ns dyn = Some dyn' /\ capacity_ok dyn' /\
    forall b, recorded dyn' b = match recorded dyn b with
                                | Some q => Some q
                                | None => if decide (a = b) then Some (U16 p) else None
                                end.
Proof using.
  intros HC. destruct (dyn_step_ok cells area code_area_size here (Record_prim a tc p len ss ns) dyn HC) as (dyn' & E & HC').
  exists dyn'. split; [exact E|]. split; [exact HC'|]. intros b. by apply (record_prim_recorded _ _ _ _ _ _ _ _ _ _ _ _ b E).
Qed.

(** What the decompiler finds at the cells after [p] was compiled for cell [a]. *)
Definition records (dyn : dynstate) (a p : Z) (dyn' : dynstate) : Prop :=
  forall b, recorded dyn' b = match recorded dyn b with
                              | Some q => Some q
                              | None => if reloc p && bool_decide (a = b) then Some (U16 p) else None
                              end.

Lemma step_record_ok cells gen a tc p sst r dyn :
  capacity_ok dyn ->
  exists dyn' di', step_record cells gen a tc p sst r dyn = Some (dyn', di') /\ capacity_ok dyn' /\
    records dyn a p dyn' /\ (if reloc p then di' <> None else di' = r_di r).
Proof using.
  intros HC. unfold Rewrite.step_record, records. destruct (reloc p).
  - destruct (record_prim_ok cells (code_area gen) (code_here gen) a tc p (Z.of_nat (c_length (info p))) (Z.of_nat sst)
      (Z.of_nat (state_out (info p))) dyn HC) as (dyn' & -> & HC' & R).
    cbn [mbind option_bind]. eexists _, _. split; [done|]. split; [done|]. split; [|done].
    intros b. rewrite R. destruct (recorded dyn b); [done|]. cbn [andb]. by repeat case_decide; repeat case_bool_decide.
  - exists dyn, (r_di r). split; [done|]. split; [done|]. split; [|done]. intros b. by destruct (recorded dyn b).
Qed.

(** *** The whole iteration *)

(** Entering the code of instruction [i] through its cell skips a transition in
    front of a non-relocatable primitive. *)
Definition cell_entry (t : tpa_state) (k : nat) (nt : bool) : Prop :=
  nt = false -> w_relocatable (way (t_trans t) k) = true.

Record iteration (i : nat) (t : tpa_state) (k : nat) (nt : bool) (di : option nat) (ps : list Z)
    (st : cstate) (r' : regs) (st' : cstate) : Prop := {
  it_regs : let w := way (t_inst t) (inst_state t k nt) in
    nextdyn r' = (i + c_length (info (w_inst w)))%nat /\ nextstate r' = state_out (info (w_inst w)) /\
    no_transition r' = w_no_transition w;
  it_inv : gen_inv (c_gen st');
  it_step : gstep (set_inst_index (Z.of_nat i) (c_gen st)) (c_gen st');
  it_fits : fits (space (c_gen st')) (last_jump (c_gen st')) ps = true;
  it_capacity : capacity_ok (c_dyn st');
  it_cells : exists tc, c_cells st' = store (c_cells st) (cell i) tc /\
    let p := w_inst (way (t_inst t) (inst_state t k nt)) in
    (reloc p = false -> tc = vm_prims p) /\ records (c_dyn st) (cell i) p (c_dyn st');
  it_di : let p := w_inst (way (t_inst t) (inst_state t k nt)) in
    if reloc p then r_di r' <> None /\ (pi_superend (priminfos p) = false -> last_jump (c_gen st') <> 0)
    else r_di r' = di;
  it_run : let p := w_inst (way (t_inst t) (inst_state t k nt)) in
    forall fin, frame (c_gen st') (c_gen fin) -> c_cells fin (cell i) = c_cells st' (cell i) ->
    let target := cur (c_gen st') (i + advance p) (state_out (info p)) in
    (last_jump (c_gen st) <> 0 -> mrun fin (cur (c_gen st) i k) (trans_prims t k nt ++ [p]) target) /\
    (cell_entry t k nt -> mrun fin (At_cell i k) (trans_prims t k nt ++ [p]) target)
}.
Abbreviation run_reloc := (Rewrite.run_reloc priminfos super_costs goto_start goto_len code_area_size gforth_alloc
  ginstps vm_prims state_transitions npriminfos).
Abbreviation run_static := (Rewrite.run_static priminfos super_costs goto_start goto_len code_area_size gforth_alloc
  ginstps vm_prims state_transitions).

Lemma advance_transition s : s ∈ state_transitions -> advance s = 0%nat.
Proof using. intros H. unfold Rewrite.advance. by rewrite bool_decide_eq_true_2. Qed.

(** Both ways into the code of one instruction. *)
Lemma run_item (fin : cstate) (i k : nat) (t : tpa_state) (nt : bool) (g g1 g2 : gstate) (tc1 a p : Z) :
  (if nt then g1 = g else
     let s := w_inst (way (t_trans t) k) in lands g s g1 tc1 /\ s ∈ state_transitions /\ state_in (info s) = k) ->
  lands g1 p g2 a -> usable p -> state_in (info p) = inst_state t k nt ->
  (nt = true -> last_jump g <> 0 -> outside (last_jump g)) ->
  frame g1 g2 -> frame g2 (c_gen fin) ->
  (nt = false -> w_relocatable (way (t_trans t) k) = reloc p) ->
  c_cells fin (cell i) = (if nt || negb (reloc p) then a else tc1) ->
  let target := cur g2 (i + advance p) (state_out (info p)) in
  (last_jump g <> 0 -> mrun fin (cur g i k) (trans_prims t k nt ++ [p]) target) /\
  (cell_entry t k nt -> mrun fin (At_cell i k) (trans_prims t k nt ++ [p]) target).
Proof using CE.
  intros HT L US Hs OJ F12 F2 Hrel Hc. pose proof (ce_goto CE) as OG.
  pose proof ce_env as EN.
  assert (Hcur : forall g, last_jump g <> 0 -> forall j q, cur g j q = At_code (code_here g) (last_jump g) j q).
  { intros g0 Hg j q. unfold cur. by rewrite (proj2 (Z.eqb_neq _ _) Hg). }
  cbv zeta. unfold trans_prims, inst_state in *. destruct nt; cbn [app orb] in *; [subst g1; rewrite <- Hs|].
  - destruct (reloc p) eqn:Hr.
    + destruct (run_reloc EN OG g p g2 a fin i L US Hr F2) as [R1 R2].
      split; [intros Hg; rewrite (Hcur g Hg); apply R1|intros _; by apply R2].
    + destruct (ln_static _ _ _ _ _ _ _ _ _ _ L Hr) as (Ea & _).
      destruct (run_static EN OG g p g2 a fin i L Hr (OJ eq_refl) F2) as [R1 R2]; [congruence|].
      by split.
  - set (s := w_inst (way (t_trans t) k)) in *. destruct HT as (Ls & Hin & Hk).
    destruct (ce_transitions CE s Hin) as (Us & Rs & Es & _).
    assert (F1 : frame g1 (c_gen fin)) by (by eapply frame_trans).
    destruct (run_reloc EN OG g s g1 tc1 fin i Ls Us Rs F1) as [S1 S2].
    rewrite (advance_transition s Hin), Nat.add_0_r, Hk in S1, S2.
    destruct (ln_reloc _ _ _ _ _ _ _ _ _ _ Ls Rs) as (_ & _ & LJ). rewrite Es in LJ. destruct LJ as [J1 H1].
    destruct (us_number _ _ _ _ _ Us Rs) as [_ Hz].
    assert (RP : mrun fin (cur g1 i (state_out (info s))) [p] (cur g2 (i + advance p) (state_out (info p)))).
    { rewrite <- Hs. destruct (reloc p) eqn:Hr.
      - rewrite Hcur by congruence. by apply (run_reloc EN OG g1 p g2 a fin i L US Hr F2).
      - destruct (ln_static _ _ _ _ _ _ _ _ _ _ L Hr) as (Ea & _).
        apply (run_static EN OG g1 p g2 a fin i L Hr); [|done|cbn in Hc; congruence].
        intros _. rewrite J1. by apply (us_outside _ _ _ _ _ Us). }
    split.
    + intros Hg. rewrite (Hcur g Hg). change [s; p] with ([s] ++ [p]). eapply mrun_app; [apply S1|exact RP].
    + intros Hce. unfold cell_entry in Hce. rewrite Hrel in Hce by done. rewrite (Hce eq_refl) in Hc.
      change [s; p] with ([s] ++ [p]). eapply mrun_app; [by apply S2|exact RP].
Qed.
Lemma usable_inst origs ts w k : inst_ok origs ts w k -> usable (w_inst w).
Proof using CE. intros (j & ss & b & _ & E & Hss & _). by apply (ce_supers CE _ _ _ E Hss). Qed.

Lemma inst_trans_reloc origs t ts k :
  (k < maxstates)%nat -> trans_ok t -> ready t k false ->
  let k' := inst_state t k false in
  inst_ok origs (t :: ts) (way (t_inst t) k') k' ->
  w_relocatable (way (t_trans t) k) = reloc (w_inst (way (t_inst t) k')).
Proof using.
  intros Hk HT HR k' (j & ss & b & _ & _ & _ & _ & Er & _). destruct (HT k Hk HR) as (_ & _ & _ & Ht).
  unfold k', inst_state in *. congruence.
Qed.

Lemma rewrite_step_ok origs ts i t k nt di st ps :
  let k' := inst_state t k nt in
  let p := w_inst (way (t_inst t) k') in
  (k < maxstates)%nat -> trans_ok t -> ready t k nt -> inst_ok origs (t :: ts) (way (t_inst t) k') k' ->
  gen_inv (c_gen st) -> capacity_ok (c_dyn st) ->
  fits (space (c_gen st)) (last_jump (c_gen st)) (trans_prims t k nt ++ p :: ps) = true ->
  exists r' st', rewrite_step i t (mkRegs i k nt di) st = Some (r', st') /\ iteration i t k nt di ps st r' st'.
Proof using CE.
  intros k' p Hk HT HR HI GI HC HF. pose proof (usable_inst _ _ _ _ HI) as US.
  pose proof (inst_state_ready t k nt Hk HT HR) as [Hk' HR'].
  unfold Rewrite.rewrite_step. cbn [nextdyn nextstate no_transition]. rewrite Nat.eqb_refl. cbv iota.
  set (g := set_inst_index (Z.of_nat i) (c_gen st)).
  assert (SG : same_code (c_gen st) g) by done.
  pose proof (gen_inv_same _ g SG GI) as GI0.
  destruct (step_transition_ok t i k nt di g (p :: ps) Hk HT HR GI0 ltac:(cbn; lia) HF)
    as (g1 & tc1 & -> & G1 & S1 & F1 & LT). cbn [mbind option_bind]. fold k' p.
  destruct (inst_ok_selected _ _ _ _ _ _ _ (ce_tables CE) _ _ _ _ HI HR') as (_ & _ & _ & _ & Ea & _).
  fold k' p in Ea |- *. rewrite Ea.
  destruct (compile_one p ps g1 G1) as (g2 & a & -> & G2 & S2 & L2 & F2); [by rewrite (gs_index _ _ S1); cbn; lia|done|done|].
  cbn [mbind option_bind]. set (x := if nt || negb (reloc p) then (a, k') else (tc1, k)).
  assert (Ex : fst x = if nt || negb (reloc p) then a else tc1) by (unfold x; destruct nt, (reloc p); done).
  destruct x as [tc sst]. cbn [fst] in Ex.
  set (g3 := if negb (reloc p) then _ else g2).
  assert (SG3 : same_code g2 g3) by (unfold g3; by destruct (reloc p)).
  destruct (step_record_ok (c_cells st) g3 (cell i) tc p sst (mkRegs i k nt di) (c_dyn st) HC)
    as (dyn' & di' & -> & HC' & RS & HD). cbn [mbind option_bind fst snd].
  eexists _, _. split; [done|].
  assert (E3 : last_jump g3 = last_jump g2 /\ space g3 = space g2) by (unfold g3, Layout.space; by destruct (reloc p)).
  destruct E3 as [EJ ES].
  constructor; cbn [c_gen c_dyn c_cells nextdyn nextstate no_transition r_di]; cbv zeta; fold k' p.
  - done.
  - by apply (gen_inv_same g2).
  - apply (gstep_trans _ g1); [exact S1|]. apply (gstep_trans _ g2); [exact S2|].
    constructor; [by apply frame_same_code|unfold g3; by destruct (reloc p)..].
  - by rewrite EJ, ES.
  - exact HC'.
  - exists tc. split; [done|]. split; [|exact RS]. intros Hr. rewrite Ex, Hr, orb_true_r.
    by destruct (ln_static _ _ _ _ _ _ _ _ _ _ L2 Hr).
  - destruct (reloc p) eqn:Hr; [|exact HD]. split; [exact HD|]. intros Hs. rewrite EJ.
    destruct (ln_reloc _ _ _ _ _ _ _ _ _ _ L2 Hr) as (_ & _ & LJ). rewrite Hs in LJ. destruct LJ as [-> _].
    by apply (us_number _ _ _ _ _ US Hr).
  - intros fin FF Hc. rewrite store_eq in Hc.
    assert (Ecur : forall j q, cur g3 j q = cur g2 j q) by (intros j q; unfold cur; rewrite EJ; unfold g3; by destruct (reloc p)).
    rewrite Ecur.
    apply (run_item fin i k t nt g g1 g2 tc1 a p LT L2 US); [| |apply S2| | |].
    + destruct HI as (? & ? & ? & _ & _ & _ & H & _). exact H.
    + intros _ Hg. by apply GI0.
    + eapply frame_trans; [|exact FF]. by apply frame_same_code.
    + intros ->. by apply (inst_trans_reloc origs t ts).
    + by rewrite Hc, Ex.
Qed.
(** ** The whole loop *)

Abbreviation labelled := (Labels.labelled maxstates max_super info reloc state_transitions lookup_super).
Abbreviation first p := (nth (offset (super_costs p)) super2 0).

(** Only the end of the block ends straight-line code. *)
Definition ends_ok (origs : list Z) : Prop :=
  forall m j ss s, (1 <= j)%nat -> (m + j <= length origs)%nat ->
    lookup_super (take j (drop m origs)) = Some ss -> s ∈ ss -> pi_superend (priminfos s) = true ->
    (m + j)%nat = length origs.

(** What the decompiler needs to know about the cell [a] of instruction [o]. *)
Inductive cell_ok (fin : cstate) (a o : Z) : Prop :=
| co_dynamic p key ss :
    lookup_super (o :: key) = Some ss -> p ∈ ss -> reloc p = true -> recorded (c_dyn fin) a = Some (U16 p) ->
    cell_ok fin a o
| co_static p key ss :
    lookup_super (o :: key) = Some ss -> p ∈ ss -> reloc p = false ->
    recorded (c_dyn fin) a = None -> c_cells fin a = vm_prims p -> cell_ok fin a o
| co_skipped :
    recorded (c_dyn fin) a = None -> c_cells fin a = vm_prims o -> cell_ok fin a o.

Lemma cell_ok_same fin fin' a o :
  recorded (c_dyn fin') a = recorded (c_dyn fin) a -> c_cells fin' a = c_cells fin a ->
  cell_ok fin a o -> cell_ok fin' a o.
Proof using.
  intros E1 E2 [p key ss H1 H2 H3 H4|p key ss H1 H2 H3 H4 H5|H1 H2].
  - eapply co_dynamic; [done..|congruence].
  - eapply co_static; [done|done|done|congruence|congruence].
  - apply co_skipped; congruence.
Qed.

(** Code generation and bookkeeping from instruction [i] to the end. *)
Record emitted (i : nat) (origs : list Z) (st st' : cstate) : Prop := {
  em_inv : gen_inv (c_gen st');
  em_frame : frame (c_gen st) (c_gen st');
  em_area : code_area (c_gen st') = code_area (c_gen st);
  em_capacity : capacity_ok (c_dyn st');
  em_outside : forall a, (forall j, (i <= j < i + length origs)%nat -> a <> cell j) ->
    c_cells st' a = c_cells st a /\ recorded (c_dyn st') a = recorded (c_dyn st) a;
  em_cells : (forall j, (i <= j < i + length origs)%nat -> recorded (c_dyn st) (cell j) = None) ->
    forall m o, origs !! m = Some o -> cell_ok st' (cell (i + m)) o
}.

Lemma cell_inj i j : cell i = cell j -> i = j.
Proof using CE.
  intros E. unfold Rewrite.cell in E. destruct (Nat.lt_trichotomy i j) as [H|[H|H]]; [|done|];
    [pose proof (ge_cells _ _ _ _ _ _ _ (ce_gen CE) (Z.of_nat i) (Z.of_nat j) ltac:(lia) ltac:(lia))
    |pose proof (ge_cells _ _ _ _ _ _ _ (ce_gen CE) (Z.of_nat j) (Z.of_nat i) ltac:(lia) ltac:(lia))]; lia.
Qed.

Lemma recorded_set_end f n di l c c' a :
  recorded (mkDyn (alter (fun d => set_end (f d) n d) di l) c) a = recorded (mkDyn l c') a.
Proof using.
  unfold recorded, dynamic_info3. cbn [dynamicinfos]. rewrite !list_find_tcp. f_equal.
  revert di. induction l as [|d l IH]; intros [|di]; try done.
  cbn [alter list_alter omap list_omap]. destruct (decide (tcp d = a)); [f_equal|]; apply IH.
Qed.
(** The emitted code runs: entered behind the code before it, or through the
    cell, it executes exactly the primitives of the cover. *)
Definition runs_ok (i skip n k : nat) (nt : bool) (b : tpa_state) (prims : list Z) (st st' : cstate) : Prop :=
  forall fin, frame (c_gen st') (c_gen fin) ->
    (forall j, (i <= j < i + n)%nat -> c_cells fin (cell j) = c_cells st' (cell j)) ->
    let target := cur (c_gen st') (i + n) CANONICAL_STATE in
    (last_jump (c_gen st) <> 0 -> mrun fin (cur (c_gen st) (i + skip) k) prims target) /\
    (cell_entry b k nt -> (skip < n)%nat \/ last_jump (c_gen st) = 0 ->
     mrun fin (At_cell (i + skip) k) prims target).

(** A transition follows a relocatable primitive of this block, or precedes one. *)
Definition linked (b : tpa_state) (k : nat) (nt : bool) (di : option nat) (st : cstate) : Prop :=
  nt = false -> w_relocatable (way (t_trans b) k) = true \/ (last_jump (c_gen st) <> 0 /\ di <> None).

Lemma emitted_refl i st : gen_inv (c_gen st) -> capacity_ok (c_dyn st) -> emitted i [] st st.
Proof using.
  intros GI HC. by constructor.
Qed.

Lemma append_ip_update_off g :
  append_ip_update priminfos ip_update0 min_ip_update max_ip_update opt_ip_updates ginstps 0 g = Some (g, 0).
Proof using CE. unfold append_ip_update. by rewrite (ge_opt _ _ _ _ _ _ _ (ce_gen CE)). Qed.

Lemma rewrite_end_ok i t k nt di st evs :
  (forall k, (k < maxstates)%nat -> ready t k true -> k = CANONICAL_STATE) ->
  (forall k, (k < maxstates)%nat -> ready t k false -> w_relocatable (way (t_trans t) k) = false) ->
  trans_ok t -> (k < maxstates)%nat -> ready t k nt ->
  rewrite_loop info [t] 0 k nt = Some evs ->
  gen_inv (c_gen st) -> capacity_ok (c_dyn st) -> linked t k nt di st ->
  fits (space (c_gen st)) (last_jump (c_gen st)) (compiled_prims evs) = true ->
  inst_index (c_gen st) = Z.of_nat i - 1 -> 0 <= inst_index (c_gen st) ->
  exists st', rewrite_code i [t] (mkRegs (i + 0) k nt di) st = Some st' /\ emitted i [] st st' /\
    runs_ok i 0 0 k nt t (compiled_prims evs) st st'.
Proof using CE.
  intros Hend Hrel HT Hk HR Hev GI HC HL HF Hx Hx0. cbn [Rewrite.rewrite_code]. unfold rewrite_end.
  rewrite Hx, Z.eqb_refl, append_ip_update_off. cbn [negb].
  cbn [fmap option_fmap option_map mbind option_bind fst no_transition nextstate nextdyn r_di].
  cbn [rewrite_loop] in Hev. destruct nt; cbn [negb] in *.
  - rewrite (Hend k Hk HR) in *. rewrite Nat.eqb_refl in *. injection Hev as <-.
    exists st. split; [by destruct st|]. split; [by apply emitted_refl|].
    intros fin _ _. rewrite !Nat.add_0_r. split; [constructor|]. intros _ [?|Hj]; [lia|].
    unfold cur. rewrite Hj. constructor.
  - destruct (do_transition_ready _ _ _ t k Hk HT HR) as (s & Ed & Es & Hin & Hs & HO & _). rewrite Ed in *.
    cbn [mbind option_bind fst snd Nat.eqb andb] in *.
    assert (Ho : state_out (info s) = CANONICAL_STATE).
    { apply Hend; [|done]. apply (Tpa.ok_transitions _ _ _ _ _ (ce_tables CE)), Hin. }
    rewrite Ho, Nat.eqb_refl in *. injection Hev as <-.
    destruct (HL eq_refl) as [Hf|[Hj Hdi]]; [by rewrite (Hrel k Hk HR) in Hf|].
    destruct di as [di|]; [|done]. rewrite Nat.add_0_r, Nat.eqb_refl. cbn [negb].
    destruct (ce_transitions CE s Hin) as (US & Rs & Ss & _).
    destruct (compile_one s [] (c_gen st) GI Hx0 US HF) as (g' & a & -> & G' & S' & L' & _).
    cbn [mbind option_bind fst snd]. eexists. split; [done|]. split.
    + constructor; cbn [c_gen c_dyn c_cells length]; [done|apply S'|apply S'| | |].
      * apply (capacity_ok_shrink (c_dyn st)); [by rewrite length_alter|done].
      * intros b _. split; [done|]. apply (recorded_set_end _ _ _ _ _ (capacity (c_dyn st))).
      * intros _ m o H. done.
    + intros fin FF _. cbn [c_gen]. rewrite !Nat.add_0_r. split.
      * intros _. unfold cur at 1. rewrite (proj2 (Z.eqb_neq _ _) Hj).
        pose proof ce_env as EN.
        destruct (run_reloc EN (ce_goto CE) _ s g' a fin i L' US Rs FF) as [R _].
        rewrite (advance_transition s Hin), Nat.add_0_r, Hs, Ho in R. apply R.
      * intros Hce. unfold cell_entry in Hce. rewrite (Hrel k Hk HR) in Hce. by discriminate (Hce eq_refl).
Qed.
(** *** The loop *)

Lemma emitted_cons i o rest st st1 st' tc :
  frame (c_gen st) (c_gen st1) -> code_area (c_gen st1) = code_area (c_gen st) ->
  c_cells st1 = store (c_cells st) (cell i) tc ->
  (forall b, b <> cell i -> recorded (c_dyn st1) b = recorded (c_dyn st) b) ->
  (recorded (c_dyn st) (cell i) = None -> cell_ok st1 (cell i) o) ->
  emitted (S i) rest st1 st' -> emitted i (o :: rest) st st'.
Proof using CE.
  intros F A C R H0 [E1 E2 E3 E4 E5 E6]. constructor; [done|by eapply frame_trans|congruence|done| |].
  - intros a Ha. destruct (E5 a) as [-> ->]; [intros j Hj; apply Ha; cbn [length]; lia|].
    assert (Hi : a <> cell i) by (apply Ha; cbn [length]; lia).
    split; [|by apply R]. rewrite C. by apply store_ne.
  - intros Hn [|m] o' Ho; cbn [lookup list_lookup] in Ho.
    + injection Ho as <-. rewrite Nat.add_0_r.
      destruct (E5 (cell i)) as [H1 H2]; [intros j Hj E; apply cell_inj in E; lia|].
      apply (cell_ok_same st1); [done|done|]. apply H0, Hn. cbn [length]. lia.
    + replace (i + S m)%nat with (S i + m)%nat by lia. apply E6; [|done].
      intros j Hj. rewrite R; [apply Hn; cbn [length]; lia|]. intros E. apply cell_inj in E. lia.
Qed.

Lemma ends_ok_tail p rest : ends_ok (p :: rest) -> ends_ok rest.
Proof using.
  intros H m j ss s Hj Hm E Hs Hse. specialize (H (S m) j ss s Hj). cbn [length drop] in H.
  specialize (H ltac:(lia) E Hs Hse). lia.
Qed.

(** The cell of a skipped component holds the static code of its instruction. *)
Lemma skipped_first origs ts t o rest :
  origs = o :: rest -> inst_ok origs ts (way (t_inst t) CANONICAL_STATE) CANONICAL_STATE ->
  (forall key ss s, lookup_super key = Some ss -> s ∈ ss -> first s = hd 0 key) ->
  first (w_inst (way (t_inst t) CANONICAL_STATE)) = o.
Proof using.
  intros -> (j & ss & b & Hj & E & Hss & _) HF. rewrite (HF _ _ _ E Hss). destruct j as [|j]; [lia|done].
Qed.

Lemma chosen_cell_ok origs ts t k i o rest st st' :
  origs = o :: rest -> inst_ok origs ts (way (t_inst t) k) k ->
  let p := w_inst (way (t_inst t) k) in
  (exists tc, c_cells st' = store (c_cells st) (cell i) tc /\
     (reloc p = false -> tc = vm_prims p) /\ records (c_dyn st) (cell i) p (c_dyn st')) ->
  recorded (c_dyn st) (cell i) = None -> cell_ok st' (cell i) o.
Proof using.
  intros -> (j & ss & b & Hj & E & Hss & _) p (tc & Ec & Hst & R) Hn. destruct j as [|j]; [lia|].
  cbn [take] in E. specialize (R (cell i)). rewrite Hn, bool_decide_eq_true_2, andb_true_r in R by done.
  fold p in Hss. destruct (reloc p) eqn:Hr.
  - by apply (co_dynamic _ _ _ p (take j rest) ss).
  - apply (co_static _ _ _ p (take j rest) ss); try done. rewrite Ec, store_eq. by apply Hst.
Qed.

Lemma recorded_other dyn a p dyn' b : records dyn a p dyn' -> b <> a -> recorded dyn' b = recorded dyn b.
Proof using.
  intros R Hb. rewrite R. rewrite bool_decide_eq_false_2 by done. rewrite andb_false_r. by destruct (recorded dyn b).
Qed.
Lemma rewrite_loop_inst t t' ts k nt evs :
  (k < maxstates)%nat -> trans_ok t -> ready t k nt ->
  rewrite_loop info (t :: t' :: ts) 0 k nt = Some evs ->
  let w := way (t_inst t) (inst_state t k nt) in
  exists evs',
    rewrite_loop info (t' :: ts) (c_length (info (w_inst w)) - 1) (state_out (info (w_inst w))) (w_no_transition w)
      = Some evs' /\
    compiled_prims evs = trans_prims t k nt ++ w_inst w :: compiled_prims evs'.
Proof using.
  intros Hk HT HR. rewrite rewrite_loop_cons. cbn [Nat.eqb]. unfold inst_state, trans_prims.
  destruct nt; cbn [negb].
  - cbn [mbind option_bind fst snd]. cbv zeta. destruct (_ || _); [done|].
    destruct (rewrite_loop _ _ _ _ _) as [evs'|]; [|done]. intros [= <-]. by exists evs'.
  - destruct (do_transition_ready _ _ _ t k Hk HT HR) as (s & -> & -> & _). cbn [mbind option_bind fst snd]. cbv zeta.
    destruct (_ || _); [done|].
    destruct (rewrite_loop _ _ _ _ _) as [evs'|]; [|done]. intros [= <-]. by exists evs'.
Qed.

Context (FIRST : forall key ss s, lookup_super key = Some ss -> s ∈ ss -> first s = hd 0 key).

(** Execution continues with the next instruction of the cover. *)
Lemma runs_ok_cur i skip n k nt b prims st st' fin :
  runs_ok i skip n k nt b prims st st' -> linked b k nt None st \/ last_jump (c_gen st) <> 0 ->
  frame (c_gen st') (c_gen fin) ->
  (forall j, (i <= j < i + n)%nat -> c_cells fin (cell j) = c_cells st' (cell j)) ->
  mrun fin (cur (c_gen st) (i + skip) k) prims (cur (c_gen st') (i + n) CANONICAL_STATE).
Proof using.
  intros R HL FF HC. destruct (R fin FF HC) as [R1 R2].
  destruct (Z.eq_dec (last_jump (c_gen st)) 0) as [Hz|Hz]; [|by apply R1].
  unfold cur at 1. rewrite Hz, Z.eqb_refl. apply R2; [|by right].
  intros Hnt. destruct HL as [HL|HL]; [|done]. destruct (HL Hnt) as [H|[_ H]]; [exact H|done].
Qed.

Lemma runs_ok_cons i t k nt di ps st r' st1 st' j n b' prims :
  iteration i t k nt di ps st r' st1 ->
  let p := w_inst (way (t_inst t) (inst_state t k nt)) in
  advance p = S j -> (j <= n)%nat ->
  frame (c_gen st1) (c_gen st') -> c_cells st' (cell i) = c_cells st1 (cell i) ->
  linked b' (state_out (info p)) (no_transition r') None st1 \/ last_jump (c_gen st1) <> 0 ->
  runs_ok (S i) j n (state_out (info p)) (no_transition r') b' prims st1 st' ->
  runs_ok i 0 (S n) k nt t (trans_prims t k nt ++ p :: prims) st st'.
Proof using.
  intros IT p Hadv Hj F Hc HL R fin FF HC. pose proof (it_run _ _ _ _ _ _ _ _ _ IT) as RI. cbv zeta in RI. fold p in RI.
  destruct (RI fin) as [R1 R2]; [by eapply frame_trans|by rewrite HC by lia|].
  pose proof (runs_ok_cur _ _ _ _ _ _ _ _ _ fin R HL FF ltac:(intros q Hq; apply HC; lia)) as RC.
  rewrite Hadv in R1, R2. replace (S i + j)%nat with (i + S j)%nat in RC by lia.
  replace (S i + n)%nat with (i + S n)%nat in RC by lia. rewrite Nat.add_0_r.
  replace (trans_prims t k nt ++ p :: prims) with ((trans_prims t k nt ++ [p]) ++ prims) by (by rewrite <- app_assoc).
  split.
  - intros Hg. eapply mrun_app; [by apply R1|exact RC].
  - intros Hce _. eapply mrun_app; [by apply R2|exact RC].
Qed.
(** Behind a chosen instruction the loop's state is as the labels promise. *)
Lemma iteration_linked p0 rest t ts i k nt di ps st r' st1 :
  labelled rest ts -> ends_ok (p0 :: rest) ->
  let k' := inst_state t k nt in let w := way (t_inst t) k' in let p := w_inst w in
  inst_ok (p0 :: rest) (t :: ts) w k' ->
  iteration i t k nt di ps st r' st1 ->
  exists j b, (j <= length rest)%nat /\ advance p = S j /\ nextdyn r' = (S i + j)%nat /\
    c_length (info p) = S j /\ ts !! j = Some b /\ (state_out (info p) < maxstates)%nat /\
    ready b (state_out (info p)) (no_transition r') /\
    linked b (state_out (info p)) (no_transition r') (r_di r') st1 /\
    (linked b (state_out (info p)) (no_transition r') None st1 \/ last_jump (c_gen st1) <> 0).
Proof using CE.
  intros HL HE k' w p (j & ss & b & Hj & E & Hss & _ & _ & Eb & HR & Hrel) IT. fold p in Hss, HR, Hrel.
  destruct (ce_supers CE _ _ _ E Hss) as (US & Hnt & Hse).
  destruct (Tpa.ok_supers _ _ _ _ _ (ce_tables CE) _ _ _ E Hss) as (_ & Ho & Hl).
  rewrite length_take in Hl. cbn [length] in Hj, Hl. destruct j as [|j]; [lia|].
  rewrite Nat.min_l in Hl by lia. destruct (it_regs _ _ _ _ _ _ _ _ _ IT) as (Rn & _ & Rt).
  fold k' w p in Rn, Rt. rewrite <- Rt in HR, Hrel. cbn [lookup list_lookup] in Eb.
  exists j, b. split; [lia|]. split; [unfold Rewrite.advance; by rewrite bool_decide_eq_false_2|].
  split; [rewrite Rn, Hl; lia|]. do 3 (split; [done|]). split; [exact HR|].
  pose proof (it_di _ _ _ _ _ _ _ _ _ IT) as HD. cbv zeta in HD. fold k' w p in HD.
  destruct (reloc p) eqn:Hr.
  - destruct HD as [Hdi Hlj]. destruct (pi_superend (priminfos p)) eqn:Hs.
    + assert (Hend : (0 + S j)%nat = length (p0 :: rest)).
      { apply (HE 0%nat (S j) ss p); try done; cbn [length]; lia. }
      cbn [length] in Hend. assert (j = length rest) as -> by lia.
      rewrite (Hse eq_refl) in HR |- *. pose proof (labelled_end _ _ _ _ _ _ _ (ce_tables CE) rest ts b _ (fun s H => proj2 (proj2 (proj2 (ce_transitions CE s H)))) HL Eb HR) as Ht.
      split; [|left]; intros Hf; congruence.
    + split; [intros _; right; by split; [apply Hlj|]|right; by apply Hlj].
  - split; [|left]; intros Hf; left; by apply Hrel.
Qed.

Lemma rewrite_code_ok origs ts :
  labelled origs ts -> forall i skip k nt di st b evs,
  ts !! skip = Some b -> (k < maxstates)%nat -> ready b k nt ->
  rewrite_loop info ts skip k nt = Some evs ->
  gen_inv (c_gen st) -> capacity_ok (c_dyn st) ->
  fits (space (c_gen st)) (last_jump (c_gen st)) (compiled_prims evs) = true ->
  linked b k nt di st -> ends_ok origs -> Forall (fun t => ready t CANONICAL_STATE true) ts ->
  (origs = [] -> inst_index (c_gen st) = Z.of_nat i - 1 /\ (0 < i)%nat) ->
  exists st', rewrite_code i ts (mkRegs (i + skip) k nt di) st = Some st' /\ emitted i origs st st' /\
    runs_ok i skip (length origs) k nt b (compiled_prims evs) st st'.
Proof using CE FIRST.
  induction 1 as [t Hend Hrel HT|p rest t ts Hl IH HI HT]; intros i skip k nt di st b evs Eb Hk HR Hev GI HC HF HL HE HCan Hx.
  - destruct skip as [|skip]; [|done]. injection Eb as <-. destruct (Hx eq_refl) as [Hx1 Hx2].
    apply (rewrite_end_ok i t k nt di st evs); try done. lia.
  - pose proof (labelled_length _ _ _ _ _ _ _ _ Hl) as L. destruct ts as [|t' ts]; [done|].
    apply Forall_cons_1 in HCan as [HCt HCan]. pose proof (ends_ok_tail _ _ HE) as HE'.
    change (rewrite_code i (t :: t' :: ts) (mkRegs (i + skip) k nt di) st)
      with (x ← rewrite_step i t (mkRegs (i + skip) k nt di) st; rewrite_code (S i) (t' :: ts) (fst x) (snd x)).
    destruct skip as [|skip].
    + injection Eb as <-. rewrite Nat.add_0_r. destruct (rewrite_loop_inst t t' ts k nt evs Hk HT HR Hev) as (evs' & Hev' & Ec).
      destruct (inst_state_ready t k nt Hk HT HR) as [Hk' HR']. pose proof (HI _ Hk' HR') as HIp.
      rewrite Ec in HF |- *.
      destruct (rewrite_step_ok _ (t' :: ts) i t k nt di st (compiled_prims evs') Hk HT HR HIp GI HC HF) as (r' & st1 & -> & IT).
      cbn [mbind option_bind fst snd].
      destruct (iteration_linked p rest t (t' :: ts) i k nt di _ st r' st1 Hl HE HIp IT)
        as (j & b' & Hj & Hadv & Rn & Hlen & Eb' & Ho & HR2 & HL2 & HL3).
      destruct (it_regs _ _ _ _ _ _ _ _ _ IT) as (_ & Rs & Rt). rewrite Hlen, Nat.sub_succ, Nat.sub_0_r, <- Rt in Hev'.
      destruct (IH (S i) j _ (no_transition r') (r_di r') st1 b' evs' Eb' Ho HR2 Hev') as (st' & E & EM & RU); try done.
      1-3: by apply IT.
      { intros _. rewrite (gs_index _ _ (it_step _ _ _ _ _ _ _ _ _ IT)). cbn. lia. }
      destruct r' as [rn rs rt rd]. cbn [nextdyn nextstate no_transition r_di] in *. subst rn rs.
      exists st'. split; [exact E|]. destruct (it_cells _ _ _ _ _ _ _ _ _ IT) as (tc & Ecl & Hst & Hrec).
      split.
      * apply (emitted_cons i p rest st st1 st' tc); try done.
        -- eapply frame_trans; [|apply (gs_frame _ _ (it_step _ _ _ _ _ _ _ _ _ IT))]. by apply frame_same_code.
        -- by rewrite (gs_area _ _ (it_step _ _ _ _ _ _ _ _ _ IT)).
        -- intros c Hc. by apply (recorded_other _ _ _ _ _ Hrec).
        -- apply (chosen_cell_ok _ (t :: t' :: ts) t (inst_state t k nt) i p rest st st1 eq_refl HIp). by exists tc.
      * apply (runs_ok_cons i t k nt di (compiled_prims evs') st _ st1 st' j (length rest) b' _ IT); try done; [apply EM|].
        apply EM. intros q Hq E'. apply cell_inj in E'. lia.
    + cbn [lookup list_lookup] in Eb. rewrite rewrite_loop_cons in Hev. cbn [Nat.eqb] in Hev.
      rewrite Nat.sub_succ, Nat.sub_0_r in Hev.
      destruct (rewrite_loop info (t' :: ts) skip k nt) as [evs'|] eqn:Hev'; [|done].
      cbn [mbind option_bind] in Hev. injection Hev as <-.
      change (compiled_prims (Static _ :: evs')) with (compiled_prims evs') in *.
      pose proof (HI _ (Tpa.ok_canonical _ _ _ _ _ (ce_tables CE)) HCt) as HI0.
      unfold Rewrite.rewrite_step. cbn [nextdyn]. rewrite (proj2 (Nat.eqb_neq i (i + S skip)) ltac:(lia)).
      rewrite (skipped_first (p :: rest) (t :: t' :: ts) t p rest eq_refl HI0 FIRST).
      cbn [mbind option_bind fst snd]. set (st1 := mkC _ (c_dyn st) _).
      assert (SG : same_code (c_gen st) (c_gen st1)) by done.
      replace (i + S skip)%nat with (S i + skip)%nat by lia.
      destruct (IH (S i) skip k nt di st1 b evs' Eb Hk HR Hev') as (st' & E & EM & RU); try done.
      { by apply (gen_inv_same (c_gen st)). }
      { intros _. cbn. lia. }
      exists st'. split; [exact E|]. split.
      * apply (emitted_cons i p rest st st1 st' (vm_prims p)); try done.
        intros Hn. apply co_skipped; [done|]. apply store_eq.
      * intros fin FF Hc. destruct (RU fin FF ltac:(intros q Hq; apply Hc; cbn [length]; lia)) as [R1 R2].
        cbn [length]. replace (i + S (length rest))%nat with (S i + length rest)%nat by lia.
        replace (i + S skip)%nat with (S i + skip)%nat by lia. split; [exact R1|].
        intros Hce Hor. apply R2; [exact Hce|]. destruct Hor as [Hor|Hor]; [left; lia|by right].
Qed.
(** ** The whole block *)

Abbreviation emit_block := (Rewrite.emit_block priminfos super_costs super2 branches_to_ip
  ip_update0 min_ip_update max_ip_update opt_ip_updates opt_ip_updates_branch false npriminfos goto_start
  goto_len nops N_branch ip_dead code_area_size gforth_alloc ginstps target_at vm_prims).
Abbreviation compile_block := (Rewrite.compile_block priminfos super_costs super2 branches_to_ip
  ip_update0 min_ip_update max_ip_update opt_ip_updates opt_ip_updates_branch false npriminfos goto_start
  goto_len nops N_branch ip_dead code_area_size gforth_alloc ginstps target_at vm_prims maxstates max_super
  ss_cost state_transitions lookup_super).
Abbreviation compile_block_auto := (Rewrite.compile_block_auto priminfos super_costs super2 branches_to_ip
  ip_update0 min_ip_update max_ip_update opt_ip_updates opt_ip_updates_branch false npriminfos goto_start
  goto_len nops N_branch ip_dead code_area_size gforth_alloc ginstps target_at vm_prims maxstates max_super
  ss_cost state_transitions lookup_super).
Abbreviation super_size := (CodeGen.super_size priminfos false goto_len).

(** [reserve_code_super] reserves what compiling [prims] takes, with or without
    the dispatch code of the primitive before pending. *)
Definition reserved (origs prims : list Z) (lj : Z) : Prop :=
  let size := CODE_ALIGNMENT - 1 + super_size None origs in
  0 < size <= code_area_size /\ fits size lj prims = true /\ fits size 0 prims = true.

(** The result of compiling a block: it is entered behind the code generated
    before, or through its first cell. *)
Record block_done (n : nat) (origs prims : list Z) (st st' : cstate) : Prop := {
  bd_inv : gen_inv (c_gen st');
  bd_frame : frame (c_gen st) (c_gen st');
  bd_capacity : capacity_ok (c_dyn st');
  bd_outside : forall a, (forall j, (j < n)%nat -> a <> cell j) ->
    c_cells st' a = c_cells st a /\ recorded (c_dyn st') a = recorded (c_dyn st) a;
  bd_cells : (forall j, (j < n)%nat -> recorded (c_dyn st) (cell j) = None) ->
    forall m o, origs !! m = Some o -> cell_ok st' (cell m) o;
  bd_run : forall fin, frame (c_gen st') (c_gen fin) ->
    (forall j, (j < n)%nat -> c_cells fin (cell j) = c_cells st' (cell j)) ->
    forall m, m = At_cell 0 CANONICAL_STATE \/ m = cur (c_gen st) 0 CANONICAL_STATE ->
    mrun fin m prims (cur (c_gen st') n CANONICAL_STATE)
}.

(** Falling into the block after [reserve_code_super], which may have begun a
    new code block. *)
Lemma reserved_entry g0 g fin k prims target :
  (last_jump g0 <> 0 -> outside (last_jump g0)) ->
  (g = g0 \/ last_jump g = 0 /\
     (last_jump g0 <> 0 -> jump_at priminfos goto_start goto_len code_area_size gforth_alloc g (code_here g0) (last_jump g0))) ->
  frame g (c_gen fin) ->
  mrun fin (At_cell 0 k) prims target -> (last_jump g <> 0 -> mrun fin (cur g 0 k) prims target) ->
  mrun fin (cur g0 0 k) prims target.
Proof using CE.
  intros OJ Hg F RC R. destruct (Z.eq_dec (last_jump g0) 0) as [Hz|Hz].
  { unfold cur. by rewrite Hz. }
  destruct Hg as [->|[_ Hj]]; [by apply R|]. unfold cur. rewrite (proj2 (Z.eqb_neq _ _) Hz).
  change prims with ([] ++ prims). eapply mr_step; [|exact RC]. apply ms_dispatch.
  eapply (jump_frame _ _ _ _ _ _ _ ce_env (ce_goto CE) g); [by apply OJ|done|by apply Hj].
Qed.

Lemma emit_block_ok origs ts evs st :
  labelled origs ts -> origs <> [] -> Forall (fun t => ready t CANONICAL_STATE true) ts ->
  (forall t, head ts = Some t -> w_cost (way (t_trans t) CANONICAL_STATE) <> INF_COST) ->
  rewrite info ts = Some evs -> ends_ok origs ->
  reserved origs (compiled_prims evs) (last_jump (c_gen st)) ->
  gen_ok priminfos goto_len code_area_size gforth_alloc (c_gen st) ->
  (last_jump (c_gen st) <> 0 -> outside (last_jump (c_gen st))) -> capacity_ok (c_dyn st) ->
  exists st', emit_block origs ts st = Some st' /\
    block_done (length origs) origs (compiled_prims evs) st st'.
Proof using CE FIRST.
  intros HL Hne HCan Hfin Hev HE (Hsz & HF1 & HF2) GO OJ HC. unfold rewrite in Hev. unfold Rewrite.emit_block.
  destruct ts as [|t ts]; [by inversion HL|]. cbn [head mbind option_bind] in *.
  set (v := way (t_trans t) CANONICAL_STATE) in *. set (nt := negb (w_relocatable v) || w_no_transition v) in *.
  set (g0 := set_inst_index 0 (c_gen st)).
  assert (GO0 : gen_ok priminfos goto_len code_area_size gforth_alloc g0).
  { destruct GO as [B J]. constructor; [by apply (blocks_ok_same _ _ (c_gen st))|exact J]. }
  destruct (reserve_layout priminfos super_costs ip_update0 min_ip_update max_ip_update opt_ip_updates goto_start
    goto_len nops code_area_size gforth_alloc ginstps _ g0 (ce_gen CE) GO0 OJ (ce_goto CE) Hsz)
    as (g & Er & Og & Fg & Ng & Sg & Ig & Hg).
  unfold CodeGen.reserve_code_super. rewrite Er. cbn [fmap option_fmap option_map fst mbind option_bind].
  set (st1 := mkC (set_ip_at (cell 0) g) (c_dyn st) (c_cells st)).
  assert (SG : same_code g (c_gen st1)) by done.
  assert (GI : gen_inv g).
  { constructor; [done|done|]. destruct Hg as [->|[Hz _]]; [exact OJ|by rewrite Hz]. }
  assert (HF : fits (space (c_gen st1)) (last_jump (c_gen st1)) (compiled_prims evs) = true).
  { change (space (c_gen st1)) with (space g). change (last_jump (c_gen st1)) with (last_jump g).
    destruct Hg as [Hg|[-> _]]; [rewrite Hg at 2|]; by eapply fits_mono. }
  assert (HR : ready t CANONICAL_STATE nt).
  { apply Forall_cons_1 in HCan as [H _]. unfold nt. destruct (negb _ || _) eqn:C; [exact H|].
    apply orb_false_iff in C as [_ C]. split; [by apply Hfin|exact C]. }
  assert (HLk : cell_entry t CANONICAL_STATE nt).
  { intros Hn. unfold nt in Hn. apply orb_false_iff in Hn as [Hn _]. by apply negb_false_iff in Hn. }
  destruct (rewrite_code_ok origs (t :: ts) HL 0 0 CANONICAL_STATE nt None st1 t evs eq_refl
    (Tpa.ok_canonical _ _ _ _ _ (ce_tables CE)) HR Hev) as (st' & E & EM & RU); try done.
  { by apply (gen_inv_same g). }
  { intros Hn. left. by apply HLk. }
  cbn [Nat.add] in E. rewrite E. cbn [mbind option_bind].
  rewrite (em_area _ _ _ _ EM : code_area (c_gen st') = code_area g), Z.eqb_refl.
  exists st'. split; [done|]. destruct EM as [E1 E2 _ E4 E5 E6].
  assert (Fst : frame (c_gen st) (c_gen st')).
  { apply (frame_trans _ _ _ g0); [by apply frame_same|]. apply (frame_trans _ _ _ g); [done|].
    apply (frame_trans _ _ _ (c_gen st1)); [by apply frame_same|done]. }
  constructor; [done|exact Fst|done| | |].
  - intros a Ha. apply E5. intros j Hj. apply Ha. lia.
  - intros Hn m o Ho. apply (E6 ltac:(intros j Hj; apply Hn; lia) m o Ho).
  - intros fin FF Hcl m Hm. destruct (RU fin FF ltac:(intros j Hj; apply Hcl; lia)) as [R1 R2]. cbn [Nat.add] in R1, R2.
    assert (RC : mrun fin (At_cell 0 CANONICAL_STATE) (compiled_prims evs) (cur (c_gen st') (length origs) CANONICAL_STATE)).
    { apply R2; [exact HLk|]. left. destruct origs; [done|cbn [length]; lia]. }
    destruct Hm as [->| ->]; [exact RC|].
    apply (reserved_entry g0 g fin); [exact OJ|exact Hg|apply (frame_trans _ _ _ (c_gen st1))|exact RC|exact R1].
    + by apply frame_same.
    + by eapply frame_trans.
Qed.
(** Compiling a block, from the tables to the code. *)
Lemma compile_block_ok origs st :
  (0 < length origs <= MAX_BB)%nat -> feasible max_super info lookup_super origs -> ends_ok origs ->
  exists evs,
    optimize_rewrite maxstates max_super info ss_cost reloc state_transitions lookup_super
      (make_termstate maxstates info ss_cost state_transitions) origs = Some evs /\
    cover max_super info state_transitions lookup_super true origs CANONICAL_STATE (compiled_prims evs) /\
    (reserved origs (compiled_prims evs) (last_jump (c_gen st)) ->
     gen_ok priminfos goto_len code_area_size gforth_alloc (c_gen st) ->
     (last_jump (c_gen st) <> 0 -> outside (last_jump (c_gen st))) -> capacity_ok (c_dyn st) ->
     exists st', compile_block origs st = Some st' /\
       block_done (length origs) origs (compiled_prims evs) st st').
Proof using CE FIRST.
  intros Hn HF HE. pose proof (ce_tables CE) as OK.
  destruct (optimize_rewrite_total maxstates max_super info ss_cost reloc state_transitions lookup_super OK origs
    ltac:(lia) HF) as (evs & E & Hc).
  exists evs. split; [exact E|]. split; [exact Hc|]. intros HR GO OJ HC.
  unfold Rewrite.compile_block. destruct origs as [|p rest]; [cbn in Hn; lia|].
  apply emit_block_ok; try done.
  - apply (label_labelled _ _ _ _ _ _ _ OK).
  - apply (label_canonical_ready _ _ _ _ _ _ _ OK); [lia|done].
  - intros t Ht. rewrite label_head in Ht. injection Ht as <-. apply (lab_canonical_trans _ _ _ _ _ _ _ OK); [lia|done].
Qed.
(** ** When the reservation suffices *)

Abbreviation cover := (Tpa.cover max_super info state_transitions lookup_super).

Lemma cover_end_nil out : cover true [] CANONICAL_STATE out -> out = [].
Proof using CE.
  intros H. inversion H as [| |? ? ? Hc|? s ? Hin Hc Eq Hs]; subst.
  - by apply cover_nil in Hc as [_ ->].
  - apply cover_nil in Hc as [Ho _]. destruct (ce_transitions CE s Hin) as (_ & _ & _ & [H'|H']); done.
Qed.

(** Only the last primitive of a cover ends straight-line code. *)
Lemma cover_straight tr origs k out :
  cover tr origs k out -> ends_ok origs ->
  forall i p, out !! i = Some p -> pi_superend (priminfos p) = true -> S i = length out.
Proof using CE.
  induction 1 as [|origs j ss s out Hj E Hss Hc IH|origs k out Hc IH|origs s out Hin Hc IH]; intros HE i p Hi Hp.
  - done.
  - assert (HE' : ends_ok (drop j origs)).
    { intros m j' ss' s' Hj' Hm E' Hs' Hse'. rewrite drop_drop in E'. rewrite length_drop in Hm |- *.
      pose proof (HE (j + m)%nat j' ss' s' Hj' ltac:(lia) E' Hs' Hse'). lia. }
    destruct i as [|i]; cbn [lookup list_lookup] in Hi; [|cbn [length]; by rewrite (IH HE' i p Hi Hp)].
    injection Hi as <-. pose proof (HE 0%nat j ss s ltac:(lia) ltac:(cbn; lia) E Hss Hp) as Hl. cbn in Hl.
    destruct (ce_supers CE _ _ _ E Hss) as (_ & _ & Hse). rewrite (Hse Hp), Hl, drop_all in Hc.
    by rewrite (cover_end_nil _ Hc).
  - by apply (IH HE i p).
  - destruct i as [|i]; cbn [lookup list_lookup] in Hi.
    + injection Hi as <-. destruct (ce_transitions CE s Hin) as (_ & _ & Hs & _). congruence.
    + cbn [length]. by rewrite (IH HE i p Hi Hp).
Qed.

Definition code_length (ps : list Z) : Z := foldr (fun p n => pi_length (priminfos p) + n) 0 ps.

Lemma code_length_nonneg ps : 0 <= code_length ps.
Proof using CE.
  induction ps as [|p ps IH]; [done|]. cbn [code_length foldr]. fold (code_length ps).
  destruct (ge_len _ _ _ _ _ _ _ (ce_gen CE) p). lia.
Qed.

Lemma fits_straight R sp lj out :
  (forall p, p ∈ out -> reloc p = true) -> 0 <= R ->
  (forall p, p ∈ out -> pi_restlength (priminfos p) <= R) ->
  (forall i p, out !! i = Some p -> pi_superend (priminfos p) = true -> S i = length out) ->
  code_length out + R + goto_len + CODE_ALIGNMENT - 1 <= sp -> fits sp lj out = true.
Proof using CE.
  intros AR HR. revert sp lj. induction out as [|p out IH]; intros sp lj Hrest Hend Hsp; [done|].
  cbn [Layout.fits]. rewrite AR by left. cbn [code_length foldr] in Hsp. fold (code_length out) in Hsp.
  pose proof (code_length_nonneg out) as H0.
  pose proof (Hrest p ltac:(left)) as Hp. apply andb_true_iff. split; [apply Z.leb_le; lia|].
  destruct (pi_superend (priminfos p)) eqn:Hs.
  - pose proof (Hend 0%nat p eq_refl Hs) as Hl. destruct out; [done|cbn [length] in Hl; lia].
  - apply IH; [intros q Hq; apply AR; by right|intros q Hq; apply Hrest; by right| |lia]. intros i q Hi Hq. apply (Hend (S i) q) in Hq; [|done].
    cbn [length] in Hq. lia.
Qed.

Lemma super_size_all prev origs :
  (forall p, p ∈ origs -> reloc p = true) -> origs <> [] ->
  super_size prev origs = code_length origs + pi_restlength (priminfos (List.last origs 0)) + goto_len.
Proof using.
  revert prev. induction origs as [|p origs IH]; [done|]. intros prev AR _. cbn [CodeGen.super_size code_length foldr].
  rewrite AR by left. fold (code_length origs). destruct origs as [|q origs].
  - cbn. lia.
  - rewrite IH by (done || (intros r Hr; apply AR; by right)). change (List.last (p :: q :: origs) 0) with (List.last (q :: origs) 0). lia.
Qed.

Lemma total_cost_code_length ps :
  (forall p, ss_cost p = pi_length (priminfos p)) -> total_cost ss_cost ps = code_length ps.
Proof using. intros H. induction ps as [|p ps IH]; [done|]. cbn [total_cost code_length foldr]. rewrite H. by f_equal. Qed.

(** Instructions compiled as themselves cover the block. *)
Lemma cover_self origs :
  (1 <= max_super)%nat ->
  (forall p, p ∈ origs -> exists ss, lookup_super [p] = Some ss /\ p ∈ ss /\
     state_in (info p) = CANONICAL_STATE /\ state_out (info p) = CANONICAL_STATE) ->
  cover true origs CANONICAL_STATE origs.
Proof using.
  intros Hm. induction origs as [|p origs IH]; intros H; apply cv_notrans; [constructor|].
  destruct (H p ltac:(left)) as (ss & E & Hin & Hi & Ho). rewrite <- Hi at 1.
  apply (cv_inst _ _ _ _ (p :: origs) 1 ss p); [cbn [length]; lia|done|done|]. rewrite Ho.
  apply IH. intros q Hq. apply H. by right.
Qed.

Lemma code_size_reserved origs evs lj :
  (0 < length origs <= MAX_BB)%nat -> ends_ok origs -> (1 <= max_super)%nat ->
  (forall p, block_primitive lookup_super origs p -> reloc p = true) ->
  (forall p, ss_cost p = pi_length (priminfos p)) ->
  (forall p, p ∈ origs -> exists ss, lookup_super [p] = Some ss /\ p ∈ ss /\
     state_in (info p) = CANONICAL_STATE /\ state_out (info p) = CANONICAL_STATE) ->
  (forall p, block_primitive lookup_super origs p \/ p ∈ state_transitions ->
     pi_restlength (priminfos p) <= pi_restlength (priminfos (List.last origs 0))) ->
  CODE_ALIGNMENT - 1 + super_size None origs <= code_area_size ->
  optimize_rewrite maxstates max_super info ss_cost reloc state_transitions lookup_super
    (make_termstate maxstates info ss_cost state_transitions) origs = Some evs ->
  reserved origs (compiled_prims evs) lj.
Proof using CE.
  intros Hn HE Hm AR Hcost Hself Hrest Hsz Hev. pose proof (cover_self origs Hm Hself) as Hc.
  destruct (optimize_rewrite_block _ max_super _ _ _ _ _ origs origs (ce_tables CE) AR Hn Hc) as (evs' & E & Hcov & HB).
  rewrite Hev in E. injection E as <-. pose proof (HB _ Hc) as Hle.
  rewrite !total_cost_code_length in Hle by done. pose proof (cover_primitives _ _ _ _ _ _ _ _ Hcov) as HP.
  assert (Hne : origs <> []) by (by destruct origs; [cbn in Hn; lia|]).
  assert (AO : forall p, p ∈ origs -> reloc p = true).
  { intros p Hp. apply AR. destruct (cover_primitives _ _ _ _ _ _ _ _ Hc p Hp) as [H|H]; [done|].
    destruct (Hself p Hp) as (ss & Es & Hin & _). by destruct (ce_supers CE _ _ _ Es Hin) as (_ & Hx & _). }
  pose proof (super_size_all None origs AO Hne) as Hs.
  set (R := pi_restlength (priminfos (List.last origs 0))) in *.
  destruct (ge_len _ _ _ _ _ _ _ (ce_gen CE) (List.last origs 0)) as [_ HR]. fold R in HR.
  pose proof (ge_goto _ _ _ _ _ _ _ (ce_gen CE)) as Hg.
  assert (HF : forall l, fits (CODE_ALIGNMENT - 1 + super_size None origs) l (compiled_prims evs) = true).
  { intros l. apply (fits_straight R); [|done|intros p Hp; by apply Hrest, HP| |lia].
    { intros p Hp. destruct (HP p Hp) as [H|H]; [by apply AR|by apply (ce_transitions CE)]. }
    by apply (cover_straight true origs CANONICAL_STATE). }
  pose proof (code_length_nonneg origs) as H0.
  split; [unfold CODE_ALIGNMENT in *; lia|]. by split.
Qed.
(** ** With the automaton *)

Lemma rewrite_step_shift i x r st : shiftable x -> rewrite_step i (shift x) r st = rewrite_step i (snd x) r st.
Proof using.
  intros (Hd & Hi & Ht). unfold Rewrite.rewrite_step, Rewrite.step_transition, do_transition, shift, shift_state.
  cbn [t_inst t_trans]. destruct (shift_way_spec (fst x) _ (nextstate r) Hd Ht) as (-> & _ & _ & ->).
  destruct (shift_way_spec (fst x) _ CANONICAL_STATE Hd Hi) as (-> & _).
  destruct (i =? nextdyn r)%nat; [|done].
  match goal with |- (?m ≫= _) = _ => destruct m as [[[g tc] ns]|] end; [|done]. cbn [mbind option_bind]. cbv zeta.
  by destruct (shift_way_spec (fst x) _ ns Hd Hi) as (-> & -> & _ & ->).
Qed.

Lemma rewrite_code_shift i rs r st :
  Forall shiftable rs -> rewrite_code i (map shift rs) r st = rewrite_code i (map snd rs) r st.
Proof using.
  revert i r st. induction rs as [|x rs IH]; intros i r st; [done|]. intros [SX SR]%Forall_cons_1. cbn [map].
  destruct rs as [|y rs].
  - pose proof SX as (Hd & _ & Ht). cbn [map Rewrite.rewrite_code]. unfold rewrite_end, do_transition, shift, shift_state.
    cbn [t_trans]. by destruct (shift_way_spec (fst x) _ (nextstate r) Hd Ht) as (-> & _ & _ & ->).
  - change (rewrite_code i (shift x :: map shift (y :: rs)) r st)
      with (z ← rewrite_step i (shift x) r st; rewrite_code (S i) (map shift (y :: rs)) (fst z) (snd z)).
    change (rewrite_code i (snd x :: map snd (y :: rs)) r st)
      with (z ← rewrite_step i (snd x) r st; rewrite_code (S i) (map snd (y :: rs)) (fst z) (snd z)).
    rewrite rewrite_step_shift by done. destruct (rewrite_step i (snd x) r st) as [z|]; [|done].
    cbn [mbind option_bind]. by apply IH.
Qed.

Lemma emit_block_shift origs rs st : Forall shiftable rs -> emit_block origs (map shift rs) st = emit_block origs (map snd rs) st.
Proof using.
  intros SH. unfold Rewrite.emit_block. destruct rs as [|x rs]; [done|]. pose proof SH as [(Hd & _ & Ht) _]%Forall_cons_1.
  cbn [map head mbind option_bind].
  destruct (shift_way_spec (fst x) _ CANONICAL_STATE Hd Ht) as (_ & W2 & W3 & _).
  change (map (shift_way (fst x)) (t_trans (snd x))) with (t_trans (shift x)) in W2, W3. rewrite W2, W3.
  destruct (CodeGen.reserve_code_super _ _ _ _ _ _ _ _ _ _ _ _ _ _) as [g|]; [|done]. cbn [mbind option_bind].
  by rewrite (rewrite_code_shift _ (x :: rs)).
Qed.
End Emit.

(** ** Properties *)


(** C11: the tree-parsing automaton generates the same code: with tables without
    superinstructions, and whatever states and transitions earlier compilation
    has left in its store, a block is compiled to the same machine code, cells
    and decompilation information as with dynamic programming, or fails the same
    way; the store stays valid.
    (For blocks of at most [MAX_BB] instructions, each of which can be
    compiled by itself, and bounded costs.) *)
Theorem automaton_same_code (priminfos : Z -> PrimInfo) (super_costs : Z -> cost) (super2 : list Z)
    (branches_to_ip : Z -> Z) (ip_update0 min_ip_update max_ip_update opt_ip_updates opt_ip_updates_branch : Z)
    (npriminfos goto_start goto_len nops N_branch : Z) (ip_dead : list Z) (code_area_size : Z)
    (gforth_alloc : nat -> Z) (ginstps target_at vm_prims : Z -> Z) (maxstates max_super : nat) (ss_cost : Z -> Z)
    (state_transitions : list Z) (lookup_super : list Z -> option (list Z))
    (noequiv : bool) (term_ix : nat) (origs : list Z) (ts : tpa_store) (st : cstate) :
  let info := Rewrite.info super_costs in
  let reloc := is_relocatable priminfos false in
  let valid := store_ok maxstates max_super info ss_cost reloc state_transitions lookup_super term_ix in
  tables_ok maxstates info ss_cost state_transitions lookup_super ->
  (forall key ss, lookup_super key = Some ss -> length key = 1%nat) ->
  (length origs <= MAX_BB)%nat -> feasible max_super info lookup_super origs -> valid ts ->
  let '(ts', r) := compile_block_auto priminfos super_costs super2 branches_to_ip ip_update0 min_ip_update max_ip_update
    opt_ip_updates opt_ip_updates_branch false npriminfos goto_start goto_len nops N_branch ip_dead code_area_size
    gforth_alloc ginstps target_at vm_prims maxstates max_super ss_cost state_transitions lookup_super noequiv term_ix
    origs ts st in
  valid ts' /\
  r = compile_block priminfos super_costs super2 branches_to_ip ip_update0 min_ip_update max_ip_update opt_ip_updates
        opt_ip_updates_branch false npriminfos goto_start goto_len nops N_branch ip_dead code_area_size gforth_alloc
        ginstps target_at vm_prims maxstates max_super ss_cost state_transitions lookup_super origs st.
Proof.
  intros info reloc valid OK S1 Hn HF HS. unfold compile_block_auto, compile_block. fold info reloc.
  destruct origs as [|p rest]; [done|].
  pose proof (label_auto_ok maxstates max_super info ss_cost reloc state_transitions lookup_super S1 noequiv term_ix
    (p :: rest) ts HS) as H.
  destruct (label_auto _ _ _ _ _ _ _ _ _ (p :: rest) ts) as [ts' ids]. destruct H as (H1 & _ & F).
  split; [exact H1|]. rewrite (states_of_Forall2 _ _ _ F).
  destruct (auto_list_shift maxstates max_super info ss_cost reloc state_transitions lookup_super OK S1 (p :: rest) Hn HF)
    as (rs & -> & <- & SH). by apply emit_block_shift.
Qed.

(** *** Two instructions with register-state versions, as in [Tpa], in 128-byte
    code blocks; instruction 2 ends straight-line code. *)
Definition demo_emit_infos (p : Z) : PrimInfo :=
  mkPrimInfo 1000 2 (demo_ss_cost p) 4 ((p =? 2) || (p =? 4)) 0 0 [].
Definition demo_emit_costs (p : Z) : cost :=
  mkSuperCost 0 0 0 (demo_cost_info p) 0 0 (if (p =? 1) || (p =? 3) then 1%nat else 2%nat) false.
Definition demo_blocks (k : nat) : Z := 4096 + 128 * Z.of_nat k.
Definition demo_cstate : cstate := mkC (init_gstate 128 (fun x => x)) init_dynstate (fun _ => 0).

Lemma demo_length p : 3 <= demo_ss_cost p <= 12.
Proof. unfold demo_ss_cost. destruct (_ || _); [lia|]. destruct (_ || _); [lia|]. destruct (_ =? _); lia. Qed.

Lemma demo_infos_outside p : Layout.outside demo_emit_infos 128 demo_blocks p.
Proof.
  pose proof (demo_length p).
  constructor; intros j Hj k; unfold in_block, demo_blocks, demo_emit_infos in *; cbn [pi_length pi_start pi_restlength] in *; lia.
Qed.

Lemma demo_usable p : 0 < p < 10 -> usable demo_emit_infos 10 128 demo_blocks p.
Proof. intros Hp. constructor; intros _; [apply demo_infos_outside|lia]. Qed.

Lemma demo_lookup_cases key ss s :
  demo_lookup key = Some ss -> s ∈ ss -> key = [1] /\ (s = 1 \/ s = 3) \/ key = [2] /\ (s = 2 \/ s = 4).
Proof.
  unfold demo_lookup. intros E Hs. repeat (destruct (decide _); subst); try done; injection E as <-;
    rewrite !elem_of_cons, elem_of_nil in Hs; first [left; split; [done|tauto]|right; split; [done|tauto]].
Qed.

Lemma demo_code_env : code_env demo_emit_infos demo_emit_costs 0 10 2000 3 128 demo_blocks (fun i => i) 2 demo_ss_cost [5; 6] demo_lookup.
Proof.
  constructor.
  - constructor; try (intros; unfold CODE_ALIGNMENT; cbn; lia).
    + split; [unfold BH; lia|reflexivity].
    + intros k. unfold demo_blocks, CODE_ALIGNMENT. split; [lia|]. Z.div_mod_to_equations. lia.
    + intros j k H. unfold demo_blocks. lia.
    + intros p. pose proof (demo_length p). cbn. lia.
    + intros p. pose proof (demo_length p). unfold CODE_ALIGNMENT. cbn. lia.
    + intros p _. cbn. unfold demo_cost_info. repeat (destruct (_ =? _); [cbn; lia|]). cbn. lia.
  - intros j Hj k. unfold in_block, demo_blocks. lia.
  - apply demo_tables_ok.
  - intros s Hs. repeat (apply elem_of_cons in Hs as [->|Hs];
      [split; [by apply demo_usable|]; split; [done|]; split; [done|]; vm_compute; by (left + right)|]).
    by apply not_elem_of_nil in Hs.
  - intros key ss s E Hs. split; [apply demo_usable; destruct (demo_lookup_cases _ _ _ E Hs) as [[_ [-> | ->]]|[_ [-> | ->]]]; lia|].
    destruct (demo_lookup_cases _ _ _ E Hs) as [[_ [-> | ->]]|[_ [-> | ->]]];
      (split; [rewrite !elem_of_cons, elem_of_nil; lia|by vm_compute]).
Qed.


(** [reserve_code_super] counts the [restlength] of the last instruction only,
    [append_prim] asks for that of each: with a longer ending of instruction 1,
    48 bytes are left and 42 are reserved, but the code for instruction 1 asks
    for 68, so that the final assertion of [optimize_rewrite] fails. *)
Definition demo_ending_infos (rest p : Z) : PrimInfo :=
  mkPrimInfo 1000 2 10 (if (p =? 1) || (p =? 3) then rest else 4) ((p =? 2) || (p =? 4)) 0 0 [].
Definition demo_nearly_full : cstate :=
  mkC (mkG 4096 4176 0 1 0 0 [(4096, 128)] 1 1 (fun _ => 0) [] (fun x => x)) init_dynstate (fun _ => 0).

Abbreviation demo_compile rest :=
  (compile_block (demo_ending_infos rest) demo_emit_costs [0; 1; 2] (fun _ => 0) 0 0 0 0 0 false 10 2000 3 3000 0 [] 128
    demo_blocks (fun i => i) (fun _ => 0) (fun p => 500 + p) 2 2 (fun _ => 10) [] demo_lookup [1; 2] demo_nearly_full).

Lemma ending_outgrows_reservation :
  CODE_ALIGNMENT - 1 + super_size (demo_ending_infos 40) false 3 None [1; 2] = 42 /\
  (fun st => code_area (c_gen st)) <$> demo_compile 4 = Some 4096 /\ demo_compile 40 = None.
Proof. split; [reflexivity|]. split; vm_compute; reflexivity. Qed.

Definition demo_term : tpa_state := make_termstate 2 demo_cost_info demo_ss_cost [5; 6].

Lemma automaton_same_code_witness :
  (fun c => map (c_cells c) [0; 1]) <$>
    snd (compile_block_auto demo_emit_infos demo_emit_costs [0; 1; 2] (fun _ => 0) 0 0 0 0 0 false 10 2000 3 3000 0 [] 128
      demo_blocks (fun i => i) (fun _ => 0) (fun p => 500 + p) 2 2 demo_ss_cost [5; 6] demo_lookup false 0 [1; 2]
      (mkStore [demo_term] [] ∅) demo_cstate) =
  Some [4096; 4102].
Proof.
  pose proof (automaton_same_code demo_emit_infos demo_emit_costs [0; 1; 2] (fun _ => 0) 0 0 0 0 0 10 2000 3 3000 0 [] 128
    demo_blocks (fun i => i) (fun _ => 0) (fun p => 500 + p) 2 2 demo_ss_cost [5; 6] demo_lookup false 0 [1; 2]
    (mkStore [demo_term] [] ∅) demo_cstate demo_tables_ok) as H.
  destruct (compile_block_auto _ _ _ _ _ _ _ _ _ _ _ _ _ _ _ _ _ _ _ _ _ _ _ _ _ _ _ _ _ _ _) as [ts' r].
  destruct H as [_ ->].
  - intros key ss. unfold demo_lookup. by repeat (destruct (decide _); subst).
  - cbn. unfold MAX_BB. lia.
  - split; [lia|]. intros p Hp. exists (if p =? 1 then [1; 3] else [2; 4]), p.
    repeat (apply elem_of_cons in Hp as [->|Hp]; [split; [reflexivity|]; split; [by left|done]|]).
    by apply not_elem_of_nil in Hp.
  - constructor; [reflexivity|]. intros p b i H. by apply not_elem_of_nil in H.
  - vm_compute. reflexivity.
Defined.
