(* ===== verification/Program.v ===== *)
(** * Compiling a program

    The composition of the components: the generated tables are prepared
    ([Supers]), the cells of a program are collected into basic blocks
    ([BasicBlocks]), every block is compiled ([Rewrite]), and the decompiler
    ([DynInfo]) reads the result back. *)
From Stdlib Require Import Sorted.
From stdpp Require Import sorting.
From S2P Require Import Prelude Memory Tpa Labels Prims Supers PrimSearch CheckPrims CodeGen Layout DynInfo Rewrite BasicBlocks.

(** ** Decompiling a block *)

Lemma prim_index_at (prims : list Z) k code :
  NoDup prims -> (forall x, x ∈ prims -> x <> 0) -> prims !! k = Some code ->
  prim_index (prims ++ [0]) code = Some (Z.of_nat k).
Proof.
  intros ND Hz Hk. destruct (prim_index_from_ok 0 prims code Hz) as (p & E & H).
  unfold prim_index. rewrite E. f_equal. destruct H as [[_ H]|(j & -> & Hj & _)].
  - by destruct H; apply list_elem_of_lookup; exists k.
  - by rewrite (NoDup_lookup _ _ _ _ ND Hk Hj).
Qed.

Section Decompile.
Context (prims : list Z) (super_costs : list cost) (super2 : list Z).
Context (priminfos : Z -> PrimInfo) (lookup_super : list Z -> option (list Z)).

Abbreviation cost_of := (cost_at super_costs).
Abbreviation labels := (prims ++ [0]).
Abbreviation label_of := (fun p => nth (Z.to_nat p) labels 0).
Abbreviation cell_ok := (Rewrite.cell_ok priminfos label_of lookup_super).

(** What the tables promise: the primitives have different labels, and variants
    of a sequence begin with its first instruction. *)
Record decompile_env : Prop := {
  de_distinct : NoDup prims;
  de_nonnull : forall x, x ∈ prims -> x <> 0;
  de_number : forall key ss s, lookup_super key = Some ss -> s ∈ ss -> 0 <= s < Z.of_nat (length prims) /\ s < 65536;
  de_base : forall key ss s o, lookup_super (o :: key) = Some ss -> s ∈ ss -> base_prim super_costs super2 s = o
}.
Context (DE : decompile_env).

(** The instruction is found whether its code was generated dynamically, is
    static, or is part of a superinstruction that starts earlier. *)
Lemma decompile_cell fin a o :
  0 <= o < Z.of_nat (length prims) -> base_prim super_costs super2 o = o ->
  cell_ok fin a o ->
  fetch_decompile_prim (c_cells fin) labels super_costs super2 (c_dyn fin) a = prims !! Z.to_nat o.
Proof using DE.
  intros Ho Hb H.
  assert (HL : forall p, 0 <= p < Z.of_nat (length prims) -> prim_label labels p = prims !! Z.to_nat p).
  { intros p Hp. unfold prim_label. rewrite (proj2 (Z.ltb_ge _ _)) by lia. apply lookup_app_l. lia. }
  assert (HI : forall p, 0 <= p < Z.of_nat (length prims) -> prim_index labels (label_of p) = Some p).
  { intros p Hp. destruct (lookup_lt_is_Some_2 prims (Z.to_nat p)) as [x Ex]; [lia|].
    rewrite (nth_lookup_Some _ _ _ x) by (by rewrite lookup_app_l by lia).
    rewrite (prim_index_at prims (Z.to_nat p) x) by (done || apply DE). by rewrite Z2Nat.id by lia. }
  unfold fetch_decompile_prim.
  destruct H as [p key ss E Hp Hr R|p key ss E Hp Hr R Hc|R Hc]; unfold recorded in R;
    destruct (dynamic_info3 (c_dyn fin) a) as [[i di]|]; try done.
  - cbn in R. injection R as R. destruct (de_number DE _ _ _ E Hp) as [_ H16].
    destruct (de_number DE _ _ _ E Hp) as [[H0 _] _].
    rewrite R. unfold U16. rewrite Z.mod_small by lia. rewrite (de_base DE _ _ _ _ E Hp). by apply HL.
  - rewrite Hc. destruct (de_number DE _ _ _ E Hp) as [Hn _]. rewrite (HI p Hn). cbn [mbind option_bind].
    rewrite (proj2 (Z.ltb_ge _ _)) by lia. rewrite (de_base DE _ _ _ _ E Hp). by apply HL.
  - rewrite Hc, (HI o Ho). cbn [mbind option_bind]. rewrite (proj2 (Z.ltb_ge _ _)) by lia. rewrite Hb. by apply HL.
Qed.
End Decompile.

(** ** Executing the events of compile_prim1 *)

(** What [compile_prim1] keeps between the calls besides the pending block: the
    compiled code, and its array [instps], which [ginstps] points to. *)
Record pstate := mkP { p_code : cstate; p_instps : Z -> Z }.

Section Events.
Context (priminfos : Z -> PrimInfo) (super_costs : Z -> cost) (super2 : list Z).
Context (branches_to_ip : Z -> Z) (ip_update0 min_ip_update max_ip_update : Z).
Context (opt_ip_updates opt_ip_updates_branch : Z) (npriminfos : nat).
Context (goto_start goto_len nops : Z) (N_branch : Z) (ip_dead : list Z).
Context (code_area_size : Z) (gforth_alloc : nat -> Z).
Context (target_at : Z -> Z) (vm_prims : Z -> Z).
Context (maxstates max_super : nat) (ss_cost : Z -> Z).
Context (state_transitions : list Z) (lookup_super : list Z -> option (list Z)).
(** The cell in front of the array [instps]. *)
Context (before : Z).

(** The addresses of the block's instructions, then that of the cell behind
    the last one; the entries behind it are not read. *)
Definition block_instps (block : list (Z * Z)) (i : Z) : Z :=
  if i <? 0 then before
  else match map fst block !! Z.to_nat i with
       | Some a => a
       | None => let '(a, p) := List.last block (0, 0) in
                 a + imm_ops (super_costs p) + 1 + (i - Z.of_nat (length block))
       end.

Abbreviation compile_block instps := (Rewrite.compile_block priminfos super_costs super2 branches_to_ip
  ip_update0 min_ip_update max_ip_update opt_ip_updates opt_ip_updates_branch false (Z.of_nat npriminfos) goto_start
  goto_len nops N_branch ip_dead code_area_size gforth_alloc instps target_at vm_prims maxstates max_super
  ss_cost state_transitions lookup_super).
Abbreviation append_jump instps := (CodeGen.append_jump priminfos ip_update0 min_ip_update max_ip_update
  opt_ip_updates goto_start goto_len nops instps).

Definition run_event (ev : bb_event) (st : pstate) : option pstate :=
  let c := p_code st in
  match ev with
  | BasicBlocks.Rewrite [] => Some st
  | BasicBlocks.Rewrite block =>
      c ← compile_block (block_instps block) (map snd block) c; Some (mkP c (block_instps block))
  | CodeWord a code =>
      g ← append_jump (p_instps st) (c_gen c); Some (mkP (mkC g (c_dyn c) (store (c_cells c) a code)) (p_instps st))
  | AlignCode => Some (mkP (mkC (align_code nops (c_gen c)) (c_dyn c) (c_cells c)) (p_instps st))
  end.

Fixpoint run_events (evs : list bb_event) (st : pstate) : option pstate :=
  match evs with
  | [] => Some st
  | ev :: evs => st ← run_event ev st; run_events evs st
  end.

(** *** What a compiled program promises *)

Abbreviation info := (Rewrite.info super_costs).
Abbreviation reloc := (is_relocatable priminfos false).
Abbreviation outside := (Layout.outside priminfos code_area_size gforth_alloc).
Abbreviation frame := (CodeGen.frame code_area_size gforth_alloc).
Abbreviation cover := (Tpa.cover max_super info state_transitions lookup_super).
Abbreviation cell_ok := (Rewrite.cell_ok priminfos vm_prims lookup_super).
Abbreviation mrun instps := (Rewrite.mrun priminfos super_costs goto_start goto_len code_area_size gforth_alloc
  instps vm_prims state_transitions).
Abbreviation env instps := (gen_env priminfos super_costs opt_ip_updates goto_len code_area_size gforth_alloc instps).
Abbreviation code_env instps := (Rewrite.code_env priminfos super_costs opt_ip_updates (Z.of_nat npriminfos) goto_start
  goto_len code_area_size gforth_alloc instps maxstates ss_cost state_transitions lookup_super).

Definition event_addrs (ev : bb_event) : list Z := map cell_addr (handled ev).

Definition cell_done (fin : cstate) (c : compiled_cell) : Prop :=
  match c with Instruction a p => cell_ok fin a p | Code a code => c_cells fin a = code end.

(** Execution is at instruction [n], in the canonical state. *)
Definition arrives (n : nat) (m : mstate) : Prop :=
  match m with At_cell i k | At_code _ _ i k => i = n /\ k = CANONICAL_STATE end.

(** Entered through its first cell, the block executes a cover of its
    instructions and continues behind them. *)
Definition block_runs (block : list (Z * Z)) (fin : cstate) : Prop :=
  exists prims m, cover true (map snd block) CANONICAL_STATE prims /\
    mrun (block_instps block) fin (At_cell 0 CANONICAL_STATE) prims m /\ arrives (length block) m.

(** A block that can be compiled in the space reserved for it. *)
Record block_fine (block : list (Z * Z)) : Prop := {
  bf_length : (length block <= MAX_BB)%nat;
  bf_feasible : feasible max_super info lookup_super (map snd block);
  bf_ends : ends_ok priminfos lookup_super (map snd block);
  bf_fits : forall evs lj,
    optimize_rewrite maxstates max_super info ss_cost reloc state_transitions lookup_super
      (make_termstate maxstates info ss_cost state_transitions) (map snd block) = Some evs ->
    reserved priminfos goto_len code_area_size (map snd block) (compiled_prims evs) lj
}.
Definition event_fine (ev : bb_event) : Prop :=
  match ev with BasicBlocks.Rewrite [] => True | BasicBlocks.Rewrite block => block_fine block | _ => True end.

Record prog_inv (st : pstate) : Prop := {
  pv_gen : gen_ok priminfos goto_len code_area_size gforth_alloc (c_gen (p_code st));
  pv_jump : last_jump (c_gen (p_code st)) <> 0 -> outside (last_jump (c_gen (p_code st)));
  pv_instps : last_jump (c_gen (p_code st)) <> 0 -> env (p_instps st);
  pv_dyn : capacity_ok (c_dyn (p_code st))
}.

(** One event, or a sequence of them, has been executed. *)
Record done_ok (evs : list bb_event) (st st' : pstate) : Prop := {
  dn_inv : prog_inv st';
  dn_frame : frame (c_gen (p_code st)) (c_gen (p_code st'));
  dn_outside : forall a, a ∉ concat (map event_addrs evs) ->
    c_cells (p_code st') a = c_cells (p_code st) a /\ recorded (c_dyn (p_code st')) a = recorded (c_dyn (p_code st)) a;
  dn_cells : (forall a, a ∈ concat (map event_addrs evs) -> recorded (c_dyn (p_code st)) a = None) ->
    forall c, c ∈ concat (map handled evs) -> cell_done (p_code st') c;
  dn_run : forall fin, frame (c_gen (p_code st')) (c_gen fin) ->
    (forall a, a ∈ concat (map event_addrs evs) -> c_cells fin a = c_cells (p_code st') a) ->
    forall block, BasicBlocks.Rewrite block ∈ evs -> block <> [] -> block_runs block fin
}.

(** *** [instps] *)

Abbreviation sorted := (StronglySorted Z.lt).

Lemma block_instps_at block (i : nat) a :
  map fst block !! i = Some a -> block_instps block (Z.of_nat i) = a.
Proof using.
  intros H. unfold block_instps. rewrite (proj2 (Z.ltb_ge _ _)) by lia. by rewrite Nat2Z.id, H.
Qed.

Lemma sorted_lookup_lt (l : list Z) i j a b :
  sorted l -> (i < j)%nat -> l !! i = Some a -> l !! j = Some b -> a < b.
Proof using.
  intros HS. revert i j. induction HS as [|x l HS IH F]; intros i j Hij Ha Hb; [done|].
  destruct j as [|j]; [lia|]. cbn [lookup list_lookup] in Hb. destruct i as [|i].
  - injection Ha as <-. rewrite Forall_forall in F. by apply F, list_elem_of_In, list_elem_of_lookup_2 with j.
  - by apply (IH i j); [lia|..].
Qed.

Context (IMM : forall p, 0 <= imm_ops (super_costs p)).

Lemma block_instps_increasing block i j :
  sorted (map fst block) -> block <> [] -> 0 <= i -> i < j -> block_instps block i < block_instps block j.
Proof using IMM.
  intros HS Hne Hi Hij. unfold block_instps. rewrite !(proj2 (Z.ltb_ge _ _)) by lia.
  destruct (last_is_Some block) as [_ [[a p] Hl]]; [done|]. rewrite last_lookup in Hl.
  pose proof (lookup_lt_Some _ _ _ Hl) as Hlen.
  rewrite (List_last_lookup _ _ _ Hl). specialize (IMM p).
  assert (Hm : map fst block !! pred (length block) = Some a) by (by rewrite list_lookup_fmap, Hl).
  destruct (map fst block !! Z.to_nat j) as [y|] eqn:Ej.
  - pose proof (lookup_lt_Some _ _ _ Ej) as Hj.
    destruct (lookup_lt_is_Some_2 (map fst block) (Z.to_nat i)) as [x Ex]; [lia|]. rewrite Ex.
    by apply (sorted_lookup_lt _ (Z.to_nat i) (Z.to_nat j) _ _ HS); [lia|..].
  - apply lookup_ge_None_1 in Ej. rewrite length_map in Ej.
    destruct (map fst block !! Z.to_nat i) as [x|] eqn:Ei; [|lia].
    pose proof (lookup_lt_Some _ _ _ Ei) as Hi'. rewrite length_map in Hi'.
    assert (x <= a).
    { destruct (decide (Z.to_nat i = pred (length block))) as [E|E]; [rewrite E in Ei; assert (a = x) by congruence; lia|].
      pose proof (sorted_lookup_lt _ (Z.to_nat i) (pred (length block)) _ _ HS ltac:(lia) Ei Hm). lia. }
    lia.
Qed.

Context (CE : code_env (fun i => i)).

Lemma block_env block :
  sorted (map fst block) -> block <> [] -> code_env (block_instps block).
Proof using IMM CE.
  intros HS Hne. destruct CE as [[H1 H2 H3 H4 H5 H6 H7 _ H8] G2 G3 G4 G5]. constructor; try done.
  constructor; try done. intros i j. by apply block_instps_increasing.
Qed.

Context (FIRST : forall key ss s, lookup_super key = Some ss -> s ∈ ss -> nth (offset (super_costs s)) super2 0 = hd 0 key).
Context (OG : goto_outside goto_start goto_len code_area_size gforth_alloc).

(** *** One event *)

Lemma event_addrs_block block : event_addrs (BasicBlocks.Rewrite block) = map fst block.
Proof using. unfold event_addrs. cbn [handled]. induction block as [|[a p] block IH]; [done|]. cbn. by f_equal. Qed.

Lemma in_instructions block c :
  c ∈ instructions block -> exists i a p, block !! i = Some (a, p) /\ c = Instruction a p.
Proof using.
  unfold instructions. intros ([a p] & -> & H)%list_elem_of_fmap. apply list_elem_of_lookup in H as [i H].
  by exists i, a, p.
Qed.

Lemma block_cell_addr block a :
  a ∈ map fst block <-> exists j, (j < length block)%nat /\ a = Rewrite.cell (block_instps block) j.
Proof using.
  rewrite list_elem_of_lookup. split.
  - intros [j Hj]. exists j. pose proof (lookup_lt_Some _ _ _ Hj) as H. rewrite length_map in H.
    split; [done|]. unfold Rewrite.cell. by rewrite (block_instps_at _ _ _ Hj).
  - intros (j & Hj & ->). exists j. destruct (lookup_lt_is_Some_2 (map fst block) j) as [x Ex]; [by rewrite length_map|].
    unfold Rewrite.cell. by rewrite (block_instps_at _ _ _ Ex).
Qed.

Lemma run_block_ok block st :
  prog_inv st -> block_fine block -> block <> [] -> sorted (map fst block) ->
  exists st', run_event (BasicBlocks.Rewrite block) st = Some st' /\ done_ok [BasicBlocks.Rewrite block] st st'.
Proof using IMM CE FIRST.
  intros [V1 V2 _ V3] [BL BF BE BR] Hne HS. pose proof (block_env block HS Hne) as CEb.
  assert (Hlen : length (map snd block) = length block) by apply length_map.
  assert (Hpos : (0 < length block)%nat) by (destruct block; [done|cbn; lia]).
  destruct (compile_block_ok priminfos super_costs super2 branches_to_ip ip_update0 min_ip_update max_ip_update
    opt_ip_updates opt_ip_updates_branch (Z.of_nat npriminfos) goto_start goto_len nops N_branch ip_dead code_area_size
    gforth_alloc (block_instps block) target_at vm_prims maxstates max_super ss_cost state_transitions lookup_super
    CEb FIRST (map snd block) (p_code st) ltac:(lia) BF BE) as (evs & E & Hc & H).
  destruct (H (BR evs _ E) V1 V2 V3) as (c & Ec & BD). rewrite Hlen in BD. clear H.
  exists (mkP c (block_instps block)). split.
  { unfold run_event. destruct block as [|x block]; [done|]. rewrite Ec. done. }
  destruct BD as [D1 D2 D3 D4 D5 D6].
  constructor; cbn [p_code map concat]; rewrite ?app_nil_r, ?event_addrs_block.
  - destruct D1 as [G1 G2 G3]. constructor; [done|done|intros _; apply CEb|done].
  - done.
  - intros a Ha. apply D4. intros j Hj ->. apply Ha, block_cell_addr. by exists j.
  - intros Hn x (i & a & p & Hi & ->)%in_instructions. cbn [cell_done].
    assert (Ha : map fst block !! i = Some a) by (by rewrite list_lookup_fmap, Hi).
    rewrite <- (block_instps_at _ _ _ Ha). apply D5; [|by rewrite list_lookup_fmap, Hi].
    intros j Hj. apply Hn, block_cell_addr. by exists j.
  - intros fin FF Hcl block' Hin Hne'. apply list_elem_of_singleton in Hin. injection Hin as ->.
    exists (compiled_prims evs), (cur (c_gen c) (length block) CANONICAL_STATE). split; [done|]. split.
    + apply D6; [done| |by left]. intros j Hj. apply Hcl, block_cell_addr. by exists j.
    + unfold cur, arrives. by destruct (_ =? 0).
Qed.

(** Padding keeps a pending jump appendable; without a code block it does
    nothing. *)
Lemma align_code_gen g :
  gen_ok priminfos goto_len code_area_size gforth_alloc g ->
  gen_ok priminfos goto_len code_area_size gforth_alloc (align_code nops g) /\ frame g (align_code nops g) /\
  last_jump (align_code nops g) = last_jump g.
Proof using CE.
  intros [B J]. pose proof (ce_gen _ _ _ _ _ _ _ _ _ _ _ _ _ CE) as EN.
  destruct (Nat.eq_dec (next_code_block g) 0%nat) as [Hz|Hn].
  - assert (align_code nops g = g) as ->; [|split; [by constructor|split; [apply frame_refl|done]]].
    pose proof (bo_current _ _ _ B) as BC. rewrite Hz in BC. destruct BC as (_ & Hh & _).
    unfold align_code. rewrite land_align, Hh, (proj2 (ge_size _ _ _ _ _ _ _ EN)). done.
  - destruct (align_code_ok priminfos super_costs opt_ip_updates goto_len nops code_area_size gforth_alloc _ g EN B
      ltac:(lia)) as (B' & F & P). destruct P as [E|(Ha & Hh & Ea & _ & Ej)].
    { rewrite E in *. by split. }
    split; [|done]. constructor; [done|]. rewrite Ej. intros Hne. destruct (J Hne) as [J1 J2]. split; [done|].
    unfold room in *. rewrite Ea. right. split; [done|]. unfold CODE_ALIGNMENT, MAX_PADDING in *.
    destruct J2 as [J2|[J2 J3]]; [lia|].
    destruct (align_code_ok priminfos super_costs opt_ip_updates goto_len nops code_area_size gforth_alloc _ g EN B
      ltac:(lia)) as (_ & _ & [E|_]); [by rewrite E|].
    unfold align_code in *. rewrite land_align in *. unfold CODE_ALIGNMENT, MAX_PADDING in *. rewrite J2 in *.
    cbn in *. done.
Qed.

Lemma align_event_ok st :
  prog_inv st -> exists st', run_event AlignCode st = Some st' /\ done_ok [AlignCode] st st'.
Proof using CE.
  intros [V1 V2 V3 V4]. destruct (align_code_gen _ V1) as (G & F & J).
  eexists. split; [done|]. constructor; cbn [p_code c_gen c_dyn c_cells]; [|done|done| |].
  - by constructor; cbn [p_code p_instps c_gen c_dyn]; rewrite ?J.
  - intros _ c Hc. by apply not_elem_of_nil in Hc.
  - intros fin _ _ block Hin. by apply list_elem_of_singleton in Hin.
Qed.

Lemma code_word_ok a code st :
  prog_inv st -> exists st', run_event (CodeWord a code) st = Some st' /\ done_ok [CodeWord a code] st st'.
Proof using.
  intros [V1 V2 V3 V4]. pose proof V1 as [B J].
  assert (H : exists g, append_jump (p_instps st) (c_gen (p_code st)) = Some g /\
    gen_ok priminfos goto_len code_area_size gforth_alloc g /\ frame (c_gen (p_code st)) g /\ last_jump g = 0).
  { destruct (Z.eq_dec (last_jump (c_gen (p_code st))) 0) as [Hz|Hz].
    - exists (c_gen (p_code st)). unfold CodeGen.append_jump. rewrite Hz. split; [done|]. split; [done|].
      split; [apply frame_refl|done].
    - destruct (append_jump_ok priminfos super_costs ip_update0 min_ip_update max_ip_update opt_ip_updates goto_start
        goto_len nops code_area_size gforth_alloc (p_instps st) (c_gen (p_code st)) (V3 Hz) B)
        as (g & E & B' & F & Z' & _).
      { intros _. destruct (J Hz) as [J1 J2]. split; [done|by right]. }
      exists g. split; [exact E|]. split; [|done]. constructor; [done|by rewrite Z']. }
  destruct H as (g & E & G & F & Z'). unfold run_event. rewrite E. cbn [mbind option_bind].
  eexists. split; [done|]. constructor; cbn [p_code p_instps c_gen c_dyn c_cells]; [|done| | |].
  - by constructor; cbn [p_code p_instps c_gen c_dyn]; rewrite ?Z'.
  - intros b Hb. split; [|done]. apply store_ne. intros ->. apply Hb. cbn. by left.
  - intros _ c Hc. apply list_elem_of_singleton in Hc as ->. apply store_eq.
  - intros fin _ _ block Hin. by apply list_elem_of_singleton in Hin.
Qed.

Lemma empty_block_ok st : prog_inv st -> done_ok [BasicBlocks.Rewrite []] st st.
Proof using.
  intros V. constructor; [done|apply frame_refl|done| |].
  - intros _ c Hc. by apply not_elem_of_nil in Hc.
  - intros fin _ _ block Hin. apply list_elem_of_singleton in Hin. by injection Hin as ->.
Qed.

Lemma run_event_ok ev st :
  prog_inv st -> event_fine ev -> sorted (event_addrs ev) ->
  exists st', run_event ev st = Some st' /\ done_ok [ev] st st'.
Proof using IMM CE FIRST.
  intros V HF HS. destruct ev as [[|x block]|a code|].
  - exists st. split; [done|]. by apply empty_block_ok.
  - apply run_block_ok; [done|done|done|]. by rewrite event_addrs_block in HS.
  - by apply code_word_ok.
  - by apply align_event_ok.
Qed.

(** *** Composition *)

Lemma cell_done_same fin fin' c :
  recorded (c_dyn fin') (cell_addr c) = recorded (c_dyn fin) (cell_addr c) ->
  c_cells fin' (cell_addr c) = c_cells fin (cell_addr c) -> cell_done fin c -> cell_done fin' c.
Proof using. destruct c as [a p|a code]; cbn [cell_addr cell_done]; [apply cell_ok_same|congruence]. Qed.

Lemma handled_addrs evs : concat (map event_addrs evs) = map cell_addr (concat (map handled evs)).
Proof using. unfold event_addrs. induction evs as [|ev evs IH]; [done|]. cbn [map concat]. by rewrite IH, map_app. Qed.

Lemma done_ok_cons ev evs st st1 st2 :
  sorted (concat (map event_addrs (ev :: evs))) ->
  done_ok [ev] st st1 -> done_ok evs st1 st2 -> done_ok (ev :: evs) st st2.
Proof using.
  intros HS [A1 A2 A3 A4 A5] [B1 B2 B3 B4 B5]. cbn [map concat] in *. rewrite ?app_nil_r in *.
  assert (ND : forall a, a ∈ event_addrs ev -> a ∉ concat (map event_addrs evs)).
  { intros a H1 H2. pose proof (StronglySorted_app_1_elem_of _ _ _ _ _ HS H1 H2). lia. }
  constructor; cbn [map concat]; [done|by eapply frame_trans| | |].
  - intros a Ha. rewrite not_elem_of_app in Ha. destruct Ha as [H1 H2].
    destruct (A3 a H1) as [<- <-]. by apply B3.
  - intros Hn c [Hc|Hc]%elem_of_app.
    + assert (Hin : cell_addr c ∈ event_addrs ev) by (by apply list_elem_of_fmap_2).
      destruct (B3 _ (ND _ Hin)) as [E1 E2]. apply (cell_done_same (p_code st1)); [done|done|].
      apply A4; [|done]. intros a Ha. apply Hn, elem_of_app. by left.
    + apply B4; [|done]. intros a Ha. destruct (A3 a) as [_ ->]; [by intros H; apply (ND a H)|].
      apply Hn, elem_of_app. by right.
  - intros fin FF Hc block Hin Hne. apply elem_of_cons in Hin as [<-|Hin].
    + apply A5; [by eapply frame_trans| |by left|done]. intros a Ha.
      rewrite Hc by (apply elem_of_app; by left). by apply B3, ND.
    + apply B5; [done| |done|done]. intros a Ha. apply Hc, elem_of_app. by right.
Qed.

Lemma run_events_ok evs st :
  prog_inv st -> Forall event_fine evs -> sorted (concat (map event_addrs evs)) ->
  exists st', run_events evs st = Some st' /\ done_ok evs st st'.
Proof using IMM CE FIRST.
  revert st. induction evs as [|ev evs IH]; intros st V HF HS.
  { exists st. split; [done|]. constructor; [done|apply frame_refl|done| |].
    - intros _ c Hc. by apply not_elem_of_nil in Hc.
    - intros fin _ _ block Hin. by apply not_elem_of_nil in Hin. }
  apply Forall_cons_1 in HF as [HF1 HF2]. pose proof HS as HS0. cbn [map concat] in HS.
  apply StronglySorted_app in HS as (_ & HS1 & HS2).
  destruct (run_event_ok ev st V HF1 HS1) as (st1 & E1 & D1). cbn [run_events]. rewrite E1. cbn [mbind option_bind].
  destruct (IH st1 (dn_inv _ _ _ D1) HF2 HS2) as (st2 & E2 & D2). exists st2. split; [exact E2|].
  by apply (done_ok_cons ev evs st st1 st2).
Qed.
End Events.

(** ** The prepared tables *)

Section Prepared.
Context (prims : list Z) (super_costs : list cost) (super2 : list Z) (N_noop maxstates : nat).
Context (static_super_number : Z) (priminfos : Z -> PrimInfo) (opt_ip_updates goto_start goto_len : Z).
Context (code_area_size : Z) (gforth_alloc : nat -> Z) (ss_cost : Z -> Z) (superend : Z -> bool).

Abbreviation reloc := (is_relocatable priminfos false).
Abbreviation cost_of := (cost_at super_costs).
Abbreviation at_ i := (Supers.at_ super_costs i).
Abbreviation key i := (key_of super2 (at_ i)).
Abbreviation enterable := (Supers.enterable super_costs N_noop maxstates).
Abbreviation noop_variant := (Supers.noop_variant super_costs N_noop maxstates reloc).
Abbreviation label_of := (fun p => nth (Z.to_nat p) (prims ++ [0]) 0).

(** What the generated tables, [check_prims] and the system promise.  Primitive 0
    is not relocatable (0 in [last_jump] means that no jump is pending), and a
    superinstruction ends straight-line code only if its last component does. *)
Record program_env : Prop := {
  pe_tables : tables_wf super_costs super2 N_noop maxstates reloc (Some priminfos);
  pe_gen : gen_env priminfos cost_of opt_ip_updates goto_len code_area_size gforth_alloc (fun i => i);
  pe_goto : goto_outside goto_start goto_len code_area_size gforth_alloc;
  pe_texts : forall p, reloc p = true -> Layout.outside priminfos code_area_size gforth_alloc p;
  pe_zero : reloc 0 = false;
  pe_states : (CANONICAL_STATE < maxstates)%nat;
  pe_cost : forall p, 0 <= ss_cost p <= COST_BOUND;
  pe_count : length super_costs = length prims /\ Z.of_nat (length prims) <= 65536;
  pe_labels : NoDup prims /\ forall x, x ∈ prims -> x <> 0;
  pe_imm : forall p, 0 <= imm_ops (cost_of p);
  pe_base : forall i, (i < length super_costs)%nat -> c_length (c_info (at_ i)) = 1%nat ->
    nth (offset (at_ i)) super2 0 = Z.of_nat (offset (at_ i));
  pe_noops : forall i, noop_variant i -> pi_superend (priminfos (Z.of_nat i)) = false;
  pe_straight : forall i, enterable i -> pi_superend (priminfos (Z.of_nat i)) = true ->
    state_out (c_info (at_ i)) = CANONICAL_STATE /\ superend (List.last (key i) 0) = true
}.
Context (PE : program_env).
Context (st : sstate).
Context (PR : prepared super_costs super2 N_noop maxstates static_super_number reloc (Some priminfos)
  (length super_costs) st).

Abbreviation find := (lookup_super super2 st).
Abbreviation usable := (Layout.usable priminfos (Z.of_nat (length prims)) code_area_size gforth_alloc).

Lemma prepared_usable i : (i < length super_costs)%nat -> usable (Z.of_nat i).
Proof using PE.
  intros Hi. constructor; [apply PE|]. intros Hr. pose proof (proj1 (pe_count PE)). split; [lia|].
  intros E. pose proof (pe_zero PE). congruence.
Qed.

Lemma prepared_variant ks ss s :
  find ks = Some ss -> s ∈ ss ->
  exists i, (i < length super_costs)%nat /\ s = Z.of_nat i /\ enterable i /\ key i = ks.
Proof using PR. intros E Hs. destruct (pr_sound _ _ _ _ _ _ _ _ _ PR ks ss E) as (_ & _ & H). by apply H. Qed.

Lemma head_key i : (i < length super_costs)%nat -> nth (offset (at_ i)) super2 0 = hd 0 (key i).
Proof using PE.
  intros Hi. destruct (wf_bounds _ _ _ _ _ _ (pe_tables PE) i Hi) as [H1 H2]. unfold key_of, comps.
  destruct (lookup_lt_is_Some_2 super2 (offset (at_ i))) as [x Ex]; [lia|].
  rewrite (nth_lookup_Some _ _ _ _ Ex), (drop_S _ _ _ Ex). destruct (c_length _); [lia|done].
Qed.

Lemma prepared_first ks ss s :
  find ks = Some ss -> s ∈ ss -> nth (offset (cost_of s)) super2 0 = hd 0 ks.
Proof using PE PR. intros E Hs. destruct (prepared_variant ks ss s E Hs) as (i & Hi & -> & _ & <-). by apply head_key. Qed.

Lemma prepared_code_env :
  code_env priminfos cost_of opt_ip_updates (Z.of_nat (length prims)) goto_start goto_len code_area_size gforth_alloc
    (fun i => i) maxstates ss_cost (state_transitions st) find.
Proof using PE PR.
  constructor; [apply PE|apply PE| | |].
  - by apply (prepared_tables_ok _ _ _ _ _ _ _ st ss_cost (pe_tables PE) PR (pe_states PE) (pe_cost PE)).
  - intros s Hs. destruct (pr_transitions _ _ _ _ _ _ _ _ _ PR s Hs) as (i & Hi & -> & NV & Hc).
    split; [by apply prepared_usable|]. split; [apply NV|]. split; [by apply PE|].
    unfold canonical in Hc. apply andb_false_iff in Hc as [Hc|Hc]; apply Nat.eqb_neq in Hc; [by left|by right].
  - intros ks ss s E Hs. destruct (prepared_variant ks ss s E Hs) as (i & Hi & -> & En & _).
    split; [by apply prepared_usable|]. split; [|apply (pe_straight PE i En)].
    intros Ht. destruct (pr_transitions _ _ _ _ _ _ _ _ _ PR _ Ht) as (j & _ & Ej & NV & _).
    apply Nat2Z.inj in Ej as <-. destruct (nv_noop _ _ _ _ _ NV) as [H1 H2]. by destruct (en_inst _ _ _ _ En).
Qed.

Lemma prepared_base ks ss s o : find (o :: ks) = Some ss -> s ∈ ss -> base_prim super_costs super2 s = o.
Proof using PE PR.
  intros E Hs. destruct (prepared_variant _ ss s E Hs) as (i & Hi & -> & _ & Hk).
  pose proof (head_key i Hi) as Hh. rewrite Hk in Hh. cbn [hd] in Hh. unfold base_prim.
  destruct (Nat.ltb_spec 1 (c_length (c_info (cost_at super_costs (Z.of_nat i))))) as [_|Hl]; [exact Hh|].
  destruct (wf_bounds _ _ _ _ _ _ (pe_tables PE) i Hi) as [H1 _].
  pose proof (pe_base PE i Hi) as HB. unfold Supers.at_ in *. rewrite HB in Hh by lia. exact Hh.
Qed.

Lemma prepared_decompile_env : decompile_env prims super_costs super2 find.
Proof using PE PR.
  destruct (pe_labels PE) as [L1 L2]. pose proof (pe_count PE) as [C1 C2]. constructor; [done|done| |].
  - intros ks ss s E Hs. destruct (prepared_variant ks ss s E Hs) as (i & Hi & -> & _). lia.
  - apply prepared_base.
Qed.

(** Only the last instruction of a block of [compile_prim1] ends it. *)
Lemma prepared_ends block :
  block_ok (length prims) superend block -> ends_ok priminfos find (map snd block).
Proof using PE PR.
  intros (_ & _ & HE) m j ss s Hj Hm E Hs Hse.
  destruct (prepared_variant _ ss s E Hs) as (i & Hi & -> & En & Hk).
  destruct (pe_straight PE i En Hse) as [_ Hl]. rewrite Hk in Hl.
  destruct (Nat.eq_dec (m + j)%nat (length (map snd block))) as [|Hne]; [done|]. rewrite length_map in *.
  destruct (lookup_lt_is_Some_2 block (m + j - 1)) as [[a p] Hp]; [lia|].
  rewrite (List_last_lookup _ 0 p) in Hl; [by rewrite (HE (m + j - 1)%nat a p) in Hl by (done || lia)|].
  rewrite length_take, length_drop, length_map, Nat.min_l by lia. rewrite lookup_take_lt, lookup_drop by lia.
  replace (m + pred j)%nat with (m + j - 1)%nat by lia. by rewrite list_lookup_fmap, Hp.
Qed.
End Prepared.

(** ** Properties *)

Section CompileProgram.
Context (prims : list Z) (super_costs : list cost) (super2 : list Z) (N_noop maxstates : nat).
Context (static_super_number : Z) (priminfos : Z -> PrimInfo).
Context (opt_ip_updates opt_ip_updates_branch goto_start goto_len nops : Z) (N_branch : Z) (ip_dead : list Z).
Context (code_area_size : Z) (gforth_alloc : nat -> Z) (target_at : Z -> Z) (ss_cost : Z -> Z).
Context (vm_prims_addr : Z) (superend : Z -> bool) (code_address : Z -> Z) (before : Z).

Definition label_of (p : Z) : Z := nth (Z.to_nat p) (prims ++ [0]) 0.

(** The events of [compile_prim1], executed with the prepared tables. *)
Definition run_program (st : sstate) : list bb_event -> pstate -> option pstate :=
  run_events priminfos (cost_at super_costs) super2 (fun p => default 0 (branches_to_ip st !! p)) (ip_update0 st)
    (min_ip_update st) (max_ip_update st) opt_ip_updates opt_ip_updates_branch (length prims) goto_start goto_len nops
    N_branch ip_dead code_area_size gforth_alloc target_at label_of maxstates (max_super st) ss_cost
    (state_transitions st) (lookup_super super2 st) before.

Definition init_pstate (m : memory) (cells : Z -> Z) : pstate :=
  mkP (mkC (init_gstate code_area_size m) init_dynstate cells) (fun _ => 0).

(** [reserve_code_super] reserves enough for the block, whatever is pending. *)
Definition reservation_suffices (st : sstate) (block : list Z) : Prop :=
  forall evs lj,
    optimize_rewrite maxstates (max_super st) (info_at super_costs) ss_cost (is_relocatable priminfos false)
      (state_transitions st) (lookup_super super2 st)
      (make_termstate maxstates (info_at super_costs) ss_cost (state_transitions st)) block = Some evs ->
    reserved priminfos goto_len code_area_size block (compiled_prims evs) lj.

(** What becomes of the cell in the end. *)
Definition cell_result (fin : cstate) (c : compiled_cell) : Prop :=
  match c with
  | Instruction a p =>
      fetch_decompile_prim (c_cells fin) (prims ++ [0]) super_costs super2 (c_dyn fin) a = prims !! Z.to_nat p
  | Code a code => c_cells fin a = code
  end.

Abbreviation env := (program_env prims super_costs super2 N_noop maxstates priminfos opt_ip_updates goto_start goto_len
  code_area_size gforth_alloc ss_cost superend).

Lemma ordinary_base p :
  env -> instruction super_costs super2 N_noop maxstates p ->
  (p < length prims)%nat /\ base_prim super_costs super2 (Z.of_nat p) = Z.of_nat p.
Proof using.
  intros PE [H1 H2 H3 H4 H5]. pose proof (proj1 (pe_count _ _ _ _ _ _ _ _ _ _ _ _ _ PE)) as HC. split; [lia|].
  unfold base_prim. unfold at_ in *. rewrite H4. cbn [Nat.ltb Nat.leb].
  pose proof (pe_base _ _ _ _ _ _ _ _ _ _ _ _ _ PE p H1) as HB. unfold at_ in HB. rewrite <- HB by done.
  pose proof (head_key _ _ _ _ _ _ _ _ _ _ _ _ _ PE p H1) as HK. unfold at_ in HK. by rewrite HK, H5.
Qed.

Lemma init_prog_inv m cells :
  prog_inv priminfos (cost_at super_costs) opt_ip_updates goto_len code_area_size gforth_alloc (init_pstate m cells).
Proof using. constructor; [apply init_gen_ok|done..]. Qed.

End CompileProgram.

(** *** The table of [Supers] with 256-byte code blocks; noop is not
    relocatable, instruction 2 and its variants end straight-line code. *)
Definition demo_prims : list Z := map (fun i => 500 + Z.of_nat i) (seq 0 11).
Definition demo_superend (p : Z) : bool := p =? 2.
Definition demo_infos (p : Z) : PrimInfo :=
  mkPrimInfo (if p =? 0 then 0 else 1000) 2 10 4 (bool_decide (p ∈ [2; 4; 7])) 0 0 [].
Definition demo_blocks (k : nat) : Z := 4096 + 256 * Z.of_nat k.
Definition demo_program : list (Z * Z) := [(20, 8024); (21, 8032); (22, 9000); (23, 8024); (24, 8016)].

Lemma demo_infos_wf : tables_wf demo_costs demo_super2 0 2 (is_relocatable demo_infos false) (Some demo_infos).
Proof.
  constructor.
  - intros i Hi. do 11 (destruct i as [|i]; [vm_compute; lia|]). cbn in Hi. lia.
  - intros i Hi En [_ Hm]. cbn in Hm. lia.
  - assert (H : forall i, (i < length demo_costs)%nat ->
      noop_variant demo_costs 0 2 (is_relocatable demo_infos false) i -> canonical (at_ demo_costs i) = true -> i = 8%nat).
    { intros i Hi NV C. destruct (nv_noop _ _ _ _ _ NV) as [Hn Hz].
      do 11 (destruct i as [|i]; [vm_compute in Hn, C; try discriminate; lia|]). cbn in Hi. lia. }
    intros i j Hi Hj NVi NVj Ci Cj. pose proof (H i Hi NVi Ci). pose proof (H j ltac:(lia) NVj Cj). lia.
Qed.

Lemma demo_program_outside p : Layout.outside demo_infos 256 demo_blocks p.
Proof.
  constructor; intros j Hj k; unfold in_block, demo_blocks, demo_infos in *; cbn [pi_length pi_start pi_restlength] in *;
    destruct (p =? 0); lia.
Qed.

Lemma demo_superends p : pi_superend (demo_infos p) = true -> p = 2 \/ p = 4 \/ p = 7.
Proof.
  unfold demo_infos. cbn [pi_superend]. rewrite bool_decide_eq_true, !elem_of_cons, elem_of_nil. tauto.
Qed.

Lemma demo_program_env :
  program_env demo_prims demo_costs demo_super2 0 2 demo_infos 0 2000 3 256 demo_blocks
    (fun p => if p =? 7 then 12 else 10) demo_superend.
Proof.
  constructor.
  - apply demo_infos_wf.
  - constructor; try (intros; unfold CODE_ALIGNMENT; cbn; lia).
    + split; [unfold BH; lia|reflexivity].
    + intros k. unfold demo_blocks, CODE_ALIGNMENT. split; [lia|]. Z.div_mod_to_equations. lia.
    + intros j k H. unfold demo_blocks. lia.
    + intros p Hp. by destruct (demo_superends p Hp) as [-> | [-> | ->]]; vm_compute; lia.
  - intros j Hj k. unfold in_block, demo_blocks. lia.
  - intros p _. apply demo_program_outside.
  - done.
  - unfold CANONICAL_STATE. lia.
  - intros p. unfold COST_BOUND. destruct (p =? 7); lia.
  - vm_compute. split; [reflexivity|discriminate].
  - split; [by apply (bool_decide_unpack _); vm_compute|].
    intros x (i & -> & _)%list_elem_of_fmap. lia.
  - intros p. unfold cost_at.
    generalize (Z.to_nat p). intros n. do 12 (destruct n as [|n]; [vm_compute; discriminate|]). vm_compute. discriminate.
  - intros i Hi. do 11 (destruct i as [|i]; [vm_compute; try discriminate; reflexivity|]). cbn in Hi. lia.
  - intros i NV. destruct (nv_noop _ _ _ _ _ NV) as [Hn _]. destruct (pi_superend (demo_infos (Z.of_nat i))) eqn:E; [|done].
    destruct (demo_superends _ E) as [Ei|[Ei|Ei]]; rewrite <- (Nat2Z.id i), Ei in Hn; done.
  - intros i _ Hs. rewrite <- (Nat2Z.id i). destruct (demo_superends _ Hs) as [-> | [-> | ->]]; done.
Qed.

Definition demo_tables : sstate :=
  default init_sstate
    (prepare_super_table demo_costs demo_super2 0 2 10000 (is_relocatable demo_infos false) (Some demo_infos)).
Definition demo_code_cost (p : Z) : Z := if p =? 7 then 12 else 10.
Definition demo_events : list bb_event :=
  [BasicBlocks.Rewrite [(20, 1); (21, 2)]; BasicBlocks.Rewrite []; CodeWord 22 7000;
   BasicBlocks.Rewrite [(23, 1); (24, 0)]; AlignCode].
Abbreviation demo_run := (run_program demo_prims demo_costs demo_super2 2 demo_infos 0 0 2000 3 3000 0 [] 256 demo_blocks
  (fun _ => 0) demo_code_cost 0 demo_tables demo_events (init_pstate 256 (fun x => x) (fun _ => 0))).

(** The first block is one superinstruction; its second cell has the static code. *)
Lemma demo_run_cells : (fun fin => map (c_cells (p_code fin)) [20; 21; 22; 23; 24]) <$> demo_run = Some [4096; 502; 7000; 4113; 500].
Proof. vm_compute. reflexivity. Qed.

Lemma demo_suffices block :
  BasicBlocks.Rewrite block ∈ demo_events -> block <> [] ->
  reservation_suffices demo_costs demo_super2 2 demo_infos 3 256 demo_code_cost demo_tables (map snd block).
Proof.
  intros H Hne. unfold reservation_suffices.
  assert (Hb : block = [(20, 1); (21, 2)] \/ block = [(23, 1); (24, 0)]).
  { unfold demo_events in H. rewrite !elem_of_cons in H. destruct H as [H|[H|[H|[H|[H|H]]]]];
      [injection H; by left|injection H; by intros ->|discriminate H|injection H; by right|discriminate H|].
    by apply not_elem_of_nil in H. }
  destruct Hb as [-> | ->]; intros evs lj; cbn [map snd];
    (match goal with |- ?x = _ -> _ => let v := eval vm_compute in x in change x with v end); intros R;
    injection R as <-; by repeat split; vm_compute.
Qed.


(** [reserve_code_super] counts no dispatch code for a jump that is pending from
    the block before when the first instruction is not relocatable, so that the
    final assertion of [optimize_rewrite] can fail: here 32 bytes are left, which
    is what is reserved for noop and instruction 1. *)
Definition demo_pending : cstate :=
  mkC (mkG 4096 4320 0 1 0 0 [(4096, 256)] 1 1 (fun _ => 0) [] (fun x => x)) init_dynstate (fun _ => 0).

Lemma reservation_misses_pending_jump :
  CODE_ALIGNMENT - 1 + super_size demo_infos false 3 None [0; 1] = 32 /\
  is_Some (optimize_rewrite 2 2 (info_at demo_costs) demo_code_cost (is_relocatable demo_infos false)
    (state_transitions demo_tables) (lookup_super demo_super2 demo_tables)
    (make_termstate 2 (info_at demo_costs) demo_code_cost (state_transitions demo_tables)) [0; 1]) /\
  compile_block demo_infos (cost_at demo_costs) demo_super2 (fun _ => 0) 0 0 0 0 0 false 11 2000 3 3000 0 [] 256
    demo_blocks (fun i => 20 + i) (fun _ => 0) (label_of demo_prims) 2 2 demo_code_cost (state_transitions demo_tables)
    (lookup_super demo_super2 demo_tables) [0; 1] demo_pending = None.
Proof. split; [reflexivity|]. split; [vm_compute; by eexists|vm_compute; reflexivity]. Qed.
