(* ===== verification/Stacks.v ===== *)
(** * Memory for dictionary and stacks (engine/main.c)

    The engine maps the stacks of a task in one piece, with an inaccessible
    guard page on both sides of every stack.  The system calls' results are
    arguments ([MAP_FAILED] and NULL are their failures); the configuration is
    gforth-fast, where the bottom stack elements are cached in registers.
    [pagesize] is a power of two. *)
From S2P Require Import Prelude.

Definition MAP_FAILED : Z := -1.
Definition sizeof_Float : Z := 8.
Definition sizeof_Cell : Z := 8.

(** ** Sizes *)

Definition maxaligned (n : Z) : Z := Z.land (n + sizeof_Float - 1) (- sizeof_Float).

Record sizes := mkSizes { s_dict : Z; s_data : Z; s_fp : Z; s_return : Z; s_locals : Z }.

(** [set_stack_sizes]: sizes given on the command line (0 if not given) take
    precedence over those of the image header; both are set to the result. *)
Definition set_stack_sizes (given header : sizes) : sizes :=
  let pick f := maxaligned (if f given =? 0 then f header else f given) in
  mkSizes (pick s_dict) (pick s_data) (pick s_fp) (pick s_return) (pick s_locals).

Section Memory.
Context (pagesize SIGSTKSZ : Z).

Definition wholepage (n : Z) : Z := U64 (Z.land (n + pagesize - 1) (Z.lnot (pagesize - 1))).

(** [alloc_mmap]: below 4 GB if that is asked for and possible. *)
Definition alloc_mmap (mmap : bool -> Z -> Z) (map_32bit : bool) (size : Z) : Z :=
  let r := if map_32bit then mmap true size else MAP_FAILED in
  if r =? MAP_FAILED then mmap false size else r.

Definition verbose_malloc (malloc : Z -> Z) (size : Z) : Z :=
  let r := malloc (size + 64) in
  if r =? 0 then r else Z.land (r + (sizeof_Float - 1)) (- sizeof_Float).

Definition gforth_alloc (mmap : bool -> Z -> Z) (malloc : Z -> Z) (map_32bit : bool) (size : Z) : Z :=
  let r := alloc_mmap mmap map_32bit size in
  if r =? MAP_FAILED then verbose_malloc malloc size else r.

(** [alloc_mmap_guard]: the address and the guard page behind the memory. *)
Definition alloc_mmap_guard (mmap : bool -> Z -> Z) (map_32bit : bool) (size : Z) : Z * Z :=
  let size := wholepage (size + pagesize) in
  let start := alloc_mmap mmap map_32bit size in
  (start, start + size - pagesize).

(** [gforth_free_dict]: the range that is unmapped; the header lies in the first
    page of the image. *)
Definition gforth_free_dict (gforth_header dictsize : Z) : Z * Z :=
  (Z.land (- pagesize) gforth_header, dictsize).

(** ** Stacks *)

(** The part of [user_area] that describes the stacks, with its address. *)
Record user_area := mkUser { up0 : Z; sp0 : Z; rp0 : Z; fp0 : Z; lp0 : Z }.

(** The result of [gforth_stacks] with the pages that [page_noaccess] protects. *)
Record stack_memory := mkStacks { sm_user : user_area; sm_guards : list Z }.

Definition totalsize (dsize fsize rsize lsize : Z) : Z :=
  wholepage dsize + wholepage fsize + wholepage rsize + wholepage lsize + 6 * pagesize + 2 * SIGSTKSZ.

(** The layout in the memory at [a] that [mmap] returned; the cached elements
    below the bottoms of data and FP stack stay accessible. *)
Definition mapped_stacks (a dsize fsize rsize lsize : Z) : stack_memory :=
  let g1 := a + pagesize in
  let d := g1 + pagesize in
  let g2 := d + wholepage dsize in
  let r := g2 + pagesize in
  let g3 := r + wholepage rsize in
  let f := g3 + pagesize in
  let g4 := f + wholepage fsize in
  let l := g4 + pagesize in
  let g5 := l + wholepage lsize in
  mkStacks (mkUser a (d + dsize - 8 * sizeof_Cell) (r + rsize) (f + fsize - sizeof_Float) (l + lsize))
    [g1; g2; g3; g4; g5].

(** The layout in [malloc]ed memory, without protection. *)
Definition malloced_stacks (a dsize fsize rsize lsize : Z) : stack_memory :=
  let d := a + 2 * pagesize in
  let r := d + wholepage dsize + pagesize in
  let f := r + wholepage rsize + pagesize in
  let l := f + wholepage fsize + pagesize in
  mkStacks (mkUser a (d + dsize) (r + rsize) (f + fsize) (l + lsize)) [].

Definition gforth_stacks (mmap : bool -> Z -> Z) (malloc : Z -> Z) (map_32bit : bool)
    (dsize fsize rsize lsize : Z) : option stack_memory :=
  let total := totalsize dsize fsize rsize lsize in
  let a := alloc_mmap mmap map_32bit total in
  if negb (a =? MAP_FAILED) then Some (mapped_stacks a dsize fsize rsize lsize)
  else
    let a := verbose_malloc malloc total in
    if negb (a =? 0) then Some (malloced_stacks a dsize fsize rsize lsize) else None.

(** [gforth_set_sigaltstack]: start and size of the signal stack. *)
Definition gforth_set_sigaltstack (t : user_area) : Z * Z :=
  let a := wholepage (lp0 t) + pagesize in (a + SIGSTKSZ, SIGSTKSZ).

(** [gforth_free_stacks]: the range that is unmapped. *)
Definition gforth_free_stacks (t : user_area) : Z * Z :=
  (up0 t, wholepage (lp0 t + pagesize - up0 t) + 2 * SIGSTKSZ).

(** [gforth_setstacks]: the virtual-machine registers of the engine. *)
Record registers := mkRegs {
  gforth_SP : Z; gforth_RP : Z; gforth_FP : Z; gforth_LP : Z;
  handler : Z; first_throw : Z; wraphandler : Z; next_task : Z
}.
Definition gforth_setstacks (t : user_area) : registers * (Z * Z) :=
  (mkRegs (sp0 t) (rp0 t) (fp0 t) (lp0 t) 0 (Z.lnot 0) 0 0, gforth_set_sigaltstack t).

(** ** Lemmas: pages *)

Definition page_ok : Prop := exists k, 10 <= k <= 30 /\ pagesize = 2 ^ k.

(** Rounding up to whole pages. *)
Definition round_up (n : Z) : Z := (n + pagesize - 1) / pagesize * pagesize.

Lemma page_range : page_ok -> 1024 <= pagesize <= 1073741824.
Proof using.
  intros (k & Hk & ->). change 1024 with (2 ^ 10). change 1073741824 with (2 ^ 30).
  split; apply Z.pow_le_mono_r; lia.
Qed.

Lemma land_page x : page_ok -> Z.land x (- pagesize) = x / pagesize * pagesize.
Proof using.
  intros (k & Hk & ->). replace (- 2 ^ k) with (Z.lnot (Z.ones k)).
  2: { rewrite Z.ones_equiv. unfold Z.lnot. lia. }
  rewrite <- Z.ldiff_land, Z.ldiff_ones_r by lia.
  by rewrite Z.shiftl_mul_pow2, Z.shiftr_div_pow2 by lia.
Qed.

Lemma lnot_page : Z.lnot (pagesize - 1) = - pagesize.
Proof using. unfold Z.lnot. lia. Qed.

Lemma round_up_spec n :
  page_ok -> n <= round_up n < n + pagesize /\ round_up n mod pagesize = 0.
Proof using.
  intros P. pose proof (page_range P). unfold round_up. split; [|apply Z.mod_mul; lia].
  pose proof (Z.div_mod (n + pagesize - 1) pagesize). pose proof (Z.mod_pos_bound (n + pagesize - 1) pagesize). lia.
Qed.

(** A multiple of the page size is determined up to less than a page. *)
Lemma round_up_unique n m :
  page_ok -> n <= m < n + pagesize -> m mod pagesize = 0 -> round_up n = m.
Proof using.
  intros P Hm Hz. pose proof (page_range P). destruct (round_up_spec n P) as [Hr Hz'].
  apply Z.mod_divide in Hz as [x Ex]; [|lia]. apply Z.mod_divide in Hz' as [y Ey]; [|lia]. rewrite Ex, Ey in *.
  destruct (Z.lt_trichotomy x y) as [?|[->|?]]; [|done|]; nia.
Qed.

Lemma round_up_add n m : page_ok -> m mod pagesize = 0 -> round_up (m + n) = m + round_up n.
Proof using.
  intros P Hm. pose proof (page_range P). destruct (round_up_spec n P) as [Hr Hz].
  apply round_up_unique; [done|lia|]. rewrite Z.add_mod, Hm, Hz by lia. apply Z.mod_0_l. lia.
Qed.

(** Going back less than what the last page holds stays on that page. *)
Lemma round_up_sub n c :
  page_ok -> 0 <= c < pagesize -> n mod pagesize = 0 \/ c < n mod pagesize -> round_up (n - c) = round_up n.
Proof using.
  intros P Hc Hn. pose proof (page_range P) as Hp. destruct (round_up_spec n P) as [Hr Hz].
  pose proof (Z.div_mod n pagesize ltac:(lia)) as En. pose proof (Z.mod_pos_bound n pagesize ltac:(lia)) as Hb.
  apply round_up_unique; [done|split; [lia|]|done]. apply Z.mod_divide in Hz as [y Ey]; [|lia].
  rewrite Ey in *. set (x := n / pagesize) in *. destruct Hn as [Hn|Hn].
  - rewrite Hn in En. assert (y = x) by nia. nia.
  - assert (y = x + 1) by nia. nia.
Qed.

Lemma wholepage_round_up n : page_ok -> 0 <= n < BH -> wholepage n = round_up n.
Proof using.
  intros P Hn. unfold wholepage. rewrite lnot_page, land_page by done. fold (round_up n).
  destruct (round_up_spec n P) as [Hr _]. pose proof (page_range P).
  unfold U64. apply Z.mod_small. unfold BH, B in *. lia.
Qed.
End Memory.

(** ** The layout *)

Section Layout.
Context (pagesize SIGSTKSZ : Z).

(** Sizes that occur: not so large that anything overflows. *)
Record layout_ok (a dsize fsize rsize lsize : Z) : Prop := {
  lo_page : page_ok pagesize;
  lo_aligned : a mod pagesize = 0 /\ 0 < a < 2 ^ 47;
  lo_sizes : 64 <= dsize < 2 ^ 40 /\ 8 <= fsize < 2 ^ 40 /\ 0 < rsize < 2 ^ 40 /\ 0 < lsize < 2 ^ 40;
  lo_sigstk : 0 <= SIGSTKSZ < 2 ^ 40
}.

Abbreviation up := (round_up pagesize).

(** The pages of the layout in a row. *)
Lemma mapped_stacks_layout a dsize fsize rsize lsize :
  layout_ok a dsize fsize rsize lsize ->
  let d := a + 2 * pagesize in
  let r := d + up dsize + pagesize in
  let f := r + up rsize + pagesize in
  let l := f + up fsize + pagesize in
  mapped_stacks pagesize a dsize fsize rsize lsize =
    mkStacks (mkUser a (d + dsize - 64) (r + rsize) (f + fsize - 8) (l + lsize))
      [a + pagesize; r - pagesize; f - pagesize; l - pagesize; l + up lsize] /\
  totalsize pagesize SIGSTKSZ dsize fsize rsize lsize = l + up lsize + pagesize - a + 2 * SIGSTKSZ.
Proof using.
  intros [P _ (Hd & Hf & Hr & Hl) _] d r f l. unfold mapped_stacks, totalsize, sizeof_Cell, sizeof_Float.
  rewrite !wholepage_round_up by (try done; unfold BH; lia). subst d r f l. split; [|lia].
  apply f_equal2; [f_equal; lia|]. repeat (apply (f_equal2 cons); [lia|]). done.
Qed.

Lemma aligned_add x y : page_ok pagesize -> x mod pagesize = 0 -> y mod pagesize = 0 -> (x + y) mod pagesize = 0.
Proof using.
  intros P Hx Hy. pose proof (page_range _ P). rewrite Z.add_mod, Hx, Hy by lia. apply Z.mod_0_l. lia.
Qed.

Lemma aligned_page : page_ok pagesize -> pagesize mod pagesize = 0.
Proof using. intros P. pose proof (page_range _ P). apply Z.mod_same. lia. Qed.

Lemma aligned_up n : page_ok pagesize -> up n mod pagesize = 0.
Proof using. intros P. by apply round_up_spec. Qed.
End Layout.

Create HintDb page.
#[export] Hint Resolve aligned_add aligned_page aligned_up : page.

(** ** Properties *)

(** C19: [gforth_stacks] lays the stacks of a task out safely: the four stacks
    are page-aligned, in the order data, return, FP, locals, inside the mapped
    memory, with a protected page before each, between any two, and behind the
    last; the initial stack pointers (with the cached elements below the data
    and FP stack bottoms) and the signal stack lie in accessible memory; and
    [gforth_free_stacks] unmaps exactly the memory that was mapped.
    (For a mapping that succeeds, at a page boundary below 2^47, and sizes
    below 2^40, of at least 64 bytes for data and 8 for FP.) *)
Theorem stacks_layout (pagesize SIGSTKSZ : Z) (mmap : bool -> Z -> Z) (malloc : Z -> Z) (map_32bit : bool)
    (dsize fsize rsize lsize : Z) :
  let total := totalsize pagesize SIGSTKSZ dsize fsize rsize lsize in
  let a := alloc_mmap mmap map_32bit total in
  a <> MAP_FAILED -> layout_ok pagesize SIGSTKSZ a dsize fsize rsize lsize ->
  exists t g1 g2 g3 g4 g5,
    gforth_stacks pagesize SIGSTKSZ mmap malloc map_32bit dsize fsize rsize lsize =
      Some (mkStacks t [g1; g2; g3; g4; g5]) /\
    Forall (fun g => g mod pagesize = 0) [g1; g2; g3; g4; g5] /\
    a < g1 /\ g5 + pagesize + 2 * SIGSTKSZ = a + total /\
    g1 + pagesize <= sp0 t <= g2 - 64 /\ g1 + pagesize + dsize <= g2 /\
    g2 + pagesize < rp0 t <= g3 /\ g2 + pagesize + rsize <= g3 /\
    g3 + pagesize <= fp0 t <= g4 - 8 /\ g3 + pagesize + fsize <= g4 /\
    g4 + pagesize < lp0 t <= g5 /\ g4 + pagesize + lsize <= g5 /\
    gforth_set_sigaltstack pagesize SIGSTKSZ t = (g5 + pagesize + SIGSTKSZ, SIGSTKSZ) /\
    gforth_free_stacks pagesize SIGSTKSZ t = (a, total).
Proof.
  intros total a Ha LO. destruct (mapped_stacks_layout _ _ _ _ _ _ _ LO) as [EM ET].
  unfold gforth_stacks. fold total. fold a. rewrite (proj2 (Z.eqb_neq _ _) Ha). cbn [negb]. rewrite EM.
  do 6 eexists. split; [done|]. destruct LO as [P [Aa Ra] (Hd & Hf & Hr & Hl) Hs].
  pose proof (page_range _ P) as Hp. cbn [sp0 rp0 fp0 lp0 up0].
  pose proof (proj1 (round_up_spec _ dsize P)). pose proof (proj1 (round_up_spec _ rsize P)).
  pose proof (proj1 (round_up_spec _ fsize P)). pose proof (proj1 (round_up_spec _ lsize P)).
  fold total in ET. set (l := a + 2 * pagesize + round_up pagesize dsize + pagesize + round_up pagesize rsize +
    pagesize + round_up pagesize fsize + pagesize) in *.
  assert (Al : l mod pagesize = 0).
  { subst l. replace (2 * pagesize) with (pagesize + pagesize) by lia. auto 20 with page. }
  split; [|repeat (split; [lia|]); split].
  - repeat constructor; subst l; replace (2 * pagesize) with (pagesize + pagesize) in * by lia;
      rewrite ?Z.add_simpl_r; auto 20 with page.
  - unfold gforth_set_sigaltstack. cbn [lp0]. rewrite wholepage_round_up, round_up_add by (done || unfold BH; lia). done.
  - unfold gforth_free_stacks. cbn [lp0 up0]. f_equal. rewrite wholepage_round_up by (done || unfold BH; lia).
    replace (l + lsize + pagesize - a) with ((l + pagesize - a) + lsize) by lia.
    rewrite round_up_add; [lia|done|]. replace (l + pagesize - a) with
      (2 * pagesize + round_up pagesize dsize + pagesize + round_up pagesize rsize +
       pagesize + round_up pagesize fsize + pagesize + pagesize) by (subst l; lia).
    replace (2 * pagesize) with (pagesize + pagesize) by lia. auto 20 with page.
Qed.

Lemma stacks_layout_witness :
  exists t, gforth_stacks 4096 8192 (fun _ _ => 1048576) (fun _ => 0) false 10000 4096 4096 100 =
    Some (mkStacks t [1052672; 1069056; 1077248; 1085440; 1093632]) /\
    gforth_free_stacks 4096 8192 t = (1048576, 65536).
Proof.
  destruct (stacks_layout 4096 8192 (fun _ _ => 1048576) (fun _ => 0) false 10000 4096 4096 100)
    as (t & g1 & g2 & g3 & g4 & g5 & E & _ & _ & _ & _ & _ & _ & _ & _ & _ & _ & _ & _ & F).
  - discriminate.
  - constructor; try (vm_compute; repeat split; done). exists 12. split; [lia|reflexivity].
  - exists t. vm_compute in E. injection E as <- <- <- <- <- <-. split; [reflexivity|exact F].
Defined.
