(* ===== verification/Image.v ===== *)
(** * Loading an image file ([checkimage], [open_image_file], [checksum],
    [dict_alloc_read] and [gforth_loader] of engine/main.c)

    An image file is a preamble in blocks of eight bytes up to the one that
    holds the magic, then the main section and its tag bits, then further
    sections, each announced by a marker.  Files are lists of bytes with a
    position, addresses of allocated memory are arguments. *)
From S2P Require Import Prelude Memory LineIO Files Relocate CheckPrims Stacks.

(** ** Streams *)

Record stream := mkStream { st_bytes : list Z; st_pos : nat }.

Definition fread (n : nat) (f : stream) : list Z * stream :=
  let l := take n (drop (st_pos f) (st_bytes f)) in
  (l, mkStream (st_bytes f) (st_pos f + length l)).
Definition fseek_set (off : Z) (f : stream) : stream := mkStream (st_bytes f) (Z.to_nat off).
Definition fseek_cur (off : Z) (f : stream) : stream :=
  mkStream (st_bytes f) (Z.to_nat (Z.of_nat (st_pos f) + off)).

(** The [i]th cell of a record read from a file. *)
Definition cell_of (l : list Z) (i : nat) : Z := le_val (take 8 (drop (8 * i) l)).

(** ** Finding the image *)

(** "Gforth6" *)
Definition Gforth6 : list Z := [71; 102; 111; 114; 116; 104; 54].

(** The size byte of this machine: [RELINFOBITS] 8, one-byte characters,
    eight-byte cells, little-endian. *)
Definition log2_size (n : Z) : Z := if n =? 1 then 0 else if n =? 2 then 1 else if n =? 4 then 2 else 3.
Definition ausize : Z :=
  let r := Z.of_nat RELINFOBITS in
  if r =? 8 then 0 else if r =? 16 then 1 else if r =? 32 then 2 else 3.
Definition charsize : Z := log2_size 1 + ausize.
Definition cellsize : Z := log2_size 8 + ausize.
Definition sizebyte : Z :=
  Z.shiftl ausize 5 + Z.shiftl charsize 3 + Z.shiftl cellsize 1 + 1.

(** The [do] loop: the magic found and the preamble size; [None] when a block
    is incomplete.  Every pass consumes eight bytes. *)
Fixpoint skip_preamble (fuel : nat) (preamblesize : Z) (f : stream)
    : option (list Z * Z * stream) :=
  match fuel with
  | O => None
  | S fuel =>
      let '(magic, f) := fread 8 f in
      if (length magic <? 8)%nat then None
      else
        let preamblesize := preamblesize + 8 in
        if bool_decide (take 7 magic = Gforth6) then Some (magic, preamblesize, f)
        else skip_preamble fuel preamblesize f
  end.

Section Finding.
Context {W : Type} `{OS W}.
Context (w : W) (progname : list Z).

Definition openimage (fullfilename : list Z) : option stream :=
  match fopen w (c_string (tilde_cstr w fullfilename)) with
  | Some l => Some (mkStream l 0)
  | None => None
  end.

(** The stream behind the magic and [preamblesize]. *)
Definition checkimage (path : list Z) (len : nat) (imagename : list Z) : option (stream * Z) :=
  let dir := take len path in
  let dir := if (0 <? len)%nat && negb (nth (len - 1) dir 0 =? DIRSEP) then dir ++ [DIRSEP] else dir in
  match openimage (dir ++ imagename) with
  | None => None
  | Some imagefile =>
      match skip_preamble (S (length (st_bytes imagefile))) 0 imagefile with
      | None => None
      | Some (magic, preamblesize, imagefile) =>
          if negb (nth 7 magic 0 =? sizebyte) then None else Some (imagefile, preamblesize)
      end
  end.

(** [strchr] and [strrchr]: the position *)
Fixpoint strchr (l : list Z) (c : Z) : option nat :=
  match l with
  | [] => None
  | x :: l => if x =? c then Some 0%nat else S <$> strchr l c
  end.
Fixpoint strrchr (l : list Z) (c : Z) : option nat :=
  match l with
  | [] => None
  | x :: l => match strrchr l c with
              | Some i => Some (S i)
              | None => if x =? c then Some 0%nat else None
              end
  end.

Definition onlypath (filename : list Z) : option nat := strrchr filename DIRSEP.

Definition PATHSEP : Z := 58.

(** The [do] loop over the path; it consumes the path, so its length is fuel
    enough. *)
Fixpoint search_path (fuel : nat) (path imagename : list Z) : option (stream * Z) :=
  match fuel with
  | O => None
  | S fuel =>
      let pend := match strchr path PATHSEP with Some i => i | None => length path end in
      match path with
      | [] => None
      | _ =>
          match checkimage path pend imagename with
          | Some r => Some r
          | None =>
              let path := drop pend path in
              search_path fuel
                (match path with c :: path' => if c =? PATHSEP then path' else path | [] => path end)
                imagename
          end
      end
  end.

Definition open_image_file (imagename path : list Z) : option (stream * Z) :=
  match strchr imagename DIRSEP with
  | None =>
      let image_file :=
        match onlypath progname with
        | Some i => checkimage progname i imagename
        | None => None
        end in
      match image_file with
      | Some r => Some r
      | None => search_path (S (length path)) path imagename
      end
  | Some _ => checkimage [] 0 imagename
  end.
End Finding.

(** ** Checksum of the primitives *)

Definition PRIM_VERSION : Z := 1.

(** [r ^= symbols[i]; r = (r << 5) | (r >> (8*sizeof(Cell)-5));] *)
Definition checksum_step (r label : Z) : Z :=
  let r := Z.lxor r (U64 label) in
  Z.lor (U64 (Z.shiftl r 5)) (Z.shiftr r (64 - 5)).

(** The labels of the doers, then those of the primitives up to the zero. *)
Fixpoint checksum_prims (r : Z) (symbols : list Z) : Z :=
  match symbols with
  | [] => r
  | l :: symbols => if l =? 0 then r else checksum_prims (checksum_step r l) symbols
  end.
Definition checksum (symbols : list Z) : Z :=
  let ndoers := Z.to_nat (DOER_MAX - DOCOL + 1) in
  checksum_prims (fold_left checksum_step (take ndoers symbols) PRIM_VERSION) (drop ndoers symbols).

(** ** Memory for the main section *)

(** The first [imagesize] bytes at the address, and whether native code has to
    be disabled. *)
Record dict_image := mkDict { di_addr : Z; di_contents : list Z; di_no_dynamic : bool }.

(** A file mapping: zero behind the end of the file. *)
Definition map_file (l : list Z) (imagesize : nat) : list Z :=
  take imagesize l ++ replicate (imagesize - length l) 0.

Section Loading.
Context (pagesize : Z) (map_32bit : bool).
(** The calls of [mmap] for anonymous memory, by section; [malloc]; whether
    the file can be mapped with and without execute permission. *)
Context (mmap : nat -> bool -> Z -> Z) (malloc : Z -> Z) (map_exec map_rw : bool).
(** Indeterminate bytes. *)
Context (junk : nat -> list Z).

Definition dict_alloc_read (file : stream) (imagesize : nat) (dictsize offset : Z) (no_dynamic : bool)
    : option dict_image :=
  let image := if offset =? 0 then (alloc_mmap_guard pagesize (mmap 0) map_32bit dictsize).1
               else MAP_FAILED in
  if negb (image =? MAP_FAILED) then
    if map_exec then Some (mkDict image (map_file (st_bytes file) imagesize) no_dynamic)
    else if map_rw then Some (mkDict image (map_file (st_bytes file) imagesize) true)
    else Some (mkDict image (replicate imagesize 0) true)
  else
    let image := gforth_alloc (mmap 0) malloc map_32bit (dictsize + offset) + offset in
    if image =? 0 then None
    else
      let '(l, _) := fread imagesize (fseek_set 0 file) in
      if (length l =? imagesize)%nat then Some (mkDict image l no_dynamic) else None.

(** ** The sections *)

(** Entry [i] of the arrays [sections], [sizes], [bases] and [reloc_bits], with
    the bytes at the address. *)
Record loaded := mkLoaded {
  ld_addr : Z; ld_bytes : list Z; ld_size : Z; ld_base : Z; ld_bits : option (list Z)
}.

(** "Section." *)
Definition Section_ : list Z := [83; 101; 99; 116; 105; 111; 110; 46].

Definition reloc_size (size : Z) : nat := Z.to_nat (U64 (size - 1) / 8 / 8 + 1).

(** [for(i=0; i<0xFE; )], [fuel] is [0xFE-i]; the current section has no bits
    yet.  [None] is [return NULL]. *)
Fixpoint load_sections (fuel i : nat) (cur : loaded) (f : stream) : option (list loaded) :=
  match fuel with
  | O => Some [cur]
  | S fuel =>
      let next (cur : loaded) (f : stream) : option (list loaded) :=
        let '(magic, f) := fread 8 f in
        if negb (length magic =? 8)%nat then Some [cur]
        else if negb (bool_decide (magic = Section_)) then Some [cur]
        else
          let '(section, f) := fread 24 f in
          if negb (length section =? 24)%nat then Some [cur]
          else
            let base := INSECTION (cell_of section 0) in
            let size := U64 (cell_of section 2 - cell_of section 0) in
            let addr := (alloc_mmap_guard pagesize (mmap (S i)) map_32bit (cell_of section 1)).1 in
            let f := fseek_cur (-24) f in
            let '(bytes, f) := fread (Z.to_nat size) f in
            let new := mkLoaded addr bytes size base None in
            if negb (Z.of_nat (length bytes) =? size) then Some [cur; new]
            else rest ← load_sections fuel (S i) new f; Some (cur :: rest)
      in
      if (ld_base cur =? 0) || (ld_base cur =? 0x100) then
        let n := reloc_size (ld_size cur) in
        let '(bits, f) := fread n f in
        let with_bits b := mkLoaded (ld_addr cur) (ld_bytes cur) (ld_size cur) (ld_base cur) (Some b) in
        if negb (n =? length bits)%nat then Some [with_bits (bits ++ junk (n - length bits))]
        else next (with_bits bits) f
      else if negb (ld_base cur =? ld_addr cur) then None
      else next cur f
  end.

(** The bytes of a section as cells. *)
Fixpoint cells_of (n : nat) (l : list Z) : list Z :=
  match n with
  | O => []
  | S n => S64 (le_val (take 8 l)) :: cells_of n (drop 8 l)
  end.
Definition section_of (s : loaded) : section_in :=
  mkSection (cells_of (length (ld_bytes s) / 8) (ld_bytes s)) (ld_bits s) (ld_size s) (ld_base s).

(** ** The loader *)

Definition header_size : nat := 160.
(** The size fields of [ImageHeader]. *)
Definition header_sizes (h : list Z) : sizes :=
  mkSizes (cell_of h 1) (cell_of h 8) (cell_of h 9) (cell_of h 10) (cell_of h 11).

(** [set_stack_sizes] also stores the sizes into the header. *)
Definition cell_bytes (v : Z) : list Z :=
  map (fun i => Z.land (Z.shiftr (U64 v) (8 * Z.of_nat i)) 255) (seq 0 8).
Definition set_cell (l : list Z) (i : nat) (v : Z) : list Z :=
  take (8 * i) l ++ cell_bytes v ++ drop (8 * i + 8) l.
Definition store_sizes (s : sizes) (l : list Z) : list Z :=
  let l := set_cell l 1 (s_dict s) in
  let l := set_cell l 8 (s_data s) in
  let l := set_cell l 9 (s_fp s) in
  let l := set_cell l 10 (s_return s) in
  set_cell l 11 (s_locals s).

Record image := mkImage {
  im_addr : Z;                                              (** the result *)
  im_sections : list (reloc_state * list compile_event);
  im_sizes : sizes;
  im_relocating : bool;                                     (** [no_dynamic] while the image is relocated *)
  im_no_dynamic : bool                                      (** [no_dynamic] afterwards *)
}.

(** [LoadFailed] is NULL, and [LoadFault] an access outside the relocation
    tables; both end the process, and what the globals are then is left out. *)
Inductive load_result := LoadFailed | LoadFault | Loaded (im : image).

(** The checksum is stored in the image if the header has none. *)
Definition set_checksum (check_sum : Z) (l : list (reloc_state * list compile_event))
    : list (reloc_state * list compile_event) :=
  match l with
  | (r, ev) :: l =>
      (mkReloc (<[17%nat := S64 check_sum]> (rs_image r)) (rs_bits r) (rs_targets r) (rs_flushes r), ev) :: l
  | [] => []
  end.

Context {W : Type} `{OS W}.
Context (w : W) (progname : list Z) (init_status : Z) (given : sizes).
(** The options, as they are at the call. *)
Context (offset_image no_dynamic_orig no_dynamic_image : bool).
Context (vm_prims npriminfos : Z) (prim_label : Z -> Z) (groups : list Z).
(** The label arrays of the two engines and the code of these. *)
Context (symbols symbols2 : list Z) (code : memory).

(** [no_dynamic] after [check_prims]; the table of [PrimInfo]s is the subject
    of CheckPrims. *)
Definition after_check_prims (no_dynamic : bool) : bool :=
  no_dynamic || negb (goto_relocatable symbols symbols2 code).

Definition gforth_loader (imagename path : list Z) : load_result :=
  match open_image_file w progname imagename path with
  | None => LoadFailed
  | Some (imagefile, preamblesize) =>
      if negb (init_status =? 0) then LoadFailed
      else
        let '(h, imagefile) := fread header_size imagefile in
        let header := h ++ junk (header_size - length h) in
        let stacks := set_stack_sizes given (header_sizes header) in
        let data_offset := if offset_image then 56 * 8 else 0 in
        let size := U64 (cell_of header 2 - cell_of header 0) in
        let imagesize := Z.to_nat (preamblesize + size) in
        match dict_alloc_read imagefile imagesize (s_dict stacks) data_offset no_dynamic_orig with
        | None => LoadFailed
        | Some d =>
            let no_dynamic := after_check_prims (di_no_dynamic d) in
            let check_sum := checksum symbols in
            let imp := di_addr d + preamblesize in
            let bytes := drop (Z.to_nat preamblesize) (di_contents d) in
            let stacks := set_stack_sizes stacks (header_sizes bytes) in
            let bytes := store_sizes stacks bytes in
            let imagefile := fseek_set (preamblesize + size) imagefile in
            match load_sections 0xFE 0 (mkLoaded imp bytes size (cell_of header 0) None) imagefile with
            | None => LoadFailed
            | Some secs =>
                let no_dynamic := no_dynamic || no_dynamic_image in
                match gforth_relocate vm_prims npriminfos prim_label
                        (map ld_addr secs) (map ld_base secs) groups (map section_of secs) with
                | None => LoadFault
                | Some rel =>
                    let relocating := no_dynamic in
                    let no_dynamic := no_dynamic_orig in
                    if cell_of header 17 =? 0 then
                      Loaded (mkImage imp (set_checksum check_sum rel) stacks relocating no_dynamic)
                    else if negb (cell_of header 17 =? check_sum) then LoadFailed
                    else Loaded (mkImage imp rel stacks relocating no_dynamic)
                end
            end
        end
  end.
End Loading.

(** ** The format of image files *)

(** A section: its bytes and its tag bits. *)
Record section_src := mkSrc { sc_bytes : list Z; sc_bits : list Z }.

Definition section_text (s : section_src) : list Z := sc_bytes s ++ sc_bits s.
Definition more_sections (l : list section_src) : list Z :=
  concat (map (fun s => Section_ ++ section_text s) l).

(** What comp-image writes: the preamble, the magic, and the sections. *)
Definition image_file (pre : list (list Z)) (s : section_src) (l : list section_src) : list Z :=
  concat pre ++ (Gforth6 ++ [sizebyte]) ++ section_text s ++ more_sections l.

(** The first three cells give the base, for a relocatable section the number
    of the section alone, the size to allocate, and the end of the contents. *)
Record wf_src (s : section_src) : Prop := {
  src_header : (24 <= length (sc_bytes s))%nat;
  src_base : INSECTION (cell_of (sc_bytes s) 0) = 0;
  src_size : U64 (cell_of (sc_bytes s) 2 - cell_of (sc_bytes s) 0) = Z.of_nat (length (sc_bytes s));
  src_bits : length (sc_bits s) = reloc_size (Z.of_nat (length (sc_bytes s)))
}.

(** Preamble blocks: eight bytes, none with the magic. *)
Definition wf_pre (pre : list (list Z)) : Prop :=
  Forall (fun b => length b = 8%nat /\ take 7 b <> Gforth6) pre.

(** ** Lemmas: streams *)

Definition at_pos (pre rest : list Z) : stream := mkStream (pre ++ rest) (length pre).

Lemma fread_at pre a rest n :
  n = length a -> fread n (at_pos pre (a ++ rest)) = (a, at_pos (pre ++ a) rest).
Proof.
  intros ->. unfold fread, at_pos. cbn [st_bytes st_pos].
  rewrite drop_app_length, take_app_length, <- app_assoc, length_app. done.
Qed.

Lemma fread_short pre rest n :
  (length rest < n)%nat -> (fread n (at_pos pre rest)).1 = rest.
Proof.
  intros H. unfold fread, at_pos. cbn [st_bytes st_pos fst].
  by rewrite drop_app_length, take_ge by lia.
Qed.

Lemma fseek_back pre a rest k :
  k = - Z.of_nat (length a) -> fseek_cur k (at_pos (pre ++ a) rest) = at_pos pre (a ++ rest).
Proof.
  intros ->. unfold fseek_cur, at_pos. cbn [st_bytes st_pos]. rewrite length_app, <- app_assoc.
  f_equal. lia.
Qed.

Lemma fseek_at pre rest k f :
  k = Z.of_nat (length pre) -> st_bytes f = pre ++ rest -> fseek_set k f = at_pos pre rest.
Proof. intros -> Hb. unfold fseek_set, at_pos. rewrite Hb. f_equal. lia. Qed.

Lemma skip_preamble_spec pre magic rest fuel n done_ :
  wf_pre pre -> length magic = 8%nat -> take 7 magic = Gforth6 -> (length pre < fuel)%nat ->
  skip_preamble fuel n (at_pos done_ (concat pre ++ magic ++ rest)) =
  Some (magic, n + 8 * Z.of_nat (length pre) + 8, at_pos (done_ ++ concat pre ++ magic) rest).
Proof.
  intros Hp Hm Ht. revert fuel n done_. induction Hp as [|b pre [Hb Hb7] Hp IH]; intros [|fuel] n done_ Hf;
    try (cbn in Hf; lia); cbn [skip_preamble concat].
  - cbn [app]. rewrite fread_at by done. rewrite Hm. change (8 <? 8)%nat with false. cbv iota.
    rewrite bool_decide_eq_true_2 by done. cbn [length].
    by replace (n + 8 * Z.of_nat 0 + 8) with (n + 8) by lia.
  - rewrite <- app_assoc, fread_at by done. rewrite Hb. change (8 <? 8)%nat with false. cbv iota.
    rewrite bool_decide_eq_false_2 by done. cbn [length] in Hf. rewrite IH by lia.
    cbn [length]. rewrite <- !app_assoc.
    by replace (n + 8 + 8 * Z.of_nat (length pre) + 8) with (n + 8 * Z.of_nat (S (length pre)) + 8) by lia.
Qed.

(** ** Lemmas: sections *)

Section LoadLemmas.
Context (pagesize : Z) (map_32bit : bool) (mmap : nat -> bool -> Z -> Z) (junk : nat -> list Z).

(** Where section [i] is loaded, and the whole table from there on. *)
Definition section_addr (i : nat) (s : section_src) : Z :=
  (alloc_mmap_guard pagesize (mmap i) map_32bit (cell_of (sc_bytes s) 1)).1.
Fixpoint loaded_from (i : nat) (l : list section_src) : list loaded :=
  match l with
  | [] => []
  | s :: l =>
      mkLoaded (section_addr i s) (sc_bytes s) (Z.of_nat (length (sc_bytes s))) 0 (Some (sc_bits s))
      :: loaded_from (S i) l
  end.

Lemma cell_of_prefix l i n : (8 * i + 8 <= n)%nat -> cell_of (take n l) i = cell_of l i.
Proof using.
  intros Hn. unfold cell_of. rewrite skipn_firstn_comm, firstn_firstn, Nat.min_l by lia. done.
Qed.

Lemma load_sections_spec fuel i addr bytes size bits l pre :
  (length l < fuel)%nat -> Forall wf_src l -> length bits = reloc_size size ->
  load_sections pagesize map_32bit mmap junk fuel i (mkLoaded addr bytes size 0 None)
    (at_pos pre (bits ++ more_sections l)) =
  Some (mkLoaded addr bytes size 0 (Some bits) :: loaded_from (S i) l).
Proof using.
  revert i addr bytes size bits l pre. induction fuel as [|fuel IH];
    intros i addr bytes size bits l pre Hl Hw Hb; [lia|].
  cbn [load_sections ld_base ld_size ld_addr ld_bytes]. change (0 =? 0) with true. cbn [orb].
  rewrite fread_at by done. rewrite Hb, Nat.eqb_refl. cbn [negb].
  destruct l as [|s l].
  - pose proof (fread_short (pre ++ bits) [] 8 ltac:(cbn; lia)) as Hs.
    change (more_sections []) with (@nil Z).
    destruct (fread 8 (at_pos (pre ++ bits) [])) as [m f]. cbn in Hs. subst m. done.
  - inversion Hw as [|s' l' [Hh Hba Hsz Hbi] Hw']; subst. cbn [length] in Hl.
    unfold more_sections. cbn [map concat]. fold (more_sections l).
    rewrite <- app_assoc, fread_at by done. rewrite bool_decide_eq_true_2 by done.
    change (negb (length Section_ =? 8)%nat) with false. cbv iota. cbn [negb].
    unfold section_text. rewrite <- app_assoc.
    set (hd := take 24 (sc_bytes s)). assert (Hhd : length hd = 24%nat) by (apply length_take_le; lia).
    rewrite <- (take_drop 24 (sc_bytes s)) at 1. fold hd.
    rewrite <- !app_assoc, (fread_at (pre ++ bits ++ Section_) hd) by done.
    rewrite Hhd, Nat.eqb_refl. cbn [negb].
    assert (Hc : forall j, (j < 3)%nat -> cell_of hd j = cell_of (sc_bytes s) j)
      by (intros j Hj; apply cell_of_prefix; lia).
    rewrite !(Hc 0%nat), !(Hc 1%nat), !(Hc 2%nat) by lia.
    rewrite (fseek_back (pre ++ bits ++ Section_) hd) by (by rewrite Hhd).
    rewrite (app_assoc hd). unfold hd. rewrite take_drop, Hba, Hsz, fread_at by lia.
    rewrite Z.eqb_refl. cbn [negb]. rewrite IH by (try done; lia). done.
Qed.
End LoadLemmas.

(** ** Lemmas: finding the image *)

Lemma fread_bytes n f : st_bytes (fread n f).2 = st_bytes f.
Proof. done. Qed.

Lemma skip_preamble_bytes fuel n f m k f' :
  skip_preamble fuel n f = Some (m, k, f') -> st_bytes f' = st_bytes f.
Proof.
  revert n f. induction fuel as [|fuel IH]; intros n f; [done|]. cbn [skip_preamble].
  pose proof (fread_bytes 8 f) as Hb. destruct (fread 8 f) as [magic f1]. cbn [snd] in Hb.
  destruct (_ <? _)%nat; [done|]. destruct (bool_decide _).
  - by intros [= <- <- <-].
  - intros H. by rewrite (IH _ _ H).
Qed.

Section FindLemmas.
Context {W : Type} `{OS W} (w : W) (progname : list Z).

(** Where the header of an image file begins. *)
Definition preamble (pre : list (list Z)) : list Z := concat pre ++ Gforth6 ++ [sizebyte].

Lemma checkimage_at path len imagename f n pre s l :
  checkimage w path len imagename = Some (f, n) -> st_bytes f = image_file pre s l -> wf_pre pre ->
  f = at_pos (preamble pre) (section_text s ++ more_sections l) /\ n = Z.of_nat (length (preamble pre)).
Proof using.
  unfold checkimage. destruct (openimage w _) as [g|] eqn:Eo; [|done].
  destruct (skip_preamble _ _ g) as [[[m k] f']|] eqn:Es; [|done].
  destruct (nth 7 m 0 =? sizebyte); cbn [negb]; [|done]. intros [= <- <-] Hb Hp.
  pose proof (skip_preamble_bytes _ _ _ _ _ _ Es) as Hg. rewrite Hb in Hg.
  assert (g = at_pos [] (image_file pre s l)) as ->.
  { unfold openimage in Eo. destruct (fopen _ _); [|done]. injection Eo as <-. cbn in Hg. by subst. }
  unfold image_file in Es. rewrite skip_preamble_spec in Es; try done.
  - injection Es as <- <- <-. split; [done|]. unfold preamble. rewrite !length_app.
    assert (length (concat pre) = 8 * length pre)%nat as ->; [|cbn; lia].
    clear -Hp. induction Hp as [|b pre [Hb _] _ IH]; [done|]. cbn [concat length].
    rewrite length_app, Hb, IH. lia.
  - cbn [st_bytes at_pos app]. rewrite !length_app.
    assert (length pre <= length (concat pre))%nat; [|cbn; lia].
    clear -Hp. induction Hp as [|b pre [Hb _] _ IH]; [done|]. cbn [concat length]. rewrite length_app. lia.
Qed.

Lemma search_path_check fuel path imagename r :
  search_path w fuel path imagename = Some r ->
  exists p k, checkimage w p k imagename = Some r.
Proof using.
  revert path. induction fuel as [|fuel IH]; intros path; [done|]. cbn [search_path].
  destruct path as [|c path]; [done|].
  destruct (checkimage _ _ _ _) as [r'|] eqn:E; [|apply IH]. intros [= <-]. by eauto.
Qed.

Lemma open_image_file_check imagename path r :
  open_image_file w progname imagename path = Some r ->
  exists p k, checkimage w p k imagename = Some r.
Proof using.
  unfold open_image_file. destruct (strchr imagename DIRSEP); [eauto|].
  destruct (onlypath progname) as [i|]; [|apply search_path_check].
  destruct (checkimage w progname i imagename) as [r'|] eqn:E; [|apply search_path_check].
  intros [= <-]. eauto.
Qed.

(** *** The search order *)

Fixpoint first_some {A B} (f : A -> option B) (l : list A) : option B :=
  match l with
  | [] => None
  | a :: l => match f a with Some b => Some b | None => first_some f l end
  end.

(** Directories with colons in between. *)
Fixpoint join_path (dirs : list (list Z)) : list Z :=
  match dirs with
  | [] => []
  | [d] => d
  | d :: dirs => d ++ PATHSEP :: join_path dirs
  end.

Lemma strchr_none l c : ~ In c l -> strchr l c = None.
Proof using.
  induction l as [|x l IH]; intros Hn; [done|]. cbn [strchr].
  destruct (Z.eqb_spec x c) as [->|]; [destruct Hn; by left|]. rewrite IH; [done|].
  intros Hi. apply Hn. by right.
Qed.
Lemma strchr_app l k c : ~ In c l -> strchr (l ++ c :: k) c = Some (length l).
Proof using.
  induction l as [|x l IH]; intros Hn; cbn [app strchr length]; [by rewrite Z.eqb_refl|].
  destruct (Z.eqb_spec x c) as [->|]; [destruct Hn; by left|]. rewrite IH; [done|].
  intros Hi. apply Hn. by right.
Qed.

Lemma checkimage_take path len imagename :
  checkimage w (take len path) len imagename = checkimage w path len imagename.
Proof using. unfold checkimage. by rewrite firstn_firstn, Nat.min_id. Qed.

Lemma search_path_order dirs imagename fuel :
  Forall (fun d => ~ In PATHSEP d) dirs -> List.last dirs [PATHSEP] <> [] ->
  (length (join_path dirs) < fuel)%nat ->
  search_path w fuel (join_path dirs) imagename =
  first_some (fun d => checkimage w d (length d) imagename) dirs.
Proof using.
  intros Hd. revert fuel. induction Hd as [|d dirs Hd Hds IH]; intros fuel Hl Hf.
  { destruct fuel; [lia|done]. }
  destruct fuel as [|fuel]; [lia|]. cbn [first_some]. destruct dirs as [|d2 dirs].
  - cbn [join_path] in *. destruct d as [|c d]; [done|]. cbn [search_path].
    rewrite strchr_none by done. destruct (checkimage _ _ _ _); [done|].
    rewrite drop_all. destruct fuel; done.
  - change (join_path (d :: d2 :: dirs)) with (d ++ PATHSEP :: join_path (d2 :: dirs)) in *.
    rewrite length_app in Hf. cbn [length] in Hf.
    assert (Hc : search_path w (S fuel) (d ++ PATHSEP :: join_path (d2 :: dirs)) imagename =
      match checkimage w d (length d) imagename with
      | Some r => Some r
      | None => search_path w fuel (join_path (d2 :: dirs)) imagename
      end).
    { cbn [search_path]. rewrite strchr_app by done. rewrite drop_app_length.
      rewrite <- checkimage_take, take_app_length. change (PATHSEP =? PATHSEP) with true. cbv iota.
      destruct d; done. }
    rewrite Hc, IH by (try done; lia). done.
Qed.
End FindLemmas.

(** ** Lemmas: the loader *)

Lemma header_sizes_prefix l n : (96 <= n)%nat -> header_sizes (take n l) = header_sizes l.
Proof. intros Hn. unfold header_sizes. by rewrite !cell_of_prefix by lia. Qed.

Lemma header_cells l tail j :
  (header_size <= length l)%nat -> (j < 20)%nat ->
  cell_of (take header_size l ++ tail) j = cell_of l j.
Proof.
  unfold header_size. intros Hl Hj. unfold cell_of.
  rewrite drop_app_le by (rewrite length_take_le; lia).
  rewrite take_app_le by (rewrite length_drop, length_take_le; lia).
  fold (cell_of (take 160 l) j). apply cell_of_prefix. lia.
Qed.

(** The main section of a relocatable image. *)
Record wf_main (s : section_src) : Prop := {
  main_header : (header_size <= length (sc_bytes s))%nat;
  main_base : cell_of (sc_bytes s) 0 = 0;
  main_size : cell_of (sc_bytes s) 2 = Z.of_nat (length (sc_bytes s));
  main_small : Z.of_nat (length (sc_bytes s)) < B;
  main_bits : length (sc_bits s) = reloc_size (Z.of_nat (length (sc_bytes s)))
}.

Lemma dict_alloc_read_contents pagesize map_32bit mmap malloc map_exec map_rw pre rest f n dictsize offset nd d :
  (map_exec || map_rw = true)%bool -> st_bytes f = pre ++ rest -> n = length pre ->
  dict_alloc_read pagesize map_32bit mmap malloc map_exec map_rw f n dictsize offset nd = Some d ->
  di_contents d = pre.
Proof.
  intros Hm Hb -> . unfold dict_alloc_read. rewrite Hb. unfold map_file.
  rewrite take_app_length, length_app. replace (length pre - (length pre + length rest))%nat with 0%nat by lia.
  cbn [replicate]. rewrite app_nil_r. cbv zeta. destruct (negb _).
  - destruct map_exec; [by intros [= <-]|]. destruct map_rw; [by intros [= <-]|done].
  - destruct (_ =? 0); [done|]. rewrite (fseek_at [] (pre ++ rest) 0 f) by done.
    rewrite fread_at by done. destruct (length pre =? length pre)%nat; [|done]. by intros [= <-].
Qed.

Section Loader.
Context {W : Type} `{OS W}.
Context (pagesize : Z) (map_32bit : bool) (mmap : nat -> bool -> Z -> Z) (malloc : Z -> Z).
Context (map_exec map_rw : bool) (junk : nat -> list Z).
Context (w : W) (progname : list Z) (given : sizes) (offset_image no_dynamic no_dynamic_image : bool).
Context (vm_prims npriminfos : Z) (prim_label : Z -> Z) (groups symbols symbols2 : list Z) (code : memory).

Definition data_offset : Z := if offset_image then 56 * 8 else 0.
(** The sizes after both calls of [set_stack_sizes]. *)
Definition final_sizes (s : section_src) : sizes :=
  set_stack_sizes (set_stack_sizes given (header_sizes (sc_bytes s))) (header_sizes (sc_bytes s)).

(** The sections of the image in memory, the main one at [imp]. *)
Definition image_sections (imp : Z) (s : section_src) (l : list section_src) : list loaded :=
  mkLoaded imp (store_sizes (final_sizes s) (sc_bytes s)) (Z.of_nat (length (sc_bytes s))) 0 (Some (sc_bits s))
  :: loaded_from pagesize map_32bit mmap 1 l.

Definition relocated_image (imp : Z) (s : section_src) (l : list section_src)
    : option (list (reloc_state * list compile_event)) :=
  let secs := image_sections imp s l in
  gforth_relocate vm_prims npriminfos prim_label (map ld_addr secs) (map ld_base secs) groups
    (map section_of secs).

(** Dynamic code generation is disabled while the image is relocated if it is
    anyway, if the image cannot be mapped with execute permission, if the
    engine's [goto *] is not relocatable, or by [--no-dynamic-image]. *)
Definition relocating (d : dict_image) : bool :=
  di_no_dynamic d || negb (goto_relocatable symbols symbols2 code) || no_dynamic_image.

Lemma loader_spec imagename path f n pre s l d :
  wf_pre pre -> wf_main s -> Forall wf_src l -> (length l < 254)%nat ->
  open_image_file w progname imagename path = Some (f, n) -> st_bytes f = image_file pre s l ->
  (map_exec || map_rw = true)%bool ->
  (forall g, st_bytes g = st_bytes f ->
     dict_alloc_read pagesize map_32bit mmap malloc map_exec map_rw g
       (length (preamble pre ++ sc_bytes s))
       (s_dict (set_stack_sizes given (header_sizes (sc_bytes s)))) data_offset no_dynamic = Some d) ->
  gforth_loader pagesize map_32bit mmap malloc map_exec map_rw junk w progname 0 given offset_image
    no_dynamic no_dynamic_image vm_prims npriminfos prim_label groups symbols symbols2 code imagename path =
  let imp := di_addr d + Z.of_nat (length (preamble pre)) in
  match relocated_image imp s l with
  | None => LoadFault
  | Some rel =>
      let given_sum := cell_of (sc_bytes s) 17 in
      if given_sum =? 0 then
        Loaded (mkImage imp (set_checksum (checksum symbols) rel) (final_sizes s) (relocating d) no_dynamic)
      else if negb (given_sum =? checksum symbols) then LoadFailed
      else Loaded (mkImage imp rel (final_sizes s) (relocating d) no_dynamic)
  end.
Proof using.
  intros Hp [Hh H0 H2 HB Hbits] Hl Hn Ho Hb Hm Hd. unfold header_size in Hh.
  destruct (open_image_file_check w progname imagename path (f, n) Ho) as (p & k & Hc).
  destruct (checkimage_at w p k imagename f n pre s l Hc Hb Hp) as [-> ->].
  unfold gforth_loader. rewrite Ho. change (negb (0 =? 0)) with false. cbv iota.
  set (P := preamble pre) in *. set (D := sc_bytes s) in *.
  set (hd := take header_size D). assert (Hhl : length hd = 160%nat) by (apply length_take_le; exact Hh).
  unfold section_text at 1. rewrite <- app_assoc. fold D.
  rewrite <- (take_drop header_size D) at 1. fold hd. rewrite <- app_assoc.
  rewrite fread_at by (by rewrite Hhl). rewrite Hhl. change (header_size - 160)%nat with 0%nat.
  assert (Hjunk : forall j, (j < 20)%nat -> cell_of (hd ++ junk 0) j = cell_of D j)
    by (intros j Hj; by apply header_cells).
  assert (Hsz : header_sizes (hd ++ junk 0) = header_sizes D).
  { unfold header_sizes. by rewrite !Hjunk by lia. }
  rewrite Hsz, !Hjunk by lia. rewrite H0, H2, Z.sub_0_r, U64_small by (unfold is_ucell; lia).
  cbv zeta. fold data_offset.
  replace (Z.to_nat (Z.of_nat (length P) + Z.of_nat (length D))) with (length (P ++ D))
    by (rewrite length_app; lia).
  set (g := at_pos (P ++ hd) _).
  assert (Hg : st_bytes g = (P ++ D) ++ sc_bits s ++ more_sections l).
  { unfold g, at_pos, hd. cbn [st_bytes]. rewrite <- !app_assoc. f_equal.
    by rewrite (app_assoc (take header_size D)), take_drop. }
  rewrite (Hd g). 2: { rewrite Hg, Hb. unfold image_file, P, preamble, section_text, D. by rewrite <- !app_assoc. }
  pose proof (Hd g) as Hd'. rewrite (dict_alloc_read_contents _ _ _ _ _ _ (P ++ D) _ g _ _ _ _ d Hm Hg eq_refl)
    by (apply Hd; rewrite Hg, Hb; unfold image_file, P, preamble, section_text, D; by rewrite <- !app_assoc).
  clear Hd'. rewrite Nat2Z.id, drop_app_length.
  rewrite (fseek_at (P ++ D) (sc_bits s ++ more_sections l)) by (rewrite ?length_app; lia || done).
  rewrite load_sections_spec by done. unfold relocated_image, image_sections, final_sizes. done.
Qed.
End Loader.

(** ** Properties *)


(** One file, "./i": a block of preamble, a main section of 160 bytes, and a
    section of 24 bytes. *)
Definition demo_main : section_src :=
  mkSrc (replicate 16 0 ++ 160 :: replicate 143 0) [0; 0; 0].
Definition demo_more : section_src := mkSrc (replicate 8 0 ++ 64 :: replicate 7 0 ++ 24 :: replicate 7 0) [0].
Definition demo_pre : list (list Z) := [[35; 33; 32; 47; 98; 105; 110; 10]].
Definition demo_image : list Z := image_file demo_pre demo_main [demo_more].
#[local] Instance demo_os : OS unit := {|
  getenv := fun _ _ => None;
  getpwnam := fun _ _ => None;
  access := fun _ _ _ => false;
  open := fun w _ _ _ => (-1, w);
  fdopen := fun w _ _ => (0, w);
  rename := fun w _ _ => (-1, w);
  errno := fun _ => 2;
  fopen := fun _ name => if bool_decide (name = [46; 47; 105]) then Some demo_image else None
|}.
Definition demo_mmap (i : nat) (_ : bool) (_ : Z) : Z := 65536 * (Z.of_nat i + 1).
Abbreviation demo_load := (gforth_loader 4096 false demo_mmap (fun _ => 0) true true (fun n => replicate n 0)
  tt [] 0 (mkSizes 0 0 0 0 0) false false true 0 10 (fun _ => 0) (replicate 32 0) [1; 0] [1; 0] (fun _ => 0)
  [46; 47; 105] []).


(** An image name without a slash is looked for in the directory of the
    executable and then in the directories of the path, in this order; the
    first file that is an image for this machine is taken. *)
Theorem image_search_order {W} `{OS W} (w : W) progname imagename dirs :
  ~ In DIRSEP imagename -> Forall (fun d => ~ In PATHSEP d) dirs -> List.last dirs [PATHSEP] <> [] ->
  open_image_file w progname imagename (join_path dirs) =
  first_some (fun c => checkimage w c.1 c.2 imagename)
    ((match onlypath progname with Some i => [(progname, i)] | None => [] end) ++
     map (fun d => (d, length d)) dirs).
Proof.
  intros Hi Hd Hl. unfold open_image_file. rewrite strchr_none by done.
  assert (Hs : first_some (fun c => checkimage w c.1 c.2 imagename) (map (fun d => (d, length d)) dirs) =
    first_some (fun d => checkimage w d (length d) imagename) dirs).
  { clear. induction dirs as [|d dirs IH]; [done|]. cbn. by rewrite IH. }
  rewrite search_path_order, <- Hs by (try done; lia).
  destruct (onlypath progname) as [i|]; [|done]. cbn. by destruct (checkimage w progname i imagename).
Qed.

(** "/b" is tried before ".". *)
Lemma image_search_order_witness :
  open_image_file tt [103] [105] (join_path [[47; 98]; [46]]) =
  first_some (fun c => checkimage tt c.1 c.2 [105]) [([47; 98], 2%nat); ([46], 1%nat)] /\
  open_image_file tt [103] [105] (join_path [[47; 98]; [46]]) = Some (mkStream demo_image 16, 16).
Proof.
  split; [|by vm_compute].
  apply (image_search_order tt [103] [105] [[47; 98]; [46]]); try done.
  - intros [?|[]]. done.
  - apply Forall_cons_2; [intros [?|[?|[]]]; done|]. apply Forall_cons_2; [intros [?|[]]; done|constructor].
Defined.

(** When the file can be mapped neither with nor without execute permission,
    the failure is not reported: the memory stays zero. *)
Example mapping_failure_unnoticed :
  dict_alloc_read 4096 false demo_mmap (fun _ => 0) false false (mkStream [1; 2] 0) 2 4096 0 false =
  Some (mkDict 65536 [0; 0] true).
Proof. by vm_compute. Qed.

(** When the image cannot be mapped with execute permission, dynamic code
    generation is disabled only until the image is relocated: [check_prims] has
    made no table of [PrimInfo]s, but [no_dynamic] is 0 again when the program
    runs, and [is_relocatable] then looks at that table. *)
Lemma failed_mapping_reenabled :
  match gforth_loader 4096 false demo_mmap (fun _ => 0) false true (fun n => replicate n 0)
    tt [] 0 (mkSizes 0 0 0 0 0) false false false 0 10 (fun _ => 0) (replicate 32 0) [1; 0] [1; 0] (fun _ => 0)
    [46; 47; 105] [] with
  | Loaded im => im_relocating im = true /\ im_no_dynamic im = false
  | _ => False
  end /\
  forall super_costs prim_names superend no_super opt_ip_updates CHECK_PRIM,
    check_prims [1; 0] [1; 0] (fun _ => 0) super_costs prim_names superend no_super opt_ip_updates CHECK_PRIM true =
      Some None.
Proof. split; [by vm_compute|done]. Qed.
