(* ===== verification/Signals.v ===== *)
(** * Signals (engine/signals.c)

    Which handler each signal gets, what the handlers do, and how a
    segmentation fault's address is turned into a Forth throw code.  Signal
    numbers and the codes of [siginfo_t] are the operating system's; the
    signals are those of Linux. *)
From S2P Require Import Prelude Stacks.

(** ** Signals and handlers *)

Inductive signal : Type :=
| SIGHUP | SIGINT | SIGQUIT | SIGILL | SIGTRAP | SIGABRT | SIGBUS | SIGFPE | SIGUSR1 | SIGSEGV
| SIGUSR2 | SIGPIPE | SIGALRM | SIGTERM | SIGCONT | SIGURG | SIGXCPU | SIGXFSZ | SIGVTALRM
| SIGPROF | SIGWINCH | SIGPOLL | SIGSYS.

#[export] Instance signal_eq_dec : EqDecision signal.
Proof. solve_decision. Defined.

Inductive sig_handler : Type :=
| Signal_throw | Graceful_exit | Sigaction_throw | Fpe_handler | Segv_handler | Termprep
| Change_winsize | Sig_ign.

(** Does the handler run on the signal stack? ([SA_ONSTACK]) *)
Record installed := mkInstalled { i_signal : signal; i_handler : sig_handler; i_onstack : bool }.

Definition bsd_signal (sig : signal) (h : sig_handler) : installed := mkInstalled sig h false.
Definition install_signal_handler (sig : signal) (h : sig_handler) : installed := mkInstalled sig h true.

Definition async_sigs_to_throw : list signal :=
  [SIGINT; SIGALRM; SIGPOLL; SIGPROF; SIGURG; SIGPIPE; SIGUSR1; SIGUSR2; SIGVTALRM; SIGXFSZ].
(** [SIGIOT] is [SIGABRT]. *)
Definition sigs_to_throw : list signal :=
  [SIGILL; SIGFPE; SIGABRT; SIGSEGV; SIGBUS; SIGSYS; SIGTRAP; SIGABRT].
Definition sigs_to_quit : list signal := [SIGQUIT; SIGHUP; SIGTERM; SIGXCPU].

(** The system calls of [install_signal_handlers], in order. *)
Definition install_signal_handlers (ignore_async_signals : bool) : list installed :=
  map (fun s => bsd_signal s Signal_throw) sigs_to_throw ++
  map (fun s => bsd_signal s (if ignore_async_signals then Sig_ign else Signal_throw)) async_sigs_to_throw ++
  map (fun s => bsd_signal s Graceful_exit) sigs_to_quit ++
  [install_signal_handler SIGFPE Fpe_handler; install_signal_handler SIGSEGV Segv_handler;
   install_signal_handler SIGILL Sigaction_throw; install_signal_handler SIGBUS Sigaction_throw;
   install_signal_handler SIGTRAP Sigaction_throw; install_signal_handler SIGABRT Sigaction_throw;
   bsd_signal SIGCONT Termprep; bsd_signal SIGWINCH Change_winsize].

(** The last installation for a signal is the one in force. *)
Definition disposition (calls : list installed) (sig : signal) : option installed :=
  List.find (fun i => bool_decide (i_signal i = sig)) (rev calls).

(** ** What the handlers do *)

Definition BALL_DIVZERO : Z := -10.
Definition BALL_RESULTRANGE : Z := -11.

Inductive fpe_code : Type :=
| FPE_INTDIV | FPE_INTOVF | FPE_FLTDIV | FPE_FLTOVF | FPE_FLTUND | FPE_FLTRES | FPE_other.

Inductive sig_outcome : Type :=
| Thrown (code : Z)
| Exited (status : Z)
| Returned.

Section Handlers.
Context (signum : signal -> Z) (pagesize : Z).
(** State of the process at the signal. *)
Context (die_on_signal no_throw_handler gforth_debugging : bool) (gforth_SP dictguard : Z) (UP : user_area).

Definition graceful_exit (sig : Z) : sig_outcome := Exited (Z.lor 128 sig).

Definition throw_code (sig : signal) : Z :=
  match sig with
  | SIGINT => -28
  | SIGFPE => -55
  | SIGBUS => -23
  | SIGSEGV => -9
  | SIGPIPE => -2049
  | _ => -256 - signum sig
  end.

(** [SIGPP]: the first signal is never fatal; it counts all. *)
Definition SIGPP (sig : signal) (sigcount : Z) (handle : sig_outcome) : Z * sig_outcome :=
  (sigcount + 1, if negb (sigcount =? 0) && die_on_signal then graceful_exit (signum sig) else handle).

Definition signal_throw (sig : signal) : sig_outcome :=
  if no_throw_handler then graceful_exit (Z.lor 128 (signum sig)) else Thrown (throw_code sig).

Definition fpe_throw_code (code : fpe_code) : Z :=
  match code with
  | FPE_INTDIV => if gforth_debugging && negb (gforth_SP =? 0) then BALL_RESULTRANGE else BALL_DIVZERO
  | FPE_INTOVF => BALL_RESULTRANGE
  | FPE_FLTDIV => -42
  | FPE_FLTOVF => -43
  | FPE_FLTUND => -54
  | FPE_FLTRES => -41
  | FPE_other => -55
  end.

Definition SPILLAGE : Z := 128.

Definition JUSTUNDER (addr1 addr2 : Z) : bool := U64 (addr2 - 1 - addr1) <? SPILLAGE.
Definition JUSTOVER (addr1 addr2 : Z) : bool := U64 (addr1 - addr2) <? SPILLAGE.

Definition NEXTPAGE (addr : Z) : Z := U64 (Z.land (U64 (addr - 1)) (- pagesize) + pagesize).
Definition NEXTPAGE2 (addr : Z) : Z := U64 (Z.land (U64 (addr - 1)) (- pagesize) + 2 * pagesize).
Definition NEXTPAGE3 (addr : Z) : Z := U64 (Z.land (U64 (addr - 1)) (- pagesize) + 3 * pagesize).

Definition segv_throw_code (addr : Z) : Z :=
  if U64 (addr - dictguard) <? pagesize then -8
  else if JUSTUNDER addr (NEXTPAGE3 (up0 UP)) then -3
  else if JUSTOVER addr (NEXTPAGE (sp0 UP)) then -4
  else if JUSTUNDER addr (NEXTPAGE2 (sp0 UP)) then -5
  else if JUSTOVER addr (NEXTPAGE (rp0 UP)) then -6
  else if JUSTUNDER addr (NEXTPAGE2 (rp0 UP)) then -44
  else if JUSTOVER addr (NEXTPAGE (fp0 UP)) then -45
  else if JUSTUNDER addr (NEXTPAGE2 (fp0 UP)) then -2058
  else if JUSTOVER addr (NEXTPAGE (lp0 UP)) then -2059
  else -9.

(** A signal is delivered to its handler; the new [sigcount] and what happens. *)
Definition deliver (h : sig_handler) (sig : signal) (code : fpe_code) (addr sigcount : Z) : Z * sig_outcome :=
  match h with
  | Signal_throw | Sigaction_throw => SIGPP sig sigcount (signal_throw sig)
  | Fpe_handler => SIGPP sig sigcount (Thrown (fpe_throw_code code))
  | Segv_handler => SIGPP sig sigcount (Thrown (segv_throw_code addr))
  | Graceful_exit => (sigcount, graceful_exit (signum sig))
  | Termprep | Change_winsize | Sig_ign => (sigcount, Returned)
  end.

(** *** Lemmas: page arithmetic of the fault handler *)

Lemma next_page_n n k :
  page_ok pagesize -> 0 < n < BH -> 1 <= k <= 3 ->
  U64 (Z.land (U64 (n - 1)) (- pagesize) + k * pagesize) = round_up pagesize n + (k - 1) * pagesize.
Proof using.
  intros P Hn Hk. pose proof (page_range _ P). unfold U64 at 2. rewrite (Z.mod_small (n - 1)) by (unfold BH, B in *; lia).
  rewrite land_page by done. destruct (round_up_spec _ n P) as [Hr _].
  assert (E : (n - 1) / pagesize * pagesize + pagesize = round_up pagesize n).
  { unfold round_up. replace (n + pagesize - 1) with (n - 1 + 1 * pagesize) by lia.
    rewrite Z.div_add by lia. lia. }
  unfold U64. rewrite Z.mod_small; [nia|]. unfold BH, B in *. nia.
Qed.

Lemma JUSTUNDER_spec x y : 0 <= x < BH -> 0 < y < BH -> JUSTUNDER x y = true <-> y - SPILLAGE <= x < y.
Proof using.
  intros Hx Hy. unfold JUSTUNDER, SPILLAGE, U64, BH, B in *. rewrite Z.ltb_lt.
  destruct (Z.lt_ge_cases x y).
  - rewrite Z.mod_small by lia. lia.
  - replace (y - 1 - x) with (y - 1 - x + 18446744073709551616 + -1 * 18446744073709551616) by lia.
    rewrite Z.mod_add, Z.mod_small by lia. lia.
Qed.

Lemma JUSTOVER_spec x y : 0 <= x < BH -> 0 < y < BH -> JUSTOVER x y = true <-> y <= x < y + SPILLAGE.
Proof using.
  intros Hx Hy. unfold JUSTOVER, SPILLAGE, U64, BH, B in *. rewrite Z.ltb_lt.
  destruct (Z.le_gt_cases y x).
  - rewrite Z.mod_small by lia. lia.
  - replace (x - y) with (x - y + 18446744073709551616 + -1 * 18446744073709551616) by lia.
    rewrite Z.mod_add, Z.mod_small by lia. lia.
Qed.
End Handlers.

(** ** The terminal state that handlers change *)

Definition DEFAULTCOLS : Z := 80.
Definition DEFAULTROWS : Z := 24.

Record terminal := mkTerminal { rows : Z; cols : Z; terminal_prepped : bool; winch_addr : Z }.

(** [get_winsize]: what [ioctl] reports, if it succeeds. *)
Definition get_winsize (size : option (Z * Z)) (t : terminal) : terminal :=
  let '(r, c) := match size with Some rc => rc | None => (rows t, cols t) end in
  mkTerminal (if r =? 0 then DEFAULTROWS else r) (if c =? 0 then DEFAULTCOLS else c)
    (terminal_prepped t) (winch_addr t).

Definition change_winsize (size : option (Z * Z)) (t : terminal) : terminal :=
  let t := get_winsize size t in mkTerminal (rows t) (cols t) (terminal_prepped t) (-1).

(** [termprep] after a continue signal: it installs itself again. *)
Definition termprep (t : terminal) : installed * terminal :=
  (bsd_signal SIGCONT Termprep, mkTerminal (rows t) (cols t) false (winch_addr t)).

(** The window always has a size. *)
Lemma get_winsize_nonzero size t : rows (get_winsize size t) <> 0 /\ cols (get_winsize size t) <> 0.
Proof.
  unfold get_winsize. destruct (match size with Some rc => rc | None => (rows t, cols t) end) as [r c].
  cbn. unfold DEFAULTROWS, DEFAULTCOLS. split; zcases; lia.
Qed.

(** ** Fault addresses *)

(** 128 bytes from [lo] on. *)
Definition within (addr lo : Z) : bool := (lo <=? addr) && (addr <? lo + SPILLAGE).

Lemma within_spec addr lo : reflect (lo <= addr < lo + SPILLAGE) (within addr lo).
Proof.
  apply iff_reflect. unfold within. rewrite andb_true_iff, Z.leb_le, Z.ltb_lt. lia.
Qed.

Lemma JUSTUNDER_within x y : 0 <= x < BH -> 0 < y < BH -> JUSTUNDER x y = within x (y - SPILLAGE).
Proof.
  intros Hx Hy. apply eq_true_iff_eq. rewrite JUSTUNDER_spec by done.
  destruct (within_spec x (y - SPILLAGE)); split; intros; try done; lia.
Qed.

Lemma JUSTOVER_within x y : 0 <= x < BH -> 0 < y < BH -> JUSTOVER x y = within x y.
Proof.
  intros Hx Hy. apply eq_true_iff_eq. rewrite JUSTOVER_spec by done.
  destruct (within_spec x y); split; intros; try done; lia.
Qed.

(** Where the guard pages of a task report which error: the start of each
    window of [SPILLAGE] bytes and its throw code. *)
Definition fault_windows (pagesize g1 g2 g3 g4 g5 : Z) : list (Z * Z) :=
  let top g := g + pagesize - SPILLAGE in
  [(top g1, -3);     (* data stack overflow *)
   (g2, -4);         (* data stack underflow *)
   (top g2, -5);     (* return stack overflow *)
   (g3, -6);         (* return stack underflow *)
   (top g3, -44);    (* FP stack overflow *)
   (g4, -45);        (* FP stack underflow *)
   (top g4, -2058);  (* locals stack overflow *)
   (g5, -2059)].     (* locals stack underflow *)

Section Faults.
Context (pagesize SIGSTKSZ a dsize fsize rsize lsize dictguard addr : Z).
Context (LO : layout_ok pagesize SIGSTKSZ a dsize fsize rsize lsize).
(** The cached stack elements do not reach over a page boundary. *)
Context (data_page : dsize mod pagesize = 0 \/ 64 < dsize mod pagesize).
Context (fp_page : fsize mod pagesize = 0 \/ 8 < fsize mod pagesize).
Context (address : 0 <= addr < BH).

Abbreviation up := (round_up pagesize).
Abbreviation g1 := (a + pagesize).
Abbreviation g2 := (a + 2 * pagesize + up dsize).
Abbreviation g3 := (g2 + pagesize + up rsize).
Abbreviation g4 := (g3 + pagesize + up fsize).
Abbreviation g5 := (g4 + pagesize + up lsize).
Abbreviation user := (mkUser a (a + 2 * pagesize + dsize - 64) (g2 + pagesize + rsize)
  (g3 + pagesize + fsize - 8) (g4 + pagesize + lsize)).

Lemma guard_order :
  0 < a /\ 1024 <= pagesize /\ g1 + pagesize <= g2 /\ g2 + pagesize <= g3 /\ g3 + pagesize <= g4 /\
  g4 + pagesize <= g5 /\ g5 + pagesize < BH.
Proof using LO.
  destruct LO as [P [_ Ra] (Hd & Hf & Hr & Hl) _]. pose proof (page_range _ P).
  pose proof (proj1 (round_up_spec _ dsize P)). pose proof (proj1 (round_up_spec _ rsize P)).
  pose proof (proj1 (round_up_spec _ fsize P)). pose proof (proj1 (round_up_spec _ lsize P)).
  unfold BH. lia.
Qed.

(** The page boundaries that the handler computes are the guard pages. *)
Lemma handler_pages :
  NEXTPAGE3 pagesize (up0 user) = g1 + pagesize /\
  NEXTPAGE pagesize (sp0 user) = g2 /\ NEXTPAGE2 pagesize (sp0 user) = g2 + pagesize /\
  NEXTPAGE pagesize (rp0 user) = g3 /\ NEXTPAGE2 pagesize (rp0 user) = g3 + pagesize /\
  NEXTPAGE pagesize (fp0 user) = g4 /\ NEXTPAGE2 pagesize (fp0 user) = g4 + pagesize /\
  NEXTPAGE pagesize (lp0 user) = g5.
Proof using LO data_page fp_page.
  pose proof guard_order as (Ha & Hp & O1 & O2 & O3 & O4 & O5).
  destruct LO as [P [Aa Ra] (Hd & Hf & Hr & Hl) _]. cbn [up0 sp0 rp0 fp0 lp0].
  pose proof (proj1 (round_up_spec _ dsize P)). pose proof (proj1 (round_up_spec _ rsize P)).
  pose proof (proj1 (round_up_spec _ fsize P)). pose proof (proj1 (round_up_spec _ lsize P)).
  assert (N1 : forall n m, m mod pagesize = 0 -> 0 < m + n < BH ->
    NEXTPAGE pagesize (m + n) = m + up n /\ NEXTPAGE2 pagesize (m + n) = m + up n + pagesize /\
    NEXTPAGE3 pagesize (m + n) = m + up n + 2 * pagesize).
  { intros n m Hm Hn. unfold NEXTPAGE, NEXTPAGE2, NEXTPAGE3. rewrite <- (Z.mul_1_l pagesize) at 2.
    rewrite !next_page_n, round_up_add by (done || lia). lia. }
  assert (A2 : (a + 2 * pagesize) mod pagesize = 0)
    by (replace (2 * pagesize) with (pagesize + pagesize) by lia; auto with page).
  assert (Ag2 : (g2 + pagesize) mod pagesize = 0) by auto with page.
  assert (Ag3 : (g3 + pagesize) mod pagesize = 0) by auto with page.
  assert (Ag4 : (g4 + pagesize) mod pagesize = 0) by auto with page.
  destruct (N1 0 a Aa) as (_ & _ & U3); [unfold BH in *; lia|].
  destruct (N1 (dsize - 64) _ A2) as (D1 & D2 & _); [lia|].
  destruct (N1 rsize _ Ag2) as (R1 & R2 & _); [lia|].
  destruct (N1 (fsize - 8) _ Ag3) as (F1 & F2 & _); [lia|].
  destruct (N1 lsize _ Ag4) as (L1 & _ & _); [lia|].
  rewrite round_up_sub in D1, D2, F1, F2 by (done || lia).
  rewrite !Z.add_sub_assoc in D1, D2, F1, F2. rewrite Z.add_0_r in U3.
  assert (U0 : up 0 = 0) by (apply round_up_unique; [done|lia|apply Z.mod_0_l; lia]).
  repeat split; lia.
Qed.

Lemma segv_by_windows :
  (dictguard <= addr < dictguard + pagesize -> 0 <= dictguard -> segv_throw_code pagesize dictguard user addr = -8) /\
  (0 <= dictguard < BH -> ~ dictguard <= addr < dictguard + pagesize ->
   segv_throw_code pagesize dictguard user addr =
     match List.find (fun w => within addr (fst w)) (fault_windows pagesize g1 g2 g3 g4 g5) with
     | Some (_, code) => code
     | None => -9
     end).
Proof using LO data_page fp_page address.
  pose proof guard_order as (Ha & Hp & O1 & O2 & O3 & O4 & O5).
  assert (HB : forall x y, 0 <= x < BH -> 0 <= y < BH -> (U64 (x - y) <? pagesize) = true <-> y <= x < y + pagesize).
  { intros x y Hx Hy. rewrite Z.ltb_lt. unfold U64, BH, B in *. destruct (Z.le_gt_cases y x).
    - rewrite Z.mod_small by lia. lia.
    - replace (x - y) with (x - y + 18446744073709551616 + -1 * 18446744073709551616) by lia.
      rewrite Z.mod_add, Z.mod_small by lia. lia. }
  unfold segv_throw_code. split.
  - intros H H0. rewrite (proj2 (HB addr dictguard address ltac:(lia)) H). done.
  - intros Hd H. destruct (U64 (addr - dictguard) <? pagesize) eqn:E; [by apply HB in E|]. clear E.
    destruct handler_pages as (-> & -> & -> & -> & -> & -> & -> & ->).
    rewrite !JUSTUNDER_within, !JUSTOVER_within by (done || lia).
    unfold fault_windows. cbn [List.find fst].
    repeat (match goal with |- context [within ?x ?y] => destruct (within x y) end; [done|]). done.
Qed.
End Faults.

(** The windows of the guard pages and the codes they stand for. *)
Lemma faults_classified (pagesize SIGSTKSZ a dsize fsize rsize lsize dictguard addr : Z) :
  layout_ok pagesize SIGSTKSZ a dsize fsize rsize lsize ->
  dsize mod pagesize = 0 \/ 64 < dsize mod pagesize ->
  fsize mod pagesize = 0 \/ 8 < fsize mod pagesize ->
  0 <= addr < BH -> 0 <= dictguard < BH ->
  exists t g1 g2 g3 g4 g5,
    mapped_stacks pagesize a dsize fsize rsize lsize = mkStacks t [g1; g2; g3; g4; g5] /\
    let code := segv_throw_code pagesize dictguard t addr in
    let windows := fault_windows pagesize g1 g2 g3 g4 g5 in
    (dictguard <= addr < dictguard + pagesize -> code = -8) /\
    (~ dictguard <= addr < dictguard + pagesize ->
     (forall lo c, (lo, c) ∈ windows -> lo <= addr < lo + SPILLAGE -> code = c) /\
     ((forall lo c, (lo, c) ∈ windows -> ~ lo <= addr < lo + SPILLAGE) -> code = -9)).
Proof.
  intros LO Hd Hf Ha Hg. destruct (mapped_stacks_layout _ _ _ _ _ _ _ LO) as [EM _].
  do 6 eexists. split; [exact EM|].
  destruct (segv_by_windows _ _ _ _ _ _ _ dictguard addr LO Hd Hf Ha) as [S1 S2].
  pose proof (guard_order _ _ _ _ _ _ _ LO) as (_ & Hp & O1 & O2 & O3 & O4 & O5).
  split; [intros H; apply S1; [done|lia]|]. intros H. rewrite !Z.add_simpl_r. rewrite (S2 Hg H). clear S1 S2.
  unfold fault_windows. split.
  - intros lo c Hin Hw.
    repeat (apply elem_of_cons in Hin as [[= -> ->]|Hin];
      [cbn [List.find fst]; repeat (match goal with |- context [within addr ?y] =>
         destruct (within_spec addr y) end; try (exfalso; unfold SPILLAGE in *; lia); try done); done|]).
    by apply not_elem_of_nil in Hin.
  - intros Hno. destruct (List.find _ _) as [[lo c]|] eqn:E; [|done].
    apply find_some in E as [Hin Hw]. apply list_elem_of_In in Hin. cbn [fst] in Hw.
    destruct (within_spec addr lo) as [Hw'|]; [|done]. by destruct (Hno lo c Hin).
Qed.

(** The stacks of a task, with sizes for which the cached stack elements do not
    reach over a page boundary. *)
Record task_stacks (pagesize SIGSTKSZ a dsize fsize rsize lsize : Z) : Prop := {
  ts_layout : layout_ok pagesize SIGSTKSZ a dsize fsize rsize lsize;
  ts_data : dsize mod pagesize = 0 \/ 64 < dsize mod pagesize;
  ts_fp : fsize mod pagesize = 0 \/ 8 < fsize mod pagesize
}.

(** The throw code for an invalid access to [addr] in a task with the stacks
    [t], by where [addr] lies: in the guard page of the dictionary, next to a
    stack, or elsewhere. *)
Inductive access_code (pagesize dictguard : Z) (t : user_area) (addr : Z) : Z -> Prop :=
| access_dict SIGSTKSZ a dsize fsize rsize lsize gs :
    task_stacks pagesize SIGSTKSZ a dsize fsize rsize lsize ->
    mapped_stacks pagesize a dsize fsize rsize lsize = mkStacks t gs ->
    0 <= addr < BH -> 0 <= dictguard < BH ->
    dictguard <= addr < dictguard + pagesize -> access_code pagesize dictguard t addr (-8)
| access_window SIGSTKSZ a dsize fsize rsize lsize g1 g2 g3 g4 g5 lo c :
    task_stacks pagesize SIGSTKSZ a dsize fsize rsize lsize ->
    mapped_stacks pagesize a dsize fsize rsize lsize = mkStacks t [g1; g2; g3; g4; g5] ->
    0 <= addr < BH -> 0 <= dictguard < BH -> ~ dictguard <= addr < dictguard + pagesize ->
    (lo, c) ∈ fault_windows pagesize g1 g2 g3 g4 g5 -> lo <= addr < lo + SPILLAGE ->
    access_code pagesize dictguard t addr c
| access_wild SIGSTKSZ a dsize fsize rsize lsize g1 g2 g3 g4 g5 :
    task_stacks pagesize SIGSTKSZ a dsize fsize rsize lsize ->
    mapped_stacks pagesize a dsize fsize rsize lsize = mkStacks t [g1; g2; g3; g4; g5] ->
    0 <= addr < BH -> 0 <= dictguard < BH -> ~ dictguard <= addr < dictguard + pagesize ->
    (forall lo c, (lo, c) ∈ fault_windows pagesize g1 g2 g3 g4 g5 -> ~ lo <= addr < lo + SPILLAGE) ->
    access_code pagesize dictguard t addr (-9).

Lemma fault_windows_nonzero pagesize g1 g2 g3 g4 g5 lo c :
  (lo, c) ∈ fault_windows pagesize g1 g2 g3 g4 g5 -> c <> 0.
Proof.
  intros Hin. unfold fault_windows in Hin.
  repeat (apply elem_of_cons in Hin as [[= -> ->]|Hin]; [done|]). by apply not_elem_of_nil in Hin.
Qed.

(** The handler finds this code. *)
Lemma access_code_thrown pagesize dictguard t addr c :
  access_code pagesize dictguard t addr c -> segv_throw_code pagesize dictguard t addr = c /\ c <> 0.
Proof.
  destruct 1 as [? ? ? ? ? ? gs [LO Hd Hf] EM Ha Hg HD|? ? ? ? ? ? ? ? ? ? ? lo c [LO Hd Hf] EM Ha Hg HD Hin Hw
    |? ? ? ? ? ? ? ? ? ? ? [LO Hd Hf] EM Ha Hg HD Hno];
    destruct (faults_classified _ _ _ _ _ _ _ _ _ LO Hd Hf Ha Hg) as (t' & h1 & h2 & h3 & h4 & h5 & EM' & C1 & C2);
    rewrite EM in EM'; simplify_eq.
  - by rewrite C1.
  - split; [by apply (proj1 (C2 HD) lo)|by eapply fault_windows_nonzero].
  - split; [by apply (C2 HD)|done].
Qed.

(** C20: a stack overflow or underflow is reported as such, if the cached stack
    elements do not reach over a page boundary.  Take stacks that
    [gforth_stacks] has mapped at a page boundary below 2^47, of less than 2^40
    bytes each (at least 64 for data, 8 for FP) ([layout_ok]), where the size of
    the data stack is a multiple of the page size or more than 64 bytes above
    one, and that of the FP stack a multiple or more than 8 bytes above one.
    Then an access to the
    128 bytes of a guard page next to a stack of the current task throws the
    code of that stack's overflow or underflow, an access to the guard page of
    the dictionary throws -8, and any other invalid access throws -9.  (With
    other sizes, [sp0] or [fp0] lies on an earlier page than the end of the
    stack, and its errors can be misreported: [small_remainder_misreported].) *)
Theorem stack_faults_classified (pagesize SIGSTKSZ a dsize fsize rsize lsize dictguard addr : Z) :
  layout_ok pagesize SIGSTKSZ a dsize fsize rsize lsize ->
  dsize mod pagesize = 0 \/ 64 < dsize mod pagesize ->
  fsize mod pagesize = 0 \/ 8 < fsize mod pagesize ->
  0 <= addr < BH -> 0 <= dictguard < BH ->
  exists t g1 g2 g3 g4 g5,
    mapped_stacks pagesize a dsize fsize rsize lsize = mkStacks t [g1; g2; g3; g4; g5] /\
    let code := segv_throw_code pagesize dictguard t addr in
    let windows := fault_windows pagesize g1 g2 g3 g4 g5 in
    (dictguard <= addr < dictguard + pagesize -> code = -8) /\
    (~ dictguard <= addr < dictguard + pagesize ->
     (forall lo c, (lo, c) ∈ windows -> lo <= addr < lo + SPILLAGE -> code = c) /\
     ((forall lo c, (lo, c) ∈ windows -> ~ lo <= addr < lo + SPILLAGE) -> code = -9)).
Proof. intros LO Hd Hf Ha Hg. by apply (faults_classified _ _ _ _ _ _ _ _ _ LO). Qed.

Lemma stack_faults_classified_witness :
  let t := sm_user (mapped_stacks 4096 1048576 8192 4096 4096 4096) in
  segv_throw_code 4096 0 t 1064968 = -4 /\ segv_throw_code 4096 0 t 5000 = -9.
Proof.
  assert (LO : layout_ok 4096 8192 1048576 8192 4096 4096 4096).
  { constructor; try (vm_compute; repeat split; done). exists 12. split; [lia|reflexivity]. }
  destruct (stack_faults_classified 4096 8192 1048576 8192 4096 4096 4096 0 1064968 LO)
    as (t & g1 & g2 & g3 & g4 & g5 & E & _ & H); try (left; reflexivity); try (unfold BH; lia).
  destruct (stack_faults_classified 4096 8192 1048576 8192 4096 4096 4096 0 5000 LO)
    as (t' & h1 & h2 & h3 & h4 & h5 & E' & _ & H'); try (left; reflexivity); try (unfold BH; lia).
  vm_compute in E, E'. injection E as <- <- <- <- <- <-. injection E' as <- <- <- <- <- <-. split.
  - apply (H ltac:(lia)) with (lo := 1064960); [|unfold SPILLAGE; lia].
    right. left.
  - apply (H' ltac:(lia)). intros lo c Hin Hw. vm_compute in Hin. unfold SPILLAGE in Hw.
    repeat (apply elem_of_cons in Hin as [[= -> ->]|Hin]; [lia|]). by apply not_elem_of_nil in Hin.
Defined.

(** With a data stack of one page and 16 bytes, [sp0] is on the first page, and
    the guard page at 1064960 is not recognised: an underflow of the data stack
    into its start and an overflow of the return stack into its end are
    reported as invalid accesses. *)
Lemma small_remainder_misreported :
  let s := mapped_stacks 4096 1048576 4112 4096 4096 4096 in
  nth 1 (sm_guards s) 0 = 1064960 /\
  segv_throw_code 4096 0 (sm_user s) 1064960 = -9 /\ segv_throw_code 4096 0 (sm_user s) (1064960 + 4095) = -9.
Proof. by vm_compute. Qed.
