(* ===== verification/Startup.v ===== *)
(** * Start-up and the trap loop ([gforth_args], [gforth_start], [gforth_boot],
    [gforth_main] and [gforth_go] of engine/main.c)

    [getopt_long] is the C library's: its answers are a list.  The
    interpreter [gforth_engine] is generated code: a function from an
    instruction pointer and the virtual machine's state to how the run ends. *)
From Stdlib Require Import String.
From S2P Require Import Prelude Strings Sizes FloatText Stacks Signals.

(** ** Command-line options *)

(** The integer variables that an option sets by itself. *)
Inductive flag :=
| map_noreserve | map_32bit | offset_image | clear_dictionary | debug | debug_mcheck | debug_prim
| die_on_signal | ignore_async_signals | no_super | no_dynamic | no_dynamic_image | no_rc0
| print_metrics | print_nonreloc | print_prims | print_sequences | ss_greedy | tpa_noequiv
| tpa_noautomaton | tpa_trace.

#[export] Instance flag_eq_dec : EqDecision flag.
Proof. solve_decision. Defined.

(** The options without a character, from the [enum] on. *)
Definition ss_number : Z := 256.
Definition ss_states : Z := 257.
Definition ss_min_codesize : Z := 258.
Definition ss_min_ls : Z := 259.
Definition ss_min_lsu : Z := 260.
Definition ss_min_nexts : Z := 261.
Definition opt_code_block_size : Z := 262.
Definition opt_opt_ip_updates : Z := 263.

(** [struct option]: name, [required_argument], the variable, the value. *)
Record option_entry := mkOpt {
  o_name : string; o_argument : bool; o_flag : option flag; o_val : Z
}.

Definition opts : list option_entry := [
  mkOpt "appl-image" true None 97;
  mkOpt "image-file" true None 105;
  mkOpt "dictionary-size" true None 109;
  mkOpt "data-stack-size" true None 100;
  mkOpt "return-stack-size" true None 114;
  mkOpt "fp-stack-size" true None 102;
  mkOpt "locals-stack-size" true None 108;
  mkOpt "vm-commit" false (Some map_noreserve) 0;
  mkOpt "map-32bit" false (Some map_32bit) 1;
  mkOpt "path" true None 112;
  mkOpt "version" false None 118;
  mkOpt "help" false None 104;
  mkOpt "offset-image" false (Some offset_image) 1;
  mkOpt "no-offset-im" false (Some offset_image) 0;
  mkOpt "clear-dictionary" false (Some clear_dictionary) 1;
  mkOpt "debug" false (Some debug) 1;
  mkOpt "debug-mcheck" false (Some debug_mcheck) 1;
  mkOpt "no-debug-prim" false (Some debug_prim) 0;
  mkOpt "diag" false None 68;
  mkOpt "die-on-signal" false (Some die_on_signal) 1;
  mkOpt "ignore-async-signals" false (Some ignore_async_signals) 1;
  mkOpt "no-super" false (Some no_super) 1;
  mkOpt "no-dynamic" false (Some no_dynamic) 1;
  mkOpt "no-dynamic-image" false (Some no_dynamic_image) 1;
  mkOpt "no-0rc" false (Some no_rc0) 1;
  mkOpt "dynamic" false (Some no_dynamic) 0;
  mkOpt "code-block-size" true None opt_code_block_size;
  mkOpt "opt-ip-updates" true None opt_opt_ip_updates;
  mkOpt "print-metrics" false (Some print_metrics) 1;
  mkOpt "print-nonreloc" false (Some print_nonreloc) 1;
  mkOpt "print-prims" false (Some print_prims) 1;
  mkOpt "print-sequences" false (Some print_sequences) 1;
  mkOpt "ss-number" true None ss_number;
  mkOpt "ss-states" true None ss_states;
  mkOpt "ss-min-codesize" false None ss_min_codesize;
  mkOpt "ss-min-ls" false None ss_min_ls;
  mkOpt "ss-min-lsu" false None ss_min_lsu;
  mkOpt "ss-min-nexts" false None ss_min_nexts;
  mkOpt "ss-greedy" false (Some ss_greedy) 1;
  mkOpt "tpa-noequiv" false (Some tpa_noequiv) 1;
  mkOpt "tpa-noautomaton" false (Some tpa_noautomaton) 1;
  mkOpt "tpa-trace" false (Some tpa_trace) 1
]%string.

(** The [ss_cost] function. *)
Inductive cost_choice := cost_codesize | cost_ls | cost_lsu | cost_nexts.

(** The global variables that options change. *)
Record settings := mkSettings {
  flags : flag -> Z;
  dictsize : Z; dsize : Z; rsize : Z; fsize : Z; lsize : Z;
  code_area_size : Z;
  opt_ip_updates : Z; opt_ip_updates_branch : Z;
  static_super_number : Z; maxstates : Z;
  ss_cost : cost_choice;
  imagename : list Z; path : list Z;
  optind : nat
}.

Definition set_flag (f : flag) (v : Z) (s : settings) : settings :=
  mkSettings (fun g => if decide (g = f) then v else flags s g)
    (dictsize s) (dsize s) (rsize s) (fsize s) (lsize s) (code_area_size s)
    (opt_ip_updates s) (opt_ip_updates_branch s) (static_super_number s) (maxstates s)
    (ss_cost s) (imagename s) (path s) (optind s).
Definition set_sizes (d ds r f l c : Z) (s : settings) : settings :=
  mkSettings (flags s) d ds r f l c
    (opt_ip_updates s) (opt_ip_updates_branch s) (static_super_number s) (maxstates s)
    (ss_cost s) (imagename s) (path s) (optind s).
Definition set_code (iu iub n m : Z) (c : cost_choice) (s : settings) : settings :=
  mkSettings (flags s) (dictsize s) (dsize s) (rsize s) (fsize s) (lsize s) (code_area_size s)
    iu iub n m c (imagename s) (path s) (optind s).
Definition set_names (i p : list Z) (n : nat) (s : settings) : settings :=
  mkSettings (flags s) (dictsize s) (dsize s) (rsize s) (fsize s) (lsize s) (code_area_size s)
    (opt_ip_updates s) (opt_ip_updates_branch s) (static_super_number s) (maxstates s)
    (ss_cost s) i p n.

(** What [getopt_long] found, with its new [optind]. *)
Inductive parsed :=
| Long (i : nat) (optarg : list Z)
| Short (c : Z) (optarg : list Z)
| Unknown
| NoMore.

(** The returned character; an option with a variable sets it and returns 0. *)
Definition getopt_long (p : parsed) (s : settings) : Z * list Z * settings :=
  match p with
  | Short c optarg => (c, optarg, s)
  | Unknown => (63, [], s)
  | NoMore => (-1, [], s)
  | Long i optarg =>
      match opts !! i with
      | None => (63, [], s)
      | Some o =>
          match o_flag o with
          | Some f => (0, optarg, set_flag f (o_val o) s)
          | None => (o_val o, optarg, s)
          end
      end
  end.

Inductive arg_result :=
| Continue (s : settings)
| Return (code : Z) (s : settings)
| Exit (status : Z).

Definition max (a b : Z) : Z := if b <? a then a else b.
Definition min (a b : Z) : Z := if a <? b then a else b.

Definition MAX_STATE : Z := 9.

(** A size option; -1 means that [convsize] refused it. *)
Definition size_option (size : Z) (s : settings) : arg_result :=
  if size =? U64 (-1) then Return 1 s else Continue s.

(** The [switch]; [oldoptind] is [optind] before the option. *)
Definition handle_option (c : Z) (optarg : list Z) (oldoptind : nat) (s : settings) : arg_result :=
  let size := convsize optarg 8 in
  let code iu iub n m cost := Continue (set_code iu iub n m cost s) in
  if c =? -1 then Return 0 s
  else if c =? 63 then Return 0 (set_names (imagename s) (path s) oldoptind s)
  else if c =? 97 then Return 0 (set_names optarg (path s) (optind s) s)
  else if c =? 105 then Continue (set_names optarg (path s) (optind s) s)
  else if c =? 109 then
    size_option size (set_sizes size (dsize s) (rsize s) (fsize s) (lsize s) (code_area_size s) s)
  else if c =? 100 then
    size_option size (set_sizes (dictsize s) size (rsize s) (fsize s) (lsize s) (code_area_size s) s)
  else if c =? 114 then
    size_option size (set_sizes (dictsize s) (dsize s) size (fsize s) (lsize s) (code_area_size s) s)
  else if c =? 102 then
    size_option size (set_sizes (dictsize s) (dsize s) (rsize s) size (lsize s) (code_area_size s) s)
  else if c =? 108 then
    size_option size (set_sizes (dictsize s) (dsize s) (rsize s) (fsize s) size (code_area_size s) s)
  else if c =? 112 then Continue (set_names (imagename s) optarg (optind s) s)
  else if c =? 111 then Continue (set_flag offset_image 1 s)
  else if c =? 110 then Continue (set_flag offset_image 0 s)
  else if c =? 99 then Continue (set_flag clear_dictionary 1 s)
  else if c =? 115 then Continue (set_flag die_on_signal 1 s)
  else if c =? 120 then Continue (set_flag debug 1 s)
  else if c =? 68 then Continue s
  else if c =? 118 then Exit 0
  else if c =? opt_code_block_size then
    let size := convsize optarg 1 in
    size_option size (set_sizes (dictsize s) (dsize s) (rsize s) (fsize s) (lsize s) (S64 size) s)
  else if c =? opt_opt_ip_updates then
    let n := atoi optarg in
    code (Z.land n 7) (Z.shiftr n 3) (static_super_number s) (maxstates s) (ss_cost s)
  else if c =? ss_number then
    code (opt_ip_updates s) (opt_ip_updates_branch s) (atoi optarg) (maxstates s) (ss_cost s)
  else if c =? ss_states then
    code (opt_ip_updates s) (opt_ip_updates_branch s) (static_super_number s)
      (max (min (atoi optarg) MAX_STATE) 1) (ss_cost s)
  else if (ss_min_codesize <=? c) && (c <=? ss_min_nexts) then
    code (opt_ip_updates s) (opt_ip_updates_branch s) (static_super_number s) (maxstates s)
      (if c =? ss_min_codesize then cost_codesize
       else if c =? ss_min_ls then cost_ls
       else if c =? ss_min_lsu then cost_lsu
       else cost_nexts)
  else if c =? 104 then Return 0 (set_names (imagename s) (path s) oldoptind s)
  else Continue s.

(** The loop; every answer comes with the new [optind]. *)
Fixpoint args_loop (answers : list (parsed * nat)) (s : settings) : arg_result :=
  match answers with
  | [] => Return 0 s
  | (p, ind) :: answers =>
      let oldoptind := optind s in
      let '(c, optarg, s) := getopt_long p (set_names (imagename s) (path s) ind s) in
      match handle_option c optarg oldoptind s with
      | Continue s => args_loop answers s
      | r => r
      end
  end.

(** "gforth.fi" *)
Definition gforth_fi : list Z := [103; 102; 111; 114; 116; 104; 46; 102; 105].

Definition gforth_args (gforthpath : option (list Z)) (default_path : list Z)
    (answers : list (parsed * nat)) (s : settings) : arg_result :=
  let p := match gforthpath with Some p => p | None => default_path end in
  args_loop answers (set_names gforth_fi p (optind s) s).

(** ** The virtual machine *)

(** Registers, the cells of memory by address, the handler that [throw]
    jumps to, and the fields of the current task that are used here. *)
Record vm := mkVM {
  vm_SP : Z; vm_RP : Z; vm_FP : Z;
  vm_cells : Z -> Z;
  throw_jmp_handler : Z;
  sigcount : Z;
  vm_UP : user_area;
  throw_entry : Z
}.

Definition set_handler (h : Z) (st : vm) : vm :=
  mkVM (vm_SP st) (vm_RP st) (vm_FP st) (vm_cells st) h (sigcount st) (vm_UP st) (throw_entry st).
Definition set_sigcount (n : Z) (st : vm) : vm :=
  mkVM (vm_SP st) (vm_RP st) (vm_FP st) (vm_cells st) (throw_jmp_handler st) n (vm_UP st) (throw_entry st).
Definition store_cell (cells : Z -> Z) (a v : Z) : Z -> Z := fun x => if x =? a then v else cells x.

(** [*--gforth_SP = v] *)
Definition push (v : Z) (st : vm) : vm :=
  let sp := vm_SP st - 8 in
  mkVM sp (vm_RP st) (vm_FP st) (store_cell (vm_cells st) sp v) (throw_jmp_handler st) (sigcount st)
    (vm_UP st) (throw_entry st).

(** How a run of the engine ends: it returns, some C code calls [throw], or a
    signal arrives. *)
Inductive engine_end :=
| EngineReturns (result : Z)
| EngineThrows (code : Z)
| EngineSignal (sig : signal) (code : fpe_code) (addr : Z).

(** [Stopped]: the process ends. *)
Inductive go_result :=
| Finished (result : Z) (st : vm)
| Stopped (status : Z)
| OutOfFuel.

Section Engine.
(** The engine, started at an instruction pointer or continued after a signal
    handler has returned. *)
Context (gforth_engine : Z -> vm -> engine_end * vm) (resume : vm -> engine_end * vm).
Context (signum : signal -> Z) (pagesize dictguard : Z) (die ignore_async : bool).
(** The addresses of [gforth_go]'s local variables. *)
Context (signal_data_stack signal_return_stack signal_fp_stack throw_jmp_buf : Z).

(** The body of the [while]: the throw code on the private stacks. *)
Definition prepare_throw (code : Z) (st : vm) : vm :=
  mkVM (signal_data_stack + 15 * 8) (signal_return_stack + 16 * 8) signal_fp_stack
    (store_cell (vm_cells st) (signal_data_stack + 15 * 8) code)
    (throw_jmp_handler st) (sigcount st) (vm_UP st) (throw_entry st).

(** [longjmp] passes 1 instead of 0. *)
Definition longjmp (code : Z) (st : vm) : engine_end * vm :=
  let st := prepare_throw (if code =? 0 then 1 else code) st in
  gforth_engine (throw_entry st) st.

Fixpoint go_loop (fuel : nat) (run : engine_end * vm) : go_result :=
  match fuel with
  | O => OutOfFuel
  | S fuel =>
      let '(e, st) := run in
      match e with
      | EngineReturns result => Finished result st
      | EngineThrows code => go_loop fuel (longjmp code st)
      | EngineSignal sig code addr =>
          match disposition (install_signal_handlers ignore_async) sig with
          | None => Stopped (Z.lor 128 (signum sig))
          | Some i =>
              let '(n, o) :=
                deliver signum pagesize die (throw_jmp_handler st =? 0) false (vm_SP st) dictguard (vm_UP st)
                  (i_handler i) sig code addr (sigcount st) in
              let st := set_sigcount n st in
              match o with
              | Thrown code => go_loop fuel (longjmp code st)
              | Exited status => Stopped status
              | Returned => go_loop fuel (resume st)
              end
          end
      end
  end.

Definition gforth_go (fuel : nat) (ip0 : Z) (st : vm) : go_result :=
  let old_handler := throw_jmp_handler st in
  match go_loop fuel (gforth_engine ip0 (set_handler throw_jmp_buf st)) with
  | Finished result st => Finished result (set_handler old_handler st)
  | r => r
  end.

(** ** Entry points *)

(** The addresses of the image header that are used. *)
Record entries := mkEntries {
  boot_entry : Z; quit_entry : Z; execute_entry : Z; find_entry : Z
}.

(** The path with NULs for the separators. *)
Definition boot_path (path : list Z) : list Z := map (fun c => if c =? 58 then 0 else c) path.

(** [path2] is the address of the copy, [argv'] that of [argv+(optind-1)]. *)
Definition gforth_boot (fuel : nat) (hd : entries) (path2 path_len argv' argc' : Z) (st : vm) : go_result :=
  let st := push path2 st in
  let st := push path_len st in
  let st := push argv' st in
  let st := push argc' st in
  gforth_go fuel (boot_entry hd) st.

Definition gforth_quit (fuel : nat) (hd : entries) (st : vm) : go_result :=
  gforth_go fuel (quit_entry hd) st.

Definition gforth_execute (fuel : nat) (hd : entries) (xt : Z) (st : vm) : go_result :=
  gforth_go fuel (execute_entry hd) (push xt st).

Definition gforth_find (fuel : nat) (hd : entries) (name len : Z) (st : vm) : go_result :=
  gforth_go fuel (find_entry hd) (push len (push name st)).

(** The value of a C call, with the state it leaves. *)
Definition then_go (r : go_result) (k : Z -> vm -> go_result) : go_result :=
  match r with Finished v st => k v st | r => r end.

Definition gforth_bootmessage (fuel : nat) (hd : entries) (name : Z) (st : vm) : go_result :=
  then_go (gforth_find fuel hd name 11 st) (fun bootmessage st =>
    if negb (bootmessage =? 0) then gforth_execute fuel hd bootmessage st else Finished (-13) st).

(** [gforth_setstacks] of Stacks, applied to the machine. *)
Definition with_stacks (t : user_area) (st : vm) : vm :=
  mkVM (sp0 t) (rp0 t) (fp0 t) (vm_cells st) (throw_jmp_handler st) (sigcount st) t (throw_entry st).

(** [gforth_start]: [loader] is [gforth_loader] with the header it returns, [stacks] is
    [gforth_stacks], which must not fail; [argv_at] gives the addresses of the
    path and of the arguments from [optind-1] on, and the number of these.  A
    failure of [gforth_stacks] is a NULL pointer that is used.  [setenv] for
    [--no-0rc] and [mcheck_init] have no effect on this state. *)
Definition gforth_start (fuel : nat) (args : arg_result)
    (loader : settings -> option (entries * sizes)) (stacks : sizes -> option stack_memory)
    (argv_at : settings -> Z * Z * Z) (st : vm) : go_result :=
  match args with
  | Exit status => Stopped status
  | Continue s | Return _ s =>
      let failed := match args with Return code _ => negb (code =? 0) | _ => false end in
      if failed then Finished (-24) st
      else
        match loader s with
        | None => Finished (-59) st
        | Some (hd, sz) =>
            match stacks sz with
            | None => Stopped (Z.lor 128 (signum SIGSEGV))
            | Some sm =>
                let '(path2, argv', argc') := argv_at s in
                gforth_boot fuel hd path2 (Z.of_nat (length (boot_path (path s)))) argv' argc'
                  (with_stacks (sm_user sm) st)
            end
        end
  end.

(** [gforth_main]: -56 is the throw code of [quit]; the output at the end is
    left out. *)
Definition gforth_main (fuel : nat) (hd : entries) (name : Z) (started : go_result) : go_result :=
  then_go started (fun retvalue st =>
    if retvalue =? -56 then
      then_go (gforth_bootmessage fuel hd name st) (fun retvalue st =>
        if retvalue =? -56 then gforth_quit fuel hd st else Finished retvalue st)
    else Finished retvalue st).
End Engine.

(** ** Lemmas *)

(** Every size that an option sets was accepted. *)
Definition size_ok (n : Z) : Prop := is_ucell n /\ n <> U64 (-1).
Definition sizes_ok (s : settings) : Prop :=
  size_ok (dictsize s) /\ size_ok (dsize s) /\ size_ok (rsize s) /\ size_ok (fsize s) /\
  size_ok (lsize s) /\ is_cell (code_area_size s) /\ code_area_size s <> -1.
(** The settings of the code generator are in range. *)
Definition code_ok (s : settings) : Prop :=
  1 <= maxstates s <= MAX_STATE /\ 0 <= opt_ip_updates s <= 7.

Lemma convsize_range s n : is_ucell (convsize s n).
Proof.
  unfold convsize. destruct (strtol true s 0) as [[v e] o].
  repeat match goal with |- context [streq ?a ?b] => destruct (streq a b) end; apply U64_range.
Qed.

(** An option leaves acceptable settings, or refuses with code 1. *)
Definition result_ok (r : arg_result) : Prop :=
  match r with
  | Continue s => sizes_ok s /\ code_ok s
  | Return code s => code_ok s /\ (code = 0 /\ sizes_ok s \/ code = 1)
  | Exit _ => True
  end.

Lemma size_option_ok v (s : settings) :
  code_ok s -> (v <> U64 (-1) -> sizes_ok s) -> result_ok (size_option v s).
Proof.
  intros Hc Hs. unfold size_option. destruct (Z.eqb_spec v (U64 (-1))); cbn; auto.
Qed.

Lemma ss_states_range n : 1 <= max (min n MAX_STATE) 1 <= MAX_STATE.
Proof.
  unfold max, min, MAX_STATE.
  destruct (Z.ltb_spec n 9); [destruct (Z.ltb_spec 1 n)|destruct (Z.ltb_spec 1 9)]; lia.
Qed.

Lemma low_bits_range n : 0 <= Z.land n 7 <= 7.
Proof.
  change 7 with (Z.ones 3) at 1 2. rewrite Z.land_ones by lia.
  pose proof (Z.mod_pos_bound n (2 ^ 3) ltac:(lia)). lia.
Qed.

Lemma handle_option_ok c optarg old s :
  sizes_ok s -> code_ok s -> result_ok (handle_option c optarg old s).
Proof.
  intros Hs Hc. pose proof Hs as (H1 & H2 & H3 & H4 & H5 & H6 & H7). pose proof Hc as (C1 & C2).
  assert (Hz : convsize optarg 8 <> U64 (-1) -> size_ok (convsize optarg 8))
    by (intros; split; [apply convsize_range|done]).
  assert (Hcs : convsize optarg 1 <> U64 (-1) ->
    is_cell (S64 (convsize optarg 1)) /\ S64 (convsize optarg 1) <> -1).
  { intros Hn. split; [apply S64_range|]. pose proof (convsize_range optarg 1). intros E. apply Hn.
    wrap_unfold. Z.div_mod_to_equations. lia. }
  unfold handle_option. cbv zeta.
  repeat match goal with |- result_ok (if ?b then _ else _) => destruct b end;
    try (apply size_option_ok; [done|intros Hn; unfold sizes_ok; cbn; specialize (Hz Hn); by split_and!]);
    try (cbn; split; [done|]; by split); try (cbn; split; [done|]; by left); try done.
  - apply size_option_ok; [done|]. intros Hn. destruct (Hcs Hn). unfold sizes_ok. cbn. by split_and!.
  - split; [done|]. split; [done|]. apply low_bits_range.
  - split; [done|]. split; [|done]. apply ss_states_range.
Qed.

Lemma getopt_long_ok p s c o s' :
  getopt_long p s = (c, o, s') -> sizes_ok s -> code_ok s -> sizes_ok s' /\ code_ok s'.
Proof.
  destruct p as [i optarg|c' optarg| |]; cbn [getopt_long]; try (by intros [= <- <- <-]).
  destruct (opts !! i) as [e|]; [|by intros [= <- <- <-]].
  destruct (o_flag e); by intros [= <- <- <-].
Qed.

Lemma args_loop_ok answers s :
  sizes_ok s -> code_ok s -> result_ok (args_loop answers s).
Proof.
  revert s. induction answers as [|[p ind] answers IH]; intros s Hs Hc; cbn [args_loop].
  { cbn. auto. }
  destruct (getopt_long p _) as [[c o] s'] eqn:E.
  apply getopt_long_ok in E as [Hs' Hc']; [|done|done].
  pose proof (handle_option_ok c o (optind s) s' Hs' Hc') as Hr.
  destruct (handle_option _ _ _ _) as [s2|code s2|st]; [|done|done]. destruct Hr. by apply IH.
Qed.

(** *** The trap loop *)

Section GoLemmas.
Context (gforth_engine : Z -> vm -> engine_end * vm) (resume : vm -> engine_end * vm).
Context (signum : signal -> Z) (pagesize dictguard : Z) (die ignore_async : bool).
Context (sds srs sfs buf : Z).

Abbreviation loop := (go_loop gforth_engine resume signum pagesize dictguard die ignore_async sds srs sfs).
Abbreviation go := (gforth_go gforth_engine resume signum pagesize dictguard die ignore_async sds srs sfs buf).
Abbreviation prepare := (prepare_throw sds srs sfs).

(** What the Forth exception handler finds: the code on a stack of its own,
    with the task and the jump target unchanged. *)
Definition throw_state (code : Z) (st st' : vm) : Prop :=
  vm_cells st' (vm_SP st') = code /\
  vm_SP st' = sds + 15 * 8 /\ vm_RP st' = srs + 16 * 8 /\ vm_FP st' = sfs /\
  (forall a, a <> vm_SP st' -> vm_cells st' a = vm_cells st a) /\
  throw_jmp_handler st' = throw_jmp_handler st /\ vm_UP st' = vm_UP st /\
  throw_entry st' = throw_entry st.

Lemma prepare_throw_state code st : throw_state code st (prepare code st).
Proof using.
  unfold throw_state, prepare_throw, store_cell. cbn. rewrite Z.eqb_refl. split_and!; try done.
  intros x Hx. by rewrite (proj2 (Z.eqb_neq x _)).
Qed.

(** A fault in a window of a guard page of the current task. *)
Lemma segv_delivered fuel st code addr c :
  throw_jmp_handler st <> 0 -> die = false \/ sigcount st = 0 ->
  segv_throw_code pagesize dictguard (vm_UP st) addr = c -> c <> 0 ->
  exists st', throw_state c st st' /\
    loop (S fuel) (EngineSignal SIGSEGV code addr, st) = loop fuel (gforth_engine (throw_entry st) st').
Proof using.
  intros Hh Hd Hc Hc0. set (st1 := set_sigcount (sigcount st + 1) st).
  exists (prepare c st1). split.
  { destruct (prepare_throw_state c st1) as (A1 & A2 & A3 & A4 & A5 & A6 & A7 & A8). by split_and!. }
  cbn [go_loop]. change (disposition (install_signal_handlers ignore_async) SIGSEGV)
    with (disposition (install_signal_handlers ignore_async) SIGSEGV).
  assert (Ed : disposition (install_signal_handlers ignore_async) SIGSEGV =
    Some (install_signal_handler SIGSEGV Segv_handler)) by (by destruct ignore_async).
  rewrite Ed. cbn [i_handler install_signal_handler deliver]. unfold SIGPP. rewrite Hc.
  replace (negb (sigcount st =? 0) && die) with false
    by (destruct Hd as [-> | ->]; [by rewrite andb_false_r|done]).
  unfold longjmp. by rewrite (proj2 (Z.eqb_neq c 0)).
Qed.

(** ** What a program may expect of the trap loop

    The codes that Forth's exception handler gets, stated without the handlers
    of Signals: for [throw] in C, a division by zero, and an invalid memory
    access in a task with the stacks [t]. *)
Inductive trap (t : user_area) : engine_end -> Z -> Prop :=
| trap_throw code : code <> 0 -> trap t (EngineThrows code) code
| trap_throw_zero : trap t (EngineThrows 0) 1
| trap_division addr : trap t (EngineSignal SIGFPE FPE_INTDIV addr) (-10)
| trap_access code addr c : access_code pagesize dictguard t addr c -> trap t (EngineSignal SIGSEGV code addr) c.

(** The signals among them, which are counted. *)
Definition signals (e : engine_end) : Z := match e with EngineSignal _ _ _ => 1 | _ => 0 end.

(** [served Post n run]: [run] ends with a result that satisfies [Post] after at
    most [n] traps, provided that after each trap the engine is started again
    at the task's throw entry, in the state that [throw_state] describes. *)
Inductive served (Post : Z -> vm -> Prop) : nat -> engine_end * vm -> Prop :=
| served_returns n r st : Post r st -> served Post n (EngineReturns r, st)
| served_trap n e c st :
    throw_jmp_handler st = buf -> trap (vm_UP st) e c ->
    (forall st1, throw_state c st st1 -> sigcount st1 = sigcount st + signals e ->
       served Post n (gforth_engine (throw_entry st) st1)) ->
    served Post (S n) (e, st).

Lemma trap_restarts fuel e c st :
  die = false -> trap (vm_UP st) e c ->
  exists st1, throw_state c st st1 /\ sigcount st1 = sigcount st + signals e /\
    loop (S fuel) (e, st) = loop fuel (gforth_engine (throw_entry st) st1).
Proof using.
  intros -> HT. assert (HS : forall c n, throw_state c st (prepare c (set_sigcount n st))).
  { intros c' n. destruct (prepare_throw_state c' (set_sigcount n st)) as (A1 & A2 & A3 & A4 & A5 & A6 & A7 & A8).
    by split_and!. }
  destruct HT as [code Hc| |addr|code addr c HA].
  - exists (prepare code st). split; [apply prepare_throw_state|]. split; [cbn; lia|].
    cbn [go_loop]. unfold longjmp. by rewrite (proj2 (Z.eqb_neq code 0)).
  - exists (prepare 1 st). split; [apply prepare_throw_state|]. split; [cbn; lia|done].
  - exists (prepare (-10) (set_sigcount (sigcount st + 1) st)). split; [apply HS|]. split; [done|].
    cbn [go_loop]. assert (Ed : disposition (install_signal_handlers ignore_async) SIGFPE =
      Some (install_signal_handler SIGFPE Fpe_handler)) by (by destruct ignore_async).
    rewrite Ed. cbn [i_handler install_signal_handler deliver]. unfold SIGPP. by rewrite andb_false_r.
  - exists (prepare c (set_sigcount (sigcount st + 1) st)). split; [apply HS|]. split; [done|].
    pose proof (access_code_thrown _ _ _ _ _ HA) as [Ec Hc].
    cbn [go_loop]. assert (Ed : disposition (install_signal_handlers ignore_async) SIGSEGV =
      Some (install_signal_handler SIGSEGV Segv_handler)) by (by destruct ignore_async).
    rewrite Ed. cbn [i_handler install_signal_handler deliver]. unfold SIGPP. rewrite andb_false_r, Ec.
    unfold longjmp. by rewrite (proj2 (Z.eqb_neq c 0)).
Qed.

Lemma go_loop_serves Post n run fuel :
  die = false -> served Post n run -> (n < fuel)%nat -> exists r st, loop fuel run = Finished r st /\ Post r st.
Proof using.
  intros Hd H. revert fuel. induction H as [n r st HP|n e c st Hb HT _ IH]; intros [|fuel] Hf; try lia.
  - by exists r, st.
  - destruct (trap_restarts fuel e c st Hd HT) as (st1 & A & B & ->). apply (IH st1 A B). lia.
Qed.

Lemma gforth_go_restores fuel ip0 st r st' :
  go fuel ip0 st = Finished r st' -> throw_jmp_handler st' = throw_jmp_handler st.
Proof using.
  unfold gforth_go. destruct (loop fuel _) as [r' st1| |]; [|done|done]. by intros [= <- <-].
Qed.
End GoLemmas.

(** ** Properties *)

(** C40: whatever the command line, the number of stack-cache states and the
    ip-update level stay in the range of the code generator's tables, and
    argument processing succeeds only with sizes that were all accepted. *)
Theorem args_in_range gforthpath default_path answers s :
  sizes_ok s -> code_ok s ->
  match gforth_args gforthpath default_path answers s with
  | Continue s' => sizes_ok s' /\ code_ok s'
  | Return code s' => code_ok s' /\ (code = 0 /\ sizes_ok s' \/ code = 1)
  | Exit _ => True
  end.
Proof. intros Hs Hc. unfold gforth_args. by apply args_loop_ok. Qed.

(** "--ss-states=100 -d 10x": the states are cut to 9, the size is refused. *)
Definition demo_settings : settings :=
  mkSettings (fun _ => 0) 0 0 0 0 0 2097152 7 0 0 9 cost_codesize [] [] 1.
Definition demo_answers : list (parsed * nat) :=
  [(Long 33 [49; 48; 48], 2%nat); (Short 100 [49; 48; 120], 4%nat)].
Abbreviation demo_args := (gforth_args None [46] demo_answers demo_settings).

Lemma args_in_range_witness :
  match demo_args with
  | Continue s' => sizes_ok s' /\ code_ok s'
  | Return code s' => code_ok s' /\ (code = 0 /\ sizes_ok s' \/ code = 1)
  | Exit _ => True
  end /\
  match demo_args with Return code s' => (code, maxstates s', optind s') | _ => (0, 0, 0%nat) end = (1, 9, 4%nat).
Proof.
  split; [|by vm_compute].
  apply (args_in_range None [46] demo_answers demo_settings).
  - by split_and!.
  - by split_and!.
Defined.

(** C21: a stack overflow or underflow of a running Forth program becomes a
    Forth exception.  Take a task whose stacks [gforth_stacks] has mapped
    ([layout_ok]), with sizes for which the cached stack elements do not reach
    over a page boundary (data: a multiple of the page size or more than 64
    bytes above one; FP: a multiple or more than 8 bytes above one); a handler
    to throw to ([throw_jmp_handler] is not 0); and no [--die-on-signal], or
    this is the first signal.  When an address in one of the 128-byte windows
    of the guard pages, outside the dictionary's guard page, is accessed, the
    engine is restarted at the task's throw entry with
    the throw code of the stack whose guard page was touched as the only item
    of a private data stack, the rest of memory, the task and the jump target
    unchanged. *)
Theorem stack_fault_reaches_throw gforth_engine resume signum pagesize dictguard die ignore_async sds srs sfs
    SIGSTKSZ a dsize fsize rsize lsize t g1 g2 g3 g4 g5 lo c addr code fuel st :
  layout_ok pagesize SIGSTKSZ a dsize fsize rsize lsize ->
  dsize mod pagesize = 0 \/ 64 < dsize mod pagesize ->
  fsize mod pagesize = 0 \/ 8 < fsize mod pagesize ->
  mapped_stacks pagesize a dsize fsize rsize lsize = mkStacks t [g1; g2; g3; g4; g5] ->
  (lo, c) ∈ fault_windows pagesize g1 g2 g3 g4 g5 -> lo <= addr < lo + SPILLAGE ->
  0 <= addr < BH -> 0 <= dictguard < BH -> ~ dictguard <= addr < dictguard + pagesize ->
  vm_UP st = t -> throw_jmp_handler st <> 0 -> die = false \/ sigcount st = 0 ->
  exists st', throw_state sds srs sfs c st st' /\
    go_loop gforth_engine resume signum pagesize dictguard die ignore_async sds srs sfs (S fuel)
      (EngineSignal SIGSEGV code addr, st) =
    go_loop gforth_engine resume signum pagesize dictguard die ignore_async sds srs sfs fuel
      (gforth_engine (throw_entry st) st').
Proof.
  intros LO Hd Hf EM Hin Hw Ha Hg Hno Ht Hh Hdie.
  destruct (faults_classified _ _ _ _ _ _ _ _ _ LO Hd Hf Ha Hg) as (t' & h1 & h2 & h3 & h4 & h5 & EM' & _ & Hcl).
  rewrite EM in EM'. injection EM' as <- <- <- <- <- <-.
  apply segv_delivered; [done|done| |].
  - rewrite Ht. by apply (proj1 (Hcl Hno)) with (lo := lo).
  - intros ->. unfold fault_windows in Hin.
    repeat (apply elem_of_cons in Hin as [Hin|Hin]; [congruence|]). by apply not_elem_of_nil in Hin.
Qed.

(** C34: the trap loop turns every trap into a Forth exception and gets to the
    end.  Take any program and exception handler that together end with [Post]
    after at most [n] traps, where a trap is a C [throw], a division by zero or
    an invalid memory access in a task with stacks as
    [Signals.task_stacks] says, and after each of them the engine is started
    again at the task's throw entry with private stacks: the code of the trap
    (-10 for a division; -8, -9 or that of the stack whose guard page was
    touched for an access; a [throw] of 0 arrives as 1) on top of the data stack, and the rest of memory,
    the task and the jump target as they were.  Then [gforth_go], with its jump
    buffer as the target of every trap and without [--die-on-signal], ends
    after at most [n] restarts with a result for which [Post] holds, and
    restores the jump target of its caller. *)
Theorem gforth_go_completes gforth_engine resume signum pagesize dictguard ignore_async sds srs sfs buf
    (Post : Z -> vm -> Prop) n ip0 st fuel :
  served gforth_engine pagesize dictguard sds srs sfs buf Post n (gforth_engine ip0 (set_handler buf st)) ->
  (n < fuel)%nat ->
  exists r st',
    gforth_go gforth_engine resume signum pagesize dictguard false ignore_async sds srs sfs buf fuel ip0 st =
      Finished r (set_handler (throw_jmp_handler st) st') /\ Post r st'.
Proof.
  intros H Hf. unfold gforth_go.
  destruct (go_loop_serves gforth_engine resume signum pagesize dictguard false ignore_async sds srs sfs buf
    Post n _ fuel eq_refl H Hf) as (r & st' & -> & HP). by exists r, st'.
Qed.

(** An engine that touches the guard page under its data stack at its boot
    entry and divides by zero in the exception handler at 200 when it gets -4;
    for other codes, the handler returns the code that it finds on the stack. *)
Definition demo_engine (ip : Z) (st : vm) : engine_end * vm :=
  if ip =? 100 then (EngineSignal SIGSEGV FPE_other 1064968, st)
  else if vm_cells st (vm_SP st) =? -4 then (EngineSignal SIGFPE FPE_INTDIV 0, st)
  else (EngineReturns (vm_cells st (vm_SP st)), st).
Definition demo_vm (t : user_area) : vm := mkVM 0 0 0 (fun _ => 0) 1 0 t 200.
Definition demo_user : user_area := sm_user (mapped_stacks 4096 1048576 8192 4096 4096 4096).

Lemma demo_layout : layout_ok 4096 8192 1048576 8192 4096 4096 4096.
Proof. constructor; try (vm_compute; repeat split; done). exists 12. split; [lia|reflexivity]. Qed.

Lemma demo_access : access_code 4096 0 demo_user 1064968 (-4).
Proof.
  apply (access_window 4096 0 demo_user 1064968 8192 1048576 8192 4096 4096 4096
    1052672 1064960 1073152 1081344 1089536 1064960 (-4)); try done; try (unfold SPILLAGE, BH; lia).
  - constructor; try (left; reflexivity). apply demo_layout.
  - right. left.
Qed.

Lemma gforth_go_completes_witness :
  exists st', gforth_go demo_engine (fun st => (EngineReturns 0, st)) (fun _ => 0) 4096 0 false false 5000 6000 7000 9
    3 100 (demo_vm demo_user) = Finished (-10) (set_handler 1 st').
Proof.
  destruct (gforth_go_completes demo_engine (fun st => (EngineReturns 0, st)) (fun _ => 0) 4096 0 false 5000 6000 7000 9
    (fun r _ => r = -10) 2 100 (demo_vm demo_user) 3) as (r & st' & E & ->).
  - apply (served_trap _ _ _ _ _ _ _ _ _ _ (-4)); [done|apply trap_access, demo_access|].
    intros st1 (E1 & S1 & _ & _ & _ & H1 & U1 & T1) _. unfold demo_engine. cbn [demo_vm throw_entry set_handler Z.eqb].
    change (200 =? 100) with false. cbn iota. rewrite E1. cbn.
    apply (served_trap _ _ _ _ _ _ _ _ _ _ (-10)); [done|apply trap_division|].
    intros st2 (E2 & _) _. rewrite T1. cbn. rewrite E2. cbn. by apply served_returns.
  - lia.
  - by exists st'.
Defined.

Lemma stack_fault_reaches_throw_witness :
  exists st', throw_state 5000 6000 7000 (-4) (demo_vm demo_user) st' /\
    go_loop demo_engine (fun st => (EngineReturns 0, st)) (fun _ => 0) 4096 0 false false 5000 6000 7000 2
      (EngineSignal SIGSEGV FPE_other 1064968, demo_vm demo_user) =
    go_loop demo_engine (fun st => (EngineReturns 0, st)) (fun _ => 0) 4096 0 false false 5000 6000 7000 1
      (demo_engine 200 st').
Proof.
  assert (LO : layout_ok 4096 8192 1048576 8192 4096 4096 4096).
  { constructor; try (vm_compute; repeat split; done). exists 12. split; [lia|reflexivity]. }
  apply (stack_fault_reaches_throw demo_engine (fun st => (EngineReturns 0, st)) (fun _ => 0) 4096 0 false false
    5000 6000 7000 8192 1048576 8192 4096 4096 4096 demo_user
    1052672 1064960 1073152 1081344 1089536 1064960 (-4));
    try (unfold SPILLAGE, BH; lia); try done; try (left; reflexivity).
  right. left.
Defined.
