(* ===== verification/Division.v ===== *)
(** * Mixed-precision division (engine/support.c, engine/longlong.h)

    [umdiv] divides a double cell by a cell; [smdiv] and [fmdiv] build
    symmetric and floored division on it.  The two implementations of [umdiv]
    (shift-and-subtract, and Knuth's algorithm D through [__udiv_qrnnd_c]) are
    proved against one interface, the class [UmDiv], and the signed divisions
    are proved for any implementation of that interface. *)
From S2P Require Import Prelude DoubleCell.

Definition BALL_DIVZERO : Z := -10.
Definition BALL_RESULTRANGE : Z := -11.

(** ** What a [umdiv] promises *)

(** Quotient in [ud_lo], remainder in [ud_hi]; both errors are throws. *)
Definition umdiv_spec (u : UDCell) (v : Z) : outcome UDCell :=
  if v =? 0 then Throw BALL_DIVZERO
  else if v <=? udval u / B then Throw BALL_RESULTRANGE
  else Ret (mkUD (udval u mod v) (udval u / v)).

Class UmDiv (umdiv : UDCell -> Z -> outcome UDCell) : Prop :=
  umdiv_ok : forall u v, wf_ud u -> is_ucell v -> umdiv u v = umdiv_spec u v.

(** ** The restoring shift-and-subtract loop

    [n] is the number of shifts still to do (the C counter [i], which starts
    at [CELL_BITS] and leaves the loop when it becomes negative). *)
Fixpoint umdiv_loop (n : nat) (c h l q v : Z) : UDCell :=
  let q1 := if negb (c =? 0) || (v <=? h) then U64 (q + 1) else q in
  let h1 := if negb (c =? 0) || (v <=? h) then U64 (h - v) else h in
  match n with
  | O => mkUD h1 q1
  | S n => umdiv_loop n (HIGHBIT h1) (U64 (U64 (2 * h1) + HIGHBIT l)) (U64 (2 * l))
                      (U64 (2 * q1)) v
  end.

Definition umdiv_shift (u : UDCell) (v : Z) : outcome UDCell :=
  let l := ud_lo u in
  let h := ud_hi u in
  if v =? 0 then Throw BALL_DIVZERO
  else if v <=? h then Throw BALL_RESULTRANGE
  else Ret (umdiv_loop (Z.to_nat CELL_BITS) 0 h l 0 v).

Lemma HIGHBIT_div x : is_ucell x -> HIGHBIT x = x / BH.
Proof. intros. unfold HIGHBIT. rewrite U64_small, Z.shiftr_div_pow2 by done. reflexivity. Qed.

(** One subtraction step: [H = c*B + h] is below [2*v] and becomes [H mod v]. *)
Lemma umdiv_sub c h q v :
  (c = 0 \/ c = 1) -> is_ucell h -> is_ucell v -> 0 < v -> c * B + h < 2 * v ->
  0 <= q -> q * v + (c * B + h) < v * B ->
  let b := negb (c =? 0) || (v <=? h) in
  let q1 := if b then U64 (q + 1) else q in
  let h1 := if b then U64 (h - v) else h in
  q1 * v + h1 = q * v + (c * B + h) /\ 0 <= h1 < v /\ 0 <= q1.
Proof.
  intros Hc Hh Hv Hp Hlt Hq Hqb b q1 h1.
  destruct (negb (c =? 0) || (v <=? h)) eqn:E; subst b q1 h1.
  - assert (HH : v <= c * B + h).
    { apply orb_true_iff in E as [E|E]; [apply negb_true_iff in E|]; zbool; wrap_lia. }
    rewrite U64_small by (unfold is_ucell; nia).
    assert (U64 (h - v) = c * B + h - v) as -> by (destruct Hc; subst; wrap_lia).
    split; [|lia]. lia.
  - apply orb_false_iff in E as [E1 E2]. apply negb_false_iff in E1. zbool. subst c.
    unfold is_ucell in *. lia.
Qed.

(** One shift step moves the next dividend bit into [c*B + h]. *)
Lemma umdiv_shift_step n h1 l v rest :
  is_ucell v -> 0 <= h1 < v -> 0 <= rest < 2 ^ (Z.of_nat n + 1) -> Z.of_nat n < 64 ->
  l = rest * 2 ^ (63 - Z.of_nat n) ->
  let hb := rest / 2 ^ Z.of_nat n in
  (HIGHBIT h1 = 0 \/ HIGHBIT h1 = 1) /\ 0 <= hb <= 1 /\
  HIGHBIT h1 * B + U64 (U64 (2 * h1) + HIGHBIT l) = 2 * h1 + hb /\
  U64 (2 * l) = (rest mod 2 ^ Z.of_nat n) * 2 ^ (64 - Z.of_nat n).
Proof.
  intros Hv Hh Hr Hn Hl hb.
  assert (Hp : 0 < 2 ^ Z.of_nat n) by lia.
  assert (Hp2 : 0 < 2 ^ (63 - Z.of_nat n)) by (apply Z.pow_pos_nonneg; lia).
  assert (HB : 2 ^ (63 - Z.of_nat n) * 2 ^ Z.of_nat n = BH)
    by (rewrite <- Z.pow_add_r by lia; replace (63 - Z.of_nat n + Z.of_nat n) with 63 by lia; done).
  rewrite Z.pow_add_r in Hr by lia. change (2 ^ 1) with 2 in Hr.
  assert (Hhb : 0 <= hb <= 1).
  { unfold hb. split; [apply Z.div_pos; lia|].
    apply Z.lt_succ_r, Z.div_lt_upper_bound; lia. }
  assert (Hlu : is_ucell l).
  { subst l. unfold is_ucell. change B with (2 * BH). rewrite <- HB. nia. }
  assert (Hlh : HIGHBIT l = hb).
  { rewrite HIGHBIT_div by done. subst l hb. rewrite <- HB, (Z.mul_comm _ (2 ^ Z.of_nat n)).
    by rewrite Z.div_mul_cancel_r by lia. }
  assert (Hhu : is_ucell h1) by (unfold is_ucell in *; lia).
  rewrite (HIGHBIT_div h1), Hlh by done.
  repeat split; try lia.
  - wrap_lia.
  - wrap_lia.
  - subst l. rewrite (div_mod_eq rest (2 ^ Z.of_nat n)) at 1 by done. fold hb.
    replace (64 - Z.of_nat n) with (1 + (63 - Z.of_nat n)) by lia.
    rewrite Z.pow_add_r by lia. change (2 ^ 1) with 2.
    replace (2 * ((hb * 2 ^ Z.of_nat n + rest mod 2 ^ Z.of_nat n) * 2 ^ (63 - Z.of_nat n)))
      with (rest mod 2 ^ Z.of_nat n * (2 * 2 ^ (63 - Z.of_nat n)) + hb * B)
      by (change B with (2 * BH); rewrite <- HB; ring).
    rewrite U64_add_B. apply U64_small. unfold is_ucell. change B with (2 * BH). rewrite <- HB.
    pose proof (Z.mod_pos_bound rest (2 ^ Z.of_nat n) Hp). nia.
Qed.

(** Loop invariant: with [n] shifts to go, the top [n] bits of the dividend's
    low cell are still in [l], and the digits above have been divided. *)
Lemma umdiv_loop_spec n c h l q v rest :
  (c = 0 \/ c = 1) -> is_ucell h -> is_ucell v -> 0 < v -> c * B + h < 2 * v ->
  0 <= q -> (q * v + (c * B + h)) * 2 ^ Z.of_nat n + rest < v * B ->
  0 <= rest < 2 ^ Z.of_nat n -> l = rest * 2 ^ (64 - Z.of_nat n) -> Z.of_nat n <= 64 ->
  let r := umdiv_loop n c h l q v in
  ud_lo r * v + ud_hi r = (q * v + (c * B + h)) * 2 ^ Z.of_nat n + rest /\ 0 <= ud_hi r < v.
Proof.
  revert c h l q rest. induction n as [|n IH]; intros c h l q rest Hc Hh Hv Hp Hlt Hq Hqb Hr Hl Hn.
  - change (2 ^ Z.of_nat 0) with 1 in *.
    destruct (umdiv_sub c h q v) as (E & Hh1 & Hq1); try done; [lia|].
    simpl. split; [|done]. lia.
  - assert (Hp2 : 0 < 2 ^ Z.of_nat n) by lia.
    replace (Z.of_nat (S n)) with (Z.of_nat n + 1) in * by lia.
    replace (64 - (Z.of_nat n + 1)) with (63 - Z.of_nat n) in Hl by lia.
    assert (E2 : 2 ^ (Z.of_nat n + 1) = 2 * 2 ^ Z.of_nat n)
      by (rewrite Z.pow_add_r by lia; lia).
    assert (Hc0 : 0 <= c * B + h) by (destruct Hc; unfold is_ucell, B in *; lia).
    destruct (umdiv_sub c h q v) as (E & Hh1 & Hq1); try done; [nia|].
    cbn [umdiv_loop].
    destruct (umdiv_shift_step n (if negb (c =? 0) || (v <=? h) then U64 (h - v) else h) l v rest)
      as (S1 & S2 & S3 & S4); try done; [lia|].
    set (q1 := if negb (c =? 0) || (v <=? h) then U64 (q + 1) else q) in *.
    set (h1 := if negb (c =? 0) || (v <=? h) then U64 (h - v) else h) in *.
    pose proof (Z.mod_pos_bound rest (2 ^ Z.of_nat n) Hp2).
    pose proof (div_mod_eq rest (2 ^ Z.of_nat n) Hp2).
    assert (Hq2 : U64 (2 * q1) = 2 * q1) by (apply U64_small; unfold is_ucell; nia).
    rewrite Hq2, S4.
    destruct (IH (HIGHBIT h1) (U64 (U64 (2 * h1) + HIGHBIT l))
                 (rest mod 2 ^ Z.of_nat n * 2 ^ (64 - Z.of_nat n)) (2 * q1)
                 (rest mod 2 ^ Z.of_nat n)) as [R1 R2];
      try done; try lia; try apply U64_range.
Qed.

Lemma udval_div u : wf_ud u -> udval u / B = ud_hi u.
Proof. intros [Hh Hl]. unfold udval. by apply div_digit. Qed.

#[export] Instance umdiv_shift_umdiv : UmDiv umdiv_shift.
Proof.
  intros u v Hu Hv. unfold umdiv_shift, umdiv_spec. rewrite udval_div by done.
  destruct (Z.eqb_spec v 0) as [|Hv0]; [done|]. destruct (Z.leb_spec v (ud_hi u)); [done|].
  destruct u as [h l]. unfold wf_ud, udval in *. cbn [ud_hi ud_lo] in *.
  destruct Hu as [Hh Hl]. f_equal. change (Z.to_nat CELL_BITS) with 64%nat.
  assert (H64 : 2 ^ Z.of_nat 64 = B) by reflexivity.
  pose proof (umdiv_loop_spec 64 0 h l 0 v l) as L. rewrite H64 in L.
  destruct L as [R1 R2]; [by left|done|done| | |lia| |done| |lia|].
  1-3: unfold is_ucell in *; nia.
  - change (2 ^ (64 - Z.of_nat 64)) with 1. lia.
  - destruct (umdiv_loop 64 0 h l 0 v) as [r q]. cbn [ud_hi ud_lo] in *.
    destruct (div_mod_unique_pos (h * B + l) v q r R2) as [-> ->]; [lia|]. done.
Qed.

(** ** Algorithm D: [count_leading_zeros], [nlz] and [__udiv_qrnnd_c] *)

Definition clz_tab : list Z :=
  [0; 1; 2; 2; 3; 3; 3; 3] ++ replicate 8 4 ++ replicate 16 5 ++ replicate 32 6
  ++ replicate 64 7 ++ replicate 128 8.

(** The loop that looks for the highest non-zero byte ([__a] downwards). *)
Fixpoint clz_byte (n : nat) (xr : Z) : Z :=
  match n with
  | O => 0
  | S n' => if negb (Z.land (Z.shiftr xr (8 * Z.of_nat n)) 255 =? 0)
            then 8 * Z.of_nat n else clz_byte n' xr
  end.

Definition count_leading_zeros (x : Z) : Z :=
  let a := clz_byte 7 x in
  CELL_BITS - (nth (Z.to_nat (Z.shiftr x a)) clz_tab 0 + a).

Definition nlz (x : Z) : Z := count_leading_zeros x.

(** The portable branch of [nlz], "adapted from Hacker's Delight". *)
Definition nlz_portable (x : Z) : Z :=
  if x =? 0 then CELL_BITS
  else
    let '(n, x) := if x <=? 4294967295 then (32, x) else (0, Z.shiftr x 32) in
    let '(n, x) := if x <=? 65535 then (n + 16, U64 (Z.shiftl x 16)) else (n, x) in
    let '(n, x) := if x <=? 16777215 then (n + 8, U64 (Z.shiftl x 8)) else (n, x) in
    let '(n, x) := if x <=? 268435455 then (n + 4, U64 (Z.shiftl x 4)) else (n, x) in
    let '(n, x) := if x <=? 1073741823 then (n + 2, U64 (Z.shiftl x 2)) else (n, x) in
    if x <=? 2147483647 then n + 1 else n.

(** One quotient digit: the first and the second half of [__udiv_qrnnd_c]. *)
Definition udiv_digit (n1 dig d : Z) : Z * Z :=
  let d1 := UH d in
  let d0 := LH d in
  let r := n1 mod d1 in
  let q := n1 / d1 in
  let m := U64 (q * d0) in
  let r := Z.lor (U64 (r * HALF)) dig in
  let '(q, r) :=
    if r <? m then
      let q := U64 (q - 1) in
      let r := U64 (r + d) in
      if (d <=? r) && (r <? m) then (U64 (q - 1), U64 (r + d)) else (q, r)
    else (q, r) in
  (q, U64 (r - m)).

Definition udiv_qrnnd_c (n1 n0 d : Z) : Z * Z :=
  let '(q1, r1) := udiv_digit n1 (UH n0) d in
  let '(q0, r0) := udiv_digit r1 (LH n0) d in
  (Z.lor (U64 (q1 * HALF)) q0, r0).

Definition umdiv_qrnnd (u : UDCell) (v : Z) : outcome UDCell :=
  if v =? 0 then Throw BALL_DIVZERO
  else if v <=? ud_hi u then Throw BALL_RESULTRANGE
  else
    let lz := nlz v in
    let v := U64 (Z.shiftl v lz) in
    let u := UDLSHIFT u lz in
    let '(q, r) := udiv_qrnnd_c (ud_hi u) (ud_lo u) v in
    Ret (mkUD (Z.shiftr r lz) q).

Lemma lor_digit hi lo : 0 <= lo < HALF -> Z.lor (hi * HALF) lo = hi * HALF + lo.
Proof. intros. by apply (lor_low hi 32). Qed.

(** The digit estimate [n1 / d1] is too large by at most two when the top
    digit [d1] of the divisor is at least half the base [h]. *)
Lemma digit_estimate h d1 d0 n1 dig :
  0 < d1 -> h <= 2 * d1 -> 0 <= d0 < h -> 0 <= dig < h -> 0 <= n1 < d1 * h + d0 ->
  let q := n1 / d1 in let x := n1 mod d1 * h + dig in let m := q * d0 in
  let d := d1 * h + d0 in
  n1 * h + dig = q * d + x - m /\ 0 <= x < d /\ x < d1 * h /\ 0 <= m < h * h /\ m < 2 * d /\ 0 <= q.
Proof.
  intros Hd1 Hh Hd0 Hdig Hn1 q x m d.
  pose proof (Z.mod_pos_bound n1 d1 Hd1) as Hr. pose proof (div_mod_eq n1 d1 Hd1) as Hq.
  fold q in Hq. assert (Hq0 : 0 <= q) by (apply Z.div_pos; lia).
  assert (Hqb : q <= h + 1) by (apply Z.lt_succ_r, Z.div_lt_upper_bound; [lia | nia]).
  subst x m d. set (r := n1 mod d1) in *. clearbody q r.
  repeat split; try nia.
Qed.

(** The two corrections, with the carry check [__r1 >= (d)]. *)
Lemma digit_correct q x m d :
  is_ucell d -> BH <= d -> 0 <= x < d -> 0 <= m < B -> m < 2 * d -> 0 <= q ->
  0 <= q * d + x - m < HALF * d ->
  let '(q', r') :=
    if x <? m then
      let q := U64 (q - 1) in
      let x := U64 (x + d) in
      if (d <=? x) && (x <? m) then (U64 (q - 1), U64 (x + d)) else (q, x)
    else (q, x) in
  q * d + x - m = q' * d + U64 (r' - m) /\ 0 <= U64 (r' - m) < d /\ 0 <= q' < HALF.
Proof.
  intros Hdu Hd Hx Hm Hm2 Hq Htot. unfold is_ucell in Hdu.
  assert (Hqb : q <= HALF + 2) by nia.
  assert (Hfin : forall k, 0 <= x - m + k * d < d -> 0 <= q - k < HALF).
  { intros k Hk. split; nia. }
  assert (HU : forall y k, 0 <= x - m + k * d < d -> U64 y = U64 (x + k * d) ->
             U64 (U64 y - m) = x - m + k * d).
  { intros y k Hk E. rewrite E. wrap_lia. }
  assert (HU' : forall y k, 0 <= x - m + k * d < d -> U64 y = U64 (x - m + k * d) ->
             U64 y = x - m + k * d).
  { intros y k Hk E. rewrite E. apply U64_small. unfold is_ucell. lia. }
  destruct (Z.ltb_spec x m) as [L1|L1]; cbv beta iota zeta.
  - assert (Hq1 : 1 <= q) by nia.
    assert (Eq1 : U64 (q - 1) = q - 1) by (apply U64_small; unfold is_ucell, B, HALF in *; lia).
    rewrite Eq1.
    destruct (Z.leb_spec d (U64 (x + d))), (Z.ltb_spec (U64 (x + d)) m); cbv beta iota delta [andb].
    2-4: assert (Hk : 0 <= x - m + 1 * d < d) by (unfold BH in *; wrap_lia);
      pose proof (Hfin 1 Hk);
      rewrite (HU (x + d) 1 Hk) by (f_equal; lia); split; [ring | lia].
    assert (Hk : 0 <= x - m + 2 * d < d) by (unfold BH in *; wrap_lia).
    pose proof (Hfin 2 Hk).
    rewrite (HU (U64 (x + d) + d) 2 Hk) by (autorewrite with cell; f_equal; lia).
    rewrite U64_small by (unfold is_ucell, B, HALF in *; lia). split; [ring | lia].
  - assert (Hk : 0 <= x - m + 0 * d < d) by lia. pose proof (Hfin 0 Hk).
    rewrite (HU' (x - m) 0 Hk) by (f_equal; lia). split; [ring | lia].
Qed.

(** Each half computes one exact quotient digit (divisor normalised). *)
Lemma udiv_digit_spec n1 dig d :
  is_ucell d -> BH <= d -> 0 <= n1 < d -> 0 <= dig < HALF ->
  let '(q, r) := udiv_digit n1 dig d in
  n1 * HALF + dig = q * d + r /\ 0 <= r < d /\ 0 <= q < HALF.
Proof.
  intros Hdu Hd Hn Hdig. unfold udiv_digit.
  pose proof (UH_range d Hdu). pose proof (LH_range d Hdu). pose proof (half_split d Hdu) as Hs.
  destruct (digit_estimate HALF (UH d) (LH d) n1 dig) as (E & Hx & Hxd & Hm & Hm2 & Hq);
    try lia; try (unfold BH, HALF in *; lia).
  rewrite <- B_HALF in Hm. rewrite <- Hs in *.
  rewrite (U64_small (n1 / UH d * LH d)) by done.
  assert (Hr : is_ucell (n1 mod UH d * HALF)).
  { unfold is_ucell. pose proof (Z.mod_pos_bound n1 (UH d)). unfold HALF, B in *. nia. }
  rewrite (U64_small (n1 mod UH d * HALF)), lor_digit by done.
  pose proof (digit_correct (n1 / UH d) (n1 mod UH d * HALF + dig) (n1 / UH d * LH d) d) as C.
  rewrite <- E in C. 
  destruct (if _ <? _ then _ else _) as [q' r'].
  apply C; try done. split; nia.
Qed.

Lemma udiv_qrnnd_c_spec n1 n0 d :
  is_ucell d -> BH <= d -> 0 <= n1 < d -> is_ucell n0 ->
  let '(q, r) := udiv_qrnnd_c n1 n0 d in
  n1 * B + n0 = q * d + r /\ 0 <= r < d /\ is_ucell q.
Proof.
  intros Hdu Hd Hn1 Hn0. unfold udiv_qrnnd_c.
  pose proof (udiv_digit_spec n1 (UH n0) d Hdu Hd Hn1 (UH_range n0 Hn0)) as D1.
  destruct (udiv_digit n1 (UH n0) d) as [q1 r1]. destruct D1 as (E1 & Hr1 & Hq1).
  pose proof (udiv_digit_spec r1 (LH n0) d Hdu Hd Hr1 (LH_range n0 Hn0)) as D2.
  destruct (udiv_digit r1 (LH n0) d) as [q0 r0]. destruct D2 as (E2 & Hr0 & Hq0).
  pose proof (half_split n0 Hn0) as Hs.
  rewrite U64_small, lor_digit by (try done; unfold is_ucell; rewrite B_HALF; nia).
  split; [|split; [done|unfold is_ucell; rewrite B_HALF; nia]].
  rewrite Hs, B_HALF.
  transitivity ((n1 * HALF + UH n0) * HALF + LH n0); [ring|]. rewrite E1.
  transitivity (q1 * d * HALF + (r1 * HALF + LH n0)); [ring|]. rewrite E2. ring.
Qed.

Lemma clz_tab_log2 y : 0 < y < 256 -> nth (Z.to_nat y) clz_tab 0 = Z.log2 y + 1.
Proof.
  intros Hy.
  pose proof (forallb_range (fun y => (y =? 0) || (nth (Z.to_nat y) clz_tab 0 =? Z.log2 y + 1))
    256 ltac:(vm_compute; reflexivity) y ltac:(lia)) as H.
  apply orb_true_iff in H as [H|H]; zbool; lia.
Qed.

Lemma land_byte x : Z.land x 255 = x mod 256.
Proof. change 255 with (Z.ones 8). by rewrite Z.land_ones. Qed.

(** The byte loop stops at the highest non-zero byte. *)
Lemma clz_byte_spec n x :
  0 < x < 2 ^ (8 * (Z.of_nat n + 1)) ->
  let a := clz_byte n x in 0 <= a /\ 0 < Z.shiftr x a < 256.
Proof.
  induction n as [|n IH]; intros Hx.
  - simpl. rewrite Z.shiftr_0_r. change (2 ^ (8 * (Z.of_nat 0 + 1))) with 256 in Hx. lia.
  - cbn [clz_byte]. set (k := 8 * Z.of_nat (S n)).
    assert (Hp : 0 < 2 ^ k) by (apply Z.pow_pos_nonneg; lia).
    rewrite land_byte, Z.shiftr_div_pow2 by lia.
    assert (Hk : 0 <= x / 2 ^ k < 256).
    { split; [apply Z.div_pos; lia|]. apply Z.div_lt_upper_bound; [done|].
      replace (8 * (Z.of_nat (S n) + 1)) with (k + 8) in Hx by lia.
      rewrite Z.pow_add_r in Hx by lia. change (2 ^ 8) with 256 in Hx. lia. }
    rewrite Z.mod_small by done. destruct (Z.eqb_spec (x / 2 ^ k) 0) as [E|E]; cbn [negb].
    + apply IH. apply Z.div_small_iff in E; [|lia].
      replace (8 * (Z.of_nat n + 1)) with k by lia. lia.
    + rewrite Z.shiftr_div_pow2 by lia. lia.
Qed.

(** [nlz] counts the leading zeros. *)
Lemma nlz_spec x : 0 < x < B -> nlz x = 63 - Z.log2 x.
Proof.
  intros Hx. unfold nlz, count_leading_zeros.
  destruct (clz_byte_spec 7 x) as [Ha Hs]; [exact Hx|].
  rewrite clz_tab_log2 by done. rewrite (log2_shiftr_pos x _ Ha) by lia.
  unfold CELL_BITS. lia.
Qed.

Lemma nlz_0 : nlz 0 = CELL_BITS.
Proof. reflexivity. Qed.

(** One step of the portable version: shift left when the top [k] of 32 bits
    are clear, keeping [n - log2 x] constant. *)
Lemma nlz_step k lo lim n x :
  0 <= k -> 0 < lo -> lo * 2 ^ k = lim + 1 -> (lim + 1) * 2 ^ k = HALF -> lo <= x < HALF ->
  let '(n', x') := if x <=? lim then (n + k, U64 (Z.shiftl x k)) else (n, x) in
  n' - Z.log2 x' = n - Z.log2 x /\ lim + 1 <= x' < HALF.
Proof.
  intros Hk Hlo Hl Hlim Hx.
  assert (Hp : 0 < 2 ^ k) by (apply Z.pow_pos_nonneg; lia).
  destruct (Z.leb_spec x lim); cbv beta iota; [|lia].
  assert (x * 2 ^ k < HALF) by nia.
  rewrite Z.shiftl_mul_pow2, U64_small by (unfold is_ucell, B, HALF in *; nia || lia).
  rewrite Z.log2_mul_pow2 by lia. split; [lia|]. nia.
Qed.

Lemma nlz_portable_spec x : 0 <= x < B -> nlz_portable x = nlz x.
Proof.
  intros Hx. unfold nlz_portable. destruct (Z.eqb_spec x 0) as [->|Hx0]; [done|].
  rewrite nlz_spec by lia.
  assert (S0 : let '(n, y) := if x <=? 4294967295 then (32, x) else (0, Z.shiftr x 32) in
               n - Z.log2 y = 32 - Z.log2 x /\ 1 <= y < HALF).
  { destruct (Z.leb_spec x 4294967295); [unfold HALF; lia|].
    assert (Hy : 1 <= Z.shiftr x 32 < HALF).
    { rewrite Z.shiftr_div_pow2 by done. unfold HALF, B in *. wrap_lia. }
    rewrite (log2_shiftr_pos x 32) by lia. lia. }
  destruct (if x <=? 4294967295 then _ else _) as [n0 x0]. destruct S0 as [E0 H0].
  pose proof (nlz_step 16 1 65535 n0 x0 ltac:(done) ltac:(done) eq_refl eq_refl H0) as S1.
  destruct (if x0 <=? 65535 then _ else _) as [n1 x1]. destruct S1 as [E1 H1].
  pose proof (nlz_step 8 65536 16777215 n1 x1 ltac:(done) ltac:(done) eq_refl eq_refl H1) as S2.
  destruct (if x1 <=? 16777215 then _ else _) as [n2 x2]. destruct S2 as [E2 H2].
  pose proof (nlz_step 4 16777216 268435455 n2 x2 ltac:(done) ltac:(done) eq_refl eq_refl H2) as S3.
  destruct (if x2 <=? 268435455 then _ else _) as [n3 x3]. destruct S3 as [E3 H3].
  pose proof (nlz_step 2 268435456 1073741823 n3 x3 ltac:(done) ltac:(done) eq_refl eq_refl H3) as S4.
  destruct (if x3 <=? 1073741823 then _ else _) as [n4 x4]. destruct S4 as [E4 H4].
  assert (L : Z.log2 x4 = if x4 <=? 2147483647 then 30 else 31).
  { destruct (Z.leb_spec x4 2147483647); apply Z.log2_unique; unfold HALF in *; lia. }
  destruct (x4 <=? 2147483647); lia.
Qed.

(** ** The [udiv_qrnnd] implementation of [umdiv] *)

Lemma normalize v : 0 < v < B ->
  0 <= nlz v < 64 /\ U64 (Z.shiftl v (nlz v)) = v * 2 ^ nlz v /\ BH <= v * 2 ^ nlz v < B.
Proof.
  intros Hv. rewrite nlz_spec by done.
  pose proof (Z.log2_spec v ltac:(lia)) as [L1 L2]. pose proof (Z.log2_nonneg v).
  assert (Hl : Z.log2 v < 64) by (apply Z.log2_lt_pow2; [lia | exact (proj2 Hv)]).
  assert (Hp : 0 < 2 ^ (63 - Z.log2 v)) by (apply Z.pow_pos_nonneg; lia).
  assert (E1 : 2 ^ Z.log2 v * 2 ^ (63 - Z.log2 v) = BH)
    by (rewrite <- Z.pow_add_r by lia; replace (Z.log2 v + (63 - Z.log2 v)) with 63 by lia; done).
  rewrite Z.pow_succ_r in L2 by lia.
  assert (Hb : BH <= v * 2 ^ (63 - Z.log2 v) < B) by (change B with (2 * BH); nia).
  split; [lia|]. split; [|done].
  rewrite Z.shiftl_mul_pow2 by lia. apply U64_small. unfold is_ucell, BH in *. lia.
Qed.

Lemma UDLSHIFT_wf u k : wf_ud u -> 0 <= k < 64 -> wf_ud (UDLSHIFT u k).
Proof.
  intros [Hh Hl] Hk. unfold UDLSHIFT, DLSHIFT, D2UD, UD2D. destruct (k =? 0); split;
    cbn [ud_hi ud_lo d_hi d_lo]; try apply U64_range; done.
Qed.

(** A double-cell left shift multiplies by a power of two. *)
Lemma UDLSHIFT_val u k :
  wf_ud u -> 0 <= k < 64 -> udval u * 2 ^ k < B * B -> udval (UDLSHIFT u k) = udval u * 2 ^ k.
Proof.
  intros [Hh Hl] Hk Hu. destruct u as [h l]. unfold udval in *. cbn [ud_hi ud_lo] in *.
  unfold UDLSHIFT, DLSHIFT, D2UD, UD2D. cbn [ud_hi ud_lo d_hi d_lo].
  destruct (Z.eqb_spec k 0) as [->|Hk0]; cbn [d_hi d_lo ud_hi ud_lo].
  { rewrite U64_S64, U64_small by done. rewrite Z.mul_1_r. done. }
  assert (Hp : 0 < 2 ^ k) by (apply Z.pow_pos_nonneg; lia).
  assert (Hp' : 0 < 2 ^ (64 - k)) by (apply Z.pow_pos_nonneg; lia).
  assert (EB : 2 ^ (64 - k) * 2 ^ k = B)
    by (rewrite <- Z.pow_add_r by lia; replace (64 - k + k) with 64 by lia; done).
  rewrite !U64_S64, (U64_small h) by done. unfold CELL_BITS.
  rewrite !Z.shiftl_mul_pow2, Z.shiftr_div_pow2 by lia.
  set (c := l / 2 ^ (64 - k)).
  assert (Hc : 0 <= c < 2 ^ k).
  { unfold c. split; [apply Z.div_pos; unfold is_ucell in *; lia|].
    apply Z.div_lt_upper_bound; [done|]. rewrite EB. unfold is_ucell in *; lia. }
  assert (Hl2 : U64 (l * 2 ^ k) = l * 2 ^ k - c * B).
  { unfold U64. symmetry. apply Z.mod_unique with c; [|ring]. left.
    pose proof (div_mod_eq l (2 ^ (64 - k)) Hp'). pose proof (Z.mod_pos_bound l (2 ^ (64 - k)) Hp').
    fold c in H. rewrite <- EB. nia. }
  assert (Hh2 : U64 (h * 2 ^ k) = h * 2 ^ k).
  { apply U64_small. unfold is_ucell in *. nia. }
  rewrite Hh2, Hl2.
  assert (Hor : Z.lor (h * 2 ^ k) c = h * 2 ^ k + c) by (apply lor_low; lia).
  assert (Hhk : h * 2 ^ k < B) by (unfold is_ucell in *; nia).
  assert (Hht : h < 2 ^ (64 - k)) by (rewrite <- EB in Hhk; nia).
  rewrite Hor, U64_small; [ring|]. unfold is_ucell in *. rewrite <- EB. nia.
Qed.

#[export] Instance umdiv_qrnnd_umdiv : UmDiv umdiv_qrnnd.
Proof.
  intros u v Hu Hv. unfold umdiv_qrnnd, umdiv_spec. rewrite udval_div by done.
  destruct (Z.eqb_spec v 0) as [|Hv0]; [done|]. destruct (Z.leb_spec v (ud_hi u)); [done|].
  destruct (normalize v) as (Hk & -> & Hvn); [unfold is_ucell in *; lia|].
  set (k := nlz v) in *. assert (Hp : 0 < 2 ^ k) by (apply Z.pow_pos_nonneg; lia).
  assert (Huv : udval u < v * B) by (destruct Hu; unfold udval, is_ucell in *; nia).
  assert (Hux : udval u * 2 ^ k < B * B).
  { apply Z.lt_trans with (v * B * 2 ^ k); [by apply Z.mul_lt_mono_pos_r|].
    replace (v * B * 2 ^ k) with (v * 2 ^ k * B) by ring.
    apply Z.mul_lt_mono_pos_r; lia || done. }
  pose proof (UDLSHIFT_val u k Hu ltac:(lia) Hux) as Eu.
  destruct (UDLSHIFT_wf u k Hu Hk) as [Wh Wl].
  pose proof (udval_range u Hu).
  pose proof (udiv_qrnnd_c_spec (ud_hi (UDLSHIFT u k)) (ud_lo (UDLSHIFT u k)) (v * 2 ^ k)) as Q.
  destruct (udiv_qrnnd_c _ _ _) as [q r].
  destruct Q as (Q1 & Q2 & Q3);
    [unfold is_ucell, BH in *; lia | lia | unfold udval, is_ucell in *; nia | done |].
  change (ud_hi (UDLSHIFT u k) * B + ud_lo (UDLSHIFT u k)) with (udval (UDLSHIFT u k)) in Q1.
  rewrite Eu in Q1. rewrite Z.shiftr_div_pow2 by lia.
  assert (Er : r = (udval u - q * v) * 2 ^ k) by lia.
  rewrite Er, Z.div_mul by lia.
  destruct (div_mod_unique_pos (udval u) v q (udval u - q * v)) as [-> ->]; [nia | lia | done].
Qed.

(** ** Signed division on top of any [umdiv] *)

Section SignedDivision.
Context (umdiv : UDCell -> Z -> outcome UDCell) `{!UmDiv umdiv}.

Definition smdiv (num : DCell) (denom : Z) : outcome DCell :=
  let denomsign := denom in
  let h := d_hi num in
  let num := if h <? 0 then dnegate num else num in
  let denom := if denomsign <? 0 then S64 (- denom) else denom in
  ures ← umdiv (D2UD num) (U64 denom);
  let q := ud_lo ures in
  let r := ud_hi ures in
  q ← (if Z.lxor h denomsign <? 0 then
         let q := U64 (- q) in
         if 0 <? S64 q then Throw BALL_RESULTRANGE else Ret q
       else
         if S64 q <? 0 then Throw BALL_RESULTRANGE else Ret q);
  let r := if h <? 0 then U64 (- r) else r in
  Ret (mkD (S64 r) q).

Definition fmdiv (num : DCell) (denom : Z) : outcome DCell :=
  let denomsign := denom in
  let num := if denom <? 0 then dnegate num else num in
  let denom := if denom <? 0 then S64 (- denom) else denom in
  let numsign := d_hi num in
  let num := if numsign <? 0 then mkD (S64 (d_hi num + denom)) (d_lo num) else num in
  ures ← umdiv (D2UD num) (U64 denom);
  let q := ud_lo ures in
  let r := ud_hi ures in
  if Z.lxor numsign (S64 q) <? 0 then Throw BALL_RESULTRANGE else
  let r := if denomsign <? 0 then U64 (- r) else r in
  Ret (mkD (S64 r) q).
End SignedDivision.

(** The mathematical quotients the two divisions compute: a result is returned
    exactly when the quotient fits a cell. *)
Definition signed_div_spec (qr : Z -> Z -> Z * Z) (num : DCell) (denom : Z) : outcome DCell :=
  if denom =? 0 then Throw BALL_DIVZERO
  else let '(q, r) := qr (dval num) denom in
       if (- BH <=? q) && (q <? BH) then Ret (mkD r (U64 q)) else Throw BALL_RESULTRANGE.

Definition smdiv_spec := signed_div_spec (fun n d => (Z.quot n d, Z.rem n d)).
Definition fmdiv_spec := signed_div_spec (fun n d => (n / d, n mod d)).

Lemma lxor_neg a b : (Z.lxor a b <? 0) = xorb (a <? 0) (b <? 0).
Proof.
  destruct (Z.ltb_spec (Z.lxor a b) 0), (Z.ltb_spec a 0), (Z.ltb_spec b 0); try reflexivity;
    pose proof (Z.lxor_nonneg a b); exfalso; lia.
Qed.

Lemma abs_cell d : is_cell d -> U64 (if d <? 0 then S64 (- d) else d) = Z.abs d.
Proof. intros. zcases; wrap_lia. Qed.

Lemma dval_neg_hi n : wf_d n -> (d_hi n <? 0) = (dval n <? 0).
Proof. destruct n as [h l]. unfold wf_d, dval. cbn [d_hi d_lo]. intros [? ?]. zcases; wrap_lia. Qed.

Lemma abs_double n : wf_d n ->
  udval (D2UD (if d_hi n <? 0 then dnegate n else n)) = Z.abs (dval n) /\
  wf_ud (D2UD (if d_hi n <? 0 then dnegate n else n)).
Proof.
  intros Hn. pose proof (dval_range n Hn) as R. rewrite dval_neg_hi by done.
  destruct (Z.ltb_spec (dval n) 0).
  - split; [|apply D2UD_wf, dnegate_wf]. rewrite D2UD_val by apply dnegate_wf.
    destruct (decide (dval n = - (B * BH))) as [E|E].
    + rewrite dnegate_min, E by done. reflexivity.
    + rewrite dnegate_val by done. rewrite Z.mod_small; unfold B, BH in *; lia.
  - split; [|by apply D2UD_wf]. rewrite D2UD_val by done.
    rewrite Z.mod_small; unfold B, BH in *; lia.
Qed.

Lemma udiv_in_range n v : 0 <= n -> 0 < v -> (v <=? n / B) = (B <=? n / v).
Proof.
  intros Hn Hv. pose proof (div_mod_eq n B B_pos). pose proof (Z.mod_pos_bound n B B_pos).
  pose proof (div_mod_eq n v Hv). pose proof (Z.mod_pos_bound n v Hv).
  zcases; try reflexivity; exfalso; nia.
Qed.

(** Truncated quotient and remainder from those of the absolute values. *)
Lemma quot_rem_abs n d : d <> 0 ->
  Z.quot n d = (if xorb (n <? 0) (d <? 0) then -1 else 1) * (Z.abs n / Z.abs d) /\
  Z.rem n d = (if n <? 0 then -1 else 1) * (Z.abs n mod Z.abs d).
Proof.
  intros Hd. split.
  - rewrite <- Z.quot_div_nonneg by lia. zcases; cbn [xorb].
    + rewrite !Z.abs_neq, Z.quot_opp_opp by lia. lia.
    + rewrite Z.abs_neq, Z.abs_eq, Z.quot_opp_l by lia. lia.
    + rewrite Z.abs_eq, Z.abs_neq, Z.quot_opp_r by lia. lia.
    + rewrite !Z.abs_eq by lia. lia.
  - rewrite <- Z.rem_mod_nonneg by lia. rewrite Z.rem_abs_r by lia. zcases.
    + rewrite Z.abs_neq, Z.rem_opp_l by lia. lia.
    + rewrite Z.abs_eq by lia. lia.
Qed.

(** [smdiv] is symmetric (truncating) division of a double cell by a cell,
    whatever [umdiv] it is built on: it throws -10 for a zero divisor, -11
    exactly when the quotient does not fit a signed cell, and otherwise returns
    quotient and remainder. *)
Theorem smdiv_symmetric umdiv `{!UmDiv umdiv} (n : DCell) (d : Z) :
  wf_d n -> is_cell d -> smdiv umdiv n d = smdiv_spec n d.
Proof.
  intros Hn Hd. unfold smdiv, smdiv_spec, signed_div_spec. cbv zeta.
  destruct (abs_double n Hn) as [E W]. rewrite abs_cell by done.
  rewrite (umdiv_ok _ _ W) by (wrap_unfold; lia). unfold umdiv_spec. rewrite E.
  rewrite lxor_neg, dval_neg_hi by done.
  destruct (Z.eqb_spec d 0) as [->|Hd0]; [reflexivity|].
  destruct (Z.eqb_spec (Z.abs d) 0); [lia|].
  rewrite udiv_in_range by lia.
  destruct (quot_rem_abs (dval n) d Hd0) as [EQ ER].
  rewrite EQ, ER.
  assert (0 <= Z.abs (dval n) / Z.abs d) by (apply Z.div_pos; lia).
  pose proof (Z.mod_pos_bound (Z.abs (dval n)) (Z.abs d) ltac:(lia)).
  generalize dependent (Z.abs (dval n) / Z.abs d). intros q Eq Hq.
  generalize dependent (Z.abs (dval n) mod Z.abs d). intros r Er Hr.
  destruct (Z.leb_spec B q).
  { cbn. destruct (xorb _ _); zcases; cbn; first [reflexivity | unfold B, BH in *; lia]. }
  cbn [mbind outcome_bind ud_lo ud_hi].
  assert (HS : S64 (if dval n <? 0 then U64 (- r) else r)
               = (if dval n <? 0 then -1 else 1) * r)
    by (unfold is_cell, BH in Hd; zcases; wrap_lia).
  destruct (xorb _ _).
  - destruct (Z.ltb_spec 0 (S64 (U64 (- q)))); cbn [mbind outcome_bind].
    + destruct ((_ <=? _) && _) eqn:C; zbool; [wrap_lia | reflexivity].
    + destruct ((_ <=? _) && _) eqn:C; [rewrite HS; do 2 f_equal; f_equal; lia|].
      apply andb_false_iff in C as [C|C]; zbool; wrap_lia.
  - destruct (Z.ltb_spec (S64 q) 0); cbn [mbind outcome_bind].
    + destruct ((_ <=? _) && _) eqn:C; zbool; [wrap_lia | reflexivity].
    + destruct ((_ <=? _) && _) eqn:C.
      * rewrite HS. rewrite Z.mul_1_l, (U64_small q) by (unfold is_ucell; lia). done.
      * apply andb_false_iff in C as [C|C]; zbool; wrap_lia.
Qed.

(** [fmdiv] works on [-n] and [-d] when the divisor is negative, which keeps
    the floored quotient; a negative dividend is shifted up by [d * 2^64],
    which adds 2^64 to the quotient. *)
Lemma fmdiv_pos umdiv `{!UmDiv umdiv} n d :
  wf_d n -> 0 <= d <= BH ->
  umdiv (D2UD (if d_hi n <? 0 then mkD (S64 (d_hi n + S64 d)) (d_lo n) else n)) d =
  if d =? 0 then Throw BALL_DIVZERO
  else let n' := (if dval n <? 0 then dval n + d * B else dval n) mod (B * B) in
       if B <=? n' / d then Throw BALL_RESULTRANGE
       else Ret (mkUD (n' mod d) (n' / d)).
Proof.
  intros Hn Hd. pose proof (dval_range n Hn) as R.
  set (m := if d_hi n <? 0 then _ else n).
  assert (W : wf_d m).
  { subst m. destruct (_ <? _); [|done]. split; [apply S64_range | apply Hn]. }
  rewrite (umdiv_ok _ _ (D2UD_wf _ W)) by (wrap_unfold; lia).
  unfold umdiv_spec. rewrite D2UD_val by done.
  assert (E : dval m mod (B * B) = (if dval n <? 0 then dval n + d * B else dval n) mod (B * B)).
  { subst m. rewrite dval_neg_hi by done. destruct (dval n <? 0); [|done].
    destruct n as [h l]. unfold dval; cbn [d_hi d_lo]. clear -Hd. wrap_lia. }
  rewrite E. cbv zeta. destruct (Z.eqb_spec d 0); [done|].
  rewrite udiv_in_range by (try apply Z.mod_pos_bound; lia || done). reflexivity.
Qed.

Lemma floor_neg n d : d < 0 -> n / d = (- n) / (- d) /\ n mod d = - ((- n) mod (- d)).
Proof. intros. rewrite Z.div_opp_opp, Z.mod_opp_opp by lia. split; lia. Qed.

(** The range test of [fmdiv] on the quotient of a dividend of known sign. *)
Lemma fmdiv_range n d :
  0 < d <= BH -> - (B * BH) <= n < B * BH ->
  let n' := (if n <? 0 then n + d * B else n) mod (B * B) in
  if B <=? n' / d then ~ is_cell (n / d)
  else if xorb (n <? 0) (S64 (n' / d) <? 0) then ~ is_cell (n / d)
  else is_cell (n / d) /\ U64 (n / d) = n' / d /\ n mod d = n' mod d.
Proof.
  intros Hd Hn n'. subst n'. destruct (Z.ltb_spec n 0).
  - destruct (Z.ltb_spec (n + d * B) 0).
    + assert (Hq : n / d < - B) by (apply Z.div_lt_upper_bound; nia).
      assert (~ is_cell (n / d)) by (wrap_unfold; lia).
      replace ((n + d * B) mod (B * B)) with (n + d * B + B * B)
        by (apply Z.mod_unique with (-1); [left|]; unfold B, BH in *; lia).
      assert (B <= (n + d * B + B * B) / d)
        by (apply Z.div_le_lower_bound; unfold B, BH in *; lia).
      destruct (Z.leb_spec B ((n + d * B + B * B) / d)); [done | lia].
    + rewrite Z.mod_small by (unfold B, BH in *; lia).
      rewrite (Z.mul_comm d B), Z.div_add, Z.mod_add by lia.
      assert (n / d < 0) by (apply Z.div_lt_upper_bound; lia).
      assert (- B <= n / d) by (apply Z.div_le_lower_bound; lia).
      destruct (Z.leb_spec B (n / d + B)); [lia|].
      destruct (Z.ltb_spec (S64 (n / d + B)) 0); cbn [xorb].
      * split; [wrap_lia|]. split; [wrap_lia | done].
      * wrap_lia.
  - rewrite Z.mod_small by (unfold B, BH in *; lia).
    assert (0 <= n / d) by (apply Z.div_pos; lia).
    destruct (Z.leb_spec B (n / d)); [wrap_lia|].
    destruct (Z.ltb_spec (S64 (n / d)) 0); cbn [xorb].
    + wrap_lia.
    + split; [wrap_lia|]. split; [wrap_lia | done].
Qed.

Lemma in_cell_true q : is_cell q -> (- BH <=? q) && (q <? BH) = true.
Proof. unfold is_cell. lia. Qed.

Lemma in_cell_false q : ~ is_cell q -> (- BH <=? q) && (q <? BH) = false.
Proof. unfold is_cell. lia. Qed.

(** C31: [fmdiv] is floored division of a double cell by a cell, with the same
    errors as [smdiv]. *)
Theorem fmdiv_floored umdiv `{!UmDiv umdiv} (n : DCell) (d : Z) :
  wf_d n -> is_cell d -> fmdiv umdiv n d = fmdiv_spec n d.
Proof.
  intros Hn Hd. unfold fmdiv, fmdiv_spec, signed_div_spec. cbv zeta.
  rewrite abs_cell by done.
  replace (if d <? 0 then S64 (- d) else d) with (S64 (Z.abs d))
    by (zcases; [by rewrite Z.abs_neq by lia | by rewrite Z.abs_eq, S64_small by (done || lia)]).
  set (m := if d <? 0 then dnegate n else n).
  assert (Wm : wf_d m) by (subst m; destruct (_ <? _); [apply dnegate_wf | done]).
  rewrite fmdiv_pos by (done || (wrap_unfold; lia)). cbv zeta.
  destruct (Z.eqb_spec d 0) as [->|Hd0]; [reflexivity|].
  destruct (Z.eqb_spec (Z.abs d) 0); [lia|].
  pose proof (fmdiv_range (dval m) (Z.abs d)) as RG. cbv zeta in RG.
  specialize (RG ltac:(wrap_unfold; lia) (dval_range m Wm)).
  assert (EQ : (is_cell (dval n / d) <-> is_cell (dval m / Z.abs d)) /\
               (is_cell (dval m / Z.abs d) -> dval n / d = dval m / Z.abs d /\
                dval n mod d = if d <? 0 then - (dval m mod Z.abs d) else dval m mod Z.abs d)).
  { subst m. destruct (Z.ltb_spec d 0); [|rewrite Z.abs_eq by lia; done].
    destruct (floor_neg (dval n) d) as [-> ->]; [done|]. rewrite Z.abs_neq by lia.
    destruct (decide (dval n = - (B * BH))) as [E|E].
    - rewrite dnegate_min, E by done. unfold is_cell in *.
      assert (- (B * BH) / - d < - BH)
        by (apply Z.div_lt_upper_bound; unfold B, BH in *; lia).
      assert (BH <= - - (B * BH) / - d)
        by (apply Z.div_le_lower_bound; unfold B, BH in *; lia).
      lia.
    - by rewrite dnegate_val by done. }
  destruct EQ as [EQ1 EQ2].
  set (n' := (if dval m <? 0 then _ else _) mod (B * B)) in *.
  destruct (B <=? n' / Z.abs d).
  { rewrite in_cell_false by (by rewrite EQ1). reflexivity. }
  cbn [mbind outcome_bind ud_lo ud_hi]. rewrite lxor_neg, dval_neg_hi by done.
  destruct (xorb (dval m <? 0) (S64 (n' / Z.abs d) <? 0)).
  { rewrite in_cell_false by (by rewrite EQ1). reflexivity. }
  destruct RG as (R1 & R2 & R3). destruct (EQ2 R1) as [-> ->].
  rewrite in_cell_true, R2, R3 by done.
  pose proof (Z.mod_pos_bound n' (Z.abs d) ltac:(lia)).
  do 2 f_equal. unfold is_cell, BH in Hd. zcases; wrap_lia.
Qed.

Lemma smdiv_symmetric_witness :
  smdiv umdiv_qrnnd (mkD (-1) (B - 7)) 2 = Ret (mkD (-1) (U64 (-3))).
Proof.
  rewrite (smdiv_symmetric umdiv_qrnnd (mkD (-1) (B - 7)) 2);
    [reflexivity | split; split; vm_compute; congruence | split; vm_compute; congruence].
Defined.

Lemma fmdiv_floored_witness :
  fmdiv umdiv_shift (mkD (-1) (B - 7)) 2 = Ret (mkD 1 (U64 (-4))).
Proof.
  rewrite (fmdiv_floored umdiv_shift (mkD (-1) (B - 7)) 2);
    [reflexivity | split; split; vm_compute; congruence | split; vm_compute; congruence].
Defined.

(** C27: the two implementations of [umdiv] (restoring shift-and-subtract, and
    normalisation with Knuth's two-digit division) agree on every dividend and
    divisor, errors included, and return quotient and remainder exactly when
    the quotient fits a cell. *)
Theorem umdiv_implementations_agree (u : UDCell) (v : Z) :
  wf_ud u -> is_ucell v ->
  umdiv_shift u v = umdiv_qrnnd u v /\ umdiv_qrnnd u v =
    (if v =? 0 then Throw BALL_DIVZERO
     else if v <=? udval u / B then Throw BALL_RESULTRANGE
     else Ret (mkUD (udval u mod v) (udval u / v))).
Proof.
  intros Hu Hv. rewrite (umdiv_shift_umdiv u v Hu Hv), (umdiv_qrnnd_umdiv u v Hu Hv).
  split; reflexivity.
Qed.

Lemma umdiv_implementations_agree_witness :
  umdiv_shift (mkUD 5 17) 6 = umdiv_qrnnd (mkUD 5 17) 6 /\ umdiv_qrnnd (mkUD 5 17) 6 = Ret (mkUD 1 ((5 * B + 17) / 6)).
Proof.
  destruct (umdiv_implementations_agree (mkUD 5 17) 6) as [H1 H2];
    [split; split; vm_compute; congruence | split; vm_compute; congruence |].
  split; [exact H1|]. rewrite H2. vm_compute. reflexivity.
Defined.

(** [nlz] (table version and portable version) counts the leading zero
    bits of a cell: it is the unique shift that normalises a non-zero cell,
    and 64 for zero. *)
Theorem nlz_counts (x : Z) :
  is_ucell x ->
  nlz_portable x = nlz x /\ (x = 0 -> nlz x = 64) /\ (x <> 0 -> 0 <= nlz x < 64 /\ BH <= x * 2 ^ nlz x < B).
Proof.
  intros Hx. unfold is_ucell in Hx. split; [by apply nlz_portable_spec|].
  split; [intros ->; apply nlz_0|]. intros. destruct (normalize x) as (? & _ & ?); [lia|]. done.
Qed.

Lemma nlz_counts_witness : nlz_portable 1 = nlz 1 /\ BH <= 1 * 2 ^ nlz 1 < B.
Proof.
  destruct (nlz_counts 1) as (? & _ & H); [split; vm_compute; congruence|].
  split; [done|]. apply H. lia.
Defined.
