(* ===== verification/StageDiv.v ===== *)
(** * Staged division by an invariant divisor (engine/engine.c, stagediv.fs)

    Stage 1 computes a reciprocal once per divisor (Forth words of
    stagediv.fs), stage 2 (inline C functions of engine.c) divides by
    multiplying with it.  The two stages are modelled separately and proved to
    be unsigned, resp. floored, division together. *)
From S2P Require Import Prelude DoubleCell Division.

Record stagediv_t := mkStage { inverse : Z; inverse_hi : Z; divisor : Z }.

(** ** Stage 2 *)

Definition uslashstage2 (u1 : Z) (stage1 : stagediv_t) : Z :=
  let hi := ummul u1 (inverse_hi stage1) in
  let lo := ummul u1 (inverse stage1) in
  ud_hi (umadd hi (ud_hi lo)).

Definition slashfstage2 (n1 : Z) (stage1 : stagediv_t) : Z :=
  let inv := S64 (inverse stage1) in
  let ud1 := D2UD (mmul n1 inv) in
  let ud2 := umadd ud1 (Z.shiftr (U64 inv) 1) in
  let n2 := S64 (ud_hi ud2 + n1) in
  Z.shiftr n2 (inverse_hi stage1).

(** ** Stage 1 *)

Section Stage1.
Context (umdiv : UDCell -> Z -> outcome UDCell) `{!UmDiv umdiv}.

Definition u_slash_stage1m (udivisor : Z) : outcome stagediv_t :=
  if udivisor <? 2 then Throw (-24) else
  r1 ← umdiv (mkUD 1 0) udivisor;
  r2 ← umdiv (mkUD (ud_hi r1) (udivisor - 1)) udivisor;
  Ret (mkStage (ud_lo r2) (ud_lo r1) udivisor).

Definition is_pow2 (n : Z) : bool := (Z.land n (n - 1) =? 0) && negb (n =? 0).

Definition slash_f_stage1m (ndivisor : Z) : outcome stagediv_t :=
  if ndivisor <? 1 then Throw (-24) else
  let um := Z.log2 ndivisor in
  ua ← (if is_pow2 ndivisor then Ret (U64 (-1))
        else r ← umdiv (mkUD (Z.shiftl 1 um) (Z.shiftr ndivisor 1)) ndivisor;
             Ret (ud_lo r));
  Ret (mkStage ua um ndivisor).
End Stage1.

(** ** Lemmas *)

(** The reciprocal of stage 1 is 2^128/d rounded up. *)
Lemma u_slash_stage1m_val umdiv `{!UmDiv umdiv} d :
  2 <= d < B ->
  exists s, u_slash_stage1m umdiv d = Ret s /\
    is_ucell (inverse s) /\ is_ucell (inverse_hi s) /\ divisor s = d /\
    inverse_hi s * B + inverse s = (B * B + d - 1) / d.
Proof.
  intros Hd. unfold u_slash_stage1m. destruct (Z.ltb_spec d 2); [lia|].
  assert (W1 : wf_ud (mkUD 1 0)) by (split; unfold is_ucell, B; cbn; lia).
  rewrite umdiv_ok by (done || (unfold is_ucell; lia)). unfold umdiv_spec, udval.
  cbn [ud_hi ud_lo]. rewrite Z.mul_1_l, Z.add_0_r. change (B / B) with 1.
  destruct (Z.eqb_spec d 0); [lia|]. destruct (Z.leb_spec d 1); [lia|].
  cbn [mbind outcome_bind ud_hi ud_lo].
  pose proof (Z.mod_pos_bound B d ltac:(lia)) as Hr. pose proof (div_mod_eq B d ltac:(lia)) as Eq.
  assert (Hq : 0 <= B / d < B) by (split; [apply Z.div_pos; unfold B; lia |
    apply Z.div_lt_upper_bound; unfold B; lia]).
  assert (W2 : wf_ud (mkUD (B mod d) (d - 1))) by (split; unfold is_ucell; cbn; lia).
  rewrite umdiv_ok by (done || (unfold is_ucell; lia)). unfold umdiv_spec, udval.
  cbn [ud_hi ud_lo]. rewrite div_digit by (unfold is_ucell; lia).
  destruct (Z.eqb_spec d 0); [lia|]. destruct (Z.leb_spec d (B mod d)); [lia|].
  cbn [mbind outcome_bind ud_hi ud_lo]. eexists; split; [done|]. cbn [inverse inverse_hi divisor].
  assert (Hq2 : 0 <= (B mod d * B + (d - 1)) / d < B).
  { split; [apply Z.div_pos; unfold B in *; lia|]. apply Z.div_lt_upper_bound; unfold B in *; lia. }
  split; [done|]. split; [done|]. split; [done|].
  rewrite <- Z.div_add_l by lia. f_equal.
  replace (B * B) with ((B / d * d + B mod d) * B) by (rewrite <- Eq; ring). ring.
Qed.

Lemma uslashstage2_val u s :
  is_ucell u -> is_ucell (inverse s) -> is_ucell (inverse_hi s) ->
  uslashstage2 u s = u * (inverse_hi s * B + inverse s) / (B * B).
Proof.
  intros Hu Hi Hh. unfold uslashstage2.
  pose proof (ummul_val u (inverse_hi s) Hu Hh) as Eh.
  pose proof (ummul_val u (inverse s) Hu Hi) as El.
  destruct (ummul_wf u (inverse_hi s)) as [Wh1 Wh2].
  destruct (ummul_wf u (inverse s)) as [Wl1 Wl2].
  unfold umadd. set (x := dadd _ _).
  assert (Wx : wf_ud x) by apply dadd_wf.
  assert (Ex : udval x = (u * inverse_hi s + ud_hi (ummul u (inverse s))) mod (B * B)).
  { subst x. rewrite dadd_val by (split; done || (split; unfold is_ucell, B; cbn; lia)).
    rewrite Eh. unfold udval; cbn [ud_hi ud_lo]. by rewrite Z.mul_0_l. }
  rewrite <- (udval_div x Wx), Ex. rewrite <- (udval_div _ (ummul_wf u (inverse s))), El.
  rewrite Z.mod_small.
  - rewrite <- Z.div_add_l, Z.div_div by done. f_equal; ring.
  - unfold is_ucell in *.
    assert (0 <= u * inverse s / B < B).
    { split; [apply Z.div_pos; nia || done|]. apply Z.div_lt_upper_bound; [done|]. nia. }
    nia.
Qed.

Lemma ustage_correct u d i :
  0 <= u < B -> 0 < d < B -> i = (B * B + d - 1) / d -> u * i / (B * B) = u / d.
Proof.
  intros Hu Hd ->. pose proof (div_mod_eq (B * B + d - 1) d ltac:(lia)) as E.
  pose proof (Z.mod_pos_bound (B * B + d - 1) d ltac:(lia)) as Hr.
  set (i := (B * B + d - 1) / d) in *. set (r := (B * B + d - 1) mod d) in *.
  pose proof (div_mod_eq u d ltac:(lia)) as Eu. pose proof (Z.mod_pos_bound u d ltac:(lia)) as Hs.
  set (q := u / d) in *. set (s := u mod d) in *.
  symmetry. apply Z.div_unique with (u * i - q * (B * B)); [left|ring].
  assert (He : u * (d - 1 - r) < B * B) by nia.
  assert (Eid : i * d = B * B + (d - 1 - r)) by lia.
  assert (Em : (u * i - q * (B * B)) * d = s * (B * B) + u * (d - 1 - r)).
  { replace ((u * i - q * (B * B)) * d) with (u * (i * d) - q * d * (B * B)) by ring.
    rewrite Eid. replace (q * d) with (u - s) by lia. ring. }
  assert (0 <= u * (d - 1 - r)) by nia.
  assert (0 < B * B) by done.
  split; nia.
Qed.

(** *** Floored stage *)

Lemma slashfstage2_val n ua um d :
  is_cell n -> BH <= ua < B -> 0 <= um ->
  slashfstage2 n (mkStage ua um d) = (n * ua + ua / 2) / B / 2 ^ um.
Proof.
  intros Hn Hua Hum. unfold slashfstage2. cbn [inverse inverse_hi]. cbv zeta.
  assert (Es : S64 ua = ua - B) by wrap_lia.
  assert (Eu : U64 (S64 ua) = ua) by wrap_lia.
  rewrite Eu, (Z.shiftr_div_pow2 ua 1) by done. change (2 ^ 1) with 2.
  assert (Hs : is_cell (S64 ua)) by apply S64_range.
  pose proof (mmul_val n (S64 ua) Hn Hs) as Em. rewrite Es in Em.
  rewrite Es. set (m := mmul n (ua - B)) in *.
  assert (Wm : wf_d m) by apply mmul_wf.
  unfold umadd. set (x := dadd _ _). assert (Wx : wf_ud x) by apply dadd_wf.
  assert (Hh : 0 <= ua / 2 < B) by (unfold B, BH in *; wrap_lia).
  assert (Ex : udval x = (n * (ua - B) + ua / 2) mod (B * B)).
  { subst x. rewrite dadd_val.
    - rewrite D2UD_val, Em by done. unfold udval; cbn [ud_hi ud_lo].
      rewrite Z.mul_0_l, Z.add_0_l. by rewrite Zplus_mod_idemp_l.
    - by apply D2UD_wf.
    - split; [unfold is_ucell, B; cbn; lia | exact Hh]. }
  rewrite <- (udval_div x Wx), Ex.
  assert (Ediv : n * (ua - B) + ua / 2 = n * ua + ua / 2 + (- n) * B) by ring.
  rewrite Ediv. set (p := n * ua + ua / 2).
  assert (Hp : - BH <= p / B < BH).
  { unfold is_cell in Hn. pose proof (div_mod_eq p B B_pos). pose proof (Z.mod_pos_bound p B B_pos).
    split; [apply Z.div_le_lower_bound; [done|] | apply Z.div_lt_upper_bound; [done|]];
      subst p; unfold B, BH in *; nia. }
  rewrite <- Z.shiftr_div_pow2 by done. f_equal.
  assert (E2 : (p + - n * B) mod (B * B) / B = (p / B - n) mod B).
  { rewrite Z.rem_mul_r by done. rewrite Z.div_add, Z.mod_add by done.
    rewrite (Z.mul_comm B), Z.div_add, (Z.div_small (p mod B)) by
      (done || apply Z.mod_pos_bound; done).
    rewrite Z.add_0_l. reflexivity. }
  rewrite E2. clear - Hp. wrap_lia.
Qed.

(** Multiplying by the rounded reciprocal [ua ~ K/d] and adding half of it
    gives the floored quotient. *)
Lemma fstage_correct n d ua e K :
  - BH <= n < BH -> 0 < d < BH -> ua * d = K + e -> - d <= 2 * e <= d -> (d + 1) * BH <= K ->
  (n * ua + ua / 2) / K = n / d.
Proof.
  intros Hn Hd Eua He HK.
  assert (Hd0 : 0 < d) by lia.
  pose proof (div_mod_eq n d Hd0) as En. pose proof (Z.mod_pos_bound n d Hd0) as Hr.
  set (q := n / d) in *. set (r := n mod d) in *.
  pose proof (div_mod_eq ua 2 ltac:(done)) as Eh. pose proof (Z.mod_pos_bound ua 2 ltac:(done)) as Hh.
  set (h := ua / 2) in *.
  symmetry. apply Z.div_unique with (n * ua + h - q * K); [left|ring].
  assert (Hen : - d * B < 2 * ((2 * n + 1) * e) < d * B).
  { assert (HB : B = 2 * BH) by done. clearbody h q r. clear Eua HK Eh. nia. }
  assert (E2 : 2 * ((n * ua + h - q * K) * d) = 2 * r * K + 2 * n * e + (K + e) - ua mod 2 * d).
  { replace (2 * ((n * ua + h - q * K) * d)) with (2 * n * (ua * d) + (h * 2) * d - 2 * (q * d) * K) by ring.
    replace (h * 2) with (ua - ua mod 2) by lia. replace (q * d) with (n - r) by lia.
    rewrite Z.mul_sub_distr_r, Eua. ring. }
  assert (Hm : 0 <= ua mod 2 * d <= d) by nia.
  assert (HKd : 2 * d * BH + 2 * BH <= 2 * K) by lia.
  change (2 * BH) with B in HKd. replace (2 * d * BH) with (d * B) in HKd by (change B with (2 * BH); ring).
  assert (HK0 : 0 < K) by (unfold BH in *; lia).
  assert (HrK : 0 <= r * K <= (d - 1) * K)
    by (split; [apply Z.mul_nonneg_nonneg | apply Z.mul_le_mono_nonneg_r]; lia).
  set (X := n * ua + h - q * K) in *.
  assert (E4 : 4 * (X * d) = 4 * (r * K) + 2 * ((2 * n + 1) * e) + 2 * K - 2 * (ua mod 2 * d))
    by (replace (4 * (X * d)) with (2 * (2 * (X * d))) by ring; rewrite E2; ring).
  change B with (2 * BH) in *.
  assert (0 < X * d < K * d) by (replace (K * d) with ((d - 1) * K + K) by ring; lia).
  split; [apply Z.lt_le_incl, (Z.mul_pos_cancel_r X d); lia | apply (Z.mul_lt_mono_pos_r d); lia].
Qed.

(** *** Stage 1 for floored division *)

Lemma is_pow2_iff d : 0 < d -> is_pow2 d = true <-> d = 2 ^ Z.log2 d.
Proof.
  intros Hd. pose proof (Z.log2_spec d Hd) as [L1 L2]. pose proof (Z.log2_nonneg d) as L0.
  unfold is_pow2. destruct (Z.eqb_spec d 0); [lia|]. rewrite andb_true_r, Z.eqb_eq. split.
  - intros H. destruct (decide (d = 2 ^ Z.log2 d)) as [|Hne]; [done|exfalso].
    assert (E : Z.log2 (d - 1) = Z.log2 d) by (apply Z.log2_unique; lia).
    assert (T : Z.testbit (Z.land d (d - 1)) (Z.log2 d) = true).
    { rewrite Z.land_spec, Z.bit_log2 by done. rewrite <- E at 1.
      rewrite Z.bit_log2; [done|]. pose proof (Z.pow_pos_nonneg 2 (Z.log2 d)). lia. }
    by rewrite H, Z.bits_0 in T.
  - intros E. rewrite E. replace (2 ^ Z.log2 d - 1) with (Z.ones (Z.log2 d)) by (rewrite Z.ones_equiv; lia).
    rewrite Z.land_ones by done. apply Z.mod_same. lia.
Qed.

Lemma slash_f_stage1m_val umdiv `{!UmDiv umdiv} d :
  1 <= d < BH ->
  exists ua, slash_f_stage1m umdiv d = Ret (mkStage ua (Z.log2 d) d) /\ BH <= ua < B /\
    (is_pow2 d = true /\ ua = B - 1 \/
     exists e, ua * d = 2 ^ Z.log2 d * B + e /\ - d <= 2 * e <= d).
Proof.
  intros Hd. unfold slash_f_stage1m. destruct (Z.ltb_spec d 1); [lia|]. cbv zeta.
  pose proof (Z.log2_spec d ltac:(lia)) as [L1 L2]. pose proof (Z.log2_nonneg d) as L0.
  rewrite Z.pow_succ_r in L2 by done.
  destruct (is_pow2 d) eqn:P.
  { eexists. cbn [mbind outcome_bind]. split; [done|].
    change (U64 (-1)) with (B - 1). split; [unfold B, BH; lia|]. by left. }
  assert (Hne : d <> 2 ^ Z.log2 d) by (intros E; apply is_pow2_iff in E; [congruence | lia]).
  assert (W : wf_ud (mkUD (Z.shiftl 1 (Z.log2 d)) (Z.shiftr d 1))).
  { rewrite Z.shiftl_mul_pow2, Z.shiftr_div_pow2 by done. change (2 ^ 1) with 2.
    split; unfold is_ucell; cbn [ud_hi ud_lo]; unfold B, BH in *; [lia|].
    split; [apply Z.div_pos; lia | apply Z.div_lt_upper_bound; lia]. }
  rewrite umdiv_ok by (done || (unfold is_ucell, B, BH in *; lia)). unfold umdiv_spec.
  rewrite udval_div by done. unfold udval. cbn [ud_hi ud_lo].
  rewrite Z.shiftl_mul_pow2, Z.shiftr_div_pow2, Z.mul_1_l by done. change (2 ^ 1) with 2.
  destruct (Z.eqb_spec d 0); [lia|]. destruct (Z.leb_spec d (2 ^ Z.log2 d)); [lia|].
  cbn [mbind outcome_bind ud_hi ud_lo].
  set (K := 2 ^ Z.log2 d * B). set (ua := (K + d / 2) / d).
  pose proof (div_mod_eq (K + d / 2) d ltac:(lia)) as E. fold ua in E.
  pose proof (Z.mod_pos_bound (K + d / 2) d ltac:(lia)) as R.
  pose proof (div_mod_eq d 2 ltac:(done)) as E2. pose proof (Z.mod_pos_bound d 2 ltac:(done)) as R2.
  assert (HK : BH * d <= K <= (d - 1) * B) by (subst K; unfold B, BH; lia).
  exists ua. split; [done|]. split.
  - split; [apply Z.div_le_lower_bound; lia | apply Z.div_lt_upper_bound; unfold B, BH in *; lia].
  - right. exists (d / 2 - (K + d / 2) mod d). split; [lia|]. lia.
Qed.

(** ** The two stages together *)

Lemma pow2_stage n k :
  - BH <= n < BH -> 0 <= k -> (n * (B - 1) + (B - 1) / 2) / B / 2 ^ k = n / 2 ^ k.
Proof.
  intros Hn Hk. f_equal. symmetry. change ((B - 1) / 2) with (BH - 1).
  apply Z.div_unique with (BH - 1 - n); [left; unfold B, BH in *; lia | ring].
Qed.

(** Dividing with a precomputed reciprocal is unsigned division: for every
    divisor the stage-1 word accepts, [uslashstage2] returns [u/d]; divisors
    below two are rejected with a throw. *)
Theorem staged_unsigned_division umdiv `{!UmDiv umdiv} (u d : Z) :
  is_ucell u -> is_ucell d ->
  if d <? 2 then u_slash_stage1m umdiv d = Throw (-24)
  else exists s, u_slash_stage1m umdiv d = Ret s /\ uslashstage2 u s = u / d /\
                 U64 (u - uslashstage2 u s * divisor s) = u mod d.
Proof.
  intros Hu Hd. unfold is_ucell in *. destruct (Z.ltb_spec d 2) as [H2|H2].
  { unfold u_slash_stage1m. by destruct (Z.ltb_spec d 2); [|lia]. }
  destruct (u_slash_stage1m_val umdiv d ltac:(lia)) as (s & E & H1 & H3 & H4 & H5).
  exists s. split; [done|].
  assert (EQ : uslashstage2 u s = u / d)
    by (rewrite uslashstage2_val by done; apply ustage_correct; lia).
  rewrite EQ, H4. split; [done|]. replace (u - u / d * d) with (u mod d) by (pose proof (div_mod_eq u d); lia).
  apply U64_small.
  pose proof (Z.mod_pos_bound u d ltac:(lia)). unfold is_ucell. lia.
Qed.

Lemma staged_unsigned_division_witness :
  exists s, u_slash_stage1m umdiv_qrnnd 7 = Ret s /\ uslashstage2 (B - 1) s = (B - 1) / 7 /\
            U64 (B - 1 - uslashstage2 (B - 1) s * divisor s) = (B - 1) mod 7.
Proof.
  apply (staged_unsigned_division umdiv_qrnnd (B - 1) 7); split; vm_compute; congruence.
Defined.

(** C36: the signed staged division is floored division by every positive
    cell, powers of two (whose reciprocal is special-cased) included;
    non-positive divisors are rejected with a throw. *)
Theorem staged_floored_division umdiv `{!UmDiv umdiv} (n d : Z) :
  is_cell n -> is_cell d ->
  if d <? 1 then slash_f_stage1m umdiv d = Throw (-24)
  else exists s, slash_f_stage1m umdiv d = Ret s /\ slashfstage2 n s = n / d.
Proof.
  intros Hn Hd. unfold is_cell in *. destruct (Z.ltb_spec d 1) as [H1|H1].
  { unfold slash_f_stage1m. by destruct (Z.ltb_spec d 1); [|lia]. }
  destruct (slash_f_stage1m_val umdiv d ltac:(lia)) as (ua & E & Hua & Hc).
  exists (mkStage ua (Z.log2 d) d). split; [done|].
  pose proof (Z.log2_nonneg d). rewrite slashfstage2_val by done.
  destruct Hc as [[P ->]|(e & Ee & He)].
  - apply is_pow2_iff in P; [|lia]. rewrite pow2_stage by done. by rewrite P at 2.
  - assert (Hp : 0 < 2 ^ Z.log2 d) by (apply Z.pow_pos_nonneg; lia).
    pose proof (Z.log2_spec d ltac:(lia)) as [L1 L2]. rewrite Z.pow_succ_r in L2 by done.
    rewrite Z.div_div, (Z.mul_comm B) by (done || lia).
    apply fstage_correct with e; try done; [lia|].
    change B with (2 * BH). unfold BH; lia.
Qed.

Lemma staged_floored_division_witness :
  exists s, slash_f_stage1m umdiv_shift 10 = Ret s /\ slashfstage2 (- BH) s = - BH / 10.
Proof.
  apply (staged_floored_division umdiv_shift (- BH) 10); split; vm_compute; congruence.
Defined.
