(* ===== verification/IpRun.v ===== *)
(** * Running code with lazy instruction-pointer updates

    The engine that is built by default updates the instruction pointer only
    where a primitive needs it ([opt_ip_updates]), merges the updates of several
    primitives, and lets branches jump through the instruction pointer.  This
    file refines [CodeGen] for that configuration: it says what the code that
    [compile_prim_dyn] generates for a sequence of relocatable primitives
    executes, and with which instruction pointer each primitive is executed. *)
From S2P Require Import Prelude Memory Tpa Prims CheckPrims CodeGen.

Section IpRun.
Context (priminfos : Z -> PrimInfo) (super_costs : Z -> cost) (super2 : list Z).
Context (branches_to_ip : Z -> Z) (ip_update0 min_ip_update max_ip_update : Z).
Context (opt_ip_updates opt_ip_updates_branch : Z) (npriminfos : Z).
Context (goto_start goto_len nops : Z) (N_branch : Z) (ip_dead : list Z).
Context (code_area_size : Z) (gforth_alloc : nat -> Z).
Context (ginstps : Z -> Z) (target_at : Z -> Z) (vm_prims : Z -> Z).

Abbreviation ip_update_loop := (CodeGen.ip_update_loop priminfos ip_update0 min_ip_update max_ip_update).
Abbreviation append_ip_update1 := (CodeGen.append_ip_update1 priminfos ip_update0 min_ip_update max_ip_update opt_ip_updates).
Abbreviation append_ip_update := (CodeGen.append_ip_update priminfos ip_update0 min_ip_update max_ip_update
  opt_ip_updates ginstps).
Abbreviation append_jump := (CodeGen.append_jump priminfos ip_update0 min_ip_update max_ip_update
  opt_ip_updates goto_start goto_len nops ginstps).
Abbreviation reserve_code_space := (CodeGen.reserve_code_space priminfos ip_update0 min_ip_update max_ip_update
  opt_ip_updates goto_start goto_len nops code_area_size gforth_alloc ginstps).
Abbreviation append_with_ip := (CodeGen.append_with_ip priminfos super_costs ip_update0 min_ip_update max_ip_update
  opt_ip_updates ip_dead ginstps).
Abbreviation reachable_target := (CodeGen.reachable_target min_ip_update max_ip_update opt_ip_updates_branch).
Abbreviation append_optimized := (CodeGen.append_optimized priminfos super_costs super2 branches_to_ip ip_update0
  min_ip_update max_ip_update opt_ip_updates opt_ip_updates_branch N_branch ip_dead ginstps target_at).
Abbreviation append_prim := (CodeGen.append_prim priminfos super_costs super2 branches_to_ip ip_update0
  min_ip_update max_ip_update opt_ip_updates opt_ip_updates_branch goto_start goto_len nops N_branch ip_dead
  code_area_size gforth_alloc ginstps target_at).
Abbreviation compile_prim_dyn := (CodeGen.compile_prim_dyn priminfos super_costs super2 branches_to_ip
  ip_update0 min_ip_update max_ip_update opt_ip_updates opt_ip_updates_branch false npriminfos goto_start
  goto_len nops N_branch ip_dead code_area_size gforth_alloc ginstps target_at vm_prims).
Abbreviation compile_prims := (CodeGen.compile_prims priminfos super_costs super2 branches_to_ip
  ip_update0 min_ip_update max_ip_update opt_ip_updates opt_ip_updates_branch false npriminfos goto_start
  goto_len nops N_branch ip_dead code_area_size gforth_alloc ginstps target_at vm_prims).

Abbreviation len p := (Z.of_nat (c_length (c_info (super_costs p)))).
Definition body_length (q : Z) : Z := pi_length (priminfos q) - pi_len1 (priminfos q).
Definition has_imm (p : Z) : bool := imm_ops (super_costs p) + 1 >? len p.

(** The primitive reads the instruction pointer. *)
Definition needs_ip (p : Z) : bool :=
  has_imm p || (pi_superend (priminfos p) &&
    negb ((opt_ip_updates >? 1) && pi_superend (priminfos p) && negb (has_imm p) && bool_decide (p ∈ ip_dead))).

(** A plain branch. *)
Definition is_branch (p : Z) : bool :=
  (opt_ip_updates_branch >? 0) && (len p =? 1) && (nth (offset (super_costs p)) super2 0 =? N_branch).

(** ** What generated code does *)

Definition copy (m : memory) (a src n : Z) : Prop := forall j, 0 <= j < n -> m (a + j) = m (src + j).

(** Update code at [pc] is executed with the instruction pointer [ip]. *)
Inductive updates (m : memory) : Z -> Z -> Z -> Z -> Prop :=
| ud_done pc ip : updates m pc ip pc ip
| ud_step pc ip n pc' ip' :
    min_ip_update <= n <= max_ip_update ->
    let u := priminfos (ip_update0 + n) in
    copy m pc (pi_start u) (pi_len1 u) ->
    updates m (pc + pi_len1 u) (ip + n) pc' ip' -> updates m pc ip pc' ip'.

(** [q] is what instruction [i], compiled as [p], can be executed as when the
    instruction pointer is [ip]: [p] itself if it does not read the pointer, the
    version that makes up for the cells by which the pointer lags behind, or the
    version that jumps to the pointer if it holds the branch target. *)
Inductive version (i p : Z) : Z -> Z -> Prop :=
| vr_plain ip : needs_ip p = false -> version i p p ip
| vr_offset d ip : 0 <= d <= pi_max_ip_offset (priminfos p) -> ip + d = ginstps (i + len p) -> version i p (p + d) ip
| vr_to_ip ip : branches_to_ip p <> 0 -> ip = target_at (ginstps (i + len p - 1) + 1) -> version i p (branches_to_ip p) ip.

(** The code at [pc] executes the instructions; a plain branch at their end is
    only the update to its target. *)
Inductive executes (m : memory) : Z -> Z -> list (Z * Z) -> Z -> Z -> Prop :=
| ex_nil pc ip : executes m pc ip [] pc ip
| ex_prim pc ip i p ps pc1 ip1 q pc2 ip2 :
    updates m pc ip pc1 ip1 -> version i p q ip1 ->
    copy m pc1 (pi_start (priminfos q) + pi_len1 (priminfos q)) (body_length q) ->
    executes m (pc1 + body_length q) ip1 ps pc2 ip2 -> executes m pc ip ((i, p) :: ps) pc2 ip2
| ex_branch pc ip i p pc1 ip1 :
    updates m pc ip pc1 ip1 -> is_branch p = true -> ip1 = target_at (ginstps i + 1) ->
    executes m pc ip [(i, p)] pc1 ip1.

(** The code at [pc] leaves the dynamic code as [p] does. *)
Definition dispatches (m : memory) (pc p : Z) : Prop :=
  copy m pc (pi_start (priminfos p) + pi_length (priminfos p)) (pi_restlength (priminfos p)) /\
  copy m (pc + pi_restlength (priminfos p)) goto_start goto_len.

Lemma updates_trans m pc ip pc1 ip1 pc2 ip2 :
  updates m pc ip pc1 ip1 -> updates m pc1 ip1 pc2 ip2 -> updates m pc ip pc2 ip2.
Proof using. induction 1 as [|pc ip n pc' ip' Hn u Hc _ IH]; intros H; [done|]. eapply ud_step; eauto. Qed.

Lemma executes_app m pc ip ps1 pc1 ip1 ps2 pc2 ip2 :
  Forall (fun '(i, p) => is_branch p = false) ps1 ->
  executes m pc ip ps1 pc1 ip1 -> executes m pc1 ip1 ps2 pc2 ip2 -> executes m pc ip (ps1 ++ ps2) pc2 ip2.
Proof using.
  intros F H. induction H as [|pc ip i p ps pcx ipx q pcy ipy Hu Hv Hc _ IH|pc ip i p pcx ipx Hu Hb Hi]; intros R; [done| |].
  - apply Forall_cons_1 in F as [_ F]. cbn [app]. eapply ex_prim; [done|done|done|]. by apply IH.
  - apply Forall_cons_1 in F as [F _]. congruence.
Qed.

Lemma executes_updates m pc ip pc1 ip1 x ps pc2 ip2 :
  updates m pc ip pc1 ip1 -> executes m pc1 ip1 (x :: ps) pc2 ip2 -> executes m pc ip (x :: ps) pc2 ip2.
Proof using.
  intros U E. inversion E as [|? ? i p ? pcx ipx q ? ? UX V C R|? ? i p pcx ipx UX B T]; subst.
  - eapply ex_prim; [by eapply updates_trans|exact V|exact C|exact R].
  - apply ex_branch; [by eapply updates_trans|exact B|done].
Qed.

(** ** The environment *)

Record ip_env : Prop := {
  ip_opt : 0 < opt_ip_updates;
  ip_range : min_ip_update < 0 < max_ip_update;
  ip_lens : forall p, 0 <= pi_len1 (priminfos p) <= pi_length (priminfos p) /\ 0 <= pi_restlength (priminfos p);
  ip_goto : 0 <= goto_len;
  ip_offsets : forall p, 0 <= pi_max_ip_offset (priminfos p);
  ip_alloc : forall k, gforth_alloc k <> 0;
  ip_cells : forall i j, 0 <= i -> i < j -> ginstps i < ginstps j;
  ip_components : forall p, pi_superend (priminfos p) = true -> (1 <= c_length (c_info (super_costs p)))%nat;
  (** A plain branch ends straight-line code, a conditional one does not. *)
  ip_branch : forall p, is_branch p = true -> pi_superend (priminfos p) = true;
  ip_cond : forall p, branches_to_ip p <> 0 ->
    pi_superend (priminfos p) = false /\ pi_superend (priminfos (branches_to_ip p)) = false
}.

(** ** Steps of the generator *)

(** Code has been appended in the current block. *)
Record appended (st st' : gstate) : Prop := {
  ap_here : code_here st <= code_here st';
  ap_block : next_code_block st' = next_code_block st;
  ap_area : code_area st' = code_area st;
  ap_memory : forall x, x < code_here st \/ code_here st' <= x -> code_memory st' x = code_memory st x
}.

Lemma appended_refl st : appended st st.
Proof using. by constructor. Qed.

Lemma appended_trans st1 st2 st3 : appended st1 st2 -> appended st2 st3 -> appended st1 st3.
Proof using.
  intros [H1 B1 A1 M1] [H2 B2 A2 M2]. constructor; [lia|congruence|congruence|].
  intros x Hx. rewrite M2 by lia. apply M1. lia.
Qed.

(** Only registers differ. *)
Lemma appended_same st st' :
  code_here st' = code_here st -> next_code_block st' = next_code_block st -> code_area st' = code_area st ->
  code_memory st' = code_memory st -> appended st st'.
Proof using. intros E1 E2 E3 E4. constructor; [lia|done|done|]. intros x _. by rewrite E4. Qed.

Lemma append_code_appended src n st : 0 <= n -> appended st (append_code src n st).
Proof using.
  intros Hn. constructor; cbn [append_code set_here code_here next_code_block code_area code_memory]; [lia|done|done|].
  intros x Hx. unfold memmove_to. destruct (Z.leb_spec (code_here st) x); [|done].
  destruct (Z.ltb_spec x (code_here st + n)); [lia|done].
Qed.

Lemma align_code_appended st : appended st (align_code nops st).
Proof using.
  unfold align_code. set (l := CODE_ALIGNMENT - _). destruct (l <=? MAX_PADDING); [|apply appended_refl].
  apply append_code_appended. unfold l, CODE_ALIGNMENT. change (16 - 1) with (Z.ones 4). rewrite Z.land_ones by lia.
  pose proof (Z.mod_pos_bound (code_here st) (2 ^ 4)). lia.
Qed.

Section Final.
Context (EN : ip_env).
(** The memory in which the code is executed, and the area that is written from
    the beginning of the sequence to its end. *)
Context (m : memory) (lo hi : Z).
Context (TEXT : forall p j, 0 <= j < pi_length (priminfos p) + pi_restlength (priminfos p) ->
  pi_start (priminfos p) + j < lo \/ hi <= pi_start (priminfos p) + j).
Context (GOTO : forall j, 0 <= j < goto_len -> goto_start + j < lo \/ hi <= goto_start + j).

(** What has been generated up to [st] is still there in the end. *)
Record keeps (st : gstate) : Prop := {
  kp_range : lo <= code_here st <= hi;
  kp_memory : forall x, x < code_here st \/ hi <= x -> m x = code_memory st x
}.

Lemma keeps_before st st' : appended st st' -> lo <= code_here st -> keeps st' -> keeps st.
Proof using.
  intros [H _ _ M] Hlo [R K]. constructor; [lia|]. intros x Hx. rewrite <- M by lia. apply K. lia.
Qed.

Lemma keeps_same st st' : code_here st' = code_here st -> code_memory st' = code_memory st -> keeps st -> keeps st'.
Proof using. intros E1 E2 [R K]. constructor; rewrite ?E1, ?E2; done. Qed.

Lemma copy_appended src n st :
  0 <= n -> (forall j, 0 <= j < n -> src + j < lo \/ hi <= src + j) -> lo <= code_here st ->
  keeps (append_code src n st) -> copy m (code_here st) src n.
Proof using.
  intros Hn T Hlo K j Hj. pose proof (keeps_before _ _ (append_code_appended src n st Hn) Hlo K) as K0.
  rewrite (kp_memory _ K0 (src + j)) by (pose proof (kp_range _ K0); destruct (T j Hj); [left; lia|by right]).
  rewrite (kp_memory _ K) by (cbn [append_code set_here code_here]; lia).
  cbn [append_code set_here code_memory]. unfold memmove_to.
  rewrite (proj2 (Z.leb_le _ _)), (proj2 (Z.ltb_lt _ _)) by lia. cbn [andb]. f_equal. lia.
Qed.

(** Updates. *)
Lemma ip_update_loop_run fuel diff l u st st' d :
  l <= 0 <= u -> ip_update_loop fuel diff l u st = Some (st', d) ->
  appended st st' /\ last_jump st' = last_jump st /\ inst_index st' = inst_index st /\
  (lo <= code_here st -> keeps st' -> updates m (code_here st) (ip_at st) (code_here st') (ip_at st')).
Proof using EN TEXT.
  intros Hlu. pose proof (ip_range EN) as [Hmin Hmax]. revert diff st. induction fuel as [|fuel IH]; intros diff st; [done|].
  cbn [CodeGen.ip_update_loop]. set (d1 := if diff >? max_ip_update then _ else _).
  set (pi := priminfos (ip_update0 + d1)). set (st1 := set_ip_at _ _).
  destruct (ip_lens EN (ip_update0 + d1)) as [Hl Hr]. fold pi in Hl, Hr.
  assert (A1 : appended st st1).
  { eapply appended_trans; [apply (append_code_appended (pi_start pi) (pi_len1 pi)); lia|by apply appended_same]. }
  assert (Hd1 : min_ip_update <= d1 <= max_ip_update).
  { unfold d1. destruct (Z.gtb_spec diff max_ip_update); [lia|]. destruct (Z.ltb_spec diff min_ip_update); lia. }
  assert (Hrun : forall pc' ip', lo <= code_here st -> keeps st1 ->
    updates m (code_here st1) (ip_at st1) pc' ip' -> updates m (code_here st) (ip_at st) pc' ip').
  { intros pc' ip' Hlo K U. apply (ud_step m _ _ d1); [exact Hd1| |exact U]. fold pi.
    apply copy_appended; [lia| |done|by apply (keeps_same st1)].
    intros j Hj. apply (TEXT (ip_update0 + d1)). fold pi. lia. }
  assert (Hlo1 : lo <= code_here st -> lo <= code_here st1) by (pose proof (ap_here _ _ A1); lia).
  destruct (_ || _).
  - intros E. destruct (IH _ st1 E) as (A2 & J2 & I2 & U2). split; [by eapply appended_trans|]. split; [by rewrite J2|].
    split; [by rewrite I2|]. intros Hlo K. apply Hrun; [done|by apply (keeps_before _ st'); [|apply Hlo1|]|by apply U2; [apply Hlo1|]].
  - intros [= <- _]. split; [done|]. split; [done|]. split; [done|]. intros Hlo K. apply Hrun; [done|done|constructor].
Qed.

Lemma append_ip_update1_run target l u st :
  l <= 0 <= u -> exists st' d, append_ip_update1 target l u st = Some (st', d) /\ l <= d <= u /\
    ip_at st' + d = target /\ appended st st' /\ last_jump st' = last_jump st /\ inst_index st' = inst_index st /\
    (lo <= code_here st -> keeps st' -> updates m (code_here st) (ip_at st) (code_here st') (ip_at st')).
Proof using EN TEXT.
  intros Hlu. pose proof (ip_range EN) as [Hmin Hmax].
  destruct (append_ip_update1_ok priminfos ip_update0 min_ip_update max_ip_update opt_ip_updates target l u st
    (ip_opt EN) Hmax Hmin Hlu) as (st' & d & E & Hd & Ht & _).
  exists st', d. do 3 (split; [done|]). unfold CodeGen.append_ip_update1 in E. destruct (negb _); [done|].
  destruct ((_ <? l) || _).
  - by eapply ip_update_loop_run.
  - injection E as <- _. split; [apply appended_refl|]. do 2 (split; [done|]). intros _ _. constructor.
Qed.

Lemma append_ip_update_run n st :
  0 <= n -> exists st' d, append_ip_update n st = Some (st', d) /\ 0 <= d <= n /\
    ip_at st' + d = ginstps (inst_index st + 1) /\ appended st st' /\ last_jump st' = last_jump st /\
    inst_index st' = inst_index st /\
    (lo <= code_here st -> keeps st' -> updates m (code_here st) (ip_at st) (code_here st') (ip_at st')).
Proof using EN TEXT.
  intros Hn. unfold CodeGen.append_ip_update. rewrite (proj2 (Z.eqb_neq _ 0)) by (pose proof (ip_opt EN); lia).
  by apply append_ip_update1_run.
Qed.

(** Dispatch code; no update is needed where the pointer is exact. *)
Lemma append_jump_run st :
  (last_jump st <> 0 -> ip_at st > ginstps (inst_index st) \/ pi_superend (priminfos (last_jump st)) = false) ->
  exists st', append_jump st = Some st' /\ appended st st' /\ last_jump st' = 0 /\ inst_index st' = inst_index st /\
    (last_jump st <> 0 -> ip_at st = ginstps (inst_index st + 1) -> lo <= code_here st -> keeps st' ->
     dispatches m (code_here st) (last_jump st)).
Proof using EN TEXT GOTO.
  intros HA. unfold CodeGen.append_jump. destruct (Z.eqb_spec (last_jump st) 0) as [Hz|Hz].
  { exists st. split; [done|]. split; [apply appended_refl|done]. }
  set (q := last_jump st) in *. destruct (ip_lens EN q) as [Hl Hr]. pose proof (ip_goto EN) as Hg.
  replace (negb _) with false; swap 1 2.
  { symmetry. apply negb_false_iff, orb_true_iff. destruct (HA Hz) as [H| ->]; [left|by right]. by apply Z.gtb_lt; lia. }
  destruct (append_ip_update_run 0 st ltac:(lia)) as (st1 & d & E & Hd & Ht & A1 & J1 & I1 & U1).
  rewrite E. cbn [mbind option_bind fst]. set (pi := priminfos q) in *.
  set (st2 := append_code _ _ st1). set (st3 := append_code _ _ st2). set (st4 := align_code nops st3).
  assert (A2 : appended st1 st2) by (by apply append_code_appended).
  assert (A3 : appended st2 st3) by (by apply append_code_appended).
  assert (A4 : appended st3 st4) by apply align_code_appended.
  exists (set_last_jump 0 st4). split; [done|].
  split; [eapply appended_trans; [exact A1|]; eapply appended_trans; [exact A2|]; eapply appended_trans; [exact A3|];
    eapply appended_trans; [exact A4|by apply appended_same]|]. split; [done|].
  split; [change (inst_index st4 = inst_index st); unfold st4, align_code; by destruct (_ <=? _)|].
  intros _ Hip Hlo K. assert (E1 : st1 = st).
  { unfold CodeGen.append_ip_update, CodeGen.append_ip_update1 in E. rewrite Hip, Z.sub_diag in E.
    destruct (opt_ip_updates =? 0); [by injection E|]. destruct (negb _); [done|]. cbn in E. by injection E. }
  subst st1. assert (K4 : keeps st4) by (by apply (keeps_same (set_last_jump 0 st4))).
  pose proof (ap_here _ _ A2) as H2. pose proof (ap_here _ _ A3) as H3.
  assert (K3 : keeps st3) by (apply (keeps_before _ _ A4); [lia|done]).
  assert (K2 : keeps st2) by (apply (keeps_before _ _ A3); [lia|done]). split.
  - apply copy_appended; [done| |done|done]. intros j Hj. rewrite <- Z.add_assoc. apply (TEXT q). unfold pi in *. lia.
  - exact (copy_appended goto_start goto_len st2 Hg GOTO ltac:(lia) K3).
Qed.

(** No dispatch code is pending behind a primitive that has dispatched. *)
Definition jump_ok (st : gstate) : Prop := last_jump st <> 0 -> pi_superend (priminfos (last_jump st)) = false.

Lemma reserve_run size st :
  jump_ok st -> exists st', reserve_code_space size st = Some (st', false) /\ jump_ok st' /\
    inst_index st' = inst_index st /\ (next_code_block st <= next_code_block st')%nat /\
    (next_code_block st' = next_code_block st -> st' = st).
Proof using EN TEXT GOTO m.
  intros J. unfold CodeGen.reserve_code_space. destruct (_ <? _); [|by exists st].
  unfold append_jump_previous. set (st0 := set_inst_index (inst_index st - 1) st).
  destruct (append_jump_run st0) as (st1 & -> & A1 & J1 & I1 & _); [intros H; right; by apply J|].
  cbn [mbind option_bind]. set (st2 := flush_to_here _).
  assert (N2 : next_code_block st2 = next_code_block st) by apply (ap_block _ _ A1).
  assert (I2 : inst_index st2 = inst_index st).
  { change (inst_index st2) with (inst_index st1 + 1). rewrite I1. cbn [st0 set_inst_index inst_index]. lia. }
  assert (J2 : last_jump st2 = 0) by done.
  unfold next_block. destruct (code_block_list st2 !! next_code_block st2) as [[block bsize]|].
  - eexists. split; [done|]. unfold jump_ok. cbn [last_jump inst_index next_code_block]. rewrite J2, N2.
    split; [done|]. split; [done|]. split; lia.
  - rewrite (proj2 (Z.eqb_neq _ _) (ip_alloc EN _)). cbn [negb]. eexists. split; [done|].
    unfold jump_ok. cbn [last_jump inst_index next_code_block]. rewrite J2, N2. split; [done|]. split; [done|]. split; lia.
Qed.

(** The code of instruction [inst_index st] has been placed. *)
Record placed (p : Z) (st st' : gstate) : Prop := {
  pl_appended : appended st st';
  pl_exact : pi_superend (priminfos p) = true ->
    0 <= inst_index st' /\ ip_at st' = ginstps (inst_index st' + 1);
  pl_index : len p = 1 -> inst_index st' = inst_index st;
  pl_plain : needs_ip p = false -> pi_superend (priminfos p) = false -> branches_to_ip p = 0 -> ip_at st' = ip_at st;
  pl_run : lo <= code_here st -> keeps st' -> exists ip,
    executes m (code_here st) (ip_at st) [(inst_index st, p)] (code_here st') ip /\
    (pi_superend (priminfos p) = false -> ip = ip_at st')
}.

(** The body of the version [q] is appended behind the updates. *)
Lemma append_body p q st0 st1 st2 :
  appended st0 st1 -> (lo <= code_here st0 -> keeps st1 -> updates m (code_here st0) (ip_at st0) (code_here st1) (ip_at st1)) ->
  version (inst_index st0) p q (ip_at st1) ->
  st2 = append_code (pi_start (priminfos q) + pi_len1 (priminfos q)) (body_length q) st1 ->
  appended st0 st2 /\ (lo <= code_here st0 -> keeps st2 ->
    executes m (code_here st0) (ip_at st0) [(inst_index st0, p)] (code_here st2) (ip_at st1)).
Proof using EN TEXT.
  intros A1 U1 V ->. destruct (ip_lens EN q) as [Hl Hr].
  assert (Hb : 0 <= body_length q) by (unfold body_length; lia).
  pose proof (append_code_appended (pi_start (priminfos q) + pi_len1 (priminfos q)) (body_length q) st1 Hb) as A2.
  split; [by eapply appended_trans|]. intros Hlo K. pose proof (ap_here _ _ A1).
  assert (K1 : keeps st1) by (apply (keeps_before _ _ A2); [lia|done]).
  eapply ex_prim; [by apply U1|exact V| |constructor].
  apply copy_appended; [done| |lia|done]. intros j Hj. rewrite <- Z.add_assoc. apply (TEXT q). unfold body_length in *. lia.
Qed.

Lemma append_with_ip_run p st :
  0 <= inst_index st ->
  exists st' q, append_with_ip p (has_imm p) (pi_superend (priminfos p)) st = Some (st', q) /\ placed p st st'.
Proof using EN TEXT.
  intros Hi. unfold CodeGen.append_with_ip. set (dead := _ && _ && _ && _).
  assert (Hn : has_imm p || (pi_superend (priminfos p) && negb dead) = needs_ip p) by done.
  rewrite Hn. destruct (needs_ip p) eqn:N.
  - set (st0 := set_inst_index _ st).
    destruct (append_ip_update_run (pi_max_ip_offset (priminfos p)) st0 (ip_offsets EN p))
      as (st1 & d & -> & Hd & Ht & A1 & J1 & I1 & U1). cbn [mbind option_bind fst snd].
    assert (Hq : version (inst_index st) p (p + d) (ip_at st1)).
    { apply vr_offset; [done|]. rewrite Ht. cbn [st0 set_inst_index inst_index]. f_equal. lia. }
    set (st2 := if pi_superend (priminfos p) then _ else st1).
    assert (E2 : code_here st2 = code_here st1 /\ inst_index st2 = inst_index st1 /\ code_memory st2 = code_memory st1 /\
      next_code_block st2 = next_code_block st1 /\ code_area st2 = code_area st1)
      by (unfold st2; by destruct (pi_superend _)).
    destruct E2 as (EH & EI & EM & EB & EA). cbn [count_use append_code set_here ip_at inst_index].
    replace (negb _) with false; swap 1 2.
    { symmetry. apply negb_false_iff, orb_true_iff. rewrite EI. unfold st2.
      destruct (pi_superend (priminfos p)); [right; apply Z.eqb_refl|by left]. }
    eexists _, _. split; [done|].
    assert (A0 : appended st st1) by (eapply appended_trans; [|exact A1]; by apply appended_same).
    destruct (append_body p (p + d) st st1 _ A0 U1 Hq eq_refl) as [A3 R3].
    constructor.
    + eapply appended_trans; [exact A3|]. apply appended_same; cbn; try done. f_equal; congruence.
      rewrite EM, EH. done.
    + intros Hs. change (0 <= inst_index st2 /\ ip_at st2 = ginstps (inst_index st2 + 1)). rewrite EI, I1.
      pose proof (ip_components EN p Hs). cbn [st0 set_inst_index inst_index]. split; [lia|].
      unfold st2. rewrite Hs. cbn [set_ip_at ip_at]. by rewrite I1.
    + intros Hl. change (inst_index st2 = inst_index st). rewrite EI, I1. cbn [st0 set_inst_index inst_index]. lia.
    + congruence.
    + intros Hlo K. exists (ip_at st1). split.
      * change (code_here (count_use _ _)) with (code_here st2 + body_length (p + d)). rewrite EH.
        apply R3; [done|]. eapply keeps_same; [| |exact K]; cbn; by rewrite ?EH, ?EM.
      * intros Hs. change (ip_at st1 = ip_at st2). unfold st2. by rewrite Hs.
  - cbn [mbind option_bind]. set (st2 := if dead then _ else st).
    assert (E2 : code_here st2 = code_here st /\ inst_index st2 = inst_index st /\ code_memory st2 = code_memory st /\
      next_code_block st2 = next_code_block st /\ code_area st2 = code_area st)
      by (unfold st2; by destruct dead).
    destruct E2 as (EH & EI & EM & EB & EA). cbn [count_use append_code set_here ip_at inst_index].
    apply orb_false_iff in Hn as [_ Hd].
    assert (HS : pi_superend (priminfos p) = true -> ip_at st2 = ginstps (inst_index st2 + 1)).
    { intros Hs. rewrite Hs in Hd. cbn in Hd. apply negb_false_iff in Hd. unfold st2. by rewrite Hd. }
    assert (HD : pi_superend (priminfos p) = false -> ip_at st2 = ip_at st).
    { intros Hs. unfold st2. assert (dead = false) as -> by (unfold dead; by rewrite Hs, andb_false_r). done. }
    replace (negb _) with false; swap 1 2.
    { symmetry. apply negb_false_iff, orb_true_iff. destruct (pi_superend (priminfos p)); [right|by left]. by apply Z.eqb_eq, HS. }
    eexists _, _. split; [done|].
    destruct (append_body p p st st _ (appended_refl st) (fun _ _ => ud_done m _ _)
      (vr_plain (inst_index st) p (ip_at st) N) eq_refl) as [A3 R3].
    constructor.
    + eapply appended_trans; [exact A3|]. apply appended_same; cbn; try done; by rewrite ?EM, ?EH.
    + intros Hs. change (0 <= inst_index st2 /\ ip_at st2 = ginstps (inst_index st2 + 1)). split; [by rewrite EI|by apply HS].
    + intros _. exact EI.
    + intros _ Hs _. change (ip_at st2 = ip_at st). by apply HD.
    + intros Hlo K. exists (ip_at st). split.
      * change (code_here (count_use _ _)) with (code_here st2 + body_length p). rewrite EH.
        apply R3; [done|]. eapply keeps_same; [| |exact K]; cbn; by rewrite ?EH, ?EM.
      * intros Hs. symmetry. by apply HD.
Qed.

Lemma append_optimized_run p st :
  0 <= inst_index st ->
  exists st' q, append_optimized p st = Some (st', q) /\ placed p st st'.
Proof using EN TEXT.
  intros Hi. unfold CodeGen.append_optimized. fold (has_imm p). set (t1 := target_at _). set (t2 := target_at _).
  change ((opt_ip_updates_branch >? 0) && (len p =? 1) && (nth (offset (super_costs p)) super2 0 =? N_branch)) with (is_branch p).
  destruct (is_branch p && reachable_target st t1 opt_ip_updates_branch) eqn:B1.
  - apply andb_true_iff in B1 as [B1 _].
    destruct (append_ip_update1_run t1 0 0 st ltac:(lia)) as (st1 & d & -> & Hd & Ht & A1 & J1 & I1 & U1).
    cbn [mbind option_bind fst]. eexists _, _. split; [done|]. pose proof (ip_branch EN p B1) as Hs. constructor.
    + eapply appended_trans; [exact A1|by apply appended_same].
    + intros _. change (0 <= inst_index st1 /\ ginstps (inst_index st1 + 1) = ginstps (inst_index st1 + 1)). by rewrite I1.
    + intros _. exact I1.
    + congruence.
    + intros Hlo K. exists (ip_at st1). split; [|congruence].
      change (code_here (set_ip_at _ st1)) with (code_here st1). apply ex_branch; [|done|unfold t1 in *; lia].
      apply U1; [done|]. by eapply keeps_same; [| |exact K].
  - destruct ((opt_ip_updates_branch >? 0) && negb (branches_to_ip p =? 0) && _) eqn:B2; [|by apply append_with_ip_run].
    apply andb_true_iff in B2 as [B2 _]. apply andb_true_iff in B2 as [_ B2].
    apply negb_true_iff, Z.eqb_neq in B2. destruct (ip_cond EN p B2) as [C1 C2].
    destruct (append_ip_update1_run t2 0 0 st ltac:(lia)) as (st1 & d & -> & Hd & Ht & A1 & J1 & I1 & U1).
    cbn [mbind option_bind fst]. rewrite C1, C2. unfold CodeGen.append_with_ip. cbn [Bool.eqb negb orb andb].
    rewrite andb_false_r. cbn [andb orb mbind option_bind]. eexists _, _. split; [done|].
    assert (V : version (inst_index st) p (branches_to_ip p) (ip_at st1)) by (apply vr_to_ip; [done|]; unfold t2 in *; lia).
    destruct (append_body p _ st st1 _ A1 U1 V eq_refl) as [A3 R3].
    constructor.
    + eapply appended_trans; [exact A3|by apply appended_same].
    + intros Hs. congruence.
    + intros _. exact I1.
    + congruence.
    + intros Hlo K. exists (ip_at st1). split; [|done].
      change (code_here (count_use _ _)) with (code_here st1 + body_length (branches_to_ip p)).
      apply R3; [done|]. by eapply keeps_same; [| |exact K].
Qed.

(** The whole of [compile_prim_dyn] for a relocatable primitive. *)
Lemma compile_prim_dyn_run p st :
  0 < p < npriminfos -> is_relocatable priminfos false p = true -> 0 <= inst_index st -> jump_ok st ->
  exists st' a, compile_prim_dyn p st = Some (st', a) /\ jump_ok st' /\
    (next_code_block st <= next_code_block st')%nat /\ (len p = 1 -> inst_index st' = inst_index st) /\
    (next_code_block st' = next_code_block st -> a = code_here st /\ appended st st' /\
      (needs_ip p = false -> pi_superend (priminfos p) = false -> branches_to_ip p = 0 -> ip_at st' = ip_at st) /\
      (lo <= code_here st -> keeps st' -> exists pc ip,
         executes m (code_here st) (ip_at st) [(inst_index st, p)] pc ip /\
         if pi_superend (priminfos p) then dispatches m pc p else pc = code_here st' /\ ip = ip_at st')).
Proof using EN TEXT GOTO m.
  intros Hp Hr Hi J. unfold CodeGen.compile_prim_dyn. rewrite Hr, Z.geb_leb, (proj2 (Z.leb_gt _ _)) by lia.
  cbn [negb orb]. unfold CodeGen.append_prim. set (size := _ + _ - 1).
  destruct (reserve_run size st J) as (st0 & -> & J0 & I0 & N0 & E0). cbn [mbind option_bind].
  rewrite (proj2 (Z.gtb_lt _ _) (ip_opt EN)).
  destruct (append_optimized_run p st0) as (st1 & q & -> & [A1 X1 L1 P1 R1]); [by rewrite I0|]. cbn [mbind option_bind fst snd].
  set (st2 := set_last_jump p _). assert (A2 : appended st1 st2) by (by apply appended_same).
  assert (N2 : next_code_block st2 = next_code_block st0) by apply (ap_block _ _ A1).
  destruct (pi_superend (priminfos p)) eqn:Hs.
  - destruct (X1 eq_refl) as [Hi1 Hip1].
    destruct (append_jump_run st2) as (st3 & -> & A3 & J3 & I3 & D3).
    { intros _. left. change (ip_at st1 > ginstps (inst_index st1)). rewrite Hip1.
      pose proof (ip_cells EN (inst_index st1) (inst_index st1 + 1) ltac:(lia) ltac:(lia)). lia. }
    cbn [mbind option_bind]. eexists _, _. split; [done|]. unfold jump_ok. rewrite J3, (ap_block _ _ A3), N2.
    split; [done|]. split; [done|].
    split; [intros Hl; rewrite I3; change (inst_index st1 = inst_index st); by rewrite L1|].
    intros HN. rewrite (E0 HN) in *. split; [done|].
    assert (A12 : appended st st2) by (by eapply appended_trans).
    split; [by eapply appended_trans|]. split; [done|]. intros Hlo K. pose proof (ap_here _ _ A12).
    assert (K2 : keeps st2) by (apply (keeps_before _ _ A3); [lia|done]).
    destruct (R1 Hlo) as (ip & RE & _); [by apply (keeps_same st2)|]. exists (code_here st1), ip. split; [done|].
    apply D3; [|exact Hip1|change (lo <= code_here st1); pose proof (ap_here _ _ A1); lia|done].
    change (p <> 0). lia.
  - cbn [mbind option_bind]. eexists _, _. split; [done|]. rewrite N2. split; [intros _; exact Hs|]. split; [done|].
    split; [intros Hl; change (inst_index st1 = inst_index st); by rewrite L1|].
    intros HN. rewrite (E0 HN) in *. split; [done|]. split; [by eapply appended_trans|].
    split; [intros Hn _ Hb; change (ip_at st1 = ip_at st); by apply P1|]. intros Hlo K.
    destruct (R1 Hlo) as (ip & RE & Hip); [by apply (keeps_same st2)|]. exists (code_here st1), ip.
    split; [done|]. split; [done|by apply Hip].
Qed.
End Final.

(** ** Sequences *)

(** The code of all primitives lies outside an area that is written. *)
Record clear (lo hi : Z) : Prop := {
  cl_text : forall p j, 0 <= j < pi_length (priminfos p) + pi_restlength (priminfos p) ->
    pi_start (priminfos p) + j < lo \/ hi <= pi_start (priminfos p) + j;
  cl_goto : forall j, 0 <= j < goto_len -> goto_start + j < lo \/ hi <= goto_start + j
}.

Lemma clear_mono lo lo' hi : lo <= lo' -> clear lo hi -> clear lo' hi.
Proof using.
  intros Hl [T G]. constructor; [intros p j Hj; destruct (T p j Hj)|intros j Hj; destruct (G j Hj)]; lia.
Qed.

(** [m] is a later memory: what is generated up to [st] is unchanged. *)
Record later (st : gstate) (hi : Z) (m : memory) : Prop := {
  lt_range : code_here st <= hi;
  lt_memory : forall x, x < code_here st \/ hi <= x -> m x = code_memory st x
}.

Lemma later_before st st' hi m : appended st st' -> later st' hi m -> later st hi m.
Proof using.
  intros [H _ _ M] [R K]. constructor; [lia|]. intros x Hx. rewrite <- M by lia. apply K. lia.
Qed.

(** Behind the code of [ps]: dispatch code if the last primitive ends
    straight-line code, else, perhaps after updates, where generation goes on. *)
Definition ends_line (ps : list (Z * Z)) : bool :=
  match list.last ps with Some (_, p) => pi_superend (priminfos p) | None => false end.
Definition finishes (m : memory) (ps : list (Z * Z)) (pc ip : Z) (st : gstate) : Prop :=
  match list.last ps with
  | Some (_, p) => if pi_superend (priminfos p) then dispatches m pc p else updates m pc ip (code_here st) (ip_at st)
  | None => updates m pc ip (code_here st) (ip_at st)
  end.

(** From [st] to [st'] the code of [ps] is generated, if no other code block is
    begun. *)
Record generates (ps : list (Z * Z)) (st st' : gstate) : Prop := {
  gr_jump : jump_ok st';
  gr_block : (next_code_block st <= next_code_block st')%nat;
  gr_same : next_code_block st' = next_code_block st -> appended st st' /\
    forall m hi, clear (code_here st) hi -> later st' hi m -> exists pc ip,
      executes m (code_here st) (ip_at st) ps pc ip /\ finishes m ps pc ip st'
}.

Lemma generates_nil st st' :
  jump_ok st' -> next_code_block st' = next_code_block st -> code_area st' = code_area st ->
  code_here st' = code_here st -> code_memory st' = code_memory st -> ip_at st' = ip_at st -> generates [] st st'.
Proof using.
  intros J N A H M I. constructor; [done|lia|]. intros _. split; [by apply appended_same|].
  intros m hi _ _. exists (code_here st), (ip_at st). split; [constructor|]. unfold finishes. cbn. rewrite H, I. constructor.
Qed.

(** Registers that do not matter for what is generated. *)
Lemma generates_from ps st0 st st' :
  next_code_block st0 = next_code_block st -> code_area st0 = code_area st -> code_here st0 = code_here st ->
  code_memory st0 = code_memory st -> ip_at st0 = ip_at st -> generates ps st st' -> generates ps st0 st'.
Proof using.
  intros N A H M I [J B S]. rewrite <- N in B, S. constructor; [done|done|]. intros HN. destruct (S HN) as [AP R].
  split; [eapply appended_trans; [|exact AP]; by apply appended_same|]. by rewrite H, I.
Qed.

Lemma generates_to ps st st1 st' :
  jump_ok st' -> next_code_block st' = next_code_block st1 -> code_area st' = code_area st1 ->
  code_here st' = code_here st1 -> code_memory st' = code_memory st1 -> ip_at st' = ip_at st1 ->
  generates ps st st1 -> generates ps st st'.
Proof using.
  intros J' N A H M I [J B S]. rewrite <- N in B, S. constructor; [done|done|]. intros HN. destruct (S HN) as [AP R].
  split; [eapply appended_trans; [exact AP|]; by apply appended_same|]. intros m hi HC [L1 L2].
  rewrite H in L1, L2. rewrite M in L2. destruct (R m hi HC (Build_later st1 hi m L1 L2)) as (pc & ip & E & F).
  exists pc, ip. split; [done|]. unfold finishes in *. by rewrite H, I.
Qed.

Context (EN : ip_env).

Lemma generates_app ps1 ps2 st st1 st' :
  Forall (fun '(i, p) => pi_superend (priminfos p) = false) ps1 ->
  generates ps1 st st1 -> generates ps2 st1 st' -> generates (ps1 ++ ps2) st st'.
Proof using EN.
  intros F [J1 B1 S1] [J2 B2 S2]. constructor; [done|lia|]. intros HN.
  destruct (S1 ltac:(lia)) as [A1 R1]. destruct (S2 ltac:(lia)) as [A2 R2]. split; [by eapply appended_trans|].
  intros m hi HC HL. destruct (R1 m hi HC) as (pc1 & ip1 & E1 & F1); [by eapply later_before|].
  assert (HE : forall i p, list.last ps1 = Some (i, p) -> pi_superend (priminfos p) = false).
  { intros i p HP. apply last_Some_elem_of in HP. rewrite Forall_forall in F. by apply (F (i, p)), list_elem_of_In. }
  assert (U1 : updates m pc1 ip1 (code_here st1) (ip_at st1)).
  { unfold finishes in F1. destruct (list.last ps1) as [[i p]|] eqn:L; [|exact F1]. by rewrite (HE i p eq_refl) in F1. }
  destruct (R2 m hi) as (pc & ip & E2 & F2); [|done|].
  { eapply clear_mono; [|exact HC]. apply (ap_here _ _ A1). }
  assert (NB : Forall (fun '(i, p) => is_branch p = false) ps1).
  { eapply Forall_impl; [|exact F]. intros [i p] Hs. destruct (is_branch p) eqn:B; [|done]. by rewrite (ip_branch EN p B) in Hs. }
  destruct ps2 as [|x ps2].
  - inversion E2; subst. rewrite app_nil_r. exists pc1, ip1. split; [done|]. unfold finishes in F2 |- *. cbn in F2.
    pose proof (updates_trans _ _ _ _ _ _ _ U1 F2) as U. destruct (list.last ps1) as [[i p]|] eqn:L; [|exact U].
    by rewrite (HE i p eq_refl).
  - exists pc, ip. split.
    + apply (executes_app m _ _ _ pc1 ip1); [exact NB|exact E1|]. by eapply executes_updates.
    + unfold finishes in *. by rewrite last_app_cons.
Qed.

(** The final update of a block. *)
Lemma generates_update ps st st1 n :
  0 <= n -> generates ps st st1 -> ends_line ps = false ->
  exists st' d, append_ip_update n st1 = Some (st', d) /\ generates ps st st' /\ 0 <= d <= n /\
    ip_at st' + d = ginstps (inst_index st1 + 1) /\ inst_index st' = inst_index st1 /\
    next_code_block st' = next_code_block st1 /\ code_area st' = code_area st1 /\ appended st1 st'.
Proof using EN.
  intros Hn [J B S] HE.
  destruct (append_ip_update_run EN (fun x => x) 0 0 ltac:(lia) n st1 Hn) as (st' & d & E & Hd & Hi & A & HJ & HX & _).
  exists st', d. split; [exact E|]. pose proof (ap_block _ _ A) as HB. split; [|by split; [|split; [|split; [|split; [|split; [apply A|]]]]]].
  constructor; [unfold jump_ok in *; by rewrite HJ|lia|]. intros HN. destruct (S ltac:(lia)) as [A1 R1].
  split; [by eapply appended_trans|]. intros m hi HC HL.
  destruct (R1 m hi HC) as (pc & ip & X & F); [by eapply later_before|]. exists pc, ip. split; [exact X|].
  assert (F' : updates m pc ip (code_here st1) (ip_at st1)).
  { unfold finishes, ends_line in *. destruct (list.last ps) as [[i p]|]; [|exact F]. by rewrite HE in F. }
  assert (U : updates m (code_here st1) (ip_at st1) (code_here st') (ip_at st')).
  { assert (HC1 : clear (code_here st1) hi) by (eapply clear_mono; [apply (ap_here _ _ A1)|exact HC]).
    destruct (append_ip_update_run EN m (code_here st1) hi (cl_text _ _ HC1) n st1 Hn) as (st2 & d2 & E2 & _ & _ & _ & _ & _ & U).
    rewrite E in E2. injection E2 as <- <-. apply U; [lia|]. pose proof (ap_here _ _ A).
    constructor; [pose proof (lt_range _ _ _ HL); lia|by apply (lt_memory _ _ _ HL)]. }
  unfold finishes, ends_line in *. destruct (list.last ps) as [[i p]|]; [rewrite HE|]; by eapply updates_trans.
Qed.

(** Code behind a primitive that ends straight-line code is not reached from it. *)
Lemma generates_behind ps qs st st1 st' :
  ends_line ps = true -> generates ps st st1 -> generates qs st1 st' -> generates ps st st'.
Proof using.
  unfold ends_line. intros HE [J1 B1 S1] [J2 B2 S2]. constructor; [done|lia|]. intros HN.
  destruct (S1 ltac:(lia)) as [A1 R1]. destruct (S2 ltac:(lia)) as [A2 _]. split; [by eapply appended_trans|].
  intros m hi HC Hm. destruct (R1 m hi HC) as (pc & ip & E & F); [by eapply later_before|].
  exists pc, ip. split; [done|]. unfold finishes in *. destruct (list.last ps) as [[i p]|]; [|done]. by rewrite HE in *.
Qed.

(** Updates in front of a sequence. *)
Lemma generates_then ps st st1 st' : generates [] st st1 -> generates ps st1 st' -> generates ps st st'.
Proof using.
  intros [J1 B1 S1] [J2 B2 S2]. constructor; [done|lia|]. intros HN.
  destruct (S1 ltac:(lia)) as [A1 R1]. destruct (S2 ltac:(lia)) as [A2 R2]. split; [by eapply appended_trans|].
  intros m hi HC Hm. destruct (R1 m hi HC) as (pc1 & ip1 & E1 & F1); [by eapply later_before|].
  destruct (R2 m hi) as (pc & ip & E2 & F2); [|done|].
  { eapply clear_mono; [|exact HC]. apply (ap_here _ _ A1). }
  inversion E1; subst. unfold finishes in F1. cbn in F1. destruct ps as [|x ps].
  - inversion E2; subst. eexists _, _. split; [constructor|]. unfold finishes in *. cbn in *. by eapply updates_trans.
  - exists pc, ip. split; [by eapply executes_updates|exact F2].
Qed.

(** Compiling one primitive. *)
Record compiled_one (p : Z) (st st' : gstate) (a : Z) : Prop := {
  co_generates : generates [(inst_index st, p)] st st';
  co_index : len p = 1 -> inst_index st' = inst_index st;
  co_start : next_code_block st' = next_code_block st -> a = code_here st;
  co_plain : next_code_block st' = next_code_block st -> needs_ip p = false -> pi_superend (priminfos p) = false ->
    branches_to_ip p = 0 -> ip_at st' = ip_at st
}.

Lemma compile_prim_dyn_one p st :
  0 < p < npriminfos -> is_relocatable priminfos false p = true -> 0 <= inst_index st -> jump_ok st ->
  exists st' a, compile_prim_dyn p st = Some (st', a) /\ compiled_one p st st' a.
Proof using EN.
  intros Hp Hr Hi J.
  destruct (compile_prim_dyn_run EN (fun x => x) 0 0 ltac:(lia) ltac:(lia) p st Hp Hr Hi J)
    as (st' & a & E & J' & N' & I' & H). exists st', a. split; [exact E|].
  constructor; [constructor; [exact J'|exact N'|]|exact I'|by intros (? & _)%H|by intros (_ & _ & P & _)%H].
  intros HN. destruct (H HN) as (_ & A & _). split; [exact A|]. intros m hi [T G] [L1 L2].
  destruct (compile_prim_dyn_run EN m (code_here st) hi T G p st Hp Hr Hi J) as (st2 & a2 & E2 & _ & _ & _ & H2).
  rewrite E in E2. injection E2 as <- <-. destruct (H2 HN) as (_ & _ & _ & R).
  destruct R as (pc & ip & X & Y); [lia|pose proof (ap_here _ _ A); by constructor; [lia|]|].
  exists pc, ip. split; [exact X|]. unfold finishes. cbn. destruct (pi_superend _); [exact Y|].
  destruct Y as [-> ->]. constructor.
Qed.

(** A sequence of primitives of which only the last may end straight-line code. *)
Lemma compile_prims_run ps i p st :
  (forall j q, (j, q) ∈ ps ++ [(i, p)] -> 0 <= j /\ 0 < q < npriminfos /\ is_relocatable priminfos false q = true) ->
  (forall j q, (j, q) ∈ ps -> pi_superend (priminfos q) = false) -> jump_ok st ->
  exists st' tcs, compile_prims (ps ++ [(i, p)]) st = Some (st', tcs) /\ generates (ps ++ [(i, p)]) st st'.
Proof using EN.
  revert st. induction ps as [|[j q] ps IH]; intros st HP HS J; cbn [app CodeGen.compile_prims].
  - destruct (HP i p ltac:(left)) as (Hi & Hp & Hr).
    destruct (compile_prim_dyn_one p (set_inst_index i st) Hp Hr Hi J) as (st' & a & -> & [G _ _ _]).
    cbn [mbind option_bind fst snd]. eexists _, _. split; [done|]. by apply (generates_from _ _ (set_inst_index i st)).
  - destruct (HP j q ltac:(left)) as (Hj & Hq & Hr). pose proof (HS j q ltac:(left)) as Hs.
    destruct (compile_prim_dyn_one q (set_inst_index j st) Hq Hr Hj J) as (st1 & a & -> & [G1 _ _ _]).
    cbn [mbind option_bind fst snd].
    destruct (IH st1) as (st2 & tcs & -> & G2); [intros k r H; apply HP; by right|intros k r H; apply (HS k); by right|by apply G1|].
    cbn [mbind option_bind fst snd]. eexists _, _. split; [done|].
    apply (generates_app [(j, q)] _ _ st1); [by constructor| |done]. by apply (generates_from _ _ (set_inst_index j st)).
Qed.
End IpRun.

(** ** Properties *)

(** With ip-update optimisation, every primitive is executed with the right
    instruction pointer.  Compiling a sequence of relocatable primitives, of
    which only the last may end straight-line code, fails no assertion; unless
    it needs another code block, executing the code, also after later
    compilation, executes exactly these primitives, each as a version that fits
    the cells by which the pointer lags behind the end of the instruction (or as
    itself if it does not read the pointer), conditional branches with the
    branch target in the pointer, a plain branch as the update to its target;
    and it continues with dispatch code, or where code generation goes on, with
    the pointer that [ip_at] says then. *)
Theorem lazy_ip_exact (priminfos : Z -> PrimInfo) (super_costs : Z -> cost) (super2 : list Z)
    (branches_to_ip : Z -> Z) (ip_update0 min_ip_update max_ip_update opt_ip_updates opt_ip_updates_branch : Z)
    (npriminfos goto_start goto_len nops N_branch : Z) (ip_dead : list Z) (code_area_size : Z)
    (gforth_alloc : nat -> Z) (ginstps target_at vm_prims : Z -> Z)
    (ps : list (Z * Z)) (i p : Z) (st : gstate) :
  let reloc := is_relocatable priminfos false in
  let runs m := executes priminfos super_costs super2 branches_to_ip ip_update0 min_ip_update max_ip_update opt_ip_updates
    opt_ip_updates_branch N_branch ip_dead ginstps target_at m in
  ip_env priminfos super_costs super2 branches_to_ip min_ip_update max_ip_update opt_ip_updates opt_ip_updates_branch
    goto_len N_branch gforth_alloc ginstps ->
  (forall j q, (j, q) ∈ ps ++ [(i, p)] -> 0 <= j /\ 0 < q < npriminfos /\ reloc q = true) ->
  (forall j q, (j, q) ∈ ps -> pi_superend (priminfos q) = false) -> jump_ok priminfos st ->
  exists st' tcs,
    compile_prims priminfos super_costs super2 branches_to_ip ip_update0 min_ip_update max_ip_update opt_ip_updates
      opt_ip_updates_branch false npriminfos goto_start goto_len nops N_branch ip_dead code_area_size gforth_alloc
      ginstps target_at vm_prims (ps ++ [(i, p)]) st = Some (st', tcs) /\
    (next_code_block st' = next_code_block st ->
     forall m hi, clear priminfos goto_start goto_len (code_here st) hi -> later st' hi m ->
       exists pc ip, runs m (code_here st) (ip_at st) (ps ++ [(i, p)]) pc ip /\
         if pi_superend (priminfos p) then dispatches priminfos goto_start goto_len m pc p
         else updates priminfos ip_update0 min_ip_update max_ip_update m pc ip (code_here st') (ip_at st')).
Proof.
  intros reloc runs EN HP HS J.
  destruct (compile_prims_run priminfos super_costs super2 branches_to_ip ip_update0 min_ip_update
    max_ip_update opt_ip_updates opt_ip_updates_branch npriminfos goto_start goto_len nops N_branch ip_dead
    code_area_size gforth_alloc ginstps target_at vm_prims EN ps i p st HP HS J) as (st' & tcs & E & [_ _ H]).
  exists st', tcs. split; [exact E|]. intros HN m hi HC HL. destruct (H HN) as [_ R].
  destruct (R m hi HC HL) as (pc & ip & X & Y). exists pc, ip. split; [exact X|].
  unfold finishes in Y. by rewrite last_snoc in Y.
Qed.

(** *** A loop body: instruction 1 twice, 2 with an operand, and 9, the branch back
    to the second instruction; 3 to 6 are the versions of 2 for pointers that
    lag 1 to 4 cells behind. *)
Definition demo_ip_prim (p : Z) : PrimInfo :=
  mkPrimInfo (1000 + 16 * (p mod 64)) 4 10 2 (p =? 9) (if p =? 2 then 4 else 0) 0 [].
Definition demo_ip_cost (p : Z) : cost :=
  mkSuperCost 0 0 0 (mkCost 0 0 1) (if (p =? 2) || (p =? 9) then 1 else 0) (if (2 <=? p) && (p <=? 6) then p - 2 else 0)
    (if p =? 9 then 1%nat else 0%nat) false.
Definition demo_ip_cells (i : Z) : Z := if i <=? 2 then i else 2 * i - 2.
Definition demo_ip_alloc (k : nat) : Z := 4096 + 512 * Z.of_nat k.
Definition demo_ip_state : gstate := mkG 4096 4096 4096 0 0 0 [(4096, 512)] 1 1 (fun _ => 0) [] (fun x => x).
Definition demo_ip_code : list (Z * Z) := [(0, 1); (1, 1); (2, 2); (3, 9)].
Abbreviation demo_ip_compile := (compile_prims demo_ip_prim demo_ip_cost [0; 7] (fun _ => 0) 50 (-20) 20 7 3 false 70
  3000 3 3100 7 [] 512 demo_ip_alloc demo_ip_cells (fun _ => 1) (fun p => p)).

Lemma demo_ip_env : ip_env demo_ip_prim demo_ip_cost [0; 7] (fun _ => 0) (-20) 20 7 3 3 7 demo_ip_alloc demo_ip_cells.
Proof.
  constructor; try lia.
  - intros p. cbn. lia.
  - intros p. cbn. destruct (p =? 2); lia.
  - intros k. unfold demo_ip_alloc. lia.
  - intros i j Hi Hj. unfold demo_ip_cells. destruct (Z.leb_spec i 2), (Z.leb_spec j 2); lia.
  - intros p _. cbn. lia.
  - intros p. unfold is_branch. cbn. by destruct (p =? 9).
Qed.

Lemma demo_ip_run :
  (fun r => (next_code_block (fst r), code_here (fst r), snd r)) <$> demo_ip_compile demo_ip_code demo_ip_state =
  Some (1%nat, 4123, [4096; 4102; 4108; 4114]).
Proof. vm_compute. reflexivity. Qed.

Lemma lazy_ip_exact_witness :
  exists st' tcs pc ip,
    demo_ip_compile demo_ip_code demo_ip_state = Some (st', tcs) /\ tcs = [4096; 4102; 4108; 4114] /\
    executes demo_ip_prim demo_ip_cost [0; 7] (fun _ => 0) 50 (-20) 20 7 3 7 [] demo_ip_cells (fun _ => 1)
      (code_memory st') 4096 0 demo_ip_code pc ip /\
    dispatches demo_ip_prim 3000 3 (code_memory st') pc 9.
Proof.
  destruct (lazy_ip_exact demo_ip_prim demo_ip_cost [0; 7] (fun _ => 0) 50 (-20) 20 7 3 70 3000 3 3100 7 [] 512
    demo_ip_alloc demo_ip_cells (fun _ => 1) (fun p => p) [(0, 1); (1, 1); (2, 2)] 3 9 demo_ip_state demo_ip_env)
    as (st' & tcs & E & R).
  - intros j q H. cbn [app] in H. repeat (apply elem_of_cons in H as [[= -> ->]|H]; [split; [lia|]; split; [lia|reflexivity]|]).
    by apply not_elem_of_nil in H.
  - intros j q H. repeat (apply elem_of_cons in H as [[= -> ->]|H]; [reflexivity|]). by apply not_elem_of_nil in H.
  - intros H. by destruct H.
  - cbn [app] in E, R. pose proof demo_ip_run as D. unfold demo_ip_code in D. rewrite E in D.
    injection D as D1 D2 D3. destruct (R D1 (code_memory st') 4123) as (pc & ip & X & Y).
    + constructor.
      * intros q j Hj. left. cbn in Hj |- *. pose proof (Z.mod_pos_bound q 64). lia.
      * intros j Hj. left. cbn. lia.
    + constructor; [by rewrite D2|done].
    + exists st', tcs, pc, ip. split; [exact E|]. split; [exact D3|]. split; [exact X|exact Y].
Defined.

(** *** More code than was reserved

    Three conditional branches in a row (instruction 8, compiled as its version
    10, which branches through the ip), each 60 cells further back than the
    one before, leave the pointer 180 cells behind.  The instruction with an
    operand that follows needs ten updates; [append_prim] has reserved space
    for the instruction only, and the code runs over the end of the code area. *)
Definition demo_far_prim (p : Z) : PrimInfo := mkPrimInfo (1000 + 16 * (p mod 64)) 4 10 2 false 0 0 [].
Definition demo_far_cost (p : Z) : cost :=
  mkSuperCost 0 0 0 (mkCost 0 0 1) (if (p =? 2) || (p =? 8) then 1 else 0) 0 0%nat false.
Definition demo_far_state : gstate :=
  mkG 4096 (4608 - 30 - 54) 4096 0 1000 0 [(4096, 512)] 1 1 (fun _ => 0) [] (fun x => x).
Definition demo_far_target (cell : Z) : Z := 1000 - 60 * ((cell - 999) / 2).

Lemma updates_outgrow_reservation :
  (fun r => (next_code_block (fst r), code_area (fst r) + 512, code_here (fst r))) <$>
    compile_prims demo_far_prim demo_far_cost [0; 0] (fun p => if p =? 8 then 10 else 0) 50 (-20) 20 7 3 false 70
      3000 3 3100 7 [] 512 demo_ip_alloc (fun i => 1000 + 2 * i) demo_far_target (fun p => p)
      [(0, 8); (1, 8); (2, 8); (3, 2)] demo_far_state =
  Some (1%nat, 4608, 4624).
Proof. vm_compute. reflexivity. Qed.
