(* ===== verification/IpBlock.v ===== *)
(** * Basic blocks with lazy instruction-pointer updates

    Composes [IpRun] with the selection of a cover ([Labels]) and the loop of
    [optimize_rewrite] ([Rewrite]) for the configuration of the engine that is
    built by default, with relocatable primitives: the code of a block executes
    the primitives of an optimal cover, each with the instruction pointer that it
    needs, and the pointer is exact behind the block. *)
From S2P Require Import Prelude Memory Tpa Labels Prims Supers CheckPrims CodeGen Layout DynInfo Rewrite IpRun.

Section IpBlock.
Context (priminfos : Z -> PrimInfo) (super_costs : Z -> cost) (super2 : list Z).
Context (branches_to_ip : Z -> Z) (ip_update0 min_ip_update max_ip_update : Z).
Context (opt_ip_updates opt_ip_updates_branch : Z) (npriminfos : Z).
Context (goto_start goto_len nops : Z) (N_branch : Z) (ip_dead : list Z).
Context (code_area_size : Z) (gforth_alloc : nat -> Z).
Context (ginstps : Z -> Z) (target_at : Z -> Z) (vm_prims : Z -> Z).
Context (maxstates max_super : nat) (ss_cost : Z -> Z).
Context (state_transitions : list Z) (lookup_super : list Z -> option (list Z)).

Abbreviation info := (Rewrite.info super_costs).
Abbreviation cell := (Rewrite.cell ginstps).
Abbreviation reloc := (is_relocatable priminfos false).
Abbreviation env := (ip_env priminfos super_costs super2 branches_to_ip min_ip_update max_ip_update opt_ip_updates
  opt_ip_updates_branch goto_len N_branch gforth_alloc ginstps).
Abbreviation needs_ip := (IpRun.needs_ip priminfos super_costs opt_ip_updates ip_dead).
Abbreviation generates := (IpRun.generates priminfos super_costs super2 branches_to_ip ip_update0 min_ip_update max_ip_update
  opt_ip_updates opt_ip_updates_branch goto_start goto_len N_branch ip_dead ginstps target_at).
Abbreviation ends_line := (IpRun.ends_line priminfos).
Abbreviation jump_ok := (IpRun.jump_ok priminfos).
Abbreviation compile_prim_dyn := (CodeGen.compile_prim_dyn priminfos super_costs super2 branches_to_ip
  ip_update0 min_ip_update max_ip_update opt_ip_updates opt_ip_updates_branch false npriminfos goto_start
  goto_len nops N_branch ip_dead code_area_size gforth_alloc ginstps target_at vm_prims).
Abbreviation step_transition := (Rewrite.step_transition priminfos super_costs super2 branches_to_ip
  ip_update0 min_ip_update max_ip_update opt_ip_updates opt_ip_updates_branch false npriminfos goto_start
  goto_len nops N_branch ip_dead code_area_size gforth_alloc ginstps target_at vm_prims).
Abbreviation step_record := (Rewrite.step_record priminfos super_costs false code_area_size).
Abbreviation rewrite_step := (Rewrite.rewrite_step priminfos super_costs super2 branches_to_ip
  ip_update0 min_ip_update max_ip_update opt_ip_updates opt_ip_updates_branch false npriminfos goto_start
  goto_len nops N_branch ip_dead code_area_size gforth_alloc ginstps target_at vm_prims).
Abbreviation rewrite_code := (Rewrite.rewrite_code priminfos super_costs super2 branches_to_ip
  ip_update0 min_ip_update max_ip_update opt_ip_updates opt_ip_updates_branch false npriminfos goto_start
  goto_len nops N_branch ip_dead code_area_size gforth_alloc ginstps target_at vm_prims).
Abbreviation inst_ok := (Labels.inst_ok max_super info reloc lookup_super).
Abbreviation trans_ok := (Labels.trans_ok maxstates info state_transitions).
Abbreviation labelled := (Labels.labelled maxstates max_super info reloc state_transitions lookup_super).
Abbreviation ends_ok := (Rewrite.ends_ok priminfos lookup_super).
Abbreviation inst_state := (Rewrite.inst_state super_costs).

(** What the tables promise: relocatable primitives; state transitions do not
    touch the instruction pointer. *)
Record lazy_env : Prop := {
  le_ip : env;
  le_tables : tables_ok maxstates info ss_cost state_transitions lookup_super;
  le_reloc : forall p, reloc p = true;
  le_transitions : forall s, s ∈ state_transitions ->
    0 < s < npriminfos /\ pi_superend (priminfos s) = false /\ needs_ip s = false /\ branches_to_ip s = 0 /\
    c_length (info s) = 1%nat /\ (state_in (info s) <> CANONICAL_STATE \/ state_out (info s) <> CANONICAL_STATE);
  le_supers : forall key ss s, lookup_super key = Some ss -> s ∈ ss ->
    0 < s < npriminfos /\ (pi_superend (priminfos s) = true -> state_out (info s) = CANONICAL_STATE)
}.
Context (LE : lazy_env).

Abbreviation compiled_one := (IpRun.compiled_one priminfos super_costs super2 branches_to_ip ip_update0 min_ip_update
  max_ip_update opt_ip_updates opt_ip_updates_branch goto_start goto_len N_branch ip_dead ginstps target_at).

Lemma compile_one_lazy p g :
  0 < p < npriminfos -> 0 <= inst_index g -> jump_ok g ->
  exists g' a, compile_prim_dyn p g = Some (g', a) /\ compiled_one p g g' a.
Proof using LE.
  intros Hp Hi J. apply compile_prim_dyn_one; try done; apply LE.
Qed.

(** ** One iteration *)

Definition trans_calls (i : nat) (t : tpa_state) (k : nat) (nt : bool) : list (Z * Z) :=
  map (fun s => (Z.of_nat i, s)) (trans_prims t k nt).

Lemma step_transition_lazy t i k nt di g :
  (k < maxstates)%nat -> trans_ok t -> ready t k nt -> jump_ok g -> inst_index g = Z.of_nat i ->
  exists g' tc, step_transition t (mkRegs i k nt di) g = Some (g', tc, inst_state t k nt) /\
    inst_index g' = Z.of_nat i /\
    (if nt then g' = g else generates (trans_calls i t k nt) g g' /\ (next_code_block g' = next_code_block g -> tc = code_here g)).
Proof using LE.
  intros Hk HT HR J Hi. unfold Rewrite.step_transition, Rewrite.inst_state, trans_calls, trans_prims in *.
  cbn [no_transition nextstate]. destruct nt; cbn [negb]; [by exists g, 0|].
  destruct (do_transition_ready _ _ _ t k Hk HT HR) as (s & Ed & Es & Hin & _). rewrite Ed, <- Es in *.
  cbn [mbind option_bind fst snd map]. destruct (le_transitions LE s Hin) as (Hs & _ & _ & _ & Hl & _).
  destruct (compile_one_lazy s g Hs ltac:(lia) J) as (g' & a & -> & [G X S _]). cbn [mbind option_bind fst snd].
  exists g', a. split; [done|]. rewrite <- Hi. split; [|by split]. apply X. unfold Rewrite.info in Hl. rewrite Hl. done.
Qed.

Lemma trans_calls_line i t k nt : (k < maxstates)%nat -> trans_ok t -> ready t k nt ->
  Forall (fun '(i, p) => pi_superend (priminfos p) = false) (trans_calls i t k nt).
Proof using LE.
  intros Hk HT HR. unfold trans_calls, trans_prims. destruct nt; [constructor|]. constructor; [|constructor].
  destruct (HT k Hk HR) as (Hin & _). by apply (le_transitions LE).
Qed.

Lemma generates_jump ps g g' : generates ps g g' -> jump_ok g'.
Proof using. by intros [J _ _]. Qed.
Lemma generates_block ps g g' : generates ps g g' -> (next_code_block g <= next_code_block g')%nat.
Proof using. by intros [_ B _]. Qed.

Record step_done (i : nat) (t : tpa_state) (k : nat) (nt : bool) (st : cstate) (r' : regs) (st' : cstate) : Prop := {
  sd_regs : let p := w_inst (way (t_inst t) (inst_state t k nt)) in
    nextdyn r' = (i + c_length (info p))%nat /\ nextstate r' = state_out (info p) /\
    no_transition r' = w_no_transition (way (t_inst t) (inst_state t k nt)) /\ r_di r' <> None;
  sd_generates : let p := w_inst (way (t_inst t) (inst_state t k nt)) in
    generates (trans_calls i t k nt ++ [(Z.of_nat i, p)]) (c_gen st) (c_gen st');
  sd_index : c_length (info (w_inst (way (t_inst t) (inst_state t k nt)))) = 1%nat -> inst_index (c_gen st') = Z.of_nat i;
  sd_capacity : capacity_ok (c_dyn st');
  sd_cells : exists tc, c_cells st' = store (c_cells st) (cell i) tc /\
    (next_code_block (c_gen st') = next_code_block (c_gen st) -> tc = code_here (c_gen st))
}.

Lemma inst_state_lt t k nt : (k < maxstates)%nat -> trans_ok t -> ready t k nt ->
  (inst_state t k nt < maxstates)%nat /\ ready t (inst_state t k nt) true.
Proof using LE.
  intros Hk HT HR. destruct nt; [done|]. destruct (HT k Hk HR) as (Hin & _ & H & _). split; [|exact H].
  apply (Tpa.ok_transitions _ _ _ _ _ (le_tables LE)), Hin.
Qed.

Lemma rewrite_step_lazy origs ts i t k nt di st :
  let k' := inst_state t k nt in
  (k < maxstates)%nat -> trans_ok t -> ready t k nt -> inst_ok origs (t :: ts) (way (t_inst t) k') k' ->
  jump_ok (c_gen st) -> capacity_ok (c_dyn st) ->
  exists r' st', rewrite_step i t (mkRegs i k nt di) st = Some (r', st') /\ step_done i t k nt st r' st'.
Proof using LE.
  intros k' Hk HT HR HI J HC. set (p := w_inst (way (t_inst t) k')).
  pose proof (inst_state_lt t k nt Hk HT HR) as [Hk' HR']. fold k' in Hk', HR'.
  unfold Rewrite.rewrite_step. cbn [nextdyn nextstate no_transition]. rewrite Nat.eqb_refl. cbv iota.
  set (g := set_inst_index (Z.of_nat i) (c_gen st)).
  destruct (step_transition_lazy t i k nt di g Hk HT HR J eq_refl) as (g1 & tc1 & -> & I1 & G1). cbn [mbind option_bind]. fold k' p.
  destruct (inst_ok_selected _ _ _ _ _ _ _ (le_tables LE) _ _ _ _ HI HR') as (_ & _ & _ & _ & Ea & _).
  fold k' p in Ea |- *. rewrite Ea.
  assert (US : 0 < p < npriminfos).
  { destruct HI as (j & ss & b & _ & E & Hss & _). by apply (le_supers LE _ _ _ E Hss). }
  assert (J1 : jump_ok g1) by (destruct nt; [by subst g1|by apply (generates_jump _ _ _ (proj1 G1))]).
  destruct (compile_one_lazy p g1 US ltac:(lia) J1) as (g2 & a & -> & [G2 X2 S2 _]). cbn [mbind option_bind].
  rewrite I1 in G2, X2. rewrite (le_reloc LE p). cbn [negb orb]. rewrite orb_false_r.
  set (x := if nt then (a, k') else (tc1, k)).
  assert (Ex : fst x = if nt then a else tc1) by (unfold x; by destruct nt).
  destruct x as [tc sst]. cbn [fst] in Ex.
  destruct (step_record_ok priminfos super_costs code_area_size (c_cells st) g2 (cell i) tc p sst (mkRegs i k nt di) (c_dyn st) HC)
    as (dyn' & di' & -> & HC' & _ & HD). cbn [mbind option_bind fst snd]. rewrite (le_reloc LE p) in HD.
  assert (GG : generates (trans_calls i t k nt ++ [(Z.of_nat i, p)]) (c_gen st) g2).
  { apply generates_from with (st := g); try done.
    destruct nt; [by subst g1|]. destruct G1 as [G1 _].
    eapply generates_app; [apply (le_ip LE)| |exact G1|exact G2]. by apply trans_calls_line. }
  eexists _, _. split; [done|].
  constructor; cbn [c_gen c_dyn c_cells nextdyn nextstate no_transition r_di]; cbv zeta; fold k' p; try done.
  - intros Hl. apply X2. unfold Rewrite.info in Hl. by rewrite Hl.
  - exists tc. split; [done|]. intros HN. rewrite Ex. pose proof (generates_block _ _ _ G2) as B2.
    destruct nt.
    + subst g1. by apply S2.
    + destruct G1 as [G1 S1]. pose proof (generates_block _ _ _ G1) as B1.
      apply S1. change (next_code_block g) with (next_code_block (c_gen st)) in *. lia.
Qed.

(** Where the loop goes on behind a chosen instruction. *)
Lemma behind_lazy p0 rest t ts k' :
  labelled rest ts -> ends_ok (p0 :: rest) ->
  let w := way (t_inst t) k' in let p := w_inst w in
  inst_ok (p0 :: rest) (t :: ts) w k' ->
  exists j b, c_length (info p) = S j /\ (j <= length rest)%nat /\ ts !! j = Some b /\ (state_out (info p) < maxstates)%nat /\
    ready b (state_out (info p)) (w_no_transition w) /\
    (pi_superend (priminfos p) = true -> j = length rest /\ w_no_transition w = true).
Proof using LE.
  intros HL HE w p (j & ss & b & Hj & E & Hss & _ & _ & Eb & HR & _). fold p in Hss, HR.
  destruct (Tpa.ok_supers _ _ _ _ _ (le_tables LE) _ _ _ E Hss) as (_ & Ho & Hl).
  rewrite length_take in Hl. cbn [length] in Hj, Hl. destruct j as [|j]; [lia|].
  rewrite Nat.min_l in Hl by lia. cbn [lookup list_lookup] in Eb.
  exists j, b. do 4 (split; [first [done|lia]|]). split; [exact HR|]. intros Hs.
  assert (Hend : (0 + S j)%nat = length (p0 :: rest)).
  { apply (HE 0%nat (S j) ss p); try done; cbn [length]; lia. }
  cbn [length] in Hend. assert (j = length rest) as -> by lia. split; [done|].
  destruct (le_supers LE _ _ _ E Hss) as [_ Hse]. rewrite (Hse Hs) in HR.
  apply (labelled_end _ _ _ _ _ _ _ (le_tables LE) rest ts b _ (fun s H => proj2 (proj2 (proj2 (proj2 (proj2 (le_transitions LE s H)))))) HL Eb HR).
Qed.

(** ** The loop *)

(** The code of instruction [i] to the end of the block. *)
Record lazy_done (i skip : nat) (origs : list Z) (nt : bool) (prims : list Z) (st st' : cstate) : Prop := {
  ld_capacity : capacity_ok (c_dyn st');
  ld_outside : forall a, (forall j, (i <= j < i + length origs)%nat -> a <> cell j) -> c_cells st' a = c_cells st a;
  ld_entry : skip = 0%nat -> origs <> [] -> next_code_block (c_gen st') = next_code_block (c_gen st) ->
    c_cells st' (cell i) = code_here (c_gen st);
  ld_end : skip = length origs -> nt = true -> prims = [];
  ld_code : exists calls, map snd calls = prims /\ generates calls (c_gen st) (c_gen st') /\
    (ends_line calls = false -> next_code_block (c_gen st') = next_code_block (c_gen st) ->
     ip_at (c_gen st') = cell (i + length origs))
}.

Lemma cell_inj_lazy i j : cell i = cell j -> i = j.
Proof using LE.
  intros E. unfold Rewrite.cell in E. destruct (Nat.lt_trichotomy i j) as [H|[H|H]]; [|done|];
    [pose proof (ip_cells _ _ _ _ _ _ _ _ _ _ _ _ (le_ip LE) (Z.of_nat i) (Z.of_nat j) ltac:(lia) ltac:(lia))
    |pose proof (ip_cells _ _ _ _ _ _ _ _ _ _ _ _ (le_ip LE) (Z.of_nat j) (Z.of_nat i) ltac:(lia) ltac:(lia))]; lia.
Qed.

Lemma rewrite_end_lazy i t k nt di st evs :
  (forall k, (k < maxstates)%nat -> ready t k true -> k = CANONICAL_STATE) ->
  trans_ok t -> (k < maxstates)%nat -> ready t k nt ->
  rewrite_loop info [t] 0 k nt = Some evs ->
  jump_ok (c_gen st) -> capacity_ok (c_dyn st) -> (nt = false -> di <> None) ->
  inst_index (c_gen st) = Z.of_nat i - 1 -> (0 < i)%nat ->
  exists st', rewrite_code i [t] (mkRegs (i + 0) k nt di) st = Some st' /\
    lazy_done i 0 [] nt (compiled_prims evs) st st'.
Proof using LE.
  intros Hend HT Hk HR Hev J HC HL Hx Hi. cbn [Rewrite.rewrite_code]. unfold rewrite_end.
  rewrite Hx, Z.eqb_refl. cbn [negb].
  assert (GN : generates [] (c_gen st) (c_gen st)) by (by apply generates_nil).
  edestruct generates_update with (n := 0) (ps := @nil (Z * Z)) (st := c_gen st) (st1 := c_gen st)
    as (g & d & E & G & Hd & Hip & HI & HN & _ & _); [apply (le_ip LE)|done|exact GN|done|].
  rewrite E. cbn [fmap option_fmap option_map mbind option_bind fst no_transition nextstate nextdyn r_di].
  assert (Hc : ip_at g = cell i) by (unfold Rewrite.cell; rewrite Hx in Hip; replace (Z.of_nat i - 1 + 1) with (Z.of_nat i) in Hip by lia; lia).
  cbn [rewrite_loop] in Hev. destruct nt; cbn [negb] in *.
  - rewrite (Hend k Hk HR) in *. rewrite Nat.eqb_refl in *. injection Hev as <-.
    eexists. split; [done|]. constructor; try done. exists []. split; [done|]. cbn [c_gen]. split; [exact G|].
    intros _ _. cbn [length]. by rewrite Nat.add_0_r.
  - destruct (do_transition_ready _ _ _ t k Hk HT HR) as (s & Ed & Es & Hin & Hs & HO & _). rewrite Ed in *.
    cbn [mbind option_bind fst snd Nat.eqb andb] in *.
    assert (Ho : state_out (info s) = CANONICAL_STATE).
    { apply Hend; [|done]. apply (Tpa.ok_transitions _ _ _ _ _ (le_tables LE)), Hin. }
    rewrite Ho, Nat.eqb_refl in *. injection Hev as <-. rewrite Nat.add_0_r, Nat.eqb_refl. cbn [negb].
    destruct di as [di|]; [|by destruct (HL eq_refl)].
    destruct (le_transitions LE s Hin) as (US & Ss & Ns & Bs & _).
    destruct (compile_one_lazy s g US ltac:(lia) (generates_jump _ _ _ G)) as (g' & a & -> & [G' _ _ P']).
    cbn [mbind option_bind fst snd]. eexists. split; [done|].
    constructor; cbn [c_gen c_dyn c_cells]; [|done|done|done|].
    + apply (capacity_ok_shrink (c_dyn st)); [by rewrite length_alter|done].
    + exists [(inst_index g, s)]. split; [done|]. split; [by eapply generates_then|].
      intros _ HN'. cbn [length]. rewrite Nat.add_0_r, <- Hc. apply P'; [|done..].
      pose proof (generates_block _ _ _ G'). lia.
Qed.

Lemma ends_line_snoc ps i p : ends_line (ps ++ [(i, p)]) = pi_superend (priminfos p).
Proof using. unfold IpRun.ends_line. by rewrite last_snoc. Qed.

Lemma ends_line_app ps i p qs : qs <> [] -> ends_line ((ps ++ [(i, p)]) ++ qs) = ends_line qs.
Proof using. intros H. unfold IpRun.ends_line. destruct qs as [|x qs]; [done|]. by rewrite last_app_cons. Qed.

(** The calls for a chosen instruction, and for the rest of the block. *)
Lemma lazy_calls i t k nt st r' st1 st' j rest prims :
  (k < maxstates)%nat -> trans_ok t -> ready t k nt ->
  step_done i t k nt st r' st1 ->
  let p := w_inst (way (t_inst t) (inst_state t k nt)) in
  (pi_superend (priminfos p) = true -> j = length rest /\ no_transition r' = true) ->
  lazy_done (S i) j rest (no_transition r') prims st1 st' ->
  exists calls, map snd calls = trans_prims t k nt ++ p :: prims /\ generates calls (c_gen st) (c_gen st') /\
    (ends_line calls = false -> next_code_block (c_gen st') = next_code_block (c_gen st) ->
     ip_at (c_gen st') = cell (i + S (length rest))).
Proof using LE.
  intros Hk HT HR SD p HS LD. destruct (ld_code _ _ _ _ _ _ _ LD) as (calls' & EC & G' & HI).
  pose proof (sd_generates _ _ _ _ _ _ _ SD) as G. cbv zeta in G. fold p in G.
  pose proof (generates_block _ _ _ G) as B. pose proof (generates_block _ _ _ G') as B'.
  exists ((trans_calls i t k nt ++ [(Z.of_nat i, p)]) ++ calls'). split; [|split].
  - rewrite !map_app, EC. cbn [map snd]. rewrite <- app_assoc. cbn [app]. f_equal.
    unfold trans_calls. rewrite map_map. cbn [snd]. apply map_id.
  - destruct (pi_superend (priminfos p)) eqn:Hs.
    + destruct (HS eq_refl) as [-> Ht]. rewrite (ld_end _ _ _ _ _ _ _ LD eq_refl Ht) in EC.
      apply map_eq_nil in EC as ->. rewrite app_nil_r. eapply generates_behind; [|exact G|exact G'].
      by rewrite ends_line_snoc.
    + eapply generates_app; [apply (le_ip LE)| |exact G|exact G'].
      apply Forall_app. split; [by apply trans_calls_line|by constructor].
  - intros HE HN. replace (i + S (length rest))%nat with (S i + length rest)%nat by lia. apply HI; [|lia].
    destruct calls' as [|c calls']; [done|]. by rewrite ends_line_app in HE.
Qed.

Lemma rewrite_code_lazy origs ts :
  labelled origs ts -> forall i skip k nt di st b evs,
  ts !! skip = Some b -> (k < maxstates)%nat -> ready b k nt ->
  rewrite_loop info ts skip k nt = Some evs ->
  jump_ok (c_gen st) -> capacity_ok (c_dyn st) ->
  (nt = false -> di <> None \/ (skip < length origs)%nat) -> ends_ok origs ->
  (origs = [] -> inst_index (c_gen st) = Z.of_nat i - 1 /\ (0 < i)%nat) ->
  exists st', rewrite_code i ts (mkRegs (i + skip) k nt di) st = Some st' /\
    lazy_done i skip origs nt (compiled_prims evs) st st'.
Proof using LE.
  induction 1 as [t Hend Hrel HT|p0 rest t ts Hl IH HI HT]; intros i skip k nt di st b evs Eb Hk HR Hev J HC HL HE Hx.
  - destruct skip as [|skip]; [|done]. injection Eb as <-. destruct (Hx eq_refl) as [Hx1 Hx2].
    apply (rewrite_end_lazy i t k nt di st evs); try done. intros Hn. destruct (HL Hn) as [H|H]; [done|cbn in H; lia].
  - pose proof (labelled_length _ _ _ _ _ _ _ _ Hl) as L. destruct ts as [|t' ts]; [done|].
    pose proof (ends_ok_tail _ _ _ _ HE) as HE'.
    change (rewrite_code i (t :: t' :: ts) (mkRegs (i + skip) k nt di) st)
      with (x ← rewrite_step i t (mkRegs (i + skip) k nt di) st; rewrite_code (S i) (t' :: ts) (fst x) (snd x)).
    destruct skip as [|skip].
    + injection Eb as <-. rewrite Nat.add_0_r.
      edestruct rewrite_loop_inst as (evs' & Hev' & Ec); [exact Hk|exact HT|exact HR|exact Hev|].
      destruct (inst_state_lt t k nt Hk HT HR) as [Hk' HR']. pose proof (HI _ Hk' HR') as HIp.
      destruct (rewrite_step_lazy _ (t' :: ts) i t k nt di st Hk HT HR HIp J HC) as (r' & st1 & -> & SD).
      cbn [mbind option_bind fst snd].
      destruct (behind_lazy p0 rest t (t' :: ts) _ Hl HE HIp) as (j & b' & Hlen & Hj & Eb' & Ho & HR2 & HS).
      destruct (sd_regs _ _ _ _ _ _ _ SD) as (Rn & Rs & Rt & Rd). rewrite Hlen, Nat.sub_succ, Nat.sub_0_r, <- Rt in Hev'.
      rewrite <- Rt in HR2, HS. rewrite Hlen in Rn.
      destruct (IH (S i) j _ (no_transition r') (r_di r') st1 b' evs' Eb' Ho HR2 Hev') as (st' & E & LD); try done.
      { apply (generates_jump _ _ _ (sd_generates _ _ _ _ _ _ _ SD)). }
      { apply SD. }
      { intros _. by left. }
      { intros ->. cbn [length] in Hj. rewrite (sd_index _ _ _ _ _ _ _ SD) by (rewrite Hlen; lia). lia. }
      destruct r' as [rn rs rt rd]. cbn [nextdyn nextstate no_transition r_di] in *. subst rn rs.
      replace (i + S j)%nat with (S i + j)%nat by lia.
      exists st'. split; [exact E|]. destruct (sd_cells _ _ _ _ _ _ _ SD) as (tc & Ecl & Hst).
      pose proof (generates_block _ _ _ (sd_generates _ _ _ _ _ _ _ SD)) as B1.
      destruct (ld_code _ _ _ _ _ _ _ LD) as (calls' & _ & G' & _). pose proof (generates_block _ _ _ G') as B2.
      assert (Hcell : c_cells st' (cell i) = tc).
      { rewrite (ld_outside _ _ _ _ _ _ _ LD), Ecl; [apply store_eq|]. intros q Hq Eq. apply cell_inj_lazy in Eq. lia. }
      constructor.
      * apply LD.
      * intros a Ha. rewrite (ld_outside _ _ _ _ _ _ _ LD) by (intros q Hq; apply Ha; cbn [length]; lia).
        rewrite Ecl. apply store_ne. apply Ha. cbn [length]. lia.
      * intros _ _ HN. rewrite Hcell. apply Hst. lia.
      * done.
      * rewrite Ec. eapply lazy_calls; [exact Hk|exact HT|exact HR|exact SD|exact HS|exact LD].
    + cbn [lookup list_lookup] in Eb. rewrite rewrite_loop_cons in Hev. cbn [Nat.eqb] in Hev.
      rewrite Nat.sub_succ, Nat.sub_0_r in Hev.
      destruct (rewrite_loop info (t' :: ts) skip k nt) as [evs'|] eqn:Hev'; [|done].
      cbn [mbind option_bind] in Hev. injection Hev as <-.
      change (compiled_prims (Static _ :: evs')) with (compiled_prims evs') in *.
      unfold Rewrite.rewrite_step. cbn [nextdyn]. rewrite (proj2 (Nat.eqb_neq i (i + S skip)) ltac:(lia)).
      cbn [mbind option_bind fst snd]. set (st1 := mkC _ (c_dyn st) _).
      replace (i + S skip)%nat with (S i + skip)%nat by lia.
      destruct (IH (S i) skip k nt di st1 b evs' Eb Hk HR Hev') as (st' & E & [D1 D2 _ D4 (calls & D5 & D6 & D7)]); try done.
      { intros Hn. destruct (HL Hn) as [H|H]; [by left|right; cbn in H; lia]. }
      { intros _. cbn. lia. }
      exists st'. split; [exact E|]. constructor; [done| |done| |].
      * intros a Ha. rewrite D2 by (intros q Hq; apply Ha; cbn [length]; lia). apply store_ne. apply Ha. cbn [length]. lia.
      * intros Hs Hn. apply D4; [cbn [length] in Hs; lia|done].
      * exists calls. split; [done|]. cbn [length]. replace (i + S (length rest))%nat with (S i + length rest)%nat by lia.
        split; [|done]. by apply generates_from with (st := c_gen st1).
Qed.

(** ** The whole block *)

Abbreviation reserve_code_super := (CodeGen.reserve_code_super priminfos ip_update0 min_ip_update max_ip_update
  opt_ip_updates false goto_start goto_len nops code_area_size gforth_alloc ginstps).
Abbreviation compile_block := (Rewrite.compile_block priminfos super_costs super2 branches_to_ip
  ip_update0 min_ip_update max_ip_update opt_ip_updates opt_ip_updates_branch false npriminfos goto_start
  goto_len nops N_branch ip_dead code_area_size gforth_alloc ginstps target_at vm_prims maxstates max_super
  ss_cost state_transitions lookup_super).
Abbreviation cover := (Tpa.cover max_super info state_transitions lookup_super).

(** [compile_block] between the reservation of space, which leaves [g], and the
    assertion at the end. *)
Definition block_code (origs : list Z) (g : gstate) (st : cstate) : option cstate :=
  let ts := label maxstates max_super info ss_cost reloc state_transitions lookup_super
              (make_termstate maxstates info ss_cost state_transitions) origs in
  t0 ← head ts;
  let v := way (t_trans t0) CANONICAL_STATE in
  rewrite_code 0 ts (mkRegs 0 CANONICAL_STATE (negb (w_relocatable v) || w_no_transition v) None)
    (mkC (set_ip_at (cell 0) g) (c_dyn st) (c_cells st)).

Lemma compile_block_code origs st :
  origs <> [] -> compile_block origs st =
    g ← reserve_code_super origs (set_inst_index 0 (c_gen st));
    st' ← block_code origs g st;
    if code_area (c_gen st') =? code_area g then Some st' else None.
Proof using.
  intros Hne. unfold Rewrite.compile_block, Rewrite.emit_block, block_code. destruct origs as [|p rest]; [done|].
  rewrite label_head. cbn [mbind option_bind]. done.
Qed.

Lemma block_code_lazy origs st :
  (0 < length origs <= MAX_BB)%nat -> feasible max_super info lookup_super origs -> ends_ok origs ->
  jump_ok (c_gen st) -> capacity_ok (c_dyn st) ->
  exists prims g st', cover true origs CANONICAL_STATE prims /\
    (forall other, cover true origs CANONICAL_STATE other -> total_cost ss_cost prims <= total_cost ss_cost other) /\
    reserve_code_super origs (set_inst_index 0 (c_gen st)) = Some g /\
    block_code origs g st = Some st' /\
    lazy_done 0 0 origs
      (negb (w_relocatable (way (t_trans (lab maxstates max_super info ss_cost reloc state_transitions lookup_super origs)) CANONICAL_STATE)) ||
       w_no_transition (way (t_trans (lab maxstates max_super info ss_cost reloc state_transitions lookup_super origs)) CANONICAL_STATE))
      prims (mkC (set_ip_at (cell 0) g) (c_dyn st) (c_cells st)) st'.
Proof using LE.
  intros Hn HF HE J HC. pose proof (le_tables LE) as OK.
  destruct (optimize_rewrite_total maxstates max_super info ss_cost reloc state_transitions lookup_super OK origs
    ltac:(lia) HF) as (evs & E & Hc).
  destruct (optimize_rewrite_best _ max_super _ _ _ _ _ OK (le_reloc LE) origs _ Hn Hc) as (evs2 & c & E2 & _ & Et & HB).
  rewrite E in E2. injection E2 as <-.
  edestruct reserve_run with (st := set_inst_index 0 (c_gen st)) (m := fun x : Z => x : Z) (lo := 0) (hi := 0)
    (ip_update0 := ip_update0) (goto_start := goto_start) (nops := nops) (code_area_size := code_area_size)
    (size := CODE_ALIGNMENT - 1 + super_size priminfos false goto_len None origs)
    as (g & Er & Jg & _); [apply (le_ip LE)|lia|lia|exact J|].
  set (t := lab maxstates max_super info ss_cost reloc state_transitions lookup_super origs).
  set (v := way (t_trans t) CANONICAL_STATE). set (nt := negb (w_relocatable v) || w_no_transition v).
  set (st1 := mkC (set_ip_at (cell 0) g) (c_dyn st) (c_cells st)).
  pose proof (label_canonical_ready maxstates max_super info ss_cost reloc state_transitions lookup_super OK origs ltac:(lia) HF) as HCan.
  pose proof (label_head maxstates max_super info ss_cost reloc state_transitions lookup_super origs) as EH.
  assert (Eb : label maxstates max_super info ss_cost reloc state_transitions lookup_super
    (make_termstate maxstates info ss_cost state_transitions) origs !! 0%nat = Some t).
  { by rewrite <- head_lookup. }
  assert (HR : ready t CANONICAL_STATE nt).
  { unfold nt. destruct (negb _ || _) eqn:C.
    - rewrite Forall_forall in HCan. apply HCan, list_elem_of_In. by apply list_elem_of_lookup_2 with 0%nat.
    - apply orb_false_iff in C as [_ C]. split; [|exact C]. apply (lab_canonical_trans _ _ _ _ _ _ _ OK); [lia|done]. }
  unfold optimize_rewrite in E. destruct origs as [|p rest]; [cbn in Hn; lia|].
  unfold rewrite in E. rewrite EH in E. cbn [mbind option_bind] in E. fold t v nt in E.
  destruct (rewrite_code_lazy _ _ (label_labelled maxstates max_super info ss_cost reloc state_transitions lookup_super OK (p :: rest)) 0 0 CANONICAL_STATE nt None st1 t evs Eb
    (Tpa.ok_canonical _ _ _ _ _ OK) HR E Jg HC) as (st' & Ec & LD); [right; cbn; lia|exact HE|done|].
  exists (compiled_prims evs), g, st'. split; [exact Hc|].
  split; [intros other Ho; rewrite Et; by apply (best_le _ _ _ _ _ _ _ _ _ _ HB)|].
  split; [unfold CodeGen.reserve_code_super; by rewrite Er|]. split; [|exact LD].
  unfold block_code. rewrite EH. cbn [mbind option_bind]. exact Ec.
Qed.
End IpBlock.

(** ** Properties *)

(** C7: the default configuration compiles a block to code that executes an
    optimal cover with exact instruction pointers.  For relocatable primitives,
    no assertion fails before the last one, about [code_area]; if no other code
    block has been begun behind the reservation, that one holds too, the first
    cell contains the start of the code, and executing it, also after later
    compilation, executes the primitives of a cover of least cost, each with the
    instruction pointer it needs although updates are delayed and merged.  It ends
    with dispatch code, or behind the block with the pointer at the next cell.
    The block has 1 to [MAX_BB] instructions, each of which can be compiled by
    itself from and to the canonical state ([feasible]), only its last can end
    straight-line code ([ends_ok]), and the tables, the allocator and the
    versions of primitives are as [lazy_env] says. *)
Theorem default_block_exact (priminfos : Z -> PrimInfo) (super_costs : Z -> cost) (super2 : list Z)
    (branches_to_ip : Z -> Z) (ip_update0 min_ip_update max_ip_update opt_ip_updates opt_ip_updates_branch : Z)
    (npriminfos goto_start goto_len nops N_branch : Z) (ip_dead : list Z) (code_area_size : Z)
    (gforth_alloc : nat -> Z) (ginstps target_at vm_prims : Z -> Z) (maxstates max_super : nat) (ss_cost : Z -> Z)
    (state_transitions : list Z) (lookup_super : list Z -> option (list Z)) (origs : list Z) (st : cstate) :
  let info := Rewrite.info super_costs in
  let cov := Tpa.cover max_super info state_transitions lookup_super true origs CANONICAL_STATE in
  let runs m := executes priminfos super_costs super2 branches_to_ip ip_update0 min_ip_update max_ip_update opt_ip_updates
    opt_ip_updates_branch N_branch ip_dead ginstps target_at m in
  lazy_env priminfos super_costs super2 branches_to_ip min_ip_update max_ip_update opt_ip_updates
    opt_ip_updates_branch npriminfos goto_len N_branch ip_dead gforth_alloc ginstps maxstates ss_cost state_transitions
    lookup_super ->
  (0 < length origs <= MAX_BB)%nat -> feasible max_super info lookup_super origs -> ends_ok priminfos lookup_super origs ->
  jump_ok priminfos (c_gen st) -> capacity_ok (c_dyn st) ->
  exists prims g st',
    cov prims /\ (forall other, cov other -> total_cost ss_cost prims <= total_cost ss_cost other) /\
    reserve_code_super priminfos ip_update0 min_ip_update max_ip_update opt_ip_updates false goto_start goto_len nops
      code_area_size gforth_alloc ginstps origs (set_inst_index 0 (c_gen st)) = Some g /\
    block_code priminfos super_costs super2 branches_to_ip ip_update0 min_ip_update max_ip_update opt_ip_updates
      opt_ip_updates_branch npriminfos goto_start goto_len nops N_branch ip_dead code_area_size gforth_alloc ginstps
      target_at vm_prims maxstates max_super ss_cost state_transitions lookup_super origs g st = Some st' /\
    (next_code_block (c_gen st') = next_code_block g ->
     compile_block priminfos super_costs super2 branches_to_ip ip_update0 min_ip_update max_ip_update opt_ip_updates
       opt_ip_updates_branch false npriminfos goto_start goto_len nops N_branch ip_dead code_area_size gforth_alloc
       ginstps target_at vm_prims maxstates max_super ss_cost state_transitions lookup_super origs st = Some st' /\
     c_cells st' (ginstps 0) = code_here g /\
     exists calls, map snd calls = prims /\
       forall m hi, clear priminfos goto_start goto_len (code_here g) hi -> later (c_gen st') hi m ->
         exists pc ip, runs m (code_here g) (ginstps 0) calls pc ip /\
           finishes priminfos ip_update0 min_ip_update max_ip_update goto_start goto_len m calls pc ip (c_gen st') /\
           (ends_line priminfos calls = false -> ip_at (c_gen st') = ginstps (Z.of_nat (length origs)))).
Proof.
  intros info cov runs LE Hn HF HE J HC.
  destruct (block_code_lazy _ _ _ _ ip_update0 _ _ _ _ _ goto_start _ nops _ _ code_area_size _ _ target_at vm_prims _ max_super
    _ _ _ LE origs st Hn HF HE J HC) as (prims & g & st' & Hc & Hbest & Er & Eb & [_ _ D3 _ (calls & D5 & [_ _ GS] & D7)]).
  exists prims, g, st'. do 4 (split; [done|]). intros HN. cbn [c_gen] in *.
  change (next_code_block (set_ip_at (cell ginstps 0) g)) with (next_code_block g) in *.
  destruct (GS HN) as [A R]. split; [|split].
  - rewrite compile_block_code by (by destruct origs; [cbn in Hn; lia|]). rewrite Er. cbn [mbind option_bind]. rewrite Eb.
    cbn [mbind option_bind]. rewrite (ap_area _ _ A). change (code_area (set_ip_at _ g)) with (code_area g). by rewrite Z.eqb_refl.
  - apply (D3 eq_refl); [by destruct origs; [cbn in Hn; lia|]|done].
  - exists calls. split; [done|]. intros m hi CL LT. destruct (R m hi CL LT) as (pc & ip & X & Y).
    exists pc, ip. split; [exact X|]. split; [exact Y|]. intros HEL. by apply D7.
Qed.

(** *** The block of [Rewrite]'s example with updates: instruction 2 reads the
    pointer. *)
Definition demo_lazy_cells (i : Z) : Z := 100 + i.
Definition demo_lazy_state : cstate := mkC (init_gstate 128 (fun x => x)) init_dynstate (fun _ => 0).

Lemma demo_lazy_env : lazy_env demo_emit_infos demo_emit_costs [0; 1; 2] (fun _ => 0) (-20) 20 7 3 10 3 9 [] demo_blocks
  demo_lazy_cells 2 demo_ss_cost [5; 6] demo_lookup.
Proof.
  constructor.
  - constructor; try lia.
    + intros p. pose proof (demo_length p). cbn. lia.
    + intros p. cbn. lia.
    + intros k. unfold demo_blocks. lia.
    + intros i j _ Hj. unfold demo_lazy_cells. lia.
    + intros p Hs. cbn in *. unfold demo_cost_info. apply orb_true_iff in Hs as [Hs|Hs]; apply Z.eqb_eq in Hs as ->; vm_compute; lia.
    + intros p. unfold is_branch. cbn. destruct ((p =? 1) || (p =? 3)); cbn; by rewrite andb_false_r.
  - apply demo_tables_ok.
  - done.
  - intros s Hs. repeat (apply elem_of_cons in Hs as [->|Hs]; [split; [lia|]; do 4 (split; [done|]); vm_compute; by (left + right)|]).
    by apply not_elem_of_nil in Hs.
  - intros key ss s E Hs. destruct (demo_lookup_cases _ _ _ E Hs) as [[_ [-> | ->]]|[_ [-> | ->]]]; (split; [lia|by vm_compute]).
Qed.

Abbreviation demo_lazy_block := (compile_block demo_emit_infos demo_emit_costs [0; 1; 2] (fun _ => 0) 50 (-20) 20 7 3 false 10
  2000 3 3000 9 [] 128 demo_blocks demo_lazy_cells (fun _ => 0) (fun p => 500 + p) 2 2 demo_ss_cost [5; 6] demo_lookup).

Lemma demo_lazy_compiled :
  (fun c => (next_code_block (c_gen c), code_here (c_gen c), c_cells c 100)) <$> demo_lazy_block [1; 2] demo_lazy_state =
  Some (1%nat, 4113, 4096).
Proof. vm_compute. reflexivity. Qed.

Lemma demo_lazy_reserved :
  (next_code_block <$> reserve_code_super demo_emit_infos 50 (-20) 20 7 false 2000 3 3000 128 demo_blocks demo_lazy_cells
     [1; 2] (set_inst_index 0 (c_gen demo_lazy_state))) = Some 1%nat.
Proof. vm_compute. reflexivity. Qed.

Lemma demo_lazy_code :
  (fun c => (next_code_block (c_gen c), code_here (c_gen c))) <$>
    (g ← reserve_code_super demo_emit_infos 50 (-20) 20 7 false 2000 3 3000 128 demo_blocks demo_lazy_cells
       [1; 2] (set_inst_index 0 (c_gen demo_lazy_state));
     block_code demo_emit_infos demo_emit_costs [0; 1; 2] (fun _ => 0) 50 (-20) 20 7 3 10 2000 3 3000 9 [] 128 demo_blocks
       demo_lazy_cells (fun _ => 0) (fun p => 500 + p) 2 2 demo_ss_cost [5; 6] demo_lookup [1; 2] g demo_lazy_state) =
  Some (1%nat, 4113).
Proof. vm_compute. reflexivity. Qed.

Lemma default_block_exact_witness :
  exists st' calls pc ip,
    demo_lazy_block [1; 2] demo_lazy_state = Some st' /\ c_cells st' 100 = 4096 /\
    executes demo_emit_infos demo_emit_costs [0; 1; 2] (fun _ => 0) 50 (-20) 20 7 3 9 [] demo_lazy_cells (fun _ => 0)
      (code_memory (c_gen st')) 4096 100 calls pc ip /\
    total_cost demo_ss_cost (map snd calls) <= 20.
Proof.
  destruct (default_block_exact demo_emit_infos demo_emit_costs [0; 1; 2] (fun _ => 0) 50 (-20) 20 7 3 10 2000 3 3000 9 [] 128
    demo_blocks demo_lazy_cells (fun _ => 0) (fun p => 500 + p) 2 2 demo_ss_cost [5; 6] demo_lookup [1; 2] demo_lazy_state
    demo_lazy_env) as (prims & g & st' & _ & Hbest & Er & Eb & H).
  - cbn. unfold MAX_BB. lia.
  - split; [lia|]. intros p Hp. exists (if p =? 1 then [1; 3] else [2; 4]), p.
    repeat (apply elem_of_cons in Hp as [->|Hp]; [split; [reflexivity|]; split; [by left|done]|]).
    by apply not_elem_of_nil in Hp.
  - intros m j ss s Hj Hm E Hs Hse. cbn [length] in *.
    destruct (demo_lookup_cases _ _ _ E Hs) as [[_ [-> | ->]]|[Ek _]]; [done|done|].
    destruct m as [|[|m]]; [by destruct j as [|[|j]]|lia|lia].
  - done.
  - done.
  - pose proof demo_lazy_reserved as D1. rewrite Er in D1. injection D1 as D1.
    pose proof demo_lazy_code as D2. rewrite Er in D2. cbn [mbind option_bind] in D2. rewrite Eb in D2. injection D2 as D2 D3.
    destruct H as (Ec & Ecell & calls & <- & R); [congruence|].
    pose proof demo_lazy_compiled as D4. rewrite Ec in D4. injection D4 as _ _ D4.
    change (demo_lazy_cells 0) with 100 in *. rewrite D4 in Ecell. rewrite <- Ecell in R.
    destruct (R (code_memory (c_gen st')) 4113) as (pc & ip & X & _).
    + constructor; [|intros j Hj; left; lia]. intros p j Hj. left. pose proof (demo_length p). cbn in Hj |- *. lia.
    + constructor; [by rewrite D3|done].
    + exists st', calls, pc, ip. split; [exact Ec|]. split; [exact D4|]. split; [exact X|]. exact (Hbest _ demo_cover).
Defined.
