(* ===== verification/Profile.v ===== *)
(** * Block profiles (engine/profile.c)

    Support code for virtual machines generated by Vmgen: during a profiling run
    every basic-block entry is counted in a hash table with external chaining;
    afterwards [postprocess] reads off the instructions of each block and adds
    the count of a block to the blocks that it falls through to.  Nodes are
    numbered in the order of their allocation; the chains hold these numbers.
    [profile.i], which Vmgen generates, is the parameter [decode].  Counts do not
    overflow: their sum is bounded by the number of block entries executed. *)
From Stdlib Require Import String.
From S2P Require Import Prelude.
Open Scope list_scope.

Definition HASH_SIZE : Z := 1048576.

Record block_count := mkBlock {
  bc_ip : Z;
  fallthrough : option nat;
  bc_count : Z;
  insts : list string
}.

Record profile := mkProfile {
  nodes : list block_count;
  blocks : gmap Z (list nat)      (** the chains, first element first *)
}.

Definition no_block : block_count := mkBlock 0 None 0 [].
Definition node (st : profile) (b : nat) : block_count := nth b (nodes st) no_block.

(** [((Cell)p/sizeof(Xt)) & (HASH_SIZE-1)]; [sizeof] makes the division unsigned. *)
Definition hash (p : Z) : Z := Z.land (U64 p / 8) (HASH_SIZE - 1).

Definition chain (st : profile) (h : Z) : list nat := default [] (blocks st !! h).

Definition block_lookup (ip : Z) (st : profile) : option nat :=
  List.find (fun b => bc_ip (node st b) =? ip) (chain st (hash ip)).

Definition block_insert (ip : Z) (st : profile) : nat * profile :=
  match block_lookup ip st with
  | Some b => (b, st)
  | None =>
      let new := length (nodes st) in
      (new, mkProfile (nodes st ++ [mkBlock ip None 0 []]) (<[hash ip := new :: chain st (hash ip)]> (blocks st)))
  end.

(** [f] applied to the node [b]. *)
Definition update (b : nat) (f : block_count -> block_count) (st : profile) : profile :=
  mkProfile (alter f b (nodes st)) (blocks st).

Definition add_inst (b : nat) (inst : string) : profile -> profile :=
  update b (fun n => mkBlock (bc_ip n) (fallthrough n) (bc_count n) (insts n ++ [inst])).
Definition add_count (b : nat) (c : Z) : profile -> profile :=
  update b (fun n => mkBlock (bc_ip n) (fallthrough n) (bc_count n + c) (insts n)).
Definition set_fallthrough (b m : nat) : profile -> profile :=
  update b (fun n => mkBlock (bc_ip n) (Some m) (bc_count n) (insts n)).

Definition vm_count_block (ip : Z) (st : profile) : profile :=
  let '(b, st) := block_insert ip st in add_count b 1 st.

Section Postprocess.
(** The names of the instruction at an address, its length in cells, and whether
    it ends straight-line code; [None]: no instruction of the virtual machine. *)
Context (decode : Z -> option (list string * nat * bool)).

(** The loop of [postprocess_block] from [ip] on; the block that is reached, if
    no instruction ended the code before. *)
Fixpoint collect (fuel : nat) (b : nat) (ip : Z) (st : profile) : option (profile * option nat) :=
  match fuel with
  | O => None
  | S fuel =>
      let '(names, n, ends) := default (["unknown"%string], 1%nat, false) (decode ip) in
      let st := fold_left (fun st name => add_inst b name st) names st in
      let ip := ip + 8 * Z.of_nat n in
      if (ends : bool) then Some (st, None)
      else match block_lookup ip st with
           | Some next_block => Some (st, Some next_block)
           | None => collect fuel b ip st
           end
  end.

(** The counts of the blocks from [next_block] on. *)
Fixpoint propagate (fuel : nat) (b : nat) (next_block : option nat) (st : profile) : option profile :=
  match next_block with
  | None => Some st
  | Some m =>
      match fuel with
      | O => None
      | S fuel =>
          let st := add_count m (bc_count (node st b)) st in
          propagate fuel b (fallthrough (node st m)) st
      end
  end.

Definition postprocess_block (fuel b : nat) (st : profile) : option profile :=
  r ← collect fuel b (bc_ip (node st b)) st;
  match r with
  | (st, None) => Some st
  | (st, Some m) => propagate fuel b (Some m) (set_fallthrough b m st)
  end.

Fixpoint postprocess_chain (fuel : nat) (bs : list nat) (st : profile) : option profile :=
  match bs with
  | [] => Some st
  | b :: bs => st ← postprocess_block fuel b st; postprocess_chain fuel bs st
  end.

(** The loop over [n] chains from [i] on. *)
Fixpoint postprocess_from (fuel n : nat) (i : Z) (st : profile) : option profile :=
  match n with
  | O => Some st
  | S n => st ← postprocess_chain fuel (chain st i) st; postprocess_from fuel n (i + 1) st
  end.

Definition postprocess (fuel : nat) (st : profile) : option profile :=
  postprocess_from fuel (Z.to_nat HASH_SIZE) 0 st.

(** ** The contract *)

(** The instructions from [ip] to the next of the addresses [starts]. *)
Fixpoint scan (fuel : nat) (starts : list Z) (ip : Z) : option (list string * option Z) :=
  match fuel with
  | O => None
  | S fuel =>
      let '(names, n, ends) := default (["unknown"%string], 1%nat, false) (decode ip) in
      let ip := ip + 8 * Z.of_nat n in
      if (ends : bool) then Some (names, None)
      else if bool_decide (ip ∈ starts) then Some (names, Some ip)
      else r ← scan fuel starts ip; Some (names ++ fst r, snd r)
  end.

(** The block that control falls through to from the block [ip], and all blocks
    entered in this way, [ip] first. *)
Definition fall_through (K : nat) (starts : list Z) (ip : Z) : option Z := r ← scan K starts ip; snd r.

Fixpoint entered (K n : nat) (starts : list Z) (x : Z) : list Z :=
  x :: match n with
       | O => []
       | S n => match fall_through K starts x with Some y => entered K n starts y | None => [] end
       end.
End Postprocess.

(** ** Lemmas: nodes and chains *)

Definition ips_of (st : profile) : list Z := map bc_ip (nodes st).

Record wf (st : profile) : Prop := {
  wf_distinct : NoDup (ips_of st);
  wf_chain : forall h b, b ∈ chain st h <-> exists n, nodes st !! b = Some n /\ hash (bc_ip n) = h;
  wf_once : forall h, NoDup (chain st h)
}.

(** Only the contents of nodes differ. *)
Definition shape (st st' : profile) : Prop := ips_of st' = ips_of st /\ blocks st' = blocks st.

Lemma shape_refl st : shape st st.
Proof. done. Qed.
Lemma shape_trans st1 st2 st3 : shape st1 st2 -> shape st2 st3 -> shape st1 st3.
Proof. unfold shape. intuition congruence. Qed.

Lemma node_lookup st b n : nodes st !! b = Some n -> node st b = n.
Proof. intros H. by apply nth_lookup_Some. Qed.

Lemma lookup_node st b : (b < length (nodes st))%nat -> nodes st !! b = Some (node st b).
Proof. intros H. unfold node. by apply lookup_nth_lt. Qed.

Lemma node_ip st b : bc_ip (node st b) = nth b (ips_of st) 0.
Proof. unfold node, ips_of. change 0 with (bc_ip no_block). by rewrite map_nth. Qed.

Lemma shape_ip st st' b : shape st st' -> bc_ip (node st' b) = bc_ip (node st b).
Proof. intros [E _]. by rewrite !node_ip, E. Qed.

Lemma shape_length st st' : shape st st' -> length (nodes st') = length (nodes st).
Proof. intros [E _]. apply (f_equal length) in E. unfold ips_of in E. by rewrite !length_map in E. Qed.

Lemma shape_lookup st st' ip : shape st st' -> block_lookup ip st' = block_lookup ip st.
Proof.
  intros S. unfold block_lookup, chain. destruct S as [E1 E2]. rewrite E2.
  generalize (default [] (blocks st !! hash ip)). intros l. induction l as [|b l IH]; [done|]. cbn [List.find].
  rewrite (shape_ip st st') by done. by rewrite IH.
Qed.

Lemma shape_wf st st' : shape st st' -> wf st -> wf st'.
Proof.
  intros S [W1 W2 W3]. pose proof S as [E1 E2]. constructor.
  - by rewrite E1.
  - intros h b. replace (chain st' h) with (chain st h) by (unfold chain; by rewrite E2). rewrite W2. pose proof (shape_length _ _ S) as L.
    split; intros (n & Hn & Hh); pose proof (lookup_lt_Some _ _ _ Hn).
    + exists (node st' b). split; [apply lookup_node; lia|]. rewrite (shape_ip _ _ _ S). by rewrite (node_lookup _ _ _ Hn).
    + exists (node st b). split; [apply lookup_node; lia|]. rewrite <- (shape_ip _ _ b S). by rewrite (node_lookup _ _ _ Hn).
  - unfold chain. by rewrite E2.
Qed.

Lemma block_lookup_some ip st b :
  wf st -> block_lookup ip st = Some b <-> exists n, nodes st !! b = Some n /\ bc_ip n = ip.
Proof.
  intros [W1 W2 W3]. unfold block_lookup. split.
  - intros H. apply find_some in H as [Hin Hb]. apply Z.eqb_eq in Hb.
    apply list_elem_of_In, W2 in Hin as (n & Hn & _). exists n. by rewrite <- Hb, (node_lookup _ _ _ Hn).
  - intros (n & Hn & <-). assert (Hin : b ∈ chain st (hash (bc_ip n))) by (apply W2; by exists n).
    destruct (List.find _ _) as [c|] eqn:F.
    + apply find_some in F as [Hc Ec]. apply Z.eqb_eq in Ec. apply list_elem_of_In, W2 in Hc as (k & Hk & _).
      rewrite (node_lookup _ _ _ Hk) in Ec. f_equal.
      apply (NoDup_lookup _ _ _ (bc_ip n) W1); unfold ips_of; rewrite list_lookup_fmap; [by rewrite Hk; cbn; f_equal|by rewrite Hn].
    + apply list_elem_of_In in Hin. pose proof (find_none _ _ F b Hin) as H. cbv beta in H.
      by rewrite (node_lookup _ _ _ Hn), Z.eqb_refl in H.
Qed.

Lemma block_lookup_none ip st : wf st -> block_lookup ip st = None <-> ip ∉ ips_of st.
Proof.
  intros W. split.
  - intros H Hin. apply list_elem_of_lookup in Hin as [b Hb]. unfold ips_of in Hb. rewrite list_lookup_fmap in Hb.
    destruct (nodes st !! b) as [n|] eqn:Hn; [|done]. injection Hb as Hb.
    assert (block_lookup ip st = Some b) by (apply block_lookup_some; [done|by exists n]). congruence.
  - intros Hin. destruct (block_lookup ip st) as [b|] eqn:E; [|done].
    apply (block_lookup_some ip st b W) in E as (n & Hn & <-). destruct Hin. unfold ips_of.
    apply list_elem_of_lookup. exists b. by rewrite list_lookup_fmap, Hn.
Qed.

Lemma update_shape b f st : (forall n, bc_ip (f n) = bc_ip n) -> shape st (update b f st).
Proof.
  intros Hf. split; [|done]. unfold ips_of, update. cbn [nodes]. revert b. induction (nodes st) as [|n l IH]; intros [|b]; try done.
  - cbn. by rewrite Hf.
  - cbn. by rewrite IH.
Qed.

Lemma update_node b f st x :
  node (update b f st) x = if decide (x = b /\ (b < length (nodes st))%nat) then f (node st b) else node st x.
Proof.
  unfold node, update. cbn [nodes]. destruct (decide (x = b)) as [->|Hx].
  - destruct (Nat.lt_ge_cases b (length (nodes st))) as [Hb|Hb].
    + rewrite decide_True by done. apply nth_lookup_Some. rewrite list_lookup_alter_eq, (lookup_nth_lt _ _ no_block) by done. done.
    + rewrite decide_False by lia. by rewrite !nth_overflow by (rewrite ?length_alter; lia).
  - rewrite decide_False by tauto. rewrite !nth_lookup. by rewrite list_lookup_alter_ne by done.
Qed.

(** ** Counting *)

Lemma insert_wf ip st :
  wf st -> ip ∉ ips_of st ->
  wf (mkProfile (nodes st ++ [mkBlock ip None 0 []]) (<[hash ip := length (nodes st) :: chain st (hash ip)]> (blocks st))).
Proof.
  intros [W1 W2 W3] Hip. set (st' := mkProfile _ _).
  assert (HC : forall h, chain st' h = if decide (h = hash ip) then length (nodes st) :: chain st h else chain st h).
  { intros h. unfold chain, st'. cbn [blocks]. destruct (decide (h = hash ip)) as [->|Hn].
    - by rewrite lookup_insert_eq.
    - by rewrite lookup_insert_ne. }
  assert (HN : forall h, length (nodes st) ∉ chain st h).
  { intros h (n & Hn & _)%W2. apply lookup_lt_Some in Hn. lia. }
  assert (HL : forall b n, nodes st' !! b = Some n <->
    nodes st !! b = Some n \/ b = length (nodes st) /\ n = mkBlock ip None 0 []).
  { intros b n. unfold st'. cbn [nodes]. rewrite lookup_app_Some. split.
    - intros [H|[H1 H2]]; [by left|right]. apply list_lookup_singleton_Some in H2 as [H2 <-]. split; [lia|done].
    - intros [H|[-> ->]]; [by left|right]. rewrite Nat.sub_diag. done. }
  constructor.
  - unfold ips_of, st'. cbn [nodes]. rewrite map_app. apply list.NoDup_app. split; [exact W1|].
    split; [intros x Hx H; apply list_elem_of_singleton in H as ->; by apply Hip|apply NoDup_singleton].
  - intros h b. rewrite HC. setoid_rewrite HL. destruct (decide (h = hash ip)) as [->|Hh].
    + rewrite elem_of_cons, W2. split.
      * intros [->|(n & Hn & Hq)]; [eexists; split; [right; split; reflexivity|done]|exists n; split; [by left|done]].
      * intros (n & [Hn|[-> _]] & Hq); [right; by exists n|by left].
    + rewrite W2. split; intros (n & Hn & Hq).
      * exists n. split; [by left|done].
      * destruct Hn as [Hn|[_ ->]]; [by exists n|]. by destruct Hh.
  - intros h. rewrite HC. destruct (decide (h = hash ip)); [|apply W3]. apply list.NoDup_cons. split; [apply HN|apply W3].
Qed.

(** The table after the calls of [vm_count_block] for [ips]. *)
Record counted (ips : list Z) (st : profile) : Prop := {
  ct_wf : wf st;
  ct_starts : forall ip, ip ∈ ips_of st <-> ip ∈ ips;
  ct_nodes : forall b n, nodes st !! b = Some n ->
    fallthrough n = None /\ insts n = [] /\ bc_count n = Z.of_nat (length (filter (fun x => x = bc_ip n) ips))
}.

Lemma filter_snoc_length {A} (P : A -> Prop) `{!forall x, Decision (P x)} l x :
  length (filter P (l ++ [x])) = (length (filter P l) + (if decide (P x) then 1 else 0))%nat.
Proof. rewrite list.filter_app, length_app. f_equal. rewrite filter_cons. by destruct (decide (P x)). Qed.

Lemma count_wf ips st : counted ips st -> forall ip, counted (ips ++ [ip]) (vm_count_block ip st).
Proof.
  intros [W S N] ip. unfold vm_count_block, block_insert.
  assert (H : exists st1 b, (match block_lookup ip st with
      | Some b => (b, st)
      | None => (length (nodes st), mkProfile (nodes st ++ [mkBlock ip None 0 []])
                   (<[hash ip := length (nodes st) :: chain st (hash ip)]> (blocks st)))
      end) = (b, st1) /\ wf st1 /\ (exists n, nodes st1 !! b = Some n /\ bc_ip n = ip) /\
      (forall x, x ∈ ips_of st1 <-> x ∈ ips \/ x = ip) /\
      forall c n, nodes st1 !! c = Some n ->
        fallthrough n = None /\ insts n = [] /\ bc_count n = Z.of_nat (length (filter (fun x => x = bc_ip n) ips))).
  { destruct (block_lookup ip st) as [b|] eqn:E.
    - exists st, b. split; [done|]. split; [done|]. apply (block_lookup_some ip st b W) in E. split; [done|].
      split; [|done]. intros x. rewrite S. split; [by left|]. intros [?| ->]; [done|]. apply S.
      destruct E as (n & Hn & <-). apply list_elem_of_lookup. exists b. unfold ips_of. by rewrite list_lookup_fmap, Hn.
    - apply (block_lookup_none ip st W) in E. eexists _, _. split; [done|]. split; [by apply insert_wf|].
      cbn [nodes]. split; [exists (mkBlock ip None 0 []); split; [|done]; by rewrite lookup_app_r, Nat.sub_diag by lia|].
      split.
      + intros x. unfold ips_of. cbn [nodes]. rewrite map_app, elem_of_app. cbn [map bc_ip].
        rewrite list_elem_of_singleton. fold (ips_of st). by rewrite S.
      + intros c n [Hn|[_ Hn]]%lookup_app_Some; [by eapply N|]. apply list_lookup_singleton_Some in Hn as [_ <-].
        cbn [bc_ip fallthrough insts bc_count]. split; [done|]. split; [done|].
        destruct (filter (fun x => x = ip) ips) as [|y l] eqn:F; [done|]. exfalso.
        assert (Hy : y ∈ filter (fun x => x = ip) ips) by (rewrite F; left).
        apply list_elem_of_filter in Hy as [-> Hy]. by apply E, S. }
  destruct H as (st1 & b & -> & W1 & (nb & Hb & Eb) & S1 & N1).
  assert (SH : shape st1 (add_count b 1 st1)) by (by apply update_shape).
  constructor; [by apply (shape_wf st1)| |].
  - intros x. destruct SH as [-> _]. rewrite S1, elem_of_app, list_elem_of_singleton. done.
  - intros c n Hc. rewrite filter_snoc_length. pose proof (lookup_lt_Some _ _ _ Hc) as Hl.
    rewrite (shape_length _ _ SH) in Hl. apply node_lookup in Hc. unfold add_count in Hc. rewrite update_node in Hc.
    pose proof (lookup_node st1 c Hl) as Hc1. destruct (N1 _ _ Hc1) as (F1 & F2 & F3).
    destruct (decide (c = b /\ (b < length (nodes st1))%nat)) as [[-> _]|Hne].
    + subst n. cbn [bc_ip fallthrough insts bc_count]. split; [done|]. split; [done|].
      rewrite F3. rewrite decide_True by (rewrite (node_lookup _ _ _ Hb); done). lia.
    + subst n. split; [done|]. split; [done|]. rewrite F3. rewrite decide_False; [lia|].
      intros E. apply Hne. split; [|apply lookup_lt_Some in Hb; done].
      apply (NoDup_lookup (ips_of st1) _ _ ip (wf_distinct _ W1)); unfold ips_of; rewrite list_lookup_fmap.
      * rewrite Hc1. cbn. by f_equal.
      * rewrite Hb. cbn. by f_equal.
Qed.

Lemma filter_ext_in {A} (P Q : A -> Prop) `{!forall x, Decision (P x)} `{!forall x, Decision (Q x)} (l : list A) :
  (forall x, x ∈ l -> P x <-> Q x) -> filter P l = filter Q l.
Proof.
  induction l as [|x l IH]; intros HPQ; [done|]. rewrite !filter_cons.
  rewrite IH by (intros y Hy; apply HPQ; by right). specialize (HPQ x ltac:(left)).
  destruct (decide (P x)), (decide (Q x)); tauto || done.
Qed.

Definition count_all (ips : list Z) : profile := fold_left (fun st ip => vm_count_block ip st) ips (mkProfile [] ∅).

Lemma count_all_ok ips : counted ips (count_all ips).
Proof.
  unfold count_all. rewrite <- fold_left_rev_right. rewrite <- (rev_involutive ips) at 1. generalize (rev ips). intros l.
  induction l as [|ip l IH]; cbn [rev fold_right]; [|by apply count_wf].
  constructor; [|done|done]. constructor; [constructor| |intros; constructor].
  intros h b. unfold chain. cbn [blocks nodes]. rewrite lookup_empty. split; [by intros ?%not_elem_of_nil|by intros (n & ? & _)].
Qed.

(** ** Falling through *)

Section Falls.
Context (next : Z -> option Z) (starts : list Z).
Context (NEXT : forall x y, next x = Some y -> x < y /\ y ∈ starts).

(** The blocks entered by falling through from [x], when only the blocks [P]
    fall through; [x] itself first. *)
Fixpoint follow (P : list Z) (n : nat) (x : Z) : list Z :=
  x :: match n with
       | O => []
       | S n => match (if bool_decide (x ∈ P) then next x else None) with
                | Some y => follow P n y
                | None => []
                end
       end.

Definition falls (P : list Z) (x y : Z) : Prop := x ∈ P /\ next x = Some y.

(** How often control can fall through from [x] on. *)
Definition above (x : Z) : nat := length (filter (fun y => x < y) starts).

Lemma above_lt x y : x < y -> y ∈ starts -> (above y < above x)%nat.
Proof using.
  intros Hxy Hy. unfold above. clear NEXT. induction starts as [|z l IH]; [by apply not_elem_of_nil in Hy|].
  rewrite !filter_cons. apply elem_of_cons in Hy as [->|Hy].
  - rewrite decide_False, decide_True by lia. cbn [length].
    assert (H : forall l' : list Z, (length (filter (fun y => z < y)%Z l') <= length (filter (fun y => x < y)%Z l'))%nat);
      [|specialize (H l); lia].
    clear -Hxy. induction l' as [|w l' IH]; [done|]. rewrite !filter_cons.
    destruct (decide (z < w)); destruct (decide (x < w)); cbn [length]; lia.
  - specialize (IH Hy). destruct (decide (y < z)); destruct (decide (x < z)); cbn [length]; lia.
Qed.

Lemma falls_above P x y : falls P x y -> x < y /\ (above y < above x)%nat.
Proof using NEXT. intros [_ H]. destruct (NEXT x y H) as [H1 H2]. split; [done|by apply above_lt]. Qed.

Lemma above_length x : (above x <= length starts)%nat.
Proof using. apply length_filter. Qed.

Lemma rtc_falls_le P x y : rtc (falls P) x y -> x <= y.
Proof using NEXT. induction 1 as [|x y z [H _]%falls_above _ IH]; lia. Qed.

Lemma elem_of_follow P n x y : (above x <= n)%nat -> y ∈ follow P n x <-> rtc (falls P) x y.
Proof using NEXT.
  revert x. induction n as [|n IH]; intros x Hn; cbn [follow].
  - split; [by intros ->%list_elem_of_singleton|]. intros H. destruct H as [|x y z H _]; [by left|].
    apply falls_above in H as [_ H]. lia.
  - rewrite elem_of_cons. split.
    + intros [->|H]; [done|]. case_bool_decide as HP; [|by apply not_elem_of_nil in H].
      destruct (next x) as [z|] eqn:E; [|by apply not_elem_of_nil in H].
      assert (F : falls P x z) by done. pose proof (falls_above P x z F) as [_ Ha].
      apply rtc_l with z; [done|]. apply IH; [lia|done].
    + intros H. destruct H as [|x z y F H]; [by left|right]. pose proof (falls_above P x z F) as [_ Ha].
      destruct F as [HP E]. rewrite bool_decide_eq_true_2, E by done. apply IH; [lia|done].
Qed.

(** Processing the block [b]. *)
Lemma rtc_falls_add P b x y :
  b ∉ P -> rtc (falls (b :: P)) x y <->
  rtc (falls P) x y \/ rtc (falls P) x b /\ exists m, next b = Some m /\ rtc (falls P) m y.
Proof using NEXT.
  intros Hb. split.
  - induction 1 as [x|x z y [Hx E] _ IH]; [by left|].
    apply elem_of_cons in Hx as [->|Hx].
    + right. split; [done|]. exists z. split; [done|]. destruct IH as [IH|[_ (m & Em & IH)]]; [done|].
      pose proof (rtc_falls_le P m y IH). destruct (NEXT b m Em) as [H1 _]. destruct (NEXT b z E) as [H2 _].
      rewrite E in Em. injection Em as <-. done.
    + destruct IH as [IH|[IH1 IH2]]; [left|right; split; [|done]]; by apply rtc_l with z.
  - assert (I : forall u v, rtc (falls P) u v -> rtc (falls (b :: P)) u v).
    { intros u v. induction 1 as [|u v w [Hu E] _ IH]; [done|]. apply rtc_l with v; [|done]. split; [by right|done]. }
    intros [H|[H (m & E & H2)]]; [by apply I|]. etrans; [by apply I|]. apply rtc_l with m; [split; [left|done]|by apply I].
Qed.

(** A block is reached in one way only. *)
Lemma rtc_falls_exclusive P b x y m :
  b ∉ P -> next b = Some m -> rtc (falls P) x y -> rtc (falls P) x b -> rtc (falls P) m y -> False.
Proof using NEXT.
  intros Hb E Hxy Hxb Hmy. pose proof (rtc_falls_le P m y Hmy). destruct (NEXT b m E) as [Hlt _].
  assert (y <= b); [|lia]. clear Hmy E Hlt. revert y H Hxy. induction Hxb as [b|x z b [Hx E] Hzb IH]; intros y H Hxy.
  - destruct Hxy as [|? ? ? [? _] _]; [lia|done].
  - destruct Hxy as [|x z' y [_ E'] Hzy]; [|rewrite E in E'; injection E' as <-; by apply (IH Hb y)].
    pose proof (rtc_falls_le P z b Hzb). destruct (NEXT x z E). lia.
Qed.

(** The entries of a block after [b] has been processed. *)
Lemma follow_add P b n m y (l : list Z) :
  (length starts <= n)%nat -> b ∉ P -> next b = Some m ->
  length (filter (fun x => y ∈ follow (b :: P) n x) l) =
  (length (filter (fun x => y ∈ follow P n x) l) +
   if decide (y ∈ follow P n m) then length (filter (fun x => b ∈ follow P n x) l) else 0)%nat.
Proof using NEXT.
  intros Hn Hb E. assert (A : forall x, (above x <= n)%nat) by (intros x; pose proof (above_length x); lia).
  induction l as [|x l IH]; [by destruct (decide _)|]. rewrite !filter_cons.
  assert (HP : y ∈ follow (b :: P) n x <-> y ∈ follow P n x \/ b ∈ follow P n x /\ y ∈ follow P n m).
  { rewrite !elem_of_follow by done. rewrite (rtc_falls_add P b x y Hb). rewrite E. split.
    - intros [H|[H (m' & [= <-] & H')]]; [by left|by right].
    - intros [H|[H H']]; [by left|right; split; [done|by exists m]]. }
  assert (HX : y ∈ follow P n x -> b ∈ follow P n x -> y ∈ follow P n m -> False).
  { rewrite !elem_of_follow by done. by apply (rtc_falls_exclusive P b x y m). }
  destruct (decide (y ∈ follow (b :: P) n x)) as [D1|D1]; destruct (decide (y ∈ follow P n x)) as [D2|D2];
    destruct (decide (b ∈ follow P n x)) as [D3|D3]; destruct (decide (y ∈ follow P n m)) as [D4|D4];
    cbn [length] in *; first [lia|exfalso; tauto].
Qed.

Lemma follow_none P b n y (l : list Z) :
  (length starts <= n)%nat -> b ∉ P -> next b = None ->
  length (filter (fun x => y ∈ follow (b :: P) n x) l) = length (filter (fun x => y ∈ follow P n x) l).
Proof using NEXT.
  intros Hn Hb E. assert (A : forall x, (above x <= n)%nat) by (intros x; pose proof (above_length x); lia).
  f_equal. apply list_filter_iff. intros x. rewrite !elem_of_follow by done.
  rewrite (rtc_falls_add P b x y Hb). split; [|by left]. intros [H|[_ (m & Em & _)]]; [done|congruence].
Qed.
End Falls.

(** ** Postprocessing *)

Lemma update_update b f g st : update b f (update b g st) = update b (fun n => f (g n)) st.
Proof. unfold update. cbn [nodes blocks]. f_equal. generalize (nodes st). intros l. revert b. induction l as [|n l IH]; intros [|b]; [done..|]. cbn. by rewrite IH. Qed.

Lemma update_ext b f g st : (forall n, f n = g n) -> update b f st = update b g st.
Proof. intros H. unfold update. f_equal. apply list_alter_ext; [intros x _; apply H|done]. Qed.

(** The names are appended one after the other. *)
Definition add_insts (b : nat) (names : list string) : profile -> profile :=
  update b (fun n => mkBlock (bc_ip n) (fallthrough n) (bc_count n) (insts n ++ names)).

Lemma add_insts_app b l1 l2 st : add_insts b l2 (add_insts b l1 st) = add_insts b (l1 ++ l2) st.
Proof. unfold add_insts. rewrite update_update. apply update_ext. intros n. cbn. by rewrite app_assoc. Qed.

Lemma add_insts_nil b st : add_insts b [] st = st.
Proof.
  unfold add_insts, update. destruct st as [ns bl]. cbn [nodes blocks]. f_equal. apply list_alter_id.
  intros [? ? ? ?]. cbn. by rewrite app_nil_r.
Qed.

Lemma add_insts_fold b names st : fold_left (fun st name => add_inst b name st) names st = add_insts b names st.
Proof.
  revert st. induction names as [|x l IH]; intros st; cbn [fold_left]; [by rewrite add_insts_nil|].
  rewrite IH. change (add_inst b x st) with (add_insts b [x] st). apply add_insts_app.
Qed.

Lemma add_insts_shape b names st : shape st (add_insts b names st).
Proof. by apply update_shape. Qed.

Section PostprocessOk.
Context (decode : Z -> option (list string * nat * bool)) (starts : list Z) (K : nat).
Context (LEN : forall ip names n ends, decode ip = Some (names, n, ends) -> (1 <= n)%nat).
Context (ENDS : forall ip, ip ∈ starts -> is_Some (scan decode K starts ip)).

Abbreviation scan := (Profile.scan decode).

Abbreviation next := (fall_through decode K starts).
Definition block_insts (ip : Z) : list string := default [] (fst <$> scan K starts ip).

Lemma scan_next k ip names y : scan k starts ip = Some (names, Some y) -> ip < y /\ y ∈ starts.
Proof using LEN.
  revert ip names. induction k as [|k IH]; intros ip names; cbn [Profile.scan]; [done|].
  destruct (default _ (decode ip)) as [[ns n] ends] eqn:D.
  assert (Hn : (1 <= n)%nat).
  { destruct (decode ip) as [[[ns' n'] e']|] eqn:E; [|injection D as <- <- <-; done].
    injection D as -> -> ->. by apply (LEN _ _ _ _ E). }
  destruct ends; [done|]. case_bool_decide as H.
  - intros [= <- <-]. split; [lia|done].
  - destruct (scan k starts (ip + 8 * Z.of_nat n)) as [[ns' z]|] eqn:E; [|done]. cbn [mbind option_bind fst snd].
    intros [= <- ->]. destruct (IH _ _ E). split; [lia|done].
Qed.

Lemma next_ok x y : next x = Some y -> x < y /\ y ∈ starts.
Proof using LEN.
  unfold fall_through. destruct (scan K starts x) as [[names z]|] eqn:E; [|done]. cbn. intros ->. by apply (scan_next K x names).
Qed.

Abbreviation collect := (Profile.collect decode).

Lemma collect_ok k b ip st names nx :
  wf st -> (forall x, x ∈ ips_of st <-> x ∈ starts) -> scan k starts ip = Some (names, nx) ->
  collect k b ip st = Some (add_insts b names st, y ← nx; block_lookup y st).
Proof using.
  revert ip st names. induction k as [|k IH]; intros ip st names W S; cbn [Profile.scan Profile.collect]; [done|].
  destruct (default _ (decode ip)) as [[ns n] ends]. rewrite add_insts_fold.
  set (st1 := add_insts b ns st). assert (SH : shape st st1) by apply add_insts_shape.
  assert (W1 : wf st1) by (by apply (shape_wf st)).
  assert (S1 : forall x, x ∈ ips_of st1 <-> x ∈ starts) by (intros x; destruct SH as [-> _]; apply S).
  destruct ends; [by intros [= <- <-]|]. rewrite (shape_lookup _ _ _ SH). set (ip' := ip + _) in *.
  case_bool_decide as H.
  - intros [= <- <-]. destruct (block_lookup ip' st) as [m|] eqn:E; [cbn [mbind option_bind]; by rewrite E|].
    apply (block_lookup_none _ _ W) in E. by destruct E; apply S.
  - destruct (scan k starts ip') as [[ns' z]|] eqn:E; [|done]. cbn [mbind option_bind fst snd]. intros [= <- ->].
    assert (block_lookup ip' st = None) as ->.
    { apply (block_lookup_none _ _ W). intros Hin. by apply H, S. }
    rewrite (IH ip' st1 ns' W1 S1 E). unfold st1 at 1. rewrite add_insts_app.
    destruct nx as [y|]; [|done]. cbn [mbind option_bind]. by rewrite (shape_lookup _ _ _ SH).
Qed.

Context (st0 : profile).
Context (W0 : wf st0) (S0 : forall x, x ∈ ips_of st0 <-> x ∈ starts).

Abbreviation follow := (Profile.follow next).
Abbreviation N := (length starts).

(** The node at an address. *)
Lemma lookup_start st x : shape st0 st -> x ∈ starts ->
  exists b, block_lookup x st0 = Some b /\ (b < length (nodes st))%nat /\ bc_ip (node st b) = x.
Proof using W0 S0.
  intros SH Hx. destruct (block_lookup x st0) as [b|] eqn:E.
  - exists b. split; [done|]. apply (block_lookup_some x st0 b W0) in E as (n & Hn & <-).
    pose proof (lookup_lt_Some _ _ _ Hn). rewrite (shape_length _ _ SH), (shape_ip _ _ _ SH), (node_lookup _ _ _ Hn). done.
  - apply (block_lookup_none _ _ W0) in E. by destruct E; apply S0.
Qed.

Lemma node_inj st b c :
  shape st0 st -> (b < length (nodes st))%nat -> (c < length (nodes st))%nat -> bc_ip (node st b) = bc_ip (node st c) -> b = c.
Proof using W0.
  intros SH Hb Hc E. pose proof (wf_distinct _ (shape_wf _ _ SH W0)) as ND.
  apply (NoDup_lookup _ _ _ (bc_ip (node st b)) ND); unfold ips_of; rewrite list_lookup_fmap.
  - by rewrite (lookup_node _ _ Hb).
  - by rewrite (lookup_node _ _ Hc), E.
Qed.

(** The state when the blocks [P] have been processed. *)
Definition falls_to (P : list Z) (x : Z) : option nat :=
  if bool_decide (x ∈ P) then y ← next x; block_lookup y st0 else None.

Lemma propagate_ok P b c n m st :
  shape st0 st -> (forall k, (k < length (nodes st))%nat -> fallthrough (node st k) = falls_to P (bc_ip (node st k))) ->
  (b < length (nodes st))%nat -> (m < length (nodes st))%nat -> bc_ip (node st b) < bc_ip (node st m) ->
  bc_count (node st b) = c -> (above starts (bc_ip (node st m)) <= n)%nat ->
  exists st', propagate (S n) b (Some m) st = Some st' /\ shape st st' /\
    forall k, (k < length (nodes st))%nat ->
      node st' k = mkBlock (bc_ip (node st k)) (fallthrough (node st k))
        (bc_count (node st k) + if decide (bc_ip (node st k) ∈ follow P n (bc_ip (node st m))) then c else 0) (insts (node st k)).
Proof using LEN W0 S0.
  revert m st. induction n as [n IH] using lt_wf_ind. intros m st SH HF Hb Hm Hbm Hc Ha.
  cbn [propagate]. rewrite Hc. set (st1 := add_count m c st). set (x := bc_ip (node st m)) in *.
  assert (SH1 : shape st st1) by (by apply update_shape).
  assert (L1 : length (nodes st1) = length (nodes st)) by (by apply shape_length).
  assert (Hnode : forall k, (k < length (nodes st))%nat -> node st1 k =
    mkBlock (bc_ip (node st k)) (fallthrough (node st k))
      (bc_count (node st k) + if decide (k = m) then c else 0) (insts (node st k))).
  { intros k Hk. unfold st1, add_count. rewrite update_node. destruct (decide (k = m)) as [->|Hne].
    - by rewrite decide_True.
    - rewrite decide_False by tauto. rewrite Z.add_0_r. by destruct (node st k). }
  assert (Em : fallthrough (node st1 m) = falls_to P x) by (rewrite Hnode by done; by apply HF).
  rewrite Em. unfold falls_to.
  assert (HI : forall k, (k < length (nodes st))%nat -> bc_ip (node st k) = x -> k = m) by (intros k Hk; by apply (node_inj st)).
  assert (HO : forall k, (k < length (nodes st))%nat -> (if decide (k = m) then c else 0) = (if decide (bc_ip (node st k) = x) then c else 0)).
  { intros k Hk. destruct (decide (k = m)) as [->|Hne]; [by rewrite decide_True|]. rewrite decide_False; [done|]. intros E. by apply Hne, HI. }
  assert (F0 : (if bool_decide (x ∈ P) then y ← next x; block_lookup y st0 else None) = None ->
    (if bool_decide (x ∈ P) then next x else None) = None).
  { case_bool_decide; [|done]. destruct (next x) as [y|] eqn:E; [|done]. cbn [mbind option_bind].
    destruct (lookup_start st y SH) as (m2 & -> & _); [by apply next_ok in E as [_ E]|done]. }
  destruct (if bool_decide (x ∈ P) then y ← next x; block_lookup y st0 else None) as [m2|] eqn:E2.
  - case_bool_decide as HP; [|done]. destruct (next x) as [y|] eqn:Ey; [|done]. cbn [mbind option_bind] in E2.
    destruct (next_ok x y Ey) as [Hxy Hy]. pose proof (above_lt starts x y Hxy Hy) as Hab.
    destruct n as [|n]; [lia|]. destruct (lookup_start st1 y) as (m2' & E2' & Hm2 & Hy2); [by eapply shape_trans|done|].
    assert (m2' = m2) as -> by congruence.
    destruct (IH n ltac:(lia) m2 st1) as (st' & -> & SH' & HN').
    + by eapply shape_trans.
    + intros k Hk. rewrite L1 in Hk. rewrite Hnode by done. by apply HF.
    + by rewrite L1.
    + done.
    + rewrite Hy2, Hnode by done. cbn [bc_ip]. lia.
    + rewrite Hnode by done. cbn [bc_count]. rewrite decide_False; [lia|]. intros ->. unfold x in Hbm. lia.
    + rewrite Hy2. lia.
    + exists st'. split; [done|]. split; [by eapply shape_trans|]. intros k Hk. rewrite HN' by (by rewrite L1).
      rewrite Hnode by done. cbn [bc_ip fallthrough bc_count insts]. f_equal. rewrite <- Z.add_assoc. f_equal.
      rewrite HO by done. rewrite Hy2. cbn [Profile.follow]. rewrite bool_decide_eq_true_2, Ey by done.
      destruct (decide (bc_ip (node st k) ∈ follow P n y)) as [D|D].
      * rewrite (decide_True (P := _ ∈ _ :: _)) by (by right). rewrite decide_False; [lia|]. intros Ek. rewrite Ek in D.
        apply (elem_of_follow next starts next_ok) in D; [|lia]. apply (rtc_falls_le next starts next_ok) in D. lia.
      * destruct (decide (bc_ip (node st k) = x)) as [->|D'].
        -- rewrite (decide_True (P := _ ∈ _ :: _)) by left. lia.
        -- rewrite decide_False; [lia|]. rewrite elem_of_cons. by intros [?|?].
  - exists st1. split; [by destruct n|]. split; [done|]. intros k Hk. rewrite Hnode, HO by done. f_equal. f_equal.
    assert (EF : follow P n x = [x]) by (destruct n; [done|]; cbn [Profile.follow]; by rewrite F0).
    rewrite EF. destruct (decide (bc_ip (node st k) = x)) as [D|D]; destruct (decide (bc_ip (node st k) ∈ [x])) as [D'|D'];
      rewrite list_elem_of_singleton in D'; done.
Qed.

Lemma scan_more k k' ip r : (k <= k')%nat -> scan k starts ip = Some r -> scan k' starts ip = Some r.
Proof using.
  revert k' ip r. induction k as [|k IH]; intros [|k'] ip r Hk; [done..|lia|]. cbn [Profile.scan].
  destruct (default _ (decode ip)) as [[ns n] ends]. destruct ends; [done|]. case_bool_decide; [done|].
  destruct (scan k starts _) as [q|] eqn:E; [|done]. cbn [mbind option_bind]. by rewrite (IH k' _ q ltac:(lia) E).
Qed.

Definition entries (P : list Z) (x : Z) : Z := Z.of_nat (length (filter (fun z => x ∈ follow P N z) starts)).

Record posted (P : list Z) (st : profile) : Prop := {
  po_shape : shape st0 st;
  po_node : forall k, (k < length (nodes st))%nat ->
    let x := bc_ip (node st k) in
    node st k = mkBlock x (falls_to P x) (entries P x) (if bool_decide (x ∈ P) then block_insts x else [])
}.

Lemma node_start st k : shape st0 st -> (k < length (nodes st))%nat -> bc_ip (node st k) ∈ starts.
Proof using S0.
  intros SH Hk. apply S0. destruct SH as [<- _]. unfold ips_of. apply list_elem_of_lookup. exists k.
  by rewrite list_lookup_fmap, (lookup_node _ _ Hk).
Qed.

Lemma falls_to_other P b x : x <> b -> falls_to (b :: P) x = falls_to P x.
Proof using. intros Hx. unfold falls_to. by rewrite (bool_decide_ext (x ∈ b :: P) (x ∈ P)) by (rewrite elem_of_cons; tauto). Qed.

Lemma insts_other P b x : x <> b ->
  (if bool_decide (x ∈ b :: P) then block_insts x else []) = (if bool_decide (x ∈ P) then block_insts x else []).
Proof using. intros Hx. by rewrite (bool_decide_ext (x ∈ b :: P) (x ∈ P)) by (rewrite elem_of_cons; tauto). Qed.

Lemma postprocess_block_ok P b st fuel :
  posted P st -> (b < length (nodes st))%nat -> bc_ip (node st b) ∉ P -> (K <= fuel)%nat -> (S N <= fuel)%nat ->
  exists st', postprocess_block decode fuel b st = Some st' /\ posted (bc_ip (node st b) :: P) st'.
Proof using LEN ENDS W0 S0.
  intros [SH PN] Hb HP HK HN. unfold postprocess_block. set (x := bc_ip (node st b)) in *.
  pose proof (node_start st b SH Hb) as Hx. fold x in Hx. destruct (ENDS x Hx) as [[names nx] Es].
  assert (W : wf st) by (by apply (shape_wf st0)).
  assert (S1 : forall y, y ∈ ips_of st <-> y ∈ starts) by (intros y; destruct SH as [-> _]; apply S0).
  rewrite (collect_ok fuel b x st names nx W S1 (scan_more K fuel x _ HK Es)). cbn [mbind option_bind].
  set (st1 := add_insts b names st). assert (SH1 : shape st st1) by apply add_insts_shape.
  assert (En : next x = nx) by (unfold fall_through; by rewrite Es). assert (Ei : block_insts x = names) by (unfold block_insts; by rewrite Es).
  assert (HI : forall k, (k < length (nodes st))%nat -> k <> b -> bc_ip (node st k) <> x).
  { intros k Hk Hne E. by apply Hne, (node_inj st). }
  assert (HO : falls_to P x = None) by (unfold falls_to; by rewrite bool_decide_eq_false_2).
  assert (N1 : forall k, (k < length (nodes st))%nat -> let y := bc_ip (node st k) in
    node st1 k = mkBlock y (falls_to P y) (entries P y) (if bool_decide (y ∈ x :: P) then block_insts y else [])).
  { intros k Hk y. unfold st1, add_insts. rewrite update_node. destruct (decide (k = b)) as [->|Hne].
    - rewrite decide_True by done. rewrite (PN b Hb). cbn [bc_ip fallthrough bc_count insts]. fold x. unfold y. fold x.
      rewrite bool_decide_eq_false_2, bool_decide_eq_true_2 by (done || left). by rewrite Ei.
    - rewrite decide_False by tauto. rewrite (PN k Hk). unfold y. by rewrite (insts_other P x) by (by apply HI). }
  assert (EF : falls_to (x :: P) x = y ← nx; block_lookup y st0).
  { unfold falls_to. by rewrite bool_decide_eq_true_2, En by left. }
  destruct nx as [y|]; cbn [mbind option_bind] in *.
  - destruct (next_ok x y En) as [Hxy Hy]. destruct (lookup_start st y SH Hy) as (m & Em & Hm & Ey).
    rewrite (shape_lookup _ _ _ SH), Em. rewrite Em in EF.
    set (st2 := set_fallthrough b m st1). assert (SH2 : shape st1 st2) by (by apply update_shape).
    assert (SH02 : shape st st2) by (by eapply shape_trans).
    assert (N2 : forall k, (k < length (nodes st))%nat -> let y := bc_ip (node st k) in
      node st2 k = mkBlock y (falls_to (x :: P) y) (entries P y) (if bool_decide (y ∈ x :: P) then block_insts y else [])).
    { intros k Hk z. unfold st2, set_fallthrough. rewrite update_node, (shape_length _ _ SH1). destruct (decide (k = b)) as [->|Hne].
      - rewrite decide_True by done. rewrite (N1 b Hb). cbn [bc_ip fallthrough bc_count insts]. unfold z. fold x. by rewrite EF.
      - rewrite decide_False by tauto. rewrite (N1 k Hk). unfold z. by rewrite falls_to_other by (by apply HI). }
    assert (L2 : length (nodes st2) = length (nodes st)) by (by apply shape_length).
    assert (I2 : forall k, bc_ip (node st2 k) = bc_ip (node st k)) by (intros k; by apply shape_ip).
    destruct fuel as [|fuel]; [lia|].
    destruct (propagate_ok (x :: P) b (entries P x) fuel m st2) as (st' & E' & SH' & HN').
    + by eapply shape_trans.
    + intros k Hk. rewrite L2 in Hk. rewrite N2 by done. done.
    + by rewrite L2.
    + by rewrite L2.
    + rewrite !I2. fold x. by rewrite Ey.
    + by rewrite N2.
    + pose proof (above_length starts (bc_ip (node st2 m))). lia.
    + exists st'. split; [exact E'|]. constructor; [by eapply shape_trans; [|eapply shape_trans]|].
      intros k Hk z. rewrite (shape_length _ _ SH'), L2 in Hk. unfold z. rewrite (shape_ip _ _ k SH'), I2.
      rewrite HN' by (by rewrite L2). rewrite !I2, N2 by done. cbn [bc_ip fallthrough bc_count insts]. f_equal.
      unfold entries. rewrite (follow_add next starts next_ok P x N y) by done. rewrite Ey, Nat2Z.inj_add. f_equal.
      assert (IFF : bc_ip (node st k) ∈ follow (x :: P) fuel y <-> bc_ip (node st k) ∈ follow P N y).
      { pose proof (above_length starts y). rewrite !(elem_of_follow next starts next_ok) by lia.
        rewrite (rtc_falls_add next starts next_ok P x) by done. split; [|by left].
        intros [H'|[H' _]]; [done|]. apply (rtc_falls_le next starts next_ok) in H'. lia. }
      destruct (decide (bc_ip (node st k) ∈ follow (x :: P) fuel y)) as [D1|D1];
        destruct (decide (bc_ip (node st k) ∈ follow P N y)) as [D2|D2]; try done; tauto.
  - exists st1. split; [done|]. constructor; [by eapply shape_trans|]. intros k Hk z.
    rewrite (shape_length _ _ SH1) in Hk. unfold z. rewrite (shape_ip _ _ k SH1), N1 by done. f_equal.
    + destruct (Nat.eq_dec k b) as [->|Hne]; [fold x; by rewrite EF|by rewrite falls_to_other by (by apply HI)].
    + unfold entries. by rewrite (follow_none next starts next_ok P x N).
Qed.

Lemma postprocess_chain_ok P bs st fuel :
  posted P st -> NoDup bs -> (forall b, b ∈ bs -> (b < length (nodes st))%nat /\ bc_ip (node st b) ∉ P) ->
  (K <= fuel)%nat -> (S N <= fuel)%nat ->
  exists st' P', postprocess_chain decode fuel bs st = Some st' /\ posted P' st' /\
    forall x, x ∈ P' <-> x ∈ P \/ exists b, b ∈ bs /\ x = bc_ip (node st0 b).
Proof using LEN ENDS W0 S0.
  intros PO ND HB HK HN. revert P st PO HB. induction bs as [|b bs IH]; intros P st PO HB; cbn [postprocess_chain].
  { exists st, P. split; [done|]. split; [done|]. intros x. split; [by left|].
    intros [H|(b & Hb & _)]; [done|by apply not_elem_of_nil in Hb]. }
  apply list.NoDup_cons in ND as [Hb ND]. pose proof (po_shape _ _ PO) as SH. destruct (HB b ltac:(left)) as [Hl HP].
  destruct (postprocess_block_ok P b st fuel PO Hl HP HK HN) as (st1 & -> & PO1). cbn [mbind option_bind].
  pose proof (po_shape _ _ PO1) as SH1.
  destruct (IH ND (bc_ip (node st b) :: P) st1 PO1) as (st2 & P2 & -> & PO2 & HP2).
  - intros c Hc. destruct (HB c ltac:(by right)) as [Hlc HPc].
    rewrite (shape_length _ _ SH1), <- (shape_length _ _ SH). split; [done|].
    rewrite (shape_ip _ _ _ SH1), <- (shape_ip _ _ _ SH), elem_of_cons. intros [E|E]; [|done].
    apply (node_inj st) in E; [|done..]. by subst.
  - exists st2, P2. split; [done|]. split; [done|]. intros x. rewrite HP2, elem_of_cons, (shape_ip _ _ _ SH). split.
    + intros [[-> |H]|(c & Hc & ->)]; [right; exists b; split; [by left|done]|by left|right; exists c; split; [by right|done]].
    + intros [H|(c & Hc & ->)]; [left; by right|]. apply elem_of_cons in Hc as [->|Hc]; [left; by left|right; by exists c].
Qed.

Lemma hash_range x : 0 <= hash x < HASH_SIZE.
Proof using.
  unfold hash. change (HASH_SIZE - 1) with (Z.ones 20). rewrite Z.land_ones by lia.
  change HASH_SIZE with (2 ^ 20). by apply Z.mod_pos_bound.
Qed.

Lemma postprocess_from_ok n i P st fuel :
  posted P st -> (forall x, x ∈ P <-> x ∈ starts /\ hash x < i) -> (K <= fuel)%nat -> (S N <= fuel)%nat ->
  exists st' P', postprocess_from decode fuel n i st = Some st' /\ posted P' st' /\
    forall x, x ∈ P' <-> x ∈ starts /\ hash x < i + Z.of_nat n.
Proof using LEN ENDS W0 S0.
  intros PO HP HK HN. revert i P st PO HP. induction n as [|n IH]; intros i P st PO HP; cbn [postprocess_from].
  { exists st, P. split; [done|]. split; [done|]. by rewrite Z.add_0_r. }
  pose proof (po_shape _ _ PO) as SH. assert (EC : chain st i = chain st0 i) by (unfold chain; by destruct SH as [_ ->]).
  rewrite EC. destruct (postprocess_chain_ok P (chain st0 i) st fuel PO) as (st1 & P1 & -> & PO1 & HP1); [apply W0| |done|done|].
  - intros b (k & Hk & Hh)%W0. pose proof (lookup_lt_Some _ _ _ Hk). rewrite (shape_length _ _ SH), (shape_ip _ _ _ SH).
    split; [done|]. rewrite (node_lookup _ _ _ Hk), HP. lia.
  - cbn [mbind option_bind]. destruct (IH (i + 1) P1 st1 PO1) as (st2 & P2 & -> & PO2 & HP2).
    + intros x. rewrite HP1, HP. split.
      * intros [[H1 H2]|(b & (k & Hk & Hh)%W0 & ->)]; [split; [done|lia]|]. rewrite (node_lookup _ _ _ Hk). split; [|lia].
        apply S0. unfold ips_of. apply list_elem_of_lookup. exists b. by rewrite list_lookup_fmap, Hk.
      * intros [H1 H2]. destruct (Z.eq_dec (hash x) i) as [E|E]; [right|left; split; [done|lia]].
        destruct (lookup_start st0 x (shape_refl st0) H1) as (b & Eb & Hb & Ex). exists b. split; [|done].
        apply W0. exists (node st0 b). split; [by apply lookup_node|by rewrite Ex].
    + exists st2, P2. split; [done|]. split; [done|]. intros x. rewrite HP2. split; intros [H1 H2]; split; (done || lia).
Qed.

Lemma follow_all P n x : (forall y, y ∈ starts -> y ∈ P) -> x ∈ starts -> follow P n x = entered decode K n starts x.
Proof using LEN.
  intros HP. revert x. induction n as [|n IH]; intros x Hx; cbn [Profile.follow entered]; [done|].
  rewrite bool_decide_eq_true_2 by (by apply HP). destruct (next x) as [y|] eqn:E; [|done]. f_equal.
  apply IH. by apply next_ok in E as [_ E].
Qed.

(** Nothing has been processed yet. *)
Lemma posted_nil : (forall b n, nodes st0 !! b = Some n ->
    fallthrough n = None /\ insts n = [] /\ bc_count n = Z.of_nat (length (filter (fun x => x = bc_ip n) starts))) ->
  posted [] st0.
Proof using.
  intros H. constructor; [apply shape_refl|]. intros k Hk x. destruct (H k _ (lookup_node _ _ Hk)) as (H1 & H2 & H3).
  unfold x, entries. destruct (node st0 k) as [ip f c il]. cbn [bc_ip fallthrough bc_count insts] in *. subst. f_equal.
  f_equal. f_equal. apply list_filter_iff. intros z. destruct N; cbn [Profile.follow]; rewrite list_elem_of_singleton; done.
Qed.
End PostprocessOk.

(** ** Properties *)

(** C23: the profile is exact.  After a run that entered blocks at [ips], if every
    block ends or runs into another one within [K] instructions, [postprocess]
    finds for each block its instructions up to the next block or the end of
    straight-line code, links it to the block it falls through to, and gives it
    the number of entries to this or any other block from which control falls
    through to it, in whatever order the hash table lists the blocks. *)
Theorem profile_exact (decode : Z -> option (list string * nat * bool)) (ips : list Z) (K fuel : nat) :
  (forall ip names n ends, decode ip = Some (names, n, ends) -> (1 <= n)%nat) ->
  (forall ip, ip ∈ ips -> is_Some (scan decode K ips ip)) ->
  (K <= fuel)%nat -> (length ips < fuel)%nat ->
  exists st, postprocess decode fuel (count_all ips) = Some st /\
    forall ip, ip ∈ ips -> exists b n,
      block_lookup ip st = Some b /\ nodes st !! b = Some n /\ bc_ip n = ip /\
      Some (insts n) = fst <$> scan decode K ips ip /\
      fallthrough n = (y ← fall_through decode K ips ip; block_lookup y st) /\
      bc_count n = Z.of_nat (length (filter (fun x => ip ∈ entered decode K (length ips) ips x) ips)).
Proof.
  intros LEN ENDS HK HN. destruct (count_all_ok ips) as [W0 S0 N0].
  destruct (postprocess_from_ok decode ips K LEN ENDS (count_all ips) W0 S0 (Z.to_nat HASH_SIZE) 0 [] (count_all ips) fuel)
    as (st & P & E & [SH PN] & HP); [by apply posted_nil| |done|done|].
  { intros x. split; [by intros ?%not_elem_of_nil|]. intros [_ H]. pose proof (hash_range x). lia. }
  assert (HA : forall x, x ∈ ips -> x ∈ P).
  { intros x Hx. apply HP. split; [done|]. pose proof (hash_range x). unfold HASH_SIZE in *. lia. }
  exists st. split; [exact E|]. intros ip Hip.
  destruct (lookup_start ips (count_all ips) W0 S0 st ip SH Hip) as (b & Eb & Hb & Ei).
  exists b, (node st b). rewrite (shape_lookup _ _ _ SH). split; [done|]. split; [by apply lookup_node|]. split; [done|].
  rewrite (PN b Hb), Ei. cbn [insts fallthrough bc_count]. rewrite bool_decide_eq_true_2 by (by apply HA).
  split; [|split].
  - unfold block_insts. destruct (ENDS ip Hip) as [r ->]. done.
  - unfold falls_to. rewrite bool_decide_eq_true_2 by (by apply HA). destruct (fall_through decode K ips ip) as [y|]; [|done].
    cbn [mbind option_bind]. by rewrite (shape_lookup _ _ _ SH).
  - unfold entries. f_equal. f_equal. apply filter_ext_in. intros x Hx. by rewrite follow_all.
Qed.

(** *** A loop: [lit] with an operand at 1000 falls through to the block at 1016,
    which ends with a branch. *)
Definition demo_decode (ip : Z) : option (list string * nat * bool) :=
  if ip =? 1000 then Some (["lit"%string], 2%nat, false)
  else if ip =? 1016 then Some (["add"%string], 1%nat, false)
  else if ip =? 1024 then Some (["?branch"%string], 2%nat, true) else None.
Definition demo_ips : list Z := [1000; 1016; 1016; 1000].

Lemma profile_exact_witness :
  exists st, postprocess demo_decode 10 (count_all demo_ips) = Some st /\
    exists b n, block_lookup 1016 st = Some b /\ nodes st !! b = Some n /\
      insts n = ["add"%string; "?branch"%string] /\ bc_count n = 4.
Proof.
  destruct (profile_exact demo_decode demo_ips 5 10) as (st & E & H).
  - intros ip names n ends. unfold demo_decode. repeat (destruct (_ =? _); [intros [= <- <- <-]; lia|]). done.
  - intros ip Hip. unfold demo_ips in Hip. rewrite !elem_of_cons, elem_of_nil in Hip.
    destruct Hip as [-> |[-> |[-> |[-> |[]]]]]; vm_compute; by eexists.
  - lia.
  - cbn. lia.
  - exists st. split; [exact E|]. destruct (H 1016) as (b & n & Hb & Hn & _ & Hi & _ & Hc); [right; left|].
    exists b, n. split; [exact Hb|]. split; [exact Hn|]. vm_compute in Hi. injection Hi as Hi. split; [exact Hi|].
    rewrite Hc. vm_compute. reflexivity.
Defined.
