(* ===== verification/Peephole.v ===== *)
(** * The static peephole optimizer of Vmgen (engine/peephole.c, vmgen-ex/peephole.c)

    Virtual machines generated by Vmgen combine an instruction with the one
    compiled just before into a superinstruction if the generated table of
    combinations has one for the pair.  [prepare_peephole_table] turns the table
    into a hash table over the addresses of the instructions' code,
    [peephole_opt] searches it, and the code generator [gen_inst] of the example
    interpreter overwrites the last instruction with the combination.  The
    generated table and the lengths of the primitives' code are parameters. *)
From S2P Require Import Prelude Memory.

Definition HASH_SIZE : Z := 1024.

(** The numbers are primitive indices. *)
Record Combination := mkComb { prefix : nat; lastprim : nat; combination_prim : nat }.

Record Peeptable_entry := mkPeep { p_prefix : Z; p_lastprim : Z; p_combination_prim : Z }.

(** [pt]: the chains, first entry first. *)
Abbreviation peeptable := (gmap Z (list Peeptable_entry)).

Definition hash (i1 i2 : Z) : Z := Z.land (Z.shiftr (Z.lxor i1 i2) 4) (HASH_SIZE - 1).

Definition bucket (pt : peeptable) (h : Z) : list Peeptable_entry := default [] (pt !! h).

Lemma bucket_insert pt h l h' : bucket (<[h := l]> pt) h' = if decide (h' = h) then l else bucket pt h'.
Proof.
  unfold bucket. destruct (decide (h' = h)) as [->|Hn]; [by rewrite lookup_insert_eq|by rewrite lookup_insert_ne].
Qed.

Section Peephole.
Context (peephole_table : list Combination) (prim_length : nat -> Z).

Definition find_super (prim : nat) : option Combination :=
  List.find (fun c => (combination_prim c =? prim)%nat) peephole_table.

(** The recursion ends because a prefix has fewer components. *)
Fixpoint sum_length (fuel prim : nat) : option Z :=
  match fuel with
  | O => None
  | S fuel =>
      match find_super prim with
      | Some super => n ← sum_length fuel (prefix super); Some (n + prim_length (lastprim super))
      | None => Some (prim_length prim)
      end
  end.

(** The primitives whose names [print_super] prints. *)
Fixpoint print_super (fuel prim : nat) : option (list nat) :=
  match fuel with
  | O => None
  | S fuel =>
      match find_super prim with
      | Some super => ps ← print_super fuel (prefix super); Some (ps ++ [lastprim super])
      | None => Some [prim]
      end
  end.

(** [insts] holds the address of each primitive's code; [None] is an access
    outside it. *)
Fixpoint prepare (insts : list Z) (cs : list Combination) (pt : peeptable) : option peeptable :=
  match cs with
  | [] => Some pt
  | c :: cs =>
      p ← insts !! prefix c;
      l ← insts !! lastprim c;
      k ← insts !! combination_prim c;
      let h := hash p l in
      prepare insts cs (<[h := mkPeep p l k :: bucket pt h]> pt)
  end.
Definition prepare_peephole_table (insts : list Z) : option peeptable := prepare insts peephole_table ∅.

(** 0 is NULL. *)
Definition peephole_opt (use_super : bool) (inst1 inst2 : Z) (pt : peeptable) : Z :=
  if negb use_super then 0
  else match List.find (fun p => (inst1 =? p_prefix p) && (inst2 =? p_lastprim p)) (bucket pt (hash inst1 inst2)) with
       | Some p => p_combination_prim p
       | None => 0
       end.

(** ** Generating code *)

(** Cells are numbered; [last_compiled] is NULL at the start and behind a
    basic-block boundary. *)
Record codegen := mkCode { vmcode : Z -> Z; vmcodep : Z; last_compiled : option Z }.

Definition gen_inst (use_super : bool) (pt : peeptable) (i : Z) (st : codegen) : codegen :=
  let combo := match last_compiled st with
               | Some a => peephole_opt use_super (vmcode st a) i pt
               | None => 0
               end in
  match last_compiled st with
  | Some a =>
      if negb (combo =? 0) then mkCode (store (vmcode st) a combo) (vmcodep st) (Some a)
      else mkCode (store (vmcode st) (vmcodep st) i) (vmcodep st + 1) (Some (vmcodep st))
  | None => mkCode (store (vmcode st) (vmcodep st) i) (vmcodep st + 1) (Some (vmcodep st))
  end.

Definition genarg (x : Z) (st : codegen) : codegen :=
  mkCode (store (vmcode st) (vmcodep st) x) (vmcodep st + 1) (last_compiled st).

Definition bb_boundary (st : codegen) : codegen := mkCode (vmcode st) (vmcodep st) None.

Inductive gen_op : Type :=
| Inst (n : nat)          (** [gen_inst] of primitive [n] *)
| Arg (x : Z)
| Boundary.

Definition gen_step (use_super : bool) (pt : peeptable) (insts : list Z) (op : gen_op) (st : codegen) : option codegen :=
  match op with
  | Inst n => i ← insts !! n; Some (gen_inst use_super pt i st)
  | Arg x => Some (genarg x st)
  | Boundary => Some (bb_boundary st)
  end.

Fixpoint gen_steps (use_super : bool) (pt : peeptable) (insts : list Z) (ops : list gen_op) (st : codegen) : option codegen :=
  match ops with
  | [] => Some st
  | op :: ops => st ← gen_step use_super pt insts op st; gen_steps use_super pt insts ops st
  end.

(** ** Lemmas: the hash table *)

(** What the generated table promises: the combinations are different, and made
    of primitives with smaller numbers, the last of them not combined. *)
Record table_ok (nprims : nat) : Prop := {
  tk_range : forall c, c ∈ peephole_table -> (combination_prim c < nprims)%nat;
  tk_prefix : forall c, c ∈ peephole_table -> (prefix c < combination_prim c)%nat;
  tk_last : forall c, c ∈ peephole_table -> (lastprim c < combination_prim c)%nat /\ find_super (lastprim c) = None;
  tk_distinct : NoDup (map combination_prim peephole_table)
}.

Section Prepared.
Context (insts : list Z).

(** The table holds the entries [cs], the later ones first. *)
Definition holds_entries (cs : list Combination) (pt : peeptable) : Prop :=
  forall h e, e ∈ bucket pt h <-> hash (p_prefix e) (p_lastprim e) = h /\ exists c, c ∈ cs /\
    insts !! prefix c = Some (p_prefix e) /\ insts !! lastprim c = Some (p_lastprim e) /\
    insts !! combination_prim c = Some (p_combination_prim e).

Lemma prepare_ok cs done pt :
  (forall c, c ∈ cs -> is_Some (insts !! prefix c) /\ is_Some (insts !! lastprim c) /\ is_Some (insts !! combination_prim c)) ->
  holds_entries done pt ->
  exists pt', prepare insts cs pt = Some pt' /\ holds_entries (cs ++ done) pt'.
Proof using.
  revert done pt. induction cs as [|c cs IH]; intros done pt HC HP; cbn [prepare]; [by exists pt|].
  unfold holds_entries in *. destruct (HC c ltac:(left)) as ([p Ep] & [l El] & [k Ek]). rewrite Ep, El, Ek. cbn [mbind option_bind].
  destruct (IH (c :: done) (<[hash p l := mkPeep p l k :: bucket pt (hash p l)]> pt)) as (pt' & E & H).
  - intros d Hd. apply HC. by right.
  - intros h e. rewrite bucket_insert. destruct (decide (h = hash p l)) as [->|Hh].
    + rewrite elem_of_cons, HP. split.
      * intros [->|(H1 & d & Hd & H2)]; [split; [done|]; exists c; split; [left|done]|split; [done|]].
        exists d. split; [by right|done].
      * intros (H1 & d & Hd & H2 & H3 & H4). apply elem_of_cons in Hd as [->|Hd].
        -- left. destruct e. cbn in *. congruence.
        -- right. split; [done|]. by exists d.
    + rewrite HP. split.
      * intros (H1 & d & Hd & H2). split; [done|]. exists d. split; [by right|done].
      * intros (H1 & d & Hd & H2 & H3 & H4). split; [done|]. apply elem_of_cons in Hd as [->|Hd]; [|by exists d].
        destruct Hh. rewrite <- H1. congruence.
  - exists pt'. split; [exact E|]. intros h e. rewrite (H h e). split; intros (H1 & d & Hd & H2); split; try done;
      exists d; (split; [|done]); rewrite ?elem_of_app, ?elem_of_cons in *; tauto.
Qed.

Context (nprims : nat) (OK : table_ok nprims).
Context (LEN : length insts = nprims) (ND : NoDup insts) (NZ : forall i, i ∈ insts -> i <> 0).

Lemma prepare_table_ok : exists pt, prepare_peephole_table insts = Some pt /\ holds_entries peephole_table pt.
Proof using OK LEN.
  destruct (prepare_ok peephole_table [] ∅) as (pt & E & H).
  - intros c Hc. pose proof (tk_range _ OK c Hc). pose proof (tk_prefix _ OK c Hc). destruct (tk_last _ OK c Hc).
    repeat split; apply lookup_lt_is_Some_2; lia.
  - intros h e. unfold bucket. rewrite lookup_empty. split; [by intros ?%not_elem_of_nil|].
    by intros (_ & c & ?%not_elem_of_nil & _).
  - exists pt. split; [exact E|]. by rewrite app_nil_r in H.
Qed.

(** The search finds a combination of the pair, if there is one. *)
Lemma peephole_opt_ok pt i1 i2 n1 n2 :
  holds_entries peephole_table pt -> insts !! n1 = Some i1 -> insts !! n2 = Some i2 ->
  (peephole_opt true i1 i2 pt = 0 /\ ~ exists c, c ∈ peephole_table /\ prefix c = n1 /\ lastprim c = n2) \/
  exists c, c ∈ peephole_table /\ prefix c = n1 /\ lastprim c = n2 /\
    insts !! combination_prim c = Some (peephole_opt true i1 i2 pt) /\ peephole_opt true i1 i2 pt <> 0.
Proof using ND NZ OK LEN.
  intros HP E1 E2. unfold peephole_opt. cbn [negb]. destruct (List.find _ _) as [e|] eqn:F.
  - right. apply find_some in F as [Hin He]. apply list_elem_of_In, HP in Hin as (_ & c & Hc & H1 & H2 & H3).
    apply andb_true_iff in He as [He1 He2]. apply Z.eqb_eq in He1, He2. subst i1 i2. exists c. split; [done|].
    split; [by apply (NoDup_lookup _ _ _ _ ND H1 E1)|]. split; [by apply (NoDup_lookup _ _ _ _ ND H2 E2)|]. split; [done|].
    apply NZ. by eapply list_elem_of_lookup_2.
  - left. split; [done|]. intros (c & Hc & <- & <-).
    destruct (lookup_lt_is_Some_2 insts (combination_prim c)) as [k Ek]; [rewrite LEN; by apply OK|].
    assert (Hin : mkPeep i1 i2 k ∈ bucket pt (hash i1 i2)) by (apply HP; split; [done|by exists c]).
    apply list_elem_of_In in Hin. pose proof (find_none _ _ F _ Hin) as H. cbn in H. by rewrite !Z.eqb_refl in H.
Qed.

(** ** Components *)

Lemma find_super_some n c : find_super n = Some c -> c ∈ peephole_table /\ combination_prim c = n.
Proof using. intros [H1 H2]%find_some. apply Nat.eqb_eq in H2. by rewrite list_elem_of_In. Qed.

Lemma find_super_comb c : c ∈ peephole_table -> find_super (combination_prim c) = Some c.
Proof using OK.
  intros Hc. unfold find_super. destruct (List.find _ _) as [d|] eqn:F.
  - apply find_some in F as [Hd E]. apply Nat.eqb_eq in E. apply list_elem_of_In in Hd. f_equal.
    apply list_elem_of_lookup in Hc as [i Hi]. apply list_elem_of_lookup in Hd as [j Hj].
    assert (j = i) as ->; [|congruence].
    apply (NoDup_lookup _ _ _ (combination_prim c) (tk_distinct _ OK)); rewrite list_lookup_fmap; [rewrite Hj|by rewrite Hi].
    cbn. by f_equal.
  - apply list_elem_of_In in Hc. pose proof (find_none _ _ F _ Hc) as H. cbn in H. by rewrite Nat.eqb_refl in H.
Qed.

Lemma print_super_total fuel n : (n < fuel)%nat -> exists ps, print_super fuel n = Some ps /\ forall f, (n < f)%nat -> print_super f n = Some ps.
Proof using OK LEN.
  revert n. induction fuel as [|fuel IH]; intros n Hn; [lia|]. cbn [print_super].
  destruct (find_super n) as [c|] eqn:E.
  - pose proof (find_super_some n c E) as [Hc <-]. pose proof (tk_prefix _ OK c Hc) as Hp.
    destruct (IH (prefix c) ltac:(lia)) as (ps & -> & H). cbn [mbind option_bind]. eexists. split; [done|].
    intros [|f] Hf; [lia|]. cbn [print_super]. rewrite E. by rewrite H by lia.
  - eexists. split; [done|]. intros [|f] Hf; [lia|]. cbn [print_super]. by rewrite E.
Qed.

Definition components (n : nat) : list nat := default [] (print_super (S n) n).

Lemma components_base n : find_super n = None -> components n = [n].
Proof using. intros E. unfold components. cbn [print_super]. by rewrite E. Qed.

Lemma components_comb c : c ∈ peephole_table -> components (combination_prim c) = components (prefix c) ++ [lastprim c].
Proof using OK LEN.
  intros Hc. unfold components at 1. cbn [print_super]. rewrite (find_super_comb c Hc).
  destruct (print_super_total (S (prefix c)) (prefix c) ltac:(lia)) as (ps & E & H).
  rewrite H by (by apply OK). unfold components. by rewrite E.
Qed.

(** The length of a superinstruction's parts is the sum over its components. *)
Lemma sum_length_components fuel n : (n < fuel)%nat ->
  sum_length fuel n = Some (foldr (fun p l => prim_length p + l) 0 (components n)).
Proof using OK LEN.
  revert n. induction fuel as [|fuel IH]; intros n Hn; [lia|]. cbn [sum_length].
  destruct (find_super n) as [c|] eqn:E.
  - pose proof (find_super_some n c E) as [Hc <-]. pose proof (tk_prefix _ OK c Hc).
    rewrite (IH (prefix c)) by lia. cbn [mbind option_bind]. f_equal. rewrite components_comb by done.
    rewrite foldr_app. cbn [foldr]. generalize (components (prefix c)). intros l.
    induction l as [|p l IHl]; cbn [foldr]; [lia|]. rewrite <- IHl. lia.
  - rewrite components_base by done. cbn. f_equal. lia.
Qed.

(** ** Generated code *)

(** The instructions and arguments of the code, with primitive numbers. *)
Inductive item : Type :=
| Op (n : nat)
| Operand (x : Z).

Definition ops_of (code : list item) : list nat := concat (map (fun i => match i with Op n => components n | Operand _ => [] end) code).
Definition args_of (code : list item) : list Z := omap (fun i => match i with Op _ => None | Operand x => Some x end) code.
Definition item_cell (i : item) : option Z := match i with Op n => insts !! n | Operand x => Some x end.

Definition source_ops (ops : list gen_op) : list nat := concat (map (fun op => match op with Inst n => components n | _ => [] end) ops).
Definition source_args (ops : list gen_op) : list Z := omap (fun op => match op with Arg x => Some x | _ => None end) ops.

(** The state when [code] has been generated from [p0] on; the last instruction
    is where [last_compiled] points. *)
Record generated (p0 : Z) (m : Z -> Z) (code : list item) (st : codegen) : Prop := {
  gn_here : vmcodep st = p0 + Z.of_nat (length code);
  gn_cells : forall k i, code !! k = Some i -> item_cell i = Some (vmcode st (p0 + Z.of_nat k));
  gn_outside : forall a, (a < p0 \/ vmcodep st <= a) -> vmcode st a = m a;
  gn_last : forall a, last_compiled st = Some a -> exists l1 n l2,
    code = l1 ++ Op n :: l2 /\ a = p0 + Z.of_nat (length l1) /\ ops_of l2 = []
}.

Lemma ops_of_app l1 l2 : ops_of (l1 ++ l2) = ops_of l1 ++ ops_of l2.
Proof using. unfold ops_of. by rewrite map_app, concat_app. Qed.

Lemma args_of_app l1 l2 : args_of (l1 ++ l2) = args_of l1 ++ args_of l2.
Proof using. apply omap_app. Qed.

(** A cell is appended. *)
Lemma generated_snoc p0 m code st i v last :
  generated p0 m code st -> item_cell i = Some v ->
  (forall a, last = Some a -> (exists n, i = Op n /\ a = vmcodep st) \/ (exists x, i = Operand x /\ last_compiled st = Some a)) ->
  generated p0 m (code ++ [i]) (mkCode (store (vmcode st) (vmcodep st) v) (vmcodep st + 1) last).
Proof using LEN.
  intros [G1 G2 G3 G4] Hi HL. constructor; cbn [vmcode vmcodep last_compiled].
  - rewrite length_app. cbn [length]. lia.
  - intros k j [Hj|[Hk Hj]]%lookup_app_Some.
    + rewrite store_ne by (apply lookup_lt_Some in Hj; lia). by apply G2.
    + apply list_lookup_singleton_Some in Hj as [Hz <-]. replace (p0 + Z.of_nat k) with (vmcodep st) by lia. by rewrite store_eq.
  - intros a Ha. rewrite store_ne by lia. apply G3. lia.
  - intros a Ha. destruct (HL a Ha) as [(n & -> & ->)|(x & -> & Hl)].
    + exists code, n, []. split; [done|]. split; [done|done].
    + destruct (G4 a Hl) as (l1 & n & l2 & -> & -> & H). exists l1, n, (l2 ++ [Operand x]).
      split; [by rewrite <- app_assoc|]. split; [done|]. rewrite ops_of_app, H. done.
Qed.

Lemma gen_step_ok use_super pt op p0 m code st :
  holds_entries peephole_table pt -> generated p0 m code st ->
  (forall n, op = Inst n -> (n < nprims)%nat) ->
  exists st' code', gen_step use_super pt insts op st = Some st' /\ generated p0 m code' st' /\
    ops_of code' = ops_of code ++ source_ops [op] /\ args_of code' = args_of code ++ source_args [op] /\
    (length code <= length code' <= length code + 1)%nat.
Proof using OK LEN ND NZ.
  intros HP G Hop. destruct op as [n|x|]; cbn [gen_step].
  - destruct (lookup_lt_is_Some_2 insts n) as [i Ei]; [rewrite LEN; by apply Hop|]. rewrite Ei. cbn [mbind option_bind].
    unfold gen_inst. set (combo := match last_compiled st with Some a => _ | None => 0 end).
    assert (HA : exists st' code', mkCode (store (vmcode st) (vmcodep st) i) (vmcodep st + 1) (Some (vmcodep st)) = st' /\
      generated p0 m code' st' /\ ops_of code' = ops_of code ++ source_ops [Inst n] /\
      args_of code' = args_of code ++ source_args [Inst n] /\ (length code <= length code' <= length code + 1)%nat).
    { eexists _, (code ++ [Op n]). split; [done|]. split.
      { apply generated_snoc; [done|done|]. intros a [= <-]. left. by exists n. }
      rewrite ops_of_app, args_of_app, length_app. unfold ops_of at 2, source_ops. cbn. by split; [|split; [|lia]]. }
    destruct HA as (st1 & code1 & E1 & HA). rewrite E1. destruct (last_compiled st) as [a|] eqn:El; [|by exists st1, code1].
    destruct (Z.eqb_spec combo 0) as [Hz|Hz]; cbn [negb]; [by exists st1, code1|].
    pose proof G as [G1 G2 G3 G4]. destruct (G4 a El) as (l1 & n1 & l2 & Ec & Ea & Hl2).
    assert (En : code !! length l1 = Some (Op n1)) by (rewrite Ec; by apply list_lookup_middle).
    pose proof (G2 _ _ En) as Ecell. cbn [item_cell] in Ecell. rewrite <- Ea in Ecell.
    unfold combo in Hz |- *. destruct use_super; [|done].
    destruct (peephole_opt_ok pt _ _ n1 n HP Ecell Ei) as [[H0 _]|(c & Hc & Hp & Hl & Hk & _)]; [done|].
    set (k := peephole_opt true (vmcode st a) i pt) in *.
    eexists _, (l1 ++ Op (combination_prim c) :: l2). split; [done|].
    assert (EL : length (l1 ++ Op (combination_prim c) :: l2) = length code) by (rewrite Ec, !length_app; done).
    assert (Ha : p0 <= a < vmcodep st) by (rewrite G1, Ec, length_app; cbn [length]; lia).
    split; [constructor; cbn [vmcode vmcodep last_compiled]|].
    + by rewrite EL.
    + intros j it Hj. destruct (Nat.eq_dec j (length l1)) as [->|Hne].
      * rewrite list_lookup_middle in Hj by done. injection Hj as <-. rewrite <- Ea, store_eq. exact Hk.
      * rewrite store_ne by lia. apply G2. rewrite Ec. destruct (Nat.lt_ge_cases j (length l1)) as [H|H].
        -- rewrite lookup_app_l in Hj |- * by done. done.
        -- rewrite lookup_app_r in Hj |- * by done. destruct (j - length l1)%nat eqn:E; [lia|done].
    + intros b Hb. rewrite store_ne by lia. by apply G3.
    + intros b [= <-]. by exists l1, (combination_prim c), l2.
    + rewrite EL. split; [|split; [|lia]].
      * rewrite Ec, !ops_of_app. change (ops_of (Op (combination_prim c) :: l2)) with (components (combination_prim c) ++ ops_of l2).
        change (ops_of (Op n1 :: l2)) with (components n1 ++ ops_of l2). rewrite Hl2, !app_nil_r, components_comb by done.
        unfold source_ops. cbn [map concat]. destruct (tk_last _ OK c Hc) as [_ Hb]. rewrite Hl in Hb |- *.
        rewrite (components_base n) by done. rewrite Hp, app_nil_r. by rewrite app_assoc.
      * rewrite Ec, !args_of_app. cbn. by rewrite app_nil_r.
  - eexists _, (code ++ [Operand x]). split; [done|]. split.
    { apply generated_snoc; [done|done|]. intros a Ha. right. by exists x. }
    rewrite ops_of_app, args_of_app, length_app. unfold ops_of at 2, source_ops. cbn. by split; [|split; [|lia]].
  - eexists _, code. split; [done|]. destruct G as [G1 G2 G3 G4]. split; [by constructor|].
    unfold source_ops, source_args. cbn. rewrite !app_nil_r. split; [done|]. split; [done|lia].
Qed.

Lemma gen_steps_ok use_super pt ops p0 m code st :
  holds_entries peephole_table pt -> generated p0 m code st ->
  (forall n, Inst n ∈ ops -> (n < nprims)%nat) ->
  exists st' code', gen_steps use_super pt insts ops st = Some st' /\ generated p0 m code' st' /\
    ops_of code' = ops_of code ++ source_ops ops /\ args_of code' = args_of code ++ source_args ops /\
    (length code' <= length code + length ops)%nat.
Proof using OK LEN ND NZ.
  intros HP. revert code st. induction ops as [|op ops IH]; intros code st G Hops; cbn [gen_steps].
  { exists st, code. split; [done|]. split; [done|]. unfold source_ops, source_args. cbn. rewrite !app_nil_r. split; [done|]. split; [done|lia]. }
  destruct (gen_step_ok use_super pt op p0 m code st HP G) as (st1 & c1 & -> & G1 & E1 & E2 & L1).
  { intros n ->. apply Hops. left. }
  cbn [mbind option_bind]. destruct (IH c1 st1 G1) as (st2 & c2 & -> & G2 & E3 & E4 & L2).
  { intros n Hn. apply Hops. by right. }
  exists st2, c2. split; [done|]. split; [done|]. rewrite E3, E1, E4, E2, <- !app_assoc.
  change (op :: ops) with ([op] ++ ops). unfold source_ops, source_args. rewrite map_app, concat_app, omap_app.
  split; [done|]. split; [done|]. rewrite length_app. cbn [length]. lia.
Qed.
End Prepared.
End Peephole.

(** ** Properties *)

Lemma gen_steps_app use_super pt insts ops1 ops2 st :
  gen_steps use_super pt insts (ops1 ++ ops2) st = st1 ← gen_steps use_super pt insts ops1 st; gen_steps use_super pt insts ops2 st1.
Proof.
  revert st. induction ops1 as [|op ops1 IH]; intros st; [done|]. cbn [gen_steps app].
  destruct (gen_step use_super pt insts op st) as [st1|]; [|done]. cbn [mbind option_bind]. apply IH.
Qed.

(** C22: peephole optimisation preserves the program.  For a well-formed table of
    combinations and primitives with different code addresses, whatever
    instructions, arguments and block boundaries are generated before and behind
    any boundary, the code that results, read as items, consists of the same
    arguments in the same order and of instructions whose components are those
    of the instructions generated, on both sides of the boundary, so that a jump
    to the address recorded there runs what was generated behind it.  The code
    is not longer, and nothing outside it is written. *)
Theorem combined_code_equivalent (peephole_table : list Combination) (nprims : nat) (insts : list Z)
    (use_super : bool) (ops1 ops2 : list gen_op) (m : Z -> Z) (p0 : Z) :
  table_ok peephole_table nprims -> length insts = nprims -> NoDup insts -> (forall i, i ∈ insts -> i <> 0) ->
  (forall n, Inst n ∈ ops1 ++ ops2 -> (n < nprims)%nat) ->
  exists pt st1 st code1 code2,
    prepare_peephole_table peephole_table insts = Some pt /\
    gen_steps use_super pt insts ops1 (mkCode m p0 None) = Some st1 /\
    gen_steps use_super pt insts (ops1 ++ Boundary :: ops2) (mkCode m p0 None) = Some st /\
    vmcodep st1 = p0 + Z.of_nat (length code1) /\ vmcodep st = p0 + Z.of_nat (length (code1 ++ code2)) /\
    (length code1 <= length ops1)%nat /\ (length code2 <= length ops2)%nat /\
    (forall k i, (code1 ++ code2) !! k = Some i -> item_cell insts i = Some (vmcode st (p0 + Z.of_nat k))) /\
    (forall a, a < p0 \/ vmcodep st <= a -> vmcode st a = m a) /\
    ops_of peephole_table code1 = source_ops peephole_table ops1 /\ args_of code1 = source_args ops1 /\
    ops_of peephole_table code2 = source_ops peephole_table ops2 /\ args_of code2 = source_args ops2.
Proof.
  intros OK LEN ND NZ Hops. destruct (prepare_table_ok peephole_table insts nprims OK LEN) as (pt & E & HP).
  destruct (gen_steps_ok peephole_table insts nprims OK LEN ND NZ use_super pt ops1 p0 m [] (mkCode m p0 None) HP) as
    (st1 & code1 & Eg1 & [G1 G2 G3 _] & E1 & E2 & L1).
  { constructor; cbn [vmcode vmcodep last_compiled length]; [lia|done|done|done]. }
  { intros n Hn. apply Hops, elem_of_app. by left. }
  destruct (gen_steps_ok peephole_table insts nprims OK LEN ND NZ use_super pt ops2 (vmcodep st1) (vmcode st1) [] (bb_boundary st1) HP) as
    (st & code2 & Eg2 & [H1 H2 H3 _] & E3 & E4 & L2).
  { constructor; cbn [bb_boundary vmcode vmcodep last_compiled length]; [lia|done|done|done]. }
  { intros n Hn. apply Hops, elem_of_app. by right. }
  exists pt, st1, st, code1, code2. rewrite gen_steps_app, Eg1, length_app. cbn [mbind option_bind gen_steps gen_step length] in *.
  split; [exact E|]. split; [done|]. split; [exact Eg2|]. split; [exact G1|]. split; [lia|]. split; [lia|]. split; [lia|].
  split; [|split; [|done]].
  - intros k i [Hk|[Hk Hi]]%lookup_app_Some.
    + pose proof (lookup_lt_Some _ _ _ Hk). rewrite H3 by lia. by apply G2.
    + rewrite (H2 _ _ Hi). do 2 f_equal. lia.
  - intros a Ha. rewrite H3 by lia. apply G3. lia.
Qed.

(** *** Primitives 0 to 2; 3 is 0 followed by 1, 4 is 3 followed by 2. *)
Definition demo_combs : list Combination := [mkComb 0 1 3; mkComb 3 2 4].
Definition demo_insts : list Z := [1000; 1016; 1032; 1048; 1064].
Definition demo_ops1 : list gen_op := [Inst 0; Arg 7; Inst 1; Inst 2; Inst 0].
Definition demo_ops2 : list gen_op := [Inst 1].
Definition demo_ops : list gen_op := demo_ops1 ++ Boundary :: demo_ops2.

Lemma demo_table_ok : table_ok demo_combs 5.
Proof.
  unfold demo_combs. constructor.
  1-3: intros c Hc; repeat (apply elem_of_cons in Hc as [->|Hc]; [vm_compute; repeat split; lia|]); by apply not_elem_of_nil in Hc.
  by apply (bool_decide_unpack _); vm_compute.
Qed.

(** Superinstruction 4 with the argument 7, then 0 and 1 uncombined. *)
Lemma demo_code :
  (pt ← prepare_peephole_table demo_combs demo_insts;
   st ← gen_steps true pt demo_insts demo_ops (mkCode (fun _ => 0) 50 None);
   Some (map (vmcode st) [50; 51; 52; 53; 54])) = Some [1064; 7; 1000; 1016; 0].
Proof. vm_compute. reflexivity. Qed.

Lemma combined_code_equivalent_witness :
  exists pt st code1 code2,
    prepare_peephole_table demo_combs demo_insts = Some pt /\
    gen_steps true pt demo_insts demo_ops (mkCode (fun _ => 0) 50 None) = Some st /\
    map (vmcode st) [50; 51; 52; 53; 54] = [1064; 7; 1000; 1016; 0] /\
    ops_of demo_combs code1 = [0; 1; 2; 0]%nat /\ args_of code1 = [7] /\ ops_of demo_combs code2 = [1%nat].
Proof.
  destruct (combined_code_equivalent demo_combs 5 demo_insts true demo_ops1 demo_ops2 (fun _ => 0) 50 demo_table_ok eq_refl)
    as (pt & st1 & st & code1 & code2 & E & _ & Eg & _ & _ & _ & _ & _ & _ & E1 & E2 & E3 & _).
  - by apply (bool_decide_unpack _); vm_compute.
  - intros i Hi. unfold demo_insts in Hi. repeat (apply elem_of_cons in Hi as [->|Hi]; [done|]). by apply not_elem_of_nil in Hi.
  - intros n Hn. unfold demo_ops1, demo_ops2 in Hn. cbn [app] in Hn.
    repeat (apply elem_of_cons in Hn as [Hn|Hn]; [first [discriminate Hn|injection Hn as ->; lia]|]).
    by apply not_elem_of_nil in Hn.
  - exists pt, st, code1, code2. split; [exact E|]. split; [exact Eg|]. pose proof demo_code as D. rewrite E in D.
    cbn [mbind option_bind] in D. change demo_ops with (demo_ops1 ++ Boundary :: demo_ops2) in D. rewrite Eg in D.
    cbn [mbind option_bind] in D. split; [exact (Some_inj _ _ D)|].
    split; [rewrite E1|split; [rewrite E2|rewrite E3]]; vm_compute; reflexivity.
Defined.
