(* ===== verification/Engine.v ===== *)
(** * The interpreter and the primitives (prim, engine/engine.c, threaded.h)

    The virtual machine that executes threaded code: its registers, the
    primitives for control flow, counted loops, exceptions, arithmetic,
    comparison, the stacks and memory, and the code that the generator puts
    around the C code of a primitive (prims2x.fs, [output-c]): skip the
    instruction and its arguments, fetch the items of the stack effect, update
    the stack pointers, run the C code, store the results, and dispatch.

    A primitive is named like the label of its code ([INST_ADDR(name)] in
    engine.c).  Arguments and results are lists in the order of the stack
    effect, the top of the stack last.  The configuration is direct threading
    without stack caching; shifts by a variable count, floating-point numbers
    and the primitives that call C functions are not here. *)
From S2P Require Import Prelude Memory DoubleCell Division.

(** ** Registers *)

Record vm := mkvm {
  ip : Z; sp : Z; rp : Z; fp : Z; lp : Z; op : Z; up : Z;
  cfa : Z; real_ca : Z;
  handler : Z; first_throw : Z;   (* fields of the structure SPs *)
  mem : memory
}.

Definition set_ip (v : Z) (s : vm) : vm :=
  mkvm v (sp s) (rp s) (fp s) (lp s) (op s) (up s) (cfa s) (real_ca s) (handler s) (first_throw s) (mem s).
Definition set_sp (v : Z) (s : vm) : vm :=
  mkvm (ip s) v (rp s) (fp s) (lp s) (op s) (up s) (cfa s) (real_ca s) (handler s) (first_throw s) (mem s).
Definition set_rp (v : Z) (s : vm) : vm :=
  mkvm (ip s) (sp s) v (fp s) (lp s) (op s) (up s) (cfa s) (real_ca s) (handler s) (first_throw s) (mem s).
Definition set_fp (v : Z) (s : vm) : vm :=
  mkvm (ip s) (sp s) (rp s) v (lp s) (op s) (up s) (cfa s) (real_ca s) (handler s) (first_throw s) (mem s).
Definition set_lp (v : Z) (s : vm) : vm :=
  mkvm (ip s) (sp s) (rp s) (fp s) v (op s) (up s) (cfa s) (real_ca s) (handler s) (first_throw s) (mem s).
Definition set_op (v : Z) (s : vm) : vm :=
  mkvm (ip s) (sp s) (rp s) (fp s) (lp s) v (up s) (cfa s) (real_ca s) (handler s) (first_throw s) (mem s).
Definition set_cfa (v : Z) (s : vm) : vm :=
  mkvm (ip s) (sp s) (rp s) (fp s) (lp s) (op s) (up s) v (real_ca s) (handler s) (first_throw s) (mem s).
Definition set_real_ca (v : Z) (s : vm) : vm :=
  mkvm (ip s) (sp s) (rp s) (fp s) (lp s) (op s) (up s) (cfa s) v (handler s) (first_throw s) (mem s).
Definition set_handler (h f : Z) (s : vm) : vm :=
  mkvm (ip s) (sp s) (rp s) (fp s) (lp s) (op s) (up s) (cfa s) (real_ca s) h f (mem s).
Definition set_mem (m : memory) (s : vm) : vm :=
  mkvm (ip s) (sp s) (rp s) (fp s) (lp s) (op s) (up s) (cfa s) (real_ca s) (handler s) (first_throw s) m.

(** ** Cells in memory *)

(** [*(Cell * )a = v] *)
Definition set_cell (m : memory) (a v : Z) : memory := fun x =>
  if (a <=? x) && (x <? a + 8) then Z.shiftr (U64 v) (8 * (x - a)) mod 256 else m x.

(** [n] consecutive cells. *)
Fixpoint cells_at (m : memory) (a : Z) (n : nat) : list Z :=
  match n with
  | O => []
  | S n => load_cell m a :: cells_at m (a + 8) n
  end.

Fixpoint set_cells (m : memory) (a : Z) (l : list Z) : memory :=
  match l with
  | [] => m
  | v :: l => set_cells (set_cell m a v) (a + 8) l
  end.

(** forth.h *)
Definition VTEXTRA : Z := 3.
Definition PFA (cfa : Z) : Z := cfa.
Definition CODE_ADDRESS (m : memory) (cfa : Z) : Z := load_cell m (cfa - 2 * 8).
Definition EXTRA_CODEXT (m : memory) (cfa : Z) : Z := load_cell m (load_cell m (cfa - 8) + 8 * VTEXTRA).

(** ** The primitives *)

(** Instances of the macro [condbranch]. *)
Inductive condbranch :=
| question_branch | paren_next | paren_loop | paren_plus_loop | paren_minus_loop
| paren_slash_loop | paren_symmetric_plus_loop.

(** Loop starts that can skip the loop. *)
Inductive do_kind :=
| paren_question_do | paren_plus_do | paren_u_plus_do | paren_minus_do | paren_u_minus_do
| paren_minus_bracket_do | paren_u_minus_bracket_do.

(** Instances of the macro [comparisons]: with zero, signed, unsigned. *)
Inductive comparison_prefix := cmp_zero | cmp_signed | cmp_unsigned.
Inductive comparison_op := c_equals | c_not_equals | c_less_than | c_greater_than
| c_less_or_equal | c_greater_or_equal.

Inductive prim :=
(* run-time routines of words *)
| I_paren_docol | I_paren_docon | I_paren_dovar | I_paren_douser | I_paren_dodefer
| I_paren_field | I_paren_doval | I_paren_dodoes
(* control *)
| I_noop | I_call | I_execute | I_perform | I_semis | I_execute_semis | I_unloop
| I_lit_perform | I_extra_xt | I_branch_lp_plus_store_number | I_branch
| I_cond (c : condbranch) | I_cond_lp_plus_store_number (c : condbranch)
| I_question_dupe_question_branch | I_question_dupe_zero_equals_question_branch
| I_paren_for | I_paren_do | I_do (k : do_kind)
| I_paren_try | I_uncatch | I_fast_throw
| I_i | I_i_tick | I_j | I_k | I_bounds | I_delta_i | I_r_tick_fetch | I_rpick_num
(* strings *)
| I_toupper | I_slash_string | I_safe_slash_string
(* arithmetic *)
| I_lit | I_plus | I_lit_plus | I_under_plus | I_minus | I_negate | I_one_plus | I_one_minus
| I_max | I_min | I_abs | I_star
| I_slash_f | I_modf | I_slash_mod_f | I_slash_s | I_mods | I_slash_mod_s
| I_two_star | I_two_slash | I_m_plus | I_d_plus | I_d_minus | I_d_negate
| I_and | I_or | I_x_or | I_invert | I_umax | I_umin | I_mux | I_select
| I_u_slash | I_umod | I_u_slash_mod
(* comparison *)
| I_compare (p : comparison_prefix) (o : comparison_op) | I_within
(* stacks *)
| I_sp_fetch | I_sp_store | I_rp_fetch | I_rp_store
| I_to_r | I_r_from | I_rdrop | I_two_to_r | I_two_r_from | I_two_r_fetch | I_two_r_drop
| I_over | I_drop | I_swap | I_dupe | I_rote | I_not_rote | I_nip | I_tuck | I_question_dupe
| I_pick | I_third | I_fourth | I_two_drop | I_two_dupe | I_two_over | I_two_swap | I_two_rote
| I_two_nip | I_two_tuck
(* memory *)
| I_fetch | I_lit_fetch | I_store | I_plus_store | I_c_fetch | I_c_store | I_two_store | I_two_fetch
| I_cell_plus | I_cells | I_char_plus | I_count | I_cell_divide | I_cell_minus | I_one_plus_store
| I_aligned.

(** ** Stack effects *)

(** [sync_sp]: [S:...] occurs in the effect, or [...], which concerns all
    stacks; their pointers are right in memory and registers while the C code
    runs, and the C code may change them. *)
Record effect := Effect { n_inst : nat; n_in : nat; n_rin : nat; n_out : nat; n_rout : nat;
                          sync_sp : bool; sync_rp : bool }.

Definition data (i o : nat) : effect := Effect 0 i 0 o 0 false false.
Definition both (i r o ro : nat) : effect := Effect 0 i r o ro false false.
Definition inline (n : nat) (e : effect) : effect :=
  Effect n (n_in e) (n_rin e) (n_out e) (n_rout e) (sync_sp e) (sync_rp e).

Definition cond_effect (c : condbranch) : effect :=
  match c with
  | question_branch => data 1 0
  | paren_next => both 0 1 0 1
  | paren_loop => both 0 2 0 2
  | paren_plus_loop | paren_minus_loop | paren_slash_loop | paren_symmetric_plus_loop => both 1 2 0 2
  end.

Definition stack_effect (p : prim) : effect :=
  match p with
  | I_paren_docol => both 0 0 0 1
  | I_paren_docon | I_paren_dovar | I_paren_douser | I_paren_doval | I_paren_dodoes => data 0 1
  | I_paren_dodefer | I_noop => data 0 0
  | I_paren_field => data 1 1
  | I_call => inline 1 (both 0 0 0 1)
  | I_execute | I_perform => data 1 0
  | I_semis => both 0 1 0 0
  | I_execute_semis => both 1 1 0 0
  | I_unloop => both 0 2 0 0
  | I_lit_perform => inline 1 (data 0 0)
  | I_extra_xt => inline 1 (data 0 1)
  | I_branch_lp_plus_store_number => inline 2 (data 0 0)
  | I_branch => inline 1 (data 0 0)
  | I_cond c => inline 1 (cond_effect c)
  | I_cond_lp_plus_store_number c => inline 2 (cond_effect c)
  | I_question_dupe_question_branch | I_question_dupe_zero_equals_question_branch =>
      Effect 1 1 0 0 0 true false
  | I_paren_for => both 1 0 0 2
  | I_paren_do => both 2 0 0 2
  | I_do _ => inline 1 (both 2 0 0 2)
  | I_paren_try => Effect 1 0 0 0 6 true true
  | I_uncatch => both 0 6 0 0
  | I_fast_throw => Effect 0 1 0 1 0 true true
  | I_i => both 0 1 1 1
  | I_i_tick | I_delta_i | I_r_tick_fetch => both 0 2 1 2
  | I_j => both 0 3 1 3
  | I_k => both 0 5 1 5
  | I_bounds => data 2 2
  | I_rpick_num => inline 1 (data 0 1)
  | I_toupper => data 1 1
  | I_slash_string | I_safe_slash_string => data 3 2
  | I_lit => inline 1 (data 0 1)
  | I_lit_plus => inline 1 (data 1 1)
  | I_under_plus => data 3 2
  | I_plus | I_minus | I_max | I_min | I_star | I_slash_f | I_modf | I_slash_s | I_mods
  | I_and | I_or | I_x_or | I_umax | I_umin | I_u_slash | I_umod => data 2 1
  | I_negate | I_one_plus | I_one_minus | I_abs | I_two_star | I_two_slash | I_invert => data 1 1
  | I_slash_mod_f | I_slash_mod_s | I_u_slash_mod => data 2 2
  | I_m_plus => data 3 2
  | I_d_plus | I_d_minus => data 4 2
  | I_d_negate => data 2 2
  | I_mux | I_select => data 3 1
  | I_compare cmp_zero _ => data 1 1
  | I_compare _ _ => data 2 1
  | I_within => data 3 1
  | I_sp_fetch => Effect 0 0 0 1 0 true false
  | I_sp_store => Effect 0 1 0 0 0 true false
  | I_rp_fetch => data 0 1
  | I_rp_store => data 1 0
  | I_to_r => both 1 0 0 1
  | I_r_from => both 0 1 1 0
  | I_rdrop => both 0 1 0 0
  | I_two_to_r => both 2 0 0 2
  | I_two_r_from => both 0 2 2 0
  | I_two_r_fetch => both 0 2 2 2
  | I_two_r_drop => both 0 2 0 0
  | I_over | I_tuck => data 2 3
  | I_drop => data 1 0
  | I_swap => data 2 2
  | I_dupe => data 1 2
  | I_rote | I_not_rote => data 3 3
  | I_nip => data 2 1
  | I_question_dupe | I_pick => Effect 0 1 0 1 0 true false
  | I_third => data 3 4
  | I_fourth => data 4 5
  | I_two_drop => data 2 0
  | I_two_dupe => data 2 4
  | I_two_over => data 4 6
  | I_two_swap => data 4 4
  | I_two_rote => data 6 6
  | I_two_nip => data 4 2
  | I_two_tuck => data 4 6
  | I_fetch | I_c_fetch => data 1 1
  | I_lit_fetch => inline 1 (data 0 1)
  | I_store | I_plus_store | I_c_store => data 2 0
  | I_two_store => data 3 0
  | I_two_fetch | I_count => data 1 2
  | I_cell_plus | I_cells | I_char_plus | I_cell_divide | I_cell_minus | I_aligned => data 1 1
  | I_one_plus_store => inline 1 (data 0 0)
  end.

(** ** The C code of the primitives *)

(** [Next]: the code falls through to the stores and to NEXT.  [Jump]: it ends
    with [VM_JUMP(EXEC1(xt))], after the stores.  [Ball]: it calls [throw].
    [Trap]: a division instruction of the processor faults. *)
Inductive result :=
| Next (s : vm) (outs routs : list Z)
| Jump (xt : Z) (s : vm) (outs routs : list Z)
| Ball (code : Z)
| Trap.

Section Primitives.
(** [HAVE___BUILTIN_ADD_OVERFLOW] and [CHECK_DIVISION_SW]. *)
Context (add_overflow check_division_sw : bool).

(** [!__builtin_add_overflow(a, b, &a)] *)
Definition add_fits (a b : Z) : bool := (- BH <=? a + b) && (a + b <? BH).

(** [if (...) {] of the macro: the condition under which the branch is taken,
    and the results for the return stack. *)
Definition cond_code (c : condbranch) (d r : list Z) : bool * list Z :=
  let nlimit := S64 (nth 0 r 0) in
  let n1 := S64 (nth 1 r 0) in
  let n := S64 (nth 0 d 0) in
  let u := nth 0 d 0 in
  match c with
  | question_branch => (nth 0 d 0 =? 0, [])
  | paren_next => let n1 := nth 0 r 0 in (negb (n1 =? 0), [n1 - 1])
  | paren_loop => let n2 := S64 (n1 + 1) in (negb (n2 =? nlimit), [nlimit; n2])
  | paren_plus_loop =>
      let n2 := S64 (n1 + n) in
      let olddiff := S64 (n1 - nlimit) in
      (if add_overflow then add_fits (Z.lxor olddiff (- BH)) n
       else 0 <=? Z.land (Z.lxor olddiff (S64 (olddiff + n))) (Z.lxor olddiff n),
       [nlimit; n2])
  | paren_minus_loop => let n2 := S64 (n1 - u) in (u <=? U64 (nlimit - n2), [nlimit; n2])
  | paren_slash_loop => let n2 := S64 (n1 + u) in (u <=? U64 (n2 - nlimit), [nlimit; n2])
  | paren_symmetric_plus_loop =>
      let diff := S64 (n1 - nlimit) in
      let newdiff := S64 (diff + n) in
      let diff' := if n <? 0 then S64 (- diff) else diff in
      let newdiff := if n <? 0 then S64 (- newdiff) else newdiff in
      let n2 := S64 (n1 + n) in
      (Z.lor (Z.lnot diff') newdiff <? 0, [nlimit; n2])
  end.

(** The condition under which the loop is skipped. *)
Definition do_skips (k : do_kind) (limit start : Z) : bool :=
  match k with
  | paren_question_do => start =? limit
  | paren_plus_do => S64 limit <=? S64 start
  | paren_u_plus_do => limit <=? start
  | paren_minus_do => S64 start <=? S64 limit
  | paren_u_minus_do => start <=? limit
  | paren_minus_bracket_do => S64 start <? S64 limit
  | paren_u_minus_bracket_do => start <? limit
  end.

Definition compare_op (o : comparison_op) (a b : Z) : bool :=
  match o with
  | c_equals => a =? b
  | c_not_equals => negb (a =? b)
  | c_less_than => a <? b
  | c_greater_than => b <? a
  | c_less_or_equal => a <=? b
  | c_greater_or_equal => b <=? a
  end.

(** The signed division instruction. *)
Definition c_div (n1 n2 : Z) (k : Z -> Z -> result) : result :=
  if check_division_sw && (n2 =? -1) && (n1 =? CELL_MIN) then Ball BALL_RESULTRANGE
  else if check_division_sw && (n2 =? 0) then Ball BALL_DIVZERO
  else if (n2 =? 0) || (n2 =? -1) && (n1 =? CELL_MIN) then Trap
  else k (Z.quot n1 n2) (Z.rem n1 n2).

Definition c_udiv (u1 u2 : Z) (k : Z -> Z -> result) : result :=
  if check_division_sw && (u2 =? 0) then Ball BALL_DIVZERO
  else if u2 =? 0 then Trap
  else k (u1 / u2) (u1 mod u2).

(** Run-time routines of words and control flow. *)
Definition control_code (p : prim) (arg d r : list Z) (s : vm) : option result :=
  let m := mem s in
  let out (l : list Z) := Next s l [] in
  let w i := nth i d 0 in
  let n i := S64 (nth i d 0) in
  let next0 := Next s [] [] in
  match p with
  | I_paren_docol => Some (Next (set_ip (PFA (cfa s)) s) [] [ip s])
  | I_paren_docon | I_paren_doval => Some (out [load_cell m (PFA (cfa s))])
  | I_paren_dovar => Some (out [PFA (cfa s)])
  | I_paren_douser => Some (out [up s + load_cell m (PFA (cfa s))])
  | I_paren_dodefer => Some (Jump (load_cell m (PFA (cfa s))) s [] [])
  | I_paren_field => Some (out [n 0%nat + load_cell m (PFA (cfa s))])
  | I_paren_dodoes => Some (Jump (EXTRA_CODEXT m (cfa s)) s [PFA (cfa s)] [])
  | I_noop | I_unloop => Some next0
  | I_call => Some (Next (set_ip (nth 0 arg 0) s) [] [ip s])
  | I_execute => Some (Jump (w 0%nat) s [] [])
  | I_perform => Some (Jump (load_cell m (w 0%nat)) s [] [])
  | I_semis => Some (Next (set_ip (nth 0 r 0) s) [] [])
  | I_execute_semis => Some (Jump (w 0%nat) (set_ip (nth 0 r 0) s) [] [])
  | I_lit_perform => Some (Jump (load_cell m (nth 0 arg 0)) s [] [])
  | I_extra_xt => Some (Jump (EXTRA_CODEXT m (nth 0 arg 0)) s [PFA (nth 0 arg 0)] [])
  | I_branch_lp_plus_store_number =>
      Some (Next (set_ip (nth 0 arg 0) (set_lp (lp s + S64 (nth 1 arg 0)) s)) [] [])
  | I_branch => Some (Next (set_ip (nth 0 arg 0) s) [] [])
  | I_cond c =>
      Some (let '(taken, routs) := cond_code c d r in
      Next (if taken then set_ip (nth 0 arg 0) s else s) [] routs)
  | I_cond_lp_plus_store_number c =>
      Some (let '(taken, routs) := cond_code c d r in
      Next (if taken then set_ip (nth 0 arg 0) (set_lp (lp s + S64 (nth 1 arg 0)) s) else s) [] routs)
  | I_question_dupe_question_branch =>
      Some (if w 0%nat =? 0 then Next (set_ip (nth 0 arg 0) s) [] []
      else Next (set_sp (sp s - 8) (set_mem (set_cell m (sp s - 8) (w 0%nat)) s)) [] [])
  | I_question_dupe_zero_equals_question_branch =>
      Some (if negb (w 0%nat =? 0)
      then Next (set_ip (nth 0 arg 0) (set_sp (sp s - 8) (set_mem (set_cell m (sp s - 8) (w 0%nat)) s))) [] []
      else next0)
  | _ => None
  end.

(** Loops: starting them, and the cells on the return stack. *)
Definition loop_code (p : prim) (arg d r : list Z) (s : vm) : option result :=
  let m := mem s in
  let out (l : list Z) := Next s l [] in
  let w i := nth i d 0 in
  match p with
  | I_paren_for => Some (Next s [] [0; w 0%nat])
  | I_paren_do => Some (Next s [] [w 0%nat; w 1%nat])
  | I_do k =>
      Some (Next (if do_skips k (w 0%nat) (w 1%nat) then set_ip (nth 0 arg 0) s else s) [] [w 0%nat; w 1%nat])
  | I_i => Some (Next s [nth 0 r 0] r)
  | I_i_tick | I_r_tick_fetch => Some (Next s [nth 0 r 0] r)
  | I_j => Some (Next s [nth 0 r 0] r)
  | I_k => Some (Next s [nth 0 r 0] r)
  | I_bounds => Some (out [w 0%nat + w 1%nat; w 0%nat])
  | I_delta_i => Some (Next s [nth 0 r 0 - nth 1 r 0] r)
  | I_rpick_num => Some (out [load_cell m (U64 (rp s + 8 * nth 0 arg 0))])
  | _ => None
  end.

(** Exceptions. *)
Definition exception_code (p : prim) (arg d r : list Z) (s : vm) : option result :=
  let m := mem s in
  let w i := nth i d 0 in
  match p with
  | I_paren_try =>
      Some (Next (set_handler (rp s - 6 * 8)
              (Z.lor (first_throw s) (- c_bool (first_throw s =? 0))) s)
        [] [nth 0 arg 0; sp s; op s; fp s; lp s; handler s])
  | I_uncatch => Some (Next (set_handler (nth 5 r 0) (first_throw s) s) [] [])
  | I_fast_throw =>
      Some (let rp' := handler s in
      Next (set_ip (load_cell m (rp' + 5 * 8)) (set_sp (load_cell m (rp' + 4 * 8))
             (set_op (load_cell m (rp' + 3 * 8)) (set_fp (load_cell m (rp' + 2 * 8))
                (set_lp (load_cell m (rp' + 1 * 8)) (set_rp rp' s)))))) [w 0%nat] [])
  | _ => None
  end.

(** Strings. *)
Definition string_code (p : prim) (arg d r : list Z) (s : vm) : option result :=
  let out (l : list Z) := Next s l [] in
  let w i := nth i d 0 in
  let n i := S64 (nth i d 0) in
  match p with
  | I_toupper =>
      Some (let c1 := w 0%nat mod 256 in
      out [if (97 <=? c1) && (c1 <=? 122) then c1 + (65 - 97) else c1])
  | I_slash_string => Some (out [w 0%nat + n 2%nat; w 1%nat - n 2%nat])
  | I_safe_slash_string =>
      Some (let n' := if n 2%nat <? 0 then 0 else n 2%nat in
      let n' := if w 1%nat <? n' then w 1%nat else n' in
      out [w 0%nat + n'; w 1%nat - n'])
  | _ => None
  end.

(** Arithmetic on cells. *)
Definition arith_code (p : prim) (arg d r : list Z) (s : vm) : option result :=
  let out (l : list Z) := Next s l [] in
  let n i := S64 (nth i d 0) in
  match p with
  | I_lit => Some (out [nth 0 arg 0])
  | I_plus => Some (out [n 0%nat + n 1%nat])
  | I_lit_plus => Some (out [n 0%nat + S64 (nth 0 arg 0)])
  | I_under_plus => Some (out [n 0%nat + n 2%nat; n 1%nat])
  | I_minus => Some (out [n 0%nat - n 1%nat])
  | I_negate => Some (out [- n 0%nat])
  | I_one_plus => Some (out [n 0%nat + 1])
  | I_one_minus => Some (out [n 0%nat - 1])
  | I_max => Some (out [if n 0%nat <? n 1%nat then n 1%nat else n 0%nat])
  | I_min => Some (out [if n 0%nat <? n 1%nat then n 0%nat else n 1%nat])
  | I_abs => Some (out [if n 0%nat <? 0 then - n 0%nat else n 0%nat])
  | I_star => Some (out [n 0%nat * n 1%nat])
  | I_slash_f => Some (c_div (n 0%nat) (n 1%nat) (fun q rm =>
      out [if (Z.lxor (n 0%nat) (n 1%nat) <? 0) && negb (rm =? 0) then q - 1 else q]))
  | I_modf => Some (c_div (n 0%nat) (n 1%nat) (fun q rm =>
      out [if (Z.lxor (n 0%nat) (n 1%nat) <? 0) && negb (rm =? 0) then rm + n 1%nat else rm]))
  | I_slash_mod_f => Some (c_div (n 0%nat) (n 1%nat) (fun q rm =>
      if (Z.lxor (n 0%nat) (n 1%nat) <? 0) && negb (rm =? 0) then out [rm + n 1%nat; q - 1]
      else out [rm; q]))
  | I_slash_s => Some (c_div (n 0%nat) (n 1%nat) (fun q rm => out [q]))
  | I_mods => Some (c_div (n 0%nat) (n 1%nat) (fun q rm => out [rm]))
  | I_slash_mod_s => Some (c_div (n 0%nat) (n 1%nat) (fun q rm => out [rm; q]))
  | I_two_star => Some (out [2 * n 0%nat])
  | I_two_slash => Some (out [Z.shiftr (n 0%nat) 1])
  | _ => None
  end.

(** Double cells. *)
Definition double_code (p : prim) (arg d r : list Z) (s : vm) : option result :=
  let out (l : list Z) := Next s l [] in
  let w i := nth i d 0 in
  let n i := S64 (nth i d 0) in
  match p with
  | I_m_plus => Some (let d2 := D_of_Z (dval (mkD (n 1%nat) (w 0%nat)) + n 2%nat) in out [d_lo d2; d_hi d2])
  | I_d_plus => Some (let ud := dadd (mkUD (w 1%nat) (w 0%nat)) (mkUD (w 3%nat) (w 2%nat)) in out [ud_lo ud; ud_hi ud])
  | I_d_minus =>
      Some (let d := D_of_Z (dval (mkD (n 1%nat) (w 0%nat)) - dval (mkD (n 3%nat) (w 2%nat))) in out [d_lo d; d_hi d])
  | I_d_negate => Some (let d2 := D_of_Z (- dval (mkD (n 1%nat) (w 0%nat))) in out [d_lo d2; d_hi d2])
  | _ => None
  end.

(** Bits, selection and unsigned division. *)
Definition logic_code (p : prim) (arg d r : list Z) (s : vm) : option result :=
  let out (l : list Z) := Next s l [] in
  let w i := nth i d 0 in
  match p with
  | I_and => Some (out [Z.land (w 0%nat) (w 1%nat)])
  | I_or => Some (out [Z.lor (w 0%nat) (w 1%nat)])
  | I_x_or => Some (out [Z.lxor (w 0%nat) (w 1%nat)])
  | I_invert => Some (out [Z.lnot (w 0%nat)])
  | I_umax => Some (out [if w 0%nat <? w 1%nat then w 1%nat else w 0%nat])
  | I_umin => Some (out [if w 0%nat <? w 1%nat then w 0%nat else w 1%nat])
  | I_mux => Some (out [Z.lor (Z.land (w 2%nat) (w 0%nat)) (Z.land (U64 (Z.lnot (w 2%nat))) (w 1%nat))])
  | I_select => Some (out [if negb (w 2%nat =? 0) then w 0%nat else w 1%nat])
  | I_u_slash => Some (c_udiv (w 0%nat) (w 1%nat) (fun q rm => out [q]))
  | I_umod => Some (c_udiv (w 0%nat) (w 1%nat) (fun q rm => out [rm]))
  | I_u_slash_mod => Some (c_udiv (w 0%nat) (w 1%nat) (fun q rm => out [rm; q]))
  | _ => None
  end.

(** Comparisons. *)
Definition compare_code (p : prim) (arg d r : list Z) (s : vm) : option result :=
  let out (l : list Z) := Next s l [] in
  let w i := nth i d 0 in
  let n i := S64 (nth i d 0) in
  match p with
  | I_compare cmp_zero o => Some (out [FLAG (compare_op o (n 0%nat) 0)])
  | I_compare cmp_signed o => Some (out [FLAG (compare_op o (n 0%nat) (n 1%nat))])
  | I_compare cmp_unsigned o => Some (out [FLAG (compare_op o (w 0%nat) (w 1%nat))])
  | I_within => Some (out [FLAG (U64 (w 0%nat - w 1%nat) <? U64 (w 2%nat - w 1%nat))])
  | _ => None
  end.

(** The stacks. *)
Definition stack_code (p : prim) (arg d r : list Z) (s : vm) : option result :=
  let m := mem s in
  let out (l : list Z) := Next s l [] in
  let w i := nth i d 0 in
  let next0 := Next s [] [] in
  match p with
  | I_rdrop | I_two_r_drop | I_drop | I_two_drop => Some next0
  | I_sp_fetch => Some (out [sp s])
  | I_sp_store => Some (Next (set_sp (w 0%nat) s) [] [])
  | I_rp_fetch => Some (out [rp s])
  | I_rp_store => Some (Next (set_rp (w 0%nat) s) [] [])
  | I_to_r => Some (Next s [] [w 0%nat])
  | I_r_from => Some (Next s [nth 0 r 0] [])
  | I_two_to_r => Some (Next s [] [w 0%nat; w 1%nat])
  | I_two_r_from => Some (Next s [nth 0 r 0; nth 1 r 0] [])
  | I_two_r_fetch => Some (Next s [nth 0 r 0; nth 1 r 0] r)
  | I_over => Some (out [w 0%nat; w 1%nat; w 0%nat])
  | I_swap => Some (out [w 1%nat; w 0%nat])
  | I_dupe => Some (out [w 0%nat; w 0%nat])
  | I_rote => Some (out [w 1%nat; w 2%nat; w 0%nat])
  | I_not_rote => Some (out [w 2%nat; w 0%nat; w 1%nat])
  | I_nip => Some (out [w 1%nat])
  | I_tuck => Some (out [w 1%nat; w 0%nat; w 1%nat])
  | I_question_dupe =>
      Some (if negb (w 0%nat =? 0)
      then Next (set_sp (sp s - 8) (set_mem (set_cell m (sp s - 8) (w 0%nat)) s)) [w 0%nat] []
      else out [w 0%nat])
  | I_pick => Some (out [load_cell m (U64 (sp s + 8 * w 0%nat))])
  | I_third => Some (out [w 0%nat; w 1%nat; w 2%nat; w 0%nat])
  | I_fourth => Some (out [w 0%nat; w 1%nat; w 2%nat; w 3%nat; w 0%nat])
  | I_two_dupe => Some (out [w 0%nat; w 1%nat; w 0%nat; w 1%nat])
  | I_two_over => Some (out [w 0%nat; w 1%nat; w 2%nat; w 3%nat; w 0%nat; w 1%nat])
  | I_two_swap => Some (out [w 2%nat; w 3%nat; w 0%nat; w 1%nat])
  | I_two_rote => Some (out [w 2%nat; w 3%nat; w 4%nat; w 5%nat; w 0%nat; w 1%nat])
  | I_two_nip => Some (out [w 2%nat; w 3%nat])
  | I_two_tuck => Some (out [w 2%nat; w 3%nat; w 0%nat; w 1%nat; w 2%nat; w 3%nat])
  | _ => None
  end.

(** Memory. *)
Definition memory_code (p : prim) (arg d r : list Z) (s : vm) : option result :=
  let m := mem s in
  let out (l : list Z) := Next s l [] in
  let w i := nth i d 0 in
  let n i := S64 (nth i d 0) in
  match p with
  | I_fetch => Some (out [load_cell m (w 0%nat)])
  | I_lit_fetch => Some (out [load_cell m (nth 0 arg 0)])
  | I_store => Some (Next (set_mem (set_cell m (w 1%nat) (w 0%nat)) s) [] [])
  | I_plus_store => Some (Next (set_mem (set_cell m (w 1%nat) (load_cell m (w 1%nat) + n 0%nat)) s) [] [])
  | I_c_fetch => Some (out [m (w 0%nat)])
  | I_c_store => Some (Next (set_mem (Memory.store m (w 1%nat) (w 0%nat mod 256)) s) [] [])
  | I_two_store => Some (Next (set_mem (set_cell (set_cell m (w 2%nat) (w 1%nat)) (w 2%nat + 8) (w 0%nat)) s) [] [])
  | I_two_fetch => Some (out [load_cell m (w 0%nat + 8); load_cell m (w 0%nat)])
  | I_cell_plus => Some (out [w 0%nat + 8])
  | I_cells => Some (out [n 0%nat * 8])
  | I_char_plus => Some (out [w 0%nat + 1])
  | I_count => Some (out [w 0%nat + 1; m (w 0%nat)])
  | I_cell_divide => Some (out [Z.shiftr (n 0%nat) 3])
  | I_cell_minus => Some (out [w 0%nat - 8])
  | I_one_plus_store => Some (Next (set_mem (set_cell m (nth 0 arg 0) (load_cell m (nth 0 arg 0) + 1)) s) [] [])
  | I_aligned => Some (out [Z.land (w 0%nat + 7) (- 8)])
  | _ => None
  end.

(** The C code of [p], with the arguments of the instruction, the items from
    the data stack and those from the return stack.  Every primitive is in one
    of the groups ([code_complete]). *)
Definition code_groups (p : prim) (arg d r : list Z) (s : vm) : option result :=
  match control_code p arg d r s with Some res => Some res | None =>
  match loop_code p arg d r s with Some res => Some res | None =>
  match exception_code p arg d r s with Some res => Some res | None =>
  match string_code p arg d r s with Some res => Some res | None =>
  match arith_code p arg d r s with Some res => Some res | None =>
  match double_code p arg d r s with Some res => Some res | None =>
  match logic_code p arg d r s with Some res => Some res | None =>
  match compare_code p arg d r s with Some res => Some res | None =>
  match stack_code p arg d r s with Some res => Some res | None =>
  memory_code p arg d r s
  end end end end end end end end end.

Definition code (p : prim) (arg d r : list Z) (s : vm) : result :=
  match code_groups p arg d r s with Some res => res | None => Trap end.

(** ** The code around the C code (prims2x.fs) *)

Definition pointer_update (sync : bool) (i o : nat) : Z :=
  8 * (if sync then Z.of_nat i else Z.of_nat i - Z.of_nat o).

(** [stack-pointer-updates2] and [stores]. *)
Definition store_results (e : effect) (outs routs : list Z) (s : vm) : vm :=
  let s := if sync_sp e then set_sp (sp s - 8 * Z.of_nat (n_out e)) s else s in
  let s := if sync_rp e then set_rp (rp s - 8 * Z.of_nat (n_rout e)) s else s in
  set_mem (set_cells (set_cells (mem s) (sp s) (rev outs)) (rp s) (rev routs)) s.

(** [NEXT_P2] and [EXEC1] of threaded.h. *)
Definition NEXT (s : vm) : vm := set_real_ca (load_cell (mem s) (ip s)) s.
Definition EXEC1 (xt : Z) (s : vm) : vm :=
  set_real_ca (CODE_ADDRESS (mem s) xt) (set_cfa xt (set_ip (ip s - 8) s)).

(** Fetches and early updates. *)
Definition inst_args (p : prim) (s : vm) : list Z := cells_at (mem s) (ip s + 8) (n_inst (stack_effect p)).
Definition data_items (p : prim) (s : vm) : list Z := rev (cells_at (mem s) (sp s) (n_in (stack_effect p))).
Definition return_items (p : prim) (s : vm) : list Z := rev (cells_at (mem s) (rp s) (n_rin (stack_effect p))).
Definition enter (p : prim) (s : vm) : vm :=
  let e := stack_effect p in
  set_ip (ip s + 8 * (1 + Z.of_nat (n_inst e)))
    (set_sp (sp s + pointer_update (sync_sp e) (n_in e) (n_out e))
      (set_rp (rp s + pointer_update (sync_rp e) (n_rin e) (n_rout e)) s)).

(** One primitive; [None]: the processor traps. *)
Definition run (p : prim) (s : vm) : option (outcome vm) :=
  match code p (inst_args p s) (data_items p s) (return_items p s) (enter p s) with
  | Next s outs routs => Some (Ret (NEXT (store_results (stack_effect p) outs routs s)))
  | Jump xt s outs routs => Some (Ret (store_results (stack_effect p) outs routs (EXEC1 xt s)))
  | Ball c => Some (Throw c)
  | Trap => None
  end.

(** The labels of the code, as [gforth_engine] returns them: which primitive's
    code is at an address. *)
Context (symbols : Z -> option prim).

Definition step (s : vm) : option (outcome vm) := symbols (real_ca s) ≫= fun p => run p s.

(** [gforth_engine(ip0)]: the start of the interpreter. *)
Definition engine_start (ip0 : Z) (s : vm) : vm := NEXT (set_ip ip0 s).

Definition steps_to : vm -> vm -> Prop := rtc (fun s s' => step s = Some (Ret s')).
End Primitives.

(** ** A numbering of the primitives

    The array [symbols] of engine.c has the labels in the order of the
    primitives; the concrete machines of the examples use the place in such an
    array as the label. *)
#[export] Instance condbranch_eq_dec : EqDecision condbranch.
Proof. solve_decision. Defined.
#[export] Instance do_kind_eq_dec : EqDecision do_kind.
Proof. solve_decision. Defined.
#[export] Instance comparison_prefix_eq_dec : EqDecision comparison_prefix.
Proof. solve_decision. Defined.
#[export] Instance comparison_op_eq_dec : EqDecision comparison_op.
Proof. solve_decision. Defined.
#[export] Instance prim_eq_dec : EqDecision prim.
Proof. solve_decision. Defined.

Definition all_condbranch : list condbranch :=
  [question_branch; paren_next; paren_loop; paren_plus_loop; paren_minus_loop; paren_slash_loop;
   paren_symmetric_plus_loop].

Definition prim_table : list prim :=
  [I_paren_docol; I_paren_docon; I_paren_dovar; I_paren_douser; I_paren_dodefer; I_paren_field;
   I_paren_doval; I_paren_dodoes; I_noop; I_call; I_execute; I_perform; I_semis;
   I_execute_semis; I_unloop; I_lit_perform; I_extra_xt; I_branch_lp_plus_store_number;
   I_branch; I_question_dupe_question_branch; I_question_dupe_zero_equals_question_branch;
   I_paren_for; I_paren_do; I_paren_try; I_uncatch; I_fast_throw; I_i; I_i_tick; I_j; I_k;
   I_bounds; I_delta_i; I_r_tick_fetch; I_rpick_num; I_toupper; I_slash_string;
   I_safe_slash_string; I_lit; I_plus; I_lit_plus; I_under_plus; I_minus; I_negate; I_one_plus;
   I_one_minus; I_max; I_min; I_abs; I_star; I_slash_f; I_modf; I_slash_mod_f; I_slash_s;
   I_mods; I_slash_mod_s; I_two_star; I_two_slash; I_m_plus; I_d_plus; I_d_minus; I_d_negate;
   I_and; I_or; I_x_or; I_invert; I_umax; I_umin; I_mux; I_select; I_u_slash; I_umod;
   I_u_slash_mod; I_within; I_sp_fetch; I_sp_store; I_rp_fetch; I_rp_store; I_to_r; I_r_from;
   I_rdrop; I_two_to_r; I_two_r_from; I_two_r_fetch; I_two_r_drop; I_over; I_drop; I_swap;
   I_dupe; I_rote; I_not_rote; I_nip; I_tuck; I_question_dupe; I_pick; I_third; I_fourth;
   I_two_drop; I_two_dupe; I_two_over; I_two_swap; I_two_rote; I_two_nip; I_two_tuck; I_fetch;
   I_lit_fetch; I_store; I_plus_store; I_c_fetch; I_c_store; I_two_store; I_two_fetch;
   I_cell_plus; I_cells; I_char_plus; I_count; I_cell_divide; I_cell_minus; I_one_plus_store;
   I_aligned] ++
  map I_cond all_condbranch ++ map I_cond_lp_plus_store_number all_condbranch ++
  map I_do [paren_question_do; paren_plus_do; paren_u_plus_do; paren_minus_do; paren_u_minus_do;
            paren_minus_bracket_do; paren_u_minus_bracket_do] ++
  p ← [cmp_zero; cmp_signed; cmp_unsigned];
  o ← [c_equals; c_not_equals; c_less_than; c_greater_than; c_less_or_equal; c_greater_or_equal];
  [I_compare p o].

Fixpoint index_of (p : prim) (l : list prim) : Z :=
  match l with
  | [] => 0
  | q :: l => if decide (p = q) then 0 else 1 + index_of p l
  end.

Definition table_label (p : prim) : Z := index_of p prim_table.
Definition table_symbols (a : Z) : option prim := if a <? 0 then None else prim_table !! Z.to_nat a.

Lemma table_symbols_label p : table_symbols (table_label p) = Some p.
Proof. destruct p; try done; try (by destruct c); try (by destruct k); by destruct p, o. Qed.

(** ** Loads and stores *)

Lemma le_val_digits v n :
  0 <= v -> le_val (map (fun i => Z.shiftr v (8 * Z.of_nat i) mod 256) (seq 0 n)) = v mod 256 ^ Z.of_nat n.
Proof.
  revert v. induction n as [|n IH]; intros v Hv.
  - cbn. by rewrite Z.mod_1_r.
  - cbn [seq map le_val]. rewrite <- seq_shift, map_map.
    rewrite (map_ext _ (fun i => Z.shiftr (v / 256) (8 * Z.of_nat i) mod 256)).
    + rewrite IH by (apply Z.div_pos; lia). rewrite Nat2Z.inj_succ, Z.pow_succ_r by lia.
      rewrite Z.rem_mul_r by lia. cbn. rewrite Z.shiftr_0_r. lia.
    + intros i. f_equal. rewrite Nat2Z.inj_succ. change 256 with (2 ^ 8).
      rewrite <- Z.shiftr_div_pow2, Z.shiftr_shiftr by lia. f_equal. lia.
Qed.

Lemma set_cell_in m a v i :
  0 <= i < 8 -> set_cell m a v (a + i) = Z.shiftr (U64 v) (8 * i) mod 256.
Proof.
  intros. unfold set_cell. destruct (Z.leb_spec a (a + i)), (Z.ltb_spec (a + i) (a + 8)); try lia.
  cbn. do 3 f_equal. lia.
Qed.

Lemma set_cell_bytes m a v :
  bytes_at (set_cell m a v) a 8 = map (fun i => Z.shiftr (U64 v) (8 * Z.of_nat i) mod 256) (seq 0 8).
Proof.
  apply list_eq. intros i. rewrite list_lookup_fmap. destruct (decide (i < 8)%nat) as [Hi|Hi].
  - rewrite bytes_at_lookup, lookup_seq_lt, set_cell_in by lia. done.
  - rewrite lookup_ge_None_2 by (rewrite bytes_at_length; lia).
    by rewrite (lookup_ge_None_2 (seq 0 8)) by (rewrite length_seq; lia).
Qed.

Lemma load_set_cell m a v : load_cell (set_cell m a v) a = U64 v.
Proof.
  unfold load_cell. rewrite set_cell_bytes, le_val_digits by (apply U64_range).
  apply Z.mod_small, U64_range.
Qed.

Lemma set_cell_other m a v x : x < a \/ a + 8 <= x -> set_cell m a v x = m x.
Proof. intros. unfold set_cell. destruct (Z.leb_spec a x), (Z.ltb_spec x (a + 8)); try done; lia. Qed.

Lemma load_set_cell_ne m a v b : b + 8 <= a \/ a + 8 <= b -> load_cell (set_cell m a v) b = load_cell m b.
Proof. intros. unfold load_cell. f_equal. apply bytes_at_ext. intros. apply set_cell_other. lia. Qed.

Lemma set_cell_wf m a v : wf_mem m -> wf_mem (set_cell m a v).
Proof. intros H x. unfold set_cell. case_match; [|apply H]. unfold is_char. apply Z.mod_pos_bound. lia. Qed.

Lemma cells_at_length m a n : length (cells_at m a n) = n.
Proof. revert a. induction n; intros; cbn; auto. Qed.

Lemma cells_at_ext m m' a n :
  (forall x, a <= x < a + 8 * Z.of_nat n -> m x = m' x) -> cells_at m a n = cells_at m' a n.
Proof.
  revert a. induction n as [|n IH]; intros a H; [done|]. cbn [cells_at]. f_equal.
  - unfold load_cell. f_equal. apply bytes_at_ext. intros. apply H. lia.
  - apply IH. intros. apply H. lia.
Qed.

Lemma cells_at_app m a i j :
  cells_at m a (i + j) = cells_at m a i ++ cells_at m (a + 8 * Z.of_nat i) j.
Proof.
  revert a. induction i as [|i IH]; intros a.
  - cbn [Nat.add cells_at app]. f_equal. lia.
  - cbn [Nat.add cells_at app]. rewrite IH. do 3 f_equal. lia.
Qed.

Lemma cells_at_range m a n : wf_mem m -> Forall is_ucell (cells_at m a n).
Proof. intros H. revert a. induction n; intros; constructor; auto. by apply load_cell_range. Qed.

Lemma set_cells_other m a l x : x < a \/ a + 8 * Z.of_nat (length l) <= x -> set_cells m a l x = m x.
Proof.
  revert m a. induction l as [|v l IH]; intros m a Hx; [done|]. cbn [set_cells length] in *.
  rewrite IH, set_cell_other; [done|lia|lia].
Qed.

Lemma cells_at_set_cells m a l : cells_at (set_cells m a l) a (length l) = map U64 l.
Proof.
  revert m a. induction l as [|v l IH]; intros m a; [done|]. cbn [set_cells length cells_at map]. f_equal.
  - rewrite <- (load_set_cell m a v). unfold load_cell. f_equal. apply bytes_at_ext. intros.
    apply set_cells_other. lia.
  - apply IH.
Qed.

Lemma set_cells_wf m a l : wf_mem m -> wf_mem (set_cells m a l).
Proof. revert m a. induction l; intros; cbn; auto using set_cell_wf. Qed.

Lemma code_complete ovf chk p arg d r s : exists res, code_groups ovf chk p arg d r s = Some res.
Proof.
  destruct p; try destruct p; try destruct c; try destruct k; cbn -[cond_code c_div c_udiv load_cell];
    repeat case_match; by eexists.
Qed.

(** ** Primitives obey their stack effects *)

(** Primitives whose C code touches neither memory nor the stack pointers. *)
Definition pure (p : prim) : bool :=
  match p with
  | I_question_dupe_question_branch | I_question_dupe_zero_equals_question_branch | I_fast_throw
  | I_sp_store | I_rp_store | I_question_dupe
  | I_store | I_plus_store | I_c_store | I_two_store | I_one_plus_store => false
  | _ => true
  end.

(** What the C code leaves alone. *)
Definition same_frame (s s' : vm) : Prop :=
  sp s' = sp s /\ rp s' = rp s /\ fp s' = fp s /\ op s' = op s /\ up s' = up s /\ mem s' = mem s.

Definition keeps_frame (e : effect) (s : vm) (res : result) : Prop :=
  match res with
  | Next s' outs routs | Jump _ s' outs routs =>
      same_frame s s' /\ length outs = n_out e /\ length routs = n_rout e
  | _ => True
  end.

Lemma c_div_frame chk n1 n2 e s k :
  (forall q r, keeps_frame e s (k q r)) -> keeps_frame e s (c_div chk n1 n2 k).
Proof. intros H. unfold c_div. by repeat case_match. Qed.

Lemma c_udiv_frame chk n1 n2 e s k :
  (forall q r, keeps_frame e s (k q r)) -> keeps_frame e s (c_udiv chk n1 n2 k).
Proof. intros H. unfold c_udiv. by repeat case_match. Qed.

Lemma code_frame ovf chk p arg d r s :
  pure p = true -> length r = n_rin (stack_effect p) ->
  keeps_frame (stack_effect p) s (code ovf chk p arg d r s).
Proof.
  intros Hp Hr. destruct p; try discriminate Hp; cbn -[c_div c_udiv cond_code do_skips] in *;
    try (apply c_div_frame || apply c_udiv_frame); intros;
    try (destruct c; cbn -[Z.land Z.lor] in *); repeat case_match; by repeat split.
Qed.

(** A primitive whose C code does not itself write memory or stack pointers
    moves both stack pointers by exactly the numbers of cells its stack effect
    declares, stores nothing outside the cells of its results, and leaves the
    floating-point stack, the object and the user pointer alone, whatever it
    computes and wherever it continues. *)
Theorem stack_effect_respected (ovf chk : bool) (p : prim) (s s' : vm) :
  pure p = true -> run ovf chk p s = Some (Ret s') ->
  let e := stack_effect p in
  sp s' = sp s + 8 * (Z.of_nat (n_in e) - Z.of_nat (n_out e)) /\
  rp s' = rp s + 8 * (Z.of_nat (n_rin e) - Z.of_nat (n_rout e)) /\
  fp s' = fp s /\ op s' = op s /\ up s' = up s /\
  forall x, ~ sp s' <= x < sp s' + 8 * Z.of_nat (n_out e) ->
            ~ rp s' <= x < rp s' + 8 * Z.of_nat (n_rout e) -> mem s' x = mem s x.
Proof.
  intros Hp Hrun e. unfold run in Hrun.
  pose proof (code_frame ovf chk p (inst_args p s) (data_items p s) (return_items p s) (enter p s) Hp) as HF.
  unfold return_items in HF at 1. rewrite length_rev, cells_at_length in HF. specialize (HF eq_refl).
  fold e in HF, Hrun. destruct (code _ _ _ _ _ _ _) as [s1 outs routs|xt s1 outs routs|c|];
    [| |discriminate|discriminate].
  all: destruct HF as ((E1 & E2 & E3 & E4 & E5 & E6) & L1 & L2); injection Hrun as <-.
  all: unfold store_results, NEXT, EXEC1, enter, pointer_update in *; cbn in *; fold e in E1, E2.
  all: destruct (sync_sp e), (sync_rp e); cbn; repeat (split; [lia || congruence|]); intros x H1 H2;
    rewrite !set_cells_other; rewrite ?length_rev, ?L1, ?L2; congruence || lia.
Qed.

Lemma stack_effect_respected_witness :
  let s := mkvm 4096 65536 131072 0 0 0 0 0 0 0 0 (fun _ => 0) in
  exists s', run false false I_dupe s = Some (Ret s') /\ sp s' = sp s + 8 * (1 - 2).
Proof.
  intros s. destruct (run false false I_dupe s) as [[s'|]|] eqn:E; [|discriminate E|discriminate E].
  exists s'. split; [done|]. exact (proj1 (stack_effect_respected false false I_dupe s s' eq_refl E)).
Defined.

(** ** Division primitives *)

Lemma quot_div_adjust a b :
  b <> 0 -> Z.quot a b + (if (Z.lxor a b <? 0) && negb (Z.rem a b =? 0) then -1 else 0) = a / b.
Proof.
  intros Hb. rewrite lxor_neg. pose proof (Z.quot_rem' a b) as E. pose proof (Z.rem_bound_abs a b Hb).
  pose proof (Z.rem_sign_nz a b Hb) as Hs. apply Z.div_unique with (Z.rem a b + (if (xorb (a <? 0) (b <? 0)) && negb (Z.rem a b =? 0) then b else 0)).
  - destruct (Z.eqb_spec (Z.rem a b) 0) as [->|Hr]; cbn [negb]; rewrite ?andb_false_r, ?andb_true_r; [lia|].
    specialize (Hs Hr). destruct (Z.ltb_spec a 0), (Z.ltb_spec b 0); cbn [xorb]; lia.
  - destruct (_ && _); lia.
Qed.

Lemma rem_mod_adjust a b :
  b <> 0 -> Z.rem a b + (if (Z.lxor a b <? 0) && negb (Z.rem a b =? 0) then b else 0) = a mod b.
Proof.
  intros Hb. pose proof (quot_div_adjust a b Hb) as H. pose proof (Z.quot_rem' a b). pose proof (Z.div_mod a b Hb).
  destruct (_ && _); nia.
Qed.

(** The division words: floored or symmetric quotient, remainder, or both. *)
Definition division_results (p : prim) (n1 n2 : Z) : option (list Z) :=
  match p with
  | I_slash_f => Some [n1 / n2]
  | I_modf => Some [n1 mod n2]
  | I_slash_mod_f => Some [n1 mod n2; n1 / n2]
  | I_slash_s => Some [Z.quot n1 n2]
  | I_mods => Some [Z.rem n1 n2]
  | I_slash_mod_s => Some [Z.rem n1 n2; Z.quot n1 n2]
  | _ => None
  end.

Lemma division_in_range p n1 n2 l :
  is_cell n1 -> is_cell n2 -> n2 <> 0 -> (n2 <> -1 \/ n1 <> CELL_MIN) ->
  division_results p n1 n2 = Some l -> Forall is_cell l.
Proof.
  intros H1 H2 H0 Hov Hl.
  assert (Hq : is_cell (Z.quot n1 n2)).
  { pose proof (Z.quot_abs n1 n2 H0) as E. pose proof (Z.quot_le_upper_bound (Z.abs n1) (Z.abs n2) (Z.abs n1)).
    pose proof (Z.quot_pos (Z.abs n1) (Z.abs n2)).
    destruct (decide (n2 = -1)) as [->|Hn1].
    - change (-1) with (- (1)). rewrite Z.quot_opp_r, Z.quot_1_r by lia. wrap_unfold. lia.
    - destruct (decide (n2 = 1)) as [->|Hn2]; [by rewrite Z.quot_1_r|].
      assert (2 <= Z.abs n2) by lia.
      assert (Z.abs n1 ÷ Z.abs n2 <= Z.abs n1 / 2).
      { rewrite Z.quot_div_nonneg by lia. apply Z.div_le_compat_l; lia. }
      wrap_unfold. Z.div_mod_to_equations. lia. }
  assert (Hr : is_cell (Z.rem n1 n2)).
  { pose proof (Z.rem_bound_abs n1 n2 H0). wrap_unfold. lia. }
  assert (Hm : is_cell (n1 mod n2)).
  { pose proof (Z.mod_pos_bound n1 n2). pose proof (Z.mod_neg_bound n1 n2). wrap_unfold. lia. }
  assert (Hd : is_cell (n1 / n2)).
  { pose proof (quot_div_adjust n1 n2 H0) as E. rewrite <- E. destruct (_ && _) eqn:G; [|by rewrite Z.add_0_r].
    apply andb_true_iff in G as [G1 G2]. rewrite lxor_neg in G1. apply negb_true_iff, Z.eqb_neq in G2.
    pose proof (Z.quot_rem' n1 n2) as Q. pose proof (Z.rem_bound_abs n1 n2 H0).
    destruct (decide (n2 = 1)) as [->|Hn2]; [rewrite Z.rem_1_r in G2; lia|].
    destruct (decide (n2 = -1)) as [->|Hn3]; [change (-1) with (- (1)) in G2; rewrite Z.rem_opp_r, Z.rem_1_r in G2 by lia; lia|].
    clear -H1 Hq Q G2 Hn2 Hn3 H0 H. wrap_unfold. nia. }
  destruct p; try discriminate Hl; injection Hl as <-;
    repeat (apply List.Forall_cons; [done|]); apply List.Forall_nil.
Qed.

(** C25: the six signed division primitives return the floored or symmetric
    quotient and remainder exactly, with no wrap-around, for all cells except
    a zero divisor and the quotient that does not fit; for these they throw
    the balls -10 and -11, or leave the fault to the processor and the signal
    handler when the engine is built without software checks. *)
Theorem division_primitives_exact (ovf chk : bool) (p : prim) (n1 n2 : Z) (l : list Z) (s : vm) :
  is_cell n1 -> is_cell n2 -> division_results p n1 n2 = Some l ->
  let res := code ovf chk p [] [U64 n1; U64 n2] [] s in
  if n2 =? 0 then res = if chk then Ball BALL_DIVZERO else Trap
  else if (n2 =? -1) && (n1 =? CELL_MIN) then res = if chk then Ball BALL_RESULTRANGE else Trap
  else res = Next s l [] /\ Forall is_cell l.
Proof.
  intros H1 H2 Hl res.
  assert (E : forall k, c_div chk n1 n2 k =
    if n2 =? 0 then (if chk then Ball BALL_DIVZERO else Trap)
    else if (n2 =? -1) && (n1 =? CELL_MIN) then (if chk then Ball BALL_RESULTRANGE else Trap)
    else k (Z.quot n1 n2) (Z.rem n1 n2)).
  { intros k. unfold c_div. destruct (Z.eqb_spec n2 0) as [->|], chk; cbn [andb orb]; try done.
    by destruct (_ && _). }
  destruct (Z.eqb_spec n2 0) as [->|H0]; [|destruct ((n2 =? -1) && (n1 =? CELL_MIN)) eqn:Hov].
  3: assert (Hl' : Forall is_cell l) by
    (apply (division_in_range p n1 n2); [done..| |done]; destruct (Z.eqb_spec n2 (-1)), (Z.eqb_spec n1 CELL_MIN); try discriminate; tauto).
  3: pose proof (quot_div_adjust n1 n2 H0) as A1; pose proof (rem_mod_adjust n1 n2 H0) as A2.
  all: subst res; destruct p; try discriminate Hl; cbn [code code_groups control_code loop_code exception_code string_code arith_code double_code logic_code compare_code stack_code memory_code nth]; rewrite !S64_U64, !S64_small by done;
    rewrite E; try done.
  all: injection Hl as <-; split; [|done].
  all: repeat match goal with |- context [if ?b then _ else _] => destruct b end; rewrite <- ?A1, <- ?A2; repeat f_equal; lia.
Qed.

Lemma division_primitives_exact_witness :
  let s := mkvm 4096 65536 131072 0 0 0 0 0 0 0 0 (fun _ => 0) in
  code false true I_slash_mod_f [] [U64 (-7); U64 2] [] s = Next s [1; -4] [].
Proof.
  intros s. refine (proj1 (division_primitives_exact false true I_slash_mod_f (-7) 2 [1; -4] s _ _ eq_refl));
    unfold is_cell, BH; lia.
Defined.
