(* ===== verification/StackMachine.v ===== *)
(** * The stack machine that Forth programmers see

    An abstract specification of the interpreter: stacks are lists, and a
    primitive takes its arguments off the lists and puts its results on them,
    as its stack effect says.  The interpreter of [Engine], with stacks in
    memory that grow towards lower addresses, refines it as long as code and
    stacks do not overlap; the machine stops where a stack would underflow or
    overflow its area. *)
From S2P Require Import Prelude Memory DoubleCell Division Engine.

(** Primitives that depend only on their arguments, the instruction pointer
    and memory that is read. *)
Definition stack_prim (p : prim) : bool :=
  match p with
  | I_noop | I_call | I_semis | I_unloop | I_branch | I_cond _ | I_paren_for | I_paren_do | I_do _
  | I_i | I_i_tick | I_j | I_k | I_bounds | I_delta_i | I_r_tick_fetch
  | I_toupper | I_slash_string | I_safe_slash_string
  | I_lit | I_plus | I_lit_plus | I_under_plus | I_minus | I_negate | I_one_plus | I_one_minus
  | I_max | I_min | I_abs | I_star
  | I_slash_f | I_modf | I_slash_mod_f | I_slash_s | I_mods | I_slash_mod_s
  | I_two_star | I_two_slash | I_m_plus | I_d_plus | I_d_minus | I_d_negate
  | I_and | I_or | I_x_or | I_invert | I_umax | I_umin | I_mux | I_select
  | I_u_slash | I_umod | I_u_slash_mod
  | I_compare _ _ | I_within
  | I_to_r | I_r_from | I_rdrop | I_two_to_r | I_two_r_from | I_two_r_fetch | I_two_r_drop
  | I_over | I_drop | I_swap | I_dupe | I_rote | I_not_rote | I_nip | I_tuck
  | I_third | I_fourth | I_two_drop | I_two_dupe | I_two_over | I_two_swap | I_two_rote
  | I_two_nip | I_two_tuck
  | I_fetch | I_lit_fetch | I_two_fetch
  | I_cell_plus | I_cells | I_char_plus | I_cell_divide | I_cell_minus | I_aligned => true
  | _ => false
  end.

(** The memory that the C code of a stack primitive reads: address and length. *)
Definition reads (p : prim) (arg d : list Z) : Z * Z :=
  match p with
  | I_fetch => (nth 0 d 0, 8)
  | I_lit_fetch => (nth 0 arg 0, 8)
  | I_two_fetch => (nth 0 d 0, 16)
  | _ => (0, 0)
  end.

(** Top of the stack first. *)
Record am := AM { a_ip : Z; a_ds : list Z; a_rs : list Z }.

Section Machine.
Context (add_overflow check_division_sw : bool) (symbols : Z -> option prim).
(** The memory of code and constants, and where it is. *)
Context (m0 : memory) (static : Z -> bool).
(** Capacities of the stacks, in cells. *)
Context (dmax rmax : nat).

Definition static_range (a n : Z) : bool :=
  forallb (fun i => static (a + Z.of_nat i)) (seq 0 (Z.to_nat n)).

Definition vm0 (i : Z) : vm := mkvm i 0 0 0 0 0 0 0 0 0 0 m0.

(** The effect of the primitive [p] at [a_ip a]. *)
Definition aprim (p : prim) (a : am) : option (outcome am) :=
  let e := stack_effect p in
  let arg := cells_at m0 (a_ip a + 8) (n_inst e) in
  let d := rev (take (n_in e) (a_ds a)) in
  let r := rev (take (n_rin e) (a_rs a)) in
  let next := a_ip a + 8 * (1 + Z.of_nat (n_inst e)) in
  if stack_prim p && (n_in e <=? length (a_ds a))%nat && (n_rin e <=? length (a_rs a))%nat
     && static_range (a_ip a) (8 * (1 + Z.of_nat (n_inst e)))
     && static_range (reads p arg d).1 (reads p arg d).2
  then
    match code add_overflow check_division_sw p arg d r (vm0 next) with
    | Next s outs routs =>
        let ds := rev (map U64 outs) ++ drop (n_in e) (a_ds a) in
        let rs := rev (map U64 routs) ++ drop (n_rin e) (a_rs a) in
        if (length ds <=? dmax)%nat && (length rs <=? rmax)%nat
        then Some (Ret (AM (ip s) ds rs)) else None
    | Ball c => Some (Throw c)
    | _ => None
    end
  else None.

Definition astep (a : am) : option (outcome am) := symbols (load_cell m0 (a_ip a)) ≫= fun p => aprim p a.

Definition asteps : am -> am -> Prop := rtc (fun a a' => astep a = Some (Ret a')).

(** [n] steps, executable. *)
Fixpoint arun (n : nat) (a : am) : option am :=
  match n with
  | O => Some a
  | S n => match astep a with Some (Ret a') => arun n a' | _ => None end
  end.

(** ** Threaded code

    [lab p] is the label of [p]'s code; a piece of threaded code is a list of
    cells: labels and their arguments. *)

Context (lab : prim -> Z).

Definition labels_ok : Prop := forall p, symbols (lab p) = Some p.

(** The address of cell [k]. *)
Definition at_ (base : Z) (k : nat) : Z := base + 8 * Z.of_nat k.

Definition threaded (base : Z) (l : list Z) : Prop :=
  cells_at m0 base (length l) = l /\ static_range base (8 * Z.of_nat (length l)) = true.

(** ** Refinement *)

(** The ends of the stack areas. *)
Context (dbase rbase : Z).

(** A machine state of the interpreter stands for an abstract one. *)
Record represents (s : vm) (a : am) : Prop := {
  rep_ip : ip s = a_ip a;
  rep_next : real_ca s = load_cell (mem s) (ip s);
  rep_sp : sp s = dbase - 8 * Z.of_nat (length (a_ds a));
  rep_rp : rp s = rbase - 8 * Z.of_nat (length (a_rs a));
  rep_ds : cells_at (mem s) (sp s) (length (a_ds a)) = a_ds a;
  rep_rs : cells_at (mem s) (rp s) (length (a_rs a)) = a_rs a;
  rep_static : forall x, static x = true -> mem s x = m0 x;
  rep_room : (length (a_ds a) <= dmax)%nat /\ (length (a_rs a) <= rmax)%nat
}.

(** Code and constants lie outside the stacks, and the stacks do not overlap. *)
Record areas_disjoint : Prop := {
  code_not_data : forall x, static x = true -> ~ dbase - 8 * Z.of_nat dmax <= x < dbase;
  code_not_return : forall x, static x = true -> ~ rbase - 8 * Z.of_nat rmax <= x < rbase;
  data_not_return : rbase <= dbase - 8 * Z.of_nat dmax \/ dbase <= rbase - 8 * Z.of_nat rmax
}.

Lemma arun_asteps n a a' : arun n a = Some a' -> asteps a a'.
Proof.
  revert a. induction n as [|n IH]; cbn [arun]; intros a H.
  - injection H as ->. apply rtc_refl.
  - destruct (astep a) as [[a1|]|] eqn:E; try discriminate. eapply rtc_l; [exact E|]. by apply IH.
Qed.

Lemma static_range_spec a n x : static_range a n = true -> a <= x < a + n -> static x = true.
Proof.
  unfold static_range. rewrite List.forallb_forall. intros H Hx.
  specialize (H (Z.to_nat (x - a))). replace (a + Z.of_nat (Z.to_nat (x - a))) with x in H by lia.
  apply H, in_seq. lia.
Qed.

Lemma load_static s a n b :
  (forall x, static x = true -> mem s x = m0 x) -> static_range a n = true ->
  a <= b -> b + 8 <= a + n -> load_cell (mem s) b = load_cell m0 b.
Proof.
  intros Hs Hr H1 H2. unfold load_cell. f_equal. apply bytes_at_ext. intros i Hi.
  apply Hs, (static_range_spec a n); [done|lia].
Qed.

Lemma static_range_sub a n b k :
  static_range a n = true -> a <= b -> b + k <= a + n -> static_range b k = true.
Proof.
  intros H H1 H2. unfold static_range. apply List.forallb_forall. intros i Hi. apply in_seq in Hi.
  apply (static_range_spec a n); [done|lia].
Qed.

Lemma cells_at_lookup m a n k : (k < n)%nat -> cells_at m a n !! k = Some (load_cell m (a + 8 * Z.of_nat k)).
Proof.
  intros H. replace n with (k + S (n - S k))%nat by lia. rewrite cells_at_app, lookup_app_r; rewrite cells_at_length; [|lia].
  by rewrite Nat.sub_diag.
Qed.

Lemma threaded_load base l k v : threaded base l -> l !! k = Some v -> load_cell m0 (at_ base k) = v.
Proof.
  intros [H _] Hk. pose proof (lookup_lt_Some _ _ _ Hk) as Hlt. rewrite <- H, cells_at_lookup in Hk by done.
  by injection Hk.
Qed.

Lemma threaded_args base l k n :
  threaded base l -> (k + n <= length l)%nat -> cells_at m0 (at_ base k) n = take n (drop k l).
Proof.
  intros [H _] Hk. rewrite <- H at 1. apply list_eq. intros i. destruct (decide (i < n)%nat).
  - rewrite lookup_take_lt, lookup_drop, !cells_at_lookup by lia. unfold at_. do 2 f_equal. lia.
  - rewrite !lookup_ge_None_2; [done| |rewrite cells_at_length; lia].
    rewrite length_take. lia.
Qed.

(** One step through a piece of threaded code. *)
Lemma astep_threaded base l k p ds rs s outs routs :
  labels_ok -> threaded base l -> l !! k = Some (lab p) ->
  let e := stack_effect p in
  let arg := take (n_inst e) (drop (S k) l) in
  (S k + n_inst e <= length l)%nat ->
  stack_prim p = true -> (n_in e <= length ds)%nat -> (n_rin e <= length rs)%nat ->
  static_range (reads p arg (rev (take (n_in e) ds))).1 (reads p arg (rev (take (n_in e) ds))).2 = true ->
  code add_overflow check_division_sw p arg (rev (take (n_in e) ds)) (rev (take (n_rin e) rs))
    (vm0 (at_ base (S k + n_inst e))) = Next s outs routs ->
  (length outs + (length ds - n_in e) <= dmax)%nat -> (length routs + (length rs - n_rin e) <= rmax)%nat ->
  astep (AM (at_ base k) ds rs) =
    Some (Ret (AM (ip s) (rev (map U64 outs) ++ drop (n_in e) ds) (rev (map U64 routs) ++ drop (n_rin e) rs))).
Proof.
  intros HL Ht Hk e arg Hlen Hp Hd Hr Hreads Hcode H1 H2. unfold astep. cbn [a_ip].
  rewrite (threaded_load _ _ _ _ Ht Hk), HL. cbn [mbind option_bind]. unfold aprim. cbn [a_ip a_ds a_rs]. fold e.
  replace (at_ base k + 8) with (at_ base (S k)) by (unfold at_; lia).
  rewrite (threaded_args _ _ _ _ Ht Hlen). fold arg.
  replace (at_ base k + 8 * (1 + Z.of_nat (n_inst e))) with (at_ base (S k + n_inst e)) by (unfold at_; lia).
  rewrite Hp, Hreads, (proj2 (Nat.leb_le _ _) Hd), (proj2 (Nat.leb_le _ _) Hr), Hcode.
  rewrite (static_range_sub _ _ (at_ base k) _ (proj2 Ht)) by (unfold at_; lia). cbn [andb].
  rewrite !length_app, !length_rev, !length_map, !length_drop.
  by rewrite (proj2 (Nat.leb_le _ _) H1), (proj2 (Nat.leb_le _ _) H2).
Qed.

(** A stack primitive depends on the state only through the instruction
    pointer and the static memory it reads. *)
Lemma code_abstract p arg d r s :
  stack_prim p = true -> (forall x, static x = true -> mem s x = m0 x) ->
  static_range (reads p arg d).1 (reads p arg d).2 = true ->
  code add_overflow check_division_sw p arg d r s =
  match code add_overflow check_division_sw p arg d r (vm0 (ip s)) with
  | Next s0 outs routs => Next (set_ip (ip s0) s) outs routs
  | Jump xt s0 outs routs => Jump xt (set_ip (ip s0) s) outs routs
  | Ball c => Ball c
  | Trap => Trap
  end.
Proof.
  intros Hp Hs Hr.
  destruct p; try discriminate Hp; try destruct p; cbn -[c_div c_udiv cond_code do_skips load_cell S64 U64 FLAG] in *;
    unfold c_div, c_udiv; rewrite ?(load_static s _ _ _ Hs Hr) by lia; repeat case_match; by destruct s.
Qed.

Lemma cells_static s a n b k :
  (forall x, static x = true -> mem s x = m0 x) -> static_range a n = true ->
  a <= b -> b + 8 * Z.of_nat k <= a + n -> cells_at (mem s) b k = cells_at m0 b k.
Proof. intros Hs Hr H1 H2. apply cells_at_ext. intros x Hx. apply Hs, (static_range_spec a n); [done|lia]. Qed.

Lemma stack_items m b l k :
  cells_at m b (length l) = l -> (k <= length l)%nat ->
  cells_at m b k = take k l /\ cells_at m (b + 8 * Z.of_nat k) (length l - k) = drop k l.
Proof.
  intros H Hk. assert (E : cells_at m b (k + (length l - k)) = l) by (by rewrite Nat.add_comm, Nat.sub_add).
  rewrite cells_at_app in E. split.
  - rewrite <- E, take_app_length'; [done|by rewrite cells_at_length].
  - rewrite <- E at 2. rewrite drop_app_length'; [done|by rewrite cells_at_length].
Qed.

Lemma stack_prim_pure p :
  stack_prim p = true -> pure p = true /\ sync_sp (stack_effect p) = false /\ sync_rp (stack_effect p) = false.
Proof. destruct p; try done; try (destruct c; done); try (destruct p; done). Qed.

(** Storing results at the new top of a stack. *)
Lemma stored_stack m m' b k outs l :
  (k <= length l)%nat -> cells_at m b (length l) = l ->
  let b' := b + 8 * (Z.of_nat k - Z.of_nat (length outs)) in
  (forall x, b' <= x < b' + 8 * Z.of_nat (length outs) -> m' x = set_cells m b' (rev outs) x) ->
  (forall x, b' + 8 * Z.of_nat (length outs) <= x < b + 8 * Z.of_nat (length l) -> m' x = m x) ->
  cells_at m' b' (length (rev (map U64 outs) ++ drop k l)) = rev (map U64 outs) ++ drop k l.
Proof.
  intros Hk Hl b' H1 H2. rewrite length_app, length_rev, length_map, cells_at_app. f_equal.
  - rewrite (cells_at_ext _ (set_cells m b' (rev outs))) by done.
    rewrite <- length_rev, cells_at_set_cells, map_rev. done.
  - rewrite length_drop, <- (proj2 (stack_items m b l k Hl Hk)).
    replace (b' + 8 * Z.of_nat (length outs)) with (b + 8 * Z.of_nat k) in * by lia.
    apply cells_at_ext. intros x Hx. apply H2. lia.
Qed.

Lemma prim_refines p s a res :
  areas_disjoint -> represents s a -> aprim p a = Some res ->
  match res with
  | Ret a' => exists s', run add_overflow check_division_sw p s = Some (Ret s') /\ represents s' a'
  | Throw c => run add_overflow check_division_sw p s = Some (Throw c)
  end.
Proof.
  intros [D1 D2 D3] [R1 R2 R3 R4 R5 R6 R7 [R8 R9]] H. unfold aprim in H.
  destruct (stack_prim p && _ && _ && _ && _) eqn:G; [|discriminate].
  repeat (apply andb_true_iff in G as [G ?]). rename H0 into Hreads, H1 into Hcode, H2 into Hr, H3 into Hd.
  apply Nat.leb_le in Hr, Hd. destruct (stack_prim_pure p G) as (Hp & S1 & S2).
  destruct (stack_items _ _ _ _ R5 Hd) as [Ed _]. destruct (stack_items _ _ _ _ R6 Hr) as [Er _].
  unfold run, inst_args, data_items, return_items. rewrite Ed, Er.
  rewrite R1, (cells_static s _ _ _ _ R7 Hcode) by lia.
  assert (L := code_frame add_overflow check_division_sw p (cells_at m0 (a_ip a + 8) (n_inst (stack_effect p)))
    (rev (take (n_in (stack_effect p)) (a_ds a))) (rev (take (n_rin (stack_effect p)) (a_rs a)))
    (enter p s) Hp). rewrite length_rev, length_take_le in L by done. specialize (L eq_refl).
  rewrite code_abstract in L |- * by done.
  replace (ip (enter p s)) with (a_ip a + 8 * (1 + Z.of_nat (n_inst (stack_effect p)))) in * by (cbn; lia).
  destruct (code _ _ p _ _ _ (vm0 _)) as [s0 outs routs|xt s0 outs routs|c|]; try discriminate.
  2: by injection H as <-.
  destruct L as (_ & L1 & L2). destruct ((_ <=? dmax)%nat && _) eqn:Hroom; [|discriminate].
  injection H as <-. apply andb_true_iff in Hroom as [Q1 Q2]. apply Nat.leb_le in Q1, Q2.
  eexists. split; [done|]. unfold store_results, NEXT, enter, pointer_update. rewrite S1, S2.
  assert (W1 : length (rev (map U64 outs) ++ drop (n_in (stack_effect p)) (a_ds a)) =
    (length outs + (length (a_ds a) - n_in (stack_effect p)))%nat)
    by (by rewrite length_app, length_rev, length_map, length_drop).
  assert (W2 : length (rev (map U64 routs) ++ drop (n_rin (stack_effect p)) (a_rs a)) =
    (length routs + (length (a_rs a) - n_rin (stack_effect p)))%nat)
    by (by rewrite length_app, length_rev, length_map, length_drop).
  split; cbn [ip sp rp mem real_ca set_real_ca set_mem set_ip set_sp set_rp a_ip a_ds a_rs];
    rewrite <- ?L1, <- ?L2; try done; try lia.
  - apply stored_stack with (mem s); [done|done| |]; intros x Hx;
      rewrite set_cells_other; rewrite ?length_rev; try done; try lia.
    apply set_cells_other. rewrite length_rev. lia.
  - apply stored_stack with (set_cells (mem s) (sp s + 8 * (Z.of_nat (n_in (stack_effect p)) - Z.of_nat (length outs))) (rev outs));
      [done| |done|].
    + rewrite <- R6 at 2. apply cells_at_ext. intros x Hx. apply set_cells_other. rewrite length_rev. lia.
    + intros x Hx. apply set_cells_other. rewrite length_rev. lia.
  - intros x Hx. specialize (D1 x Hx). specialize (D2 x Hx).
    rewrite !set_cells_other; rewrite ?length_rev; try lia. by apply R7.
Qed.

Lemma step_refines s a res :
  areas_disjoint -> represents s a -> astep a = Some res ->
  match res with
  | Ret a' => exists s', step add_overflow check_division_sw symbols s = Some (Ret s') /\ represents s' a'
  | Throw c => step add_overflow check_division_sw symbols s = Some (Throw c)
  end.
Proof.
  intros HA HR H. unfold astep in H. destruct (symbols (load_cell m0 (a_ip a))) as [p|] eqn:Ep; [|discriminate].
  cbn in H. assert (E : symbols (real_ca s) = Some p).
  { rewrite (rep_next _ _ HR), (rep_ip _ _ HR), <- Ep. f_equal. unfold aprim in H.
    destruct (_ && _ && _ && _ && _) eqn:G; [|discriminate]. repeat (apply andb_true_iff in G as [G ?]).
    match goal with Hc : static_range (a_ip a) _ = true |- _ =>
      apply (load_static _ _ _ _ (rep_static _ _ HR) Hc); lia end. }
  unfold step. rewrite E. cbn. by apply (prim_refines p s a res).
Qed.

(** C4: the interpreter implements the stack machine: from a state that stands
    for an abstract one, with code and stacks in disjoint areas, it follows
    every run of the abstract machine primitive by primitive and stands for
    the abstract machine's state at its end, and where the abstract machine
    throws, the interpreter throws the same ball. *)
Theorem interpreter_refines_stack_machine (s : vm) (a a' : am) :
  areas_disjoint -> represents s a -> asteps a a' ->
  exists s', steps_to add_overflow check_division_sw symbols s s' /\ represents s' a' /\
    forall c, astep a' = Some (Throw c) -> step add_overflow check_division_sw symbols s' = Some (Throw c).
Proof.
  intros HA HR H. revert s HR. induction H as [a|a a1 a' H1 H IH]; intros s HR.
  - exists s. split; [apply rtc_refl|]. split; [done|]. intros c Hc. by apply (step_refines s a _ HA HR) in Hc.
  - destruct (step_refines s a _ HA HR H1) as (s1 & E1 & R1). destruct (IH s1 R1) as (s' & E2 & R').
    exists s'. split; [|done]. by eapply rtc_l.
Qed.
End Machine.

(** ** A concrete machine

    Code at 4096, one cell at 8192, the data stack below 65536, the return
    stack below 131072. *)
Definition demo_mem (l : list Z) (v : Z) : memory := set_cells (set_cells (fun _ => 0) 4096 l) 8192 [v].
Definition demo_static (x : Z) : bool := (4096 <=? x) && (x <? 12288).
Definition demo_vm (l : list Z) : vm :=
  mkvm 4096 65536 131072 0 0 0 0 0 (load_cell (demo_mem l 0) 4096) 0 0 (demo_mem l 0).

Lemma demo_areas : areas_disjoint demo_static 64 64 65536 131072.
Proof. split; unfold demo_static; intros; zbool; lia. Qed.

Lemma demo_represents l :
  represents (demo_mem l 0) demo_static 64 64 65536 131072 (demo_vm l) (AM 4096 [] []).
Proof. split; cbn [demo_vm ip sp rp real_ca mem a_ip a_ds a_rs length cells_at]; try done; lia. Qed.

(** [7 3 - ;s] *)
Definition demo_code : list Z :=
  [table_label I_lit; 7; table_label I_lit; 3; table_label I_minus; table_label I_noop].

Lemma interpreter_refines_stack_machine_witness :
  asteps false false table_symbols (demo_mem demo_code 0) demo_static 64 64 (AM 4096 [] []) (AM (4096 + 40) [4] []) /\
  exists s', steps_to false false table_symbols (demo_vm demo_code) s' /\
    represents (demo_mem demo_code 0) demo_static 64 64 65536 131072 s' (AM (4096 + 40) [4] []) /\
    forall c, astep false false table_symbols (demo_mem demo_code 0) demo_static 64 64 (AM (4096 + 40) [4] []) = Some (Throw c) ->
      step false false table_symbols s' = Some (Throw c).
Proof.
  assert (H : asteps false false table_symbols (demo_mem demo_code 0) demo_static 64 64 (AM 4096 [] []) (AM (4096 + 40) [4] [])).
  { apply (arun_asteps _ _ _ _ _ _ _ 3). vm_compute. reflexivity. }
  split; [exact H|].
  apply (interpreter_refines_stack_machine false false table_symbols (demo_mem demo_code 0) demo_static 64 64 65536 131072
    (demo_vm demo_code) (AM 4096 [] []) _ demo_areas (demo_represents demo_code) H).
Defined.
