(* ===== verification/Counted.v ===== *)
(** * Counted loops (the loop primitives of prim)

    When a loop primitive leaves its loop, and how often a loop executes its
    body.  A cell is a point on a circle of [B] numbers, and stepping the index
    by [n] walks [|n|] unit steps along that circle; a loop ends in the step
    that walks over its boundary. *)
From S2P Require Import Prelude Memory Division Engine StackMachine.

(** ** Walks on the circle of cells *)

(** One of [k] unit steps upwards from [i] leaves [a]. *)
Definition walk_up (i k a : Z) : Prop := exists j, 0 <= j < k /\ U64 (i + j) = U64 a.
Definition walk_down (i k a : Z) : Prop := exists j, 0 <= j < k /\ U64 (i - j) = U64 a.

Lemma U64_sub_same a b c : U64 a = U64 b -> U64 (a - c) = U64 (b - c).
Proof. unfold U64. intros E. by rewrite (Zminus_mod a), E, <- Zminus_mod. Qed.

Lemma U64_le j : 0 <= j -> U64 j <= j.
Proof. intros. apply Z.mod_le; [done|apply B_pos]. Qed.

Lemma walk_up_distance i k a : walk_up i k a <-> U64 (a - i) < k.
Proof.
  split.
  - intros (j & Hj & E). rewrite <- (U64_sub_same _ _ i E). replace (i + j - i) with j by lia.
    pose proof (U64_le j). lia.
  - intros H. exists (U64 (a - i)). pose proof (U64_range (a - i)) as [? _]. split; [lia|].
    rewrite U64_add_r. f_equal. lia.
Qed.

Lemma walk_down_distance i k a : walk_down i k a <-> U64 (i - a) < k.
Proof.
  split.
  - intros (j & Hj & E). pose proof (U64_sub_same _ _ (a - j) E) as E'.
    replace (i - j - (a - j)) with (i - a) in E' by lia. replace (a - (a - j)) with j in E' by lia.
    rewrite E'. pose proof (U64_le j). lia.
  - intros H. exists (U64 (i - a)). pose proof (U64_range (i - a)) as [? _]. split; [lia|].
    wrap_lia.
Qed.

(** ** The boundary of each loop

    [n] is the increment that the primitive takes from the data stack (1 for
    [(loop)]): signed for [(+loop)] and [(s+loop)], unsigned for the others. *)
Definition walks_over (c : condbranch) (limit index n : Z) : Prop :=
  match c with
  | paren_loop => walk_up index 1 (limit - 1)
  | paren_plus_loop => if n <? 0 then walk_down index (- n) limit else walk_up index n (limit - 1)
  | paren_minus_loop => walk_down index n (limit + 1)
  | paren_slash_loop => walk_up index n (limit - 1)
  | paren_symmetric_plus_loop =>
      if n <? 0 then walk_down index (- n) (limit + 1) else walk_up index n (limit - 1)
  | _ => False
  end.

Definition next_index (c : condbranch) (index n : Z) : Z :=
  match c with
  | paren_loop => index + 1
  | paren_minus_loop => index - n
  | _ => index + n
  end.

Definition is_counted_loop (c : condbranch) : bool :=
  match c with question_branch | paren_next => false | _ => true end.

(** The item on the data stack that stands for [n]. *)
Definition valid_step (c : condbranch) (n : Z) : Prop :=
  match c with
  | paren_loop => n = 1
  | paren_minus_loop | paren_slash_loop => is_ucell n
  | _ => is_cell n
  end.

Lemma flip_sign x : is_cell x -> Z.lxor x (- BH) = S64 (x + BH).
Proof.
  intros Hx.
  assert (H0 : forall y, 0 <= y < BH -> Z.lxor y (- BH) = y - BH).
  { intros y Hy. rewrite <- Z.add_nocarry_lxor; [lia|]. apply Z.bits_inj'. intros i Hi.
    rewrite Z.land_spec, Z.bits_0. change (- BH) with (- 2 ^ 63). destruct (Z.lt_ge_cases i 63).
    - replace (Z.testbit (- 2 ^ 63) i) with false; [apply andb_false_r|].
      replace (- 2 ^ 63) with ((-1) * 2 ^ 63) by lia. by rewrite Z.mul_pow2_bits_low.
    - rewrite (Z.testbit_eqb y) by lia. rewrite Z.div_small; [done|].
      split; [lia|]. apply Z.lt_le_trans with BH; [lia|]. change BH with (2 ^ 63). apply Z.pow_le_mono_r; lia. }
  destruct (Z.le_gt_cases 0 x).
  - rewrite H0 by (unfold is_cell in Hx; lia). wrap_lia.
  - assert (E : Z.lxor (x + BH) (- BH) = x) by (rewrite H0; unfold is_cell in Hx; lia).
    rewrite <- E at 1. rewrite Z.lxor_assoc, Z.lxor_nilpotent, Z.lxor_0_r. wrap_lia.
Qed.

Lemma lor_lnot_neg a b : (Z.lor (Z.lnot a) b <? 0) = (0 <=? a) || (b <? 0).
Proof.
  destruct (Z.ltb_spec (Z.lor (Z.lnot a) b) 0) as [H|H].
  - rewrite Z.lor_neg, Z.lnot_neg in H. symmetry. apply orb_true_iff. destruct H; [left|right]; lia.
  - rewrite Z.lor_nonneg, Z.lnot_nonneg in H. symmetry. apply orb_false_iff. split; lia.
Qed.

Lemma plus_loop_variants olddiff n :
  is_cell olddiff -> is_cell n ->
  (0 <=? Z.land (Z.lxor olddiff (S64 (olddiff + n))) (Z.lxor olddiff n)) =
  add_fits (Z.lxor olddiff (- BH)) n.
Proof.
  intros Ho Hn. rewrite flip_sign by done. unfold add_fits.
  destruct (Z.leb_spec 0 (Z.land (Z.lxor olddiff (S64 (olddiff + n))) (Z.lxor olddiff n))) as [H|H];
    symmetry.
  - rewrite Z.land_nonneg, !Z.lxor_nonneg in H. apply andb_true_iff. rewrite Z.leb_le, Z.ltb_lt. wrap_lia.
  - assert (~ (0 <= olddiff <-> 0 <= S64 (olddiff + n)) /\ ~ (0 <= olddiff <-> 0 <= n)) as [H1 H2].
    { rewrite <- !Z.lxor_nonneg. rewrite Z.land_neg in H. lia. }
    apply andb_false_iff. rewrite Z.leb_gt, Z.ltb_ge. wrap_lia.
Qed.

Lemma plus_loop_taken limit index n :
  is_cell limit -> is_cell index -> is_cell n ->
  add_fits (Z.lxor (S64 (index - limit)) (- BH)) n = false <-> walks_over paren_plus_loop limit index n.
Proof.
  intros Hl Hi Hn. rewrite flip_sign by apply S64_range. cbn [walks_over]. unfold add_fits.
  destruct (Z.ltb_spec n 0); rewrite ?walk_up_distance, ?walk_down_distance, andb_false_iff, Z.leb_gt, Z.ltb_ge;
    wrap_lia.
Qed.

Lemma symmetric_loop_taken limit index n :
  is_cell limit -> is_cell index -> is_cell n ->
  let diff := S64 (index - limit) in
  let newdiff := S64 (diff + n) in
  (Z.lor (Z.lnot (if n <? 0 then S64 (- diff) else diff)) (if n <? 0 then S64 (- newdiff) else newdiff) <? 0)
    = false <-> walks_over paren_symmetric_plus_loop limit index n.
Proof.
  intros Hl Hi Hn diff newdiff. rewrite lor_lnot_neg, orb_false_iff, Z.leb_gt, Z.ltb_ge. cbn [walks_over].
  subst diff newdiff. destruct (Z.ltb_spec n 0); rewrite ?walk_up_distance, ?walk_down_distance; wrap_lia.
Qed.

(** The condition of the branch and the results, for all cells. *)
Lemma cond_code_boundary (ovf : bool) (c : condbranch) (limit index n : Z) :
  is_counted_loop c = true -> is_cell limit -> is_cell index -> valid_step c n ->
  let '(taken, routs) := cond_code ovf c [U64 n] [U64 limit; U64 index] in
  (taken = false <-> walks_over c limit index n) /\
  map U64 routs = [U64 limit; U64 (next_index c index n)].
Proof.
  intros Hc Hl Hi Hn. destruct (cond_code _ _ _ _) as [taken routs] eqn:E.
  destruct c; try discriminate Hc; cbn [cond_code nth] in E;
    rewrite ?S64_U64, ?(S64_small limit), ?(S64_small index) in E by done; cbn [valid_step] in Hn;
    injection E as <- <-; (split; [|cbn [map next_index]; apply (f_equal2 cons); [|apply (f_equal2 cons); [|done]]; wrap_lia]).
  - cbn [walks_over]. rewrite walk_up_distance, negb_false_iff, Z.eqb_eq. wrap_lia.
  - rewrite (S64_small n) by done. destruct ovf; [by apply plus_loop_taken|].
    rewrite plus_loop_variants by (done || apply S64_range). by apply plus_loop_taken.
  - rewrite (U64_small n) by done. cbn [walks_over]. rewrite walk_down_distance, Z.leb_gt. wrap_lia.
  - rewrite (U64_small n) by done. cbn [walks_over]. rewrite walk_up_distance, Z.leb_gt. wrap_lia.
  - rewrite (S64_small n) by done. by apply symmetric_loop_taken.
Qed.

(** ** Executing a counted loop *)

(** The distance to the boundary: unit steps that do not leave the loop. *)
Definition distance (c : condbranch) (limit index n : Z) : Z :=
  match c with
  | paren_loop | paren_slash_loop => U64 (limit - 1 - index)
  | paren_minus_loop => U64 (index - (limit + 1))
  | paren_plus_loop => if n <? 0 then U64 (index - limit) else U64 (limit - 1 - index)
  | _ => if n <? 0 then U64 (index - (limit + 1)) else U64 (limit - 1 - index)
  end.

(** How often the loop primitive is reached. *)
Definition trip_count (c : condbranch) (limit start n : Z) : Z := distance c limit start n / Z.abs n + 1.

Definition index_at (c : condbranch) (start n j : Z) : Z := start + j * next_index c 0 n.

(** What the loop primitive expects on the data stack. *)
Definition step_items (c : condbranch) (n : Z) : list Z :=
  match c with paren_loop => [] | _ => [U64 n] end.

Lemma walks_over_distance c limit index n :
  is_counted_loop c = true -> valid_step c n ->
  walks_over c limit index n <-> distance c limit index n < Z.abs n.
Proof.
  intros Hc Hn. destruct c; try discriminate Hc; cbn [walks_over distance valid_step] in *;
    try (destruct (Z.ltb_spec n 0)); rewrite ?walk_up_distance, ?walk_down_distance;
    unfold is_ucell in *; subst; rewrite ?Z.abs_eq, ?Z.abs_neq by lia; done.
Qed.

Lemma distance_S64 c limit index n : distance c (S64 limit) (S64 index) n = distance c limit index n.
Proof. unfold distance. destruct c; try case_match; wrap_lia. Qed.

Lemma distance_range c limit index n : is_ucell (distance c limit index n).
Proof. unfold distance. destruct c; try case_match; apply U64_range. Qed.

Lemma cond_code_any ovf c limit index n :
  is_counted_loop c = true -> valid_step c n ->
  let '(taken, routs) := cond_code ovf c [U64 n] [U64 limit; U64 index] in
  (taken = false <-> walks_over c limit index n) /\
  map U64 routs = [U64 limit; U64 (next_index c index n)].
Proof.
  intros Hc Hn.
  pose proof (cond_code_boundary ovf c (S64 limit) (S64 index) n Hc (S64_range _) (S64_range _) Hn) as H.
  rewrite !U64_S64 in H. destruct (cond_code ovf c [U64 n] [U64 limit; U64 index]) as [taken routs].
  destruct H as [Hw Hr]. rewrite walks_over_distance, distance_S64, <- walks_over_distance in Hw by done.
  split; [done|]. rewrite Hr. apply (f_equal2 cons); [done|]. apply (f_equal2 cons); [|done]. destruct c; cbn [next_index]; wrap_lia.
Qed.

(** C17: for all cells, wrapped or not, a counted-loop primitive leaves the loop
    exactly in the step that walks over the loop's boundary: [(loop)],
    [(+loop)] upwards and [(/loop)] from limit-1 to limit, [(+loop)] downwards
    from limit to limit-1, [(-loop)] from limit+1 to limit, and [(s+loop)] from
    limit-sign(n) to limit; with or without the compiler's overflow check.
    Otherwise it branches to its inline target.  It takes the increment from
    the data stack, keeps the limit on the return stack and steps the index
    there modulo the cell size. *)
Theorem loop_leaves_at_boundary (ovf chk : bool) (c : condbranch) (s : vm) (limit index n : Z) :
  is_counted_loop c = true -> valid_step c n ->
  load_cell (mem s) (rp s) = U64 index -> load_cell (mem s) (rp s + 8) = U64 limit ->
  (c <> paren_loop -> load_cell (mem s) (sp s) = U64 n) ->
  exists s', run ovf chk (I_cond c) s = Some (Ret s') /\
    (walks_over c limit index n -> ip s' = ip s + 16) /\
    (~ walks_over c limit index n -> ip s' = load_cell (mem s) (ip s + 8)) /\
    load_cell (mem s') (rp s) = U64 (next_index c index n) /\ load_cell (mem s') (rp s + 8) = U64 limit /\
    rp s' = rp s /\ sp s' = sp s + 8 * Z.of_nat (length (step_items c n)).
Proof.
  intros Hc Hn Hi Hl Hsp. pose proof (cond_code_any ovf c limit index n Hc Hn) as H.
  assert (He : stack_effect (I_cond c) = inline 1 (both (length (step_items c n)) 2 0 2)) by (by destruct c).
  assert (Hd : cond_code ovf c (data_items (I_cond c) s) (return_items (I_cond c) s) =
               cond_code ovf c [U64 n] [U64 limit; U64 index]).
  { unfold data_items, return_items. rewrite He. cbn [n_in n_rin inline both cells_at rev app]. rewrite Hi, Hl.
    destruct c; try discriminate Hc; cbn [step_items length cells_at rev app]; rewrite ?Hsp by done; done. }
  unfold run. cbn [code code_groups control_code]. rewrite Hd. destruct (cond_code ovf c [U64 n] [U64 limit; U64 index]) as [taken routs].
  destruct H as [Hw Hr]. eexists. split; [reflexivity|].
  assert (Hrr : exists a b, routs = [a; b] /\ U64 a = U64 limit /\ U64 b = U64 (next_index c index n)).
  { destruct routs as [|a [|b [|]]]; try discriminate Hr. injection Hr as E1 E2. by exists a, b. }
  destruct Hrr as (a & b & -> & Ea & Eb).
  unfold store_results, NEXT, enter, pointer_update, inst_args. rewrite !He.
  cbn [n_inst n_in n_rin n_out n_rout sync_sp sync_rp inline both cells_at nth].
  destruct taken; cbn -[set_cell load_cell Z.of_nat]; (split_and!; [intros Hx|intros Hx|..]).
  all: try (by apply Hw in Hx); try lia; try (by destruct Hx; apply Hw); try done.
  all: replace (rp s + 8 * (Z.of_nat 2 - Z.of_nat 2)) with (rp s) by lia.
  all: rewrite ?load_set_cell, ?load_set_cell_ne, ?load_set_cell by lia; congruence.
Qed.

Lemma loop_leaves_at_boundary_witness :
  let m := set_cells (set_cells (fun _ => 0) 65528 [U64 (-3)]) 131056 [12; 10] in
  let s := mkvm 4096 65528 131056 0 0 0 0 0 0 0 0 m in
  exists s', run true false (I_cond paren_plus_loop) s = Some (Ret s') /\
    (walks_over paren_plus_loop 10 12 (-3) -> ip s' = 4112).
Proof.
  intros m s. destruct (loop_leaves_at_boundary true false paren_plus_loop s 10 12 (-3)) as (s' & E & Hw & _).
  - reflexivity.
  - cbn [valid_step]. unfold is_cell, BH. lia.
  - vm_compute. reflexivity.
  - vm_compute. reflexivity.
  - intros _. vm_compute. reflexivity.
  - exists s'. split; [exact E|exact Hw].
Defined.

(** Each step that stays in the loop brings the boundary nearer. *)
Lemma distance_next c limit index n :
  is_counted_loop c = true -> valid_step c n -> Z.abs n <= distance c limit index n ->
  distance c limit (next_index c index n) n = distance c limit index n - Z.abs n.
Proof.
  intros Hc Hn H. destruct c; try discriminate Hc; cbn [distance next_index valid_step] in *;
    try (destruct (Z.ltb_spec n 0)); wrap_lia.
Qed.

Lemma index_at_next c start n j :
  is_counted_loop c = true -> valid_step c n ->
  next_index c (index_at c start n j) n = index_at c start n (j + 1).
Proof. intros Hc Hn. unfold index_at. destruct c; cbn [next_index valid_step] in *; subst; lia. Qed.

Lemma distance_at c limit start n j :
  is_counted_loop c = true -> valid_step c n -> n <> 0 -> 0 <= j < trip_count c limit start n ->
  distance c limit (index_at c start n j) n = distance c limit start n - j * Z.abs n.
Proof.
  intros Hc Hn H0 [Hj Hlt]. unfold trip_count in Hlt. revert Hlt. pattern j. apply natlike_ind; [| |done].
  - intros _. unfold index_at. rewrite Z.mul_0_l, Z.add_0_r. lia.
  - clear j Hj. intros j Hj IH Hlt. rewrite <- Z.add_1_r in *. rewrite <- index_at_next by done.
    assert (Hd : (j + 1) * Z.abs n <= distance c limit start n).
    { apply Z.le_trans with (distance c limit start n / Z.abs n * Z.abs n); [nia|].
      rewrite Z.mul_comm. apply Z.mul_div_le. lia. }
    rewrite distance_next; [|done|done|]; rewrite IH by lia; lia.
Qed.

(** The step after [j] rounds leaves the loop exactly in the last round. *)
Lemma leaves_at_last c limit start n j :
  is_counted_loop c = true -> valid_step c n -> n <> 0 -> 0 <= j < trip_count c limit start n ->
  walks_over c limit (index_at c start n j) n <-> j = trip_count c limit start n - 1.
Proof.
  intros Hc Hn H0 Hj. rewrite walks_over_distance, distance_at by done. unfold trip_count in *.
  pose proof (distance_range c limit start n) as [Hd _].
  pose proof (Z.div_mod (distance c limit start n) (Z.abs n)).
  pose proof (Z.mod_pos_bound (distance c limit start n) (Z.abs n)). nia.
Qed.

Section Loops.
Context (ovf chk : bool) (symbols : Z -> option prim) (m0 : memory) (static : Z -> bool) (dmax rmax : nat).
Context (lab : prim -> Z).

Local Abbreviation astep := (astep ovf chk symbols m0 static dmax rmax).
Local Abbreviation asteps := (asteps ovf chk symbols m0 static dmax rmax).
Local Abbreviation threaded := (threaded m0 static).
Local Abbreviation labels_ok := (labels_ok symbols lab).

(** One execution of the primitive at the end of a loop. *)
Lemma loop_step base l k target c limit index n ds rs :
  labels_ok -> threaded base l -> l !! k = Some (lab (I_cond c)) -> l !! S k = Some target ->
  is_counted_loop c = true -> valid_step c n ->
  (length ds <= dmax)%nat -> (2 + length rs <= rmax)%nat ->
  exists i, astep (AM (at_ base k) (step_items c n ++ ds) (U64 index :: U64 limit :: rs)) =
    Some (Ret (AM i ds (U64 (next_index c index n) :: U64 limit :: rs))) /\
    (walks_over c limit index n -> i = at_ base (k + 2)) /\ (~ walks_over c limit index n -> i = target).
Proof.
  intros HL Ht Hk Htg Hc Hn Hds Hrs.
  pose proof (cond_code_any ovf c limit index n Hc Hn) as H.
  destruct (cond_code ovf c [U64 n] [U64 limit; U64 index]) as [taken routs] eqn:E. destruct H as [Hw Hr].
  assert (Hd : stack_effect (I_cond c) = inline 1 (both (length (step_items c n)) 2 0 2)) by (by destruct c).
  assert (Hcode : forall s, code ovf chk (I_cond c) [target] (rev (step_items c n)) [U64 limit; U64 index] s =
    Next (if taken then set_ip target s else s) [] routs).
  { intros s. cbn [code code_groups control_code]. replace (cond_code ovf c (rev (step_items c n)) [U64 limit; U64 index]) with (taken, routs);
      [done|]. rewrite <- E. by destruct c. }
  pose proof (lookup_lt_Some _ _ _ Htg) as Hlen.
  eexists. split; [|split; intros Hx].
  - assert (A := fun s => astep_threaded ovf chk symbols m0 static dmax rmax lab base l k (I_cond c)
      (step_items c n ++ ds) (U64 index :: U64 limit :: rs) s [] routs HL Ht Hk).
    rewrite Hd in A. cbn [n_inst n_in n_rin inline both take rev app drop length stack_prim reads fst snd] in A.
    rewrite take_app_length, drop_app_length, length_app, (drop_S _ _ _ Htg) in A. cbn [take] in A.
    rewrite Hcode in A. rewrite (A _ ltac:(lia) eq_refl ltac:(lia) ltac:(lia) eq_refl eq_refl); [..|lia|].
    + cbn [map rev app]. rewrite Hr. cbn [rev app]. reflexivity.
    + rewrite <- (length_map U64 routs), Hr. cbn [length]. lia.
  - destruct taken; [discriminate (proj2 Hw Hx)|]. cbn. f_equal. lia.
  - destruct taken; [done|]. by destruct Hx; apply Hw.
Qed.

(** The rounds from round [j] to the end; [P j ds]: the data stack at the start
    of round [j]. *)
Lemma rounds_run base l k body c limit start n rs (P : Z -> list Z -> Prop) :
  labels_ok -> threaded base l -> l !! k = Some (lab (I_cond c)) -> l !! S k = Some (at_ base body) ->
  is_counted_loop c = true -> valid_step c n -> n <> 0 -> (2 + length rs <= rmax)%nat ->
  (forall j ds, 0 <= j < trip_count c limit start n -> P j ds ->
     let rs' := U64 (index_at c start n j) :: U64 limit :: rs in
     exists ds', asteps (AM (at_ base body) ds rs') (AM (at_ base k) (step_items c n ++ ds') rs') /\
       P (j + 1) ds' /\ (length ds' <= dmax)%nat) ->
  forall m j ds, m = Z.to_nat (trip_count c limit start n - j) -> 0 <= j < trip_count c limit start n -> P j ds ->
  exists ds' i, P (trip_count c limit start n) ds' /\
    asteps (AM (at_ base body) ds (U64 (index_at c start n j) :: U64 limit :: rs))
           (AM (at_ base (k + 2)) ds' (i :: U64 limit :: rs)).
Proof.
  intros HL Ht Hk Htg Hc Hn H0 Hrs Hbody m. induction m as [|m IH]; intros j ds Hm Hj HP; [lia|].
  destruct (Hbody j ds Hj HP) as (ds1 & Hrun & HP1 & Hroom).
  destruct (loop_step base l k _ c limit (index_at c start n j) n ds1 rs HL Ht Hk Htg Hc Hn Hroom Hrs)
    as (i & Hstep & Hout & Hstay). rewrite index_at_next in Hstep by done.
  pose proof (leaves_at_last c limit start n j Hc Hn H0 Hj) as Hlast.
  destruct (decide (j = trip_count c limit start n - 1)) as [Hj'|Hj'].
  - rewrite (Hout (proj2 Hlast Hj')) in Hstep. exists ds1, (U64 (index_at c start n (j + 1))).
    split; [by replace (trip_count c limit start n) with (j + 1) by lia|].
    etransitivity; [exact Hrun|]. by apply rtc_once.
  - rewrite Hstay in Hstep by (by rewrite Hlast). destruct (IH (j + 1) ds1) as (ds' & i' & HP' & Hrun'); [lia..|done|].
    exists ds', i'. split; [done|]. etransitivity; [exact Hrun|]. by eapply rtc_l.
Qed.

(** The start of a loop. *)
Lemma do_step base l k target kd limit start ds rs :
  labels_ok -> threaded base l -> l !! k = Some (lab (I_do kd)) -> l !! S k = Some target ->
  (length ds <= dmax)%nat -> (2 + length rs <= rmax)%nat ->
  astep (AM (at_ base k) (U64 start :: U64 limit :: ds) rs) =
    Some (Ret (AM (if do_skips kd (U64 limit) (U64 start) then target else at_ base (k + 2)) ds
                  (U64 start :: U64 limit :: rs))).
Proof.
  intros HL Ht Hk Htg Hds Hrs. pose proof (lookup_lt_Some _ _ _ Htg) as Hlen.
  assert (A := fun s => astep_threaded ovf chk symbols m0 static dmax rmax lab base l k (I_do kd)
    (U64 start :: U64 limit :: ds) rs s [] [U64 limit; U64 start] HL Ht Hk).
  cbn [stack_effect n_inst n_in n_rin inline both take rev app drop length stack_prim reads fst snd] in A.
  rewrite (drop_S _ _ _ Htg), take_0 in A. cbn [take rev app code code_groups control_code loop_code nth] in A.
  rewrite (A _ ltac:(lia) eq_refl ltac:(lia) ltac:(lia) eq_refl eq_refl ltac:(lia) ltac:(lia)).
  cbn [map rev app drop]. rewrite !(U64_small (U64 _)) by apply U64_range.
  do 3 f_equal. case_match; [done|]. cbn. f_equal. lia.
Qed.

Lemma unloop_step base l k ds rs a b :
  labels_ok -> threaded base l -> l !! k = Some (lab I_unloop) ->
  (length ds <= dmax)%nat -> (length rs <= rmax)%nat ->
  astep (AM (at_ base k) ds (a :: b :: rs)) = Some (Ret (AM (at_ base (S k)) ds rs)).
Proof.
  intros HL Ht Hk Hds Hrs. pose proof (lookup_lt_Some _ _ _ Hk) as Hlen.
  rewrite (astep_threaded ovf chk symbols m0 static dmax rmax lab base l k I_unloop ds (a :: b :: rs)
    (vm0 m0 (at_ base (S k + 0))) [] []); cbn; try done; try lia.
  do 3 f_equal. f_equal. lia.
Qed.

(** ** Loops that count from start to limit *)

(** Pairs of primitives, with the sign of the increment, that belong together. *)
Definition matched (kd : do_kind) (c : condbranch) (n : Z) : Prop :=
  match kd with
  | paren_question_do => c = paren_loop /\ n = 1
  | paren_plus_do | paren_u_plus_do => (c = paren_plus_loop /\ is_cell n \/ c = paren_slash_loop /\ is_ucell n) /\ 0 < n
  | paren_minus_do | paren_u_minus_do => c = paren_minus_loop /\ is_ucell n /\ 0 < n
  | paren_minus_bracket_do | paren_u_minus_bracket_do => c = paren_plus_loop /\ is_cell n /\ n < 0
  end.

(** Round [j] takes place. *)
Definition in_range (kd : do_kind) (limit start n j : Z) : Prop :=
  match kd with
  | paren_question_do => j < U64 (limit - start)
  | paren_plus_do => S64 start + j * n < S64 limit
  | paren_u_plus_do => U64 start + j * n < U64 limit
  | paren_minus_do => S64 limit < S64 start - j * n
  | paren_u_minus_do => U64 limit < U64 start - j * n
  | paren_minus_bracket_do => S64 limit <= S64 start + j * n
  | paren_u_minus_bracket_do => U64 limit <= U64 start + j * n
  end.

Definition rounds (kd : do_kind) (c : condbranch) (limit start n : Z) : Z :=
  if do_skips kd (U64 limit) (U64 start) then 0 else trip_count c limit start n.

Ltac matched_cases kd H :=
  destruct kd; cbn [matched] in H;
  [ destruct H as [-> ->]
  | destruct H as [[[-> H]|[-> H]] ?] | destruct H as [[[-> H]|[-> H]] ?]
  | destruct H as (-> & H & ?) | destruct H as (-> & H & ?)
  | destruct H as (-> & H & ?) | destruct H as (-> & H & ?) ].

Lemma matched_loop kd c n : matched kd c n -> is_counted_loop c = true /\ valid_step c n /\ n <> 0.
Proof. intros H. matched_cases kd H; cbn [is_counted_loop valid_step]; split_and!; done || lia. Qed.

Lemma lt_div_iff a b q : 0 < b -> q < a / b + 1 <-> q * b <= a.
Proof. intros Hb. pose proof (Z.div_le_lower_bound a b q Hb). pose proof (Z.mul_div_le a b Hb). nia. Qed.

Lemma rounds_in_range kd c limit start n j :
  matched kd c n -> 0 <= j -> j < rounds kd c limit start n <-> in_range kd limit start n j.
Proof.
  intros Hm Hj. destruct (matched_loop _ _ _ Hm) as (_ & _ & H0). unfold rounds, trip_count.
  destruct (do_skips kd (U64 limit) (U64 start)) eqn:Hs; [|rewrite lt_div_iff by lia];
    matched_cases kd Hm; cbn [do_skips in_range distance] in *; zbool; rewrite ?S64_U64 in Hs;
    try nia; try wrap_lia; rewrite ?(proj2 (Z.ltb_lt n 0)), ?(proj2 (Z.ltb_ge n 0)) by lia;
    rewrite ?Z.abs_eq, ?Z.abs_neq, ?Z.mul_opp_r by lia; generalize dependent (j * n); intros x; wrap_lia.
Qed.

(** C6: a counted loop [DO-word ... LOOP-word] with a matching pair of
    primitives executes its body for exactly the indices from the start value
    to the limit, in steps of [n]: below the limit for [?DO], [+DO], [U+DO],
    above it for [-DO], [U-DO], down to it for [-[DO], [U-[DO]; never when
    there is no such index, whatever cells the bounds are.  A body that turns
    the stack of round [j] into that of round [j+1] and keeps the loop's two
    cells on the return stack thus brings the machine from the start of the
    loop to the cell after [UNLOOP], in a finite number of steps. *)
Theorem counted_loop_runs (kd : do_kind) (c : condbranch) (n limit start base : Z) (l : list Z)
    (k0 k : nat) (rs : list Z) (P : Z -> list Z -> Prop) (ds : list Z) :
  labels_ok -> threaded base l ->
  l !! k0 = Some (lab (I_do kd)) -> l !! S k0 = Some (at_ base (k + 2)) ->
  l !! k = Some (lab (I_cond c)) -> l !! S k = Some (at_ base (k0 + 2)) ->
  l !! (k + 2)%nat = Some (lab I_unloop) ->
  matched kd c n -> (2 + length rs <= rmax)%nat -> (length ds <= dmax)%nat -> P 0 ds ->
  (forall j ds, 0 <= j -> in_range kd limit start n j -> P j ds ->
     let rs' := U64 (index_at c start n j) :: U64 limit :: rs in
     exists ds', asteps (AM (at_ base (k0 + 2)) ds rs') (AM (at_ base k) (step_items c n ++ ds') rs') /\
       P (j + 1) ds' /\ (length ds' <= dmax)%nat) ->
  exists N ds', 0 <= N /\ (forall j, 0 <= j -> (j < N <-> in_range kd limit start n j)) /\ P N ds' /\
    asteps (AM (at_ base k0) (U64 start :: U64 limit :: ds) rs) (AM (at_ base (k + 3)) ds' rs).
Proof.
  intros HL Ht Hk0 Hk0' Hk Hk' Hu Hm Hrs Hds HP Hbody. destruct (matched_loop _ _ _ Hm) as (Hc & Hn & H0).
  exists (rounds kd c limit start n).
  assert (HN : 0 <= rounds kd c limit start n).
  { unfold rounds, trip_count. pose proof (Z.div_pos (distance c limit start n) (Z.abs n)).
    pose proof (distance_range c limit start n) as [? _]. case_match; lia. }
  pose proof (do_step base l k0 _ kd limit start ds rs HL Ht Hk0 Hk0' Hds Hrs) as Hdo.
  assert (Hend : exists ds' i, P (rounds kd c limit start n) ds' /\ (length ds' <= dmax)%nat /\
    asteps (AM (at_ base k0) (U64 start :: U64 limit :: ds) rs) (AM (at_ base (k + 2)) ds' (i :: U64 limit :: rs))).
  { unfold rounds. destruct (do_skips kd (U64 limit) (U64 start)) eqn:Hs.
    - exists ds, (U64 start). split_and!; [done..|]. by apply rtc_once.
    - destruct (rounds_run base l k (k0 + 2) c limit start n rs (fun j ds => P j ds /\ (length ds <= dmax)%nat)
        HL Ht Hk Hk' Hc Hn H0 Hrs) with (m := Z.to_nat (trip_count c limit start n - 0)) (j := 0) (ds := ds)
        as (ds' & i & [HP' Hl'] & Hrun).
      + intros j ds1 Hj [HP1 _]. destruct (Hbody j ds1) as (ds' & ? & ? & ?); [lia| |done|by exists ds'].
        apply (rounds_in_range kd c); [done|lia|]. unfold rounds. rewrite Hs. lia.
      + done.
      + unfold rounds in HN. rewrite Hs in HN. unfold trip_count in *.
        pose proof (Z.div_pos (distance c limit start n) (Z.abs n)).
        pose proof (distance_range c limit start n) as [? _]. lia.
      + done.
      + exists ds', i. split_and!; [done..|]. eapply rtc_l; [exact Hdo|].
        unfold index_at in Hrun. by rewrite Z.mul_0_l, Z.add_0_r in Hrun. }
  destruct Hend as (ds' & i & HP' & Hl' & Hrun). exists ds'. split; [done|]. split.
  { intros j Hj. by apply rounds_in_range. }
  split; [done|]. etransitivity; [exact Hrun|]. apply rtc_once.
  rewrite (unloop_step base l (k + 2) ds' rs i (U64 limit) HL Ht Hu Hl'); [|lia]. do 4 f_equal. lia.
Qed.
End Loops.

(** [?do i + loop] from 0 to 4. *)
Definition demo_loop : list Z :=
  [table_label (I_do paren_question_do); at_ 4096 6; table_label I_i; table_label I_plus;
   table_label (I_cond paren_loop); at_ 4096 2; table_label I_unloop; table_label I_noop].

Lemma demo_loop_threaded : threaded (demo_mem demo_loop 0) demo_static 4096 demo_loop.
Proof. split; vm_compute; reflexivity. Qed.

Lemma counted_loop_runs_witness :
  exists N ds', 0 <= N /\ (forall j, 0 <= j -> (j < N <-> in_range paren_question_do 4 0 1 j)) /\
    ds' = [N * (N - 1) / 2] /\
    asteps false false table_symbols (demo_mem demo_loop 0) demo_static 64 64
      (AM (at_ 4096 0) [U64 0; U64 4; 0] []) (AM (at_ 4096 (4 + 3)) ds' []).
Proof.
  apply (counted_loop_runs false false table_symbols (demo_mem demo_loop 0) demo_static 64 64 table_label
    paren_question_do paren_loop 1 4 0 4096 demo_loop 0 4 [] (fun j ds => ds = [j * (j - 1) / 2]) [0]
    table_symbols_label demo_loop_threaded eq_refl eq_refl eq_refl eq_refl eq_refl).
  - split; reflexivity.
  - cbn. lia.
  - cbn. lia.
  - reflexivity.
  - intros j ds Hj Hin ->. cbn [in_range] in Hin. change (U64 (4 - 0)) with 4 in Hin.
    assert (Hc : j = 0 \/ j = 1 \/ j = 2 \/ j = 3) by lia.
    exists [(j + 1) * (j + 1 - 1) / 2]. split; [|split; [reflexivity|cbn; lia]].
    destruct Hc as [->|[->|[->| ->]]]; apply (arun_asteps _ _ _ _ _ _ _ 2); vm_compute; reflexivity.
Defined.
