(* ===== verification/Exceptions.v ===== *)
(** * Exceptions ([(try)], [uncatch], [fast-throw] in prim)

    [TRY] saves the registers in six cells on the return stack, and [handler]
    points to them; throwing restores the registers from there and continues
    at the recovery address.  The old value of [handler] is among the cells:
    nested handlers form a linked list. *)
From S2P Require Import Prelude Memory Engine.

(** What one handler saved. *)
Record frame := mkframe {
  f_addr : Z; f_oldhandler : Z; f_lp : Z; f_fp : Z; f_op : Z; f_sp : Z; f_recovery : Z
}.

Definition frame_cells (f : frame) : list Z :=
  [f_oldhandler f; f_lp f; f_fp f; f_op f; f_sp f; f_recovery f].

Definition frame_size : Z := 6 * 8.

(** The handlers that are active when [handler] is [h], innermost first, up to
    the one that was there at the start. *)
Fixpoint handlers (m : memory) (bottom h : Z) (fs : list frame) : Prop :=
  match fs with
  | [] => h = bottom
  | f :: fs => h = f_addr f /\ cells_at m h 6 = frame_cells f /\ handlers m bottom (f_oldhandler f) fs
  end.

Definition frame_bytes (f : frame) (x : Z) : Prop := f_addr f <= x < f_addr f + frame_size.

(** The handlers are still there in a memory that agrees on their frames. *)
Lemma handlers_ext m m' bottom h fs :
  (forall f x, f ∈ fs -> frame_bytes f x -> m' x = m x) -> handlers m bottom h fs -> handlers m' bottom h fs.
Proof.
  revert h. induction fs as [|f fs IH]; intros h Hx; [done|]. cbn [handlers]. intros (-> & Hc & Hr).
  split_and!; [done| |].
  - rewrite <- Hc. apply cells_at_ext. intros x ?. apply (Hx f); [by constructor|]. unfold frame_bytes, frame_size. lia.
  - apply IH; [|done]. intros g x Hg. apply Hx. by constructor.
Qed.

(** Registers that fit into cells. *)
Definition registers_ok (s : vm) : Prop :=
  Forall is_ucell [handler s; lp s; fp s; op s; sp s; rp s].

Section Exceptions.
Context (ovf chk : bool) (symbols : Z -> option prim).
Local Abbreviation step := (step ovf chk symbols).
Local Abbreviation steps_to := (steps_to ovf chk symbols).

(** The frame that [(try)] makes. *)
Definition try_frame (s : vm) : frame :=
  mkframe (rp s - frame_size) (handler s) (lp s) (fp s) (op s) (sp s) (load_cell (mem s) (ip s + 8)).

Lemma try_step s :
  symbols (real_ca s) = Some I_paren_try ->
  exists s1, step s = Some (Ret s1) /\
    ip s1 = ip s + 16 /\ sp s1 = sp s /\ rp s1 = rp s - frame_size /\ fp s1 = fp s /\ lp s1 = lp s /\ op s1 = op s /\
    handler s1 = rp s - frame_size /\ first_throw s1 <> 0 /\
    mem s1 = set_cells (mem s) (rp s - frame_size) (frame_cells (try_frame s)).
Proof.
  intros H. unfold Engine.step. rewrite H. cbn [mbind option_bind]. eexists. split; [reflexivity|].
  unfold enter, pointer_update, store_results, NEXT, frame_size.
  cbn -[set_cells Z.lor load_cell c_bool]. rewrite ?Z.add_0_r.
  split_and!; try lia.
  - destruct (Z.eqb_spec (first_throw s) 0) as [->|Hn]; [done|]. cbn. by rewrite Z.lor_0_r.
  - cbn [set_cells]. done.
Qed.

Lemma uncatch_step s f :
  symbols (real_ca s) = Some I_uncatch -> rp s = f_addr f -> cells_at (mem s) (rp s) 6 = frame_cells f ->
  exists s1, step s = Some (Ret s1) /\ ip s1 = ip s + 8 /\ sp s1 = sp s /\ rp s1 = f_addr f + frame_size /\
    fp s1 = fp s /\ lp s1 = lp s /\ op s1 = op s /\ handler s1 = f_oldhandler f /\ mem s1 = mem s.
Proof.
  intros H Hr Hc. unfold Engine.step. rewrite H. cbn [mbind option_bind]. eexists. split; [reflexivity|].
  unfold enter, pointer_update, store_results, NEXT, frame_size, return_items.
  cbn -[set_cells cells_at]. rewrite Hc. cbn. split_and!; done || lia.
Qed.

Lemma throw_step s f :
  symbols (real_ca s) = Some I_fast_throw -> handler s = f_addr f ->
  cells_at (mem s) (handler s) 6 = frame_cells f ->
  exists s1, step s = Some (Ret s1) /\ ip s1 = f_recovery f /\ sp s1 = f_sp f - 8 /\ rp s1 = f_addr f /\
    fp s1 = f_fp f /\ lp s1 = f_lp f /\ op s1 = f_op f /\ handler s1 = handler s /\
    mem s1 = set_cell (mem s) (f_sp f - 8) (load_cell (mem s) (sp s)) /\ real_ca s1 = load_cell (mem s1) (ip s1).
Proof.
  intros H Hh Hc. unfold Engine.step. rewrite H. cbn [mbind option_bind]. eexists. split; [reflexivity|].
  cbn [cells_at] in Hc. unfold frame_cells in Hc. injection Hc as E0 E1 E2 E3 E4 E5.
  unfold enter, pointer_update, store_results, NEXT, data_items.
  cbn -[set_cell load_cell Z.mul]. change (1 * 8) with 8. change (2 * 8) with (8 + 8).
  change (3 * 8) with (8 + 8 + 8). change (4 * 8) with (8 + 8 + 8 + 8). change (5 * 8) with (8 + 8 + 8 + 8 + 8).
  rewrite !Z.add_assoc, E1, E2, E3, E4, E5. change (8 * Z.of_nat 1) with 8.
  split_and!; try done; lia.
Qed.

Lemma frame_cells_stored m a f :
  Forall is_ucell (frame_cells f) -> cells_at (set_cells m a (frame_cells f)) a 6 = frame_cells f.
Proof.
  intros H. change 6%nat with (length (frame_cells f)). rewrite cells_at_set_cells.
  rewrite <- (map_id (frame_cells f)) at 2. apply map_ext_Forall. eapply Forall_impl; [|exact H]. apply U64_small.
Qed.

Lemma try_frame_cells s : registers_ok s -> wf_mem (mem s) -> Forall is_ucell (frame_cells (try_frame s)).
Proof.
  unfold registers_ok. intros H Hm. decompose_Forall. unfold frame_cells, try_frame. cbn.
  repeat (apply List.Forall_cons; [first [done | by apply load_cell_range]|]). constructor.
Qed.

(** C10: throwing undoes what happened since [(try)]: if the code in between
    left [handler] and the saved cells alone, [fast-throw] continues at the
    recovery address given to [(try)], with the floating-point stack, locals
    and object pointers and the depth of the data stack as they were, the ball
    on top; and [uncatch] there also restores the return stack and the
    previous handler.
    (The registers at [(try)] fit into cells, and the cell for the ball is not
    one of the saved cells.) *)
Theorem throw_returns_to_try (s0 s1 s2 : vm) :
  registers_ok s0 -> wf_mem (mem s0) -> wf_mem (mem s2) ->
  symbols (real_ca s0) = Some I_paren_try -> step s0 = Some (Ret s1) ->
  handler s2 = handler s1 -> (forall x, frame_bytes (try_frame s0) x -> mem s2 x = mem s1 x) ->
  symbols (real_ca s2) = Some I_fast_throw ->
  (sp s0 <= rp s0 - frame_size \/ rp s0 <= sp s0 - 8) ->
  exists s3, step s2 = Some (Ret s3) /\
    ip s3 = load_cell (mem s0) (ip s0 + 8) /\ sp s3 = sp s0 - 8 /\
    load_cell (mem s3) (sp s3) = load_cell (mem s2) (sp s2) /\
    rp s3 = rp s1 /\ fp s3 = fp s0 /\ lp s3 = lp s0 /\ op s3 = op s0 /\
    (symbols (real_ca s3) = Some I_uncatch ->
     exists s4, step s3 = Some (Ret s4) /\ rp s4 = rp s0 /\ handler s4 = handler s0 /\ sp s4 = sp s3 /\
       fp s4 = fp s0 /\ lp s4 = lp s0 /\ op s4 = op s0 /\ mem s4 = mem s3).
Proof.
  intros Hreg Hm0 Hm2 Htry E1 Hh Hmem Hthrow Hdis.
  destruct (try_step s0 Htry) as (s1' & E1' & I1 & S1 & R1 & F1 & L1 & O1 & H1 & _ & M1).
  rewrite E1 in E1'. injection E1' as <-.
  assert (Hc : cells_at (mem s2) (handler s2) 6 = frame_cells (try_frame s0)).
  { rewrite Hh, H1. rewrite (cells_at_ext _ (mem s1)) by (intros x Hx; apply Hmem; unfold frame_bytes; cbn [try_frame f_addr]; unfold frame_size in *; lia).
    rewrite M1. apply frame_cells_stored, try_frame_cells; done. }
  destruct (throw_step s2 (try_frame s0) Hthrow) as (s3 & E3 & I3 & S3 & R3 & F3 & L3 & O3 & H3 & M3 & C3);
    [by rewrite Hh, H1|done|].
  exists s3. split; [done|]. cbn [try_frame f_recovery f_sp f_addr f_fp f_lp f_op] in *. split_and!; try done.
  - rewrite M3, S3, load_set_cell. apply U64_small, load_cell_range, Hm2.
  - by rewrite R3, R1.
  - intros Hun. destruct (uncatch_step s3 (try_frame s0) Hun) as (s4 & E4 & I4 & S4 & R4 & F4 & L4 & O4 & H4 & M4).
    + done.
    + rewrite R3, <- Hc, Hh, H1, M3. apply cells_at_ext. intros x Hx. apply set_cell_other. unfold frame_size in *. lia.
    + exists s4. cbn [try_frame f_oldhandler f_addr] in *. unfold frame_size in *. split_and!; try done; try congruence; lia.
Qed.

(** ** Nesting *)

(** What each primitive does to the list of active handlers. *)
Definition next_handlers (p : prim) (s : vm) (fs : list frame) : list frame :=
  match p with
  | I_paren_try => try_frame s :: fs
  | I_uncatch => tail fs
  | _ => fs
  end.

(** The memory that a primitive may write, as addresses and numbers of bytes:
    what its C code stores, and the cells of its results on the two stacks. *)
Definition stores (p : prim) (s : vm) : list (Z * Z) :=
  let w i := nth i (data_items p s) 0 in
  let e := stack_effect p in
  match p with
  | I_store | I_plus_store => [(w 1%nat, 8)]
  | I_c_store => [(w 1%nat, 1)]
  | I_two_store => [(w 2%nat, 16)]
  | I_one_plus_store => [(nth 0 (inst_args p s) 0, 8)]
  | I_sp_store | I_rp_store => []
  | I_question_dupe => [(sp s - 8, 16)]
  | I_question_dupe_question_branch | I_question_dupe_zero_equals_question_branch => [(sp s, 8)]
  | I_fast_throw => [(load_cell (mem s) (handler s + 4 * 8) - 8, 8)]
  | _ => [(sp s + 8 * (Z.of_nat (n_in e) - Z.of_nat (n_out e)), 8 * Z.of_nat (n_out e));
          (rp s + 8 * (Z.of_nat (n_rin e) - Z.of_nat (n_rout e)), 8 * Z.of_nat (n_rout e))]
  end.

(** A discipline for programs with handlers: nothing is written into the cells
    of an active handler, [uncatch] is executed when the return stack pointer
    is at the innermost one, and [(try)] when the registers fit into cells. *)
Record disciplined (p : prim) (s : vm) (fs : list frame) : Prop := {
  dc_stores : forall f a n, f ∈ fs -> (a, n) ∈ stores p s -> a + n <= f_addr f \/ f_addr f + frame_size <= a;
  dc_uncatch : p = I_uncatch -> exists f, head fs = Some f /\ rp s = f_addr f;
  dc_try : p = I_paren_try -> registers_ok s
}.

(** A run of a program that keeps the discipline, with the active handlers. *)
Inductive disciplined_run : vm -> list frame -> vm -> list frame -> Prop :=
| run_here s fs : disciplined_run s fs s fs
| run_step p s s1 s2 fs fs2 :
    symbols (real_ca s) = Some p -> disciplined p s fs -> step s = Some (Ret s1) ->
    disciplined_run s1 (next_handlers p s fs) s2 fs2 -> disciplined_run s fs s2 fs2.

Lemma code_handler p arg d r s s1 outs routs :
  p <> I_paren_try -> p <> I_uncatch ->
  (code ovf chk p arg d r s = Next s1 outs routs \/ exists xt, code ovf chk p arg d r s = Jump xt s1 outs routs) ->
  handler s1 = handler s.
Proof.
  intros H1 H2 H. destruct p; try done; try destruct p; cbn -[cond_code do_skips S64 U64 FLAG load_cell set_cell] in H;
    unfold c_div, c_udiv in H; destruct H as [H|[xt H]]; repeat case_match; by simplify_eq/=.
Qed.

Lemma run_handler p s s' :
  p <> I_paren_try -> p <> I_uncatch -> run ovf chk p s = Some (Ret s') -> handler s' = handler s.
Proof.
  intros N1 N2 Hrun. unfold run in Hrun. destruct (code _ _ _ _ _ _ _) as [s1 outs routs|xt s1 outs routs|c|] eqn:E;
    try discriminate;
    pose proof (code_handler p (inst_args p s) (data_items p s) (return_items p s) (enter p s) s1 outs routs N1 N2) as Hh;
    injection Hrun as <-; rewrite E in Hh.
  - unfold store_results, NEXT. by destruct (sync_sp _), (sync_rp _); apply Hh; left.
  - unfold store_results, EXEC1. by destruct (sync_sp _), (sync_rp _); apply Hh; right; exists xt.
Qed.

Lemma pure_stores p s :
  pure p = true ->
  stores p s =
    [(sp s + 8 * (Z.of_nat (n_in (stack_effect p)) - Z.of_nat (n_out (stack_effect p))), 8 * Z.of_nat (n_out (stack_effect p)));
     (rp s + 8 * (Z.of_nat (n_rin (stack_effect p)) - Z.of_nat (n_rout (stack_effect p))), 8 * Z.of_nat (n_rout (stack_effect p)))].
Proof. by destruct p. Qed.

(** Every primitive keeps to its [stores]. *)
Lemma run_stores p s s' x :
  run ovf chk p s = Some (Ret s') -> (forall a n, (a, n) ∈ stores p s -> ~ a <= x < a + n) -> mem s' x = mem s x.
Proof.
  intros Hrun Hx. destruct (pure p) eqn:Hp.
  - destruct (stack_effect_respected ovf chk p s s' Hp Hrun) as (Esp & Erp & _ & _ & _ & Hmem).
    rewrite pure_stores in Hx by done. apply Hmem; [rewrite Esp|rewrite Erp]; apply Hx; [left|right; left].
  - destruct p; try discriminate Hp; unfold run in Hrun;
      cbn -[set_cell load_cell Memory.store data_items inst_args] in Hrun; repeat case_match; try discriminate;
      simplify_eq/=; try done; rewrite ?set_cell_other; try done;
      try (match goal with H : forall a n, (a, n) ∈ [(?b, ?k)] -> _ |- _ => specialize (H b k ltac:(left)) end);
      unfold pointer_update, Memory.store in *; try (case_match; lia); lia.
Qed.

(** A pure primitive keeps the discipline if the return stack items it takes
    are below the handlers, and its results on the data stack are elsewhere. *)
Lemma pure_disciplined p s fs :
  pure p = true -> p <> I_paren_try -> p <> I_uncatch ->
  (forall f, f ∈ fs -> rp s + 8 * Z.of_nat (n_rin (stack_effect p)) <= f_addr f) ->
  (forall f, f ∈ fs ->
     let sp' := sp s + 8 * (Z.of_nat (n_in (stack_effect p)) - Z.of_nat (n_out (stack_effect p))) in
     sp' + 8 * Z.of_nat (n_out (stack_effect p)) <= f_addr f \/ f_addr f + frame_size <= sp') ->
  disciplined p s fs.
Proof.
  intros Hp N1 N2 HR HD. constructor; [|done|done]. intros f a n Hf Hin. rewrite pure_stores in Hin by done.
  apply elem_of_cons in Hin as [[= -> ->]|[= -> ->]%list_elem_of_singleton].
  - apply HD, Hf.
  - left. specialize (HR f Hf). lia.
Qed.

Lemma code_wf p arg d r s s1 outs routs :
  wf_mem (mem s) ->
  (code ovf chk p arg d r s = Next s1 outs routs \/ exists xt, code ovf chk p arg d r s = Jump xt s1 outs routs) ->
  wf_mem (mem s1).
Proof.
  intros Hm H. destruct p; try destruct p; cbn -[cond_code do_skips S64 U64 FLAG load_cell set_cell Memory.store] in H;
    unfold c_div, c_udiv in H; destruct H as [H|[xt H]]; repeat case_match; simplify_eq/=; try exact Hm;
    repeat apply set_cell_wf; try exact Hm.
  intros x. unfold Memory.store. case_match; [unfold is_char; by apply Z.mod_pos_bound|apply Hm].
Qed.

Lemma run_wf p s s' : wf_mem (mem s) -> run ovf chk p s = Some (Ret s') -> wf_mem (mem s').
Proof.
  intros Hm Hrun. unfold run in Hrun. destruct (code _ _ _ _ _ _ _) as [s1 outs routs|xt s1 outs routs|c|] eqn:E;
    try discriminate;
    pose proof (code_wf p (inst_args p s) (data_items p s) (return_items p s) (enter p s) s1 outs routs Hm) as Hw;
    injection Hrun as <-; rewrite E in Hw.
  - assert (H1 : wf_mem (mem s1)) by (apply Hw; by left).
    unfold store_results, NEXT. by destruct (sync_sp _), (sync_rp _); do 2 apply set_cells_wf.
  - assert (H1 : wf_mem (mem s1)) by (apply Hw; right; by exists xt).
    unfold store_results, EXEC1. by destruct (sync_sp _), (sync_rp _); do 2 apply set_cells_wf.
Qed.

Lemma step_is_run p s : symbols (real_ca s) = Some p -> step s = run ovf chk p s.
Proof. intros H. unfold Engine.step. by rewrite H. Qed.

(** The handlers that were active are still there after a disciplined step. *)
Lemma frames_kept p s s' bottom h fs :
  disciplined p s fs -> run ovf chk p s = Some (Ret s') -> handlers (mem s) bottom h fs -> handlers (mem s') bottom h fs.
Proof.
  intros HD Hrun. apply handlers_ext. intros f x Hf Hx. apply (run_stores p s s' x Hrun). intros a n Hin ?.
  unfold frame_bytes in Hx. destruct (dc_stores _ _ _ HD f a n Hf Hin); lia.
Qed.

Lemma handlers_step p s s' bottom fs :
  symbols (real_ca s) = Some p -> wf_mem (mem s) -> disciplined p s fs -> step s = Some (Ret s') ->
  handlers (mem s) bottom (handler s) fs -> handlers (mem s') bottom (handler s') (next_handlers p s fs).
Proof.
  intros Hp Hm HD Hstep HH. pose proof Hstep as Hrun. rewrite (step_is_run p s Hp) in Hrun.
  destruct (decide (p = I_paren_try)) as [->|N1]; [|destruct (decide (p = I_uncatch)) as [->|N2]].
  - destruct (try_step s Hp) as (s1 & E & _ & _ & _ & _ & _ & _ & H1 & _ & M1). rewrite Hstep in E. injection E as <-.
    cbn [next_handlers handlers]. split_and!.
    + by rewrite H1.
    + rewrite M1, H1. apply frame_cells_stored, try_frame_cells; [by apply (dc_try _ _ _ HD)|done].
    + by apply (frames_kept I_paren_try s).
  - destruct (dc_uncatch _ _ _ HD eq_refl) as (f & Hf & Hrp). destruct fs as [|g fs]; [discriminate|].
    injection Hf as ->. pose proof HH as (Hh & Hc & Hr).
    destruct (uncatch_step s f Hp Hrp) as (s1 & E & _ & _ & _ & _ & _ & _ & H1 & M1); [by rewrite Hrp, <- Hh|].
    rewrite Hstep in E. injection E as <-. by rewrite H1, M1.
  - rewrite (run_handler p s s' N1 N2 Hrun). replace (next_handlers p s fs) with fs by (by destruct p).
    by apply (frames_kept p s).
Qed.

Lemma handlers_run s s' bottom fs fs' :
  disciplined_run s fs s' fs' -> wf_mem (mem s) -> handlers (mem s) bottom (handler s) fs ->
  handlers (mem s') bottom (handler s') fs'.
Proof.
  induction 1 as [s fs|p s s1 s2 fs fs2 Hp HD Hstep _ IH]; intros Hm HH; [done|].
  apply IH; [|by apply (handlers_step p s s1)]. apply (run_wf p s s1 Hm). by rewrite <- (step_is_run p s Hp).
Qed.
End Exceptions.

(** C9: active handlers form a stack through the whole run of a program.  Take
    any sequence of steps of the primitives of Engine that keeps the
    discipline: no primitive, stores like [!] and results on the stacks
    included, writes into the cells of an active handler; [uncatch] is executed
    when the return stack pointer is at the innermost handler; and [(try)] when
    the registers fit into cells.  Then [(try)] pushes what it saved on the
    list of handlers that [handler] leads to, [uncatch] removes the innermost
    one, and every other primitive, [fast-throw] included, leaves the list with
    all saved registers as it is.  So, wherever the run has got to, [fast-throw]
    continues at the recovery address of the innermost handler with the
    registers it saved, and [uncatch] at that handler makes the one around it
    current. *)
Theorem handlers_form_a_stack (ovf chk : bool) (symbols : Z -> option prim) (s s' : vm) (bottom : Z) (fs fs' : list frame) :
  wf_mem (mem s) -> handlers (mem s) bottom (handler s) fs ->
  disciplined_run ovf chk symbols s fs s' fs' ->
  handlers (mem s') bottom (handler s') fs' /\
  forall f rest, fs' = f :: rest ->
    (symbols (real_ca s') = Some I_fast_throw ->
     exists s1, step ovf chk symbols s' = Some (Ret s1) /\ ip s1 = f_recovery f /\ rp s1 = f_addr f /\
       sp s1 = f_sp f - 8 /\ fp s1 = f_fp f /\ lp s1 = f_lp f /\ op s1 = f_op f /\ handler s1 = handler s') /\
    (symbols (real_ca s') = Some I_uncatch -> rp s' = f_addr f ->
     exists s1, step ovf chk symbols s' = Some (Ret s1) /\ rp s1 = f_addr f + frame_size /\
       handlers (mem s1) bottom (handler s1) rest).
Proof.
  intros Hm HH HR. pose proof (handlers_run ovf chk symbols s s' bottom fs fs' HR Hm HH) as HF. split; [done|].
  intros f rest ->. destruct HF as (Hh & Hc & Hr). split.
  - intros Hp. destruct (throw_step ovf chk symbols s' f Hp Hh Hc) as (s1 & E & I1 & S1 & R1 & F1 & L1 & O1 & H1 & _).
    exists s1. by split_and!.
  - intros Hp Hrp. destruct (uncatch_step ovf chk symbols s' f Hp Hrp) as (s1 & E & _ & _ & R1 & _ & _ & _ & H1 & M1);
      [by rewrite Hrp, <- Hh|]. exists s1. rewrite H1, M1. by split_and!.
Qed.

(** A machine before [(try)] with the recovery address 5000. *)
Definition demo_try : vm :=
  mkvm 4096 65536 131072 300 400 500 0 0 (table_label I_paren_try) 0 0
    (set_cells (fun _ => 0) 4096 [table_label I_paren_try; 5000]).

Lemma demo_try_ok : registers_ok demo_try /\ wf_mem (mem demo_try).
Proof.
  split.
  - unfold registers_ok. cbn. unfold is_ucell, B. repeat (apply List.Forall_cons; [lia|]). apply List.Forall_nil.
  - apply set_cells_wf. intros x. unfold is_char. lia.
Qed.

(** Between [(try)] and the throw: 42 is pushed. *)
Definition demo_throw (s1 : vm) : vm :=
  set_real_ca (table_label I_fast_throw) (set_sp 65528 (set_mem (set_cell (mem s1) 65528 42) s1)).

Lemma throw_returns_to_try_witness :
  exists s1 s3, step false false table_symbols demo_try = Some (Ret s1) /\
    step false false table_symbols (demo_throw s1) = Some (Ret s3) /\
    ip s3 = 5000 /\ sp s3 = 65528 /\ load_cell (mem s3) (sp s3) = 42.
Proof.
  destruct (try_step false false table_symbols demo_try (table_symbols_label _))
    as (s1 & E1 & _ & S1 & _ & _ & _ & _ & H1 & _ & M1).
  destruct demo_try_ok as [Hr Hm].
  destruct (throw_returns_to_try false false table_symbols demo_try s1 (demo_throw s1)) as (s3 & E3 & I3 & S3 & L3 & _).
  - exact Hr.
  - exact Hm.
  - apply set_cell_wf. rewrite M1. apply set_cells_wf, Hm.
  - apply table_symbols_label.
  - exact E1.
  - reflexivity.
  - intros x Hx. apply set_cell_other. unfold frame_bytes in Hx. cbn in Hx. unfold frame_size in Hx. lia.
  - apply table_symbols_label.
  - left. unfold frame_size. cbn. lia.
  - exists s1, s3. split_and!; [exact E1|exact E3|rewrite I3; vm_compute; reflexivity|exact S3|].
    rewrite L3. cbn [demo_throw sp mem set_real_ca set_sp set_mem]. apply load_set_cell.
Defined.

(** "(try) 5000 lit 42 lit 70000 ! lit 42 fast-throw", where 70000 is outside
    the handler's cells. *)
Definition demo_protected : vm :=
  mkvm 4096 65536 131072 300 400 500 0 0 (table_label I_paren_try) 0 0
    (set_cells (fun _ => 0) 4096
      [table_label I_paren_try; 5000; table_label I_lit; 42; table_label I_lit; 70000; table_label I_store;
       table_label I_lit; 42; table_label I_fast_throw]).

Definition demo_step (s : vm) : vm :=
  match step false false table_symbols s with Some (Ret s1) => s1 | _ => s end.

Lemma demo_run_step p s s2 fs fs2 :
  table_symbols (real_ca s) = Some p -> disciplined p s fs ->
  match step false false table_symbols s with Some (Ret _) => true | _ => false end = true ->
  disciplined_run false false table_symbols (demo_step s) (next_handlers p s fs) s2 fs2 ->
  disciplined_run false false table_symbols s fs s2 fs2.
Proof.
  intros Hp HD Hs HR. apply (run_step _ _ _ p s (demo_step s)); [done|done| |done].
  unfold demo_step. by destruct (step false false table_symbols s) as [[]|].
Qed.

(** The discipline, decided: every store misses every handler. *)
Definition misses (p : prim) (s : vm) (fs : list frame) : bool :=
  forallb (fun f => forallb (fun '(a, n) => (a + n <=? f_addr f) || (f_addr f + frame_size <=? a)) (stores p s)) fs.

Lemma misses_disciplined p s fs :
  misses p s fs = true -> p <> I_uncatch -> p <> I_paren_try -> disciplined p s fs.
Proof.
  intros Hm N1 N2. constructor; [|done|done]. intros f a n Hf Hin. unfold misses in Hm. rewrite forallb_forall in Hm.
  specialize (Hm f ltac:(by apply list_elem_of_In)). rewrite forallb_forall in Hm.
  specialize (Hm (a, n) ltac:(by apply list_elem_of_In)). cbn in Hm.
  apply orb_true_iff in Hm as [Hm%Z.leb_le|Hm%Z.leb_le]; [by left|by right].
Qed.

Local Ltac demo_next p :=
  apply (demo_run_step p); [vm_compute; reflexivity|apply misses_disciplined; [vm_compute; reflexivity|done|done]
    |vm_compute; reflexivity|].

Lemma demo_protected_run :
  disciplined_run false false table_symbols demo_protected []
    (demo_step (demo_step (demo_step (demo_step (demo_step demo_protected))))) [try_frame demo_protected].
Proof.
  apply (demo_run_step I_paren_try); [apply table_symbols_label| |vm_compute; reflexivity|].
  - constructor; [by intros f a n Hf%elem_of_nil|done|]. intros _. exact (proj1 demo_try_ok).
  - demo_next I_lit. demo_next I_lit. demo_next I_store. demo_next I_lit. apply run_here.
Qed.

Lemma handlers_form_a_stack_witness :
  let s := demo_step (demo_step (demo_step (demo_step (demo_step demo_protected)))) in
  exists s1, step false false table_symbols s = Some (Ret s1) /\
    ip s1 = 5000 /\ sp s1 = 65528 /\ rp s1 = 131024 /\ load_cell (mem s) 70000 = 42.
Proof.
  intros s. destruct (handlers_form_a_stack false false table_symbols demo_protected s 0 [] [try_frame demo_protected])
    as [_ H].
  - apply set_cells_wf. intros x. unfold is_char. lia.
  - reflexivity.
  - exact demo_protected_run.
  - destruct (H _ _ eq_refl) as [HT _]. destruct HT as (s1 & E & I1 & R1 & S1 & _); [vm_compute; reflexivity|].
    exists s1. split_and!; [exact E| | | |]; [rewrite I1|rewrite S1|rewrite R1|]; vm_compute; reflexivity.
Defined.
