(* ===== verification/Fallback.v ===== *)
(** * The Forth definitions of primitives (prim)

    Most primitives in prim have, besides their C code, a definition in Forth
    (after the colon), for systems that lack the primitive.  Here they are as
    the threaded code that the compiler makes of them, run on the stack machine
    of [StackMachine]: calling the Forth definition does what the primitive
    does. *)
From S2P Require Import Prelude Memory DoubleCell Division Engine StackMachine.

(** ** Cells as bit strings *)

Lemma testbit_U64 x i : 0 <= i -> Z.testbit (U64 x) i = (i <? 64) && Z.testbit x i.
Proof.
  intros Hi. unfold U64. change B with (2 ^ 64). destruct (Z.ltb_spec i 64).
  - by rewrite Z.mod_pow2_bits_low.
  - by rewrite Z.mod_pow2_bits_high by lia.
Qed.

Lemma testbit_ucell x i : is_ucell x -> 0 <= i -> Z.testbit x i = (i <? 64) && Z.testbit x i.
Proof. intros Hx Hi. rewrite <- (U64_small x Hx) at 1. by apply testbit_U64. Qed.

(** Equations between bitwise operations. *)
Ltac bits_equal :=
  apply Z.bits_inj'; let i := fresh "i" in let Hi := fresh in intros i Hi;
  repeat (rewrite ?testbit_U64, ?Z.land_spec, ?Z.lor_spec, ?Z.lxor_spec, ?Z.lnot_spec, ?Z.bits_m1 by exact Hi);
  repeat match goal with |- context [Z.testbit ?x i] => destruct (Z.testbit x i) end;
  destruct (i <? 64); reflexivity.

Lemma top_bit z : is_ucell z -> Z.testbit z 63 = (S64 z <? 0).
Proof.
  intros Hz. rewrite Z.testbit_eqb by lia. destruct (Z.ltb_spec (S64 z) 0); [apply Z.eqb_eq|apply Z.eqb_neq];
    change (2 ^ 63) with BH; wrap_lia.
Qed.

Lemma S64_eqb a b : is_ucell a -> is_ucell b -> (S64 a =? S64 b) = (a =? b).
Proof. intros. destruct (Z.eqb_spec a b) as [->|]; [by rewrite Z.eqb_refl|]. apply Z.eqb_neq. wrap_lia. Qed.

Lemma S64_eqb_0 a : is_ucell a -> (S64 a =? 0) = (a =? 0).
Proof. intros. apply (S64_eqb a 0); [done|]. unfold is_ucell, B. lia. Qed.

Lemma S64_flag b : S64 (FLAG b) = FLAG b.
Proof. by destruct b. Qed.

Lemma flag_zero b : (U64 (FLAG b) =? 0) = negb b.
Proof. by destruct b. Qed.

Lemma ucell_lxor a b : is_ucell a -> is_ucell b -> U64 (Z.lxor a b) = Z.lxor a b.
Proof.
  intros Ha Hb. apply Z.bits_inj'. intros i Hi. rewrite testbit_U64, Z.lxor_spec, (testbit_ucell a), (testbit_ucell b) by done.
  by destruct (i <? 64).
Qed.

(** [xor 0=] *)
Lemma lxor_eqb_0 a b : is_ucell a -> is_ucell b -> (S64 (Z.lxor a b) =? 0) = (a =? b).
Proof.
  intros Ha Hb. rewrite <- ucell_lxor, S64_eqb_0, ucell_lxor by (done || apply U64_range).
  destruct (Z.eqb_spec a b) as [->|Hn]; [by rewrite Z.lxor_nilpotent|].
  apply Z.eqb_neq. intros H. apply Hn. by apply Z.lxor_eq.
Qed.

(** [xor 0<] *)
Lemma lxor_ltb_0 a b : is_ucell a -> is_ucell b ->
  (S64 (Z.lxor a b) <? 0) = xorb (S64 a <? 0) (S64 b <? 0).
Proof.
  intros Ha Hb. rewrite <- ucell_lxor, <- !top_bit by (done || apply U64_range).
  by rewrite testbit_U64, Z.lxor_spec by lia.
Qed.

(** [MINI xor] *)
Lemma lxor_MINI z : is_ucell z -> U64 (Z.lxor z (U64 BH)) = U64 (z + BH).
Proof.
  intros Hz. change (U64 BH) with BH.
  assert (H0 : forall y, 0 <= y < BH -> Z.lxor y BH = y + BH).
  { intros y Hy. rewrite <- Z.add_nocarry_lxor; [done|]. apply Z.bits_inj'. intros i Hi.
    rewrite Z.land_spec, Z.bits_0. change BH with (2 ^ 63). rewrite Z.pow2_bits_eqb by lia.
    destruct (Z.eqb_spec 63 i) as [<-|]; [|apply andb_false_r].
    rewrite top_bit by wrap_lia. rewrite andb_true_r. apply Z.ltb_ge. wrap_lia. }
  destruct (Z.lt_ge_cases z BH).
  - rewrite H0; [done|]. unfold is_ucell in Hz. lia.
  - replace z with (z - BH + BH) at 1 by lia. rewrite <- (H0 (z - BH)) by wrap_lia.
    rewrite Z.lxor_assoc, Z.lxor_nilpotent, Z.lxor_0_r. wrap_lia.
Qed.

(** [MINI and 0<>] *)
Lemma land_MINI z : is_ucell z -> (S64 (Z.land z (U64 BH)) =? 0) = negb (S64 z <? 0).
Proof.
  intros Hz. rewrite <- S64_U64, S64_eqb_0 by apply U64_range. rewrite <- top_bit by done. change (U64 BH) with (2 ^ 63).
  destruct (Z.testbit z 63) eqn:E; cbn [negb].
  - apply Z.eqb_neq. intros H. assert (Hf : Z.testbit (U64 (Z.land z (2 ^ 63))) 63 = false) by (by rewrite H).
    rewrite testbit_U64, Z.land_spec, E, Z.pow2_bits_true in Hf by lia. discriminate.
  - apply Z.eqb_eq. apply Z.bits_inj'. intros i Hi. rewrite testbit_U64, Z.land_spec, Z.bits_0, Z.pow2_bits_eqb by lia.
    destruct (Z.eqb_spec 63 i) as [<-|]; [by rewrite E|]. by rewrite !andb_false_r.
Qed.

Lemma shiftr_cell x k : is_cell x -> 0 <= k -> S64 (Z.shiftr x k) = Z.shiftr x k.
Proof.
  intros Hx Hk. apply S64_small. rewrite Z.shiftr_div_pow2 by done. unfold is_cell in *.
  assert (0 < 2 ^ k) by (apply Z.pow_pos_nonneg; lia). split.
  - apply Z.div_le_lower_bound; nia.
  - apply Z.div_lt_upper_bound; nia.
Qed.

(** A selection by masks. *)
Lemma mask_select b x y : is_ucell x -> is_ucell y ->
  U64 (Z.lor (U64 (Z.land (U64 (FLAG (negb b))) x)) (U64 (Z.land (U64 (FLAG b)) y))) = if b then y else x.
Proof.
  intros Hx Hy. destruct b; cbn [FLAG negb]; [rewrite <- (U64_small y Hy) at 2|rewrite <- (U64_small x Hx) at 2];
    apply Z.bits_inj'; intros i Hi; rewrite ?testbit_U64, ?Z.lor_spec, ?Z.land_spec by done;
    rewrite ?testbit_U64, ?Z.land_spec by done; rewrite ?testbit_U64, ?Z.bits_m1, ?Z.bits_0 by done;
    destruct (i <? 64), (Z.testbit x i), (Z.testbit y i); reflexivity.
Qed.

Lemma FLAG_eqb_0 b : (FLAG b =? 0) = negb b.
Proof. by destruct b. Qed.

Lemma U64_add_S64 a b : U64 (S64 a + S64 b) = U64 (a + b).
Proof. wrap_lia. Qed.

Lemma uless_same_sign a b : is_ucell a -> is_ucell b -> xorb (S64 a <? 0) (S64 b <? 0) = false ->
  (S64 (S64 a - S64 b) <? 0) = (a <? b).
Proof.
  intros Ha Hb. destruct (Z.ltb_spec (S64 a) 0), (Z.ltb_spec (S64 b) 0); try discriminate; intros _;
    destruct (Z.ltb_spec a b); [apply Z.ltb_lt|apply Z.ltb_ge|apply Z.ltb_lt|apply Z.ltb_ge]; wrap_lia.
Qed.

Lemma uless_other_sign a b : is_ucell a -> is_ucell b -> xorb (S64 a <? 0) (S64 b <? 0) = true ->
  (S64 b <? 0) = (a <? b).
Proof.
  intros Ha Hb. destruct (Z.ltb_spec (S64 a) 0), (Z.ltb_spec (S64 b) 0); try discriminate; intros _; symmetry;
    [apply Z.ltb_ge|apply Z.ltb_lt]; wrap_lia.
Qed.

Lemma lnot_sub x : Z.lnot x = - x - 1.
Proof. unfold Z.lnot. lia. Qed.

Section Forth.
Context (ovf chk : bool) (symbols : Z -> option prim) (m0 : memory) (static : Z -> bool) (dmax rmax : nat).
Context (lab : prim -> Z).

Local Abbreviation asteps := (asteps ovf chk symbols m0 static dmax rmax).
Local Abbreviation threaded := (threaded m0 static).
Local Abbreviation labels_ok := (labels_ok symbols lab).

(** MINI and MAXU of the kernel. *)
Definition MINI : Z := BH.
Definition MAXU : Z := B - 1.

Definition zless : prim := I_compare cmp_zero c_less_than.
Definition zequals : prim := I_compare cmp_zero c_equals.
Definition znot_equals : prim := I_compare cmp_zero c_not_equals.
Definition less : prim := I_compare cmp_signed c_less_than.
Definition greater : prim := I_compare cmp_signed c_greater_than.
Definition equals : prim := I_compare cmp_signed c_equals.
Definition uless : prim := I_compare cmp_unsigned c_less_than.
Definition ugreater : prim := I_compare cmp_unsigned c_greater_than.
Definition qbranch : prim := I_cond question_branch.

Definition less_or_equal (p : comparison_prefix) : prim := I_compare p c_less_or_equal.

(** [IF] is [?branch], [ELSE] is [branch], with the address of their target; a
    number is [lit] with the number. *)
Definition forth (p : prim) (base : Z) : option (list Z) :=
  let at_ (k : nat) := at_ base k in
  let lit v := [lab I_lit; v] in
  match p with
  (* control *)
  | I_noop => Some [lab I_semis]
  | I_unloop => Some [lab I_r_from; lab I_rdrop; lab I_rdrop; lab I_to_r; lab I_semis]
  | I_branch => Some [lab I_r_from; lab I_fetch; lab I_to_r; lab I_semis]
  | I_cond question_branch => Some
      [lab zequals; lab I_dupe; lab zequals; lab I_r_from; lab I_tuck; lab I_cell_plus; lab I_and;
       lab I_not_rote; lab I_fetch; lab I_and; lab I_or; lab I_to_r; lab I_semis]
  | I_cond paren_next => Some
      [lab I_r_from; lab I_r_from; lab I_dupe; lab I_one_minus; lab I_to_r;
       lab qbranch; at_ 11%nat; lab I_fetch; lab I_to_r; lab I_branch; at_ 13%nat; lab I_cell_plus; lab I_to_r; lab I_semis]
  | I_paren_for => Some ([lab I_r_from; lab I_swap] ++ lit 0 ++ [lab I_to_r; lab I_to_r; lab I_to_r; lab I_semis])
  | I_paren_do => Some [lab I_r_from; lab I_swap; lab I_rote; lab I_to_r; lab I_to_r; lab I_to_r; lab I_semis]
  | I_do paren_question_do => Some
      [lab I_two_dupe; lab equals; lab qbranch; at_ 13%nat;
       lab I_r_from; lab I_swap; lab I_rote; lab I_to_r; lab I_to_r; lab I_fetch; lab I_to_r; lab I_branch; at_ 20%nat;
       lab I_r_from; lab I_swap; lab I_rote; lab I_to_r; lab I_to_r; lab I_cell_plus; lab I_to_r; lab I_semis]
  | I_i => Some [lab I_r_from; lab I_r_from; lab I_tuck; lab I_to_r; lab I_to_r; lab I_semis]
  | I_bounds => Some [lab I_over; lab I_plus; lab I_swap; lab I_semis]
  | I_delta_i => Some [lab I_r_from; lab I_i_tick; lab I_i; lab I_minus; lab I_swap; lab I_to_r; lab I_semis]
  (* strings *)
  | I_slash_string => Some [lab I_tuck; lab I_minus; lab I_to_r; lab I_plus; lab I_r_from; lab I_semis]
  | I_safe_slash_string => Some (lit 0 ++ [lab I_max; lab I_over; lab I_umin; lab I_slash_string; lab I_semis])
  (* arithmetic *)
  | I_lit => Some [lab I_r_from; lab I_dupe; lab I_fetch; lab I_swap; lab I_cell_plus; lab I_to_r; lab I_semis]
  | I_under_plus => Some [lab I_rote; lab I_plus; lab I_swap; lab I_semis]
  | I_minus => Some [lab I_negate; lab I_plus; lab I_semis]
  | I_negate => Some [lab I_invert; lab I_one_plus; lab I_semis]
  | I_one_plus => Some (lit 1 ++ [lab I_plus; lab I_semis])
  | I_one_minus => Some (lit 1 ++ [lab I_minus; lab I_semis])
  | I_max => Some [lab I_two_dupe; lab less; lab qbranch; at_ 5%nat; lab I_swap; lab I_drop; lab I_semis]
  | I_min => Some [lab I_two_dupe; lab greater; lab qbranch; at_ 5%nat; lab I_swap; lab I_drop; lab I_semis]
  | I_abs => Some [lab I_dupe; lab zless; lab qbranch; at_ 5%nat; lab I_negate; lab I_semis]
  | I_two_star => Some [lab I_dupe; lab I_plus; lab I_semis]
  | I_d_plus => Some
      [lab I_rote; lab I_plus; lab I_to_r; lab I_tuck; lab I_plus; lab I_swap; lab I_over; lab ugreater;
       lab I_r_from; lab I_swap; lab I_minus; lab I_semis]
  | I_d_minus => Some [lab I_d_negate; lab I_d_plus; lab I_semis]
  | I_d_negate => Some
      [lab I_invert; lab I_swap; lab I_negate; lab I_tuck; lab zequals; lab I_minus; lab I_semis]
  | I_or => Some [lab I_invert; lab I_swap; lab I_invert; lab I_and; lab I_invert; lab I_semis]
  | I_invert => Some (lit MAXU ++ [lab I_x_or; lab I_semis])
  | I_umax => Some [lab I_two_dupe; lab ugreater; lab I_select; lab I_semis]
  | I_umin => Some [lab I_two_dupe; lab uless; lab I_select; lab I_semis]
  | I_mux => Some
      [lab I_tuck; lab I_invert; lab I_and; lab I_rote; lab I_rote; lab I_and; lab I_or; lab I_semis]
  | I_select => Some [lab qbranch; at_ 3%nat; lab I_swap; lab I_nip; lab I_semis]
  (* comparison *)
  | I_compare cmp_zero c_equals => Some
      ([lab qbranch; at_ 6%nat] ++ lit 0 ++ [lab I_branch; at_ 8%nat] ++ lit MAXU ++ [lab I_semis])
  | I_compare cmp_zero c_not_equals => Some
      ([lab qbranch; at_ 6%nat] ++ lit MAXU ++ [lab I_branch; at_ 8%nat] ++ lit 0 ++ [lab I_semis])
  | I_compare cmp_zero c_less_than => Some (lit MINI ++ [lab I_and; lab znot_equals; lab I_semis])
  | I_compare _ c_equals => Some [lab I_x_or; lab zequals; lab I_semis]
  | I_compare _ c_not_equals => Some [lab I_x_or; lab znot_equals; lab I_semis]
  | I_compare cmp_signed c_less_than => Some
      (lit MINI ++ [lab I_x_or; lab I_to_r] ++ lit MINI ++ [lab I_x_or; lab I_r_from; lab uless; lab I_semis])
  | I_compare cmp_unsigned c_less_than => Some
      [lab I_two_dupe; lab I_x_or; lab zless; lab qbranch; at_ 8%nat; lab I_nip; lab I_branch; at_ 9%nat; lab I_minus;
       lab zless; lab I_semis]
  | I_compare cmp_signed c_greater_than => Some [lab I_swap; lab less; lab I_semis]
  | I_compare cmp_unsigned c_greater_than => Some [lab I_swap; lab uless; lab I_semis]
  | I_compare pre c_less_or_equal => Some [lab (I_compare pre c_greater_than); lab zequals; lab I_semis]
  | I_compare cmp_signed c_greater_or_equal => Some [lab I_swap; lab (less_or_equal cmp_signed); lab I_semis]
  | I_compare cmp_unsigned c_greater_or_equal => Some [lab I_swap; lab (less_or_equal cmp_unsigned); lab I_semis]
  | I_within => Some
      [lab I_over; lab I_minus; lab I_to_r; lab I_minus; lab I_r_from; lab uless; lab I_semis]
  (* stacks *)
  | I_rdrop => Some [lab I_r_from; lab I_r_from; lab I_drop; lab I_to_r; lab I_semis]
  | I_two_to_r => Some
      [lab I_swap; lab I_r_from; lab I_swap; lab I_to_r; lab I_swap; lab I_to_r; lab I_to_r; lab I_semis]
  | I_two_r_from => Some
      [lab I_r_from; lab I_r_from; lab I_swap; lab I_r_from; lab I_swap; lab I_to_r; lab I_swap; lab I_semis]
  | I_two_r_drop => Some
      [lab I_r_from; lab I_r_from; lab I_drop; lab I_r_from; lab I_drop; lab I_to_r; lab I_semis]
  | I_drop => Some [lab qbranch; at_ 2%nat; lab I_semis]
  | I_rote => Some [lab I_to_r; lab I_swap; lab I_r_from; lab I_swap; lab I_semis]
  | I_not_rote => Some [lab I_rote; lab I_rote; lab I_semis]
  | I_nip => Some [lab I_swap; lab I_drop; lab I_semis]
  | I_tuck => Some [lab I_swap; lab I_over; lab I_semis]
  | I_two_drop => Some [lab I_drop; lab I_drop; lab I_semis]
  | I_two_dupe => Some [lab I_over; lab I_over; lab I_semis]
  | I_two_swap => Some [lab I_rote; lab I_to_r; lab I_rote; lab I_r_from; lab I_semis]
  | I_two_rote => Some
      [lab I_to_r; lab I_to_r; lab I_two_swap; lab I_r_from; lab I_r_from; lab I_two_swap; lab I_semis]
  | I_two_nip => Some [lab I_two_swap; lab I_two_drop; lab I_semis]
  | I_two_tuck => Some [lab I_two_swap; lab I_two_over; lab I_semis]
  (* memory *)
  | I_cell_plus => Some (lit 8 ++ [lab I_plus; lab I_semis])
  | I_cells => Some [lab I_two_star; lab I_two_star; lab I_two_star; lab I_semis]
  | I_char_plus => Some [lab I_one_plus; lab I_semis]
  | I_cell_divide => Some [lab I_two_slash; lab I_two_slash; lab I_two_slash; lab I_semis]
  | I_cell_minus => Some (lit 8 ++ [lab I_minus; lab I_semis])
  | I_aligned => Some (lit 7 ++ [lab I_plus] ++ lit (B - 8) ++ [lab I_and; lab I_semis])
  | _ => None
  end.

Ltac normalize_cells :=
  repeat match goal with
  | H : is_ucell ?x |- context [U64 ?x] => rewrite (U64_small x H)
  | |- context [U64 (U64 ?x)] => rewrite (U64_small (U64 x) (U64_range x))
  end.

(** One step of a Forth definition. *)
Ltac forth_step HL Ht :=
  eapply rtc_l;
  [ eapply (astep_threaded ovf chk symbols m0 static dmax rmax lab _ _ _ _ _ _ _ _ _ HL Ht);
    [ reflexivity | cbn; lia | reflexivity | cbn; lia | cbn; lia | first [reflexivity | cbn; eassumption]
    | cbn -[S64 U64 load_cell]; reflexivity | cbn; lia | cbn; rewrite ?take_0; cbn; lia ]
  | cbn -[S64 U64 at_ load_cell D_of_Z]; rewrite ?take_0, ?drop_0; cbn [nth app rev]; normalize_cells ].

(** A conditional branch on a flag. *)
Ltac forth_branch :=
  rewrite ?flag_zero;
  match goal with
  | |- rtc _ (AM (ip (if ?b then _ else _)) _ _) _ => destruct b eqn:?
  | |- rtc _ (AM (ip (if negb ?b then _ else _)) _ _) _ => destruct b eqn:?
  end; cbn -[S64 U64 at_ load_cell D_of_Z]; rewrite ?take_0, ?drop_0.

Lemma arrived i i' ds ds' rs rs' : i = i' -> ds = ds' -> rs = rs' -> asteps (AM i ds rs) (AM i' ds' rs').
Proof. intros -> -> ->. apply rtc_refl. Qed.

(** Equations between cells: rewrite tests of bit patterns, then compare bits
    or calculate. *)
Ltac use_tests :=
  repeat match goal with H : ?b = true |- context [?b] => rewrite H | H : ?b = false |- context [?b] => rewrite H end.
(** The two branches of [u<]. *)
Ltac compare_signs :=
  zbool;
  match goal with
  | H : xorb (S64 ?a <? 0) (S64 ?b <? 0) = false |- context [S64 (S64 ?a - S64 ?b) <? 0] =>
      rewrite (uless_same_sign a b) by assumption
  | H : xorb (S64 ?a <? 0) (S64 ?b <? 0) = true |- context [S64 ?b <? 0] =>
      rewrite (uless_other_sign a b) by assumption
  end.
Ltac cell_side := first [ assumption | apply S64_range | apply U64_range | lia ].
Ltac cell_rewrite :=
  repeat first
  [ rewrite S64_U64 in * | rewrite S64_flag in * | rewrite FLAG_eqb_0 in *
  | rewrite lxor_eqb_0 in * by cell_side | rewrite lxor_ltb_0 in * by cell_side
  | rewrite land_MINI in * by cell_side | rewrite lxor_MINI in * by cell_side
  | rewrite mask_select by cell_side | rewrite U64_add_S64
  | rewrite shiftr_cell by cell_side | rewrite Z.shiftr_shiftr by lia
  | rewrite S64_eqb_0 in * by cell_side | rewrite S64_eqb in * by cell_side ].
Ltac cell_equal :=
  unfold MINI in *; change (U64 MAXU) with (U64 (-1)); change (U64 (B - 8)) with (U64 (-8)); cell_rewrite;
  change (S64 0) with 0 in *;
  first [ reflexivity
        | progress use_tests; reflexivity
        | match goal with |- context [ip (if ?b then _ else _)] => destruct b eqn:? end;
          cbn [ip set_ip vm0]; zbool; first [reflexivity | lia]
        | compare_signs; reflexivity
        | bits_equal
        | rewrite ?lnot_sub; unfold FLAG, c_bool, dval in *; cbn [d_hi d_lo] in *;
          repeat case_match; zbool; zbool; wrap_lia ].
Ltac cells_equal := first [ reflexivity | lia | apply (f_equal2 cons); cells_equal | cell_equal ].

Ltac forth_run HL Ht := repeat first [forth_step HL Ht | forth_branch].

(** C13: calling the Forth definition of a primitive has the same effect as the
    primitive: for each of the primitives with a definition in [forth], and
    any cells on the stacks, the threaded code of the definition takes the
    primitive's arguments and leaves its results, reads inline arguments
    behind the call, and returns to where the primitive continues.
    (The stacks have room for ten more cells, and the C code does not throw.) *)
Theorem forth_definitions_agree (p : prim) (base : Z) (l d r ds rs outs routs : list Z) (ret : Z) (s' : vm) :
  labels_ok -> forth p base = Some l -> threaded base l ->
  is_ucell ret -> is_ucell (ret + 8) -> static_range static ret 8 = true -> is_ucell (load_cell m0 ret) ->
  length d = n_in (stack_effect p) -> length r = n_rin (stack_effect p) -> Forall is_ucell d -> Forall is_ucell r ->
  (length ds + 10 <= dmax)%nat -> (length rs + 10 <= rmax)%nat ->
  let n := n_inst (stack_effect p) in
  code ovf chk p (cells_at m0 ret n) d r (vm0 m0 (ret + 8 * Z.of_nat n)) = Next s' outs routs ->
  asteps (AM base (rev d ++ ds) (ret :: rev r ++ rs))
    (AM (ip s') (rev (map U64 outs) ++ ds) (rev (map U64 routs) ++ rs)).
Proof.
  intros HL Hf Ht Hret Hret8 Hst Htg Ld Lr Fd Fr Hd Hr n Hc. subst n.
  assert (E : base = at_ base 0%nat) by (unfold at_; lia). rewrite E at 1.
  destruct p; try discriminate Hf; try (destruct c; try discriminate Hf); try (destruct k; try discriminate Hf);
    try (destruct p, o; try discriminate Hf); injection Hf as <-; cbn in Ld, Lr;
    repeat (destruct d as [|? d]; try discriminate Ld); repeat (destruct r as [|? r]; try discriminate Lr);
    repeat match goal with H : Forall _ (_ :: _) |- _ => apply List.Forall_cons_iff in H as [? H] end;
    cbn -[S64 U64 D_of_Z load_cell] in Hc; injection Hc as <- <- <-; cbn [rev app map nth].
  all: forth_run HL Ht.
  all: (apply arrived; [cbn -[U64 S64 load_cell]| |]).
  all: cells_equal.
Qed.
End Forth.

(** ** Definitions that do not agree

    [0>] (and [0>=], which is defined like it) negates, which does nothing to
    the least number; [2r@] fetches the two cells in the wrong order; at the
    end of [(loop)] the index is not stepped; [(+do)] compares the limit with
    the return address and continues at an address made of the start value. *)
Definition forth_deviating (p : prim) (base : Z) : option (list Z) :=
  let lab := table_label in
  let at_ (k : nat) := at_ base k in
  match p with
  | I_compare cmp_zero c_greater_than => Some [lab I_negate; lab zless; lab I_semis]
  | I_two_r_fetch => Some [lab I_i_tick; lab I_j; lab I_semis]
  | I_cond paren_loop => Some
      [lab I_r_from; lab I_r_from; lab I_one_plus; lab I_r_from; lab I_two_dupe; lab equals; lab qbranch; at_ 15%nat;
       lab I_to_r; lab I_one_minus; lab I_to_r; lab I_cell_plus; lab I_to_r; lab I_branch; at_ 19%nat;
       lab I_to_r; lab I_to_r; lab I_fetch; lab I_to_r; lab I_semis]
  | I_do paren_plus_do => Some
      [lab I_swap; lab I_two_dupe; lab I_r_from; lab I_swap; lab I_to_r; lab I_swap; lab I_to_r;
       lab (I_compare cmp_signed c_greater_or_equal); lab qbranch; at_ 13%nat; lab I_fetch; lab I_branch; at_ 14%nat;
       lab I_cell_plus; lab I_to_r; lab I_semis]
  | _ => None
  end.

(** Calling a definition at 4096 from 8192, where the branch target 8200 is:
    the state after [n] steps, and what the primitive does instead. *)
Definition demo_forth (p : prim) (n : nat) (d r : list Z) : option am :=
  forth_deviating p 4096 ≫= fun l =>
  arun true false table_symbols (demo_mem l 8200) demo_static 64 64 n (AM 4096 (rev d) (8192 :: rev r)).
Definition demo_prim (p : prim) (d r : list Z) : option am :=
  let n := n_inst (stack_effect p) in
  match code true false p (cells_at (demo_mem [] 8200) 8192 n) d r (vm0 (demo_mem [] 8200) (8192 + 8 * Z.of_nat n)) with
  | Next s outs routs => Some (AM (ip s) (rev (map U64 outs)) (rev (map U64 routs)))
  | _ => None
  end.

Lemma zero_greater_deviates :
  demo_forth (I_compare cmp_zero c_greater_than) 3 [BH] [] = Some (AM 8192 [U64 (-1)] []) /\
  demo_prim (I_compare cmp_zero c_greater_than) [BH] [] = Some (AM 8192 [0] []).
Proof. split; vm_compute; reflexivity. Qed.

Lemma two_r_fetch_deviates :
  demo_forth I_two_r_fetch 3 [] [1; 2] = Some (AM 8192 [1; 2] [2; 1]) /\
  demo_prim I_two_r_fetch [] [1; 2] = Some (AM 8192 [2; 1] [2; 1]).
Proof. split; vm_compute; reflexivity. Qed.

Lemma loop_exit_deviates :
  demo_forth (I_cond paren_loop) 14 [] [10; 9] = Some (AM 8200 [] [9; 10]) /\
  demo_prim (I_cond paren_loop) [] [10; 9] = Some (AM 8200 [] [10; 10]).
Proof. split; vm_compute; reflexivity. Qed.

Lemma plus_do_deviates :
  demo_forth (I_do paren_plus_do) 12 [10; 5] [] = Some (AM 13 [] [5; 10]) /\
  demo_prim (I_do paren_plus_do) [10; 5] [] = Some (AM 8200 [] [5; 10]).
Proof. split; vm_compute; reflexivity. Qed.

(** [max], called from 8192. *)
Definition demo_max : list Z :=
  [table_label I_two_dupe; table_label less; table_label qbranch; at_ 4096 5; table_label I_swap;
   table_label I_drop; table_label I_semis].

Lemma forth_definitions_agree_witness :
  asteps false false table_symbols (demo_mem demo_max 0) demo_static 64 64
    (AM 4096 [9; 4] [8192]) (AM 8192 [9] []).
Proof.
  refine (forth_definitions_agree false false table_symbols (demo_mem demo_max 0) demo_static 64 64 table_label
    I_max 4096 demo_max [4; 9] [] [] [] [9] [] 8192 (vm0 (demo_mem demo_max 0) 8192)
    table_symbols_label eq_refl _ _ _ _ _ eq_refl eq_refl _ _ _ _ eq_refl).
  - split; vm_compute; reflexivity.
  - unfold is_ucell, B. lia.
  - unfold is_ucell, B. lia.
  - reflexivity.
  - unfold is_ucell, B. vm_compute. split; [discriminate|reflexivity].
  - repeat (apply List.Forall_cons; [unfold is_ucell, B; lia|]). apply List.Forall_nil.
  - apply List.Forall_nil.
  - cbn. lia.
  - cbn. lia.
Defined.
